(* ===== verification/_CoqProject ===== *)
-Q . S2P
Prelude.v
Abi.v
Handles.v
Quota.v
Account.v
BTree.v
Vm.v
VmAreas.v
VmEntries.v
VmInv.v
VmCalls.v
VmSteps.v
VmPlane.v
VmRun.v
Signal.v
Slots.v
SlotInv.v
SlotPlane.v
SlotSys.v
SlotSafe.v
SlotRun.v
PlanePort.v
PlaneArena.v
Plane.v
PlaneInv.v
PlaneModel.v
PlaneRun.v
ArrowFormat.v
Flatbuf.v
ArrowSchema.v
ArrowWalk.v
ArrowFrame.v
ArrowRecord.v
Verify.v
StoreFormat.v
StoreCodec.v
StoreTree.v
StoreProof.v
StoreJournal.v
StoreBanks.v
StoreDisk.v
StoreCrash.v
StoreLog.v
StoreRoot.v
StoreVolume.v
StoreState.v
StoreMount.v
StorePut.v
StoreRead.v
StoreFresh.v
StoreList.v
StoreReserved.v
StoreCopy.v
StoreRoom.v
StoreMove.v
StoreTyped.v
StoreRun.v
StoreExample.v
