(* ===== verification/Prelude.v ===== *)
(** * Moruna: a verification library

    Moruna is a data engine on a microkernel of its own.  This library models, as Rocq functions one
    can run, the parts of it that decide who holds what memory, what a record of the data plane is,
    and what a storage volume has after a crash; and proves what makes each of them correct.  Paths
    are under [src/].  This file is the prelude: results, the state-and-error monad and [wp],
    machine integers with their checked and wrapping operations, byte lists, and the tactics and
    lemmas the rest share.

    ** The parts and how they meet

    - Memory accounting.  [Handles] is the handle table of a process ([kernel/handles/src/lib.rs]),
      [Quota] an account's ledger and the count of page tables ([kernel/quota/src/lib.rs]), [Account]
      the accounts carved from one another and their charges ([kernel/core/src/account.rs]); [Abi]
      holds the codes and constants all of them use ([kernel/abi/src/lib.rs]).
    - Address spaces, [kernel/core/src/vm.rs].  [Vm] is a space's areas, page table and charge, over
      the class [Ostd] of the hardware layer; a space pays through [Account] and [Quota].  [VmAreas],
      [VmEntries], [VmInv] and [VmCalls] are its invariant, call by call; [VmSteps] the states that
      calls reach and what a page shows there; [VmPlane] what the data plane needs of a space;
      [VmRun] a space that runs.  [BTree] is the ordered map the areas are kept in.
    - Slots, [kernel/core/src/plane.rs].  [Signal] are the bits threads wait on
      ([kernel/core/src/signal.rs]), [Slots] a slot between the engine and a task with the mapping of
      its windows in the task's space ([Vm]), [SlotPlane] a process's slots, [SlotSys] processes,
      threads, slots and port calls together; [SlotInv] and [SlotSafe] what every state keeps and
      [SlotRun] a run.
    - The engine's side, [kernel/plane/core/src].  [PlanePort] has the types of [port.rs] and the
      kernel's calls of [calls.rs] as a class with the laws the plane rests on; [PlaneArena] is
      [arena.rs]; [Plane] is [KernelPlane] of [plane.rs], proved in [PlaneInv] over any kernel with
      those laws; [PlaneModel] is the kernel of [model.rs], shown to have them; [PlaneRun] a run.
    - The record check, [kernel/plane/check/src].  [ArrowFormat] and [Flatbuf] read FlatBuffers
      ([format.rs], [fb.rs]); [ArrowSchema], [ArrowWalk], [ArrowFrame] and [ArrowRecord] are
      [schema.rs], [walk.rs], [frame.rs] and [record.rs]; [Verify] is the engine's use of the check
      ([kernel/plane/core/src/verify.rs]).
    - Storage.  The format, [crates/moruna-storage-format/src]: [StoreFormat] the frames and their
      codec and [StoreTree] extents, digest trees and proofs ([lib.rs]), [StoreJournal] the journal
      ([journal.rs]), [StoreBanks] the two root cells ([banks.rs]).  The service,
      [kernel/storage/src]: [StoreDisk] the device and what a crash leaves of it ([device.rs] and the
      block functions of [volume.rs]), [StoreVolume] mounting, formatting, putting, reading and
      listing ([volume.rs]), [StoreReserved] compaction ([volume_compact.rs], [device_reserved.rs]).
      [StoreCodec], [StoreProof], [StoreLog] and [StoreRoot] are the format's laws, [StoreCrash] the
      device's; [StoreState] says what a device holds when a volume is on it, and [StoreMount],
      [StorePut], [StoreRead], [StoreFresh], [StoreList], [StoreCopy], [StoreRoom] and [StoreMove]
      treat one operation each; [StoreTyped] is the type invariant; [StoreRun] the volume as its
      clients see it and [StoreExample] a small one.

    ** How code becomes definitions

    A method on [&mut self] that may fail is a computation of [M S E A]: a result and the state it
    leaves, the error included, for an error undoes nothing.  What is behind [Rc], [Arc] or a lock is
    an entry of a store, and what one lock protects is one step; where threads interleave, the steps
    are a relation ([Account], [VmSteps], [SlotSys]).  Integers are [Z] with their widths as
    hypotheses or invariants and their wrap-around written out.  The outcome of an allocation, the
    answer of a driver, the power and random bytes are arguments: in [StoreDisk] a list of answers,
    one for each question, so a theorem holds of every failure at every point.  Code outside the
    sources is a parameter with its documented behaviour as laws: [Ostd], the kernel's calls in
    [CallsLaws], BLAKE3 as a function that gives 32 bytes, the live set of a compaction.

    ** What is shown

    - Storage.  A put is all or nothing whatever fails and whenever the power does; a mount finds what
      a device holds; what a put answered is read back after any crash; a compaction leaves the old
      volume or the pruned one, and has the room it needs; a format makes an empty volume; a root
      cell torn by a crash makes the next mount refuse and loses no object; a request
      does to the abstract store what it says; a read is exact or refused, up to collisions of the
      digest, and a refused one leaves nothing behind; listings are complete; the codec and the
      digest proofs are exact; and in every state the root and the journal are well typed, with no
      assumption on the device.
    - Slots.  A task's entries over the data plane are the windows it holds, writable only as its
      current output; no wake-up is lost; objects come back once and in order; binding takes all the
      slots or none.
    - The engine's plane.  Every object is in one place, shares and residency are exact, an ended task
      holds nothing, no bookkeeping error is reachable, and the arena stays in its budget.
    - The record check.  A record it accepts is one, it judges the record's own bytes, it ends and
      never panics, and it walks the layout of every type; a reframed stream lies as it should, and
      its framing says so when the parts of the message it rewrites are apart ([separate]).
    - Memory.  No account is overcommitted and the accounting is never found broken; a handle table
      is the map its callers see; the page tables counted are those the areas need; an address space
      does to its pages what each call promises, no entry is writable and executable, and its charge
      is exact.  The theorems on spaces and slots let the kernel choose an address only while no
      mapping lies across [MAP_BASE] ([unstraddled]); [VmPlane.straddling_map_hides] is what happens
      otherwise.

    A theorem with hypotheses has a witness beside it or in [SlotRun], [VmRun], [PlaneRun] or
    [StoreExample].  Where the code does not do what it means to, the theorem says what it does:
    [Handles.closed_value_reissued], [ArrowRecord.reframe_wraps], [VmPlane.straddling_map_hides]
    and the refused zeroing of [StoreRun.refused_read_zeroed].

    ** Bounds

    A loop whose end is not structural takes a count of rounds, and a theorem shows the count is
    enough or that running out is never seen.  The schema's recursion and the walk take 64, the
    depth the reader allows; the measure of a framing takes 3; [Plane.next] the events its slots can
    have; [populate] the pages of its range; [plan_levels] 64, more than the levels of any tree over
    64-bit sizes at a fan-out of at least 16; [replay_log] one more than the pairs the log has room
    for; [walk_nodes] one more than the steps of its proof.

    Two hypotheses on volumes are about sizes, not about failures: for [put] a cell of the log is one
    transfer of the device, and for [format] an encoded root is within a sector; the code asks for
    neither.  A crash is modelled twice.  [crash] leaves each sector as it was or as one of the
    writes to it made it, and is what the theorems on puts, formats and requests are about.  [torn]
    also mixes the bytes of a sector, for the design assumes no atomic sectors
    ([architecture/sdd/32-storage.md]) and asks that a torn root fails closed: the theorems on
    mounts and compactions give, for [torn], that the volume is there or fails closed
    ([fails_closed]), and for [crash], when a root is within a sector ([one_sector]), that it is
    there.  A torn cell that passes the root's own checks, its digest included, is not excluded:
    BLAKE3 is any function here.

    ** Not modelled

    The rest of the kernel (channels, futexes, processes, system calls, boot), the drivers, the
    network, the node supervisor, the image file system, the Linux personality and the crates of the
    engine outside the data plane are not modelled: most are over hardware registers, third-party
    packages or the operating system, and what remains shares no state with the parts above.  Of
    storage, the asynchronous volume and its queue of tickets ([volume_async.rs], [device_async.rs]),
    the encrypted volume, namespaces, sessions and the service's messages are not: the asynchronous
    volume repeats the synchronous one over futures, of which only compaction, run to its end, is
    here; the encrypted volume is over a cipher package.  Of a port call, the exchange on its channel
    is not; of consoles, only that a line was printed is. *)

From Stdlib Require Export ZArith Lia.
From Stdlib Require Export Strings.Byte.
From stdpp Require Export base numbers list gmap strings sorting.

Declare Scope moruna_scope.
Delimit Scope moruna_scope with moruna.
#[global] Open Scope Z_scope.
#[global] Open Scope moruna_scope.

(** ** Results and the state-and-error monad *)

(** Rust's [Result<A, E>], the error type first so that [result E] is a type
    constructor with a bind. *)
Inductive result (E A : Type) : Type :=
| Ok (a : A)
| Err (e : E).
Arguments Ok {E A} _.
Arguments Err {E A} _.

#[export] Instance result_ret E : MRet (result E) := fun A a => Ok a.
#[export] Instance result_bind E : MBind (result E) := fun A B k c =>
  match c with Ok a => k a | Err e => Err e end.
#[export] Instance result_fmap E : FMap (result E) := fun A B f c =>
  match c with Ok a => Ok (f a) | Err e => Err e end.

(** [Result::map_err]. *)
Definition map_err {E F A} (f : E → F) (c : result E A) : result F A :=
  match c with Ok a => Ok a | Err e => Err (f e) end.

(** [Option::ok_or]. *)
Definition ok_or {E A} (o : option A) (e : E) : result E A :=
  match o with Some a => Ok a | None => Err e end.

(** [Option::filter]. *)
Definition option_filter {A} (p : A → bool) (o : option A) : option A :=
  match o with Some a => if p a then Some a else None | None => None end.

(** A method on [&mut self] that returns a [Result]: an error leaves the state as
    it was when the error was returned, it does not undo what was done before. *)
Definition M (S E A : Type) : Type := S → result E A * S.

#[export] Instance M_ret S E : MRet (M S E) := fun A a s => (Ok a, s).
#[export] Instance M_bind S E : MBind (M S E) := fun A B k c s =>
  match c s with
  | (Ok a, s') => k a s'
  | (Err e, s') => (Err e, s')
  end.

Definition fail {S E A} (e : E) : M S E A := fun s => (Err e, s).
Definition gets {S E A} (f : S → A) : M S E A := fun s => (Ok (f s), s).
Definition modify {S E} (f : S → S) : M S E unit := fun s => (Ok tt, f s).
Definition act {S E A} (f : S → A * S) : M S E A := fun s => (Ok (f s).1, (f s).2).
Definition lift {S E A} (c : result E A) : M S E A := fun s => (c, s).

(** What holds of a call's result and of the state it leaves. *)
Definition wp {S E A} (c : M S E A) (Q : result E A → S → Prop) (s : S) : Prop :=
  Q (c s).1 (c s).2.

(** A [format!] text: its literal parts, the numbers between them, and the strings printed
    with [{:?}]. *)
Inductive frag := T (s : string) | N (z : Z) | Q (s : list byte).
Definition text := list frag.

(** ** Machine integers

    A [w]-bit unsigned integer is a [Z] in [0 .. 2^w).  Arithmetic the source leaves
    unchecked wraps in the release profile ([overflow-checks] is off in both
    workspaces), so it is written with [wrap]; the checked and the saturating
    operations are those of the standard library. *)

Definition wrap (w z : Z) : Z := z mod 2 ^ w.
Definition in_width (w z : Z) : Prop := 0 ≤ z < 2 ^ w.
Definition umax (w : Z) : Z := 2 ^ w - 1.

Abbreviation u8 := (in_width 8).
Abbreviation u16 := (in_width 16).
Abbreviation u32 := (in_width 32).
Abbreviation u64 := (in_width 64).

Definition wadd (w x y : Z) : Z := wrap w (x + y).
Definition wsub (w x y : Z) : Z := wrap w (x - y).
Definition wmul (w x y : Z) : Z := wrap w (x * y).

Notation "x '+!' y" := (wadd 64 x y) (at level 50, left associativity) : moruna_scope.
Notation "x '-!' y" := (wsub 64 x y) (at level 50, left associativity) : moruna_scope.
Notation "x '*!' y" := (wmul 64 x y) (at level 40, left associativity) : moruna_scope.

Definition checked_add (w x y : Z) : option Z :=
  if x + y <=? umax w then Some (x + y) else None.
Definition checked_sub (x y : Z) : option Z :=
  if y <=? x then Some (x - y) else None.
Definition saturating_sub (x y : Z) : Z := if y <=? x then x - y else 0.
Definition checked_mul (w x y : Z) : option Z :=
  if x * y <=? umax w then Some (x * y) else None.
Definition saturating_mul (w x y : Z) : Z := Z.min (x * y) (umax w).

(** [div_ceil]. *)
Definition div_ceil (x y : Z) : Z := if 0 <? x mod y then x / y + 1 else x / y.

(** [is_multiple_of]: zero is the only multiple of zero. *)
Definition is_multiple_of (x y : Z) : bool := if y =? 0 then x =? 0 else x mod y =? 0.

(** The signed value of [w] bits. *)
Definition signed (w z : Z) : Z := if z <? 2 ^ (w - 1) then z else z - 2 ^ w.

(** [!m] on a [w]-bit value. *)
Definition wnot (w m : Z) : Z := Z.lxor m (umax w).

(** ** Lists as Rust vectors and slices *)

Definition zlen {A} (l : list A) : Z := Z.of_nat (length l).

(** [Vec::pop]: the last element. *)
Definition vec_pop {A} (l : list A) : option (A * list A) :=
  match rev l with
  | [] => None
  | x :: r => Some (x, rev r)
  end.

(** [slice.get(lo..hi)]. *)
Definition get_range {A} (l : list A) (lo hi : Z) : option (list A) :=
  if (0 <=? lo) && (lo <=? hi) && (hi <=? zlen l)
  then Some (take (Z.to_nat (hi - lo)) (drop (Z.to_nat lo) l))
  else None.

(** [slice[lo..lo + bs.len()].copy_from_slice(bs)], in range. *)
Definition put_range {A} (l : list A) (lo : Z) (bs : list A) : list A :=
  take (Z.to_nat lo) l ++ bs ++ drop (Z.to_nat lo + length bs) l.

(** [Vec::swap_remove]: the last element takes the removed one's place. *)
Definition swap_remove {A} (l : list A) (i : nat) : list A :=
  match vec_pop l with
  | None => l
  | Some (x, r) => if Nat.eqb i (length r) then r else <[i := x]> r
  end.

(** [Iterator::min_by_key]: the first of the least. *)
Definition min_by_key {A} (f : A → Z) (l : list A) : option A :=
  foldl (λ acc x, match acc with
                  | None => Some x
                  | Some m => if f x <? f m then Some x else Some m
                  end) None l.

(** [Iterator::max_by_key]: the last of the greatest. *)
Definition max_by_key {A} (f : A → Z) (l : list A) : option A :=
  foldl (λ acc x, match acc with
                  | None => Some x
                  | Some m => if f x <? f m then Some m else Some x
                  end) None l.

(** [Iterator::enumerate]. *)
Definition enumerate {A} (l : list A) : list (nat * A) := imap pair l.

Definition sumZ (l : list Z) : Z := foldr Z.add 0 l.

(** The sum of [f] over a finite map's entries. *)
Definition map_sum {K A} `{Countable K} (f : K → A → Z) (m : gmap K A) : Z :=
  map_fold (λ k a n, f k a + n) 0 m.

(** ** Bytes, little endian *)

Definition byte_Z (b : byte) : Z := Z.of_N (Byte.to_N b).
Definition Z_byte (z : Z) : byte :=
  match Byte.of_N (Z.to_N (z mod 256)) with Some b => b | None => x00 end.

Fixpoint le_enc (n : nat) (z : Z) : list byte :=
  match n with
  | O => []
  | S n => Z_byte z :: le_enc n (z / 256)
  end.

Fixpoint le_dec (l : list byte) : Z :=
  match l with
  | [] => 0
  | b :: l => byte_Z b + 256 * le_dec l
  end.

(** [core::str::from_utf8(..).is_ok()]: the well-formed byte sequences of UTF-8. *)
Definition byte_in (lo hi : Z) (b : byte) : bool := (lo <=? byte_Z b) && (byte_Z b <=? hi).

Fixpoint utf8_valid (l : list byte) : bool :=
  match l with
  | [] => true
  | a :: l1 =>
      if byte_in 0 127 a then utf8_valid l1
      else match l1 with
      | [] => false
      | b :: l2 =>
          if byte_in 194 223 a then byte_in 128 191 b && utf8_valid l2
          else match l2 with
          | [] => false
          | c :: l3 =>
              if byte_in 224 224 a then
                byte_in 160 191 b && byte_in 128 191 c && utf8_valid l3
              else if byte_in 225 236 a || byte_in 238 239 a then
                byte_in 128 191 b && byte_in 128 191 c && utf8_valid l3
              else if byte_in 237 237 a then
                byte_in 128 159 b && byte_in 128 191 c && utf8_valid l3
              else match l3 with
              | [] => false
              | d :: l4 =>
                  if byte_in 240 240 a then
                    byte_in 144 191 b && byte_in 128 191 c && byte_in 128 191 d && utf8_valid l4
                  else if byte_in 241 243 a then
                    byte_in 128 191 b && byte_in 128 191 c && byte_in 128 191 d && utf8_valid l4
                  else if byte_in 244 244 a then
                    byte_in 128 143 b && byte_in 128 191 c && byte_in 128 191 d && utf8_valid l4
                  else false
              end
          end
      end
  end.

#[export] Instance byte_eq_dec : EqDecision byte := Byte.byte_eq_dec.

(** ** Automation *)

Create HintDb moruna.

(** Reflects the boolean comparisons of the code into arithmetic and splits the
    conditionals on them. *)
Ltac reflect_bool :=
  repeat match goal with
  | H : (_ && _)%bool = true |- _ => apply andb_true_iff in H; destruct H
  | H : (_ || _)%bool = false |- _ => apply orb_false_iff in H; destruct H
  | H : (_ <=? _) = true |- _ => apply Z.leb_le in H
  | H : (_ <=? _) = false |- _ => apply Z.leb_gt in H
  | H : (_ <? _) = true |- _ => apply Z.ltb_lt in H
  | H : (_ <? _) = false |- _ => apply Z.ltb_ge in H
  | H : (_ =? _) = true |- _ => apply Z.eqb_eq in H
  | H : (_ =? _) = false |- _ => apply Z.eqb_neq in H
  | H : negb _ = true |- _ => apply negb_true_iff in H
  | H : negb _ = false |- _ => apply negb_false_iff in H
  end.

Ltac case_if :=
  match goal with
  | |- context [if ?b then _ else _] => destruct b eqn:?
  end; reflect_bool.

Ltac case_if_in H :=
  match type of H with
  | context [if ?b then _ else _] => destruct b eqn:?
  end; reflect_bool.

(** ** The monad *)

Section wp.
Context {S E : Type}.

Lemma wp_bind {A B} (c : M S E A) (k : A → M S E B) Q s :
  wp c (λ r s', match r with Ok a => wp (k a) Q s' | Err e => Q (Err e) s' end) s →
  wp (c ≫= k) Q s.
Proof. unfold wp, mbind, M_bind. by destruct (c s) as [[a|e] s']. Qed.

Lemma wp_mono {A} (c : M S E A) (P Q : result E A → S → Prop) s :
  wp c P s → (∀ r s', P r s' → Q r s') → wp c Q s.
Proof. unfold wp. auto. Qed.

End wp.

(** ** Machine integers *)

Lemma wrap_small w z : in_width w z → wrap w z = z.
Proof. apply Z.mod_small. Qed.

Lemma wrap_width w z : 0 ≤ w → in_width w (wrap w z).
Proof. intros. apply Z.mod_pos_bound, Z.pow_pos_nonneg; lia. Qed.

Lemma in_width_dec w z : Decision (in_width w z).
Proof. unfold in_width. apply _. Defined.
#[export] Existing Instance in_width_dec.

Lemma checked_add_Some w x y z :
  checked_add w x y = Some z ↔ z = x + y ∧ x + y < 2 ^ w.
Proof.
  unfold checked_add, umax. case_if; split; intros; [ | | | ].
  - simplify_eq. lia.
  - destruct_and!. subst. done.
  - done.
  - lia.
Qed.

Lemma checked_add_None w x y : checked_add w x y = None ↔ 2 ^ w ≤ x + y.
Proof. unfold checked_add, umax. case_if; split; intros; try done; lia. Qed.

Lemma checked_sub_Some x y z : checked_sub x y = Some z ↔ z = x - y ∧ y ≤ x.
Proof.
  unfold checked_sub. case_if; split; intros; try done; try lia.
  - simplify_eq. lia.
  - destruct_and!. by subst.
Qed.

Lemma saturating_sub_max x y : saturating_sub x y = Z.max 0 (x - y).
Proof. unfold saturating_sub. case_if; lia. Qed.

(** Masking off the low [k] bits of a [w]-bit value rounds it down to a multiple of
    [2^k]. *)
Lemma testbit_above w z n : in_width w z → w ≤ n → Z.testbit z n = false.
Proof.
  intros [Hz Hz'] Hn. destruct (decide (z = 0)) as [->|]; [apply Z.bits_0|].
  apply Z.bits_above_log2; [lia|]. apply Z.log2_lt_pow2; [lia|].
  eapply Z.lt_le_trans; [exact Hz' | apply Z.pow_le_mono_r; lia].
Qed.

(** A bit is set in [a & !b] when it is set in [a] and not in [b]. *)
Lemma land_wnot_spec w a b n :
  0 ≤ w → in_width w a → 0 ≤ n →
  Z.testbit (Z.land a (wnot w b)) n = Z.testbit a n && negb (Z.testbit b n).
Proof.
  intros Hw Ha Hn. unfold wnot, umax.
  replace (2 ^ w - 1) with (Z.ones w) by (rewrite Z.ones_equiv; lia).
  rewrite Z.land_spec, Z.lxor_spec, Z.testbit_ones by lia.
  destruct (Z.ltb_spec n w).
  - replace (0 <=? n) with true by (symmetry; apply Z.leb_le; lia). simpl.
    by destruct (Z.testbit a n), (Z.testbit b n).
  - by rewrite (testbit_above w a n).
Qed.

Lemma land_wnot_ones w k z :
  0 ≤ k ≤ w → in_width w z →
  Z.land z (wnot w (2 ^ k - 1)) = z - z mod 2 ^ k.
Proof.
  intros Hk Hz. unfold wnot, umax.
  assert (z - z mod 2 ^ k = Z.shiftl (Z.shiftr z k) k) as ->.
  { rewrite Z.shiftl_mul_pow2, Z.shiftr_div_pow2 by lia.
    pose proof (Z.div_mod z (2 ^ k) ltac:(apply Z.pow_nonzero; lia)). lia. }
  assert (∀ n, 2 ^ n - 1 = Z.ones n) as Hones by (intros; rewrite Z.ones_equiv; lia).
  rewrite !Hones. apply Z.bits_inj_iff'. intros n Hn.
  rewrite Z.land_spec, Z.lxor_spec, !Z.testbit_ones by lia.
  destruct (Z.ltb_spec n k).
  - rewrite Z.shiftl_spec_low by lia.
    replace (n <? w) with true by (symmetry; apply Z.ltb_lt; lia).
    replace (0 <=? n) with true by (symmetry; apply Z.leb_le; lia).
    simpl. apply andb_false_r.
  - rewrite Z.shiftl_spec, Z.shiftr_spec by lia.
    replace (n - k + k) with n by lia.
    destruct (Z.ltb_spec n w).
    + replace (0 <=? n) with true by (symmetry; apply Z.leb_le; lia).
      simpl. apply andb_true_r.
    + by rewrite (testbit_above w z n).
Qed.

Lemma lxor_width w a b : 0 < w → in_width w a → in_width w b → in_width w (Z.lxor a b).
Proof.
  unfold in_width. intros Hw Ha Hb.
  assert (0 ≤ Z.lxor a b) by (apply Z.lxor_nonneg; lia). split; [done|].
  destruct (decide (Z.lxor a b = 0)) as [->|]; [apply Z.pow_pos_nonneg; lia|].
  apply Z.log2_lt_pow2; [lia|].
  assert (∀ c, 0 ≤ c < 2 ^ w → Z.log2 c < w) as Hlog.
  { intros c ?. destruct (decide (c = 0)) as [->|]; [simpl; lia|].
    apply Z.log2_lt_pow2; lia. }
  pose proof (Z.log2_lxor a b). pose proof (Hlog a Ha). pose proof (Hlog b Hb). lia.
Qed.

Lemma lxor_cancel a b : Z.lxor (Z.lxor a b) b = a.
Proof. by rewrite Z.lxor_assoc, Z.lxor_nilpotent, Z.lxor_0_r. Qed.

(** A shifted field and a field below it do not overlap, so [|] adds them. *)
Lemma lor_shiftl_add a b k :
  0 ≤ k → 0 ≤ b < 2 ^ k → Z.lor (Z.shiftl a k) b = a * 2 ^ k + b.
Proof.
  intros Hk Hb. rewrite <-Z.shiftl_mul_pow2 by done.
  assert (Z.land (Z.shiftl a k) b = 0) as Hl.
  { apply Z.bits_inj_iff'. intros n Hn. rewrite Z.land_spec, Z.bits_0.
    destruct (Z.ltb_spec n k).
    - by rewrite Z.shiftl_spec_low by lia.
    - replace (Z.testbit b n) with false; [apply andb_false_r|].
      destruct (decide (b = 0)) as [->|]; [by rewrite Z.bits_0|].
      symmetry. apply Z.bits_above_log2; [lia|]. apply Z.log2_lt_pow2; [lia|].
      eapply Z.lt_le_trans; [apply Hb|]. apply Z.pow_le_mono_r; lia. }
  rewrite <-Z.lxor_lor by done. by rewrite Z.add_nocarry_lxor.
Qed.

(** ** Lists *)

Lemma zlen_nonneg {A} (l : list A) : 0 ≤ zlen l.
Proof. unfold zlen. lia. Qed.

Lemma zlen_app {A} (l k : list A) : zlen (l ++ k) = zlen l + zlen k.
Proof. unfold zlen. rewrite length_app. lia. Qed.

Lemma zlen_cons {A} (x : A) l : zlen (x :: l) = 1 + zlen l.
Proof. unfold zlen. simpl. lia. Qed.

Lemma zlen_nil {A} : zlen (@nil A) = 0.
Proof. done. Qed.

Lemma vec_pop_None {A} (l : list A) : vec_pop l = None ↔ l = [].
Proof.
  unfold vec_pop. split; [|by intros ->].
  destruct (rev l) eqn:E; [|done]. intros _.
  by rewrite <-(rev_involutive l), E.
Qed.

Lemma vec_pop_Some {A} (l r : list A) x : vec_pop l = Some (x, r) ↔ l = r ++ [x].
Proof.
  unfold vec_pop. split.
  - destruct (rev l) as [|y s] eqn:E; [done|]. intros [= -> <-].
    by rewrite <-(rev_involutive l), E.
  - intros ->. rewrite rev_app_distr. simpl. by rewrite rev_involutive.
Qed.

Lemma get_range_Some {A} (l : list A) lo hi s :
  get_range l lo hi = Some s ↔
  0 ≤ lo ≤ hi ∧ hi ≤ zlen l ∧ s = take (Z.to_nat (hi - lo)) (drop (Z.to_nat lo) l).
Proof.
  unfold get_range. case_if.
  - split; [intros [= <-]; repeat split; lia | by intros (?&?&->)].
  - split; [done|]. intros (?&?&?).
    apply andb_false_iff in Heqb as [Heqb|]; [|reflect_bool; lia].
    apply andb_false_iff in Heqb as [|]; reflect_bool; lia.
Qed.

Lemma get_range_None {A} (l : list A) lo hi :
  get_range l lo hi = None ↔ ¬ (0 ≤ lo ≤ hi ∧ hi ≤ zlen l).
Proof.
  destruct (get_range l lo hi) eqn:E.
  - apply get_range_Some in E. split; [done | lia].
  - split; [|done]. intros _ H.
    assert (get_range l lo hi = Some (take (Z.to_nat (hi - lo)) (drop (Z.to_nat lo) l)))
      as F by (apply get_range_Some; tauto).
    congruence.
Qed.

Lemma get_range_length {A} (l : list A) lo hi s :
  get_range l lo hi = Some s → zlen s = hi - lo.
Proof.
  rewrite get_range_Some. intros (?&?&->). unfold zlen in *.
  rewrite length_take, length_drop. lia.
Qed.

(** A range that lies in the middle part of a concatenation. *)
Lemma get_range_app {A} (a b c : list A) lo hi :
  lo = zlen a → hi = zlen a + zlen b → get_range (a ++ b ++ c) lo hi = Some b.
Proof.
  intros -> ->. apply get_range_Some. unfold zlen. rewrite !length_app.
  split_and!; [lia.. |].
  replace (Z.to_nat (Z.of_nat (length a))) with (length a) by lia.
  replace (Z.to_nat _) with (length b) by lia.
  by rewrite drop_app_length, take_app_length.
Qed.

Lemma put_range_length {A} (l bs : list A) lo :
  0 ≤ lo → lo + zlen bs ≤ zlen l → length (put_range l lo bs) = length l.
Proof.
  unfold put_range, zlen. intros.
  rewrite !length_app, length_take, length_drop. lia.
Qed.

Lemma min_by_key_spec {A} (f : A → Z) l :
  match min_by_key f l with
  | None => l = []
  | Some m => m ∈ l ∧ ∀ x, x ∈ l → f m ≤ f x
  end.
Proof.
  unfold min_by_key. induction l as [|x l IH] using rev_ind; [done|].
  rewrite foldl_app. simpl. destruct (foldl _ _ l) as [m|].
  - destruct IH as [Hm IH]. destruct (Z.ltb_spec (f x) (f m)); split;
      (set_solver || (intros y Hy; apply elem_of_app in Hy as [Hy|Hy%list_elem_of_singleton];
        [specialize (IH y Hy)|subst]; lia)).
  - subst. split; [set_solver|]. by intros y ->%list_elem_of_singleton.
Qed.

Lemma max_by_key_spec {A} (f : A → Z) l :
  match max_by_key f l with
  | None => l = []
  | Some m => m ∈ l ∧ ∀ x, x ∈ l → f x ≤ f m
  end.
Proof.
  unfold max_by_key. induction l as [|x l IH] using rev_ind; [done|].
  rewrite foldl_app. simpl. destruct (foldl _ _ l) as [m|].
  - destruct IH as [Hm IH]. destruct (Z.ltb_spec (f x) (f m)); split;
      (set_solver || (intros y Hy; apply elem_of_app in Hy as [Hy|Hy%list_elem_of_singleton];
        [specialize (IH y Hy)|subst]; lia)).
  - subst. split; [set_solver|]. by intros y ->%list_elem_of_singleton.
Qed.

Lemma elem_of_enumerate {A} (l : list A) i x : (i, x) ∈ enumerate l ↔ l !! i = Some x.
Proof.
  unfold enumerate. rewrite elem_of_lookup_imap. naive_solver.
Qed.

Lemma swap_remove_perm {A} (l : list A) i x :
  l !! i = Some x → l ≡ₚ x :: swap_remove l i.
Proof.
  intros Hi. unfold swap_remove. destruct (vec_pop l) as [[y r]|] eqn:E.
  - apply vec_pop_Some in E as ->. destruct (Nat.eqb_spec i (length r)) as [->|Hne].
    + rewrite list_lookup_middle in Hi by done. injection Hi as ->.
      by rewrite Permutation_app_comm.
    + assert (i < length r)%nat.
      { apply lookup_lt_Some in Hi. rewrite length_app in Hi. simpl in Hi. lia. }
      rewrite lookup_app_l in Hi by done.
      rewrite <-(take_drop_middle r i x Hi) at 1.
      rewrite (insert_take_drop r i y) by done.
      generalize (take i r) (drop (S i) r). intros a b.
      rewrite <-app_assoc. simpl. rewrite <-Permutation_middle. constructor.
      by rewrite (Permutation_app_comm b [y]).
  - apply vec_pop_None in E as ->. done.
Qed.

Lemma drop_repeat {A} (x : A) n m : drop n (repeat x m) = repeat x (m - n).
Proof. revert m. induction n as [|n IH]; intros [|m]; [done..|]. apply IH. Qed.

Lemma sumZ_cons x l : sumZ (x :: l) = x + sumZ l.
Proof. done. Qed.

Lemma sumZ_app l k : sumZ (l ++ k) = sumZ l + sumZ k.
Proof. unfold sumZ. induction l as [|x l IH]; simpl in *; lia. Qed.

Lemma sumZ_perm l k : l ≡ₚ k → sumZ l = sumZ k.
Proof. unfold sumZ. induction 1; simpl in *; lia. Qed.

Lemma sumZ_zero l : Forall (λ z, z = 0) l → sumZ l = 0.
Proof. induction 1; simpl; lia. Qed.

Lemma sumZ_nonneg l : Forall (λ z, 0 ≤ z) l → 0 ≤ sumZ l.
Proof. unfold sumZ. induction 1; simpl in *; lia. Qed.

Section map_sum.
Context {K : Type} `{Countable K} {A : Type}.
Implicit Types (m : gmap K A) (f : K → A → Z).

Lemma map_sum_empty f : map_sum f (∅ : gmap K A) = 0.
Proof. apply map_fold_empty. Qed.

Lemma map_sum_insert f m i x :
  m !! i = None → map_sum f (<[i := x]> m) = f i x + map_sum f m.
Proof.
  intros. unfold map_sum.
  rewrite (map_fold_insert_L (λ k a n, f k a + n)); [done| |done].
  intros. lia.
Qed.

Lemma map_sum_delete f m i x :
  m !! i = Some x → map_sum f m = f i x + map_sum f (delete i m).
Proof.
  intros Hi. rewrite <-(insert_delete_id m i x Hi) at 1.
  apply map_sum_insert, lookup_delete_eq.
Qed.

Lemma map_sum_update f m i x y :
  m !! i = Some x → map_sum f (<[i := y]> m) = map_sum f m - f i x + f i y.
Proof.
  intros Hi. rewrite <-insert_delete_eq.
  rewrite map_sum_insert by apply lookup_delete_eq.
  rewrite (map_sum_delete f m i x Hi). lia.
Qed.

Lemma map_sum_mono f g m :
  (∀ i x, m !! i = Some x → f i x ≤ g i x) → map_sum f m ≤ map_sum g m.
Proof.
  induction m as [|i x m Hi IH] using map_ind; intros Hle.
  - by rewrite !map_sum_empty.
  - rewrite !map_sum_insert by done.
    assert (f i x ≤ g i x) by (apply (Hle i); by rewrite lookup_insert_eq).
    assert (map_sum f m ≤ map_sum g m); [|lia].
    apply IH. intros j y Hj. apply (Hle j). rewrite lookup_insert_ne; [done|].
    intros ->. congruence.
Qed.

Lemma map_sum_ext f g m :
  (∀ i x, m !! i = Some x → f i x = g i x) → map_sum f m = map_sum g m.
Proof.
  intros Hfg. apply Z.le_antisymm; apply map_sum_mono; intros i x Hi;
    rewrite (Hfg i x Hi); lia.
Qed.

Lemma map_sum_zero m : map_sum (λ _ _, 0) m = 0.
Proof.
  induction m as [|i x m Hi IH] using map_ind; [by rewrite map_sum_empty|].
  by rewrite map_sum_insert.
Qed.

Lemma map_sum_nonneg f m :
  (∀ i x, m !! i = Some x → 0 ≤ f i x) → 0 ≤ map_sum f m.
Proof. intros Hf. rewrite <-(map_sum_zero m). by apply map_sum_mono. Qed.

Lemma map_sum_lookup_le f m i x :
  (∀ j y, m !! j = Some y → 0 ≤ f j y) → m !! i = Some x → f i x ≤ map_sum f m.
Proof.
  intros Hf Hi. rewrite (map_sum_delete f m i x Hi).
  assert (0 ≤ map_sum f (delete i m)); [|lia].
  apply map_sum_nonneg. intros j y Hj. apply (Hf j).
  rewrite lookup_delete in Hj. by case_decide.
Qed.

Lemma map_sum_add f g m : map_sum (λ i x, f i x + g i x) m = map_sum f m + map_sum g m.
Proof.
  induction m as [|i x m Hi IH] using map_ind.
  - by rewrite !map_sum_empty.
  - rewrite !map_sum_insert by done. lia.
Qed.

(** A sum in which only one key counts. *)
Lemma map_sum_single (v : Z) k m :
  map_sum (λ i _, if decide (i = k) then v else 0) m =
  if decide (is_Some (m !! k)) then v else 0.
Proof.
  induction m as [|i x m Hi IH] using map_ind.
  - rewrite map_sum_empty, lookup_empty. by rewrite decide_False by (by intros [? ?]).
  - rewrite map_sum_insert by done. rewrite IH. destruct (decide (i = k)) as [->|Hne].
    + rewrite Hi, lookup_insert_eq, decide_False, decide_True by (eauto || by intros [? ?]). lia.
    + by rewrite lookup_insert_ne by done.
Qed.
Lemma map_sum_mul (f : K → A → Z) (v : Z) m :
  map_sum f m * v = map_sum (λ i x, f i x * v) m.
Proof.
  induction m as [|i x m Hi IH] using map_ind.
  - by rewrite !map_sum_empty.
  - rewrite !map_sum_insert by done. lia.
Qed.

Lemma map_sum_at (f : A → Z) k m :
  map_sum (λ i x, if decide (k = i) then f x else 0) m =
  match m !! k with Some x => f x | None => 0 end.
Proof.
  induction m as [|i x m Hi IH] using map_ind.
  - by rewrite map_sum_empty, lookup_empty.
  - rewrite map_sum_insert by done. rewrite IH. destruct (decide (k = i)) as [->|Hne].
    + rewrite Hi, lookup_insert_eq. lia.
    + by rewrite lookup_insert_ne by done.
Qed.

End map_sum.

(** Maps with the same keys whose entries count the same have the same sum. *)
Lemma map_sum_ext2 `{Countable K} {A B} (f : K → A → Z) (g : K → B → Z)
    (m : gmap K A) (n : gmap K B) :
  (∀ i, match m !! i, n !! i with
        | Some a, Some b => f i a = g i b
        | None, None => True
        | _, _ => False
        end) →
  map_sum f m = map_sum g n.
Proof.
  revert n. induction m as [|i a m Hi IH] using map_ind; intros n Hn.
  - assert (n = ∅) as ->.
    { apply map_eq. intros i. specialize (Hn i). rewrite lookup_empty. rewrite lookup_empty in Hn.
      by destruct (n !! i). }
    by rewrite !map_sum_empty.
  - rewrite map_sum_insert by done. pose proof (Hn i) as Hni.
    rewrite lookup_insert_eq in Hni. destruct (n !! i) as [b|] eqn:E; [|done].
    rewrite (map_sum_delete g n i b E), Hni. f_equal. apply IH. intros j.
    specialize (Hn j). destruct (decide (j = i)) as [->|].
    + by rewrite Hi, lookup_delete_eq.
    + by rewrite lookup_insert_ne in Hn by done; rewrite lookup_delete_ne by done.
Qed.

Lemma map_sum_exchange `{Countable K, Countable L} {A B} (g : K → L → A → B → Z)
    (m : gmap K A) (n : gmap L B) :
  map_sum (λ i a, map_sum (λ j b, g i j a b) n) m =
  map_sum (λ j b, map_sum (λ i a, g i j a b) m) n.
Proof.
  induction m as [|i a m Hi IH] using map_ind.
  - rewrite map_sum_empty. symmetry. rewrite <-(map_sum_zero n). apply map_sum_ext.
    intros. apply map_sum_empty.
  - rewrite map_sum_insert by done. rewrite IH, <-map_sum_add. apply map_sum_ext.
    intros. by rewrite map_sum_insert by done.
Qed.

(** ** Bytes *)

Lemma byte_Z_range b : 0 ≤ byte_Z b < 256.
Proof. unfold byte_Z. pose proof (Byte.to_N_bounded b). lia. Qed.

Lemma byte_Z_Z_byte z : byte_Z (Z_byte z) = z mod 256.
Proof.
  unfold Z_byte. pose proof (Z.mod_pos_bound z 256 eq_refl).
  destruct (Byte.of_N _) as [b|] eqn:E.
  - apply Byte.to_of_N in E. unfold byte_Z. lia.
  - apply Byte.of_N_None_iff in E. lia.
Qed.

Lemma Z_byte_byte_Z b : Z_byte (byte_Z b) = b.
Proof. destruct b; reflexivity. Qed.

Lemma byte_Z_inj b c : byte_Z b = byte_Z c → b = c.
Proof. intros E. by rewrite <-(Z_byte_byte_Z b), E, Z_byte_byte_Z. Qed.

Lemma le_enc_length n z : length (le_enc n z) = n.
Proof. revert z. induction n; intros; simpl; auto. Qed.

Lemma zlen_le_enc n z : zlen (le_enc n z) = Z.of_nat n.
Proof. unfold zlen. by rewrite le_enc_length. Qed.

Lemma le_dec_enc n z : le_dec (le_enc n z) = z mod 2 ^ (8 * Z.of_nat n).
Proof.
  revert z. induction n as [|n IH]; intros z; simpl le_dec.
  - rewrite Z.mod_1_r. done.
  - rewrite IH, byte_Z_Z_byte.
    replace (2 ^ (8 * Z.of_nat (S n))) with (256 * 2 ^ (8 * Z.of_nat n)).
    + rewrite Z.rem_mul_r; [done | lia | apply Z.pow_pos_nonneg; lia].
    + replace (8 * Z.of_nat (S n)) with (8 + 8 * Z.of_nat n) by lia.
      rewrite Z.pow_add_r by lia. done.
Qed.

Lemma le_dec_range l : 0 ≤ le_dec l < 2 ^ (8 * zlen l).
Proof.
  induction l as [|b l IH]; [done|]. simpl le_dec. rewrite zlen_cons.
  pose proof (byte_Z_range b). pose proof (zlen_nonneg l).
  replace (8 * (1 + zlen l)) with (8 + 8 * zlen l) by lia.
  rewrite Z.pow_add_r by lia. change (2 ^ 8) with 256. lia.
Qed.

Lemma le_enc_dec l n : length l = n → le_enc n (le_dec l) = l.
Proof.
  revert n. induction l as [|b l IH]; intros [|n] E; simplify_eq/=; [done|].
  pose proof (byte_Z_range b). f_equal.
  - apply byte_Z_inj. rewrite byte_Z_Z_byte.
    rewrite Z.mul_comm, Z.mod_add, Z.mod_small by lia. done.
  - rewrite Z.mul_comm, Z.div_add, Z.div_small, Z.add_0_l by lia. by apply IH.
Qed.

Lemma utf8_valid_ascii l : Forall (λ b, byte_Z b ≤ 127) l → utf8_valid l = true.
Proof.
  induction 1 as [|b l Hb HF IH]; [done|]. simpl.
  assert (byte_in 0 127 b = true) as ->; [|done].
  unfold byte_in. pose proof (byte_Z_range b).
  apply andb_true_iff. split; apply Z.leb_le; lia.
Qed.

Lemma le_dec_enc_small n z :
  in_width (8 * Z.of_nat n) z → le_dec (le_enc n z) = z.
Proof. intros. rewrite le_dec_enc. by apply Z.mod_small. Qed.
