(* ===== verification/Abi.v ===== *)
(** * The native ABI of the microkernel

    What [src/kernel/abi/src/lib.rs] fixes between the kernel and a process: the error
    codes and how they travel in [rax], the rights a handle carries, the bounds and the
    charges, and the little-endian fields of the byte layouts. *)

From S2P Require Import Prelude.
(** ** Errors *)

(** [pub enum Error], in code order. *)
Inductive Error :=
| BadHandle | WrongType | AccessDenied | InvalidArgs | NoMemory | ShouldWait
| PeerClosed | TimedOut | BufferTooSmall | OutOfRange | BadSyscall | Limit
| BadState | Fault | QuotaExceeded.

#[export] Instance Error_eq_dec : EqDecision Error.
Proof. solve_decision. Defined.

Module Err.

(** [Error::ALL]. *)
Definition ALL : list Error :=
  [BadHandle; WrongType; AccessDenied; InvalidArgs; NoMemory; ShouldWait;
   PeerClosed; TimedOut; BufferTooSmall; OutOfRange; BadSyscall; Limit;
   BadState; Fault; QuotaExceeded].

(** [self as u32]: the discriminants. *)
Definition code (e : Error) : Z :=
  match e with
  | BadHandle => 1 | WrongType => 2 | AccessDenied => 3 | InvalidArgs => 4
  | NoMemory => 5 | ShouldWait => 6 | PeerClosed => 7 | TimedOut => 8
  | BufferTooSmall => 9 | OutOfRange => 10 | BadSyscall => 11 | Limit => 12
  | BadState => 13 | Fault => 14 | QuotaExceeded => 15
  end.

Definition from_code (c : Z) : option Error :=
  List.find (λ e, code e =? c) ALL.

(** [(-(self as i64)) as u64]. *)
Definition to_raw (e : Error) : Z := wrap 64 (- code e).

(** [raw as i64]. *)
Definition as_i64 (raw : Z) : Z := if raw <? 2 ^ 63 then raw else raw - 2 ^ 64.

(** [i64::checked_neg]: [None] for [i64::MIN]. *)
Definition checked_neg (s : Z) : option Z :=
  if s =? - 2 ^ 63 then None else Some (- s).

(** [u32::try_from(c).ok()]. *)
Definition try_u32 (c : Z) : option Z :=
  if (0 <=? c) && (c <? 2 ^ 32) then Some c else None.

Definition from_raw (raw : Z) : result Error Z :=
  let signed := as_i64 raw in
  if 0 <=? signed then Ok raw
  else
    let code := checked_neg signed ≫= try_u32 in
    Err (default BadSyscall (code ≫= from_code)).

Definition name (e : Error) : string :=
  match e with
  | BadHandle => "bad handle"
  | WrongType => "wrong type"
  | AccessDenied => "access denied"
  | InvalidArgs => "invalid arguments"
  | NoMemory => "no memory"
  | ShouldWait => "should wait"
  | PeerClosed => "peer closed"
  | TimedOut => "timed out"
  | BufferTooSmall => "buffer too small"
  | OutOfRange => "out of range"
  | BadSyscall => "bad syscall"
  | Limit => "limit reached"
  | BadState => "bad state"
  | Fault => "fault"
  | QuotaExceeded => "quota exceeded"
  end.

End Err.

(** ** Rights *)

Module Rights.

(** [pub struct Rights(u32)]: the bits. *)
Abbreviation NONE := 0%Z.
Abbreviation READ := (Z.shiftl 1 0)%Z.
Abbreviation WRITE := (Z.shiftl 1 1)%Z.
Abbreviation MAP := (Z.shiftl 1 2)%Z.
Abbreviation DUPLICATE := (Z.shiftl 1 3)%Z.
Abbreviation TRANSFER := (Z.shiftl 1 4)%Z.
Abbreviation WAIT := (Z.shiftl 1 5)%Z.
Abbreviation ALL := 63%Z.

Definition from_bits (bits : Z) : option Z :=
  if negb (Z.land bits (wnot 32 ALL) =? 0) then None else Some bits.
Definition contains (self other : Z) : bool := Z.land self other =? other.
Definition union (self other : Z) : Z := Z.lor self other.
Definition intersection (self other : Z) : Z := Z.land self other.
Definition difference (self other : Z) : Z := Z.land self (wnot 32 other).

Definition NAMES : list (string * Z) :=
  [("read", READ); ("write", WRITE); ("map", MAP); ("duplicate", DUPLICATE);
   ("transfer", TRANSFER); ("wait", WAIT)]%string.

Definition from_name (name : string) : option Z :=
  snd <$> List.find (λ p, bool_decide (p.1 = name)) NAMES.

End Rights.

(** ** Bounds and charges *)

Definition PAGE_SIZE : Z := 4096.

Module limits.
Abbreviation CHANNEL_MAX_BYTES := (64 * 1024)%Z.
Abbreviation HANDLES_PER_PROCESS := 4096%Z.
Abbreviation WAIT_MAX_ITEMS := 64%Z.
Abbreviation MEMORY_MAX_BYTES := (256 * 1024 * 1024)%Z.
Abbreviation NAME_MAX := 32%Z.
Abbreviation PLANE_SLOTS := 64%Z.
Abbreviation SLOT_DEPTH := 64%Z.
End limits.

Module charge.
Definition PAGE : Z := PAGE_SIZE.
Abbreviation OBJECT := 256%Z.
Abbreviation PAGE_RECORD := 16%Z.
Definition TABLE_REGIONS : list Z := [Z.shiftl 1 21; Z.shiftl 1 30; Z.shiftl 1 39].
Abbreviation HANDLE_SLOTS := 64%Z.
Abbreviation ZERO_PAGE := (PAGE + 32)%Z.
Abbreviation AREA := 96%Z.
Abbreviation SLOT := (3 * PAGE)%Z.
Abbreviation SPACE := (4 * PAGE)%Z.
End charge.

(** ** Mappings *)

Module map.
Abbreviation READ := (Z.shiftl 1 0)%Z.
Abbreviation WRITE := (Z.shiftl 1 1)%Z.
Abbreviation EXECUTE := (Z.shiftl 1 2)%Z.
Abbreviation FIXED := (Z.shiftl 1 3)%Z.
Abbreviation PROTECTION := (Z.lor (Z.lor READ WRITE) EXECUTE)%Z.
End map.

(** [IMAGE_RANGE]: its start and its end. *)
Definition IMAGE_START : Z := 0x1000.
Definition IMAGE_END : Z := 0x100000000000.

(** ** Signals *)

Module Signals.
Abbreviation NONE := 0%Z.
Abbreviation READABLE := (Z.shiftl 1 0)%Z.
Abbreviation WRITABLE := (Z.shiftl 1 1)%Z.
Abbreviation PEER_CLOSED := (Z.shiftl 1 2)%Z.
Abbreviation TERMINATED := (Z.shiftl 1 3)%Z.
Abbreviation SIGNALED := (Z.shiftl 1 4)%Z.
Abbreviation ALL := 0x1f%Z.

Definition contains (self other : Z) : bool := Z.land self other =? other.
Definition intersects (self other : Z) : bool := negb (Z.land self other =? 0).
Definition union (self other : Z) : Z := Z.lor self other.
Definition difference (self other : Z) : Z := Z.land self (wnot 32 other).
End Signals.

(** ** The data plane's records *)

Module slot_flags.
Abbreviation INPUT := (Z.shiftl 1 0)%Z.
Abbreviation OUTPUT := (Z.shiftl 1 1)%Z.
End slot_flags.

Module slot_event.
Abbreviation SIZE := 32%nat.
Abbreviation KIND := 0%Z.
Abbreviation COOKIE := 8%Z.
Abbreviation OFFSET := 16%Z.
Abbreviation LEN := 24%Z.
Abbreviation RELEASED := 1%Z.
Abbreviation PUT := 2%Z.
Abbreviation RETURNED := 3%Z.
End slot_event.

(** [plane::request] and [plane::reply], of a port call. *)
Module request.
Abbreviation KIND := 0%Z.
Abbreviation TOKEN := 8%Z.
Abbreviation PORT := 16%Z.
Abbreviation LEN := 24%Z.
Abbreviation SIZE := 32%nat.
Abbreviation CALL := 1%Z.
End request.

Module reply.
Abbreviation STATUS := 8%Z.
Abbreviation LEN := 16%Z.
End reply.

(** ** Fields of byte layouts *)

Definition read_u32 (bytes : list byte) (offset : Z) : option Z :=
  hi ← checked_add 64 offset 4;
  b ← get_range bytes offset hi;
  Some (le_dec b).

Definition read_u64 (bytes : list byte) (offset : Z) : option Z :=
  hi ← checked_add 64 offset 8;
  b ← get_range bytes offset hi;
  Some (le_dec b).

(** The writers return whether the field fits, and the bytes after the call. *)
Definition write_u32 (bytes : list byte) (offset value : Z) : bool * list byte :=
  match checked_add 64 offset 4 with
  | None => (false, bytes)
  | Some hi =>
      match get_range bytes offset hi with
      | Some _ => (true, put_range bytes offset (le_enc 4 value))
      | None => (false, bytes)
      end
  end.

Definition write_u64 (bytes : list byte) (offset value : Z) : bool * list byte :=
  match checked_add 64 offset 8 with
  | None => (false, bytes)
  | Some hi =>
      match get_range bytes offset hi with
      | Some _ => (true, put_range bytes offset (le_enc 8 value))
      | None => (false, bytes)
      end
  end.

(** The bytes before the first zero. *)
Fixpoint fixed_name (field : list byte) : list byte :=
  match field with
  | [] => []
  | b :: rest => if byte_Z b =? 0 then [] else b :: fixed_name rest
  end.

(** [matches!(b, b'a'..=b'z' | b'0'..=b'9' | b'.' | b'_' | b'-')]. *)
Definition name_byte (b : byte) : bool :=
  let c := byte_Z b in
  ((97 <=? c) && (c <=? 122)) || ((48 <=? c) && (c <=? 57))
  || (c =? 46) || (c =? 95) || (c =? 45).

Definition valid_name (name : list byte) : bool :=
  negb (zlen name =? 0) && (zlen name <=? limits.NAME_MAX) && forallb name_byte name.

(** ** Theorems *)

(** Reading a field just written gives it back, and every other byte is as it was. *)
Lemma read_write_field n bytes offset value :
  0 ≤ offset → offset + Z.of_nat n ≤ zlen bytes → in_width (8 * Z.of_nat n) value →
  le_dec <$> get_range (put_range bytes offset (le_enc n value)) offset (offset + Z.of_nat n)
  = Some value.
Proof.
  intros. unfold put_range.
  rewrite (get_range_app _ (le_enc n value)).
  - simpl. by rewrite le_dec_enc_small.
  - unfold zlen in *. rewrite length_take. lia.
  - unfold zlen in *. rewrite length_take, le_enc_length. lia.
Qed.

Lemma read_u64_app a v c out offset :
  out = a ++ le_enc 8 v ++ c → offset = zlen a → u64 v → zlen a + 8 < 2 ^ 64 →
  read_u64 out offset = Some v.
Proof.
  intros -> -> Hv Hlt. unfold read_u64.
  rewrite (proj2 (checked_add_Some 64 (zlen a) 8 (zlen a + 8))) by done.
  cbn [mbind option_bind].
  rewrite (get_range_app a (le_enc 8 v) c) by (rewrite ?zlen_le_enc; lia).
  cbn [mbind option_bind]. by rewrite le_dec_enc_small.
Qed.

Lemma write_u64_app a b c v out offset :
  out = a ++ b ++ c → offset = zlen a → zlen b = 8 → zlen a + 8 < 2 ^ 64 →
  write_u64 out offset v = (true, a ++ le_enc 8 v ++ c).
Proof.
  intros -> -> Hb Hlt. unfold write_u64.
  rewrite (proj2 (checked_add_Some 64 (zlen a) 8 (zlen a + 8))) by done.
  rewrite (get_range_app a b c) by lia. unfold put_range, zlen in *. f_equal.
  rewrite take_app_length' by lia. f_equal. rewrite le_enc_length. f_equal.
  rewrite app_assoc, drop_app_length'; [done|]. rewrite length_app. lia.
Qed.

(** ** Errors *)

Lemma from_code_code e : Err.from_code (Err.code e) = Some e.
Proof. by destruct e. Qed.

Lemma from_code_Some c e : Err.from_code c = Some e → Err.code e = c.
Proof. intros [_ H]%List.find_some. by apply Z.eqb_eq. Qed.

Lemma from_code_None c e : Err.from_code c = None → Err.code e ≠ c.
Proof.
  intros H Hc. apply (List.find_none _ _) with (x := e) in H; [|by destruct e; simpl; tauto].
  by apply Z.eqb_neq in H.
Qed.

Lemma to_raw_eq e : Err.to_raw e = 2 ^ 64 - Err.code e.
Proof. by destruct e. Qed.

Lemma code_range e : 1 ≤ Err.code e ≤ 15.
Proof. destruct e; simpl; lia. Qed.

(** A register value splits into a value below 2^63 or an error; every error comes
    back as itself, and a negative value no error encodes is [BadSyscall]. *)
Theorem raw_roundtrip raw :
  u64 raw →
  (∀ e, Err.from_raw (Err.to_raw e) = Err e) ∧
  match Err.from_raw raw with
  | Ok v => v = raw ∧ raw < 2 ^ 63
  | Err e => 2 ^ 63 ≤ raw ∧
      (raw = Err.to_raw e ∨ (e = BadSyscall ∧ ∀ e', raw ≠ Err.to_raw e'))
  end.
Proof.
  intros [Hr Hr']. split; [by intros []|]. unfold Err.from_raw, Err.as_i64.
  destruct (Z.ltb_spec raw (2 ^ 63)); [by case_if; [|lia]|]. case_if; [lia|].
  split; [done|]. unfold Err.checked_neg, Err.try_u32.
  assert (∀ e', raw = Err.to_raw e' → - (raw - 2 ^ 64) = Err.code e') as Hc.
  { intros e'. rewrite to_raw_eq. lia. }
  destruct (Z.eqb_spec (raw - 2 ^ 64) (- 2 ^ 63)) as [E|E]; simpl.
  { right. split; [done|]. intros e' He. specialize (Hc e' He).
    pose proof (code_range e'). lia. }
  destruct ((0 <=? _) && _) eqn:R; simpl.
  - destruct (Err.from_code _) as [e|] eqn:F; simpl.
    + left. apply from_code_Some in F. rewrite to_raw_eq, F. lia.
    + right. split; [done|]. intros e' He. by apply (from_code_None _ e' F); rewrite <-Hc.
  - right. split; [done|]. intros e' He. specialize (Hc e' He).
    pose proof (code_range e'). lia.
Qed.

(** ** Rights *)

Lemma contains_bits a b :
  Rights.contains a b = true ↔ ∀ i, 0 ≤ i → Z.testbit b i = true → Z.testbit a i = true.
Proof.
  unfold Rights.contains. rewrite Z.eqb_eq. split.
  - intros E i Hi Hb. rewrite <-E, Z.land_spec in Hb. by apply andb_true_iff in Hb as [].
  - intros H. apply Z.bits_inj'. intros i Hi. rewrite Z.land_spec.
    specialize (H i Hi). destruct (Z.testbit b i); [by rewrite H|by rewrite andb_false_r].
Qed.

(** Rights only shrink: what a handle gives away, the intersection with what is
    asked for or the difference, it holds itself; nothing of the second argument is left
    in a difference, and an intersection is the most both hold. *)
Theorem rights_shrink a b :
  u32 a → u32 b →
  Rights.contains a (Rights.intersection a b) = true ∧
  Rights.contains a (Rights.difference a b) = true ∧
  Rights.intersection (Rights.difference a b) b = Rights.NONE ∧
  Rights.union (Rights.difference a b) (Rights.intersection a b) = a ∧
  ∀ c, Rights.contains a c = true → Rights.contains b c = true →
    Rights.contains (Rights.intersection a b) c = true.
Proof.
  intros Ha Hb. unfold Rights.union, Rights.intersection, Rights.difference. split_and!.
  - apply contains_bits. intros i Hi. rewrite Z.land_spec. by destruct (Z.testbit a i).
  - apply contains_bits. intros i Hi. rewrite land_wnot_spec by done.
    by destruct (Z.testbit a i).
  - apply Z.bits_inj'. intros i Hi. rewrite Z.land_spec, land_wnot_spec, Z.bits_0 by done.
    by destruct (Z.testbit a i), (Z.testbit b i).
  - apply Z.bits_inj'. intros i Hi. rewrite Z.lor_spec, land_wnot_spec, Z.land_spec by done.
    by destruct (Z.testbit a i), (Z.testbit b i).
  - intros c. rewrite !contains_bits. intros H1 H2 i Hi Hc. rewrite Z.land_spec.
    by rewrite (H1 i), (H2 i).
Qed.

(** A 64-bit field written inside a layout reads back as written, the write
    reports success exactly when the field fits, and a write that does not fit
    changes nothing. *)
Theorem write_u64_spec bytes offset value :
  u64 offset → u64 value →
  let '(ok, bytes') := write_u64 bytes offset value in
  ok = bool_decide (offset + 8 ≤ zlen bytes ∧ offset + 8 < 2 ^ 64) ∧
  length bytes' = length bytes ∧
  if ok then read_u64 bytes' offset = Some value else bytes' = bytes.
Proof.
  intros Ho Hv. unfold write_u64, read_u64.
  destruct (checked_add 64 offset 8) as [hi|] eqn:E.
  - apply checked_add_Some in E as [-> Hlt].
    destruct (get_range bytes offset (offset + 8)) eqn:G.
    + apply get_range_Some in G as (?&?&_). rewrite bool_decide_true by done.
      split_and!; [done | apply put_range_length; rewrite ?zlen_le_enc; lia | ].
      change (8 : Z) with (Z.of_nat 8). cbn [mbind option_bind].
      pose proof (read_write_field 8 bytes offset value) as R.
      simpl in R. rewrite <-R by (done || lia).
      by destruct (get_range _ _ _).
    + apply get_range_None in G. rewrite bool_decide_false; [done|].
      unfold in_width in *. lia.
  - apply checked_add_None in E. rewrite bool_decide_false; [done | lia].
Qed.

(** ** Witnesses *)

Example raw_roundtrip_witness : Err.from_raw (Err.to_raw QuotaExceeded) = Err QuotaExceeded.
Proof. exact (proj1 (raw_roundtrip 0 ltac:(done)) QuotaExceeded). Defined.

Example rights_shrink_witness :
  Rights.contains Rights.ALL (Rights.difference Rights.ALL Rights.WRITE) = true.
Proof. exact (proj1 (proj2 (rights_shrink Rights.ALL Rights.WRITE ltac:(done) ltac:(done)))). Defined.

Example write_u64_spec_witness :
  read_u64 (write_u64 (repeat x00 16) 8 1234).2 8 = Some 1234 ∧
  (write_u64 (repeat x00 16) 9 1234).2 = repeat x00 16.
Proof.
  split.
  - exact (proj2 (proj2 (write_u64_spec (repeat x00 16) 8 1234 ltac:(done) ltac:(done)))).
  - exact (proj2 (proj2 (write_u64_spec (repeat x00 16) 9 1234 ltac:(done) ltac:(done)))).
Defined.
