(* ===== verification/Handles.v ===== *)
(** * The handle table of a process

    [src/kernel/handles/src/lib.rs]: a handle value is a slot index and a generation,
    XORed with the process's salt.  The table is modelled with its vectors as lists; the
    outcome of [try_reserve] is an argument of [insert_or_return].  The theorems relate
    the table to the partial map from values to entries that its caller sees. *)

From S2P Require Import Prelude Abi.
(** ** The table *)

Record Slot (T : Type) := mk_Slot { generation : Z; entry : option T }.
Arguments mk_Slot {T} _ _.
Arguments generation {T} _.
Arguments entry {T} _.

Record HandleTable (T : Type) := mk_HandleTable {
  slots : list (Slot T);
  free : list nat;
  salt : Z;
  count : Z;
}.
Arguments mk_HandleTable {T} _ _ _ _.
Arguments slots {T} _.
Arguments free {T} _.
Arguments salt {T} _.
Arguments count {T} _.

Section handles.
Context {T : Type}.
Implicit Types (t : HandleTable T) (v : Z) (h : T).

Definition new (salt : Z) : HandleTable T := mk_HandleTable [] [] salt 0.

(** [(((generation as u32) << 16) | (slot as u32 + 1)) ^ self.salt]. *)
Definition encode t (slot : nat) (gen : Z) : Z :=
  Z.lxor (Z.lor (wrap 32 (Z.shiftl gen 16)) (wadd 32 (wrap 32 (Z.of_nat slot)) 1)) (salt t).

Definition decode t v : option (nat * Z) :=
  let x := Z.lxor v (salt t) in
  let index := Z.land x 65535 in
  if index =? 0 then None
  else Some (Z.to_nat (index - 1), wrap 16 (Z.shiftr x 16)).

Definition len t : Z := count t.
Definition is_empty t : bool := count t =? 0.
Definition room t : Z := limits.HANDLES_PER_PROCESS -! count t.
Definition slots_len t : Z := zlen (slots t).
Definition grows t : bool := match free t with [] => true | _ => false end.

(** The slot an insert uses: the last one freed, or a new one at the end when
    [reserved] says the vector could grow. *)
Definition take_slot (reserved : bool) t : option (nat * HandleTable T) :=
  match vec_pop (free t) with
  | Some (slot, rest) => Some (slot, mk_HandleTable (slots t) rest (salt t) (count t))
  | None =>
      if reserved then
        Some (length (slots t),
              mk_HandleTable (slots t ++ [mk_Slot 0 None]) (free t) (salt t) (count t))
      else None
  end.

Definition insert_or_return (reserved : bool) h t : result (Error * T) Z * HandleTable T :=
  if limits.HANDLES_PER_PROCESS <=? count t then (Err (Limit, h), t)
  else
    match take_slot reserved t with
    | None => (Err (NoMemory, h), t)
    | Some (slot, t1) =>
        let g0 := default 0 (generation <$> slots t1 !! slot) in
        let g := if encode t1 slot g0 =? 0 then wadd 16 g0 1 else g0 in
        let t2 := mk_HandleTable (<[slot := mk_Slot g (Some h)]> (slots t1))
                    (free t1) (salt t1) (count t1 +! 1) in
        (Ok (encode t2 slot g), t2)
    end.

Definition insert (reserved : bool) h t : result Error Z * HandleTable T :=
  let '(r, t') := insert_or_return reserved h t in (map_err fst r, t').

Definition get t v : result Error T :=
  match decode t v with
  | None => Err BadHandle
  | Some (slot, gen) =>
      match slots t !! slot with
      | Some (mk_Slot g (Some h)) => if g =? gen then Ok h else Err BadHandle
      | _ => Err BadHandle
      end
  end.

Definition remove v t : result Error T * HandleTable T :=
  match get t v with
  | Err e => (Err e, t)
  | Ok _ =>
      match decode t v with
      | None => (Err BadHandle, t)
      | Some (slot, _) =>
          match slots t !! slot with
          | Some (mk_Slot g (Some h)) =>
              (Ok h, mk_HandleTable (<[slot := mk_Slot (wadd 16 g 1) None]> (slots t))
                       (free t ++ [slot]) (salt t) (count t -! 1))
          | _ => (Err BadHandle, t)
          end
      end
  end.

Definition drain t : list T * HandleTable T :=
  (omap entry (slots t),
   mk_HandleTable ((λ s, mk_Slot (wadd 16 (generation s) 1) None) <$> slots t)
     (seq 0 (length (slots t))) (salt t) 0).

(** ** The operations as a transition system *)

Inductive op :=
| OInsert (reserved : bool) (h : T)
| ORemove (v : Z)
| ODrain.

(** A value a caller passes is a [u32]. *)
Definition step (o : op) t : HandleTable T :=
  match o with
  | OInsert r h => (insert r h t).2
  | ORemove v => (remove (wrap 32 v) t).2
  | ODrain => (drain t).2
  end.

Definition run (os : list op) t : HandleTable T := foldl (flip step) t os.

(** ** The invariant, and the map the table stands for *)

Record wf t : Prop := {
  wf_salt : u32 (salt t);
  wf_gen : ∀ i s, slots t !! i = Some s → u16 (generation s);
  wf_nodup : NoDup (free t);
  wf_free : ∀ i, i ∈ free t ↔ ∃ g, slots t !! i = Some (mk_Slot g None);
  wf_count : count t = zlen (slots t) - zlen (free t);
  wf_bound : zlen (slots t) ≤ limits.HANDLES_PER_PROCESS;
}.

(** What a value names. *)
Definition names t v : option T :=
  match get t v with Ok h => Some h | Err _ => None end.

(** ** Values and slots *)

Lemma encode_pack t slot g :
  Z.of_nat slot < 65535 → u16 g →
  encode t slot g = Z.lxor (g * 65536 + (Z.of_nat slot + 1)) (salt t).
Proof.
  unfold in_width. intros Hs Hg. unfold encode, wadd, wrap. f_equal.
  rewrite Z.shiftl_mul_pow2 by lia.
  rewrite (Z.mod_small (Z.of_nat slot)), !Z.mod_small by lia.
  rewrite <-Z.shiftl_mul_pow2 by lia.
  rewrite lor_shiftl_add by lia. lia.
Qed.

Lemma decode_unpack t v :
  u32 v → u32 (salt t) →
  decode t v =
    let x := Z.lxor v (salt t) in
    if x mod 65536 =? 0 then None
    else Some (Z.to_nat (x mod 65536 - 1), x / 65536).
Proof.
  intros Hv Hs. unfold decode.
  pose proof (lxor_width 32 v (salt t) ltac:(lia) Hv Hs) as Hx.
  set (x := Z.lxor v (salt t)) in *. unfold in_width in Hx. cbv zeta.
  change 65535 with (Z.ones 16). rewrite Z.land_ones by lia.
  rewrite Z.shiftr_div_pow2 by lia. change (2 ^ 16) with 65536.
  destruct (_ =? 0); [done|]. do 2 f_equal. apply wrap_small. split.
  - apply Z.div_pos; lia.
  - apply Z.div_lt_upper_bound; lia.
Qed.

Lemma decode_encode t slot g :
  u32 (salt t) → Z.of_nat slot < 65535 → u16 g →
  u32 (encode t slot g) ∧ decode t (encode t slot g) = Some (slot, g).
Proof.
  intros Hs Hslot Hg.
  assert (u32 (g * 65536 + (Z.of_nat slot + 1))) as Hp by (unfold in_width in *; lia).
  assert (u32 (encode t slot g)) as He.
  { rewrite encode_pack by done. by apply lxor_width. }
  split; [done|]. rewrite decode_unpack by done.
  rewrite encode_pack, lxor_cancel by done. cbv zeta. clear He.
  replace ((g * 65536 + (Z.of_nat slot + 1)) mod 65536) with (Z.of_nat slot + 1).
  - destruct (Z.eqb_spec (Z.of_nat slot + 1) 0); [lia|]. do 2 f_equal; [lia|].
    rewrite Z.div_add_l, Z.div_small by lia. lia.
  - rewrite (Z.add_comm (g * 65536)), Z.mod_add by lia. rewrite Z.mod_small; lia.
Qed.

Lemma encode_decode t v slot g :
  u32 (salt t) → u32 v → decode t v = Some (slot, g) →
  Z.of_nat slot < 65535 ∧ u16 g ∧ encode t slot g = v.
Proof.
  intros Hs Hv. rewrite decode_unpack by done. cbv zeta.
  pose proof (lxor_width 32 v (salt t) ltac:(lia) Hv Hs) as Hx.
  pose proof (lxor_cancel v (salt t)) as Hc.
  set (x := Z.lxor v (salt t)) in *. unfold in_width in Hx.
  pose proof (Z.mod_pos_bound x 65536 eq_refl).
  case_if; [done|]. intros [= <- <-].
  assert (u16 (x / 65536)) as Hg.
  { split; [apply Z.div_pos; lia | apply Z.div_lt_upper_bound; lia]. }
  split; [lia|]. split; [done|]. rewrite encode_pack by (done || lia).
  rewrite <-Hc. f_equal. pose proof (Z.div_mod x 65536 ltac:(lia)). lia.
Qed.

Lemma encode_inj t i j g g' :
  u32 (salt t) → Z.of_nat i < 65535 → Z.of_nat j < 65535 → u16 g → u16 g' →
  encode t i g = encode t j g' → i = j ∧ g = g'.
Proof.
  intros Hs Hi Hj Hg Hg' E.
  pose proof (proj2 (decode_encode t i g Hs Hi Hg)) as D.
  pose proof (proj2 (decode_encode t j g' Hs Hj Hg')) as D'.
  rewrite E in D. rewrite D in D'. by simplify_eq.
Qed.

(** A value names what the slot it decodes to holds, at the slot's generation. *)
Lemma names_spec t v h :
  u32 (salt t) → u32 v →
  names t v = Some h ↔
  ∃ i g, decode t v = Some (i, g) ∧ slots t !! i = Some (mk_Slot g (Some h)).
Proof.
  intros Hs Hv. unfold names, get. split.
  - destruct (decode t v) as [[i g]|]; [|done].
    destruct (slots t !! i) as [[g' [h'|]]|] eqn:E; [|done..].
    destruct (Z.eqb_spec g' g) as [->|]; [|done]. intros [= ->]. eauto.
  - intros (i & g & -> & ->). by rewrite Z.eqb_refl.
Qed.

Lemma names_remove_Ok t v h : names t v = Some h ↔ get t v = Ok h.
Proof. unfold names. destruct (get t v); naive_solver. Qed.

Lemma get_Err t v : names t v = None → get t v = Err BadHandle.
Proof.
  unfold names, get. destruct (decode t v) as [[i g]|]; [|done].
  destruct (slots t !! i) as [[g' [h|]]|]; [|done..]. by destruct (g' =? g).
Qed.

Lemma wf_slot_bound t i s : wf t → slots t !! i = Some s → Z.of_nat i < 4096.
Proof.
  intros W E. apply lookup_lt_Some in E. pose proof (wf_bound t W) as B.
  unfold zlen in B. lia.
Qed.

(** ** Insertion *)

(** The slot an insert takes was empty, and the rest of the table is as it was. *)
Record taken t (slot : nat) (t1 : HandleTable T) : Prop := {
  taken_salt : salt t1 = salt t;
  taken_count : count t1 = count t;
  taken_slot : ∃ g, u16 g ∧ slots t1 !! slot = Some (mk_Slot g None);
  taken_other : ∀ i, i ≠ slot → slots t1 !! i = slots t !! i;
  taken_empty : ∀ g h, slots t !! slot ≠ Some (mk_Slot g (Some h));
  taken_same : ∀ s, slots t !! slot = Some s → slots t1 !! slot = Some s;
  taken_bound : zlen (slots t1) ≤ limits.HANDLES_PER_PROCESS;
  taken_size : count t = zlen (slots t1) - zlen (free t1) - 1;
  taken_nodup : NoDup (free t1);
  taken_free : ∀ i, i ∈ free t1 ↔ i ≠ slot ∧ i ∈ free t;
}.

Lemma take_slot_taken r t slot t1 :
  wf t → count t < limits.HANDLES_PER_PROCESS →
  take_slot r t = Some (slot, t1) → taken t slot t1.
Proof.
  intros W Hc. unfold take_slot.
  destruct (vec_pop (free t)) as [[i rest]|] eqn:P.
  - apply vec_pop_Some in P. intros [= <- <-].
    pose proof (wf_nodup t W) as N. rewrite P in N.
    apply NoDup_app in N as (N1 & N2 & _).
    assert (slot_in : i ∈ free t) by (rewrite P; set_solver).
    apply (wf_free t W) in slot_in as [g Hg].
    split; simpl; try done.
    + exists g. split; [apply (wf_gen t W _ _ Hg) | done].
    + congruence.
    + apply (wf_bound t W).
    + rewrite (wf_count t W), P, zlen_app. unfold zlen. simpl. lia.
    + intros j. rewrite P, elem_of_app, list_elem_of_singleton.
      split; [|tauto]. intros Hj. split; [|by left]. intros ->.
      apply (N2 _ Hj). by left.
  - apply vec_pop_None in P. destruct r; [|done]. intros [= <- <-].
    pose proof (wf_count t W) as C. rewrite P in C. unfold zlen in C. simpl in C.
    split; simpl; try done.
    + exists 0. split; [done|]. by rewrite lookup_app_r, Nat.sub_diag by lia.
    + intros i Hi. destruct (decide (i < length (slots t))%nat).
      * by rewrite lookup_app_l.
      * rewrite (lookup_ge_None_2 (slots t)) by lia. apply lookup_ge_None_2.
        rewrite length_app. simpl. lia.
    + intros g h. by rewrite lookup_ge_None_2 by lia.
    + intros s. by rewrite lookup_ge_None_2 by lia.
    + rewrite zlen_app. unfold zlen in *. simpl. lia.
    + rewrite zlen_app, P. unfold zlen in *. simpl. lia.
    + apply (wf_nodup t W).
    + intros i. rewrite P. split; [|tauto]. intros Hi. by apply not_elem_of_nil in Hi.
Qed.

(** What an insert that finds a slot does. *)
Lemma insert_taken r h t slot t1 :
  wf t → count t < limits.HANDLES_PER_PROCESS → take_slot r t = Some (slot, t1) →
  ∃ g0 g, slots t1 !! slot = Some (mk_Slot g0 None) ∧ (g = g0 ∨ g = wadd 16 g0 1) ∧
  u16 g ∧ encode t slot g ≠ 0 ∧
  insert_or_return r h t =
    (Ok (encode t slot g),
     mk_HandleTable (<[slot := mk_Slot g (Some h)]> (slots t1)) (free t1) (salt t)
       (count t + 1)).
Proof.
  intros W Hc E. pose proof (take_slot_taken _ _ _ _ W Hc E) as K.
  destruct (taken_slot _ _ _ K) as (g0 & Hg0 & Hs).
  assert (Z.of_nat slot < 65535) as Hslot.
  { apply lookup_lt_Some in Hs. pose proof (taken_bound _ _ _ K) as B.
    unfold zlen in B. lia. }
  assert (u16 (wadd 16 g0 1)) as Hg1 by (by apply wrap_width).
  assert (count t +! 1 = count t + 1) as Hcount.
  { apply wrap_small. pose proof (wf_count t W) as C.
    pose proof (taken_size _ _ _ K) as C1.
    assert (0 ≤ count t); [|unfold in_width in *; lia].
    rewrite C1. enough (zlen (free t1) < zlen (slots t1)) by lia.
    unfold zlen. apply inj_lt, (Nat.lt_le_trans _ (length (slot :: free t1))); [simpl; lia|].
    rewrite <-(length_seq (length (slots t1)) 0). apply submseteq_length, NoDup_submseteq.
    - constructor; [|apply (taken_nodup _ _ _ K)].
      intros Hin. by apply (taken_free _ _ _ K) in Hin as [].
    - intros i. rewrite elem_of_cons, elem_of_seq. intros [->|Hi].
      + apply lookup_lt_Some in Hs. lia.
      + apply (taken_free _ _ _ K) in Hi as [Hne Hi].
        apply (wf_free t W) in Hi as [g Hi].
        rewrite <-(taken_other _ _ _ K) in Hi by done.
        apply lookup_lt_Some in Hi. lia. }
  exists g0, (if encode t slot g0 =? 0 then wadd 16 g0 1 else g0).
  unfold insert_or_return. destruct (Z.leb_spec limits.HANDLES_PER_PROCESS (count t)); [lia|].
  rewrite E, Hs. simpl.
  assert (∀ t2 g, salt t2 = salt t → encode t2 slot g = encode t slot g) as He.
  { intros t2 g Ht. unfold encode. by rewrite Ht. }
  rewrite (He t1), (He (mk_HandleTable _ _ _ _)) by apply (taken_salt _ _ _ K).
  rewrite (taken_count _ _ _ K), (taken_salt _ _ _ K), Hcount.
  split; [done|]. split; [case_if; by auto|].
  split; [by case_if|]. split; [|done].
  case_if; [|done]. intros E2.
  destruct (encode_inj t slot slot (wadd 16 g0 1) g0) as [_ E3]; auto; [apply (wf_salt t W) | congruence |].
  revert E3. unfold wadd, wrap, in_width in *. intros E3.
  destruct (decide (g0 = 65535)) as [->|]; [done|]. rewrite Z.mod_small in E3; lia.
Qed.

Lemma insert_wf h t slot t1 g :
  wf t → count t < limits.HANDLES_PER_PROCESS → taken t slot t1 → u16 g →
  wf (mk_HandleTable (<[slot := mk_Slot g (Some h)]> (slots t1)) (free t1) (salt t)
       (count t + 1)).
Proof.
  intros W Hc K Hg. destruct (taken_slot _ _ _ K) as (g0 & _ & Hs).
  assert (slot < length (slots t1))%nat by (by eapply lookup_lt_Some).
  split; simpl.
  - apply (wf_salt t W).
  - intros i s. rewrite list_lookup_insert by done. case_decide.
    + intros [= <-]. done.
    + rewrite (taken_other _ _ _ K) by lia. apply (wf_gen t W).
  - apply (taken_nodup _ _ _ K).
  - intros i. rewrite (taken_free _ _ _ K), list_lookup_insert by done.
    case_decide as D.
    + split; [lia|]. intros [? [=]].
    + assert (i ≠ slot) by lia.
      rewrite (taken_other _ _ _ K), <-(wf_free t W) by done. tauto.
  - unfold zlen. rewrite length_insert. fold (zlen (slots t1)) (zlen (free t1)).
    rewrite (taken_size _ _ _ K). lia.
  - unfold zlen. rewrite length_insert. apply (taken_bound _ _ _ K).
Qed.

Lemma names_slots t t' v :
  salt t' = salt t →
  (∀ i g, decode t v = Some (i, g) → slots t' !! i = slots t !! i) →
  names t' v = names t v.
Proof.
  intros Hsalt Hslots. unfold names, get.
  assert (decode t' v = decode t v) as -> by (unfold decode; by rewrite Hsalt).
  destruct (decode t v) as [[i g]|]; [|done]. by rewrite (Hslots i g).
Qed.

(** A value whose slot holds nothing, or another generation, names nothing. *)
Lemma names_None t v i g s :
  decode t v = Some (i, g) → slots t !! i = Some s →
  entry s = None ∨ generation s ≠ g → names t v = None.
Proof.
  intros D Hs Hor. unfold names, get. rewrite D, Hs.
  destruct s as [g' [h|]]; [|done]. simpl in *.
  destruct (Z.eqb_spec g' g); [|done]. by destruct Hor.
Qed.

(** The values a table names after an insert are those it named before and the new
    one. *)
Lemma insert_names h t slot t1 g v :
  wf t → taken t slot t1 → u16 g → u32 v →
  let t2 := mk_HandleTable (<[slot := mk_Slot g (Some h)]> (slots t1)) (free t1) (salt t)
              (count t + 1) in
  names t2 v = if decide (v = encode t slot g) then Some h else names t v.
Proof.
  intros W K Hg Hv t2. pose proof (wf_salt t W) as Hsalt.
  destruct (taken_slot _ _ _ K) as (g0 & _ & Hs).
  assert (Hlen : (slot < length (slots t1))%nat) by (by eapply lookup_lt_Some).
  assert (Z.of_nat slot < 65535) as Hslot.
  { pose proof (taken_bound _ _ _ K) as B.
    unfold zlen in B. lia. }
  case_decide as D.
  - subst v. apply names_spec; [done|done|]. exists slot, g.
    split; [exact (proj2 (decode_encode t slot g Hsalt Hslot Hg))|].
    simpl. by rewrite list_lookup_insert_eq.
  - destruct (decode t v) as [[i g']|] eqn:E.
    + destruct (encode_decode t v i g' Hsalt Hv E) as (Hi & Hg' & Henc).
      destruct (decide (i = slot)) as [->|Hne].
      * transitivity (@None T).
        -- apply (names_None t2 v slot g' (mk_Slot g (Some h)) E);
             [simpl; by rewrite list_lookup_insert_eq | right; simpl; congruence].
        -- symmetry. unfold names, get. rewrite E.
           destruct (slots t !! slot) as [[g'' [h'|]]|] eqn:L; [|done..].
           by apply (taken_empty _ _ _ K) in L.
      * apply names_slots; [done|]. intros j g'' E'.
        rewrite E in E'. simplify_eq. simpl.
        rewrite list_lookup_insert_ne by done. by apply (taken_other _ _ _ K).
    + unfold names, get. change (decode t2 v) with (decode t v). by rewrite E.
Qed.

(** ** Removal *)

Lemma remove_spec t v h :
  wf t → u32 v → names t v = Some h →
  ∃ i g, decode t v = Some (i, g) ∧ slots t !! i = Some (mk_Slot g (Some h)) ∧
  remove v t =
    (Ok h, mk_HandleTable (<[i := mk_Slot (wadd 16 g 1) None]> (slots t))
             (free t ++ [i]) (salt t) (count t - 1)).
Proof.
  intros W Hv Hn. pose proof Hn as Hget. apply names_remove_Ok in Hget.
  apply names_spec in Hn as (i & g & D & Hi); [|apply (wf_salt t W)|done].
  exists i, g. split_and!; [done|done|]. unfold remove. rewrite Hget, D, Hi.
  assert (count t -! 1 = count t - 1) as ->; [|done].
  apply wrap_small. rewrite (wf_count t W). pose proof (wf_bound t W) as B.
  assert (zlen (free t) < zlen (slots t)); [|unfold in_width, zlen in *; lia].
  unfold zlen. apply inj_lt.
  apply (Nat.lt_le_trans _ (length (i :: free t))); [simpl; lia|].
  rewrite <-(length_seq (length (slots t)) 0). apply submseteq_length, NoDup_submseteq.
  - constructor; [|apply (wf_nodup t W)]. intros Hin.
    apply (wf_free t W) in Hin as [g' Hin]. congruence.
  - intros j. rewrite elem_of_cons, elem_of_seq. intros [->|Hj].
    + apply lookup_lt_Some in Hi. lia.
    + apply (wf_free t W) in Hj as [g' Hj]. apply lookup_lt_Some in Hj. lia.
Qed.

Lemma remove_wf t i g h :
  wf t → slots t !! i = Some (mk_Slot g (Some h)) →
  wf (mk_HandleTable (<[i := mk_Slot (wadd 16 g 1) None]> (slots t))
        (free t ++ [i]) (salt t) (count t - 1)).
Proof.
  intros W Hi. pose proof (lookup_lt_Some _ _ _ Hi) as Hlt.
  assert (i ∉ free t) as Hnot.
  { intros Hin. apply (wf_free t W) in Hin as [g' Hin]. congruence. }
  split; simpl.
  - apply (wf_salt t W).
  - intros j s. rewrite list_lookup_insert by done. case_decide.
    + intros [= <-]. by apply wrap_width.
    + apply (wf_gen t W).
  - apply NoDup_app. split_and!; [apply (wf_nodup t W) | set_solver | apply NoDup_singleton].
  - intros j. rewrite elem_of_app, list_elem_of_singleton, (wf_free t W).
    rewrite list_lookup_insert by done. case_decide as D.
    + destruct D as [-> _]. split; [eauto|by right].
    + split; [intros [?| ->]; [done|lia] | by left].
  - unfold zlen. rewrite length_insert, length_app. simpl.
    pose proof (wf_count t W). unfold zlen in *. lia.
  - unfold zlen. rewrite length_insert. apply (wf_bound t W).
Qed.

Lemma drain_wf t : wf t → wf (drain t).2.
Proof.
  intros W. split; simpl.
  - apply (wf_salt t W).
  - intros i s. rewrite list_lookup_fmap.
    destruct (slots t !! i); intros [= <-]. by apply wrap_width.
  - apply NoDup_seq.
  - intros i. rewrite elem_of_seq, list_lookup_fmap. split.
    + intros [_ Hi]. destruct (lookup_lt_is_Some_2 (slots t) i) as [s Hs]; [lia|].
      rewrite Hs. simpl. eauto.
    + intros [g Hg]. destruct (slots t !! i) eqn:E; [|done].
      apply lookup_lt_Some in E. lia.
  - unfold zlen. rewrite length_fmap, length_seq. lia.
  - unfold zlen. rewrite length_fmap. apply (wf_bound t W).
Qed.

Lemma new_wf s : u32 s → wf (new s).
Proof.
  intros Hs. split; simpl; try done.
  - constructor.
  - intros i. rewrite lookup_nil. split; [by intros ?%not_elem_of_nil | by intros [? ?]].
Qed.

(** The slots that hold nothing, by index. *)
Definition vacant (l : list (Slot T)) : list nat :=
  List.filter (λ i, match l !! i with Some (mk_Slot _ None) => true | _ => false end)
    (seq 0 (length l)).

Lemma vacant_length l : (length (omap entry l) + length (vacant l) = length l)%nat.
Proof.
  induction l as [|s l IH] using rev_ind; [done|].
  unfold vacant. rewrite length_app, omap_app. simpl length.
  rewrite Nat.add_1_r, seq_S, List.filter_app, !length_app. simpl.
  rewrite lookup_app_r, Nat.sub_diag by lia. simpl.
  assert (List.filter (λ i, match (l ++ [s]) !! i with
    Some (mk_Slot _ None) => true | _ => false end) (seq 0 (length l)) = vacant l) as ->.
  { apply List.filter_ext_in. intros i Hi. apply in_seq in Hi.
    rewrite lookup_app_l by lia. done. }
  destruct s as [g [h|]]; simpl; lia.
Qed.

Lemma elem_of_vacant l i : i ∈ vacant l ↔ ∃ g, l !! i = Some (mk_Slot g None).
Proof.
  unfold vacant. rewrite list_elem_of_In, filter_In, in_seq. split.
  - intros [_ H]. destruct (l !! i) as [[g [h|]]|]; [done|eauto|done].
  - intros [g Hg]. rewrite Hg. apply lookup_lt_Some in Hg. split; [lia|done].
Qed.

Lemma wf_live t : wf t → zlen (omap entry (slots t)) = count t.
Proof.
  intros W. rewrite (wf_count t W). pose proof (vacant_length (slots t)) as L.
  assert (length (vacant (slots t)) = length (free t)) as Hlen.
  { apply Permutation_length, NoDup_Permutation.
    - apply NoDup_ListNoDup, List.NoDup_filter, List.seq_NoDup.
    - apply (wf_nodup t W).
    - intros i. by rewrite elem_of_vacant, (wf_free t W). }
  unfold zlen. lia.
Qed.

(** ** Sequences of operations *)

(** The two ways an insert ends. *)
Lemma insert_cases r h t :
  wf t →
  (∃ slot t1 g0 g, taken t slot t1 ∧ slots t1 !! slot = Some (mk_Slot g0 None) ∧
     (g = g0 ∨ g = wadd 16 g0 1) ∧ u16 g ∧ Z.of_nat slot < 65535 ∧ encode t slot g ≠ 0 ∧
     insert_or_return r h t =
       (Ok (encode t slot g),
        mk_HandleTable (<[slot := mk_Slot g (Some h)]> (slots t1)) (free t1) (salt t)
          (count t + 1)) ∧
     wf (insert_or_return r h t).2) ∨
  (∃ e, insert_or_return r h t = (Err (e, h), t) ∧
     (e = Limit ∧ room t = 0 ∨ e = NoMemory ∧ r = false ∧ grows t = true)).
Proof.
  intros W. destruct (Z.leb_spec limits.HANDLES_PER_PROCESS (count t)) as [Hc|Hc].
  - right. exists Limit. split.
    + unfold insert_or_return. by apply Z.leb_le in Hc as ->.
    + left. split; [done|]. unfold room. pose proof (wf_count t W).
      pose proof (wf_bound t W). pose proof (zlen_nonneg (free t)).
      replace (count t) with limits.HANDLES_PER_PROCESS by lia. done.
  - destruct (take_slot r t) as [[slot t1]|] eqn:K.
    + left. pose proof (take_slot_taken _ _ _ _ W Hc K) as KT.
      destruct (insert_taken r h t slot t1 W Hc K) as (g0 & g & Hs & Hor & Hg & Hne & E).
      exists slot, t1, g0, g. do 4 (split; [done|]). split; [|do 2 (split; [done|])].
      * apply lookup_lt_Some in Hs. pose proof (taken_bound _ _ _ KT) as B.
        unfold zlen in B. lia.
      * rewrite E. by apply insert_wf.
    + right. exists NoMemory. split.
      * unfold insert_or_return. rewrite K. by apply Z.leb_gt in Hc as ->.
      * right. split; [done|]. unfold take_slot in K.
        destruct (vec_pop (free t)) as [[]|] eqn:P; [done|]. apply vec_pop_None in P.
        unfold grows. rewrite P. by destruct r.
Qed.

(** The two ways a removal ends. *)
Lemma remove_cases v t :
  wf t → u32 v →
  (∃ i g h, decode t v = Some (i, g) ∧ slots t !! i = Some (mk_Slot g (Some h)) ∧
     names t v = Some h ∧
     remove v t =
       (Ok h, mk_HandleTable (<[i := mk_Slot (wadd 16 g 1) None]> (slots t))
                (free t ++ [i]) (salt t) (count t - 1)) ∧ wf (remove v t).2) ∨
  (names t v = None ∧ remove v t = (Err BadHandle, t)).
Proof.
  intros W Hv. destruct (names t v) as [h|] eqn:N.
  - left. destruct (remove_spec t v h W Hv N) as (i & g & D & L & E).
    exists i, g, h. do 4 (split; [done|]). rewrite E. by eapply remove_wf.
  - right. split; [done|]. unfold remove. by rewrite get_Err.
Qed.

Lemma step_wf o t : wf t → wf (step o t) ∧ salt (step o t) = salt t.
Proof.
  intros W. destruct o as [r h|v|]; simpl.
  - unfold insert. destruct (insert_cases r h t W) as
      [(slot & t1 & g0 & g & _ & _ & _ & _ & _ & _ & E & W')|(e & E & _)];
      rewrite E in *; done.
  - destruct (remove_cases (wrap 32 v) t W ltac:(by apply wrap_width)) as
      [(i & g & h & _ & _ & _ & E & W')|(_ & E)]; rewrite E in *; done.
  - split; [by apply drain_wf | done].
Qed.

(** One operation moves a slot's generation by at most one. *)
Lemma step_generation o t i s :
  wf t → slots t !! i = Some s →
  ∃ s', slots (step o t) !! i = Some s' ∧
    (generation s' = generation s ∨ generation s' = wadd 16 (generation s) 1).
Proof.
  intros W Hs. pose proof (lookup_lt_Some _ _ _ Hs) as Hlt. destruct o as [r h|v|]; simpl.
  - unfold insert. destruct (insert_cases r h t W) as
      [(slot & t1 & g0 & g & K & L & Hor & _ & _ & _ & E & _)|(e & E & _)];
      rewrite E; simpl; [|eauto].
    pose proof (lookup_lt_Some _ _ _ L).
    rewrite list_lookup_insert by done. case_decide as D.
    + destruct D as [<- _]. rewrite (taken_same _ _ _ K _ Hs) in L. simplify_eq.
      eexists. split; [done|]. by destruct Hor as [->| ->]; auto.
    + rewrite (taken_other _ _ _ K) by lia. eauto.
  - destruct (remove_cases (wrap 32 v) t W ltac:(by apply wrap_width)) as
      [(j & g & h & _ & L & _ & E & _)|(_ & E)]; rewrite E; simpl; [|eauto].
    rewrite list_lookup_insert by (by eapply lookup_lt_Some). case_decide as D; [|eauto].
    destruct D as [<- _]. simplify_eq. eauto.
  - rewrite list_lookup_fmap, Hs. simpl. eauto.
Qed.

Lemma run_wf os t : wf t → wf (run os t) ∧ salt (run os t) = salt t.
Proof.
  revert t. induction os as [|o os IH]; intros t W; [done|].
  destruct (step_wf o t W) as [W' E']. destruct (IH _ W') as [W'' E''].
  split; [done|]. change (run (o :: os) t) with (run os (step o t)). congruence.
Qed.

(** After [k] operations a slot's generation is at most [k] ahead, modulo [2^16]. *)
Lemma run_generation os t i s :
  wf t → slots t !! i = Some s →
  ∃ s' d, slots (run os t) !! i = Some s' ∧ 0 ≤ d ≤ zlen os ∧
    generation s' = (generation s + d) mod 65536.
Proof.
  revert t s. induction os as [|o os IH]; intros t s W Hs.
  - exists s, 0. split_and!; [done | done | done |].
    rewrite Z.add_0_r. symmetry. apply Z.mod_small, (wf_gen t W _ _ Hs).
  - destruct (step_generation o t i s W Hs) as (s1 & Hs1 & Hor).
    destruct (IH _ s1 (proj1 (step_wf o t W)) Hs1) as (s' & d & Hs' & Hd & E).
    exists s', (d + if decide (generation s1 = generation s) then 0 else 1).
    rewrite zlen_cons. split; [done|]. split; [case_decide; lia|].
    case_decide as D.
    + rewrite E, D. f_equal. lia.
    + destruct Hor as [?|Hor]; [done|]. rewrite E, Hor. unfold wadd, wrap.
      change (2 ^ 16) with 65536. rewrite Z.add_mod_idemp_l by lia. f_equal. lia.
Qed.

(** C32: an insert gives a nonzero 32-bit value that named nothing before, names the
    entry after, and changes what no other value names; it fails only when the table
    is full or a slot cannot be allocated, giving the entry back with the table as it
    was. *)
Theorem insert_correct r h t :
  wf t →
  match insert_or_return r h t with
  | (Ok v, t') =>
      wf t' ∧ u32 v ∧ v ≠ 0 ∧ names t v = None ∧ len t' = len t + 1 ∧
      ∀ w, u32 w → names t' w = if decide (w = v) then Some h else names t w
  | (Err (e, h'), t') =>
      h' = h ∧ t' = t ∧
      (e = Limit ∧ room t = 0 ∨ e = NoMemory ∧ r = false ∧ grows t = true)
  end.
Proof.
  intros W. destruct (insert_cases r h t W) as
    [(slot & t1 & g0 & g & K & _ & _ & Hg & Hslot & Hne & E & W')|(e & E & He)].
  - rewrite E in *. simpl in W'.
    destruct (decode_encode t slot g (wf_salt t W) Hslot Hg) as [Hu D].
    split; [done|]. split; [done|]. split; [done|]. split; [|split; [done|]].
    + unfold names, get. rewrite D.
      destruct (slots t !! slot) as [[g' [h'|]]|] eqn:L; [|done..].
      by apply (taken_empty _ _ _ K) in L.
    + intros w Hw. by apply insert_names.
  - rewrite E. done.
Qed.

(** Removing a value that names an entry gives the entry and leaves every other
    value naming what it named; a value that names nothing is refused and the table is
    as it was. *)
Theorem remove_correct v t :
  wf t → u32 v →
  match remove v t with
  | (Ok h, t') =>
      names t v = Some h ∧ wf t' ∧ len t' = len t - 1 ∧
      ∀ w, u32 w → names t' w = if decide (w = v) then None else names t w
  | (Err e, t') => e = BadHandle ∧ names t v = None ∧ t' = t
  end.
Proof.
  intros W Hv. pose proof (wf_salt t W) as Hsalt.
  destruct (remove_cases v t W Hv) as
    [(i & g & h & D & L & N & E & W')|(N & E)]; rewrite E in *; simpl in *; [|done].
  split; [done|]. split; [done|]. split; [done|]. intros w Hw.
  pose proof (lookup_lt_Some _ _ _ L) as Hlt. case_decide as Heq.
  - subst w. eapply (names_None _ v i g (mk_Slot (wadd 16 g 1) None)); [exact D| |by left].
    simpl. by rewrite list_lookup_insert_eq.
  - destruct (decode t w) as [[j g']|] eqn:D'.
    + destruct (decide (j = i)) as [->|Hne].
      * assert (g' ≠ g).
        { intros ->. destruct (encode_decode t v i g Hsalt Hv D) as (_ & _ & E1).
          destruct (encode_decode t w i g Hsalt Hw D') as (_ & _ & E2). congruence. }
        rewrite (names_None t w i g' _ D' L) by (right; simpl; congruence).
        eapply (names_None _ w i g' (mk_Slot (wadd 16 g 1) None)); [exact D'| |by left].
        simpl. by rewrite list_lookup_insert_eq.
      * apply names_slots; [done|]. intros k g'' D''. rewrite D' in D''. simplify_eq.
        simpl. by rewrite list_lookup_insert_ne.
    + unfold names, get.
      change (decode (mk_HandleTable _ _ (salt t) _) w) with (decode t w). by rewrite D'.
Qed.

(** Draining gives back exactly the live entries, in slot order and as many as the
    table counted, and leaves an empty table in which no value names anything. *)
Theorem drain_correct t :
  wf t →
  let '(out, t') := drain t in
  out = omap entry (slots t) ∧ zlen out = len t ∧ wf t' ∧ len t' = 0 ∧
  ∀ v, names t' v = None.
Proof.
  intros W. simpl. split; [done|]. split; [by apply wf_live|].
  split; [by apply (drain_wf t)|]. split; [done|].
  intros v. unfold names, get. destruct (decode _ v) as [[i g]|]; [|done]. simpl.
  rewrite list_lookup_fmap. by destruct (slots t !! i).
Qed.

(** A value that was closed names nothing for as long as the table has done fewer
    than 65535 further operations, whatever they are. *)
Lemma closed_names_nothing v h t os :
  wf t → u32 v → names t v = Some h → zlen os < 65535 →
  get (run os (remove v t).2) v = Err BadHandle.
Proof.
  intros W Hv N Hos. destruct (remove_cases v t W Hv) as
    [(i & g & h' & D & L & _ & E & W')|(N' & _)]; [|congruence].
  rewrite E in *. simpl in *. set (t1 := mk_HandleTable _ _ _ _) in *.
  destruct (run_generation os t1 i (mk_Slot (wadd 16 g 1) None) W') as
    (s' & d & Hs' & Hd & Hg).
  { simpl. apply list_lookup_insert_eq. by eapply lookup_lt_Some. }
  assert (names (run os t1) v = None) as Hn.
  { apply (names_None _ v i g s').
    - unfold decode. rewrite (proj2 (run_wf os t1 W')). exact D.
    - done.
    - right. rewrite Hg. simpl. unfold wadd, wrap. change (2 ^ 16) with 65536.
      rewrite Z.add_mod_idemp_l by lia. intros Heq.
      pose proof (wf_gen t W _ _ L) as Hgr. unfold in_width in Hgr. simpl in Hgr.
      change (2 ^ 16) with 65536 in Hgr.
      assert ((g + 1 + d) mod 65536 = g mod 65536) as Hm
        by (rewrite Heq; symmetry; by apply Z.mod_small).
      assert ((1 + d) mod 65536 = 0) as Hm'.
      { replace (1 + d) with (g + 1 + d - g) by lia.
        rewrite Zminus_mod, Hm, <-Zminus_mod, Z.sub_diag. done. }
      rewrite Z.mod_small in Hm'; lia. }
  by apply get_Err.
Qed.

(** One insert and one removal of what it gave, on a table of one free slot. *)
Lemma churn s g h :
  u32 s → s mod 65536 ≠ 1 → u16 g →
  let t := mk_HandleTable [mk_Slot g None] [0%nat] s 0 in
  insert true h t =
    (Ok (encode t 0 g), mk_HandleTable [mk_Slot g (Some h)] [] s 1) ∧
  remove (encode t 0 g) (mk_HandleTable [mk_Slot g (Some h)] [] s 1) =
    (Ok h, mk_HandleTable [mk_Slot (wadd 16 g 1) None] [0%nat] s 0).
Proof.
  intros Hs Hs1 Hg t.
  assert (encode t 0 g ≠ 0) as Hne.
  { rewrite encode_pack by (done || lia). intros E.
    apply Z.lxor_eq in E. apply Hs1. simpl in E. rewrite <-E.
    rewrite Z.add_comm, Z.mod_add by lia. done. }
  assert (insert true h t =
    (Ok (encode t 0 g), mk_HandleTable [mk_Slot g (Some h)] [] s 1)) as Hi.
  { unfold insert, insert_or_return, t. cbn -[encode wadd].
    destruct (Z.eqb_spec (encode (mk_HandleTable [mk_Slot g None] [] s 0) 0 g) 0) as [E|];
      [by apply Hne in E | done]. }
  split; [done|].
  destruct (decode_encode t 0 g Hs ltac:(lia) Hg) as [Hu D].
  unfold remove, get.
  change (decode (mk_HandleTable [mk_Slot g (Some h)] [] s 1) (encode t 0 g))
    with (decode t (encode t 0 g)).
  rewrite D. cbn. by rewrite Z.eqb_refl.
Qed.

(** Inserts each followed by the removal of what it gave: [vs] are the values given. *)
Inductive reuses h : HandleTable T → list Z → HandleTable T → Prop :=
| reuses_nil t : reuses h t [] t
| reuses_cons t v t1 t2 vs t3 :
    insert true h t = (Ok v, t1) → remove v t1 = (Ok h, t2) → reuses h t2 vs t3 →
    reuses h t (v :: vs) t3.

(** The values of one slot from a generation on. *)
Definition values s (g : Z) (n : nat) : list Z :=
  (λ k, encode (new s) 0 ((g + k) mod 65536)) <$> seqZ 0 (Z.of_nat n).

Lemma values_cons s g n :
  values s g (S n) = encode (new s) 0 (g mod 65536) :: values s (g + 1) n.
Proof.
  unfold values. rewrite seqZ_cons by lia. rewrite fmap_cons, Z.add_0_r. f_equal.
  replace (Z.pred (Z.of_nat (S n))) with (Z.of_nat n) by lia. change (Z.succ 0) with (1 + 0).
  rewrite <- (fmap_add_seqZ 1 0), <- list_fmap_compose. apply list_fmap_ext. intros i k _. simpl.
  by rewrite Z.add_assoc.
Qed.

Lemma values_mod s g n : values s (g mod 65536) n = values s g n.
Proof.
  unfold values. apply list_fmap_ext. intros i k _. simpl. by rewrite Z.add_mod_idemp_l by lia.
Qed.

Lemma churn_many n s g h :
  u32 s → s mod 65536 ≠ 1 → u16 g →
  reuses h (mk_HandleTable [mk_Slot g None] [0%nat] s 0) (values s g n)
    (mk_HandleTable [mk_Slot ((g + Z.of_nat n) mod 65536) None] [0%nat] s 0).
Proof.
  intros Hs Hs1. revert g. induction n as [|n IH]; intros g Hg.
  { rewrite Z.add_0_r, Z.mod_small by done. constructor. }
  destruct (churn s g h Hs Hs1 Hg) as (Hi & Hr). cbv zeta in Hi, Hr.
  specialize (IH (wadd 16 g 1) ltac:(by apply wrap_width)).
  assert (wadd 16 g 1 = (g + 1) mod 65536) as Hw by done.
  rewrite Hw, values_mod, Z.add_mod_idemp_l in IH by lia. rewrite Hw in Hr.
  rewrite values_cons, Z.mod_small by done.
  replace (g + Z.of_nat (S n)) with (g + 1 + Z.of_nat n) by lia.
  eapply reuses_cons; [exact Hi|exact Hr|exact IH].
Qed.

Lemma values_NoDup s g n : u32 s → Z.of_nat n ≤ 65536 → NoDup (values s g n).
Proof.
  intros Hs Hn. apply NoDup_fmap_2_strong; [|apply NoDup_seqZ].
  intros x y Hx%elem_of_seqZ Hy%elem_of_seqZ E.
  assert (∀ k, u16 ((g + k) mod 65536)) as U by (intros k; split; apply Z.mod_pos_bound; lia).
  destruct (decode_encode (new s) 0 _ Hs ltac:(lia) (U x)) as [_ Dx].
  destruct (decode_encode (new s) 0 _ Hs ltac:(lia) (U y)) as [_ Dy].
  rewrite E, Dy in Dx. injection Dx as Dx.
  assert ((y - x) mod 65536 = 0) as M.
  { replace (y - x) with (g + y - (g + x)) by lia. by rewrite Zminus_mod, Dx, Z.sub_diag. }
  apply Z.mod_divide in M as [q M]; [|lia]. assert (q = 0) by nia. lia.
Qed.

(** C33: how long a closed value stays dead, the generation of a slot being 16 bits wide.  In
    any table, a value that is removed names nothing for fewer than 65535 further operations,
    whatever they are.  And it is reissued at its slot's 65536th use: in a table whose salt's low
    half is not one, of the inserts that follow the first one's removal, each removed in turn, the
    first 65535 give as many different values, none of them the one closed; the next gives that
    one, which then names what was inserted last. *)
Theorem closed_value_reissued s h h' :
  u32 s → s mod 65536 ≠ 1 →
  (∀ t v g os, wf t → u32 v → names t v = Some g → zlen os < 65535 →
     get (run os (remove v t).2) v = Err BadHandle) ∧
  ∃ v t1 t2 vs t3 t4,
    insert true h (new s) = (Ok v, t1) ∧ remove v t1 = (Ok h, t2) ∧
    reuses h t2 vs t3 ∧ zlen vs = 65535 ∧ NoDup (v :: vs) ∧
    insert true h' t3 = (Ok v, t4) ∧ get t4 v = Ok h'.
Proof.
  intros Hs Hs1. split; [intros; by eapply closed_names_nothing|].
  assert (u16 0) as H0 by done.
  destruct (decode_encode (new s) 0 0 Hs ltac:(lia) H0) as [Hu D].
  set (v := encode (new s) 0 0) in *. destruct (churn s 0 h Hs Hs1 H0) as (Hi & Hr).
  cbv zeta in Hi, Hr. change (encode (mk_HandleTable [mk_Slot 0 None] [0%nat] s 0) 0 0) with v in *.
  set (t1 := mk_HandleTable [mk_Slot 0 (Some h)] [] s 1) in *.
  assert (insert true h (new s) = (Ok v, t1)) as Hn.
  { unfold insert, insert_or_return in *. cbn -[encode wadd] in *.
    change (encode (mk_HandleTable [mk_Slot 0 None] [] s 0) 0 0) with v in *. by destruct (v =? 0). }
  change (wadd 16 0 1) with 1 in Hr. set (t2 := mk_HandleTable [mk_Slot 1 None] [0%nat] s 0) in *.
  destruct (churn s 0 h' Hs Hs1 H0) as (Hi' & _). cbv zeta in Hi'.
  change (encode (mk_HandleTable [mk_Slot 0 None] [0%nat] s 0) 0 0) with v in Hi'.
  assert (∃ n, Z.of_nat n = 65535) as [n Hn'] by (by exists (Z.to_nat 65535); apply Z2Nat.id).
  pose proof (churn_many n s 1 h Hs Hs1 ltac:(done)) as Hm. rewrite Hn' in Hm.
  exists v, t1, t2, (values s 1 n). eexists _, _. split; [done|]. split; [done|].
  split; [exact Hm|]. split_and!; [| |exact Hi'|].
  - unfold zlen, values. rewrite length_fmap, length_seqZ. lia.
  - pose proof (values_NoDup s 0 (S n) Hs ltac:(lia)) as N. by rewrite values_cons in N.
  - unfold get. change (decode (mk_HandleTable [mk_Slot 0 (Some h')] [] s 1) v) with (decode (new s) v). by rewrite D.
Qed.
End handles.

(** ** Witnesses *)

(** A table whose salt makes the first value of slot 0 encode to zero. *)
Definition table_one : HandleTable Z :=
  mk_HandleTable [mk_Slot 1 (Some 10)] [] 1 1.

Lemma table_one_insert : insert_or_return true 10 (new 1) = (Ok 65536, table_one).
Proof. reflexivity. Qed.

Lemma table_one_wf : wf table_one.
Proof.
  pose proof (insert_wf 10 (new 1) 0 (mk_HandleTable [mk_Slot 0 None] [] 1 0) 1) as H.
  apply H; [by apply new_wf | done | | done].
  apply (take_slot_taken true); [by apply new_wf | done | done].
Qed.

Example insert_correct_witness :
  wf (@new Z 1) ∧ names table_one 65536 = Some 10 ∧ names table_one 0 = None.
Proof.
  assert (wf (@new Z 1)) as W by (by apply new_wf).
  pose proof (insert_correct true 10 (new 1) W) as H. rewrite table_one_insert in H.
  destruct H as (_ & _ & _ & _ & _ & H). split; [done|].
  rewrite !H by done. done.
Defined.

Example remove_correct_witness :
  (remove 65536 table_one).1 = Ok 10 ∧ names (remove 65536 table_one).2 65536 = None.
Proof.
  pose proof (remove_correct 65536 table_one table_one_wf ltac:(done)) as H.
  change (remove 65536 table_one) with
    (Ok (E := Error) 10, mk_HandleTable [mk_Slot 2 (@None Z)] [0%nat] 1 0) in *.
  destruct H as (_ & _ & _ & H). split; [done|]. by rewrite H.
Defined.

Example drain_correct_witness : (drain table_one).1 = [10] ∧ len (drain table_one).2 = 0.
Proof. exact (match drain_correct table_one table_one_wf with
              | conj a (conj _ (conj _ (conj b _))) => conj a b end). Defined.

Example closed_value_reissued_witness :
  get (run [OInsert true 11; ODrain; OInsert true 12] (remove 65536 table_one).2) 65536
    = Err BadHandle ∧
  ∃ v t1 t2 vs t3 t4,
    insert true 7 (new 5) = (Ok v, t1) ∧ remove v t1 = (Ok 7, t2) ∧
    reuses 7 t2 vs t3 ∧ zlen vs = 65535 ∧ NoDup (v :: vs) ∧
    insert true 8 t3 = (Ok v, t4) ∧ get t4 v = Ok 8.
Proof.
  destruct (closed_value_reissued 5 7 8 ltac:(done) ltac:(done)) as [H1 H2].
  split; [|exact H2]. apply (H1 table_one 65536 10); [apply table_one_wf|done..].
Defined.
