(* ===== verification/Quota.v ===== *)
(** * Memory accounting: ledgers and page tables

    [src/kernel/quota/src/lib.rs]: an account's ledger, and the page tables a change of
    an address space's areas makes or frees.  The ledger's invariant is that what is
    charged and what is held for children never pass the limit together; the table
    count is shown equal to the difference of a full count of the regions touched. *)

From S2P Require Import Prelude Abi.
(** ** Ledgers *)

Record Usage := mk_Usage {
  u_limit : Z; u_used : Z; u_peak : Z; u_reserved : Z
}.

Definition Usage_room (u : Usage) : Z :=
  saturating_sub (saturating_sub (u_limit u) (u_used u)) (u_reserved u).

Record Exceeded := mk_Exceeded { asked : Z; usage_at : Usage }.
Record Underflow := mk_Underflow { returned : Z; held : Z }.

Record Ledger := mk_Ledger {
  limit : Z; used : Z; peak : Z; reserved : Z
}.

Module Ledger.

Definition new (limit : Z) : Ledger := mk_Ledger limit 0 0 0.

Definition usage (l : Ledger) : Usage :=
  mk_Usage (limit l) (used l) (peak l) (reserved l).

Definition fits (l : Ledger) (bytes : Z) : bool :=
  match checked_add 64 (used l) (reserved l) ≫= λ v, checked_add 64 v bytes with
  | Some total => total <=? limit l
  | None => false
  end.

Definition charge (l : Ledger) (bytes : Z) : result Exceeded unit * Ledger :=
  if negb (fits l bytes) then (Err (mk_Exceeded bytes (usage l)), l)
  else
    let used' := used l +! bytes in
    (Ok tt, mk_Ledger (limit l) used' (Z.max (peak l) used') (reserved l)).

Definition uncharge (l : Ledger) (bytes : Z) : result Underflow unit * Ledger :=
  match checked_sub (used l) bytes with
  | None => (Err (mk_Underflow bytes (used l)), l)
  | Some u => (Ok tt, mk_Ledger (limit l) u (peak l) (reserved l))
  end.

Definition reserve (l : Ledger) (bytes : Z) : result Exceeded unit * Ledger :=
  if negb (fits l bytes) then (Err (mk_Exceeded bytes (usage l)), l)
  else (Ok tt, mk_Ledger (limit l) (used l) (peak l) (reserved l +! bytes)).

Definition unreserve (l : Ledger) (bytes : Z) : result Underflow unit * Ledger :=
  match checked_sub (reserved l) bytes with
  | None => (Err (mk_Underflow bytes (reserved l)), l)
  | Some r => (Ok tt, mk_Ledger (limit l) (used l) (peak l) r)
  end.

(** What a ledger always satisfies. *)
Record ok (l : Ledger) : Prop := {
  ok_limit : u64 (limit l);
  ok_used : 0 ≤ used l;
  ok_reserved : 0 ≤ reserved l;
  ok_fits : used l + reserved l ≤ limit l;
  ok_peak : used l ≤ peak l ≤ limit l;
}.

End Ledger.

(** ** Page tables *)

Record Tables := mk_Tables {
  pages : Z;
  reclaim : list (option (Z * Z));
}.

Definition Tables_bytes (t : Tables) : Z := pages t *! charge.PAGE.

(** The regions of [size] bytes that [start .. end] touches, by index. *)
Definition regions (start end_ size : Z) : Z * Z := (start / size, (end_ -! 1) / size).

Definition hull_add (hull : option (Z * Z)) (region : Z) : option (Z * Z) :=
  Some (match hull with None => (region, region) | Some (lo, _) => (lo, region) end).

(** The state of the loop over pieces at one level. *)
Record Level := mk_Level {
  level_pages : Z;
  last_counted : option Z;
  hull : option (Z * Z);
}.

(** The inner loop: [for region in from..=last]. *)
Definition count_regions (topmost : Z) (left right : option Z) (from last : Z)
    (st : Z * option (Z * Z)) : Z * option (Z * Z) :=
  foldl (λ '(n, h) region,
    if (region =? topmost) || bool_decide (Some region = left)
       || bool_decide (Some region = right)
    then (n, h) else (n +! 1, hull_add h region))
    st (seqZ from (last - from + 1)).

(** One piece of the outer loop. *)
Definition count_piece (size topmost : Z) (left right : option Z)
    (st : Level) (piece : Z * Z) : Level :=
  let '(start, end_) := piece in
  if end_ <=? start then st
  else
    let '(first, last) := regions start end_ size in
    let from := match last_counted st with
                | Some done => if first <=? done then done +! 1 else first
                | None => first
                end in
    let '(n, h) := count_regions topmost left right from last (level_pages st, hull st) in
    mk_Level n
      (Some (match last_counted st with None => last | Some done => Z.max done last end)) h.

Definition tables_level (pieces : list (Z * Z)) (before after : option Z) (top size : Z)
    (pages0 : Z) : Level :=
  let topmost := (top -! 1) / size in
  let left := (λ e, (e -! 1) / size) <$> option_filter (λ e, 0 <? e) before in
  let right := (λ s, s / size) <$> after in
  foldl (count_piece size topmost left right) (mk_Level pages0 None None) pieces.

Definition tables (pieces : list (Z * Z)) (before after : option Z) (top : Z) : Tables :=
  foldl (λ out size,
    let st := tables_level pieces before after top size (pages out) in
    mk_Tables (level_pages st)
      (reclaim out ++ [(λ '(lo, hi), (lo *! size, (hi +! 1) *! size)) <$> hull st]))
    (mk_Tables 0 []) charge.TABLE_REGIONS.

(** ** The kernel's share of the machine, splits and handle-table steps *)

Definition machine_limit (free : Z) : Z :=
  let fraction := free / 32 in
  let reserve := if Z.shiftl 32 20 <? fraction then fraction else Z.shiftl 32 20 in
  Z.land (saturating_sub free reserve) (wnot 64 (charge.PAGE - 1)).

Definition split_needed (start end_ at_ : Z) : bool := (start <? at_) && (at_ <? end_).

Definition table_steps (slots : Z) : Z := div_ceil slots charge.HANDLE_SLOTS.

(** ** The full count *)

(** The regions of one size that an area touches. *)
Definition spans (size : Z) (area : Z * Z) : list Z :=
  let '(s, e) := area in
  if e <=? s then [] else seqZ (s / size) ((e - 1) / size - s / size + 1).

Definition touched (size : Z) (areas : list (Z * Z)) : gset Z :=
  list_to_set (areas ≫= spans size).

(** The table pages an address space with these areas needs, its fixed tables left out. *)
Definition full_count (top : Z) (areas : list (Z * Z)) : Z :=
  sumZ ((λ size, Z.of_nat (base.size (touched size areas ∖ {[ (top - 1) / size ]})))
          <$> charge.TABLE_REGIONS).

(** The nearest of [kept] that ends at or below [lo], and the nearest that starts at or
    above [hi]; nothing of [kept] lies between. *)
Definition around (kept : list (Z * Z)) (lo hi : Z) (before after : option Z) : Prop :=
  (∀ s e, (s, e) ∈ kept → 0 ≤ s < e ∧ (e ≤ lo ∨ hi ≤ s)) ∧
  match before with
  | Some b => b ≤ lo ∧ (∃ s, (s, b) ∈ kept) ∧ ∀ s e, (s, e) ∈ kept → e ≤ lo → e ≤ b
  | None => ∀ s e, (s, e) ∈ kept → lo < e
  end ∧
  match after with
  | Some a => hi ≤ a ∧ (∃ e, (a, e) ∈ kept) ∧ ∀ s e, (s, e) ∈ kept → hi ≤ s → a ≤ s
  | None => ∀ s e, (s, e) ∈ kept → s < hi
  end.

(** Pieces in address order, inside [lo .. hi]. *)
Definition pieces_in (lo hi : Z) (pieces : list (Z * Z)) : Prop :=
  StronglySorted (λ p q, p.1 ≤ q.1) pieces ∧ ∀ s e, (s, e) ∈ pieces → lo ≤ s ∧ 0 ≤ e ≤ hi.

(** ** Ledger theorems *)

Lemma fits_iff l bytes :
  Ledger.ok l → 0 ≤ bytes →
  Ledger.fits l bytes = true ↔ used l + reserved l + bytes ≤ limit l.
Proof.
  intros [Hl Hu Hr Hf Hp] Hb. unfold Ledger.fits. unfold in_width in Hl.
  destruct (checked_add 64 (used l) (reserved l)) as [v|] eqn:E; simpl.
  - apply checked_add_Some in E as [-> _].
    destruct (checked_add 64 (used l + reserved l) bytes) as [w|] eqn:E'.
    + apply checked_add_Some in E' as [-> _]. apply Z.leb_le.
    + apply checked_add_None in E'. split; [done|lia].
  - apply checked_add_None in E. lia.
Qed.

Lemma new_ok limit : u64 limit → Ledger.ok (Ledger.new limit).
Proof. intros H. split; simpl; try done; unfold in_width in H; lia. Qed.

(** A charge is taken exactly when the bytes fit beside what is charged and what is
    held for children, with no wrap of the sums; it keeps the ledger's invariant, and a
    refusal says what was asked and changes nothing. *)
Lemma ledger_charge l bytes :
  Ledger.ok l → u64 bytes →
  match Ledger.charge l bytes with
  | (Ok _, l') =>
      used l + reserved l + bytes ≤ limit l ∧ Ledger.ok l' ∧
      used l' = used l + bytes ∧ peak l' = Z.max (peak l) (used l') ∧
      limit l' = limit l ∧ reserved l' = reserved l
  | (Err e, l') =>
      limit l < used l + reserved l + bytes ∧ l' = l ∧
      e = mk_Exceeded bytes (Ledger.usage l)
  end.
Proof.
  intros O [Hb Hb']. pose proof (fits_iff l bytes O Hb) as F.
  unfold Ledger.charge. destruct (Ledger.fits l bytes); simpl.
  - destruct F as [F _]. specialize (F eq_refl). destruct O as [Hl Hu Hr Hf Hp].
    unfold in_width in Hl. assert (used l +! bytes = used l + bytes) as ->.
    { apply wrap_small. unfold in_width. lia. }
    split_and!; try done. split; simpl; unfold in_width; lia.
  - split_and!; try done. assert (¬ (used l + reserved l + bytes ≤ limit l)); [|lia].
    rewrite <-F. done.
Qed.

(** Holding a child's limit is taken exactly when it fits beside what is charged
    and what is already held, keeps the invariant, and is given back by [unreserve];
    so is a charge by [uncharge]. *)
Lemma ledger_reserve l bytes :
  Ledger.ok l → u64 bytes →
  match Ledger.reserve l bytes with
  | (Ok _, l') =>
      used l + reserved l + bytes ≤ limit l ∧ Ledger.ok l' ∧
      reserved l' = reserved l + bytes ∧ Ledger.unreserve l' bytes = (Ok tt, l)
  | (Err e, l') =>
      limit l < used l + reserved l + bytes ∧ l' = l ∧
      e = mk_Exceeded bytes (Ledger.usage l)
  end.
Proof.
  intros O [Hb Hb']. pose proof (fits_iff l bytes O Hb) as F.
  unfold Ledger.reserve. destruct (Ledger.fits l bytes); simpl.
  - destruct F as [F _]. specialize (F eq_refl). destruct O as [Hl Hu Hr Hf Hp].
    unfold in_width in Hl. assert (reserved l +! bytes = reserved l + bytes) as ->.
    { apply wrap_small. unfold in_width. lia. }
    split_and!; try done.
    + split; simpl; unfold in_width; lia.
    + unfold Ledger.unreserve, checked_sub. simpl.
      destruct (Z.leb_spec bytes (reserved l + bytes)); [|lia].
      rewrite Z.add_simpl_r. by destruct l.
  - split_and!; try done. assert (¬ (used l + reserved l + bytes ≤ limit l)); [|lia].
    rewrite <-F. done.
Qed.

(** Giving back at most what is held keeps the invariant; more is an [Underflow] that
    changes nothing. *)
Lemma ledger_uncharge l bytes :
  Ledger.ok l → 0 ≤ bytes →
  match Ledger.uncharge l bytes with
  | (Ok _, l') =>
      bytes ≤ used l ∧ Ledger.ok l' ∧ used l' = used l - bytes ∧
      reserved l' = reserved l ∧ limit l' = limit l
  | (Err e, l') => used l < bytes ∧ l' = l ∧ e = mk_Underflow bytes (used l)
  end.
Proof.
  intros [Hl Hu Hr Hf Hp] Hb. unfold Ledger.uncharge, checked_sub.
  case_if; simpl; split_and!; try done; try lia. split; simpl; try done; lia.
Qed.

Lemma ledger_unreserve l bytes :
  Ledger.ok l → 0 ≤ bytes →
  match Ledger.unreserve l bytes with
  | (Ok _, l') =>
      bytes ≤ reserved l ∧ Ledger.ok l' ∧ reserved l' = reserved l - bytes ∧
      used l' = used l ∧ limit l' = limit l
  | (Err e, l') => reserved l < bytes ∧ l' = l ∧ e = mk_Underflow bytes (reserved l)
  end.
Proof.
  intros [Hl Hu Hr Hf Hp] Hb. unfold Ledger.unreserve, checked_sub.
  case_if; simpl; split_and!; try done; try lia. split; simpl; try done; lia.
Qed.

(** ** The ledger as a budget *)

Inductive ledger_op :=
  | Charge (bytes : Z)
  | Uncharge (bytes : Z)
  | Reserve (bytes : Z)
  | Unreserve (bytes : Z).

Definition op_bytes (o : ledger_op) : Z :=
  match o with Charge n | Uncharge n | Reserve n | Unreserve n => n end.

Definition granted {E A S} (x : result E A * S) : bool * S :=
  (match x.1 with Ok _ => true | Err _ => false end, x.2).

Definition ledger_step (o : ledger_op) (l : Ledger) : bool * Ledger :=
  match o with
  | Charge n => granted (Ledger.charge l n)
  | Uncharge n => granted (Ledger.uncharge l n)
  | Reserve n => granted (Ledger.reserve l n)
  | Unreserve n => granted (Ledger.unreserve l n)
  end.

(** What the ledger promises, over unbounded integers: the bytes charged, the bytes held
    and the most ever charged, of a budget of [lim]. *)
Record budget := mk_budget { b_used : Z; b_held : Z; b_peak : Z }.

Definition budget_step (lim : Z) (o : ledger_op) (b : budget) : bool * budget :=
  match o with
  | Charge n =>
      if b_used b + b_held b + n <=? lim
      then (true, mk_budget (b_used b + n) (b_held b) (Z.max (b_peak b) (b_used b + n)))
      else (false, b)
  | Reserve n =>
      if b_used b + b_held b + n <=? lim
      then (true, mk_budget (b_used b) (b_held b + n) (b_peak b))
      else (false, b)
  | Uncharge n =>
      if n <=? b_used b then (true, mk_budget (b_used b - n) (b_held b) (b_peak b))
      else (false, b)
  | Unreserve n =>
      if n <=? b_held b then (true, mk_budget (b_used b) (b_held b - n) (b_peak b))
      else (false, b)
  end.

Fixpoint run_ops {S} (f : ledger_op → S → bool * S) (os : list ledger_op) (s : S) :
    list bool * S :=
  match os with
  | [] => ([], s)
  | o :: os =>
      let '(b, s) := f o s in
      let '(bs, s) := run_ops f os s in (b :: bs, s)
  end.

Definition ledger_run := run_ops ledger_step.

Definition abs (l : Ledger) : budget := mk_budget (used l) (reserved l) (peak l).

Lemma ledger_step_refines l o :
  Ledger.ok l → u64 (op_bytes o) →
  budget_step (limit l) o (abs l) = ((ledger_step o l).1, abs (ledger_step o l).2) ∧
  Ledger.ok (ledger_step o l).2 ∧ limit (ledger_step o l).2 = limit l.
Proof.
  intros O Hn. assert (0 ≤ op_bytes o) as Hn0 by apply Hn.
  destruct o as [n|n|n|n]; simpl in *; unfold granted.
  - pose proof (ledger_charge l n O Hn) as S.
    destruct (Ledger.charge l n) as [[[]|e] l']; simpl; unfold abs.
    + destruct S as (? & ? & ? & ? & ? & ?). case_if; [|lia]. split_and!; congruence.
    + destruct S as (? & -> & _). by case_if; [lia|].
  - pose proof (ledger_uncharge l n O Hn0) as S. unfold Ledger.uncharge in *.
    destruct (checked_sub _ _) eqn:E; simpl in *; unfold abs; simpl.
    + destruct S as (? & ? & ? & ?). case_if; [|lia]. split_and!; congruence.
    + destruct S as (? & _ & _). by case_if; [lia|].
  - pose proof (ledger_reserve l n O Hn) as S. unfold Ledger.reserve in *.
    destruct (Ledger.fits _ _) eqn:E; simpl in *; unfold abs; simpl.
    + destruct S as (? & ? & ? & ?). case_if; [|lia]. split_and!; congruence.
    + destruct S as (? & _ & _). by case_if; [lia|].
  - pose proof (ledger_unreserve l n O Hn0) as S. unfold Ledger.unreserve in *.
    destruct (checked_sub _ _) eqn:E; simpl in *; unfold abs; simpl.
    + destruct S as (? & ? & ? & ?). case_if; [|lia]. split_and!; congruence.
    + destruct S as (? & _ & _). by case_if; [lia|].
Qed.

Lemma ledger_run_refines os l :
  Ledger.ok l → Forall (λ o, u64 (op_bytes o)) os →
  run_ops (budget_step (limit l)) os (abs l) =
    ((ledger_run os l).1, abs (ledger_run os l).2) ∧
  Ledger.ok (ledger_run os l).2 ∧ limit (ledger_run os l).2 = limit l.
Proof.
  revert l. unfold ledger_run. induction os as [|o os IH]; intros l O Hos; [done|]. simpl.
  apply Forall_cons in Hos as [Ho Hos].
  destruct (ledger_step_refines l o O Ho) as (E & O' & El). rewrite E.
  destruct (ledger_step o l) as [b l']. simpl in *.
  destruct (IH l' O' Hos) as (E' & O'' & El'). rewrite <-El, E'.
  by destruct (run_ops ledger_step os l') as [bs l''].
Qed.

(** C34: a ledger is a budget over unbounded integers: any sequence of its calls is
    granted and refused exactly as the budget says, leaves what the budget leaves (the
    most ever charged included), and never charges and holds more than the limit. *)
Theorem ledger_refines lim os :
  u64 lim → Forall (λ o, u64 (op_bytes o)) os →
  let '(replies, b) := run_ops (budget_step lim) os (mk_budget 0 0 0) in
  (ledger_run os (Ledger.new lim)).1 = replies ∧
  abs (ledger_run os (Ledger.new lim)).2 = b ∧ b_used b + b_held b ≤ lim.
Proof.
  intros Hl Hos.
  destruct (ledger_run_refines os (Ledger.new lim) (new_ok lim Hl) Hos) as (E & O & El).
  change (run_ops (budget_step lim) os (mk_budget 0 0 0) =
    ((ledger_run os (Ledger.new lim)).1, abs (ledger_run os (Ledger.new lim)).2)) in E.
  rewrite E. split_and!; [done..|]. simpl in *. destruct O. simpl in *. lia.
Qed.


(** ** Page-table theorems *)

Lemma elem_of_spans size s e r :
  r ∈ spans size (s, e) ↔ s < e ∧ s / size ≤ r ≤ (e - 1) / size.
Proof.
  unfold spans. case_if.
  - split; [by intros ?%not_elem_of_nil | lia].
  - rewrite elem_of_seqZ. lia.
Qed.

Lemma elem_of_touched size areas r :
  r ∈ touched size areas ↔
  ∃ s e, (s, e) ∈ areas ∧ s < e ∧ s / size ≤ r ≤ (e - 1) / size.
Proof.
  unfold touched. rewrite elem_of_list_to_set, list_elem_of_bind. split.
  - intros ([s e] & Hr & Hin). apply elem_of_spans in Hr. eauto.
  - intros (s & e & Hin & Hr). exists (s, e). by rewrite elem_of_spans.
Qed.

Lemma touched_app size l k : touched size (l ++ k) = touched size l ∪ touched size k.
Proof. unfold touched. by rewrite bind_app, list_to_set_app_L. Qed.

(** The hull of an increasing list of regions is its first and its last. *)
Lemma hull_bounds (L : list Z) lo hi :
  StronglySorted Z.lt L → foldl hull_add None L = Some (lo, hi) →
  lo ∈ L ∧ hi ∈ L ∧ ∀ r, r ∈ L → lo ≤ r ≤ hi.
Proof.
  revert lo hi. induction L as [|x L IH] using rev_ind; intros lo hi HS; [done|].
  rewrite foldl_app. simpl. apply StronglySorted_app in HS as (Hlt & HS & _).
  destruct (foldl hull_add None L) as [[lo' hi']|] eqn:E; intros [= <- <-].
  - destruct (IH lo' hi' HS eq_refl) as (H1 & H2 & H3).
    split; [set_solver|]. split; [set_solver|]. intros r.
    rewrite elem_of_app, list_elem_of_singleton. intros [Hr| ->].
    + specialize (H3 r Hr). assert (r < x) by (apply (Hlt r x); set_solver). lia.
    + assert (lo' < x) by (apply (Hlt lo' x); set_solver). lia.
  - destruct L as [|y L _] using rev_ind.
    + simpl. split; [set_solver|]. split; [set_solver|].
      intros r. rewrite list_elem_of_singleton. lia.
    + rewrite foldl_app in E. simpl in E. by destruct (foldl hull_add None L).
Qed.

Section level.
Context (size topmost : Z) (left right : option Z) (Hsize : 2 ≤ size).

(** Whether a region is counted. *)
Definition keep (r : Z) : bool :=
  negb ((r =? topmost) || bool_decide (Some r = left) || bool_decide (Some r = right)).

Lemma count_regions_spec from last n h :
  u64 n →
  count_regions topmost left right from last (n, h) =
    (wrap 64 (n + zlen (List.filter keep (seqZ from (last - from + 1)))),
     foldl hull_add h (List.filter keep (seqZ from (last - from + 1)))).
Proof.
  unfold count_regions. generalize (seqZ from (last - from + 1)) as rs.
  intros rs. revert n h. induction rs as [|r rs IH]; intros n h Hn; simpl.
  - by rewrite Z.add_0_r, wrap_small.
  - replace ((r =? topmost) || _ || _) with (negb (keep r))
      by (unfold keep; by rewrite negb_involutive).
    destruct (keep r); simpl; [|by apply IH].
    + rewrite IH by (by apply wrap_width). f_equal.
      unfold wadd, wrap. rewrite Z.add_mod_idemp_l by done. f_equal.
      rewrite zlen_cons. lia.
Qed.

(** What the loop over pieces has established after [ps]: [L] is what it counted. *)
Record linv (n0 : Z) (ps : list (Z * Z)) (st : Level) (L : list Z) : Prop := {
  linv_pages : level_pages st = wrap 64 (n0 + zlen L);
  linv_hull : hull st = foldl hull_add None L;
  linv_sorted : StronglySorted Z.lt L;
  linv_mem : ∀ r, r ∈ L ↔ r ∈ touched size ps ∧ keep r = true;
  linv_last :
    match last_counted st with
    | None => ∀ r, r ∉ touched size ps
    | Some d => 0 ≤ d < 2 ^ 63 ∧ (∀ r, r ∈ touched size ps → r ≤ d) ∧
        ∀ s, (∀ p, p ∈ ps → p.1 ≤ s) → ∀ r, s / size ≤ r ≤ d → r ∈ touched size ps
    end;
}.

Lemma seqZ_sorted a n : StronglySorted Z.lt (seqZ a n).
Proof.
  destruct (decide (0 ≤ n)) as [Hn|]; [|rewrite seqZ_nil by lia; constructor].
  revert a. pattern n. apply natlike_ind; [| |done].
  - intros a. rewrite seqZ_nil by lia. constructor.
  - intros k Hk IH a. rewrite seqZ_cons by lia.
    replace (Z.pred (Z.succ k)) with k by lia. constructor; [apply IH|].
    apply Forall_forall. intros x. rewrite elem_of_seqZ. lia.
Qed.

Lemma filter_sorted f (l : list Z) :
  StronglySorted Z.lt l → StronglySorted Z.lt (List.filter f l).
Proof.
  induction 1 as [|x l HS IH HF]; simpl; [constructor|].
  destruct (f x); [|done]. constructor; [done|].
  rewrite Forall_forall in *. intros y. rewrite list_elem_of_In, filter_In, <-list_elem_of_In.
  intros [? _]. by apply HF.
Qed.

Lemma count_piece_linv n0 ps st L s e :
  linv n0 ps st L → (∀ p, p ∈ ps → p.1 ≤ s) → 0 ≤ s → u64 e →
  ∃ L', linv n0 (ps ++ [(s, e)]) (count_piece size topmost left right st (s, e)) L'.
Proof.
  intros [Ip Ih Is Im Il] Hps Hs He. unfold in_width in He. unfold count_piece.
  destruct (Z.leb_spec e s) as [Hle|Hlt].
  { exists L. assert (touched size (ps ++ [(s, e)]) = touched size ps) as ET.
    { apply set_eq. intros r. rewrite touched_app, elem_of_union, (elem_of_touched _ [_]).
      split; [|by left]. intros [?|(? & ? & Hx%list_elem_of_singleton & ?)]; [done|].
      simplify_eq. lia. }
    split; rewrite ?ET; try done.
    destruct (last_counted st) as [d|]; [|done]. destruct Il as (I1 & I2 & I3).
    split_and!; try done; try lia. intros s' Hs'. apply I3. intros p Hp.
    apply Hs'. set_solver. }
  unfold regions. assert (e -! 1 = e - 1) as ->.
  { apply wrap_small. unfold in_width. lia. }
  set (first := s / size). set (last := (e - 1) / size).
  assert (first ≤ last) by (apply Z.div_le_mono; lia).
  assert (0 ≤ first) by (apply Z.div_pos; lia).
  assert (last < 2 ^ 63) by (apply Z.div_lt_upper_bound; lia).
  set (from := match last_counted st with Some done => _ | None => first end).
  assert (first ≤ from ∧
          (∀ r, r ∈ touched size ps → r < from) ∧
          (∀ r, first ≤ r < from → r ∈ touched size ps)) as (Hfrom & Hbelow & Hin).
  { unfold from. destruct (last_counted st) as [d|].
    - destruct Il as (Hd & I2 & I3). destruct (Z.leb_spec first d).
      + assert (d +! 1 = d + 1) as -> by (apply wrap_small; unfold in_width; lia).
        split_and!; [lia | intros r Hr; specialize (I2 r Hr); lia |].
        intros r Hr. apply (I3 s Hps). fold first. lia.
      + split_and!; [lia | intros r Hr; specialize (I2 r Hr); lia | lia].
    - split_and!; [lia | intros r Hr; by apply Il in Hr | lia]. }
  rewrite count_regions_spec by (rewrite Ip; by apply wrap_width).
  set (K := List.filter keep (seqZ from (last - from + 1))).
  assert (∀ r, r ∈ K ↔ from ≤ r ≤ last ∧ keep r = true) as HK.
  { intros r. unfold K. rewrite list_elem_of_In, filter_In, <-list_elem_of_In, elem_of_seqZ.
    intuition lia. }
  assert (∀ r, r ∈ touched size (ps ++ [(s, e)]) ↔
    r ∈ touched size ps ∨ from ≤ r ≤ last) as HT.
  { intros r. rewrite touched_app, elem_of_union. split.
    - intros [?|Hr]; [by left|]. apply elem_of_touched in Hr as (? & ? & Hr & ? & ?).
      apply list_elem_of_singleton in Hr. injection Hr as -> ->.
      assert (first ≤ r ≤ last) by done.
      destruct (decide (r < from)); [left; apply Hin; lia | right; lia].
    - intros [?|?]; [by left|]. right. apply elem_of_touched. exists s, e.
      rewrite list_elem_of_singleton. fold first last. split_and!; try done; lia. }
  exists (L ++ K). split; simpl.
  - rewrite Ip, zlen_app. unfold wrap. rewrite Z.add_mod_idemp_l by done. f_equal. lia.
  - by rewrite Ih, foldl_app.
  - apply StronglySorted_app. split_and!; [|done | apply filter_sorted, seqZ_sorted].
    intros x y Hx%Im Hy%HK. destruct Hx as [Hx _]. specialize (Hbelow x Hx). lia.
  - intros r. rewrite elem_of_app, HT, Im, HK. tauto.
  - set (d' := match last_counted st with Some done => _ | None => last end).
    assert (last ≤ d' ∧ (∀ r, r ∈ touched size ps → r ≤ d') ∧ 0 ≤ d' < 2 ^ 63 ∧
      (d' = last ∨ (∀ r, first ≤ r ≤ d' → r ∈ touched size ps))) as (D1 & D2 & D3 & D4).
    { unfold d'. destruct (last_counted st) as [d|].
      - destruct Il as (Hd & I2 & I3). split_and!; try lia.
        + intros r Hr. specialize (I2 r Hr). lia.
        + destruct (Z.max_spec d last) as [[? ->]|[? ->]]; [by left|right].
          intros r Hr. apply (I3 s Hps). fold first. lia.
      - split_and!; try lia. intros r Hr. by apply Il in Hr. }
    split; [done|]. split; [intros r [Hr|Hr]%HT; [by apply D2|lia]|].
    intros s' Hs' r Hr. apply HT.
    assert (first ≤ s' / size).
    { apply Z.div_le_mono; [lia|]. apply (Hs' (s, e)). set_solver. }
    destruct D4 as [->|D4]; [|left; apply D4; lia].
    destruct (decide (r < from)); [left; apply Hin; lia | right; lia].
Qed.

Lemma level_linv n0 ps :
  u64 n0 → StronglySorted (λ p q, p.1 ≤ q.1) ps →
  (∀ s e, (s, e) ∈ ps → 0 ≤ s ∧ u64 e) →
  ∃ L, linv n0 ps (foldl (count_piece size topmost left right) (mk_Level n0 None None) ps) L.
Proof.
  intros Hn HS Hb. induction ps as [|[s e] ps IH] using rev_ind.
  - exists []. split; simpl.
    + by rewrite zlen_nil, Z.add_0_r, wrap_small.
    + done.
    + constructor.
    + intros r. rewrite elem_of_touched. split; [by intros ?%not_elem_of_nil|].
      intros [(? & ? & ?%not_elem_of_nil & _) _]. done.
    + intros r (? & ? & ?%not_elem_of_nil & _)%elem_of_touched. done.
  - apply StronglySorted_app in HS as (H1 & H2 & _).
    destruct IH as [L HL]; [done | intros; apply Hb; set_solver |].
    rewrite foldl_app. simpl. eapply count_piece_linv; [done | | | ].
    + intros p Hp. apply (H1 p (s, e)); set_solver.
    + apply (Hb s e). set_solver.
    + apply (Hb s e). set_solver.
Qed.
End level.

Lemma sorted_lt_NoDup (L : list Z) : StronglySorted Z.lt L → NoDup L.
Proof.
  induction 1 as [|x L HS IH HF]; constructor; [|done].
  intros Hx. rewrite Forall_forall in HF. specialize (HF x Hx). lia.
Qed.

(** The neighbours' regions at one level. *)
Definition left_region (before : option Z) (size : Z) : option Z :=
  (λ e, (e - 1) / size) <$> before.
Definition right_region (after : option Z) (size : Z) : option Z :=
  (λ s, s / size) <$> after.

Section tables.
Context (kept pieces : list (Z * Z)) (lo hi top : Z) (before after : option Z).
Context (Hlo : 0 ≤ lo ≤ top) (Hhi : hi ≤ top) (Htop : 0 < top ≤ 2 ^ 63).
Context (Hpieces : pieces_in lo hi pieces) (Haround : around kept lo hi before after).

(** The regions a level counts. *)
Definition counts (size : Z) (L : list Z) : Prop :=
  StronglySorted Z.lt L ∧ ∀ r, r ∈ L ↔ r ∈ touched size pieces ∧
    keep ((top - 1) / size) (left_region before size) (right_region after size) r = true.

Lemma before_pos b : before = Some b → 0 < b ≤ lo.
Proof.
  intros E. pose proof Haround as A. rewrite E in A.
  destruct A as (H1 & (H2 & (s & Hs) & _) & _). specialize (H1 _ _ Hs). lia.
Qed.

Lemma left_region_wrap size :
  (λ e, (e -! 1) / size) <$> option_filter (λ e, 0 <? e) before = left_region before size.
Proof.
  pose proof before_pos as P. unfold left_region. clear Haround.
  destruct before as [b|]; [|done]. simpl. specialize (P b eq_refl).
  destruct (Z.ltb_spec 0 b); [|lia]. simpl. do 2 f_equal.
  apply wrap_small. unfold in_width. lia.
Qed.

Lemma counts_length size L : 2 ^ 21 ≤ size → counts size L → 0 ≤ zlen L ≤ 2 ^ 43.
Proof.
  intros Hsize [HS HM]. split; [apply zlen_nonneg|].
  assert (zlen (seqZ 0 (2 ^ 43)) = 2 ^ 43) as <-.
  { unfold zlen. rewrite length_seqZ, Z2Nat.id; lia. }
  unfold zlen. apply inj_le, submseteq_length, NoDup_submseteq; [by apply sorted_lt_NoDup|].
  intros r Hr. apply HM in Hr as [(s & e & Hin & Hse & Hr)%elem_of_touched _].
  apply (proj2 Hpieces) in Hin. apply elem_of_seqZ. split.
  - transitivity (s / size); [apply Z.div_pos; lia | lia].
  - apply (Z.le_lt_trans _ ((e - 1) / size)); [lia|].
    apply Z.div_lt_upper_bound; [lia|]. nia.
Qed.

Lemma level_spec size n0 :
  2 ^ 21 ≤ size → 0 ≤ n0 ≤ 2 ^ 60 →
  ∃ L, counts size L ∧
    level_pages (tables_level pieces before after top size n0) = n0 + zlen L ∧
    hull (tables_level pieces before after top size n0) = foldl hull_add None L.
Proof.
  intros Hsize Hn0. unfold tables_level. rewrite left_region_wrap.
  assert (top -! 1 = top - 1) as -> by (apply wrap_small; unfold in_width; lia).
  destruct (level_linv size ((top - 1) / size) (left_region before size)
    (right_region after size) ltac:(lia) n0 pieces) as [L [Ip Ih Is Im _]].
  - unfold in_width. lia.
  - apply (proj1 Hpieces).
  - intros s e Hin. apply (proj2 Hpieces) in Hin. unfold in_width. lia.
  - exists L. assert (counts size L) as HC by done. split; [done|]. split; [|done].
    pose proof (counts_length size L Hsize HC). unfold right_region in Ip. rewrite Ip.
    apply wrap_small. unfold in_width. lia.
Qed.

(** What the three levels together give. *)
Lemma tables_spec :
  ∃ L1 L2 L3,
    counts (2 ^ 21) L1 ∧ counts (2 ^ 30) L2 ∧ counts (2 ^ 39) L3 ∧
    pages (tables pieces before after top) = zlen L1 + zlen L2 + zlen L3 ∧
    reclaim (tables pieces before after top) =
      [ (λ '(lo, hi), (lo *! 2 ^ 21, (hi +! 1) *! 2 ^ 21)) <$> foldl hull_add None L1;
        (λ '(lo, hi), (lo *! 2 ^ 30, (hi +! 1) *! 2 ^ 30)) <$> foldl hull_add None L2;
        (λ '(lo, hi), (lo *! 2 ^ 39, (hi +! 1) *! 2 ^ 39)) <$> foldl hull_add None L3 ].
Proof.
  destruct (level_spec (2 ^ 21) 0) as (L1 & C1 & P1 & H1); [lia | lia |].
  pose proof (counts_length (2 ^ 21) L1 ltac:(lia) C1).
  destruct (level_spec (2 ^ 30) (zlen L1)) as (L2 & C2 & P2 & H2); [lia | lia |].
  pose proof (counts_length (2 ^ 30) L2 ltac:(lia) C2).
  destruct (level_spec (2 ^ 39) (zlen L1 + zlen L2)) as (L3 & C3 & P3 & H3); [lia | lia |].
  exists L1, L2, L3. split; [done|]. split; [done|]. split; [done|].
  unfold tables, charge.TABLE_REGIONS. cbn [foldl pages reclaim app].
  change (Z.shiftl 1 21) with (2 ^ 21). change (Z.shiftl 1 30) with (2 ^ 30).
  change (Z.shiftl 1 39) with (2 ^ 39).
  rewrite P1. cbn [pages]. rewrite Z.add_0_l, P2, P3, H1, H2, H3. done.
Qed.

(** A region both the pieces and a kept area touch is a neighbour's, and a
    neighbour's region is touched by a kept area. *)
Lemma shared_region size r :
  0 < size → r ∈ touched size kept → r ∈ touched size pieces →
  Some r = left_region before size ∨ Some r = right_region after size.
Proof.
  intros Hsize (s & e & Hin & Hse & Hr)%elem_of_touched
    (s' & e' & Hin' & Hse' & Hr')%elem_of_touched.
  apply (proj2 Hpieces) in Hin' as [Hs' He'].
  destruct Haround as (H1 & H2 & H3). destruct (H1 _ _ Hin) as [_ [Hle|Hge]].
  - left. clear H3. destruct before as [b|]; [|specialize (H2 _ _ Hin); lia].
    destruct H2 as (Hb & _ & H2). specialize (H2 _ _ Hin Hle).
    simpl. f_equal. apply Z.le_antisymm.
    + transitivity ((e - 1) / size); [lia | apply Z.div_le_mono; lia].
    + transitivity (s' / size); [apply Z.div_le_mono; lia | lia].
  - right. clear H2. destruct after as [a|]; [|specialize (H3 _ _ Hin); lia].
    destruct H3 as (Ha & _ & H3). specialize (H3 _ _ Hin Hge).
    simpl. f_equal. apply Z.le_antisymm.
    + transitivity ((e' - 1) / size); [lia | apply Z.div_le_mono; lia].
    + transitivity (s / size); [apply Z.div_le_mono; lia | lia].
Qed.

Lemma neighbour_touched size r :
  0 < size → Some r = left_region before size ∨ Some r = right_region after size →
  r ∈ touched size kept.
Proof.
  intros Hsize. destruct Haround as (H1 & H2 & H3). intros [E|E].
  - clear H3. destruct before as [b|]; [|done]. injection E as ->.
    destruct H2 as (_ & (s & Hs) & _). destruct (H1 _ _ Hs) as [? _].
    apply elem_of_touched. exists s, b. split_and!; try done; try lia.
    apply Z.div_le_mono; lia.
  - clear H2. destruct after as [a|]; [|done]. injection E as ->.
    destruct H3 as (_ & (e & He) & _). destruct (H1 _ _ He) as [? _].
    apply elem_of_touched. exists a, e. split_and!; try done; try lia.
    apply Z.div_le_mono; lia.
Qed.

(** At one level, the regions counted are the ones the pieces add. *)
Lemma level_count size L :
  0 < size → counts size L →
  Z.of_nat (base.size (touched size (kept ++ pieces) ∖ {[ (top - 1) / size ]})) =
  Z.of_nat (base.size (touched size kept ∖ {[ (top - 1) / size ]})) + zlen L.
Proof.
  intros Hsize [HS HM]. set (tm := (top - 1) / size).
  assert (touched size (kept ++ pieces) ∖ {[ tm ]} =
    (touched size kept ∖ {[ tm ]}) ∪ list_to_set L) as ->.
  { apply set_eq. intros r. rewrite touched_app.
    rewrite elem_of_union, !elem_of_difference, elem_of_union, elem_of_singleton,
      elem_of_list_to_set, HM.
    split.
    - intros [[?|Hr] Hne]; [by left; split|].
      destruct (decide (r ∈ touched size kept)) as [|Hk]; [by left; split|]. right.
      split; [done|]. unfold keep. apply negb_true_iff.
      apply orb_false_iff. split; [apply orb_false_iff; split|].
      + by apply Z.eqb_neq.
      + apply bool_decide_eq_false. intros ?. apply Hk, neighbour_touched; [done|by left].
      + apply bool_decide_eq_false. intros ?. apply Hk, neighbour_touched; [done|by right].
    - intros [[? ?]|[? Hk]]; [split; [by left|done]|]. split; [by right|]. intros ->.
      unfold keep in Hk. by rewrite Z.eqb_refl in Hk. }
  rewrite size_union.
  - rewrite size_list_to_set by (by apply sorted_lt_NoDup). unfold zlen. lia.
  - intros r. rewrite elem_of_difference, elem_of_list_to_set, HM.
    intros [Hk _] [Hp Hkeep]. unfold keep in Hkeep. apply negb_true_iff in Hkeep.
    apply orb_false_iff in Hkeep as [Hkeep Hr]. apply orb_false_iff in Hkeep as [_ Hl].
    apply bool_decide_eq_false in Hr, Hl.
    by destruct (shared_region size r Hsize Hk Hp).
Qed.

(** Nothing kept is touched by the hull of what a level counts. *)
Lemma level_hull size L a b s e :
  2 ^ 21 ≤ size → counts size L →
  (λ '(lo, hi), (lo *! size, (hi +! 1) *! size)) <$> foldl hull_add None L = Some (a, b) →
  (s, e) ∈ kept → e ≤ a ∨ b ≤ s.
Proof.
  intros Hsize [HS HM]. destruct (foldl hull_add None L) as [[l h]|] eqn:E; [|done].
  simpl. intros [= <- <-] Hin. apply hull_bounds in E as (Hl & Hh & Hb); [|done].
  assert (∀ r, r ∈ L → 0 ≤ r ∧ (r + 1) * size ≤ top ∧ lo / size ≤ r ≤ (hi - 1) / size ∧
    Some r ≠ left_region before size ∧ Some r ≠ right_region after size) as HL.
  { intros r Hr. apply HM in Hr as [(s' & e' & Hin' & Hse & Hr)%elem_of_touched Hk].
    apply (proj2 Hpieces) in Hin'. unfold keep in Hk. apply negb_true_iff in Hk.
    apply orb_false_iff in Hk as [Hk Hk3]. apply orb_false_iff in Hk as [Hk1 Hk2].
    apply bool_decide_eq_false in Hk2, Hk3. reflect_bool.
    assert (lo / size ≤ s' / size) by (apply Z.div_le_mono; lia).
    assert ((e' - 1) / size ≤ (hi - 1) / size) by (apply Z.div_le_mono; lia).
    assert ((hi - 1) / size ≤ (top - 1) / size) by (apply Z.div_le_mono; lia).
    assert (0 ≤ lo / size) by (apply Z.div_pos; lia).
    pose proof (Z.mul_div_le (top - 1) size ltac:(lia)).
    split_and!; try done; try lia. nia. }
  destruct (HL l Hl) as (Hl0 & Hlt & Hl1 & Hl2 & _).
  destruct (HL h Hh) as (Hh0 & Hht & Hh1 & _ & Hh2).
  assert (l *! size = l * size) as -> by (apply wrap_small; unfold in_width; nia).
  assert (h +! 1 = h + 1) as -> by (apply wrap_small; unfold in_width; nia).
  assert ((h + 1) *! size = (h + 1) * size) as -> by (apply wrap_small; unfold in_width; nia).
  pose proof Haround as (A1 & A2 & A3). destruct (A1 _ _ Hin) as [Hse [Hle|Hge]].
  - left. clear A3 Hh2. destruct before as [x|]; [|specialize (A2 _ _ Hin); lia].
    destruct A2 as (Hx & _ & A2). specialize (A2 _ _ Hin Hle). simpl in Hl2.
    assert ((x - 1) / size ≤ lo / size) by (apply Z.div_le_mono; lia).
    assert ((x - 1) / size ≠ l) by congruence.
    assert (x - 1 < ((x - 1) / size + 1) * size); [|nia].
    pose proof (Z.mul_succ_div_gt (x - 1) size ltac:(lia)). lia.
  - right. clear A2 Hl2. destruct after as [x|]; [|specialize (A3 _ _ Hin); lia].
    destruct A3 as (Hx & _ & A3). specialize (A3 _ _ Hin Hge). simpl in Hh2.
    assert ((hi - 1) / size ≤ x / size) by (apply Z.div_le_mono; lia).
    assert (x / size ≠ h) by congruence.
    pose proof (Z.mul_div_le x size ltac:(lia)). nia.
Qed.

(** The count of a level's regions, summed over the levels. *)
Lemma tables_count :
  full_count top (kept ++ pieces) =
  full_count top kept + pages (tables pieces before after top).
Proof.
  destruct tables_spec as (L1 & L2 & L3 & C1 & C2 & C3 & -> & _).
  unfold full_count, charge.TABLE_REGIONS. cbn [fmap list_fmap sumZ foldr].
  change (Z.shiftl 1 21) with (2 ^ 21). change (Z.shiftl 1 30) with (2 ^ 30).
  change (Z.shiftl 1 39) with (2 ^ 39).
  rewrite (level_count (2 ^ 21) L1), (level_count (2 ^ 30) L2), (level_count (2 ^ 39) L3)
    by (done || lia). lia.
Qed.

Lemma reclaim_free a b s e :
  Some (a, b) ∈ reclaim (tables pieces before after top) → (s, e) ∈ kept →
  e ≤ a ∨ b ≤ s.
Proof.
  destruct tables_spec as (L1 & L2 & L3 & C1 & C2 & C3 & _ & ->).
  rewrite !elem_of_cons. intros [E|[E|[E|E%not_elem_of_nil]]] Hin; [| | |done].
  - by eapply (level_hull (2 ^ 21) L1).
  - by eapply (level_hull (2 ^ 30) L2).
  - by eapply (level_hull (2 ^ 39) L3).
Qed.

Lemma tables_pages : 0 ≤ pages (tables pieces before after top).
Proof.
  destruct tables_spec as (L1 & L2 & L3 & _ & _ & _ & -> & _).
  pose proof (zlen_nonneg L1). pose proof (zlen_nonneg L2). pose proof (zlen_nonneg L3). lia.
Qed.

Lemma hull_range size L a b :
  2 ^ 21 ≤ size → counts size L →
  (λ '(lo, hi), (lo *! size, (hi +! 1) *! size)) <$> foldl hull_add None L = Some (a, b) →
  0 ≤ a < b ∧ b ≤ top.
Proof.
  intros Hsize [HS HM]. destruct (foldl hull_add None L) as [[l h]|] eqn:E; [|done].
  simpl. intros [= <- <-]. apply hull_bounds in E as (Hl & Hh & Hb); [|done].
  assert (∀ r, r ∈ L → 0 ≤ r ∧ (r + 1) * size ≤ top) as HL.
  { intros r Hr. apply HM in Hr as [(s' & e' & Hin' & Hse & Hr)%elem_of_touched Hk].
    apply (proj2 Hpieces) in Hin'. unfold keep in Hk. apply negb_true_iff in Hk.
    apply orb_false_iff in Hk as [Hk _]. apply orb_false_iff in Hk as [Hk1 _]. reflect_bool.
    assert (lo / size ≤ s' / size) by (apply Z.div_le_mono; lia).
    assert ((e' - 1) / size ≤ (top - 1) / size) by (apply Z.div_le_mono; lia).
    assert (0 ≤ lo / size) by (apply Z.div_pos; lia).
    pose proof (Z.mul_div_le (top - 1) size ltac:(lia)). split; [lia|nia]. }
  destruct (HL l Hl) as [Hl0 Hl1]. destruct (HL h Hh) as [Hh0 Hh1].
  pose proof (Hb _ Hl). pose proof (Hb _ Hh).
  assert (l *! size = l * size) as -> by (apply wrap_small; unfold in_width; nia).
  assert (h +! 1 = h + 1) as -> by (apply wrap_small; unfold in_width; nia).
  assert ((h + 1) *! size = (h + 1) * size) as -> by (apply wrap_small; unfold in_width; nia).
  nia.
Qed.

Lemma reclaim_range a b :
  Some (a, b) ∈ reclaim (tables pieces before after top) → 0 ≤ a < b ∧ b ≤ top.
Proof.
  destruct tables_spec as (L1 & L2 & L3 & C1 & C2 & C3 & _ & ->).
  rewrite !elem_of_cons. intros [E|[E|[E|E%not_elem_of_nil]]]; [| | |done].
  - by eapply (hull_range (2 ^ 21) L1).
  - by eapply (hull_range (2 ^ 30) L2).
  - by eapply (hull_range (2 ^ 39) L3).
Qed.

(** C35: the table pages [tables] counts for a map (or an unmap) are exactly the
    difference the new (or removed) areas make to a full count of the regions the
    address space's areas touch, at the three levels and without the topmost regions. *)
Theorem tables_incremental :
  full_count top (kept ++ pieces) =
  full_count top kept + pages (tables pieces before after top).
Proof. exact tables_count. Qed.

(** The ranges an unmap names for reclaiming hold no area that is left, so the
    kernel may unmap them whole. *)
Theorem tables_reclaim_free a b s e :
  Some (a, b) ∈ reclaim (tables pieces before after top) → (s, e) ∈ kept →
  e ≤ a ∨ b ≤ s.
Proof. apply reclaim_free. Qed.
End tables.

(** The process-account root's limit is whole pages of the free memory, leaves the
    kernel at least a thirty-second and at least 32 MiB of it, and is zero exactly when
    less than a page would be left. *)
Theorem machine_limit_spec free :
  u64 free →
  let l := machine_limit free in
  0 ≤ l ∧ l mod charge.PAGE = 0 ∧
  (0 < l → l + Z.max (free / 32) (32 * 2 ^ 20) ≤ free) ∧
  (l = 0 ↔ free < Z.max (free / 32) (32 * 2 ^ 20) + charge.PAGE).
Proof.
  intros Hf. unfold machine_limit. change (Z.shiftl 32 20) with (32 * 2 ^ 20).
  assert ((if 32 * 2 ^ 20 <? free / 32 then free / 32 else 32 * 2 ^ 20)
          = Z.max (free / 32) (32 * 2 ^ 20)) as -> by (case_if; lia).
  set (m := Z.max _ _). assert (0 ≤ m) by lia. rewrite saturating_sub_max.
  unfold in_width in Hf. change (charge.PAGE - 1) with (2 ^ 12 - 1).
  rewrite land_wnot_ones by (unfold in_width; lia).
  change charge.PAGE with (2 ^ 12). set (x := Z.max 0 (free - m)).
  pose proof (Z.mod_pos_bound x (2 ^ 12) ltac:(lia)).
  assert (x - x mod 2 ^ 12 = 2 ^ 12 * (x / 2 ^ 12)) as E
    by (pose proof (Z.div_mod x (2 ^ 12) ltac:(lia)); lia).
  assert (0 ≤ x / 2 ^ 12) by (apply Z.div_pos; lia).
  cbv zeta. split; [lia|]. split; [rewrite E, Z.mul_comm; by apply Z.mod_mul|].
  split; [lia|]. split; intros Hl.
  - assert (x / 2 ^ 12 = 0) by lia. assert (x mod 2 ^ 12 = x) by lia. lia.
  - rewrite Z.mod_small; lia.
Qed.

(** The steps a handle table is charged for cover its slots and no step more. *)
Lemma table_steps_spec slots :
  0 ≤ slots →
  (table_steps slots - 1) * charge.HANDLE_SLOTS < slots ≤ table_steps slots * charge.HANDLE_SLOTS
  ∨ slots = 0 ∧ table_steps slots = 0.
Proof.
  intros Hs. unfold table_steps, div_ceil. change charge.HANDLE_SLOTS with 64.
  pose proof (Z.div_mod slots 64 ltac:(lia)).
  pose proof (Z.mod_pos_bound slots 64 ltac:(lia)). case_if; lia.
Qed.

(** ** Witnesses *)

Definition ops_small : list ledger_op :=
  [Charge 4096; Reserve 8192; Charge 4097; Uncharge 4096; Uncharge 1].

Example ledger_refines_witness :
  (ledger_run ops_small (Ledger.new 16384)).1 = [true; true; false; true; false].
Proof.
  exact (proj1 (ledger_refines 16384 ops_small ltac:(done)
    ltac:(unfold ops_small; repeat constructor; done))).
Defined.

(** Two areas left around a removed one, in neighbouring regions. *)
Definition areas_kept : list (Z * Z) := [(0, 4096); (6291456, 6295552)].
Definition areas_removed : list (Z * Z) := [(8192, 12288); (2101248, 4202496)].

Lemma areas_around : around areas_kept 8192 4202496 (Some 4096) (Some 6291456).
Proof.
  assert (∀ s e, (s, e) ∈ areas_kept →
    (s = 0 ∧ e = 4096) ∨ (s = 6291456 ∧ e = 6295552)) as H.
  { intros s e. unfold areas_kept. rewrite !elem_of_cons.
    intros [[= -> ->]|[[= -> ->]|E%not_elem_of_nil]]; [by left | by right | done]. }
  split; [intros s e Hin; apply H in Hin; lia|]. split; (split; [done|]; split).
  - exists 0. by left.
  - intros s e Hin. apply H in Hin. lia.
  - exists 6295552. right. by left.
  - intros s e Hin. apply H in Hin. lia.
Qed.

Lemma areas_pieces : pieces_in 8192 4202496 areas_removed.
Proof.
  split.
  - repeat constructor; simpl; lia.
  - intros s e. unfold areas_removed. rewrite !elem_of_cons.
    intros [[= -> ->]|[[= -> ->]|E%not_elem_of_nil]]; [lia | lia | done].
Qed.

Example tables_incremental_witness :
  full_count (2 ^ 47) (areas_kept ++ areas_removed) =
  full_count (2 ^ 47) areas_kept +
  pages (tables areas_removed (Some 4096) (Some 6291456) (2 ^ 47)).
Proof.
  apply (tables_incremental areas_kept areas_removed 8192 4202496);
    [lia | lia | lia | apply areas_pieces | apply areas_around].
Defined.

Example tables_reclaim_free_witness :
  4096 ≤ 2097152 ∨ 6291456 ≤ 0.
Proof.
  apply (tables_reclaim_free areas_kept areas_removed 8192 4202496 (2 ^ 47)
           (Some 4096) (Some 6291456) ltac:(lia) ltac:(lia) ltac:(lia)
           areas_pieces areas_around 2097152 6291456 0 4096).
  - vm_compute. by left.
  - by left.
Defined.

Example machine_limit_spec_witness : 0 < machine_limit (2 ^ 30) ∧
  machine_limit (2 ^ 30) + Z.max (2 ^ 30 / 32) (32 * 2 ^ 20) ≤ 2 ^ 30.
Proof.
  split; [done|]. apply (machine_limit_spec (2 ^ 30) ltac:(done)). done.
Defined.
