(* ===== verification/Account.v ===== *)
(** * Memory accounts

    [src/kernel/core/src/account.rs]: accounts carved out of one another, and the
    charges that hold bytes of an account until they are dropped.  The accounts behind
    [Arc]s are a store indexed by identity; a [Charge] is an entry of a second store,
    which owns its bytes until it is dropped.  Each definition below is what the code
    does between taking and releasing one ledger lock, or a composition of such parts,
    so that the transition relation interleaves them the way threads do.  A line the
    kernel prints as "accounting broken" is counted in [broken]. *)

From S2P Require Import Prelude Abi Quota.
Abbreviation id := nat.

Record Account := mk_Account {
  name : list byte;
  ledger : Ledger;
  parent : option id;
  a_limit : Z;
  (** The charge of its own record, by its key in the store of charges. *)
  record : option id;
}.

Record Charge := mk_Charge { account : id; bytes : Z }.

Record World := mk_World {
  accounts : gmap id Account;
  charges : gmap id Charge;
  next : id;
  broken : nat;
}.

Definition set_ledger (a : Account) (l : Ledger) : Account :=
  mk_Account (name a) l (parent a) (a_limit a) (record a).

Definition put_account (i : id) (a : Account) (w : World) : World :=
  mk_World (<[i := a]> (accounts w)) (charges w) (next w) (broken w).

Definition say_broken (w : World) : World :=
  mk_World (accounts w) (charges w) (next w) (S (broken w)).

(** ** Operations on one account *)

(** [Account::machine]. *)
Definition machine (limit : Z) : World :=
  mk_World {[ 0%nat := mk_Account [x6d; x61; x63; x68; x69; x6e; x65] (Ledger.new limit)
                         None limit None ]} ∅ 1 0.

Definition usage (i : id) (w : World) : option Usage :=
  (λ a, Ledger.usage (ledger a)) <$> accounts w !! i.

(** [try_charge]: no lock is taken for no bytes. *)
Definition try_charge (i : id) (n : Z) : M World Exceeded unit := λ w,
  if n =? 0 then (Ok tt, w)
  else match accounts w !! i with
  | None => (Ok tt, w)
  | Some a =>
      let '(r, l) := Ledger.charge (ledger a) n in (r, put_account i (set_ledger a l) w)
  end.

(** [Account::charge]. *)
Definition charge (i : id) (n : Z) : M World Error unit := λ w,
  let '(r, w') := try_charge i n w in (map_err (λ _, QuotaExceeded) r, w').

Definition uncharge (i : id) (n : Z) (w : World) : World :=
  if n =? 0 then w
  else match accounts w !! i with
  | None => w
  | Some a =>
      match Ledger.uncharge (ledger a) n with
      | (Ok _, l) => put_account i (set_ledger a l) w
      | (Err _, _) => say_broken w
      end
  end.

(** ** Charges *)

(** [Charge::new]. *)
Definition charge_new (i : id) (n : Z) : M World Error id :=
  _ ← charge i n;
  act (λ w, (next w,
    mk_World (accounts w) (<[next w := mk_Charge i n]> (charges w)) (S (next w)) (broken w))).

(** [Charge::grow]. *)
Definition charge_grow (c : id) (n : Z) : M World Error unit := λ w,
  match charges w !! c with
  | None => (Ok tt, w)
  | Some ch =>
      match charge (account ch) n w with
      | (Err e, w') => (Err e, w')
      | (Ok _, w') =>
          (Ok tt, mk_World (accounts w')
             (<[c := mk_Charge (account ch) (bytes ch +! n)]> (charges w')) (next w') (broken w'))
      end
  end.

(** [Drop for Charge]. *)
Definition charge_drop (c : id) (w : World) : World :=
  match charges w !! c with
  | None => w
  | Some ch =>
      let w' := uncharge (account ch) (bytes ch) w in
      mk_World (accounts w') (delete c (charges w')) (next w') (broken w')
  end.

(** [Space::settle] of [vm.rs], of a space that costs [cost] bytes.  A space counts its
    charged bytes itself: its [account] and its [charged] are an entry of the charges,
    and its [charge] is [charge_grow]. *)
Definition settle (c : id) (cost : Z) (w : World) : World :=
  match charges w !! c with
  | None => w
  | Some ch =>
      if bytes ch <? cost then say_broken w
      else
        let w' := uncharge (account ch) (bytes ch -! cost) w in
        mk_World (accounts w') (<[c := mk_Charge (account ch) cost]> (charges w'))
          (next w') (broken w')
  end.

(** [Charge::matches]: the same account, not an equal one. *)
Definition charge_matches (c : id) (i : id) (w : World) : bool :=
  match charges w !! c with Some ch => bool_decide (account ch = i) | None => false end.

(** ** Carving a child *)

(** The checks, and holding the child's limit in the parent. *)
Definition carve_reserve (self : id) (nm : list byte) (lim : Z) : M World Error unit := λ w,
  if negb (valid_name nm) || (lim =? 0) || negb (lim mod PAGE_SIZE =? 0)
  then (Err InvalidArgs, w)
  else if negb (utf8_valid nm) then (Err InvalidArgs, w)
  else match accounts w !! self with
  | None => (Err QuotaExceeded, w)
  | Some a =>
      let '(r, l) := Ledger.reserve (ledger a) lim in
      (map_err (λ _, QuotaExceeded) r, put_account self (set_ledger a l) w)
  end.

(** The error path: the held limit goes back. *)
Definition carve_give_back (self : id) (lim : Z) (e : Error) : M World Error id := λ w,
  match accounts w !! self with
  | None => (Err e, w)
  | Some a =>
      match Ledger.unreserve (ledger a) lim with
      | (Err _, _) => (Err BadState, say_broken w)
      | (Ok _, l) => (Err e, put_account self (set_ledger a l) w)
      end
  end.

(** The child, of which nothing is charged yet. *)
Definition child_new (self : id) (nm : list byte) (lim : Z) (rec : id) (w : World) : World :=
  mk_World
    (<[next w := mk_Account nm (Ledger.new lim) (Some self) lim (Some rec)]> (accounts w))
    (charges w) (S (next w)) (broken w).

(** Charging the child's record; giving the held limit back when that fails. *)
Definition carve_record (self : id) (nm : list byte) (lim : Z) (payer : id) :
    M World Error id := λ w,
  match charge_new payer Abi.charge.OBJECT w with
  | (Ok rec, w1) => (Ok (next w1), child_new self nm lim rec w1)
  | (Err e, w1) => carve_give_back self lim e w1
  end.

(** [Account::carve]. *)
Definition carve (self : id) (nm : list byte) (lim : Z) (payer : id) : M World Error id :=
  _ ← carve_reserve self nm lim; carve_record self nm lim payer.

(** ** The end of an account *)

(** [Drop for Account]: the check of what is left, and the limit given back. *)
Definition account_drop_body (i : id) (w : World) : World :=
  match accounts w !! i with
  | None => w
  | Some a =>
      let w1 := if negb (used (ledger a) =? 0) then say_broken w else w in
      let w2 :=
        match parent a with
        | None => w1
        | Some p =>
            match accounts w1 !! p with
            | None => w1
            | Some pa =>
                match Ledger.unreserve (ledger pa) (a_limit a) with
                | (Ok _, l) => put_account p (set_ledger pa l) w1
                | (Err _, _) => say_broken w1
                end
            end
        end in
      mk_World (delete i (accounts w2)) (charges w2) (next w2) (broken w2)
  end.

(** The body, then the fields: the charge of its record is dropped. *)
Definition account_drop (i : id) (w : World) : World :=
  match accounts w !! i with
  | None => w
  | Some a =>
      let w1 := account_drop_body i w in
      match record a with None => w1 | Some c => charge_drop c w1 end
  end.

(** ** [account_info] *)

Definition info (a : Account) : list byte :=
  let u := Ledger.usage (ledger a) in
  let out := repeat x00 64 in
  let out := (write_u64 out 0 (u_limit u)).2 in
  let out := (write_u64 out 8 (u_used u)).2 in
  let out := (write_u64 out 16 (u_peak u)).2 in
  let out := (write_u64 out 24 (u_reserved u)).2 in
  let n := Z.min (zlen (name a)) limits.NAME_MAX in
  put_range out 32 (take (Z.to_nat n) (name a)).

(** ** Threads *)

(** A carve between its two ledger locks: the parent and the limit it holds there. *)
Abbreviation pending := (list (id * list byte * Z * id)).

(** Nothing refers to the account: no child, no charge, no carve in flight, so its last
    [Arc] may go. *)
Definition unreferenced (i : id) (w : World) (ps : pending) : Prop :=
  (∀ j a, accounts w !! j = Some a → parent a ≠ Some i) ∧
  (∀ c ch, charges w !! c = Some ch → account ch ≠ i) ∧
  (∀ s nm l p, (s, nm, l, p) ∈ ps → s ≠ i ∧ p ≠ i).

(** A charge no account owns as its record: one a kernel object holds. *)
Definition unowned (c : id) (w : World) : Prop :=
  ∀ j a, accounts w !! j = Some a → record a ≠ Some c.

Inductive step : World * pending → World * pending → Prop :=
| step_charge_new w ps i n c w' :
    is_Some (accounts w !! i) → u64 n → charge_new i n w = (c, w') → step (w, ps) (w', ps)
| step_charge_grow w ps c n r w' :
    is_Some (charges w !! c) → unowned c w → u64 n →
    charge_grow c n w = (r, w') → step (w, ps) (w', ps)
| step_charge_drop w ps c :
    is_Some (charges w !! c) → unowned c w → step (w, ps) (charge_drop c w, ps)
| step_settle w ps c ch cost :
    charges w !! c = Some ch → unowned c w → 0 ≤ cost ≤ bytes ch →
    step (w, ps) (settle c cost w, ps)
| step_carve_reserve w ps self nm lim payer w' :
    is_Some (accounts w !! self) → is_Some (accounts w !! payer) → u64 lim →
    carve_reserve self nm lim w = (Ok tt, w') →
    step (w, ps) (w', (self, nm, lim, payer) :: ps)
| step_carve_refused w ps self nm lim e w' :
    is_Some (accounts w !! self) → u64 lim →
    carve_reserve self nm lim w = (Err e, w') → step (w, ps) (w', ps)
| step_carve_record w ps1 ps2 self nm lim payer i w' :
    carve_record self nm lim payer w = (Ok i, w') →
    step (w, ps1 ++ (self, nm, lim, payer) :: ps2) (w', ps1 ++ ps2)
| step_carve_give_back w ps1 ps2 self nm lim payer e r w' :
    carve_give_back self lim e w = (r, w') →
    step (w, ps1 ++ (self, nm, lim, payer) :: ps2) (w', ps1 ++ ps2)
| step_account_drop w ps i a :
    accounts w !! i = Some a → parent a ≠ None → unreferenced i w ps →
    step (w, ps) (account_drop_body i w, ps).

(** What the store of accounts always satisfies. *)
Definition charged_to (i : id) (_ : id) (c : Charge) : Z :=
  if decide (account c = i) then bytes c else 0.
Definition carved_from (i : id) (_ : id) (a : Account) : Z :=
  if decide (parent a = Some i) then a_limit a else 0.
Definition held_for (i : id) (ps : pending) : Z :=
  sumZ ((λ '(s, _, l, _), if decide (s = i) then l else 0) <$> ps).

Definition rooted (_ : id) (a : Account) : Z :=
  if decide (parent a = None) then a_limit a else 0.

Section invariant.

(** The machine's limit. *)
Variable total : Z.

Record inv (w : World) (ps : pending) : Prop := {
  inv_account : ∀ i a, accounts w !! i = Some a →
    Ledger.ok (ledger a) ∧ limit (ledger a) = a_limit a ∧
    used (ledger a) = map_sum (charged_to i) (charges w) ∧
    reserved (ledger a) = map_sum (carved_from i) (accounts w) + held_for i ps;
  inv_charge : ∀ c ch, charges w !! c = Some ch →
    is_Some (accounts w !! account ch) ∧ 0 ≤ bytes ch;
  inv_parent : ∀ i a p, accounts w !! i = Some a → parent a = Some p →
    is_Some (accounts w !! p) ∧ p ≠ i;
  inv_record : ∀ i a c, accounts w !! i = Some a → record a = Some c →
    is_Some (charges w !! c) ∧ ∀ j b, accounts w !! j = Some b → record b = Some c → j = i;
  inv_pending : ∀ s nm l p, (s, nm, l, p) ∈ ps →
    is_Some (accounts w !! s) ∧ is_Some (accounts w !! p) ∧ u64 l;
  inv_next : (∀ i, is_Some (accounts w !! i) → (i < next w)%nat) ∧
             (∀ c, is_Some (charges w !! c) → (c < next w)%nat);
  inv_rooted : map_sum rooted (accounts w) = total;
  inv_broken : broken w = 0%nat;
}.

(** ** One ledger at a time *)

Lemma set_ledger_id a : set_ledger a (ledger a) = a.
Proof. by destruct a. Qed.

Lemma put_account_id i a w : accounts w !! i = Some a → put_account i a w = w.
Proof. intros H. unfold put_account. rewrite insert_id by done. by destruct w. Qed.

Lemma charge_cases i n a w :
  accounts w !! i = Some a → Ledger.ok (ledger a) → u64 n →
  (∃ l, charge i n w = (Ok tt, put_account i (set_ledger a l) w) ∧ Ledger.ok l ∧
     used l = used (ledger a) + n ∧ limit l = limit (ledger a) ∧
     reserved l = reserved (ledger a)) ∨
  (charge i n w = (Err QuotaExceeded, w) ∧
   limit (ledger a) < used (ledger a) + reserved (ledger a) + n).
Proof.
  intros Ha O Hn. unfold charge, try_charge.
  destruct (Z.eqb_spec n 0) as [->|].
  - left. exists (ledger a). rewrite set_ledger_id, put_account_id by done.
    split_and!; try done. lia.
  - rewrite Ha. pose proof (ledger_charge (ledger a) n O Hn) as S.
    destruct (Ledger.charge (ledger a) n) as [[[]|e] l].
    + left. exists l. destruct S as (_ & S1 & S2 & _ & S3 & S4). done.
    + right. destruct S as (S1 & -> & _). by rewrite set_ledger_id, put_account_id.
Qed.

Lemma uncharge_ok i n a w :
  accounts w !! i = Some a → Ledger.ok (ledger a) → 0 ≤ n ≤ used (ledger a) →
  ∃ l, uncharge i n w = put_account i (set_ledger a l) w ∧ Ledger.ok l ∧
     used l = used (ledger a) - n ∧ limit l = limit (ledger a) ∧
     reserved l = reserved (ledger a).
Proof.
  intros Ha O Hn. unfold uncharge. destruct (Z.eqb_spec n 0) as [->|].
  - exists (ledger a). rewrite set_ledger_id, put_account_id by done.
    split_and!; try done. lia.
  - rewrite Ha. pose proof (ledger_uncharge (ledger a) n O (proj1 Hn)) as S.
    destruct (Ledger.uncharge (ledger a) n) as [[[]|e] l].
    + exists l. destruct S as (_ & S1 & S2 & S3 & S4). done.
    + lia.
Qed.

Lemma carved_set_ledger j i a l (m : gmap id Account) :
  m !! i = Some a →
  map_sum (carved_from j) (<[i := set_ledger a l]> m) = map_sum (carved_from j) m.
Proof. intros H. rewrite (map_sum_update _ _ _ a) by done. unfold carved_from. simpl. lia. Qed.

Lemma rooted_set_ledger i a l (m : gmap id Account) :
  m !! i = Some a →
  map_sum rooted (<[i := set_ledger a l]> m) = map_sum rooted m.
Proof. intros H. rewrite (map_sum_update _ _ _ a) by done. unfold rooted. simpl. lia. Qed.

Lemma lookup_set_ledger (m : gmap id Account) i a l j b :
  m !! i = Some a → <[i := set_ledger a l]> m !! j = Some b →
  ∃ b0, m !! j = Some b0 ∧ parent b = parent b0 ∧ record b = record b0 ∧
    a_limit b = a_limit b0 ∧ ((j = i ∧ b = set_ledger a l) ∨ (j ≠ i ∧ b = b0)).
Proof.
  intros Ha. destruct (decide (j = i)) as [->|].
  - rewrite lookup_insert_eq. intros [= <-]. exists a. split_and!; try done. by left.
  - rewrite lookup_insert_ne by done. intros Hb. exists b. split_and!; try done. by right.
Qed.

Lemma is_Some_set_ledger (m : gmap id Account) i a l j :
  m !! i = Some a → is_Some (<[i := set_ledger a l]> m !! j) ↔ is_Some (m !! j).
Proof.
  intros Ha. destruct (decide (j = i)) as [->|].
  - rewrite lookup_insert_eq, Ha. split; eauto.
  - by rewrite lookup_insert_ne.
Qed.

(** A change of one account's ledger, of the charges and of the carves in flight that
    keeps their sums keeps the invariant. *)
Lemma inv_set_ledger w ps i a l cs ps' nx :
  inv w ps → accounts w !! i = Some a → Ledger.ok l → limit l = limit (ledger a) →
  used l = map_sum (charged_to i) cs →
  reserved l = map_sum (carved_from i) (accounts w) + held_for i ps' →
  (∀ j, j ≠ i → map_sum (charged_to j) cs = map_sum (charged_to j) (charges w)) →
  (∀ j, j ≠ i → held_for j ps' = held_for j ps) →
  (∀ c ch, cs !! c = Some ch → is_Some (accounts w !! account ch) ∧ 0 ≤ bytes ch) →
  (∀ j b c, accounts w !! j = Some b → record b = Some c → is_Some (cs !! c)) →
  (∀ s nm lm p, (s, nm, lm, p) ∈ ps' →
     is_Some (accounts w !! s) ∧ is_Some (accounts w !! p) ∧ u64 lm) →
  (next w ≤ nx)%nat → (∀ c, is_Some (cs !! c) → (c < nx)%nat) →
  inv (mk_World (<[i := set_ledger a l]> (accounts w)) cs nx (broken w)) ps'.
Proof.
  intros I Ha O Hlim Hused Hres Hcs Hps Hch Hrec Hpend Hnx Hnc. split; simpl.
  - intros j b Hb. rewrite carved_set_ledger by done.
    destruct (lookup_set_ledger _ _ _ _ _ _ Ha Hb) as
      (b0 & Hb0 & _ & _ & _ & [[-> ->]|[Hne ->]]).
    + destruct (inv_account _ _ I _ _ Ha) as (_ & E & _ & _). simpl.
      split_and!; try done. by rewrite Hlim.
    + destruct (inv_account _ _ I _ _ Hb0) as (? & ? & ? & ?).
      rewrite Hcs, Hps by done. done.
  - intros c ch Hc. rewrite is_Some_set_ledger by done. by apply (Hch c).
  - intros j b p Hb Hp. rewrite is_Some_set_ledger by done.
    destruct (lookup_set_ledger _ _ _ _ _ _ Ha Hb) as (b0 & Hb0 & E & _).
    rewrite E in Hp. by apply (inv_parent _ _ I j b0).
  - intros j b c Hb Hc.
    destruct (lookup_set_ledger _ _ _ _ _ _ Ha Hb) as (b0 & Hb0 & _ & E & _).
    rewrite E in Hc. split; [by eapply Hrec|]. intros k d Hd Hdc.
    destruct (lookup_set_ledger _ _ _ _ _ _ Ha Hd) as (d0 & Hd0 & _ & E' & _).
    rewrite E' in Hdc. by apply (proj2 (inv_record _ _ I j b0 c Hb0 Hc) k d0).
  - intros s nm lm p Hin. rewrite !is_Some_set_ledger by done. by eapply Hpend.
  - destruct (inv_next _ _ I) as [N1 _]. split; [|done].
    intros j. rewrite is_Some_set_ledger by done. intros Hj. specialize (N1 j Hj). lia.
  - rewrite rooted_set_ledger by done. apply (inv_rooted _ _ I).
  - apply (inv_broken _ _ I).
Qed.

(** ** The invariant *)

Lemma charged_to_nonneg w ps i :
  inv w ps → ∀ c ch, charges w !! c = Some ch → 0 ≤ charged_to i c ch.
Proof.
  intros I c ch Hc. unfold charged_to. destruct (decide _); [|lia].
  by apply (inv_charge _ _ I c).
Qed.

Lemma inv_bytes w ps c ch a :
  inv w ps → charges w !! c = Some ch → accounts w !! account ch = Some a →
  0 ≤ bytes ch ≤ used (ledger a).
Proof.
  intros I Hc Ha. split; [by apply (inv_charge _ _ I c)|].
  destruct (inv_account _ _ I _ _ Ha) as (_ & _ & -> & _).
  pose proof (map_sum_lookup_le (charged_to (account ch)) (charges w) c ch
    (charged_to_nonneg _ _ _ I) Hc) as L.
  unfold charged_to in L at 1. by rewrite decide_True in L.
Qed.

Lemma inv_fresh w ps : inv w ps → accounts w !! next w = None ∧ charges w !! next w = None.
Proof.
  intros I. destruct (inv_next _ _ I) as [N1 N2]. split.
  - destruct (accounts w !! next w) eqn:E; [|done].
    specialize (N1 (next w) ltac:(eauto)). lia.
  - destruct (charges w !! next w) eqn:E; [|done].
    specialize (N2 (next w) ltac:(eauto)). lia.
Qed.

Lemma charge_new_eq i n w :
  charge_new i n w =
  match charge i n w with
  | (Err e, w1) => (Err e, w1)
  | (Ok _, w1) =>
      (Ok (next w1), mk_World (accounts w1) (<[next w1 := mk_Charge i n]> (charges w1))
                       (S (next w1)) (broken w1))
  end.
Proof. unfold charge_new, act, mbind, M_bind. by destruct (charge i n w) as [[]]. Qed.

Lemma inv_charge_new w ps i n r w' :
  inv w ps → is_Some (accounts w !! i) → u64 n → charge_new i n w = (r, w') → inv w' ps.
Proof.
  intros I [a Ha] Hn. destruct (inv_fresh _ _ I) as [_ Fc].
  destruct (inv_account _ _ I _ _ Ha) as (O & El & Eu & Er).
  rewrite charge_new_eq.
  destruct (charge_cases i n a w Ha O Hn) as [(l & -> & O' & Hu & Hl & Hr)|[-> _]];
    intros [= _ <-]; [|done].
  eapply (inv_set_ledger w ps i a l (<[next w := mk_Charge i n]> (charges w)) ps (S (next w)));
    try done.
  - rewrite map_sum_insert by done. unfold charged_to at 1. simpl.
    rewrite decide_True by done. lia.
  - lia.
  - intros j Hj. rewrite map_sum_insert by done. unfold charged_to at 1. simpl.
    rewrite decide_False by done. lia.
  - intros c ch Hc. apply lookup_insert_Some in Hc as [[<- <-]|[_ Hc]]; simpl.
    + rewrite Ha. unfold in_width in Hn. split; [by eauto|lia].
    + by apply (inv_charge _ _ I c).
  - intros j b c Hb Hc. destruct (inv_record _ _ I j b c Hb Hc) as [S _].
    rewrite lookup_insert_is_Some'. by right.
  - apply (inv_pending _ _ I).
  - lia.
  - intros c Hc. apply lookup_insert_is_Some' in Hc as [<-|Hc]; [lia|].
    pose proof (proj2 (inv_next _ _ I) c Hc). lia.
Qed.

(** What the holder of a charge does with it: grow it, settle it, drop it. *)
Lemma inv_charge_update w ps c ch a l (n : Z) :
  inv w ps → charges w !! c = Some ch → accounts w !! account ch = Some a →
  Ledger.ok l → limit l = limit (ledger a) → reserved l = reserved (ledger a) → 0 ≤ n →
  used l = used (ledger a) - bytes ch + n →
  inv (mk_World (<[account ch := set_ledger a l]> (accounts w))
        (<[c := mk_Charge (account ch) n]> (charges w)) (next w) (broken w)) ps.
Proof.
  intros I Hc Ha O Hl Hr Hn Hu.
  destruct (inv_account _ _ I _ _ Ha) as (_ & _ & Eu & Er).
  eapply inv_set_ledger; try done.
  - rewrite (map_sum_update _ _ _ ch) by done. unfold charged_to at 2 3. simpl.
    rewrite !decide_True by done. lia.
  - lia.
  - intros j Hj. rewrite (map_sum_update _ _ _ ch) by done.
    unfold charged_to at 2 3. simpl. rewrite !decide_False by done. lia.
  - intros k kh Hk. apply lookup_insert_Some in Hk as [[<- <-]|[_ Hk]]; simpl.
    + split; [by eauto|done].
    + by apply (inv_charge _ _ I k).
  - intros j b k Hb Hk. rewrite lookup_insert_is_Some'. right.
    by apply (inv_record _ _ I j b k).
  - apply (inv_pending _ _ I).
  - intros k Hk. apply lookup_insert_is_Some' in Hk as [<-|Hk];
      apply (inv_next _ _ I); eauto.
Qed.

Lemma inv_charge_grow w ps c n r w' :
  inv w ps → is_Some (charges w !! c) → u64 n → charge_grow c n w = (r, w') → inv w' ps.
Proof.
  intros I [ch Hc] Hn. unfold charge_grow. rewrite Hc.
  destruct (inv_charge _ _ I _ _ Hc) as [[a Ha] Hb].
  destruct (inv_account _ _ I _ _ Ha) as (O & _ & _ & _).
  pose proof (inv_bytes _ _ _ _ _ I Hc Ha) as Hle.
  destruct (charge_cases _ n a w Ha O Hn) as [(l & -> & O' & Hu & Hl & Hr)|[-> _]];
    intros [= _ <-]; [|done].
  assert (bytes ch +! n = bytes ch + n) as ->.
  { apply wrap_small. destruct O' as [[] ? ? ? ?], Hn. unfold in_width in *. lia. }
  apply inv_charge_update; try done; destruct Hn; lia.
Qed.

Lemma inv_settle w ps c ch cost :
  inv w ps → charges w !! c = Some ch → 0 ≤ cost ≤ bytes ch → inv (settle c cost w) ps.
Proof.
  intros I Hc Hcost. unfold settle. rewrite Hc. case_if; [lia|].
  destruct (inv_charge _ _ I _ _ Hc) as [[a Ha] _].
  destruct (inv_account _ _ I _ _ Ha) as (O & _ & _ & _).
  pose proof (inv_bytes _ _ _ _ _ I Hc Ha) as Hle.
  assert (bytes ch -! cost = bytes ch - cost) as ->.
  { apply wrap_small. destruct O as [[] ? ? ? ?]. unfold in_width in *. lia. }
  destruct (uncharge_ok _ (bytes ch - cost) a w Ha O) as (l & -> & O' & Hu & Hl & Hr);
    [lia|]. simpl.
  apply inv_charge_update; try done; lia.
Qed.

Lemma inv_charge_drop w ps c :
  inv w ps → is_Some (charges w !! c) → unowned c w → inv (charge_drop c w) ps.
Proof.
  intros I [ch Hc] Hun. unfold charge_drop. rewrite Hc.
  destruct (inv_charge _ _ I _ _ Hc) as [[a Ha] _].
  destruct (inv_account _ _ I _ _ Ha) as (O & _ & Eu & Er).
  pose proof (inv_bytes _ _ _ _ _ I Hc Ha) as Hle.
  destruct (uncharge_ok _ _ a w Ha O Hle) as (l & -> & O' & Hu & Hl & Hr). simpl.
  eapply inv_set_ledger; try done.
  - rewrite (map_sum_delete _ (charges w) c ch Hc) in Eu.
    unfold charged_to in Eu at 1. rewrite decide_True in Eu by done. lia.
  - lia.
  - intros j Hj. rewrite (map_sum_delete _ (charges w) c ch Hc).
    unfold charged_to at 2. rewrite decide_False by done. lia.
  - intros k kh Hk. apply lookup_delete_Some in Hk as [_ Hk]. by apply (inv_charge _ _ I k).
  - intros j b k Hb Hk. destruct (inv_record _ _ I j b k Hb Hk) as [S _].
    rewrite lookup_delete_ne; [done|]. intros ->. by apply (Hun j b Hb).
  - apply (inv_pending _ _ I).
  - intros k Hk. apply lookup_delete_is_Some in Hk as [_ Hk]. by apply (inv_next _ _ I).
Qed.

Lemma held_for_cons i s nm l p ps :
  held_for i ((s, nm, l, p) :: ps) = (if decide (s = i) then l else 0) + held_for i ps.
Proof. done. Qed.

Lemma held_for_middle i s nm l p ps1 ps2 :
  held_for i (ps1 ++ (s, nm, l, p) :: ps2) =
  (if decide (s = i) then l else 0) + held_for i (ps1 ++ ps2).
Proof.
  unfold held_for. rewrite !fmap_app, !sumZ_app, fmap_cons. simpl. lia.
Qed.

Lemma inv_carve_reserve w ps self nm lim payer r w' :
  inv w ps → is_Some (accounts w !! self) → is_Some (accounts w !! payer) → u64 lim →
  carve_reserve self nm lim w = (r, w') →
  match r with Ok _ => inv w' ((self, nm, lim, payer) :: ps) | Err _ => w' = w end.
Proof.
  intros I [a Ha] Hp Hl. unfold carve_reserve.
  destruct (negb (valid_name nm) || _ || _); [by intros [= <- <-]|].
  destruct (negb (utf8_valid nm)); [by intros [= <- <-]|]. rewrite Ha.
  destruct (inv_account _ _ I _ _ Ha) as (O & El & Eu & Er).
  pose proof (ledger_reserve _ _ O Hl) as S.
  destruct (Ledger.reserve (ledger a) lim) as [[[]|e] l] eqn:E; intros [= <- <-]; simpl.
  - destruct S as (_ & O' & Hr & _).
    assert (used l = used (ledger a) ∧ limit l = limit (ledger a)) as [Hu Hli].
    { revert E. unfold Ledger.reserve. case_match; by intros [= <-]. }
    eapply inv_set_ledger; try done.
    + congruence.
    + rewrite held_for_cons, decide_True by done. lia.
    + intros j Hj. rewrite held_for_cons, decide_False by done. lia.
    + apply (inv_charge _ _ I).
    + intros j b c Hb Hc. by apply (inv_record _ _ I j b).
    + intros s nm' l' p. rewrite elem_of_cons. intros [[= -> -> -> ->]|Hin].
      * rewrite Ha. split_and!; [by eauto|done|exact Hl].
      * by apply (inv_pending _ _ I s nm').
    + apply (inv_next _ _ I).
  - destruct S as (_ & -> & _). by rewrite set_ledger_id, put_account_id.
Qed.

Lemma carved_nonneg w ps i :
  inv w ps → 0 ≤ map_sum (carved_from i) (accounts w).
Proof.
  intros I. apply map_sum_nonneg. intros j b Hb. unfold carved_from.
  destruct (decide _); [|lia].
  destruct (inv_account _ _ I _ _ Hb) as ([[]] & <- & _). lia.
Qed.

Lemma held_nonneg w ps i : inv w ps → 0 ≤ held_for i ps.
Proof.
  intros I. apply sumZ_nonneg, Forall_fmap, Forall_forall.
  intros [[[s nm] l] p] Hin. simpl.
  destruct (decide _); [|lia]. by apply (inv_pending _ _ I s nm l p).
Qed.

Lemma inv_carve_give_back w ps1 ps2 self nm lim payer e r w' :
  inv w (ps1 ++ (self, nm, lim, payer) :: ps2) →
  carve_give_back self lim e w = (r, w') → inv w' (ps1 ++ ps2) ∧ r = Err e.
Proof.
  intros I. unfold carve_give_back.
  destruct (inv_pending _ _ I self nm lim payer) as ([a Ha] & _ & Hl); [set_solver|].
  rewrite Ha. destruct (inv_account _ _ I _ _ Ha) as (O & El & Eu & Er).
  pose proof (carved_nonneg w _ self I). pose proof (held_nonneg w _ self I) as H0.
  pose proof (held_for_middle self self nm lim payer ps1 ps2) as Hm.
  rewrite decide_True in Hm by done.
  assert (0 ≤ held_for self (ps1 ++ ps2)).
  { apply sumZ_nonneg, Forall_fmap, Forall_forall. intros [[[s nm'] l'] p] Hin. simpl.
    destruct (decide _); [|lia]. apply (inv_pending _ _ I s nm' l' p). set_solver. }
  pose proof (ledger_unreserve _ lim O (proj1 Hl)) as S.
  destruct (Ledger.unreserve (ledger a) lim) as [[[]|u] l]; [|lia].
  destruct S as (_ & O' & Hr & Hu & Hli). intros [= <- <-]. split; [|done].
  eapply inv_set_ledger; try done.
  - congruence.
  - lia.
  - intros j Hj. rewrite held_for_middle, decide_False by done. lia.
  - apply (inv_charge _ _ I).
  - intros j b c Hb Hc. by apply (inv_record _ _ I j b).
  - intros s nm' l' p Hin. apply (inv_pending _ _ I s nm'). set_solver.
  - apply (inv_next _ _ I).
Qed.

Lemma unreferenced_sums w ps i :
  unreferenced i w ps →
  map_sum (charged_to i) (charges w) = 0 ∧ map_sum (carved_from i) (accounts w) = 0 ∧
  held_for i ps = 0.
Proof.
  intros (Hp & Hc & Hs). split_and!.
  - rewrite <-(map_sum_zero (charges w)). apply map_sum_ext. intros c ch E.
    unfold charged_to. by rewrite decide_False by eauto.
  - rewrite <-(map_sum_zero (accounts w)). apply map_sum_ext. intros j b E.
    unfold carved_from. by rewrite decide_False by eauto.
  - apply sumZ_zero, Forall_fmap, Forall_forall. intros [[[s nm] l] p] Hin. simpl.
    rewrite decide_False; [done|]. by apply (Hs s nm l p).
Qed.

Lemma fresh_unreferenced w ps i :
  inv w ps → accounts w !! i = None → unreferenced i w ps.
Proof.
  intros I Hi. split_and!.
  - intros j b Hb Hp. destruct (inv_parent _ _ I j b _ Hb Hp) as [[? X] _]. congruence.
  - intros c ch Hc <-. destruct (inv_charge _ _ I _ _ Hc) as [[? X] _]. congruence.
  - intros s nm l p Hin. destruct (inv_pending _ _ I s nm l p Hin) as ([] & [] & _).
    split; congruence.
Qed.

(** The child of a carve: its limit moves from the carve in flight to the account. *)
Lemma inv_child_new w ps1 ps2 self nm lim payer rec :
  inv w (ps1 ++ (self, nm, lim, payer) :: ps2) →
  is_Some (charges w !! rec) → unowned rec w →
  inv (child_new self nm lim rec w) (ps1 ++ ps2).
Proof.
  intros I Hrec Hun. destruct (inv_fresh _ _ I) as [Fa _].
  destruct (inv_pending _ _ I self nm lim payer) as ([sa Hs] & _ & Hl); [set_solver|].
  assert (self ≠ next w) as Hself by congruence.
  destruct (unreferenced_sums _ _ _ (fresh_unreferenced _ _ _ I Fa)) as (Z1 & Z2 & Z3).
  rewrite held_for_middle, decide_False in Z3 by done.
  unfold child_new. split; simpl.
  - intros i b Hb. rewrite map_sum_insert by done.
    unfold carved_from at 1. simpl.
    apply lookup_insert_Some in Hb as [[<- <-]|[Hne Hb]]; simpl.
    + split; [by apply new_ok|]. split; [done|]. split; [by rewrite Z1|].
      rewrite decide_False by congruence. lia.
    + destruct (inv_account _ _ I _ _ Hb) as (O & El & Eu & Er).
      rewrite held_for_middle in Er. split_and!; try done.
      rewrite Er. destruct (decide (self = i)), (decide (Some self = Some i)); naive_solver lia.
  - intros c ch Hc. destruct (inv_charge _ _ I _ _ Hc) as [S ?].
    rewrite lookup_insert_is_Some'. by auto.
  - intros i b p Hb Hp. rewrite lookup_insert_is_Some'.
    apply lookup_insert_Some in Hb as [[<- <-]|[Hne Hb]]; simpl in *.
    + injection Hp as <-. split; [right; eauto|done].
    + destruct (inv_parent _ _ I _ _ _ Hb Hp). auto.
  - intros i b c Hb Hc.
    apply lookup_insert_Some in Hb as [[<- <-]|[Hne Hb]]; simpl in *.
    + injection Hc as <-. split; [done|]. intros j d Hd Hdc.
      apply lookup_insert_Some in Hd as [[<- <-]|[_ Hd]]; [done|]. by destruct (Hun j d Hd).
    + destruct (inv_record _ _ I _ _ _ Hb Hc) as [S U]. split; [done|]. intros j d Hd Hdc.
      apply lookup_insert_Some in Hd as [[<- <-]|[_ Hd]]; [|by apply (U j d)].
      simpl in Hdc. injection Hdc as ->. by destruct (Hun i b Hb).
  - intros s nm' l p Hin. destruct (inv_pending _ _ I s nm' l p) as (? & ? & ?); [set_solver|].
    rewrite !lookup_insert_is_Some'. auto.
  - destruct (inv_next _ _ I) as [N1 N2]. split.
    + intros i Hi. apply lookup_insert_is_Some' in Hi as [<-|Hi]; [lia|].
      specialize (N1 i Hi). lia.
    + intros c Hc. specialize (N2 c Hc). lia.
  - rewrite map_sum_insert by done. apply (inv_rooted _ _ I).
  - apply (inv_broken _ _ I).
Qed.

(** An account that ends leaves its limit held in its parent until the parent's ledger
    is taken. *)
Lemma inv_child_delete w ps i a p :
  inv w ps → accounts w !! i = Some a → parent a = Some p → unreferenced i w ps →
  inv (mk_World (delete i (accounts w)) (charges w) (next w) (broken w))
      ((p, [], a_limit a, p) :: ps).
Proof.
  intros I Ha Hp U. pose proof U as (U1 & U2 & U3).
  destruct (inv_parent _ _ I _ _ _ Ha Hp) as [Hpa Hne].
  destruct (inv_account _ _ I _ _ Ha) as (O & El & _ & _).
  split; simpl.
  - intros j b Hb. apply lookup_delete_Some in Hb as [Hj Hb].
    destruct (inv_account _ _ I _ _ Hb) as (? & ? & ? & Er). split_and!; try done.
    rewrite (map_sum_delete _ (accounts w) i a Ha) in Er.
    unfold carved_from in Er at 1. rewrite held_for_cons, Er, Hp.
    destruct (decide (p = j)), (decide (Some p = Some j)); naive_solver lia.
  - intros c ch Hc. destruct (inv_charge _ _ I _ _ Hc) as [S ?]. split; [|done].
    rewrite lookup_delete_ne; [done|]. intros ->. by apply (U2 c ch Hc).
  - intros j b q Hb Hq. apply lookup_delete_Some in Hb as [Hj Hb].
    destruct (inv_parent _ _ I _ _ _ Hb Hq) as [S ?]. split; [|done].
    rewrite lookup_delete_ne; [done|]. intros ->. by apply (U1 j b Hb).
  - intros j b c Hb Hc. apply lookup_delete_Some in Hb as [Hj Hb].
    destruct (inv_record _ _ I _ _ _ Hb Hc) as [S Un]. split; [done|].
    intros k d Hd. apply lookup_delete_Some in Hd as [_ Hd]. by apply Un.
  - intros s nm l q. rewrite elem_of_cons. intros [[= -> -> -> ->]|Hin].
    + rewrite lookup_delete_ne by done. rewrite <-El. by destruct O.
    + destruct (inv_pending _ _ I s nm l q Hin) as (? & ? & ?).
      destruct (U3 s nm l q Hin). by rewrite !lookup_delete_ne by done.
  - destruct (inv_next _ _ I) as [N1 N2]. split; [|done].
    intros j Hj. apply lookup_delete_is_Some in Hj as [_ Hj]. by apply N1.
  - rewrite <-(inv_rooted _ _ I), (map_sum_delete rooted (accounts w) i a Ha).
    unfold rooted at 2. by rewrite Hp.
  - apply (inv_broken _ _ I).
Qed.

Lemma inv_account_drop_body w ps i a :
  inv w ps → accounts w !! i = Some a → parent a ≠ None → unreferenced i w ps →
  inv (account_drop_body i w) ps.
Proof.
  intros I Ha Hpar U. destruct (parent a) as [p|] eqn:Hp; [|done].
  pose proof (inv_child_delete _ _ _ _ _ I Ha Hp U) as I'.
  destruct (inv_parent _ _ I _ _ _ Ha Hp) as [[pa Hpa] Hne].
  destruct (inv_account _ _ I _ _ Ha) as (_ & _ & Eu & _).
  destruct (unreferenced_sums _ _ _ U) as (Z1 & _ & _).
  unfold account_drop_body. rewrite Ha, Hp, Eu, Z1. simpl. rewrite Hpa.
  destruct (carve_give_back p (a_limit a) QuotaExceeded
    (mk_World (delete i (accounts w)) (charges w) (next w) (broken w))) as [r w'] eqn:E.
  destruct (inv_carve_give_back _ [] _ _ _ _ _ _ _ _ I' E) as [I'' ->].
  revert E. unfold carve_give_back. simpl. rewrite lookup_delete_ne, Hpa by done.
  destruct (Ledger.unreserve (ledger pa) (a_limit a)) as [[[]|u] l]; intros [= <-].
  simpl. by rewrite delete_insert_ne by done.
Qed.

Lemma charge_new_record w ps i n rec w1 :
  inv w ps → is_Some (accounts w !! i) → u64 n → charge_new i n w = (Ok rec, w1) →
  is_Some (charges w1 !! rec) ∧ unowned rec w1.
Proof.
  intros I [a Ha] Hn. destruct (inv_fresh _ _ I) as [_ Fc].
  destruct (inv_account _ _ I _ _ Ha) as (O & _). rewrite charge_new_eq.
  destruct (charge_cases i n a w Ha O Hn) as [(l & -> & _)|[-> _]]; intros [= <- <-].
  simpl. rewrite lookup_insert_eq. split; [by eauto|]. intros j b Hb Hr. simpl in *.
  destruct (lookup_set_ledger _ _ _ _ _ _ Ha Hb) as (b0 & Hb0 & _ & E & _).
  rewrite E in Hr. destruct (inv_record _ _ I _ _ _ Hb0 Hr) as [[? X] _]. congruence.
Qed.

Lemma step_inv w ps w' ps' : inv w ps → step (w, ps) (w', ps') → inv w' ps'.
Proof.
  intros I St. inversion St; subst; clear St.
  - by eapply inv_charge_new.
  - by eapply inv_charge_grow.
  - by apply inv_charge_drop.
  - by eapply inv_settle.
  - by eapply (inv_carve_reserve w ps self nm lim payer (Ok tt)).
  - by rewrite (inv_carve_reserve w ps' self nm lim self (Err e) w').
  - match goal with H : carve_record _ _ _ _ _ = _ |- _ => revert H end.
    destruct (inv_pending _ _ I self nm lim payer) as (_ & Hp & _); [set_solver|].
    assert (u64 charge.OBJECT) as Ho by done.
    unfold carve_record. destruct (charge_new payer charge.OBJECT w) as [[rec|e] w1] eqn:E.
    + intros [= <- <-]. destruct (charge_new_record _ _ _ _ _ _ I Hp Ho E).
      by eapply inv_child_new; [eapply inv_charge_new|..].
    + intros G. pose proof (inv_charge_new _ _ _ _ _ _ I Hp Ho E) as I1.
      by destruct (inv_carve_give_back _ _ _ _ _ _ _ _ _ _ I1 G).
  - by eapply inv_carve_give_back.
  - by eapply inv_account_drop_body.
Qed.

Lemma total_used w ps :
  inv w ps →
  map_sum (λ _ a, used (ledger a)) (accounts w) = map_sum (λ _ c, bytes c) (charges w).
Proof.
  intros I.
  rewrite (map_sum_ext _ (λ i _, map_sum (charged_to i) (charges w))),
    (map_sum_exchange (λ i j _ b, charged_to i j b)).
  - apply map_sum_ext. intros c ch Hc. unfold charged_to.
    rewrite (map_sum_ext _ (λ i _, if decide (i = account ch) then bytes ch else 0)).
    + rewrite map_sum_single, decide_True; [done|]. by apply (inv_charge _ _ I c).
    + intros i a _. destruct (decide (account ch = i)), (decide (i = account ch)); congruence.
  - intros i a Ha. by destruct (inv_account _ _ I _ _ Ha) as (_ & _ & -> & _).
Qed.

Lemma total_held w ps0 ps :
  (∀ s nm l p, (s, nm, l, p) ∈ ps → is_Some (accounts w !! s)) → inv w ps0 →
  map_sum (λ i _, held_for i ps) (accounts w) = sumZ ((λ q, q.1.2) <$> ps).
Proof.
  intros H I. induction ps as [|[[[s nm] l] p] ps IH]; [apply map_sum_zero|].
  rewrite (map_sum_ext _ (λ i _, (if decide (i = s) then l else 0) + held_for i ps)).
  - rewrite map_sum_add, map_sum_single, decide_True, IH; [done|set_solver|].
    apply (H s nm l p). by left.
  - intros i a _. rewrite held_for_cons.
    destruct (decide (s = i)), (decide (i = s)); congruence.
Qed.

Lemma total_carved w ps :
  inv w ps →
  map_sum (λ i _, map_sum (carved_from i) (accounts w)) (accounts w) =
  map_sum (λ _ a, a_limit a) (accounts w) - total.
Proof.
  intros I. rewrite (map_sum_exchange (λ i j _ b, carved_from i j b)).
  assert (map_sum (λ j b, map_sum (λ i _, carved_from i j b) (accounts w)) (accounts w) +
    map_sum rooted (accounts w) = map_sum (λ _ a, a_limit a) (accounts w)) as E.
  { rewrite <-map_sum_add. apply map_sum_ext. intros j b Hb. unfold rooted, carved_from.
    destruct (parent b) as [p|] eqn:Hp.
    - rewrite (map_sum_ext _ (λ i _, if decide (i = p) then a_limit b else 0)).
      + rewrite map_sum_single, decide_True, decide_False; [lia|done|].
        by apply (inv_parent _ _ I j b).
      + intros i a _. destruct (decide (i = p)), (decide (Some p = Some i)); congruence.
    - rewrite decide_True by done. rewrite (map_sum_ext _ (λ _ _, 0)), map_sum_zero; [lia|done]. }
  rewrite (inv_rooted _ _ I) in E. lia.
Qed.

(** Every byte charged anywhere, and every limit a carve holds for a child not made yet,
    are within the machine's limit. *)
Lemma inv_total w ps :
  inv w ps →
  map_sum (λ _ c, bytes c) (charges w) + sumZ ((λ q, q.1.2) <$> ps) ≤ total.
Proof.
  intros I. rewrite <-(total_used w ps I).
  rewrite <-(total_held w ps ps (λ s nm l p H, proj1 (inv_pending _ _ I s nm l p H)) I).
  pose proof (total_carved w ps I) as Ec.
  enough (map_sum (λ _ a, used (ledger a)) (accounts w) +
    (map_sum (λ i _, map_sum (carved_from i) (accounts w)) (accounts w) +
     map_sum (λ i _, held_for i ps) (accounts w)) ≤
    map_sum (λ _ a, a_limit a) (accounts w)) by lia.
  rewrite <-!map_sum_add. apply map_sum_mono. intros i a Ha.
  destruct (inv_account _ _ I _ _ Ha) as ([] & E & _ & Er). lia.
Qed.

End invariant.

Lemma machine_inv lim : u64 lim → inv lim (machine lim) [].
Proof.
  intros Hl. split; simpl.
  - intros i a. rewrite lookup_singleton_Some. intros [<- <-]. simpl.
    split; [by apply new_ok|]. split; [done|]. split; [done|].
    rewrite <-insert_empty, map_sum_insert, map_sum_empty by apply lookup_empty. done.
  - intros c ch. by rewrite lookup_empty.
  - intros i a p. rewrite lookup_singleton_Some. by intros [<- <-].
  - intros i a c. rewrite lookup_singleton_Some. by intros [<- <-].
  - intros s nm l p Hin. by apply not_elem_of_nil in Hin.
  - split.
    + intros i [a Hi]. apply lookup_singleton_Some in Hi as [<- _]. lia.
    + intros c [ch Hc]. by rewrite lookup_empty in Hc.
  - rewrite <-insert_empty, map_sum_insert, map_sum_empty by apply lookup_empty.
    unfold rooted. simpl. lia.
  - done.
Qed.

Lemma reachable_inv lim w ps :
  u64 lim → rtc step (machine lim, []) (w, ps) → inv lim w ps.
Proof.
  intros Hl R. remember (machine lim, []) as s eqn:Es. remember (w, ps) as t eqn:Et.
  assert (∀ s t, rtc step s t → inv lim s.1 s.2 → inv lim t.1 t.2) as G.
  { clear. induction 1 as [|[w ps] [w' ps'] z St _ IH]; [done|].
    intros I. apply IH. by eapply step_inv. }
  subst. exact (G _ _ R (machine_inv lim Hl)).
Qed.

(** ** The accounts of the machine *)

(** C31: whatever the interleaving of threads that make, grow, settle and drop charges
    and carve and end accounts, the kernel never finds its accounting broken: no ledger
    is asked to give back more than it holds, and no account ends with bytes charged.  A charge is
    settled to no more than it is, which [VmSteps.space_charge_exact] shows of address spaces. *)
Theorem accounting_never_broken lim w ps :
  u64 lim → rtc step (machine lim, []) (w, ps) → broken w = 0%nat.
Proof. intros Hl R. apply (inv_broken lim w ps), reachable_inv; done. Qed.

(** C30: the machine's memory is never overcommitted: every byte charged to any account
    fits in the machine's limit, and what is charged to an account and the limits of the
    accounts carved from it fit in its own. *)
Theorem no_overcommit lim w ps :
  u64 lim → rtc step (machine lim, []) (w, ps) →
  map_sum (λ _ c, bytes c) (charges w) ≤ lim ∧
  ∀ i a, accounts w !! i = Some a →
    map_sum (charged_to i) (charges w) + map_sum (carved_from i) (accounts w) ≤ a_limit a.
Proof.
  intros Hl R. pose proof (reachable_inv _ _ _ Hl R) as I. split.
  - pose proof (inv_total _ _ _ I). enough (0 ≤ sumZ ((λ q, q.1.2) <$> ps)) by lia.
    apply sumZ_nonneg, Forall_fmap, Forall_forall. intros [[[s nm] l] p] Hin. simpl.
    by apply (inv_pending _ _ _ I s nm l p).
  - intros i a Ha. destruct (inv_account _ _ _ I _ _ Ha) as ([] & <- & <- & Er).
    pose proof (held_nonneg _ _ _ i I). lia.
Qed.

Definition carve_args (nm : list byte) (lim : Z) : Prop :=
  valid_name nm = true ∧ lim ≠ 0 ∧ lim mod PAGE_SIZE = 0 ∧ utf8_valid nm = true.

Lemma carve_reserve_cases self nm lim sa w :
  accounts w !! self = Some sa → Ledger.ok (ledger sa) → u64 lim →
  (∃ l, carve_args nm lim ∧
     carve_reserve self nm lim w = (Ok tt, put_account self (set_ledger sa l) w) ∧
     Ledger.ok l ∧ reserved l = reserved (ledger sa) + lim ∧
     used l = used (ledger sa) ∧ limit l = limit (ledger sa) ∧
     Ledger.unreserve l lim = (Ok tt, ledger sa)) ∨
  (carve_reserve self nm lim w = (Err InvalidArgs, w) ∧ ¬ carve_args nm lim) ∨
  (carve_reserve self nm lim w = (Err QuotaExceeded, w) ∧ carve_args nm lim ∧
   limit (ledger sa) < used (ledger sa) + reserved (ledger sa) + lim).
Proof.
  intros Ha O Hl. unfold carve_reserve, carve_args.
  destruct (valid_name nm); simpl; [|right; left; naive_solver].
  destruct (Z.eqb_spec lim 0); simpl; [right; left; naive_solver|].
  destruct (Z.eqb_spec (lim mod PAGE_SIZE) 0); simpl; [|right; left; naive_solver].
  destruct (utf8_valid nm); simpl; [|right; left; naive_solver]. rewrite Ha.
  pose proof (ledger_reserve _ _ O Hl) as S.
  destruct (Ledger.reserve (ledger sa) lim) as [[[]|x] l] eqn:E; simpl.
  - left. exists l. destruct S as (_ & O' & Hr & Hun). split_and!; try done;
      revert E; unfold Ledger.reserve; case_match; by intros [= <-].
  - right; right. destruct S as (S & -> & _). by rewrite set_ledger_id, put_account_id.
Qed.

Lemma put_account_put i a b w : put_account i a (put_account i b w) = put_account i a w.
Proof. unfold put_account. simpl. by rewrite insert_insert_eq. Qed.

(** Carving refuses a bad name, a zero or ragged limit, a limit the parent has no
    room for and a payer with no room for the child's record, each with the world as it
    was (the parent's held limit and both peaks included); otherwise the child is a new
    account with nothing charged, its limit held in its parent. *)
Theorem carve_spec total w ps self sa nm lim payer :
  inv total w ps → accounts w !! self = Some sa → is_Some (accounts w !! payer) → u64 lim →
  match carve self nm lim payer w with
  | (Ok i, w') =>
      carve_args nm lim ∧ accounts w !! i = None ∧
      ∃ a sa', accounts w' !! i = Some a ∧ name a = nm ∧ parent a = Some self ∧
        a_limit a = lim ∧ Ledger.usage (ledger a) = mk_Usage lim 0 0 0 ∧
        accounts w' !! self = Some sa' ∧
        reserved (ledger sa') = reserved (ledger sa) + lim
  | (Err e, w') =>
      w' = w ∧ ((e = InvalidArgs ∧ ¬ carve_args nm lim) ∨
        (e = QuotaExceeded ∧ carve_args nm lim ∧
         (limit (ledger sa) < used (ledger sa) + reserved (ledger sa) + lim ∨
          ∃ pa, accounts w !! payer = Some pa ∧
            limit (ledger pa) < used (ledger pa) + reserved (ledger pa) +
              (if decide (payer = self) then lim else 0) + charge.OBJECT)))
  end.
Proof.
  intros I Ha [pa Hp] Hl. destruct (inv_fresh _ _ _ I) as [Fa _].
  destruct (inv_account _ _ _ I _ _ Ha) as (O & _).
  destruct (inv_account _ _ _ I _ _ Hp) as (Op & _).
  unfold carve, mbind, M_bind.
  destruct (carve_reserve_cases self nm lim sa w Ha O Hl) as
    [(l & Hargs & -> & O' & Hr & Hu & Hli & Hun)|[[-> Hargs]|(-> & Hargs & Hlt)]];
    [|by split; [|left]|by split; [|right; auto]].
  unfold carve_record. rewrite charge_new_eq.
  set (w1 := put_account self (set_ledger sa l) w).
  assert (∃ pa1, accounts w1 !! payer = Some pa1 ∧ Ledger.ok (ledger pa1) ∧
    limit (ledger pa1) = limit (ledger pa) ∧ used (ledger pa1) = used (ledger pa) ∧
    reserved (ledger pa1) = reserved (ledger pa) + (if decide (payer = self) then lim else 0))
    as (pa1 & Hp1 & Op1 & L1 & U1 & R1).
  { unfold w1, put_account. simpl. destruct (decide (payer = self)) as [->|].
    - exists (set_ledger sa l). rewrite lookup_insert_eq. simpl. by simplify_eq.
    - exists pa. rewrite lookup_insert_ne by done. split_and!; try done. lia. }
  destruct (charge_cases payer charge.OBJECT pa1 w1 Hp1 Op1 ltac:(done)) as
    [(l2 & -> & _ & _ & _ & R2)|[-> Hlt]].
  - assert (accounts w !! S (next w) = None) as Fs.
    { destruct (accounts w !! S (next w)) eqn:E; [|done].
      pose proof (proj1 (inv_next _ _ _ I) (S (next w)) ltac:(eauto)). lia. }
    simpl. split; [done|]. split; [done|].
    eexists _, (if decide (payer = self) then set_ledger pa1 l2 else set_ledger sa l).
    rewrite lookup_insert_eq. split_and!; [done..| |].
    + rewrite lookup_insert_ne by congruence.
      destruct (decide (payer = self)) as [->|]; [by rewrite lookup_insert_eq|].
      by rewrite lookup_insert_ne, lookup_insert_eq by done.
    + destruct (decide (payer = self)) as [->|]; simpl; [|done].
      simplify_eq. lia.
  - unfold carve_give_back. change (accounts w1) with (<[self := set_ledger sa l]> (accounts w)).
    rewrite lookup_insert_eq. simpl. rewrite Hun. split.
    + unfold w1. rewrite put_account_put. apply put_account_id. by destruct sa.
    + right. split_and!; [done..|]. right. exists pa. split; [done|]. lia.
Qed.

(** ** [account_info] *)

Lemma info_bytes a :
  info a =
  le_enc 8 (limit (ledger a)) ++ le_enc 8 (used (ledger a)) ++ le_enc 8 (peak (ledger a)) ++
  le_enc 8 (reserved (ledger a)) ++
  take 32 (name a) ++ repeat x00 (32 - length (take 32 (name a))).
Proof.
  unfold info. change (repeat x00 64) with
    (repeat x00 8 ++ repeat x00 8 ++ repeat x00 8 ++ repeat x00 8 ++ repeat x00 32).
  set (l1 := le_enc 8 (limit (ledger a))). set (l2 := le_enc 8 (used (ledger a))).
  set (l3 := le_enc 8 (peak (ledger a))). set (l4 := le_enc 8 (reserved (ledger a))).
  cbn [u_limit u_used u_peak u_reserved Ledger.usage].
  set (z := repeat x00 8).
  rewrite (write_u64_app [] z (z ++ z ++ z ++ repeat x00 32) _ _ 0) by done. fold l1.
  rewrite (write_u64_app l1 z (z ++ z ++ repeat x00 32) _ _ 8) by done. fold l2.
  rewrite (write_u64_app (l1 ++ l2) z (z ++ repeat x00 32) _ _ 16) by done. fold l3.
  rewrite (write_u64_app (l1 ++ l2 ++ l3) z (repeat x00 32) _ _ 24) by done. fold l4.
  cbn [snd]. assert (take (Z.to_nat (Z.min (zlen (name a)) limits.NAME_MAX)) (name a) =
    take 32 (name a)) as ->.
  { unfold zlen.
    destruct (decide (length (name a) ≤ 32)%nat).
    - rewrite !take_ge by lia. done.
    - f_equal. lia. }
  assert (length (take 32 (name a)) ≤ 32)%nat by (rewrite length_take; lia).
  generalize dependent (take 32 (name a)). intros nm Hnm. unfold put_range.
  rewrite <-!app_assoc, (app_assoc l3), (app_assoc l2), (app_assoc l1).
  change (Z.to_nat 32) with (length (l1 ++ l2 ++ l3 ++ l4)).
  rewrite take_app_length, drop_app_add, <-!app_assoc. do 5 f_equal.
  apply drop_repeat.
Qed.

(** What [account_info] returns reads back as the account's limit, bytes charged,
    peak and held limits, followed by its name and zeros, in 64 bytes. *)
Theorem info_roundtrip a :
  Ledger.ok (ledger a) → zlen (name a) ≤ limits.NAME_MAX →
  zlen (info a) = 64 ∧
  read_u64 (info a) 0 = Some (limit (ledger a)) ∧
  read_u64 (info a) 8 = Some (used (ledger a)) ∧
  read_u64 (info a) 16 = Some (peak (ledger a)) ∧
  read_u64 (info a) 24 = Some (reserved (ledger a)) ∧
  get_range (info a) 32 (32 + zlen (name a)) = Some (name a).
Proof.
  intros [[] ? ? ? ?] Hn. rewrite info_bytes.
  rewrite take_ge by (unfold zlen in *; lia).
  set (l1 := le_enc 8 _). set (l2 := le_enc 8 _). set (l3 := le_enc 8 _).
  set (l4 := le_enc 8 _).
  split_and!.
  - rewrite !zlen_app. unfold zlen in *. rewrite repeat_length.
    unfold l1, l2, l3, l4. rewrite !le_enc_length. lia.
  - by eapply (read_u64_app []).
  - eapply (read_u64_app l1); [done..| |done]; unfold in_width; lia.
  - eapply (read_u64_app (l1 ++ l2)); [by rewrite <-!app_assoc|done| |done]; unfold in_width; lia.
  - eapply (read_u64_app (l1 ++ l2 ++ l3)); [by rewrite <-!app_assoc|done| |done];
      unfold in_width; lia.
  - rewrite (app_assoc l3), (app_assoc l2), (app_assoc l1).
    by apply get_range_app.
Qed.

(** ** Witnesses *)

Definition gib : Z := 2 ^ 30.
Definition apps : list byte := [x61; x70; x70; x73].

(** The machine carves an account, which is charged, and ends. *)
Definition w_carved : World := (carve 0 apps 1048576 0 (machine gib)).2.
Definition w_charged : World := (charge_new 2 4096 w_carved).2.

Lemma unowned_check c w :
  bool_decide (map_Forall (λ _ a, record a ≠ Some c) (accounts w)) = true → unowned c w.
Proof. intros H%bool_decide_eq_true j a Ha. exact (H j a Ha). Qed.

Lemma carved_reachable : rtc step (machine gib, []) (w_carved, []).
Proof.
  eapply rtc_l.
  { eapply (step_carve_reserve _ [] 0 apps 1048576 0 ((carve_reserve 0 apps 1048576 (machine gib)).2));
      [by eexists|by eexists|done|by vm_compute]. }
  eapply rtc_once.
  eapply (step_carve_record _ [] [] 0 apps 1048576 0 2). by vm_compute.
Qed.

Lemma charged_reachable : rtc step (machine gib, []) (w_charged, []).
Proof.
  eapply rtc_r; [apply carved_reachable|].
  eapply (step_charge_new _ _ 2 4096 (Ok 3%nat)); [by eexists|done|by vm_compute].
Qed.

Example accounting_never_broken_witness :
  broken (charge_drop 3 w_charged) = 0%nat.
Proof.
  apply (accounting_never_broken gib _ []); [done|].
  eapply rtc_r; [apply charged_reachable|]. apply step_charge_drop; [by eexists|].
  apply unowned_check. by vm_compute.
Defined.

Example no_overcommit_witness :
  map_sum (λ _ c, bytes c) (charges w_charged) ≤ gib.
Proof. exact (proj1 (no_overcommit gib w_charged [] ltac:(done) charged_reachable)). Defined.

Example carve_spec_witness :
  (carve 2 apps 2097152 0 w_charged).2 = w_charged.
Proof.
  pose proof (carve_spec gib w_charged [] 2
    (mk_Account apps (mk_Ledger 1048576 4096 4096 0) (Some 0%nat) 1048576 (Some 1%nat))
    apps 2097152 0 (reachable_inv gib w_charged [] ltac:(done) charged_reachable)
    ltac:(by vm_compute) ltac:(by eexists) ltac:(done)) as S.
  destruct (carve 2 apps 2097152 0 w_charged) as [[i|e] w'] eqn:E.
  - exfalso. vm_compute in E. congruence.
  - exact (proj1 S).
Defined.

Example info_roundtrip_witness :
  read_u64 (info (mk_Account apps (mk_Ledger 1048576 4096 8192 0) None 1048576 None)) 16
  = Some 8192.
Proof.
  apply (info_roundtrip (mk_Account apps (mk_Ledger 1048576 4096 8192 0) None 1048576 None));
    [by split|done].
Defined.
