(* ===== verification/BTree.v ===== *)
(** * Ordered maps

    [BTreeMap<u64, A>] as the list of its entries in the order of the keys: look-up,
    insertion and removal, and the entries below, from and between bounds, which
    [range(..)] iterates in order and [next_back] takes the last of.  [sorted] is what the
    collection keeps of itself. *)

From S2P Require Import Prelude.
Abbreviation BTreeMap A := (list (Z * A)).

Fixpoint bt_get {A} (m : BTreeMap A) (k : Z) : option A :=
  match m with
  | [] => None
  | (j, a) :: m => if j =? k then Some a else bt_get m k
  end.

Fixpoint bt_insert {A} (k : Z) (v : A) (m : BTreeMap A) : BTreeMap A :=
  match m with
  | [] => [(k, v)]
  | (j, a) :: r =>
      if k <? j then (k, v) :: m
      else if j =? k then (k, v) :: r
      else (j, a) :: bt_insert k v r
  end.

Definition bt_remove {A} (k : Z) (m : BTreeMap A) : BTreeMap A :=
  List.filter (λ e, negb (e.1 =? k)) m.

(** [range(..x)], [range(x..)] and [range(lo..hi)]. *)
Definition bt_below {A} (x : Z) (m : BTreeMap A) : BTreeMap A := List.filter (λ e, e.1 <? x) m.
Definition bt_from {A} (x : Z) (m : BTreeMap A) : BTreeMap A := List.filter (λ e, x <=? e.1) m.
Definition bt_range {A} (lo hi : Z) (m : BTreeMap A) : BTreeMap A :=
  List.filter (λ e, (lo <=? e.1) && (e.1 <? hi)) m.

Definition bt_contains {A} (m : BTreeMap A) (k : Z) : bool :=
  match bt_get m k with Some _ => true | None => false end.

Definition sorted {A} (m : BTreeMap A) : Prop := StronglySorted (λ x y, x.1 < y.1) m.

Section bt.
Context {A : Type}.
Implicit Types (m : BTreeMap A) (k x : Z) (a : A).

Lemma sorted_nil : sorted (@nil (Z * A)).
Proof. constructor. Qed.

Lemma sorted_cons_iff k a m :
  sorted ((k, a) :: m) ↔ sorted m ∧ ∀ j b, (j, b) ∈ m → k < j.
Proof.
  split.
  - intros H. apply StronglySorted_inv in H as [H1 H2]. split; [done|].
    intros j b Hj. rewrite Forall_forall in H2. by apply (H2 (j, b)).
  - intros [H1 H2]. constructor; [done|]. apply Forall_forall. intros [j b] Hj. by apply (H2 j b).
Qed.

Lemma bt_get_elem m k a : bt_get m k = Some a → (k, a) ∈ m.
Proof.
  induction m as [|[j b] m IH]; simpl; [done|]. destruct (Z.eqb_spec j k) as [->|].
  - intros [= ->]. by left.
  - intros H. right. auto.
Qed.

Lemma elem_of_bt m k a : sorted m → (k, a) ∈ m ↔ bt_get m k = Some a.
Proof.
  intros Hs. split; [|apply bt_get_elem].
  induction m as [|[j b] m IH]; [by rewrite elem_of_nil|].
  apply sorted_cons_iff in Hs as [Hs Hlt]. rewrite elem_of_cons. simpl. intros [[= -> ->]|Hin].
  - by rewrite Z.eqb_refl.
  - specialize (Hlt _ _ Hin). destruct (Z.eqb_spec j k); [lia|auto].
Qed.

Lemma bt_get_insert m k a j : bt_get (bt_insert k a m) j = if k =? j then Some a else bt_get m j.
Proof.
  induction m as [|[i b] m IH]; simpl; [done|].
  destruct (Z.ltb_spec k i); simpl; [done|]. destruct (Z.eqb_spec i k) as [->|]; simpl.
  - by destruct (Z.eqb_spec k j).
  - rewrite IH. destruct (Z.eqb_spec i j), (Z.eqb_spec k j); try done. lia.
Qed.

Lemma bt_get_remove m k j : bt_get (bt_remove k m) j = if k =? j then None else bt_get m j.
Proof.
  induction m as [|[i b] m IH]; simpl; [by destruct (k =? j)|].
  destruct (Z.eqb_spec i k) as [->|]; simpl; rewrite IH.
  - by destruct (Z.eqb_spec k j).
  - destruct (Z.eqb_spec i j), (Z.eqb_spec k j); try done. lia.
Qed.

Lemma bt_get_filter m (f : Z * A → bool) k :
  sorted m →
  bt_get (List.filter f m) k = bt_get m k ≫= λ a, if f (k, a) then Some a else None.
Proof.
  intros Hs. induction m as [|[j b] m IH]; simpl; [done|].
  apply sorted_cons_iff in Hs as [Hs Hlt].
  destruct (f (j, b)) eqn:E; simpl.
  - destruct (Z.eqb_spec j k) as [->|]; [simpl; by rewrite E|auto].
  - destruct (Z.eqb_spec j k) as [->|]; [|auto]. simpl. rewrite E, IH by done.
    destruct (bt_get m k) as [c|] eqn:G; [|done]. apply bt_get_elem, Hlt in G. lia.
Qed.

Lemma sorted_filter m (f : Z * A → bool) : sorted m → sorted (List.filter f m).
Proof.
  induction m as [|[j b] m IH]; simpl; [done|]. rewrite sorted_cons_iff. intros [Hs Hlt].
  destruct (f (j, b)); [|auto]. apply sorted_cons_iff. split; [auto|].
  intros i c Hi. apply list_elem_of_In, filter_In in Hi as [Hi _].
  eapply Hlt. by apply list_elem_of_In.
Qed.

Lemma sorted_remove m k : sorted m → sorted (bt_remove k m).
Proof. apply sorted_filter. Qed.

Lemma elem_of_bt_insert m k a j b : (j, b) ∈ bt_insert k a m → (j, b) = (k, a) ∨ (j, b) ∈ m.
Proof.
  induction m as [|[i c] m IH]; simpl.
  - rewrite list_elem_of_singleton. by left.
  - destruct (Z.ltb_spec k i).
    + rewrite elem_of_cons. intros [?|?]; [by left|by right].
    + destruct (Z.eqb_spec i k) as [->|]; rewrite !elem_of_cons; [tauto|].
      intros [?|?%IH]; tauto.
Qed.

Lemma sorted_insert m k a : sorted m → sorted (bt_insert k a m).
Proof.
  induction m as [|[i c] m IH]; simpl.
  - intros _. apply sorted_cons_iff. split; [constructor|]. intros ? ? []%elem_of_nil.
  - intros Hs. pose proof Hs as [Hs' Hlt]%sorted_cons_iff. destruct (Z.ltb_spec k i).
    + apply sorted_cons_iff. split; [done|]. intros j b. rewrite elem_of_cons.
      intros [[= -> ->]|Hj]; [done|]. specialize (Hlt _ _ Hj). lia.
    + destruct (Z.eqb_spec i k) as [->|]; apply sorted_cons_iff; split; auto.
      intros j b [[= -> ->]|Hj]%elem_of_bt_insert; [lia|eauto].
Qed.

Lemma length_bt_insert m k a : bt_get m k = None → length (bt_insert k a m) = S (length m).
Proof.
  induction m as [|[i c] m IH]; simpl; [done|].
  destruct (Z.eqb_spec i k) as [->|]; [done|]. intros H.
  destruct (Z.ltb_spec k i); simpl; [done|]. by rewrite IH.
Qed.

Lemma bt_insert_replace m k a b :
  bt_get m k = Some b → sorted m → length (bt_insert k a m) = length m.
Proof.
  intros H Hs. induction m as [|[i c] m IH]; simpl in *; [done|].
  apply sorted_cons_iff in Hs as [Hs Hlt].
  destruct (Z.eqb_spec i k) as [->|].
  - destruct (Z.ltb_spec k k); [lia|done].
  - pose proof (Hlt _ _ (bt_get_elem _ _ _ H)). destruct (Z.ltb_spec k i); [lia|].
    simpl. by rewrite IH.
Qed.

Lemma bt_remove_absent m k : bt_get m k = None → bt_remove k m = m.
Proof.
  induction m as [|[i c] m IH]; simpl; [done|].
  destruct (Z.eqb_spec i k) as [->|]; simpl; [done|]. intros H. by rewrite IH.
Qed.

Lemma length_bt_remove m k a :
  sorted m → bt_get m k = Some a → length m = S (length (bt_remove k m)).
Proof.
  induction m as [|[i c] m IH]; simpl; [done|]. rewrite sorted_cons_iff. intros [Hs Hlt].
  destruct (Z.eqb_spec i k) as [->|]; simpl.
  - intros _. rewrite bt_remove_absent; [done|].
    destruct (bt_get m k) eqn:G; [|done]. apply bt_get_elem, Hlt in G. lia.
  - intros H. by rewrite <- IH.
Qed.

Lemma sorted_ext m1 m2 :
  sorted m1 → sorted m2 → (∀ k, bt_get m1 k = bt_get m2 k) → m1 = m2.
Proof.
  revert m2. induction m1 as [|[i a] m1 IH]; intros [|[j b] m2] H1 H2 H; [done| | |].
  - specialize (H j). simpl in H. by rewrite Z.eqb_refl in H.
  - specialize (H i). simpl in H. by rewrite Z.eqb_refl in H.
  - apply sorted_cons_iff in H1 as [H1 L1], H2 as [H2 L2].
    assert (i = j) as <-.
    { pose proof (H i) as Hi. pose proof (H j) as Hj. simpl in Hi, Hj.
      rewrite Z.eqb_refl in Hi, Hj.
      destruct (Z.eqb_spec j i) as [|Hn]; [done|]. destruct (Z.eqb_spec i j); [lia|].
      symmetry in Hi. apply bt_get_elem, L2 in Hi. apply bt_get_elem, L1 in Hj. lia. }
    pose proof (H i) as Hi. simpl in Hi. rewrite Z.eqb_refl in Hi. injection Hi as ->.
    f_equal. apply IH; [done..|]. intros k. specialize (H k). simpl in H.
    destruct (Z.eqb_spec i k) as [E|]; [|done].
    destruct (bt_get m1 k) eqn:G1; [apply bt_get_elem, L1 in G1; lia|].
    destruct (bt_get m2 k) eqn:G2; [apply bt_get_elem, L2 in G2; lia|done].
Qed.

Lemma last_elem (l : BTreeMap A) e : last l = Some e → e ∈ l.
Proof. intros (l' & ->)%last_Some. apply elem_of_app. right. by left. Qed.

Lemma sorted_last m k a : sorted m → last m = Some (k, a) → ∀ j b, (j, b) ∈ m → j ≤ k.
Proof.
  intros Hs (m' & ->)%last_Some j b. rewrite elem_of_app, list_elem_of_singleton.
  intros [Hj|[= -> ->]]; [|lia].
  induction m' as [|[i c] m' IH]; [by apply elem_of_nil in Hj|].
  simpl in Hs. apply sorted_cons_iff in Hs as [Hs Hlt]. apply elem_of_cons in Hj as [[= -> ->]|Hj].
  - assert (i < k); [|lia]. eapply (Hlt k a). apply elem_of_app. right. by left.
  - auto.
Qed.

(** The last entry below a bound. *)
Lemma last_below m x k a :
  sorted m → last (bt_below x m) = Some (k, a) →
  bt_get m k = Some a ∧ k < x ∧ ∀ j b, bt_get m j = Some b → j < x → j ≤ k.
Proof.
  intros Hs H. pose proof (sorted_filter m (λ e, e.1 <? x) Hs) as Hf.
  pose proof (last_elem _ _ H) as Hin. apply elem_of_bt in Hin; [|done].
  unfold bt_below in Hin. rewrite bt_get_filter in Hin by done.
  destruct (bt_get m k) as [c|] eqn:G; [|done]. simpl in Hin.
  destruct (Z.ltb_spec k x); [|done]. injection Hin as ->. split; [done|]. split; [done|].
  intros j b Gj Hj. eapply (sorted_last _ _ _ Hf H j b). apply elem_of_bt; [done|].
  rewrite bt_get_filter, Gj by done. simpl. by destruct (Z.ltb_spec j x); [|lia].
Qed.

Lemma last_below_None m x :
  sorted m → last (bt_below x m) = None → ∀ j b, bt_get m j = Some b → x ≤ j.
Proof.
  intros Hs H%last_None j b G. destruct (Z.ltb_spec j x); [|lia].
  assert (bt_get (bt_below x m) j = Some b) as Hj; [|by rewrite H in Hj].
  unfold bt_below. rewrite bt_get_filter, G by done. simpl. by destruct (Z.ltb_spec j x); [|lia].
Qed.

(** The first entry from a bound. *)
Lemma head_from m x k a :
  sorted m → head (bt_from x m) = Some (k, a) →
  bt_get m k = Some a ∧ x ≤ k ∧ ∀ j b, bt_get m j = Some b → x ≤ j → k ≤ j.
Proof.
  intros Hs H. pose proof (sorted_filter m (λ e, x <=? e.1) Hs) as Hf.
  assert (Hget : ∀ j b, bt_get (bt_from x m) j = Some b ↔ bt_get m j = Some b ∧ x ≤ j).
  { intros j b. unfold bt_from. rewrite bt_get_filter by done.
    destruct (bt_get m j) as [c|]; simpl; [|naive_solver].
    destruct (Z.leb_spec x j); naive_solver lia. }
  unfold bt_from in *. destruct (List.filter _ m) as [|[i c] r]; [done|]. injection H as -> ->.
  destruct (proj1 (Hget k a)) as [G Hk]; [simpl; by rewrite Z.eqb_refl|].
  split; [done|]. split; [done|]. intros j b Gj Hj.
  apply sorted_cons_iff in Hf as [_ Hlt].
  pose proof (proj2 (Hget j b) (conj Gj Hj)) as Hb. simpl in Hb.
  destruct (Z.eqb_spec k j); [lia|]. apply bt_get_elem, Hlt in Hb. lia.
Qed.

Lemma head_from_None m x :
  sorted m → head (bt_from x m) = None → ∀ j b, bt_get m j = Some b → j < x.
Proof.
  intros Hs H%head_None j b G. destruct (Z.leb_spec x j); [|lia].
  assert (bt_get (bt_from x m) j = Some b) as Hj; [|by rewrite H in Hj].
  unfold bt_from. rewrite bt_get_filter, G by done. simpl. by destruct (Z.leb_spec x j); [|lia].
Qed.

(** Keys in a range bound the number of entries. *)
Lemma sorted_NoDup m : sorted m → NoDup m.*1.
Proof.
  induction m as [|[k a] m IH]; [constructor|]. rewrite sorted_cons_iff. intros [Hs Hlt].
  simpl. constructor; [|auto]. intros ((j & b) & E & Hin)%list_elem_of_fmap. simpl in E. subst.
  specialize (Hlt _ _ Hin). lia.
Qed.

End bt.

Lemma NoDup_Z_length (l : list Z) n :
  NoDup l → (∀ x, x ∈ l → 0 ≤ x < n) → zlen l ≤ Z.max 0 n.
Proof.
  intros Hd Hb. unfold zlen. rewrite <- (size_list_to_set (C := gset Z) l) by done.
  assert ((list_to_set l : gset Z) ⊆ list_to_set (seqZ 0 n)) as Hsub.
  { intros x. rewrite !elem_of_list_to_set, elem_of_seqZ. intros Hx. specialize (Hb x Hx). lia. }
  apply subseteq_size in Hsub. rewrite (size_list_to_set (seqZ 0 n)) in Hsub by apply NoDup_seqZ.
  rewrite length_seqZ in Hsub. lia.
Qed.

#[export] Hint Resolve sorted_nil sorted_insert sorted_remove sorted_filter : moruna.
