(* ===== verification/Vm.v ===== *)
(** * Address spaces

    [src/kernel/core/src/vm.rs]: a process's areas, the page table they fill, its zero
    pages, its program break and what it is charged for.  The hardware layer (OSTD), which
    is not part of the sources, is the class [Ostd]: physical frames and their bytes, and
    page tables whose entries are set and cleared through cursors.  A space's lock is the
    atomicity of the definitions below: each is what the code does between taking and
    releasing it, or a composition of such parts.  The account a space is charged to, and
    the bytes charged, are an entry of the charges of [Account]. *)

From S2P Require Import Prelude Abi Quota Account BTree.
(** ** The hardware layer *)

(** What a page-table entry maps: a frame, or a page of device memory, with its flags. *)
Inductive Item (UFrame IoMem : Type) :=
| Ram (f : UFrame) (flags : Z)
| Mmio (io : IoMem) (flags offset : Z).
Arguments Ram {_ _} _ _.
Arguments Mmio {_ _} _ _ _.

Class Ostd := {
  Hw : Type;
  VmSpace : Type;
  UFrame : Type;
  IoMem : Type;
  MAX_USERSPACE_VADDR : Z;
  (** A zeroed frame. *)
  alloc_frame : Hw → option (UFrame * Hw);
  read_bytes : Hw → UFrame → Z → Z → option (list byte);
  write_bytes : Hw → UFrame → Z → list byte → option Hw;
  vm_new : VmSpace;
  (** Whether a cursor over a range is given, and whether it can jump to an address. *)
  cursor_mut : VmSpace → Z → Z → bool;
  cursor_jump : Z → Z → Z → bool;
  cursor_query : VmSpace → Z → option (Item UFrame IoMem);
  cursor_map : VmSpace → Z → UFrame → Z → VmSpace;
  cursor_map_iomem : VmSpace → Z → IoMem → Z → Z → Z → VmSpace;
  cursor_unmap : VmSpace → Z → Z → VmSpace;
}.

Module PageFlags.
Definition R : Z := 1.
Definition W : Z := 2.
Definition X : Z := 4.
End PageFlags.

(** ** Constants and small functions *)

Definition MAP_BASE : Z := IMAGE_END.

(** The bits of an address above the page. *)
Definition page_mask : Z := wnot 64 (PAGE_SIZE - 1).

Definition map_end `{Ostd} : Z := Z.land MAX_USERSPACE_VADDR page_mask.

Definition is_user `{Ostd} (addr : Z) : bool := (IMAGE_START <=? addr) && (addr <=? map_end).

Definition pages (len : Z) : result Error Z :=
  ok_or ((λ v, Z.land v page_mask) <$> checked_add 64 len (PAGE_SIZE - 1)) OutOfRange.

Inductive Kind := Image | Stack | StartPage | Mapping | Plane.

#[export] Instance Kind_eq_dec : EqDecision Kind.
Proof. solve_decision. Defined.

Inductive Access := Read | Write | Execute.

(** What OSTD documents: a cursor over whole pages of user space is given and moves to any
    page of its range; mapping sets the entries of the pages mapped and no other, and
    unmapping clears the entries of its range and no other. *)
Class OstdLaws `{!Ostd} : Prop := {
  user_top : MAP_BASE + 2 * PAGE_SIZE ≤ MAX_USERSPACE_VADDR ≤ 2 ^ 47;
  cursor_mut_ok v lo hi :
    lo mod PAGE_SIZE = 0 → hi mod PAGE_SIZE = 0 → 0 ≤ lo < hi → hi ≤ map_end →
    cursor_mut v lo hi = true;
  cursor_jump_ok lo hi p :
    lo ≤ p < hi → p mod PAGE_SIZE = 0 → cursor_jump lo hi p = true;
  query_new p : cursor_query vm_new p = None;
  query_map v a f fl p :
    cursor_query (cursor_map v a f fl) p = if p =? a then Some (Ram f fl) else cursor_query v p;
  query_map_iomem v a d fl len off p :
    p mod PAGE_SIZE = 0 →
    cursor_query (cursor_map_iomem v a d fl len off) p =
    if (a <=? p) && (p <? a + len) then Some (Mmio d fl (off + (p - a))) else cursor_query v p;
  query_unmap v a len p :
    cursor_query (cursor_unmap v a len) p =
    if (a <=? p) && (p <? a + len) then None else cursor_query v p;
}.

(** ** Memory objects and device memory, as a space sees them *)

(** An [Arc<MemoryObject>]: which object it is, and its frames. *)
Record MemoryObject `{Ostd} := mk_MemoryObject { mo_id : nat; frames : list UFrame }.

(** An [Arc<DeviceMemory>]. *)
Record DeviceMemory `{Ostd} := mk_DeviceMemory { dm_id : nat; io : IoMem }.

Inductive Backing `{Ostd} :=
| Object (memory : MemoryObject) (first : Z) (writable : bool)
| Zero
| Device (device : DeviceMemory) (offset : Z) (writable : bool).

Definition writable `{Ostd} (b : Backing) : bool :=
  match b with Object _ _ w | Device _ _ w => w | Zero => true end.

Definition advanced `{Ostd} (b : Backing) (skip : Z) : Backing :=
  match b with
  | Object m first w => Object m (first +! skip) w
  | Zero => Zero
  | Device d offset w => Device d (offset +! skip *! PAGE_SIZE) w
  end.

Record Area `{Ostd} := mk_Area { a_end : Z; kind : Kind; prot : Z; backing : Backing }.

Definition allows (prot : Z) (access : Access) : bool :=
  match access with
  | Read => negb (Z.land prot map.PROTECTION =? 0)
  | Write => negb (Z.land prot map.WRITE =? 0)
  | Execute => negb (Z.land prot map.EXECUTE =? 0)
  end.

Definition page_flags (prot : Z) : Z :=
  let f := PageFlags.R in
  let f := if negb (Z.land prot map.WRITE =? 0) then Z.lor f PageFlags.W else f in
  if negb (Z.land prot map.EXECUTE =? 0) then Z.lor f PageFlags.X else f.

Record Brk := mk_Brk { b_start : Z; b_current : Z }.

(** A space: its page table, what its lock guards, the entry of its account and bytes
    among the charges, the charge of its fixed tables, and the bytes copied. *)
Record Space `{Ostd} := mk_Space {
  vm : VmSpace;
  areas : BTreeMap Area;
  zero : BTreeMap UFrame;
  brk_ : option Brk;
  tables_ : Z;
  charged : id;
  fixed_charge : id;
  copied : Z;
}.

(** The state a call on a space runs in. *)
Record Machine `{Ostd} := mk_Machine { world : World; hw : Hw; space : Space }.

Arguments mk_MemoryObject {_} _ _.
Arguments mk_DeviceMemory {_} _ _.
Arguments Object {_} _ _ _.
Arguments Zero {_}.
Arguments Device {_} _ _ _.
Arguments mk_Area {_} _ _ _ _.
Arguments mk_Space {_} _ _ _ _ _ _ _ _.
Arguments mk_Machine {_} _ _ _.

Section space.
Context `{!Ostd}.

Abbreviation K := (M Machine Error).

Definition set_world (w : World) (s : Machine) : Machine := mk_Machine w (hw s) (space s).
Definition set_hw (h : Hw) (s : Machine) : Machine := mk_Machine (world s) h (space s).
Definition set_space (x : Space) (s : Machine) : Machine := mk_Machine (world s) (hw s) x.

Definition set_vm (v : VmSpace) (x : Space) : Space :=
  mk_Space v (areas x) (zero x) (brk_ x) (tables_ x) (charged x) (fixed_charge x) (copied x).
Definition set_areas (l : BTreeMap Area) (x : Space) : Space :=
  mk_Space (vm x) l (zero x) (brk_ x) (tables_ x) (charged x) (fixed_charge x) (copied x).
Definition set_zero (l : BTreeMap UFrame) (x : Space) : Space :=
  mk_Space (vm x) (areas x) l (brk_ x) (tables_ x) (charged x) (fixed_charge x) (copied x).
Definition set_brk_ (b : option Brk) (x : Space) : Space :=
  mk_Space (vm x) (areas x) (zero x) b (tables_ x) (charged x) (fixed_charge x) (copied x).
Definition set_tables (n : Z) (x : Space) : Space :=
  mk_Space (vm x) (areas x) (zero x) (brk_ x) n (charged x) (fixed_charge x) (copied x).
Definition set_copied (n : Z) (x : Space) : Space :=
  mk_Space (vm x) (areas x) (zero x) (brk_ x) (tables_ x) (charged x) (fixed_charge x) n.

(** A change of the space. *)
Definition on_space (f : Space → Space) : K unit := modify (λ s, set_space (f (space s)) s).

(** ** Accounting *)

Definition cost (x : Space) : Z :=
  zlen (areas x) *! charge.AREA +! zlen (zero x) *! charge.ZERO_PAGE +! tables_ x *! charge.PAGE.

(** [Space::charge]: the account and the bytes the space counts. *)
Definition charge_more (n : Z) : K unit := λ s,
  let '(r, w) := charge_grow (charged (space s)) n (world s) in (r, set_world w s).

Definition settle_space (s : Machine) : Machine :=
  set_world (Account.settle (charged (space s)) (cost (space s)) (world s)) s.

(** [Space::new]: the charge of the fixed tables, and an entry of no bytes. *)
Definition space_new (account : id) (w : World) : result Error Space * World :=
  match charge_new account charge.SPACE w with
  | (Err e, w) => (Err e, w)
  | (Ok f, w) =>
      match charge_new account 0 w with
      | (Err e, w) => (Err e, w)
      | (Ok c, w) => (Ok (mk_Space vm_new [] [] None 0 c f 0), w)
      end
  end.

(** ** Areas *)

Definition neighbours (l : BTreeMap Area) (start end_ : Z) : option Z * option Z :=
  ((λ e, a_end e.2) <$> last (bt_below start l), fst <$> head (bt_from end_ l)).

(** [range(..=addr).next_back()], the area that holds [addr]. *)
Definition area_at (l : BTreeMap Area) (addr : Z) : option (Z * Area) :=
  option_filter (λ e, addr <? a_end e.2) (last (bt_below (addr + 1) l)).

(** The areas that touch [va .. end], from the last: the iteration of [touches_plane] and
    of [unmap]'s check. *)
Fixpoint touching (va : Z) (l : BTreeMap Area) : BTreeMap Area :=
  match l with
  | [] => []
  | e :: l => if va <? a_end e.2 then e :: touching va l else []
  end.

Definition touched_by (l : BTreeMap Area) (va end_ : Z) : BTreeMap Area :=
  touching va (rev (bt_below end_ l)).

Definition touches_plane (l : BTreeMap Area) (va end_ : Z) : bool :=
  existsb (λ e, bool_decide (kind e.2 = Plane)) (touched_by l va end_).

Definition split (at_ : Z) (l : BTreeMap Area) : BTreeMap Area :=
  match option_filter (λ e, at_ <? a_end e.2) (last (bt_below at_ l)) with
  | None => l
  | Some (start, a) =>
      let skip := (at_ -! start) / PAGE_SIZE in
      let tail := mk_Area (a_end a) (kind a) (prot a) (advanced (backing a) skip) in
      let l := match bt_get l start with
               | Some h => bt_insert start (mk_Area at_ (kind h) (prot h) (backing h)) l
               | None => l
               end in
      bt_insert at_ tail l
  end.

Definition splits_at (l : BTreeMap Area) (at_ : Z) : bool :=
  match area_at l at_ with
  | Some (start, a) => split_needed start (a_end a) at_
  | None => false
  end.

Definition split_bytes (l : BTreeMap Area) (va end_ : Z) : Z :=
  zlen (List.filter (splits_at l) [va; end_]) *! charge.AREA.

Definition overlaps (l : BTreeMap Area) (va end_ : Z) : bool :=
  match last (bt_below end_ l) with Some (_, a) => va <? a_end a | None => false end.

(** The loop of [find_free], which stops at the first gap that fits. *)
Fixpoint first_fit (len candidate : Z) (l : BTreeMap Area) : Z :=
  match l with
  | [] => candidate
  | (start, a) :: l =>
      if match checked_add 64 candidate len ≫= λ e, checked_add 64 e PAGE_SIZE with
         | Some e => e <=? start
         | None => false
         end
      then candidate
      else first_fit len (Z.max candidate (a_end a +! PAGE_SIZE)) l
  end.

Definition find_free (l : BTreeMap Area) (len : Z) : result Error Z :=
  let candidate := first_fit len (MAP_BASE + PAGE_SIZE) (bt_from MAP_BASE l) in
  match checked_add 64 candidate len with
  | None => Err Limit
  | Some e => if map_end <? e then Err Limit else Ok candidate
  end.

Definition check_range (va len : Z) : result Error Z :=
  if (len =? 0) || negb (is_multiple_of va PAGE_SIZE) || negb (is_multiple_of len PAGE_SIZE)
  then Err InvalidArgs
  else match checked_add 64 va len with
  | None => Err OutOfRange
  | Some e => if (va <? IMAGE_START) || (map_end <? e) then Err OutOfRange else Ok e
  end.

Definition check_prot (p : Z) (b : Backing) : result Error unit :=
  if negb (Z.land p (wnot 64 map.PROTECTION) =? 0) then Err InvalidArgs
  else if negb (Z.land p map.WRITE =? 0) && negb (Z.land p map.EXECUTE =? 0) then Err InvalidArgs
  else if negb (Z.land p map.WRITE =? 0) && negb (writable b) then Err AccessDenied
  else Ok tt.

(** ** The page table *)

Definition unmap_ptes (va len : Z) (v : VmSpace) : VmSpace :=
  if len =? 0 then v
  else if cursor_mut v va (va +! len) then cursor_unmap v va len else v.

(** [for frame in frames { cursor.map(frame, property) }]: the cursor moves a page on. *)
Fixpoint map_frames (va flags : Z) (fs : list UFrame) (v : VmSpace) : VmSpace :=
  match fs with
  | [] => v
  | f :: fs => map_frames (va + PAGE_SIZE) flags fs (cursor_map v va f flags)
  end.

(** The zero pages of a range, each jumped to. *)
Fixpoint map_zero (lo hi flags : Z) (zs : BTreeMap UFrame) (v : VmSpace) :
    result Error unit * VmSpace :=
  match zs with
  | [] => (Ok tt, v)
  | (page, f) :: zs =>
      if cursor_jump lo hi page then map_zero lo hi flags zs (cursor_map v page f flags)
      else (Err InvalidArgs, v)
  end.

Definition fill_ptes (zs : BTreeMap UFrame) (start : Z) (a : Area) (va end_ : Z) (v : VmSpace) :
    result Error unit * VmSpace :=
  if (Z.land (prot a) map.PROTECTION =? 0) || (end_ <=? va) then (Ok tt, v)
  else if negb (cursor_mut v va end_) then (Err InvalidArgs, v)
  else
    let flags := page_flags (prot a) in
    match backing a with
    | Object m first _ =>
        let skip := (va -! start) / PAGE_SIZE in
        let count := (end_ -! va) / PAGE_SIZE in
        match get_range (frames m) (first +! skip) (first +! skip +! count) with
        | None => (Err OutOfRange, v)
        | Some fs => (Ok tt, map_frames va flags fs v)
        end
    | Zero => map_zero va end_ flags (bt_range va end_ zs) v
    | Device d offset _ =>
        (Ok tt, cursor_map_iomem v va (io d) flags (end_ -! va) (offset +! (va -! start)))
    end.

(** [Space::reclaim]: the largest regions first, skipping what is inside the last. *)
Fixpoint reclaim_ranges (done : option (Z * Z)) (rs : list (option (Z * Z))) (v : VmSpace) :
    VmSpace :=
  match rs with
  | [] => v
  | None :: rs => reclaim_ranges done rs v
  | Some (lo, hi) :: rs =>
      if match done with Some (dlo, dhi) => (dlo <=? lo) && (hi <=? dhi) | None => false end
      then reclaim_ranges done rs v
      else reclaim_ranges (Some (lo, hi)) rs (unmap_ptes lo (hi -! lo) v)
  end.

Definition reclaim_tables (t : Tables) (v : VmSpace) : VmSpace :=
  reclaim_ranges None (rev (reclaim t)) v.

(** The end of an unmap, under the lock: the entries, then the tables. *)
Definition drop_entries (va end_ : Z) (freed : Tables) (x : Space) : Space :=
  set_vm (reclaim_tables freed (unmap_ptes va (end_ -! va) (vm x))) x.

(** The tables freed by removing [pieces] between [va] and [end], and the charge settled. *)
Definition free_tables (pieces : list (Z * Z)) (va end_ : Z) (s : Machine) : Tables * Machine :=
  let '(before, after) := neighbours (areas (space s)) va end_ in
  let freed := tables pieces before after map_end in
  (freed, settle_space (set_space (set_tables (tables_ (space s) -! Quota.pages freed)
                                     (space s)) s)).

(** ** Unmapping *)

(** The program break after [va .. end] is unmapped. *)
Definition brk_after (va end_ : Z) (b : Brk) : Brk :=
  if (va <? b_current b) && (b_start b <? end_)
  then mk_Brk (b_start b) (Z.max (Z.min (b_current b) va) (b_start b))
  else b.

Definition range_of (e : Z * Area) : Z * Z := (e.1, a_end e.2).

(** The areas and the zero pages of the range leave, and the tables only they touched. *)
Definition remove_range (va end_ : Z) (s : Machine) : Machine :=
  let x := space s in
  let l := split end_ (split va (areas x)) in
  let pieces := range_of <$> bt_range va end_ l in
  let kept := List.filter (λ e, negb ((va <=? e.1) && (e.1 <? end_))) l in
  let zs := List.filter (λ e, negb ((va <=? e.1) && (e.1 <? end_))) (zero x) in
  let x := set_brk_ (brk_after va end_ <$> brk_ x) (set_zero zs (set_areas kept x)) in
  let '(freed, s) := free_tables pieces va end_ (set_space x s) in
  set_space (drop_entries va end_ freed (space s)) s.

Definition unmap (va len : Z) (only : option Kind) : K unit :=
  end_ ← lift (check_range va len);
  l ← gets (λ s, areas (space s));
  if match only with
     | Some k => existsb (λ e, negb (bool_decide (kind e.2 = k))) (touched_by l va end_)
     | None => false
     end
  then fail InvalidArgs
  else if touches_plane l va end_ then fail InvalidArgs
  else
    _ ← charge_more (split_bytes l va end_);
    modify (remove_range va end_).

Definition unmap_plane (va len : Z) (m : MemoryObject) : K unit :=
  end_ ← lift (check_range va len);
  l ← gets (λ s, areas (space s));
  if negb match bt_get l va with
          | Some a => bool_decide (kind a = Plane) && (a_end a =? end_) &&
              match backing a with
              | Object m' _ _ => bool_decide (mo_id m' = mo_id m)
              | _ => false
              end
          | None => false
          end
  then fail BadState
  else
    _ ← on_space (set_areas (bt_remove va l));
    freed ← act (free_tables [(va, end_)] va end_);
    on_space (drop_entries va end_ freed).

(** ** Mapping *)

(** The entries of a new area, and the area; or what was charged for it given back. *)
Definition map_fill (va : Z) (area : Area) (added : Tables) : K Z := λ s,
  let x := space s in
  let '(r, v) := fill_ptes (zero x) va area va (a_end area) (vm x) in
  let s := set_space (set_vm v x) s in
  match r with
  | Err e =>
      (Err e, settle_space (set_space (set_tables (tables_ (space s) -! Quota.pages added)
                                          (space s)) s))
  | Ok _ => (Ok va, set_space (set_areas (bt_insert va area (areas (space s))) (space s)) s)
  end.

(** The part of [map] from the choice of the address on. *)
Definition map_at (va len : Z) (k : Kind) (p : Z) (b : Backing) : K Z :=
  x ← gets space;
  let end_ := va +! len in
  let area := mk_Area end_ k p b in
  let '(before, after) := neighbours (areas x) va end_ in
  let added := tables [(va, end_)] before after map_end in
  _ ← charge_more (charge.AREA +! Tables_bytes added);
  _ ← on_space (λ x, set_tables (tables_ x +! Quota.pages added) x);
  map_fill va area added.

Definition map_ (at_ : option Z) (len : Z) (k : Kind) (p : Z) (b : Backing) (fixed : bool) : K Z :=
  _ ← lift (check_prot p b);
  len ← lift (pages len);
  if len =? 0 then fail InvalidArgs
  else
    va ← match at_ with
         | Some va =>
             end_ ← lift (check_range va len);
             l ← gets (λ s, areas (space s));
             if overlaps l va end_ then
               if negb fixed then fail BadState
               else
                 _ ← unmap va len None;
                 l ← gets (λ s, areas (space s));
                 if overlaps l va end_ then fail BadState else mret va
             else mret va
         | None => l ← gets (λ s, areas (space s)); lift (find_free l len)
         end;
    map_at va len k p b.

Definition map_plane (m : MemoryObject) (first len : Z) (write : bool) : K Z :=
  map_ None len Plane (if write then Z.lor map.READ map.WRITE else map.READ)
    (Object m first write) false.

(** ** Protection *)

(** The walk over the areas that end past [va]: every page covered, of the kind and
    protection allowed. *)
Fixpoint check_cover (va : Z) (judge : Area → result Error unit) (cursor : Z)
    (l : BTreeMap Area) : result Error Z :=
  match l with
  | [] => Ok cursor
  | (start, a) :: l =>
      if a_end a <=? va then check_cover va judge cursor l
      else if cursor <? start then Err OutOfRange
      else _ ← judge a; check_cover va judge (a_end a) l
  end.

Definition set_prot (p : Z) (a : Area) : Area := mk_Area (a_end a) (kind a) p (backing a).

(** The areas of a range filled again, the first refusal stopping. *)
Fixpoint refill (zs : BTreeMap UFrame) (l : BTreeMap Area) (v : VmSpace) :
    result Error unit * VmSpace :=
  match l with
  | [] => (Ok tt, v)
  | (s, a) :: l =>
      match fill_ptes zs s a s (a_end a) v with
      | (Ok _, v) => refill zs l v
      | (Err e, v) => (Err e, v)
      end
  end.

(** The protection of the areas of a range set, and their entries made again. *)
Definition reprotect (va end_ p : Z) : K unit := λ s,
  let x := space s in
  let inside := (λ e, (e.1, set_prot p e.2)) <$> bt_range va end_ (areas x) in
  let l := foldr (λ e l, bt_insert e.1 e.2 l) (areas x) inside in
  let '(r, v) := refill (zero x) inside (unmap_ptes va (end_ -! va) (vm x)) in
  (r, set_space (set_vm v (set_areas l x)) s).

Definition protect (va len p : Z) (only : option Kind) : K unit :=
  end_ ← lift (check_range va len);
  l ← gets (λ s, areas (space s));
  cursor ← lift (check_cover va (λ a,
    if match only with Some k => negb (bool_decide (k = kind a)) | None => false end
       || bool_decide (kind a = Plane)
    then Err InvalidArgs
    else check_prot p (backing a)) va (bt_below end_ l));
  if cursor <? end_ then fail OutOfRange
  else
    _ ← charge_more (split_bytes l va end_);
    _ ← on_space (λ x, set_areas (split end_ (split va (areas x))) x);
    _ ← modify settle_space;
    reprotect va end_ p.

(** ** Pages *)

(** A zero page made, or its charge given back. *)
Definition zeroed_frame (page : Z) : K UFrame := λ s,
  match alloc_frame (hw s) with
  | None => (Err NoMemory, settle_space s)
  | Some (f, h) =>
      (Ok f, set_space (set_zero (bt_insert page f (zero (space s))) (space s)) (set_hw h s))
  end.

(** [Space::frame]. *)
Definition frame (start : Z) (a : Area) (page : Z) : K UFrame :=
  match backing a with
  | Object m first _ =>
      lift (ok_or (if 0 <=? first +! (page -! start) / PAGE_SIZE
                   then frames m !! Z.to_nat (first +! (page -! start) / PAGE_SIZE) else None)
              OutOfRange)
  | Zero =>
      x ← gets space;
      match bt_get (zero x) page with
      | Some f => mret f
      | None =>
          _ ← charge_more charge.ZERO_PAGE;
          zeroed_frame page
      end
  | Device _ _ _ => fail Fault
  end.

Definition touch (start : Z) (a : Area) (page : Z) : K unit :=
  v ← gets (λ s, vm (space s));
  if negb (cursor_mut v page (page +! PAGE_SIZE)) then fail InvalidArgs
  else match cursor_query v page with
  | Some _ => mret tt
  | None =>
      f ← frame start a page;
      if negb (cursor_jump page (page +! PAGE_SIZE) page) then fail InvalidArgs
      else on_space (λ x, set_vm (cursor_map (vm x) page f (page_flags (prot a))) x)
  end.

Definition fault (addr : Z) (access : Access) : K bool :=
  let page := Z.land addr page_mask in
  l ← gets (λ s, areas (space s));
  match area_at l page with
  | None => mret false
  | Some (start, a) =>
      if negb (allows (prot a) access) then mret false
      else _ ← touch start a page; mret true
  end.

(** The loop of [populate], a page at a time; [fuel] bounds the pages. *)
Fixpoint populate_loop (fuel : nat) (page end_ : Z) (write : bool) : K unit :=
  match fuel with
  | O => mret tt
  | S fuel =>
      if end_ <=? page then mret tt
      else
        l ← gets (λ s, areas (space s));
        match area_at l page with
        | None => fail Fault
        | Some (start, a) =>
            if negb (allows (prot a) (if write then Write else Read)) then fail Fault
            else
              _ ← touch start a page;
              populate_loop fuel (page +! PAGE_SIZE) end_ write
        end
  end.

Definition populate (va len : Z) (write : bool) : K unit :=
  if len =? 0 then mret tt
  else
    let first := Z.land va page_mask in
    match checked_add 64 va len with
    | None => fail Fault
    | Some end_ => populate_loop (Z.to_nat ((end_ - first) / PAGE_SIZE + 1)) first end_ write
    end.

(** One page of [each_page], under the lock: the frame of the page that holds [at]. *)
Definition page_frame (page : Z) (write : bool) : K UFrame :=
  l ← gets (λ s, areas (space s));
  match area_at l page with
  | None => fail Fault
  | Some (start, a) =>
      if negb (allows (prot a) (if write then Write else Read)) then fail Fault
      else
        f ← frame start a page;
        match backing a with
        | Zero => _ ← touch start a page; mret f
        | _ => mret f
        end
  end.

Definition count_copy (n : Z) : K unit := on_space (λ x, set_copied (copied x +! n) x).

(** The loop of [each_page] from byte [done] on; every round copies a byte or more. *)
Fixpoint each_page (fuel : nat) (va len done : Z) (write : bool)
    (f : UFrame → Z → Z → Z → K unit) : K unit :=
  match fuel with
  | O => mret tt
  | S fuel =>
      if len <=? done then mret tt
      else match checked_add 64 va done with
      | None => fail Fault
      | Some at_ =>
          let page := Z.land at_ page_mask in
          let within := at_ - page in
          let n := Z.min (PAGE_SIZE - within) (len - done) in
          fr ← page_frame page write;
          _ ← f fr within done n;
          _ ← count_copy n;
          each_page fuel va len (done + n) write f
      end
  end.

(** The bytes [at .. at + n] of [data] into a frame. *)
Definition write_page (data : list byte) (fr : UFrame) (within at_ n : Z) : K unit := λ s,
  match get_range data at_ (at_ + n) ≫= write_bytes (hw s) fr within with
  | None => (Err Fault, s)
  | Some h => (Ok tt, set_hw h s)
  end.

(** [copy_in], of the bytes [data]. *)
Definition copy_in (va : Z) (data : list byte) : K unit :=
  each_page (length data) va (zlen data) 0 true (write_page data).

(** [copy_out]: the buffer is filled a page at a time. *)
Fixpoint copy_pages (fuel : nat) (va len done : Z) (buf : list byte) : K (list byte) :=
  match fuel with
  | O => mret buf
  | S fuel =>
      if len <=? done then mret buf
      else match checked_add 64 va done with
      | None => fail Fault
      | Some at_ =>
          let page := Z.land at_ page_mask in
          let within := at_ - page in
          let n := Z.min (PAGE_SIZE - within) (len - done) in
          fr ← page_frame page false;
          h ← gets hw;
          bs ← lift (ok_or (read_bytes h fr within n) Fault);
          _ ← count_copy n;
          copy_pages fuel va len (done + n) (buf ++ bs)
      end
  end.

Definition copy_out (va len : Z) : K (list byte) := copy_pages (Z.to_nat len) va len 0 [].

(** ** The program break *)

Definition set_brk (start : Z) : K unit :=
  start ← lift (pages start);
  x ← gets space;
  match brk_ x with
  | Some _ => fail BadState
  | None => on_space (set_brk_ (Some (mk_Brk start start)))
  end.

Definition reset_brk (start : Z) : K unit :=
  _ ← on_space (set_brk_ None);
  if start =? 0 then mret tt
  else
    start ← lift (pages start);
    x ← gets space;
    match area_at (areas x) start with
    | Some _ => fail BadState
    | None => on_space (set_brk_ (Some (mk_Brk start start)))
    end.

(** The heap's last pages mapped or unmapped. *)
Definition move_brk (have need : Z) : K unit :=
  if have <? need then
    _ ← map_ (Some have) (need -! have) Mapping (Z.lor map.READ map.WRITE) Zero false; mret tt
  else if need <? have then unmap need (have -! need) None
  else mret tt.

(** The end of the heap, once its pages are moved. *)
Definition brk_moved (want : Z) (x : Space) : Space :=
  set_brk_ ((λ b, mk_Brk (b_start b) want) <$> brk_ x) x.

Definition brk (want : Z) (s : Machine) : Z * Machine :=
  match brk_ (space s) with
  | None => (0, s)
  | Some (mk_Brk start current) =>
      if want <? start then (current, s)
      else match pages current, pages want with
      | Ok have, Ok need =>
          if MAP_BASE <? need then (current, s)
          else
            match move_brk have need s with
            | (Err _, s) => (current, s)
            | (Ok _, s) => (want, set_space (brk_moved want (space s)) s)
            end
      | _, _ => (current, s)
      end
  end.

(** ** Discarding and the end of a space *)

(** The part of [discard] under the lock. *)
Definition discard_pages (va end_ : Z) : K unit :=
  l ← gets (λ s, areas (space s));
  cursor ← lift (check_cover va (λ a,
    if bool_decide (kind a = Plane) then Err InvalidArgs else Ok tt) va (bt_below end_ l));
  if cursor <? end_ then fail OutOfRange
  else
    _ ← on_space (λ x,
      set_zero (List.filter (λ e, negb ((va <=? e.1) && (e.1 <? end_))) (zero x)) x);
    modify settle_space.

(** The entries go after the lock is released. *)
Definition discard_entries (va end_ : Z) : K unit :=
  on_space (λ x, set_vm (unmap_ptes va (end_ -! va) (vm x)) x).

Definition discard (va len : Z) : K unit :=
  end_ ← lift (check_range va len);
  _ ← discard_pages va end_;
  discard_entries va end_.

(** [Space::clear] under the lock, and the unmapping after it. *)
Definition clear_areas (s : Machine) : Machine :=
  settle_space (set_space (set_zero [] (set_areas [] (set_tables 0
    (set_brk_ None (space s))))) s).

Definition clear (s : Machine) : Machine :=
  let s := clear_areas s in
  set_space (set_vm (unmap_ptes 0 map_end (vm (space s))) (space s)) s.

End space.
