(* ===== verification/VmAreas.v ===== *)
(** * The areas of an address space

    What the areas of a space keep of themselves, and the pages they stand for: [view]
    gives of an address the kind, the protection and the backing of the page there.
    Splitting an area is invisible in the view; a map, an unmap and a change of protection
    are what they say, page by page. *)

From S2P Require Import Prelude Abi Quota Account BTree Vm.
Definition aligned (x : Z) : Prop := x mod PAGE_SIZE = 0.

Lemma aligned_0 : aligned 0.
Proof. done. Qed.

Lemma aligned_mul x : aligned x ↔ ∃ k, x = k * PAGE_SIZE.
Proof.
  unfold aligned. split.
  - intros H. exists (x / PAGE_SIZE). pose proof (Z.div_mod x PAGE_SIZE ltac:(done)). lia.
  - intros [k ->]. by apply Z.mod_mul.
Qed.

Lemma aligned_add x y : aligned x → aligned y → aligned (x + y).
Proof. rewrite !aligned_mul. intros [j ->] [k ->]. exists (j + k). lia. Qed.

Lemma aligned_sub x y : aligned x → aligned y → aligned (x - y).
Proof. rewrite !aligned_mul. intros [j ->] [k ->]. exists (j - k). lia. Qed.

Lemma is_multiple_page x : is_multiple_of x PAGE_SIZE = true ↔ aligned x.
Proof. unfold is_multiple_of, aligned. simpl. by rewrite Z.eqb_eq. Qed.

(** Page numbers between aligned addresses. *)
Lemma pages_between s p : aligned s → aligned p → (p - s) / PAGE_SIZE * PAGE_SIZE = p - s.
Proof.
  intros Hs Hp. destruct (proj1 (aligned_mul _) (aligned_sub p s Hp Hs)) as [k ->].
  by rewrite Z.div_mul.
Qed.

Lemma aligned_next x y : aligned x → aligned y → x < y → x + PAGE_SIZE ≤ y.
Proof. rewrite !aligned_mul. unfold PAGE_SIZE. intros [j ->] [k ->]. lia. Qed.

Lemma land_mask x : u64 x → Z.land x page_mask = x - x mod PAGE_SIZE.
Proof.
  intros H. unfold page_mask. change (PAGE_SIZE - 1) with (2 ^ 12 - 1).
  rewrite land_wnot_ones by (done || lia). done.
Qed.

Lemma land_mask_aligned x : u64 x → aligned (Z.land x page_mask).
Proof.
  intros H. rewrite land_mask by done. apply aligned_mul. exists (x / PAGE_SIZE).
  pose proof (Z.div_mod x PAGE_SIZE ltac:(done)). lia.
Qed.

Lemma land_mask_within x : u64 x → 0 ≤ x - Z.land x page_mask < PAGE_SIZE.
Proof.
  intros H. rewrite land_mask by done. pose proof (Z.mod_pos_bound x PAGE_SIZE ltac:(done)). lia.
Qed.

Lemma aligned_wrap_add x y : aligned x → aligned y → aligned (x +! y).
Proof.
  intros Hx Hy. pose proof (aligned_add _ _ Hx Hy) as [k E]%aligned_mul.
  unfold wadd, wrap. rewrite E. apply aligned_mul.
  exists (k mod 2 ^ 52). change (2 ^ 64) with (2 ^ 52 * PAGE_SIZE).
  by rewrite Z.mul_mod_distr_r.
Qed.

Lemma pages_round len n :
  u64 len → pages len = Ok n → aligned n ∧ len ≤ n < len + PAGE_SIZE ∧ n < 2 ^ 64.
Proof.
  intros Hl. unfold pages. destruct (checked_add 64 len (PAGE_SIZE - 1)) as [v|] eqn:E; [|done].
  apply checked_add_Some in E as [-> Hv]. simpl. intros [= <-].
  assert (u64 (len + (PAGE_SIZE - 1))) as Hw.
  { unfold in_width in *. unfold PAGE_SIZE in *. lia. }
  split; [by apply land_mask_aligned|]. rewrite land_mask by done.
  pose proof (Z.mod_pos_bound (len + (PAGE_SIZE - 1)) PAGE_SIZE ltac:(done)).
  unfold in_width in *. unfold PAGE_SIZE in *. lia.
Qed.

Section areas.
Context {O : Ostd} {OL : OstdLaws}.
Implicit Types (l : BTreeMap Area) (a : Area) (b : Backing).

Lemma map_end_bounds : aligned map_end ∧ MAP_BASE + PAGE_SIZE ≤ map_end ≤ 2 ^ 47.
Proof.
  destruct user_top as [H1 H2]. change MAP_BASE with 0x100000000000 in *.
  assert (u64 MAX_USERSPACE_VADDR) by (unfold in_width, PAGE_SIZE in *; lia).
  unfold map_end. split; [by apply land_mask_aligned|]. rewrite land_mask by done.
  pose proof (Z.mod_pos_bound MAX_USERSPACE_VADDR PAGE_SIZE ltac:(done)).
  unfold PAGE_SIZE in *. lia.
Qed.

(** ** Backings *)

(** A backing of [n] pages: an object or a device that has them. *)
Definition backing_ok (n : Z) (b : Backing) : Prop :=
  match b with
  | Object m first _ => 0 ≤ first ∧ first + n ≤ zlen (frames m) ∧ zlen (frames m) < 2 ^ 63
  | Zero => True
  | Device _ off _ => 0 ≤ off ∧ off + n * PAGE_SIZE < 2 ^ 63
  end.

Lemma advanced_0 n b : 0 ≤ n → backing_ok n b → advanced b 0 = b.
Proof.
  intros Hn. assert (∀ x, 0 ≤ x < 2 ^ 63 → x +! 0 = x) as E.
  { intros x Hx. unfold wadd. rewrite Z.add_0_r. apply wrap_small. unfold in_width. lia. }
  destruct b as [m f w| |d o w]; simpl; [|done|]; intros H; f_equal.
  - apply E. lia.
  - change (0 *! PAGE_SIZE) with 0. apply E. unfold PAGE_SIZE in *. lia.
Qed.

Lemma advanced_ok n b k : 0 ≤ k ≤ n → backing_ok n b → backing_ok (n - k) (advanced b k).
Proof.
  intros Hk. destruct b as [m f w| |d o w]; simpl; [|done|]; intros H.
  - assert (f +! k = f + k) as -> by (apply wrap_small; unfold in_width; lia). lia.
  - unfold PAGE_SIZE in *.
    assert (k *! 4096 = k * 4096) as -> by (apply wrap_small; unfold in_width; lia).
    assert (o +! k * 4096 = o + k * 4096) as -> by (apply wrap_small; unfold in_width; lia). lia.
Qed.

Lemma advanced_advanced n b j k :
  0 ≤ j → 0 ≤ k → j + k ≤ n → backing_ok n b →
  advanced (advanced b j) k = advanced b (j + k).
Proof.
  intros Hj Hk Hn. destruct b as [m f w| |d o w]; simpl; [|done|]; intros H; f_equal;
    unfold PAGE_SIZE in *; unfold wadd, wmul, wrap.
  - rewrite Zplus_mod_idemp_l. f_equal. lia.
  - rewrite !Zplus_mod_idemp_r, Zplus_mod_idemp_l. f_equal. lia.
Qed.

Lemma advanced_writable b k : writable (advanced b k) = writable b.
Proof. by destruct b. Qed.

(** ** Well-formed areas *)

Record area_ok (s : Z) (a : Area) : Prop := {
  ao_start : aligned s;
  ao_end : aligned (a_end a);
  ao_user : IMAGE_START ≤ s;
  ao_len : s < a_end a;
  ao_top : a_end a ≤ map_end;
  ao_prot : check_prot (prot a) (backing a) = Ok tt;
  ao_backing : backing_ok ((a_end a - s) / PAGE_SIZE) (backing a);
}.

Record areas_ok l : Prop := {
  as_sorted : sorted l;
  as_area s a : bt_get l s = Some a → area_ok s a;
  as_apart s a s' a' :
    bt_get l s = Some a → bt_get l s' = Some a' → s < s' → a_end a ≤ s';
}.

Lemma areas_ok_nil : areas_ok [].
Proof. split; [constructor|done|done]. Qed.

(** No area has a byte of [va .. end]. *)
Definition free_range l (va end_ : Z) : Prop :=
  ∀ s a, bt_get l s = Some a → a_end a ≤ va ∨ end_ ≤ s.

(** The area that holds an address. *)
Lemma area_at_Some l p s a :
  areas_ok l → area_at l p = Some (s, a) ↔ bt_get l s = Some a ∧ s ≤ p < a_end a.
Proof.
  intros A. unfold area_at. split.
  - destruct (last (bt_below (p + 1) l)) as [[k c]|] eqn:E; [|done]. simpl.
    apply last_below in E as (G & Hk & _); [|apply A].
    destruct (Z.ltb_spec p (a_end c)); [|done]. intros [= <- <-]. split; [done|lia].
  - intros [G Hp]. destruct (last (bt_below (p + 1) l)) as [[k c]|] eqn:E.
    + apply last_below in E as (Gk & Hk & Hmax); [|apply A].
      specialize (Hmax _ _ G ltac:(lia)).
      destruct (decide (s = k)) as [<-|].
      * rewrite G in Gk. injection Gk as <-. simpl. by destruct (Z.ltb_spec p (a_end a)); [|lia].
      * pose proof (as_apart _ A _ _ _ _ G Gk ltac:(lia)). lia.
    + pose proof (last_below_None _ _ (as_sorted _ A) E _ _ G). lia.
Qed.

Lemma area_at_None l p :
  areas_ok l → area_at l p = None ↔ ∀ s a, bt_get l s = Some a → ¬ (s ≤ p < a_end a).
Proof.
  intros A. split.
  - intros E s a G Hp. by rewrite (proj2 (area_at_Some l p s a A)) in E.
  - intros H. destruct (area_at l p) as [[s a]|] eqn:E; [|done].
    apply area_at_Some in E as [G Hp]; [|done]. by destruct (H s a G).
Qed.

(** ** The pages of a space *)

Definition page_of (p : Z) (e : Z * Area) : Kind * Z * Backing :=
  (kind e.2, prot e.2, advanced (backing e.2) ((p - e.1) / PAGE_SIZE)).

Definition view l (p : Z) : option (Kind * Z * Backing) := page_of p <$> area_at l p.

Lemma view_Some l p x :
  areas_ok l →
  view l p = Some x ↔ ∃ s a, bt_get l s = Some a ∧ s ≤ p < a_end a ∧ x = page_of p (s, a).
Proof.
  intros A. unfold view. rewrite fmap_Some. split.
  - intros ([s a] & E & ->). apply area_at_Some in E as [G Hp]; [|done]. eauto 10.
  - intros (s & a & G & Hp & ->). exists (s, a). split; [|done]. by apply area_at_Some.
Qed.

Lemma view_None l p :
  areas_ok l → view l p = None ↔ ∀ s a, bt_get l s = Some a → ¬ (s ≤ p < a_end a).
Proof. intros A. unfold view. rewrite fmap_None. by apply area_at_None. Qed.

(** Two lists of areas with the same pages. *)
Lemma view_ext l l' p :
  areas_ok l → areas_ok l' →
  (∀ x, (∃ s a, bt_get l s = Some a ∧ s ≤ p < a_end a ∧ x = page_of p (s, a)) ↔
        (∃ s a, bt_get l' s = Some a ∧ s ≤ p < a_end a ∧ x = page_of p (s, a))) →
  view l p = view l' p.
Proof.
  intros A A' H. destruct (view l p) as [x|] eqn:E.
  - symmetry. apply view_Some; [done|]. apply H. by apply view_Some.
  - destruct (view l' p) as [x|] eqn:E'; [|done].
    apply view_Some in E'; [|done]. apply H in E'. apply view_Some in E'; [|done]. congruence.
Qed.

(** ** Adding and taking areas *)

Lemma free_range_get l va end_ : areas_ok l → va < end_ → free_range l va end_ → bt_get l va = None.
Proof.
  intros A Hlt F. destruct (bt_get l va) as [c|] eqn:G; [|done].
  pose proof (ao_len _ _ (as_area _ A _ _ G)). destruct (F _ _ G); lia.
Qed.

Lemma insert_areas l va a :
  areas_ok l → area_ok va a → free_range l va (a_end a) → areas_ok (bt_insert va a l).
Proof.
  intros A Ha F. pose proof (ao_len _ _ Ha). split.
  - apply sorted_insert, A.
  - intros s c. rewrite bt_get_insert. destruct (Z.eqb_spec va s) as [<-|].
    + by intros [= <-].
    + apply A.
  - intros s c s' c'. rewrite !bt_get_insert.
    destruct (Z.eqb_spec va s) as [<-|], (Z.eqb_spec va s') as [<-|]; [lia| | |apply A].
    + intros [= <-] G Hlt. pose proof (ao_len _ _ (as_area _ A _ _ G)).
      destruct (F _ _ G); lia.
    + intros G [= <-] Hlt. pose proof (ao_len _ _ (as_area _ A _ _ G)).
      destruct (F _ _ G); lia.
Qed.

Lemma insert_view l va a p :
  areas_ok l → area_ok va a → free_range l va (a_end a) →
  view (bt_insert va a l) p =
  if (va <=? p) && (p <? a_end a) then Some (page_of p (va, a)) else view l p.
Proof.
  intros A Ha F. pose proof (insert_areas _ _ _ A Ha F) as A'.
  destruct (Z.leb_spec va p); simpl; [destruct (Z.ltb_spec p (a_end a)); simpl|].
  - apply view_Some; [done|]. exists va, a. rewrite bt_get_insert, Z.eqb_refl. split; [done|]. split; [lia|done].
  - apply view_ext; [done..|]. intros x. split; intros (s & c & G & Hp & ->); exists s, c.
    + rewrite bt_get_insert in G. destruct (Z.eqb_spec va s) as [<-|]; [|done].
      injection G as <-. lia.
    + rewrite bt_get_insert. destruct (Z.eqb_spec va s) as [<-|]; [|done].
      destruct (F _ _ G); pose proof (ao_len _ _ Ha); lia.
  - apply view_ext; [done..|]. intros x. split; intros (s & c & G & Hp & ->); exists s, c.
    + rewrite bt_get_insert in G. destruct (Z.eqb_spec va s) as [<-|]; [|done].
      injection G as <-. lia.
    + rewrite bt_get_insert. by destruct (Z.eqb_spec va s) as [<-|]; [lia|].
Qed.

Lemma filter_areas l f : areas_ok l → areas_ok (List.filter f l).
Proof.
  intros A. assert (∀ s a, bt_get (List.filter f l) s = Some a → bt_get l s = Some a) as G.
  { intros s a. rewrite bt_get_filter by apply A. destruct (bt_get l s) as [c|]; [|done].
    simpl. by destruct (f (s, c)). }
  split.
  - apply sorted_filter, A.
  - intros s a Hs. apply (as_area _ A), G, Hs.
  - intros s a s' a' Hs Hs'. by apply (as_apart _ A s a s' a'); apply G.
Qed.

(** No area has [at] strictly inside. *)
Definition edge l (at_ : Z) : Prop := ∀ s a, bt_get l s = Some a → ¬ (s < at_ < a_end a).

(** The areas outside a range at whose ends areas begin and end. *)
Definition outside l (va end_ : Z) : BTreeMap Area :=
  List.filter (λ e, negb ((va <=? e.1) && (e.1 <? end_))) l.

Lemma outside_get l va end_ s a :
  sorted l → bt_get (outside l va end_) s = Some a ↔ bt_get l s = Some a ∧ ¬ (va ≤ s < end_).
Proof.
  intros Hs. unfold outside. rewrite bt_get_filter by done.
  destruct (bt_get l s) as [c|]; simpl; [|naive_solver].
  destruct (Z.leb_spec va s), (Z.ltb_spec s end_); simpl; naive_solver lia.
Qed.

Lemma outside_free l va end_ :
  areas_ok l → va < end_ → edge l va → edge l end_ → free_range (outside l va end_) va end_.
Proof.
  intros A Hlt E1 E2 s a G. apply outside_get in G as [G Hs]; [|apply A].
  specialize (E1 _ _ G). specialize (E2 _ _ G). lia.
Qed.

Lemma outside_view l va end_ p :
  areas_ok l → va < end_ → edge l va → edge l end_ →
  view (outside l va end_) p = if (va <=? p) && (p <? end_) then None else view l p.
Proof.
  intros A Hlt E1 E2. pose proof (filter_areas l (λ e, negb ((va <=? e.1) && (e.1 <? end_))) A) as A'.
  fold (outside l va end_) in A'. pose proof (outside_free _ _ _ A Hlt E1 E2) as F.
  destruct (Z.leb_spec va p); simpl; [destruct (Z.ltb_spec p end_); simpl|].
  - apply view_None; [done|]. intros s a G Hp. destruct (F _ _ G); lia.
  - apply view_ext; [done..|]. intros x. split; intros (s & a & G & Hp & ->); exists s, a.
    + by apply outside_get in G as [G _]; [|apply A].
    + rewrite outside_get by apply A. split_and!; try done; try lia. specialize (E2 _ _ G). lia.
  - apply view_ext; [done..|]. intros x. split; intros (s & a & G & Hp & ->); exists s, a.
    + by apply outside_get in G as [G _]; [|apply A].
    + rewrite outside_get by apply A. split_and!; try done; try lia.
Qed.

(** ** Splitting *)

Definition head_of (at_ : Z) (a : Area) : Area := mk_Area at_ (kind a) (prot a) (backing a).
Definition tail_of (s at_ : Z) (a : Area) : Area :=
  mk_Area (a_end a) (kind a) (prot a) (advanced (backing a) ((at_ - s) / PAGE_SIZE)).

Lemma split_cases l at_ :
  areas_ok l → aligned at_ →
  (split at_ l = l ∧ splits_at l at_ = false ∧ edge l at_) ∨
  ∃ s a, bt_get l s = Some a ∧ s < at_ < a_end a ∧ splits_at l at_ = true ∧
    split at_ l = bt_insert at_ (tail_of s at_ a) (bt_insert s (head_of at_ a) l).
Proof.
  intros A Hat. unfold splits_at, split_needed.
  assert ((∃ s a, bt_get l s = Some a ∧ s < at_ < a_end a) ∨ edge l at_) as
    [(s & a & G & Hlt)|N].
  { destruct (area_at l at_) as [[s a]|] eqn:E.
    - apply area_at_Some in E as [G Hp]; [|done]. destruct (decide (s = at_)) as [->|].
      + right. intros k c Gk Hk. pose proof (as_apart _ A _ _ _ _ Gk G ltac:(lia)). lia.
      + left. exists s, a. split; [done|lia].
    - right. intros k c Gk Hk. eapply (proj1 (area_at_None l at_ A) E); [done|lia]. }
  - right. exists s, a. split; [done|]. split; [done|].
    rewrite (proj2 (area_at_Some l at_ s a A)) by (split; [done|lia]).
    split; [by destruct (Z.ltb_spec s at_), (Z.ltb_spec at_ (a_end a)); try lia|].
    unfold split. destruct (last (bt_below at_ l)) as [[k c]|] eqn:E.
    + apply last_below in E as (Gk & Hk & Hmax); [|apply A].
      specialize (Hmax _ _ G ltac:(lia)).
      destruct (decide (s = k)) as [<-|].
      2: { pose proof (as_apart _ A _ _ _ _ G Gk ltac:(lia)). lia. }
      rewrite G in Gk. injection Gk as <-. simpl.
      destruct (Z.ltb_spec at_ (a_end a)); [|lia]. rewrite G.
      pose proof (as_area _ A _ _ G) as [? ? ? ? Ht _ _]. destruct map_end_bounds as [_ ?].
      unfold tail_of, head_of. do 3 f_equal.
      assert (at_ -! s = at_ - s) as ->; [|done]. apply wrap_small.
      unfold in_width, IMAGE_START in *. lia.
    + pose proof (last_below_None _ _ (as_sorted _ A) E _ _ G). lia.
  - left. split_and!.
    + unfold split. destruct (last (bt_below at_ l)) as [[k c]|] eqn:E; [|done].
      apply last_below in E as (Gk & Hk & _); [|apply A]. simpl.
      destruct (Z.ltb_spec at_ (a_end c)); [|done]. by destruct (N _ _ Gk).
    + destruct (area_at l at_) as [[s a]|] eqn:E; [|done].
      apply area_at_Some in E as [G Hp]; [|done].
      destruct (Z.ltb_spec s at_), (Z.ltb_spec at_ (a_end a)); try done. by destruct (N _ _ G).
    + done.
Qed.

(** An area cut in two. *)
Lemma cut_ok s at_ a :
  area_ok s a → aligned at_ → s < at_ < a_end a →
  area_ok s (head_of at_ a) ∧ area_ok at_ (tail_of s at_ a).
Proof.
  intros [H1 H2 H3 H4 H5 H7 H8] Hat Hlt.
  pose proof (pages_between s at_ H1 Hat) as E1.
  pose proof (pages_between s (a_end a) H1 H2) as E2.
  pose proof (pages_between at_ (a_end a) Hat H2) as E3. unfold PAGE_SIZE in *.
  split; constructor; simpl; try done; try lia.
  - unfold PAGE_SIZE. destruct (backing a) as [m f w| |d o w]; simpl in *; [|done|];
      unfold PAGE_SIZE in *; lia.
  - unfold check_prot in *. by rewrite advanced_writable.
  - unfold PAGE_SIZE. replace ((a_end a - at_) / 4096)
      with ((a_end a - s) / 4096 - (at_ - s) / 4096) by lia.
    apply advanced_ok; [lia|done].
Qed.

Section cut.
Context l s at_ a (A : areas_ok l) (Hat : aligned at_) (G : bt_get l s = Some a)
  (Hlt : s < at_ < a_end a).
Abbreviation l' := (bt_insert at_ (tail_of s at_ a) (bt_insert s (head_of at_ a) l)).

Lemma cut_get k :
  bt_get l' k =
  if at_ =? k then Some (tail_of s at_ a) else if s =? k then Some (head_of at_ a) else bt_get l k.
Proof. by rewrite !bt_get_insert. Qed.

Lemma cut_fresh : bt_get l at_ = None.
Proof.
  destruct (bt_get l at_) as [c|] eqn:E; [|done].
  pose proof (as_apart _ A _ _ _ _ G E ltac:(lia)). lia.
Qed.

Lemma cut_areas : areas_ok l'.
Proof.
  destruct (cut_ok s at_ a (as_area _ A _ _ G) Hat Hlt) as [O1 O2]. split.
  - apply sorted_insert, sorted_insert, A.
  - intros k c. rewrite cut_get. destruct (Z.eqb_spec at_ k) as [<-|]; [by intros [= <-]|].
    destruct (Z.eqb_spec s k) as [<-|]; [by intros [= <-]|]. apply A.
  - intros k c k' c'. rewrite !cut_get.
    pose proof (λ c' k' (G' : bt_get l k' = Some c'), as_apart _ A s a k' c' G G') as B1.
    pose proof (λ c' k' (G' : bt_get l k' = Some c'), as_apart _ A k' c' s a G' G) as B2.
    destruct (Z.eqb_spec at_ k) as [<-|]; [|destruct (Z.eqb_spec s k) as [<-|]].
    + intros [= <-]. simpl. destruct (Z.eqb_spec at_ k') as [<-|]; [lia|].
      destruct (Z.eqb_spec s k') as [<-|]; [lia|]. intros G' Hk. apply (B1 _ _ G'). lia.
    + intros [= <-]. simpl. destruct (Z.eqb_spec at_ k') as [<-|]; [lia|].
      destruct (Z.eqb_spec s k') as [<-|]; [lia|]. intros G' Hk. specialize (B1 _ _ G' Hk). lia.
    + intros Gk. destruct (Z.eqb_spec at_ k') as [<-|]; [|destruct (Z.eqb_spec s k') as [<-|]].
      * intros _ Hk. destruct (Z.ltb_spec k s).
        { specialize (B2 _ _ Gk ltac:(lia)). lia. }
        specialize (B1 _ _ Gk ltac:(lia)). lia.
      * intros _ Hk. by apply (B2 _ _ Gk).
      * intros G' Hk. by apply (as_apart _ A k c k' c').
Qed.

Lemma cut_view p : aligned p → view l' p = view l p.
Proof.
  intros Hp. pose proof (as_area _ A _ _ G) as [H1 H2 H3 H4 H5 H7 H8].
  apply view_ext; [apply cut_areas|done|]. intros x. split.
  - intros (k & c & Gk & Hk & ->). rewrite cut_get in Gk.
    destruct (Z.eqb_spec at_ k) as [<-|]; [|destruct (Z.eqb_spec s k) as [<-|]].
    + injection Gk as <-. simpl in Hk. exists s, a. split; [done|]. split; [lia|].
      unfold page_of. simpl. f_equal.
      pose proof (pages_between s at_ H1 Hat). pose proof (pages_between at_ p Hat Hp).
      pose proof (pages_between s p H1 Hp). pose proof (pages_between s (a_end a) H1 H2).
      unfold PAGE_SIZE in *.
      rewrite (advanced_advanced ((a_end a - s) / 4096)) by (done || lia). f_equal. lia.
    + injection Gk as <-. simpl in Hk. exists s, a. split; [done|]. split; [lia|done].
    + eauto.
  - intros (k & c & Gk & Hk & ->). destruct (decide (k = s)) as [->|].
    + rewrite G in Gk. injection Gk as <-. destruct (Z.ltb_spec p at_).
      * exists s, (head_of at_ a). rewrite cut_get, Z.eqb_refl.
        destruct (Z.eqb_spec at_ s); [lia|]. split; [done|]. simpl. split; [lia|done].
      * exists at_, (tail_of s at_ a). rewrite cut_get, Z.eqb_refl. split; [done|]. simpl.
        split; [lia|]. unfold page_of. simpl. f_equal.
        pose proof (pages_between s at_ H1 Hat). pose proof (pages_between at_ p Hat Hp).
        pose proof (pages_between s p H1 Hp). pose proof (pages_between s (a_end a) H1 H2).
        unfold PAGE_SIZE in *.
        rewrite (advanced_advanced ((a_end a - s) / 4096)) by (done || lia). f_equal. lia.
    + exists k, c. rewrite cut_get. destruct (Z.eqb_spec at_ k) as [<-|].
      { by rewrite cut_fresh in Gk. }
      by destruct (Z.eqb_spec s k); [lia|].
Qed.

Lemma cut_length : zlen l' = zlen l + 1.
Proof.
  unfold zlen. rewrite length_bt_insert.
  - rewrite (bt_insert_replace _ _ _ a) by (done || apply A). lia.
  - rewrite bt_get_insert. destruct (Z.eqb_spec s at_); [lia|]. apply cut_fresh.
Qed.

End cut.

(** ** Tables *)

Definition ranges l : list (Z * Z) := range_of <$> l.

Lemma elem_of_ranges l s e :
  sorted l → (s, e) ∈ ranges l ↔ ∃ a, bt_get l s = Some a ∧ a_end a = e.
Proof.
  intros Hs. unfold ranges. rewrite list_elem_of_fmap. split.
  - intros ([k a] & [= -> ->] & Hin). apply elem_of_bt in Hin; eauto.
  - intros (a & G & <-). exists (s, a). split; [done|]. by apply elem_of_bt.
Qed.

Lemma full_count_ext top (l k : list (Z * Z)) :
  (∀ size, 0 < size → touched size l = touched size k) → full_count top l = full_count top k.
Proof.
  intros H. unfold full_count, charge.TABLE_REGIONS. cbn [fmap list_fmap].
  by rewrite !H by done.
Qed.

Lemma touched_ranges size l r :
  areas_ok l → 0 < size →
  r ∈ touched size (ranges l) ↔
  ∃ s a, bt_get l s = Some a ∧ s / size ≤ r ≤ (a_end a - 1) / size.
Proof.
  intros A Hsize. rewrite elem_of_touched. split.
  - intros (s & e & Hin & Hlt & Hr). apply elem_of_ranges in Hin as (a & G & <-); [|apply A]. eauto.
  - intros (s & a & G & Hr). exists s, (a_end a).
    split; [apply elem_of_ranges; [apply A|eauto]|]. split; [apply (as_area _ A _ _ G)|done].
Qed.

Lemma cut_touched l s at_ a size :
  areas_ok l → aligned at_ → bt_get l s = Some a → s < at_ < a_end a → 0 < size →
  touched size (ranges (bt_insert at_ (tail_of s at_ a) (bt_insert s (head_of at_ a) l))) =
  touched size (ranges l).
Proof.
  intros A Hat G Hlt Hsize. apply set_eq. intros r.
  rewrite !touched_ranges by (done || by apply cut_areas). split.
  - intros (k & c & Gk & Hr). rewrite cut_get in Gk.
    destruct (Z.eqb_spec at_ k) as [<-|]; [|destruct (Z.eqb_spec s k) as [<-|]].
    + injection Gk as <-. simpl in Hr. exists s, a. split; [done|].
      assert (s / size ≤ at_ / size) by (apply Z.div_le_mono; lia). lia.
    + injection Gk as <-. simpl in Hr. exists s, a. split; [done|].
      assert ((at_ - 1) / size ≤ (a_end a - 1) / size) by (apply Z.div_le_mono; lia). lia.
    + eauto.
  - intros (k & c & Gk & Hr). destruct (decide (k = s)) as [->|].
    + rewrite G in Gk. injection Gk as <-. destruct (Z.leb_spec r ((at_ - 1) / size)).
      * exists s, (head_of at_ a). rewrite cut_get, Z.eqb_refl.
        destruct (Z.eqb_spec at_ s); [lia|]. split; [done|]. simpl. lia.
      * exists at_, (tail_of s at_ a). rewrite cut_get, Z.eqb_refl. split; [done|]. simpl.
        assert (at_ / size ≤ (at_ - 1) / size + 1); [|lia].
        rewrite <- (Z.div_add (at_ - 1) 1 size) by lia. apply Z.div_le_mono; lia.
    + exists k, c. rewrite cut_get. destruct (Z.eqb_spec at_ k) as [<-|].
      { by rewrite (cut_fresh l s at_ a A G Hlt) in Gk. }
      by destruct (Z.eqb_spec s k); [lia|].
Qed.

Lemma splits_at_iff l x :
  areas_ok l → splits_at l x = true ↔ ∃ s a, bt_get l s = Some a ∧ s < x < a_end a.
Proof.
  intros A. unfold splits_at, split_needed. split.
  - destruct (area_at l x) as [[s a]|] eqn:E; [|done].
    apply area_at_Some in E as [G Hp]; [|done].
    destruct (Z.ltb_spec s x), (Z.ltb_spec x (a_end a)); try done. eauto 10.
  - intros (s & a & G & Hlt). rewrite (proj2 (area_at_Some l x s a A)) by (split; [done|lia]).
    by destruct (Z.ltb_spec s x), (Z.ltb_spec x (a_end a)); try lia.
Qed.

(** What a split keeps, and the one thing it changes: an edge where it splits. *)
Record split_to l l' (at_ : Z) : Prop := {
  sp_areas : areas_ok l';
  sp_view p : aligned p → view l' p = view l p;
  sp_edge : edge l' at_;
  sp_edges x : edge l x → edge l' x;
  sp_splits x : x ≠ at_ → splits_at l' x = splits_at l x;
  sp_length : zlen l' = zlen l + (if splits_at l at_ then 1 else 0);
  sp_tables top : full_count top (ranges l') = full_count top (ranges l);
}.

Lemma cut_splits l s at_ a x :
  areas_ok l → aligned at_ → bt_get l s = Some a → s < at_ < a_end a → x ≠ at_ →
  (∃ k c, bt_get (bt_insert at_ (tail_of s at_ a) (bt_insert s (head_of at_ a) l)) k = Some c ∧
     k < x < a_end c) ↔ ∃ k c, bt_get l k = Some c ∧ k < x < a_end c.
Proof.
  intros A Hat G Hlt Hx. split.
  - intros (k & c & Gk & Hk). rewrite cut_get in Gk.
    destruct (Z.eqb_spec at_ k) as [<-|]; [|destruct (Z.eqb_spec s k) as [<-|]].
    + injection Gk as <-. simpl in Hk. exists s, a. split; [done|lia].
    + injection Gk as <-. simpl in Hk. exists s, a. split; [done|lia].
    + eauto.
  - intros (k & c & Gk & Hk). destruct (decide (k = s)) as [->|].
    + rewrite G in Gk. injection Gk as <-. destruct (Z.ltb_spec x at_).
      * exists s, (head_of at_ a). rewrite cut_get, Z.eqb_refl.
        destruct (Z.eqb_spec at_ s); [lia|]. split; [done|]. simpl. lia.
      * exists at_, (tail_of s at_ a). rewrite cut_get, Z.eqb_refl. split; [done|]. simpl. lia.
    + exists k, c. rewrite cut_get. destruct (Z.eqb_spec at_ k) as [<-|].
      { by rewrite (cut_fresh l s at_ a A G Hlt) in Gk. }
      by destruct (Z.eqb_spec s k); [lia|].
Qed.

Lemma split_ok l at_ : areas_ok l → aligned at_ → split_to l (split at_ l) at_.
Proof.
  intros A Hat. destruct (split_cases l at_ A Hat) as [(-> & E & Hedge)|(s & a & G & Hlt & E & ->)].
  - split; try done. rewrite E. lia.
  - pose proof (cut_areas l s at_ a A Hat G Hlt) as A'.
    pose proof (λ x, cut_splits l s at_ a x A Hat G Hlt) as C.
    split; try done.
    + intros p Hp. by apply cut_view.
    + intros k c Gk Hk. rewrite cut_get in Gk.
      destruct (Z.eqb_spec at_ k) as [<-|]; [lia|]. destruct (Z.eqb_spec s k) as [<-|].
      * injection Gk as <-. simpl in Hk. lia.
      * destruct (Z.ltb_spec k s).
        -- pose proof (as_apart _ A _ _ _ _ Gk G ltac:(lia)). lia.
        -- pose proof (as_apart _ A _ _ _ _ G Gk ltac:(lia)). lia.
    + intros x Hx k c Gk Hk. destruct (decide (x = at_)) as [->|].
      * by destruct (Hx s a G).
      * destruct (proj1 (C x ltac:(done))) as (k' & c' & G' & Hk'); [eauto|]. by destruct (Hx _ _ G').
    + intros x Hx. apply eq_true_iff_eq. rewrite !splits_at_iff by done. by apply C.
    + rewrite E. by apply cut_length.
    + intros top. apply full_count_ext. intros size Hsize. by apply cut_touched.
Qed.

(** ** Neighbours *)

Lemma neighbours_around l va end_ :
  areas_ok l → va < end_ → free_range l va end_ →
  around (ranges l) va end_ (neighbours l va end_).1 (neighbours l va end_).2.
Proof.
  intros A Hlt F. unfold around. split; [|split].
  - intros s e (a & G & <-)%elem_of_ranges; [|apply A].
    pose proof (as_area _ A _ _ G) as []. unfold IMAGE_START in *. split; [lia|]. by apply F.
  - unfold neighbours. simpl. destruct (last (bt_below va l)) as [[k c]|] eqn:E; simpl.
    + apply last_below in E as (G & Hk & Hmax); [|apply A].
      pose proof (F _ _ G) as Fk. assert (a_end c ≤ va) by lia. split; [done|].
      split; [exists k; apply elem_of_ranges; [apply A|eauto]|].
      intros s e (a & Gs & <-)%elem_of_ranges He; [|apply A].
      pose proof (ao_len _ _ (as_area _ A _ _ Gs)). specialize (Hmax _ _ Gs ltac:(lia)).
      destruct (decide (s = k)) as [->|]; [rewrite G in Gs; by injection Gs as ->|].
      pose proof (as_apart _ A _ _ _ _ Gs G ltac:(lia)).
      pose proof (ao_len _ _ (as_area _ A _ _ G)). lia.
    + intros s e (a & Gs & <-)%elem_of_ranges; [|apply A].
      pose proof (last_below_None _ _ (as_sorted _ A) E _ _ Gs).
      pose proof (ao_len _ _ (as_area _ A _ _ Gs)). lia.
  - unfold neighbours. simpl. destruct (head (bt_from end_ l)) as [[k c]|] eqn:E; simpl.
    + apply head_from in E as (G & Hk & Hmin); [|apply A]. split; [done|].
      split; [exists (a_end c); apply elem_of_ranges; [apply A|eauto]|].
      intros s e (a & Gs & <-)%elem_of_ranges He; [|apply A]. by apply (Hmin _ _ Gs).
    + intros s e (a & Gs & <-)%elem_of_ranges; [|apply A].
      by apply (head_from_None _ _ (as_sorted _ A) E _ _ Gs).
Qed.

Lemma overlaps_free l va end_ :
  areas_ok l → va < end_ → overlaps l va end_ = false → free_range l va end_.
Proof.
  intros A Hlt. unfold overlaps. intros H s a G.
  destruct (last (bt_below end_ l)) as [[k c]|] eqn:E.
  - apply last_below in E as (Gk & Hk & Hmax); [|apply A]. apply Z.ltb_ge in H.
    destruct (Z.ltb_spec s end_); [|by right]. left. specialize (Hmax _ _ G ltac:(lia)).
    destruct (decide (s = k)) as [->|]; [rewrite G in Gk; by injection Gk as ->|].
    pose proof (as_apart _ A _ _ _ _ G Gk ltac:(lia)).
    pose proof (ao_len _ _ (as_area _ A _ _ Gk)). lia.
  - right. by apply (last_below_None _ _ (as_sorted _ A) E _ _ G).
Qed.

Lemma free_overlaps l va end_ :
  areas_ok l → va < end_ → free_range l va end_ → overlaps l va end_ = false.
Proof.
  intros A Hlt F. unfold overlaps. destruct (last (bt_below end_ l)) as [[k c]|] eqn:E; [|done].
  apply last_below in E as (Gk & Hk & _); [|apply A]. apply Z.ltb_ge.
  destruct (F _ _ Gk); lia.
Qed.

(** ** Finding room *)

Lemma first_fit_spec l len c m :
  areas_ok l → 0 ≤ len → aligned len → 0 ≤ c → aligned c → sorted m →
  (∀ s a, (s, a) ∈ m → bt_get l s = Some a) →
  let r := first_fit len c m in
  c ≤ r ∧ aligned r ∧
  ∀ s a, (s, a) ∈ m → a_end a + PAGE_SIZE ≤ r ∨ r + len + PAGE_SIZE ≤ s.
Proof.
  intros A Hlen Alen. revert c. induction m as [|[s a] m IH]; intros c Hc Ac Hs Hm; simpl.
  { split; [lia|]. split; [done|]. intros ? ? []%elem_of_nil. }
  apply sorted_cons_iff in Hs as [Hs Hlt].
  pose proof (Hm s a ltac:(by left)) as G. pose proof (as_area _ A _ _ G) as [H1 H2 H3 H4 H5 _ _].
  destruct map_end_bounds as [_ Htop].
  destruct (checked_add 64 c len ≫= λ e, checked_add 64 e PAGE_SIZE) as [e|] eqn:E;
    [destruct (Z.leb_spec e s)|].
  - destruct (checked_add 64 c len) as [x|] eqn:E1; [|done]. simpl in E.
    apply checked_add_Some in E1 as [-> _]. apply checked_add_Some in E as [-> _].
    split; [lia|]. split; [done|]. intros s' a'. rewrite elem_of_cons. intros [[= -> ->]|Hin].
    + by right.
    + right. specialize (Hlt _ _ Hin). lia.
  - assert (a_end a +! PAGE_SIZE = a_end a + PAGE_SIZE) as ->.
    { apply wrap_small. unfold in_width, PAGE_SIZE, IMAGE_START in *. lia. }
    destruct (IH (Z.max c (a_end a + PAGE_SIZE))) as (I1 & I2 & I3); try done.
    + unfold PAGE_SIZE, IMAGE_START in *. lia.
    + destruct (Z.max_spec c (a_end a + PAGE_SIZE)) as [[_ ->]|[_ ->]]; [|done].
      by apply aligned_add.
    + intros s' a' Hin. apply Hm. by right.
    + split; [lia|]. split; [done|]. intros s' a'. rewrite elem_of_cons.
      intros [[= -> ->]|Hin]; [left; lia|eauto].
  - assert (a_end a +! PAGE_SIZE = a_end a + PAGE_SIZE) as ->.
    { apply wrap_small. unfold in_width, PAGE_SIZE, IMAGE_START in *. lia. }
    destruct (IH (Z.max c (a_end a + PAGE_SIZE))) as (I1 & I2 & I3); try done.
    + unfold PAGE_SIZE, IMAGE_START in *. lia.
    + destruct (Z.max_spec c (a_end a + PAGE_SIZE)) as [[_ ->]|[_ ->]]; [|done].
      by apply aligned_add.
    + intros s' a' Hin. apply Hm. by right.
    + split; [lia|]. split; [done|]. intros s' a'. rewrite elem_of_cons.
      intros [[= -> ->]|Hin]; [left; lia|eauto].
Qed.

(** No area lies across [MAP_BASE]. *)
Definition unstraddled l : Prop :=
  ∀ s a, bt_get l s = Some a → s < MAP_BASE → a_end a ≤ MAP_BASE.

(** Its check on the list of areas. *)
Lemma unstraddled_list l :
  forallb (λ e, (MAP_BASE <=? e.1) || (a_end e.2 <=? MAP_BASE)) l = true → unstraddled l.
Proof.
  intros H s a. induction l as [|[k c] l IH]; [done|]. simpl in *. apply andb_true_iff in H as [H1 H2].
  destruct (k =? s) eqn:E; [|by apply IH]. apply Z.eqb_eq in E as ->. intros [= ->] Hs. reflect_bool. lia.
Qed.

Lemma unstraddled_remove l k : unstraddled l → unstraddled (bt_remove k l).
Proof.
  intros U s a. rewrite bt_get_remove. destruct (k =? s); [done|]. apply U.
Qed.

(** The range found is free, with an unmapped page on each side, when no area lies across
    [MAP_BASE]: an area that starts below it is not looked at. *)
Lemma find_free_spec l len va :
  areas_ok l → unstraddled l → 0 < len → aligned len → find_free l len = Ok va →
  aligned va ∧ MAP_BASE < va ∧ va + len ≤ map_end ∧
  free_range l (va - PAGE_SIZE) (va + len + PAGE_SIZE).
Proof.
  intros A B Hlen Alen. unfold find_free.
  destruct (first_fit_spec l len (MAP_BASE + PAGE_SIZE) (bt_from MAP_BASE l)) as (F1 & F2 & F3);
    try done; try lia.
  { apply sorted_filter, A. }
  { intros s a Hin. apply elem_of_bt in Hin; [|apply sorted_filter, A].
    unfold bt_from in Hin. rewrite bt_get_filter in Hin by apply A.
    destruct (bt_get l s) as [c|] eqn:G; [|done]. simpl in Hin.
    by destruct (MAP_BASE <=? s); [injection Hin as ->|]. }
  set (r := first_fit _ _ _) in *. cbv zeta.
  destruct (checked_add 64 r len) as [e|] eqn:E; [|done].
  apply checked_add_Some in E as [-> _]. case_if; [done|]. intros [= <-].
  unfold PAGE_SIZE in *. change MAP_BASE with 0x100000000000 in *. split_and!; [done|lia|lia|].
  intros s a G. destruct (Z.leb_spec 0x100000000000 s).
  - destruct (F3 s a) as [?|?]; [|lia|lia].
    apply elem_of_bt; [apply sorted_filter, A|]. unfold bt_from.
    rewrite bt_get_filter, G by apply A. simpl. by destruct (Z.leb_spec 0x100000000000 s); [|lia].
  - specialize (B _ _ G). change MAP_BASE with 0x100000000000 in B. left. lia.
Qed.

Lemma free_range_sub l va end_ va' end' :
  free_range l va' end' → va' ≤ va → end_ ≤ end' → free_range l va end_.
Proof. intros F H1 H2 s a G. destruct (F _ _ G); [left|right]; lia. Qed.

(** ** The areas a range touches *)

Lemma touching_rev va (m : BTreeMap Area) :
  (∀ s a, (s, a) ∈ m → s < a_end a) →
  StronglySorted (λ x y, a_end x.2 ≤ y.1) m →
  touching va (rev m) = rev (List.filter (λ e, va <? a_end e.2) m).
Proof.
  induction m as [|[s a] m IH] using rev_ind; [done|]. intros Hlen Hs.
  rewrite rev_app_distr, List.filter_app, rev_app_distr. simpl.
  assert (StronglySorted (λ x y, a_end x.2 ≤ y.1) m ∧ ∀ s' a', (s', a') ∈ m → a_end a' ≤ s)
    as [Hs' Hend].
  { clear -Hs. induction m as [|[s' a'] m IH].
    - split; [constructor|]. intros ? ? []%elem_of_nil.
    - simpl in Hs. apply StronglySorted_inv in Hs as [Hs HF].
      rewrite Forall_app, Forall_singleton in HF. destruct HF as [HF Hl]. simpl in Hl.
      destruct (IH Hs) as [I1 I2]. split; [by constructor|].
      intros s'' a''. rewrite elem_of_cons. intros [[= -> ->]|]; [done|eauto]. }
  destruct (Z.ltb_spec va (a_end a)); simpl.
  - rewrite IH; [done| |done]. intros s' a' Hin. apply Hlen. apply elem_of_app. by left.
  - assert (List.filter (λ e : Z * Area, va <? a_end e.2) m = []) as ->; [|done].
    destruct (List.filter _ m) as [|[s' a'] r] eqn:E; [done|].
    assert ((s', a') ∈ List.filter (λ e : Z * Area, va <? a_end e.2) m) as Hin
      by (rewrite E; by left).
    apply list_elem_of_In, filter_In in Hin as [Hin Hv%Z.ltb_lt]. simpl in Hv.
    apply list_elem_of_In, Hend in Hin.
    pose proof (Hlen s a ltac:(apply elem_of_app; right; by left)). lia.
Qed.

Lemma areas_chain l : areas_ok l → StronglySorted (λ x y, a_end x.2 ≤ y.1) l.
Proof.
  intros A. pose proof (as_sorted _ A) as Hs.
  assert (∀ s a, (s, a) ∈ l → bt_get l s = Some a) as Hg by (intros; by apply elem_of_bt).
  assert (∀ m, sorted m → (∀ s a, (s, a) ∈ m → bt_get l s = Some a) →
    StronglySorted (λ x y, a_end x.2 ≤ y.1) m) as Hm; [|by apply Hm].
  induction m as [|[s a] m IH]; intros Hsm Hgm; [constructor|].
  apply sorted_cons_iff in Hsm as [Hsm Hlt]. constructor.
  - apply IH; [done|]. intros s' a' Hin. apply Hgm. by right.
  - apply Forall_forall. intros [s' a'] Hin. simpl.
    apply (as_apart _ A s a s' a'); [by apply Hgm; left|by apply Hgm; right|by eapply Hlt].
Qed.

Lemma elem_of_touched_by l va end_ s a :
  areas_ok l → (s, a) ∈ touched_by l va end_ ↔ bt_get l s = Some a ∧ s < end_ ∧ va < a_end a.
Proof.
  intros A. unfold touched_by, bt_below.
  pose proof (filter_areas l (λ e, e.1 <? end_) A) as A'.
  rewrite touching_rev; [|intros ? ? Hin; apply elem_of_bt in Hin; [|apply A'];
    apply (as_area _ A' _ _ Hin)|by apply areas_chain].
  rewrite list_elem_of_In, <- in_rev, filter_In, <- list_elem_of_In, elem_of_bt by apply A'.
  rewrite bt_get_filter by apply A. simpl. rewrite Z.ltb_lt.
  destruct (bt_get l s) as [c|]; simpl; [|naive_solver].
  destruct (Z.ltb_spec s end_); naive_solver lia.
Qed.

(** No area of the data plane is touched. *)
Lemma touches_plane_false l va end_ :
  areas_ok l → touches_plane l va end_ = false →
  ∀ s a, bt_get l s = Some a → s < end_ → va < a_end a → kind a ≠ Plane.
Proof.
  intros A. unfold touches_plane. rewrite <- not_true_iff_false, existsb_exists.
  intros H s a G H1 H2 K. destruct H. exists (s, a). split; [|by apply bool_decide_true].
  apply list_elem_of_In, elem_of_touched_by; [done|]. done.
Qed.

(** ** Covered ranges *)

Lemma check_cover_spec va judge c (m : BTreeMap Area) c' :
  check_cover va judge c m = Ok c' →
  (∀ p, c ≤ p < c' → ∃ s a, (s, a) ∈ m ∧ s ≤ p < a_end a ∧ judge a = Ok tt) ∧
  (∀ s a, (s, a) ∈ m → va < a_end a → judge a = Ok tt).
Proof.
  revert c. induction m as [|[s a] m IH]; intros c; simpl.
  { intros [= <-]. split; [lia|]. intros ? ? []%elem_of_nil. }
  destruct (Z.leb_spec (a_end a) va).
  { intros [H1 H2]%IH. split.
    - intros p Hp. destruct (H1 p Hp) as (s' & a' & Hin & ?). exists s', a'.
      rewrite elem_of_cons. auto.
    - intros s' a'. rewrite elem_of_cons. intros [[= -> ->]|]; [lia|eauto]. }
  destruct (Z.ltb_spec c s); [done|]. unfold mbind, result_bind.
  destruct (judge a) as [[]|] eqn:J; [|done]. intros [H1 H2]%IH. split.
  - intros p Hp. destruct (Z.ltb_spec p (a_end a)).
    + exists s, a. rewrite elem_of_cons. split; [by left|]. split; [lia|done].
    + destruct (H1 p) as (s' & a' & Hin & ?); [lia|]. exists s', a'. rewrite elem_of_cons. auto.
  - intros s' a'. rewrite elem_of_cons. intros [[= -> ->]|]; [done|eauto].
Qed.

Lemma covered l va end_ judge c :
  areas_ok l → check_cover va judge va (bt_below end_ l) = Ok c → end_ ≤ c →
  (∀ p, va ≤ p < end_ → ∃ s a, bt_get l s = Some a ∧ s ≤ p < a_end a ∧ judge a = Ok tt) ∧
  (∀ s a, bt_get l s = Some a → s < end_ → va < a_end a → judge a = Ok tt).
Proof.
  intros A [H1 H2]%check_cover_spec Hc.
  assert (∀ s a, (s, a) ∈ bt_below end_ l ↔ bt_get l s = Some a ∧ s < end_) as HG.
  { intros s a. rewrite elem_of_bt by apply sorted_filter, A. unfold bt_below.
    rewrite bt_get_filter by apply A. simpl. destruct (bt_get l s) as [x|]; simpl; [|naive_solver].
    destruct (Z.ltb_spec s end_); naive_solver lia. }
  split.
  - intros p Hp. destruct (H1 p ltac:(lia)) as (s & a & Hin & ?). apply HG in Hin as [? _]. eauto.
  - intros s a G Hs Ha. apply (H2 s a); [by apply HG|done].
Qed.

End areas.
