(* ===== verification/VmEntries.v ===== *)
(** * The page table of an address space

    What the cursors do to the entries: the entries an area's pages get, those an unmap
    takes, and that an entry always maps the page the areas say, with its protection. *)

From S2P Require Import Prelude Abi Quota Account BTree Vm VmAreas.
Section entries.
Context {O : Ostd} {OL : OstdLaws}.
Implicit Types (l : BTreeMap Area) (a : Area) (b : Backing) (v : VmSpace) (zs : BTreeMap UFrame).

(** ** Unmapping *)

Lemma query_unmap_ptes va end_ v p :
  aligned va → aligned end_ → 0 ≤ va < end_ → end_ ≤ map_end →
  cursor_query (unmap_ptes va (end_ -! va) v) p =
  if (va <=? p) && (p <? end_) then None else cursor_query v p.
Proof.
  intros Av Ae Hlt Htop. destruct map_end_bounds as [_ Hb].
  assert (end_ -! va = end_ - va) as -> by (apply wrap_small; unfold in_width; lia).
  unfold unmap_ptes. case_if; [lia|].
  assert (va +! (end_ - va) = end_) as ->.
  { unfold wadd. replace (va + (end_ - va)) with end_ by lia. apply wrap_small. unfold in_width. lia. }
  rewrite cursor_mut_ok by done. rewrite query_unmap.
  by replace (va + (end_ - va)) with end_ by lia.
Qed.

(** Whatever is unmapped, what is left was there. *)
Lemma query_unmap_left va len v p it :
  cursor_query (unmap_ptes va len v) p = Some it → cursor_query v p = Some it.
Proof.
  unfold unmap_ptes. case_if; [done|]. destruct (cursor_mut v va (va +! len)); [|done].
  rewrite query_unmap. by destruct (_ && _).
Qed.

Lemma query_reclaim_left dn rs v p it :
  cursor_query (reclaim_ranges dn rs v) p = Some it → cursor_query v p = Some it.
Proof.
  revert dn v. induction rs as [|[[lo hi]|] rs IH]; intros dn v; simpl; [done| |by apply IH].
  destruct (match dn with Some _ => _ | None => _ end); [by apply IH|].
  intros H%IH. by apply query_unmap_left in H.
Qed.

(** A reclaim takes nothing but what its ranges hold. *)
Lemma query_reclaim_kept dn rs v p it :
  cursor_query v p = Some it →
  (∀ lo hi, Some (lo, hi) ∈ rs → ¬ (lo ≤ p < lo + (hi -! lo))) →
  cursor_query (reclaim_ranges dn rs v) p = Some it.
Proof.
  revert dn v. induction rs as [|[[lo hi]|] rs IH]; intros dn v H Hr; simpl; [done| |].
  - assert (∀ lo hi, Some (lo, hi) ∈ rs → ¬ (lo ≤ p < lo + (hi -! lo))) as Hr'.
    { intros lo' hi' Hin. apply Hr. by right. }
    destruct (match dn with Some _ => _ | None => _ end); [by apply IH|].
    apply IH; [|done]. unfold unmap_ptes. case_if; [done|].
    destruct (cursor_mut v lo (lo +! (hi -! lo))); [|done]. rewrite query_unmap.
    specialize (Hr lo hi ltac:(by left)).
    destruct (Z.leb_spec lo p), (Z.ltb_spec p (lo + (hi -! lo))); simpl; (done || lia).
  - apply IH; [done|]. intros lo hi Hin. apply Hr. by right.
Qed.

(** ** Mapping *)

Lemma query_map_frames fs va fl v p :
  aligned va → aligned p →
  cursor_query (map_frames va fl fs v) p =
  match (if va <=? p then fs !! Z.to_nat ((p - va) / PAGE_SIZE) else None) with
  | Some f => Some (Ram f fl)
  | None => cursor_query v p
  end.
Proof.
  revert va v. induction fs as [|f fs IH]; intros va v Av Ap; simpl.
  { rewrite lookup_nil. by destruct (va <=? p). }
  rewrite IH by (done || by apply aligned_add). rewrite query_map.
  destruct (Z.leb_spec va p), (Z.leb_spec (va + PAGE_SIZE) p); try (unfold PAGE_SIZE in *; lia).
  - assert (Z.to_nat ((p - va) / PAGE_SIZE) = S (Z.to_nat ((p - (va + PAGE_SIZE)) / PAGE_SIZE)))
      as ->.
    { pose proof (pages_between va p Av Ap).
      pose proof (pages_between (va + PAGE_SIZE) p ltac:(by apply aligned_add) Ap).
      unfold PAGE_SIZE in *. lia. }
    simpl. destruct (fs !! _); [done|]. destruct (Z.eqb_spec p va); [|done].
    unfold PAGE_SIZE in *. lia.
  - assert (p = va) as ->.
    { destruct (decide (p = va)); [done|].
      pose proof (aligned_next va p Av Ap ltac:(lia)). lia. }
    rewrite Z.eqb_refl, Z.sub_diag. done.
  - by destruct (Z.eqb_spec p va); [lia|].
Qed.

Lemma query_map_zero lo hi fl zs v :
  sorted zs → (∀ p f, bt_get zs p = Some f → lo ≤ p < hi ∧ aligned p) →
  (map_zero lo hi fl zs v).1 = Ok tt ∧
  ∀ p, cursor_query (map_zero lo hi fl zs v).2 p =
    match bt_get zs p with Some f => Some (Ram f fl) | None => cursor_query v p end.
Proof.
  revert v. induction zs as [|[q f] zs IH]; intros v Hs Hz; simpl; [done|].
  apply sorted_cons_iff in Hs as [Hs Hlt].
  destruct (Hz q f) as [Hq Aq]; [simpl; by rewrite Z.eqb_refl|].
  rewrite cursor_jump_ok by done.
  destruct (IH (cursor_map v q f fl) Hs) as [I1 I2].
  { intros p g G. apply (Hz p g). simpl. destruct (Z.eqb_spec q p) as [<-|]; [|done].
    apply bt_get_elem, Hlt in G. lia. }
  split; [done|]. intros p. rewrite I2, query_map.
  destruct (Z.eqb_spec q p) as [E|], (Z.eqb_spec p q); try done; try lia.
  destruct (bt_get zs p) eqn:G; [|done]. apply bt_get_elem, Hlt in G. lia.
Qed.

(** ** What an entry may map *)

(** The pages of ranges being discarded. *)
Definition pending (ps : list (Z * Z)) (p : Z) : Prop := ∃ lo hi, (lo, hi) ∈ ps ∧ lo ≤ p < hi.

Definition item_ok (ps : list (Z * Z)) zs (p pr : Z) b (it : Item UFrame IoMem) : Prop :=
  match it, b with
  | Ram f fl, Object m first _ => fl = page_flags pr ∧ frames m !! Z.to_nat first = Some f
  | Ram f fl, Zero => fl = page_flags pr ∧ (bt_get zs p = Some f ∨ pending ps p)
  | Mmio d fl off, Device dm o _ => fl = page_flags pr ∧ d = io dm ∧ off = o
  | _, _ => False
  end.

Definition entries_ok (ps : list (Z * Z)) l zs v : Prop :=
  ∀ p it, aligned p → cursor_query v p = Some it →
  ∃ k pr b, view l p = Some (k, pr, b) ∧ Z.land pr map.PROTECTION ≠ 0 ∧ item_ok ps zs p pr b it.

(** The entries [fill_ptes] gives an area. *)
Lemma fill_ptes_spec ps zs s a v :
  area_ok s a → sorted zs → (∀ p f, bt_get zs p = Some f → aligned p) →
  (fill_ptes zs s a s (a_end a) v).1 = Ok tt ∧
  ∀ p, aligned p →
    let q := cursor_query (fill_ptes zs s a s (a_end a) v).2 p in
    (¬ (s ≤ p < a_end a) → q = cursor_query v p) ∧
    (s ≤ p < a_end a → q = cursor_query v p ∨
       (Z.land (prot a) map.PROTECTION ≠ 0 ∧
        ∃ it, q = Some it ∧
          item_ok ps zs p (prot a) (advanced (backing a) ((p - s) / PAGE_SIZE)) it)).
Proof.
  intros [H1 H2 H3 H4 H5 H7 H8] Hzs Az. unfold fill_ptes.
  destruct (Z.eqb_spec (Z.land (prot a) map.PROTECTION) 0) as [|Hp]; simpl.
  { split; [done|]. intros p _. split; [done|]. by left. }
  case_if; [lia|]. unfold IMAGE_START in *. rewrite cursor_mut_ok by (done || lia). simpl.
  destruct map_end_bounds as [_ Hb].
  assert (a_end a -! s = a_end a - s) as -> by (apply wrap_small; unfold in_width; lia).
  assert (s -! s = 0) as -> by (unfold wsub; by rewrite Z.sub_diag).
  destruct (backing a) as [m first w| |d off w] eqn:Eb.
  - change (0 / PAGE_SIZE) with 0. destruct H8 as (F1 & F2 & F3).
    pose proof (pages_between s (a_end a) H1 H2) as E.
    assert (first +! 0 = first) as ->.
    { unfold wadd. rewrite Z.add_0_r. apply wrap_small. unfold in_width, PAGE_SIZE in *. lia. }
    assert (first +! (a_end a - s) / PAGE_SIZE = first + (a_end a - s) / PAGE_SIZE) as ->.
    { apply wrap_small. unfold in_width, PAGE_SIZE in *. lia. }
    destruct (get_range _ _ _) as [fs|] eqn:G.
    2: { apply get_range_None in G. unfold PAGE_SIZE in *. lia. }
    pose proof G as G'. apply get_range_length in G'. apply get_range_Some in G as (_ & _ & G).
    split; [done|]. intros p Ap. simpl. rewrite query_map_frames by done.
    pose proof (pages_between s p H1 Ap) as Es. split.
    + intros Hn. destruct (Z.leb_spec s p); [|done].
      rewrite (lookup_ge_None_2 fs); [done|]. unfold zlen, PAGE_SIZE in *. lia.
    + intros Hi. right. split; [done|]. destruct (Z.leb_spec s p); [|lia].
      destruct (fs !! Z.to_nat ((p - s) / PAGE_SIZE)) as [f|] eqn:Ef.
      2: { apply lookup_ge_None in Ef. unfold zlen, PAGE_SIZE in *. lia. }
      eexists. split; [done|]. simpl. split; [done|].
      rewrite G, lookup_take_Some, lookup_drop in Ef. destruct Ef as [Ef _]. rewrite <- Ef.
      f_equal. assert (first +! (p - s) / PAGE_SIZE = first + (p - s) / PAGE_SIZE) as ->.
      { apply wrap_small. unfold in_width, PAGE_SIZE in *. lia. }
      unfold PAGE_SIZE in *. lia.
  - destruct (query_map_zero s (a_end a) (page_flags (prot a)) (bt_range s (a_end a) zs) v)
      as [Q1 Q2].
    { by apply sorted_filter. }
    { intros p f. unfold bt_range. rewrite bt_get_filter by done.
      destruct (bt_get zs p) as [g|] eqn:G; [|done]. simpl.
      destruct (Z.leb_spec s p), (Z.ltb_spec p (a_end a)); try done. intros _. eauto. }
    split; [done|]. intros p Ap. simpl. rewrite Q2. unfold bt_range. rewrite bt_get_filter by done.
    destruct (bt_get zs p) as [f|] eqn:G; simpl; [|by split; [|left]].
    destruct (Z.leb_spec s p), (Z.ltb_spec p (a_end a)); simpl; (split; [try done; try lia|]);
      try (by left).
    intros _. right. split; [done|]. eexists. split; [done|]. split; [done|by left].
  - split; [done|]. intros p Ap. simpl. rewrite query_map_iomem by done.
    destruct H8 as (F1 & F2). pose proof (pages_between s p H1 Ap) as Es.
    pose proof (pages_between s (a_end a) H1 H2) as E.
    replace (s + (a_end a - s)) with (a_end a) by lia.
    destruct (Z.leb_spec s p), (Z.ltb_spec p (a_end a)); simpl; (split; [try done; try lia|]);
      try (by left).
    intros _. right. split; [done|]. eexists. split; [done|]. split; [done|]. split; [done|].
    assert ((p - s) / PAGE_SIZE *! PAGE_SIZE = p - s) as ->.
    { rewrite <- Es at 2. apply wrap_small. unfold in_width, PAGE_SIZE in *. lia. }
    assert (off +! 0 = off) as ->.
    { unfold wadd. rewrite Z.add_0_r. apply wrap_small. unfold in_width, PAGE_SIZE in *. lia. }
    symmetry. apply wrap_small. unfold in_width, PAGE_SIZE in *. lia.
Qed.

End entries.
