(* ===== verification/VmInv.v ===== *)
(** * What every call on an address space keeps

    A space is sound when its areas are apart, its zero pages lie in areas of zero pages,
    every entry of its page table maps the page the areas say with its protection, the
    tables counted are those its areas need, and what is charged for it is what it costs.
    Every call keeps it so, and does to the pages what its name says. *)

From S2P Require Import Prelude Abi Quota Account BTree Vm VmAreas VmEntries.
(** The fields of a machine and of a space that was updated. *)
Ltac fields :=
  cbn [space set_space set_world set_hw set_vm set_areas set_zero set_brk_ set_tables set_copied
       vm areas zero brk_ tables_ charged fixed_charge copied world hw].

Section inv.
Context {O : Ostd} {OL : OstdLaws}.
Implicit Types (l : BTreeMap Area) (a : Area) (b : Backing) (x : Space) (s : Machine)
  (v : VmSpace) (zs : BTreeMap UFrame) (w : World).

(** The machine's limit and the carves in flight. *)
Variables (total : Z) (carves : list (id * list byte * Z * id)).

(** ** Charges *)

Definition paid w (c : id) (n : Z) : Prop :=
  Account.inv total w carves ∧ ∃ ch, charges w !! c = Some ch ∧ bytes ch = n.

Lemma paid_grow w c n k r w' :
  paid w c n → u64 k → charge_grow c k w = (r, w') →
  (r = Ok tt ∧ paid w' c (n + k)) ∨ ((∃ e, r = Err e) ∧ w' = w).
Proof.
  intros [I (ch & Hc & <-)] Hk E. pose proof (inv_charge_grow _ _ _ _ _ _ _ I ltac:(eauto) Hk E) as I'.
  unfold charge_grow in E. rewrite Hc in E.
  destruct (inv_charge _ _ _ I _ _ Hc) as [[a Ha] Hb].
  destruct (inv_account _ _ _ I _ _ Ha) as (Ok1 & _ & _ & _).
  pose proof (inv_bytes _ _ _ _ _ _ I Hc Ha) as Hle.
  destruct (charge_cases _ k a w Ha Ok1 Hk) as [(l & E1 & O' & Hu & Hl & Hr)|[E1 _]];
    rewrite E1 in E; injection E as <- <-.
  - left. split; [done|]. split; [done|]. simpl. rewrite lookup_insert_eq. eexists.
    split; [done|]. simpl. apply wrap_small. destruct O' as [[] ? ? ? ?], Hk.
    unfold in_width in *. lia.
  - right. eauto.
Qed.

Lemma paid_settle w c n k : paid w c n → 0 ≤ k ≤ n → paid (Account.settle c k w) c k.
Proof.
  intros [I (ch & Hc & <-)] Hk. split; [by eapply inv_settle|].
  unfold Account.settle. rewrite Hc. case_if; [lia|]. simpl. rewrite lookup_insert_eq. eauto.
Qed.

Lemma charge_more_spec n k s r s' :
  paid (world s) (charged (space s)) k → u64 n → charge_more n s = (r, s') →
  (r = Ok tt ∧ ∃ w, s' = set_world w s ∧ paid w (charged (space s)) (k + n)) ∨
  ((∃ e, r = Err e) ∧ s' = s).
Proof.
  intros Hp Hn. unfold charge_more.
  destruct (charge_grow (charged (space s)) n (world s)) as [r1 w] eqn:E.
  intros [= -> <-]. destruct (paid_grow _ _ _ _ _ _ Hp Hn E) as [[-> H]|[H ->]].
  - left. eauto.
  - right. split; [done|]. by destruct s.
Qed.

(** ** What a space costs *)

Definition zero_ok l zs : Prop :=
  sorted zs ∧ ∀ p f, bt_get zs p = Some f → aligned p ∧ ∃ k pr, view l p = Some (k, pr, Zero).

Lemma view_user l p e : areas_ok l → view l p = Some e → 0 ≤ p < 2 ^ 47.
Proof.
  intros A (s & a & G & Hp & _)%view_Some; [|done].
  destruct (as_area _ A _ _ G). destruct map_end_bounds. unfold IMAGE_START in *. lia.
Qed.

(** Aligned addresses below the top of user space are at most [2 ^ 35]. *)
Lemma aligned_count (m : list Z) :
  NoDup m → (∀ k, k ∈ m → aligned k ∧ 0 ≤ k < 2 ^ 47) → zlen m ≤ 2 ^ 35.
Proof.
  intros Hd Hb.
  assert (zlen ((λ k, k / PAGE_SIZE) <$> m) ≤ Z.max 0 (2 ^ 35)) as H.
  { apply NoDup_Z_length.
    - apply NoDup_fmap_2_strong; [|done]. intros j k Hj Hk E.
      destruct (Hb _ Hj) as [[i ->]%aligned_mul _], (Hb _ Hk) as [[i' ->]%aligned_mul _].
      rewrite !Z.div_mul in E by done. congruence.
    - intros q (k & -> & Hk)%list_elem_of_fmap. destruct (Hb _ Hk) as [[i ->]%aligned_mul Hi].
      rewrite Z.div_mul by done. unfold PAGE_SIZE in *. lia. }
  unfold zlen in *. rewrite length_fmap in H. lia.
Qed.

Lemma areas_count l : areas_ok l → zlen l ≤ 2 ^ 35.
Proof.
  intros A. unfold zlen. rewrite <- (length_fmap fst l). apply aligned_count.
  - apply sorted_NoDup, A.
  - intros k ([j a] & -> & Hin)%list_elem_of_fmap. apply elem_of_bt in Hin; [|apply A].
    destruct (as_area _ A _ _ Hin). destruct map_end_bounds. unfold IMAGE_START in *. simpl.
    split; [done|lia].
Qed.

Lemma zero_count l zs : areas_ok l → zero_ok l zs → zlen zs ≤ 2 ^ 35.
Proof.
  intros A [Hs Hz]. unfold zlen. rewrite <- (length_fmap fst zs). apply aligned_count.
  - by apply sorted_NoDup.
  - intros k ([j f] & -> & Hin)%list_elem_of_fmap. apply elem_of_bt in Hin; [|done].
    destruct (Hz _ _ Hin) as (Aj & kd & pr & V). split; [done|]. by eapply view_user.
Qed.

Lemma level_bound size l :
  areas_ok l → 2 ^ 21 ≤ size →
  Z.of_nat (base.size (touched size (ranges l) ∖ {[ (map_end - 1) / size ]})) ≤ 2 ^ 26.
Proof.
  intros A Hsize. destruct map_end_bounds as [_ Hb].
  assert (touched size (ranges l) ∖ {[ (map_end - 1) / size ]} ⊆ list_to_set (seqZ 0 (2 ^ 26)))
    as Hsub.
  { intros r. rewrite elem_of_difference, elem_of_list_to_set, elem_of_seqZ.
    intros [(s & a & G & Hr)%touched_ranges _]; [|done|lia].
    destruct (as_area _ A _ _ G). unfold IMAGE_START in *.
    assert (0 ≤ s / size) by (apply Z.div_pos; lia).
    assert ((a_end a - 1) / size < 2 ^ 26); [|lia].
    apply Z.div_lt_upper_bound; [lia|]. nia. }
  apply subseteq_size in Hsub. rewrite size_list_to_set in Hsub by apply NoDup_seqZ.
  rewrite length_seqZ in Hsub. lia.
Qed.

Lemma full_count_bound l : areas_ok l → 0 ≤ full_count map_end (ranges l) ≤ 3 * 2 ^ 26.
Proof.
  intros A. unfold full_count, charge.TABLE_REGIONS. cbn [fmap list_fmap sumZ foldr].
  pose proof (level_bound (Z.shiftl 1 21) l A ltac:(done)).
  pose proof (level_bound (Z.shiftl 1 30) l A ltac:(done)).
  pose proof (level_bound (Z.shiftl 1 39) l A ltac:(done)). lia.
Qed.

(** The sum [cost] is, when nothing wraps. *)
Definition price (areas zeros tables : Z) : Z := areas * 96 + zeros * 4128 + tables * 4096.

Lemma cost_price x :
  0 ≤ zlen (areas x) ≤ 2 ^ 36 → 0 ≤ zlen (zero x) ≤ 2 ^ 36 → 0 ≤ tables_ x ≤ 2 ^ 36 →
  cost x = price (zlen (areas x)) (zlen (zero x)) (tables_ x).
Proof.
  intros H1 H2 H3. unfold cost, price.
  change charge.AREA with 96. change charge.ZERO_PAGE with 4128. change charge.PAGE with 4096.
  assert (∀ n k, 0 ≤ n ≤ 2 ^ 36 → 0 ≤ k ≤ 4128 → n *! k = n * k) as M.
  { intros n k Hn Hk. apply wrap_small. unfold in_width. nia. }
  rewrite !M by lia. unfold wadd. rewrite (wrap_small 64 (zlen (areas x) * 96 + _)).
  - apply wrap_small. unfold in_width. lia.
  - unfold in_width. lia.
Qed.

(** ** Sound spaces *)

(** [ps] are the ranges whose entries a discard is yet to take. *)
Record space_ok (ps : list (Z * Z)) s : Prop := {
  so_areas : areas_ok (areas (space s));
  so_zero : zero_ok (areas (space s)) (zero (space s));
  so_entries : entries_ok ps (areas (space s)) (zero (space s)) (vm (space s));
  so_tables : tables_ (space s) = full_count map_end (ranges (areas (space s)));
  so_paid : paid (world s) (charged (space s)) (cost (space s));
}.

Lemma space_cost ps s :
  space_ok ps s →
  cost (space s) = price (zlen (areas (space s))) (zlen (zero (space s))) (tables_ (space s)).
Proof.
  intros I. pose proof (areas_count _ (so_areas _ _ I)).
  pose proof (zero_count _ _ (so_areas _ _ I) (so_zero _ _ I)).
  pose proof (full_count_bound _ (so_areas _ _ I)) as F. rewrite <- (so_tables _ _ I) in F.
  pose proof (zlen_nonneg (areas (space s))). pose proof (zlen_nonneg (zero (space s))).
  apply cost_price; lia.
Qed.

(** A settled space is one whose price was charged. *)
Lemma settle_sound ps w h x n :
  areas_ok (areas x) → zero_ok (areas x) (zero x) → entries_ok ps (areas x) (zero x) (vm x) →
  tables_ x = full_count map_end (ranges (areas x)) →
  paid w (charged x) n → price (zlen (areas x)) (zlen (zero x)) (tables_ x) ≤ n →
  space_ok ps (settle_space (mk_Machine w h x)).
Proof.
  intros A Z E T P L. pose proof (areas_count _ A). pose proof (zero_count _ _ A Z).
  pose proof (full_count_bound _ A) as F. rewrite <- T in F.
  pose proof (zlen_nonneg (areas x)). pose proof (zlen_nonneg (zero x)).
  assert (cost x = price (zlen (areas x)) (zlen (zero x)) (tables_ x)) as C by (apply cost_price; lia).
  split; simpl; try done. unfold settle_space. simpl. apply (paid_settle _ _ n); [done|].
  rewrite C. unfold price in *. lia.
Qed.

(** ** Taking a range out *)

(** The tables the areas of a range need besides the others'. *)
Lemma range_tables l va end_ :
  areas_ok l → IMAGE_START ≤ va < end_ → end_ ≤ map_end → edge l va → edge l end_ →
  let kept := outside l va end_ in
  let nb := neighbours kept va end_ in
  let t := tables (ranges (bt_range va end_ l)) nb.1 nb.2 map_end in
  full_count map_end (ranges l) = full_count map_end (ranges kept) + Quota.pages t ∧
  0 ≤ Quota.pages t ∧
  (∀ lo hi, Some (lo, hi) ∈ reclaim t → (0 ≤ lo < hi ∧ hi ≤ map_end) ∧
     ∀ k a, bt_get kept k = Some a → a_end a ≤ lo ∨ hi ≤ k).
Proof.
  intros A Hlt Htop E1 E2 kept nb t. unfold IMAGE_START in *. destruct map_end_bounds as [_ Hb].
  pose proof (filter_areas l (λ e, negb ((va <=? e.1) && (e.1 <? end_))) A) as Ak.
  fold (outside l va end_) in Ak. fold kept in Ak.
  pose proof (filter_areas l (λ e, (va <=? e.1) && (e.1 <? end_)) A) as Ap.
  fold (bt_range va end_ l) in Ap.
  assert (∀ k a, bt_get (bt_range va end_ l) k = Some a ↔ bt_get l k = Some a ∧ va ≤ k < end_)
    as Hp.
  { intros s a. unfold bt_range. rewrite bt_get_filter by apply A.
    destruct (bt_get l s) as [c|]; simpl; [|naive_solver].
    destruct (Z.leb_spec va s), (Z.ltb_spec s end_); simpl; naive_solver lia. }
  pose proof (outside_free l va end_ A ltac:(lia) E1 E2) as F. fold kept in F.
  pose proof (neighbours_around kept va end_ Ak ltac:(lia) F) as Har. fold nb in Har.
  assert (pieces_in va end_ (ranges (bt_range va end_ l))) as Hpi.
  { split.
    - unfold ranges. pose proof (as_sorted _ Ap) as Hs. clear -Hs.
      induction Hs as [|e m Hs IH HF]; [constructor|]. simpl. constructor; [done|].
      apply Forall_fmap. eapply Forall_impl; [done|]. simpl. intros e' He'. lia.
    - intros s e (a & G & <-)%elem_of_ranges; [|apply Ap]. apply Hp in G as [G Hs].
      specialize (E2 _ _ G). pose proof (ao_len _ _ (as_area _ A _ _ G)). lia. }
  assert (0 ≤ va ≤ map_end) as H0 by lia. assert (0 < map_end ≤ 2 ^ 63) as H1 by lia.
  split; [|split].
  - unfold t. rewrite <- (tables_count (ranges kept) _ va end_ map_end nb.1 nb.2 H0 Htop H1 Hpi Har).
    apply full_count_ext. intros size Hsize. rewrite touched_app. apply set_eq. intros r.
    rewrite elem_of_union, !touched_ranges by done. split.
    + intros (s & a & G & Hr). destruct (decide (va ≤ s < end_)).
      * right. exists s, a. split; [by apply Hp|done].
      * left. exists s, a. split; [by apply outside_get; [apply A|]|done].
    + intros [(s & a & G & Hr)|(s & a & G & Hr)]; exists s, a; (split; [|done]).
      * by apply outside_get in G as [G _]; [|apply A].
      * by apply Hp in G as [G _].
  - by apply (tables_pages (ranges kept) _ va end_ map_end nb.1 nb.2 H0 Htop H1 Hpi Har).
  - intros lo hi Hin. split.
    + by apply (reclaim_range (ranges kept) _ va end_ map_end nb.1 nb.2 H0 Htop H1 Hpi Har).
    + intros s a G.
      apply (reclaim_free (ranges kept) _ va end_ map_end nb.1 nb.2 H0 Htop H1 Hpi Har lo hi s
        (a_end a) Hin). apply elem_of_ranges; [apply Ak|eauto].
Qed.

(** The zero pages left when those of a range are gone. *)
Record zeros_left (va end_ : Z) zs zs' : Prop := {
  zl_sorted : sorted zs';
  zl_get p f : bt_get zs' p = Some f ↔ bt_get zs p = Some f ∧ ¬ (va ≤ p < end_);
  zl_length : zlen zs' ≤ zlen zs;
}.

Lemma zlen_filter {A} (f : A → bool) (m : list A) : zlen (List.filter f m) ≤ zlen m.
Proof. unfold zlen. induction m as [|e m IH]; simpl; [lia|]. destruct (f e); simpl; lia. Qed.

Lemma zeros_outside va end_ zs :
  sorted zs →
  zeros_left va end_ zs (List.filter (λ e, negb ((va <=? e.1) && (e.1 <? end_))) zs).
Proof.
  intros Hs. split.
  - by apply sorted_filter.
  - intros p f. rewrite bt_get_filter by done. destruct (bt_get zs p) as [g|]; simpl; [|naive_solver].
    destruct (Z.leb_spec va p), (Z.ltb_spec p end_); simpl; naive_solver lia.
  - apply zlen_filter.
Qed.

(** The end of an unmap: tables counted off, the charge settled, the entries taken. *)
Definition finish_removal (pieces : list (Z * Z)) (va end_ : Z) s : Machine :=
  let '(freed, s) := free_tables pieces va end_ s in
  set_space (drop_entries va end_ freed (space s)) s.

Lemma finish_removal_eq pieces va end_ w h x :
  finish_removal pieces va end_ (mk_Machine w h x) =
  let nb := neighbours (areas x) va end_ in
  let t := tables pieces nb.1 nb.2 map_end in
  let x' := set_tables (tables_ x -! Quota.pages t) x in
  mk_Machine (Account.settle (charged x') (cost x') w) h (drop_entries va end_ t x').
Proof.
  unfold finish_removal, free_tables. cbn [space]. by destruct (neighbours (areas x) va end_).
Qed.

(** What is left of a space, page by page. *)
Definition pages_left (va end_ : Z) x x' : Prop :=
  ∀ p, aligned p →
    view (areas x') p = (if (va <=? p) && (p <? end_) then None else view (areas x) p) ∧
    cursor_query (vm x') p =
      (if (va <=? p) && (p <? end_) then None else cursor_query (vm x) p).

(** The entries left when a range and the tables it alone needed are unmapped. *)
Lemma dropped_query ps l zs kept va end_ t v :
  areas_ok kept → entries_ok ps l zs v →
  (∀ p, aligned p → ¬ (va ≤ p < end_) → view kept p = view l p) →
  aligned va → aligned end_ → 0 ≤ va < end_ → end_ ≤ map_end →
  (∀ lo hi, Some (lo, hi) ∈ reclaim t → (0 ≤ lo < hi ∧ hi ≤ map_end) ∧
     ∀ k a, bt_get kept k = Some a → a_end a ≤ lo ∨ hi ≤ k) →
  let v' := reclaim_tables t (unmap_ptes va (end_ -! va) v) in
  (∀ p it, aligned p → cursor_query v' p = Some it →
    ¬ (va ≤ p < end_) ∧ cursor_query v p = Some it) ∧
  (∀ p it, aligned p → ¬ (va ≤ p < end_) → cursor_query v p = Some it →
    cursor_query v' p = Some it).
Proof.
  intros Ak Ek V Av Ae Hlt Htop Hr v'. split.
  - intros p it Ap Hq. apply query_reclaim_left in Hq.
    rewrite query_unmap_ptes in Hq by (done || lia).
    destruct (Z.leb_spec va p), (Z.ltb_spec p end_); simpl in Hq; (done || (split; [lia|done])).
  - intros p it Ap Hn Hq. apply query_reclaim_kept.
    + rewrite query_unmap_ptes by (done || lia).
      destruct (Z.leb_spec va p), (Z.ltb_spec p end_); simpl; (done || lia).
    + intros lo hi Hin. assert (Some (lo, hi) ∈ reclaim t) as Hin'.
      { apply list_elem_of_In, in_rev. by apply list_elem_of_In. }
      destruct (Hr lo hi Hin') as [Hb Hk]. destruct map_end_bounds as [_ ?].
      assert (hi -! lo = hi - lo) as -> by (apply wrap_small; unfold in_width; lia).
      destruct (Ek p it Ap Hq) as (kd & pr & b & Hv & _). rewrite <- V in Hv by done.
      apply view_Some in Hv as (s & a & G & Hp & _); [|done]. destruct (Hk _ _ G); lia.
Qed.

Lemma removal_sound ps w h x l zs' bk va end_ n :
  areas_ok l → (∀ p, aligned p → view l p = view (areas x) p) → edge l va → edge l end_ →
  full_count map_end (ranges l) = tables_ x →
  zero_ok (areas x) (zero x) → entries_ok ps (areas x) (zero x) (vm x) →
  zeros_left va end_ (zero x) zs' →
  aligned va → aligned end_ → IMAGE_START ≤ va < end_ → end_ ≤ map_end →
  paid w (charged x) n → price (zlen l) (zlen (zero x)) (tables_ x) ≤ n →
  let s' := finish_removal (ranges (bt_range va end_ l)) va end_
    (mk_Machine w h (set_brk_ bk (set_zero zs' (set_areas (outside l va end_) x)))) in
  space_ok ps s' ∧ pages_left va end_ x (space s') ∧ zero (space s') = zs' ∧ hw s' = h.
Proof.
  intros A V E1 E2 T Zk Ek Zl Av Ae Hlt Htop P L s'.
  destruct (range_tables l va end_ A Hlt Htop E1 E2) as (C1 & C2 & C3).
  pose proof (filter_areas l (λ e, negb ((va <=? e.1) && (e.1 <? end_))) A) as Ak.
  fold (outside l va end_) in Ak.
  assert (∀ p, aligned p → view (outside l va end_) p =
    if (va <=? p) && (p <? end_) then None else view (areas x) p) as Vk.
  { intros p Ap. rewrite outside_view by (done || lia). by rewrite V. }
  set (nb := neighbours (outside l va end_) va end_) in *.
  set (t := tables (ranges (bt_range va end_ l)) nb.1 nb.2 map_end) in *.
  pose proof (full_count_bound _ A). pose proof (full_count_bound _ Ak).
  assert (tables_ x -! Quota.pages t = full_count map_end (ranges (outside l va end_))) as Et.
  { unfold wsub. rewrite <- T, C1. replace (_ + _ - _) with
      (full_count map_end (ranges (outside l va end_))) by lia.
    apply wrap_small. unfold in_width. lia. }
  assert (s' = mk_Machine
    (world (settle_space (mk_Machine w h (set_tables (full_count map_end (ranges (outside l va end_)))
       (set_brk_ bk (set_zero zs' (set_areas (outside l va end_) x))))))) h
    (drop_entries va end_ t (set_tables (full_count map_end (ranges (outside l va end_)))
       (set_brk_ bk (set_zero zs' (set_areas (outside l va end_) x)))))) as Es.
  { unfold s'. rewrite finish_removal_eq. cbv zeta.
    cbn [areas set_brk_ set_zero set_areas tables_]. fold nb. fold t. by rewrite Et. }
  clearbody s'. subst s'. unfold IMAGE_START in *.
  set (v' := reclaim_tables t (unmap_ptes va (end_ -! va) (vm x))).
  destruct (dropped_query ps (areas x) (zero x) (outside l va end_) va end_ t (vm x)) as [Q1 Q2];
    try done; try lia.
  { intros p Ap Hn. rewrite Vk by done.
    destruct (Z.leb_spec va p), (Z.ltb_spec p end_); simpl; (done || lia). }
  fold v' in Q1, Q2.
  split_and!; [|intros p Ap; split| |].
  - pose proof (settle_sound ps w h (set_tables (full_count map_end (ranges (outside l va end_)))
      (set_brk_ bk (set_zero zs' (set_areas (outside l va end_) (set_vm v' x))))) n) as [].
    + done.
    + simpl. split; [apply Zl|]. intros p f [G Hn]%(zl_get _ _ _ _ Zl).
      destruct (proj2 Zk _ _ G) as (Ap & kd & pr & Hv). split; [done|]. exists kd, pr.
      rewrite Vk by done. destruct (Z.leb_spec va p), (Z.ltb_spec p end_); simpl; (done || lia).
    + simpl. intros p it Ap [Hn Hq]%Q1; [|done]. destruct (Ek p it Ap Hq) as (kd & pr & b & Hv & Hpr & Hit).
      exists kd, pr, b. split; [|split; [done|]].
      * rewrite Vk by done. destruct (Z.leb_spec va p), (Z.ltb_spec p end_); simpl; (done || lia).
      * destruct it as [f fl|], b as [| |]; try done. destruct Hit as [-> [Hf|Hpe]].
        -- split; [done|]. left. by apply (zl_get _ _ _ _ Zl).
        -- split; [done|]. by right.
    + done.
    + done.
    + simpl. pose proof (zl_length _ _ _ _ Zl).
      pose proof (zlen_filter (λ e : Z * Area, negb ((va <=? e.1) && (e.1 <? end_))) l) as Hf.
      fold (outside l va end_) in Hf. unfold price in *. lia.
    + by split.
  - by apply Vk.
  - unfold drop_entries. cbn [space vm set_vm set_tables set_brk_ set_zero set_areas]. fold v'.
    destruct (cursor_query v' p) as [it|] eqn:Hq.
    + apply Q1 in Hq as [Hn Hq]; [|done]. rewrite Hq.
      destruct (Z.leb_spec va p), (Z.ltb_spec p end_); simpl; (done || lia).
    + destruct (decide (va ≤ p < end_)).
      { destruct (Z.leb_spec va p), (Z.ltb_spec p end_); simpl; (done || lia). }
      destruct (cursor_query (vm x) p) as [it|] eqn:Hq'.
      * rewrite (Q2 p it) in Hq by done. done.
      * by destruct (_ && _).
  - done.
  - done.
Qed.

(** ** Unmapping *)

Lemma check_range_spec va len e :
  u64 va → u64 len → check_range va len = Ok e →
  aligned va ∧ aligned len ∧ aligned e ∧ e = va + len ∧ IMAGE_START ≤ va < e ∧ e ≤ map_end.
Proof.
  intros Hv Hl. unfold check_range. destruct (Z.eqb_spec len 0); [done|]. simpl.
  destruct (is_multiple_of va PAGE_SIZE) eqn:E1; [|done]. simpl.
  destruct (is_multiple_of len PAGE_SIZE) eqn:E2; [|done]. simpl.
  apply is_multiple_page in E1, E2. destruct (checked_add 64 va len) as [x|] eqn:E; [|done].
  apply checked_add_Some in E as [-> _].
  destruct (Z.ltb_spec va IMAGE_START), (Z.ltb_spec map_end (va + len)); try done.
  simpl. intros [= <-]. unfold in_width in *. split_and!; try done; try lia. by apply aligned_add.
Qed.

Lemma split_bytes_eq l va end_ :
  split_bytes l va end_ =
  ((if splits_at l va then 1 else 0) + (if splits_at l end_ then 1 else 0)) * 96.
Proof.
  unfold split_bytes. simpl. by destruct (splits_at l va), (splits_at l end_).
Qed.

(** Both splits, and what they cost. *)
Lemma splits_ok l va end_ :
  areas_ok l → aligned va → aligned end_ → va ≠ end_ →
  let l' := split end_ (split va l) in
  areas_ok l' ∧ (∀ p, aligned p → view l' p = view l p) ∧ edge l' va ∧ edge l' end_ ∧
  zlen l' * 96 = zlen l * 96 + split_bytes l va end_ ∧
  full_count map_end (ranges l') = full_count map_end (ranges l).
Proof.
  intros A Av Ae Hne l'. pose proof (split_ok l va A Av) as S1.
  pose proof (split_ok (split va l) end_ (sp_areas _ _ _ S1) Ae) as S2. fold l' in S2.
  split_and!.
  - apply S2.
  - intros p Hp. rewrite (sp_view _ _ _ S2), (sp_view _ _ _ S1) by done. done.
  - apply (sp_edges _ _ _ S2), S1.
  - apply S2.
  - rewrite (sp_length _ _ _ S2), (sp_length _ _ _ S1), (sp_splits _ _ _ S1) by done.
    rewrite split_bytes_eq. lia.
  - rewrite (sp_tables _ _ _ S2), (sp_tables _ _ _ S1). done.
Qed.

Lemma unmap_sound ps s va len only r s' :
  space_ok ps s → u64 va → u64 len → unmap va len only s = (r, s') →
  space_ok ps s' ∧
  match r with
  | Ok _ => ∃ end_, check_range va len = Ok end_ ∧ pages_left va end_ (space s) (space s') ∧
      (∀ k a, bt_get (areas (space s)) k = Some a → k < end_ → va < a_end a → kind a ≠ Plane)
  | Err _ => s' = s
  end.
Proof.
  intros I Hv Hl. unfold unmap, mbind, M_bind, lift, gets.
  destruct (check_range va len) as [e|er] eqn:Er; [|by intros [= <- <-]].
  destruct (check_range_spec _ _ _ Hv Hl Er) as (Av & Al & Ae & Ee & Hlt & Htop).
  destruct (match only with Some _ => _ | None => _ end); [by intros [= <- <-]|].
  destruct (touches_plane (areas (space s)) va e) eqn:Ep; [by intros [= <- <-]|].
  pose proof (splits_ok _ _ _ (so_areas _ _ I) Av Ae ltac:(lia)) as (A & V & E1 & E2 & L & T).
  destruct (charge_more (split_bytes (areas (space s)) va e) s) as [r1 s1] eqn:Ec.
  assert (u64 (split_bytes (areas (space s)) va e)) as Hsb.
  { rewrite split_bytes_eq. destruct (splits_at _ va), (splits_at _ e); done. }
  destruct (charge_more_spec _ _ _ _ _ (so_paid _ _ I) Hsb Ec) as [[-> (w & -> & P)]|[[er ->] ->]];
    [|by intros [= <- <-]].
  intros [= <- <-].
  set (x := space s) in *.
  destruct (removal_sound ps w (hw s) x (split e (split va (areas x)))
    (List.filter (λ e0, negb ((va <=? e0.1) && (e0.1 <? e))) (zero x))
    (brk_after va e <$> brk_ x) va e (cost x + split_bytes (areas x) va e)) as (R1 & R2 & _ & _);
    try done; try (apply I).
  - rewrite T. symmetry. apply I.
  - apply zeros_outside, (so_zero _ _ I).
  - unfold x. rewrite (space_cost _ _ I). unfold price. fold x. lia.
  - split; [exact R1|]. exists e. split; [done|]. split; [exact R2|].
    by apply touches_plane_false; [apply I|].
Qed.

(** A plane area is the whole of its range. *)
Lemma plane_range l va a :
  areas_ok l → bt_get l va = Some a →
  edge l va ∧ edge l (a_end a) ∧ bt_remove va l = outside l va (a_end a) ∧
  bt_range va (a_end a) l = [(va, a)].
Proof.
  intros A G. pose proof (ao_len _ _ (as_area _ A _ _ G)) as Hlt.
  assert (∀ k c, bt_get l k = Some c → k ≠ va → a_end c ≤ va ∨ a_end a ≤ k) as H.
  { intros k c Gk Hk. destruct (Z.ltb_spec k va).
    - left. apply (as_apart _ A k c va a); done.
    - right. apply (as_apart _ A va a k c); (done || lia). }
  split_and!.
  - intros k c Gk Hk. destruct (H _ _ Gk); lia.
  - intros k c Gk Hk. destruct (decide (k = va)) as [->|].
    + rewrite G in Gk. injection Gk as <-. lia.
    + destruct (H _ _ Gk); lia.
  - apply sorted_ext; [by apply sorted_remove, A|by apply sorted_filter, A|].
    intros k. rewrite bt_get_remove. unfold outside. rewrite bt_get_filter by apply A.
    destruct (bt_get l k) as [c|] eqn:Gk; simpl; [|by destruct (va =? k)].
    destruct (Z.eqb_spec va k) as [<-|].
    + destruct (Z.leb_spec va va), (Z.ltb_spec va (a_end a)); simpl; (done || lia).
    + pose proof (ao_len _ _ (as_area _ A _ _ Gk)). destruct (H _ _ Gk); [done| |];
        destruct (Z.leb_spec va k), (Z.ltb_spec k (a_end a)); simpl; (done || lia).
  - apply sorted_ext.
    + by apply sorted_filter, A.
    + apply sorted_cons_iff. split; [constructor|]. intros ? ? []%elem_of_nil.
    + intros k. unfold bt_range. rewrite bt_get_filter by apply A. simpl.
      destruct (Z.eqb_spec va k) as [<-|].
      * rewrite G. simpl. destruct (Z.leb_spec va va), (Z.ltb_spec va (a_end a)); simpl; (done || lia).
      * destruct (bt_get l k) as [c|] eqn:Gk; simpl; [|done].
        pose proof (ao_len _ _ (as_area _ A _ _ Gk)). destruct (H _ _ Gk); [done| |];
        destruct (Z.leb_spec va k), (Z.ltb_spec k (a_end a)); simpl; (done || lia).
Qed.

Lemma unmap_plane_sound ps s va len m r s' :
  space_ok ps s → u64 va → u64 len → unmap_plane va len m s = (r, s') →
  space_ok ps s' ∧
  match r with
  | Ok _ => ∃ end_ a first wr, check_range va len = Ok end_ ∧
      bt_get (areas (space s)) va = Some a ∧ a_end a = end_ ∧ kind a = Plane ∧
      (∃ m', backing a = Object m' first wr ∧ mo_id m' = mo_id m) ∧
      pages_left va end_ (space s) (space s')
  | Err _ => s' = s
  end.
Proof.
  intros I Hv Hl. unfold unmap_plane, mbind, M_bind, lift, gets.
  destruct (check_range va len) as [e|er] eqn:Er; [|by intros [= <- <-]].
  destruct (check_range_spec _ _ _ Hv Hl Er) as (Av & Al & Ae & Ee & Hlt & Htop).
  destruct (bt_get (areas (space s)) va) as [a|] eqn:G; [|by intros [= <- <-]].
  destruct (bool_decide_reflect (kind a = Plane)) as [Hk|]; [|by intros [= <- <-]]. cbn [andb negb].
  destruct (Z.eqb_spec (a_end a) e) as [He|]; [|by intros [= <- <-]]. cbn [andb negb].
  destruct (backing a) as [m' first wr| |] eqn:Hb; [|by intros [= <- <-]..].
  destruct (bool_decide_reflect (mo_id m' = mo_id m)) as [Hm|]; [|by intros [= <- <-]]. cbn [andb negb].
  unfold on_space, modify, act. intros [<- E]%pair_equal_spec. set (x := space s) in *.
  destruct (plane_range _ _ _ (so_areas _ _ I) G) as (E1 & E2 & R1 & R2). rewrite He in *.
  fold x in R1, R2.
  assert (s' = finish_removal (ranges (bt_range va e (areas x))) va e
    (mk_Machine (world s) (hw s)
       (set_brk_ (brk_ x) (set_zero (zero x) (set_areas (outside (areas x) va e) x))))) as ->.
  { rewrite <- E, <- R1, R2. unfold finish_removal, ranges, range_of.
    cbn [fmap list_fmap fst snd]. rewrite He.
    replace (set_brk_ (brk_ x) (set_zero (zero x) (set_areas (bt_remove va (areas x)) x)))
      with (set_areas (bt_remove va (areas x)) x) by (by destruct x).
    unfold set_space at 3. fold x. by destruct (free_tables _ _ _ _). }
  destruct (removal_sound ps (world s) (hw s) x (areas x) (zero x) (brk_ x) va e (cost x))
    as (S1 & S2 & _ & _); try done; try (apply I).
  - symmetry. apply I.
  - destruct (so_zero _ _ I) as [Z1 Z2]. split; [done| |lia]. intros p f.
    split; [|by intros []]. intros Gp. split; [done|]. intros Hp.
    destruct (Z2 _ _ Gp) as (Ap & kd & pr & Hv'). fold x in Hv'.
    assert (view (areas x) p = Some (page_of p (va, a))) as Hv''.
    { apply view_Some; [apply I|]. exists va, a. split; [done|]. split; [lia|done]. }
    rewrite Hv'' in Hv'. injection Hv' as _ _ Hz. simpl in Hz. by rewrite Hb in Hz.
  - unfold x. by rewrite (space_cost _ _ I).
  - split; [exact S1|]. exists e, a, first, wr. split_and!; try done. by exists m'.
Qed.

(** ** Mapping *)

(** The tables a new area needs besides the others'. *)
Lemma added_tables l va a :
  areas_ok l → area_ok va a → free_range l va (a_end a) →
  let nb := neighbours l va (a_end a) in
  let t := tables [(va, a_end a)] nb.1 nb.2 map_end in
  full_count map_end (ranges (bt_insert va a l)) =
    full_count map_end (ranges l) + Quota.pages t ∧ 0 ≤ Quota.pages t ≤ 3 * 2 ^ 26.
Proof.
  intros A Ha F nb t. pose proof Ha as [H1 H2 H3 H4 H5 _ _]. unfold IMAGE_START in *.
  destruct map_end_bounds as [_ Hb]. pose proof (insert_areas _ _ _ A Ha F) as A'.
  pose proof (neighbours_around l va (a_end a) A H4 F) as Har. fold nb in Har.
  assert (pieces_in va (a_end a) [(va, a_end a)]) as Hpi.
  { split; [repeat constructor|]. intros s e. rewrite list_elem_of_singleton. intros [= -> ->]. lia. }
  assert (0 ≤ va ≤ map_end) as C0 by lia. assert (0 < map_end ≤ 2 ^ 63) as C1 by lia.
  assert (full_count map_end (ranges (bt_insert va a l)) =
    full_count map_end (ranges l) + Quota.pages t) as E.
  { unfold t. rewrite <- (tables_count (ranges l) _ va (a_end a) map_end nb.1 nb.2 C0 H5 C1 Hpi Har).
    apply full_count_ext. intros size Hsize. rewrite touched_app. apply set_eq. intros r.
    rewrite elem_of_union, !touched_ranges by done. rewrite elem_of_touched. split.
    - intros (s & c & G & Hr). rewrite bt_get_insert in G. destruct (Z.eqb_spec va s) as [<-|].
      + injection G as <-. right. exists va, (a_end a). rewrite list_elem_of_singleton. done.
      + left. eauto.
    - intros [(s & c & G & Hr)|(s & e & Hin & Hr)].
      + exists s, c. rewrite bt_get_insert. destruct (Z.eqb_spec va s) as [<-|]; [|done].
        by rewrite (free_range_get l va (a_end a) A H4 F) in G.
      + apply list_elem_of_singleton in Hin as [= -> ->]. exists va, a.
        rewrite bt_get_insert, Z.eqb_refl. split; [done|lia]. }
  pose proof (full_count_bound _ A). pose proof (full_count_bound _ A').
  pose proof (tables_pages (ranges l) _ va (a_end a) map_end nb.1 nb.2 C0 H5 C1 Hpi Har) as P.
  fold t in P. split; [done|lia].
Qed.

(** The entries of a space with a new area. *)
Lemma fill_entries ps l zs va a v :
  areas_ok l → area_ok va a → free_range l va (a_end a) → zero_ok l zs → entries_ok ps l zs v →
  let v' := (fill_ptes zs va a va (a_end a) v).2 in
  entries_ok ps (bt_insert va a l) zs v' ∧
  ∀ p, aligned p → ¬ (va ≤ p < a_end a) → cursor_query v' p = cursor_query v p.
Proof.
  intros A Ha F [Zs Zg] E v'.
  destruct (fill_ptes_spec ps zs va a v Ha Zs) as [_ Q]; [by intros p f [? _]%Zg|].
  split; [|intros p Ap Hn; by apply (Q p Ap)].
  intros p it Ap Hq. destruct (Q p Ap) as [Q1 Q2]. fold v' in Q1, Q2. cbv zeta in Q1, Q2.
  assert (∀ it, cursor_query v p = Some it → ¬ (va ≤ p < a_end a) ∧ ∃ kd pr b,
    view l p = Some (kd, pr, b) ∧ Z.land pr map.PROTECTION ≠ 0 ∧ item_ok ps zs p pr b it) as Eold.
  { intros i Hi. destruct (E p i Ap Hi) as (kd & pr & b & Hv & ?). split; [|eauto 10].
    apply view_Some in Hv as (s & c & G & Hp & _); [|done]. intros Hr. destruct (F _ _ G); lia. }
  assert (view (bt_insert va a l) p =
    if (va <=? p) && (p <? a_end a) then Some (page_of p (va, a)) else view l p) as V
    by (by apply insert_view).
  destruct (decide (va ≤ p < a_end a)) as [Hr|Hr].
  - destruct (Q2 Hr) as [Eq|(Hp & i & Eq & Hi)].
    + rewrite Eq in Hq. by destruct (Eold _ Hq).
    + rewrite Eq in Hq. injection Hq as ->. rewrite V.
      destruct (Z.leb_spec va p), (Z.ltb_spec p (a_end a)); try lia. simpl.
      exists (kind a), (prot a). eexists. split; [done|]. done.
  - rewrite (Q1 Hr) in Hq. destruct (Eold _ Hq) as [_ (kd & pr & b & Hv & ?)].
    exists kd, pr, b. rewrite V.
    destruct (Z.leb_spec va p), (Z.ltb_spec p (a_end a)); simpl; (done || lia).
Qed.

(** A new area's pages and no other. *)
Definition pages_added (va end_ : Z) (k : Kind) (pr : Z) b x x' : Prop :=
  ∀ p, aligned p →
    view (areas x') p =
      (if (va <=? p) && (p <? end_) then Some (k, pr, advanced b ((p - va) / PAGE_SIZE))
       else view (areas x) p) ∧
    (¬ (va ≤ p < end_) → cursor_query (vm x') p = cursor_query (vm x) p).

(** A space with a new area, its entries and the charge for it. *)
Lemma new_area_sound ps w h x va a t v :
  areas_ok (areas x) → zero_ok (areas x) (zero x) →
  tables_ x = full_count map_end (ranges (areas x)) →
  area_ok va a → free_range (areas x) va (a_end a) →
  full_count map_end (ranges (bt_insert va a (areas x))) = tables_ x + Quota.pages t →
  tables_ x +! Quota.pages t = full_count map_end (ranges (bt_insert va a (areas x))) →
  entries_ok ps (bt_insert va a (areas x)) (zero x) v →
  paid w (charged x)
    (price (zlen (areas x)) (zlen (zero x)) (tables_ x) + (96 + Quota.pages t * 4096)) →
  space_ok ps (mk_Machine w h (set_areas (bt_insert va a (areas x))
    (set_vm v (set_tables (tables_ x +! Quota.pages t) x)))).
Proof.
  intros A Z Tx Ha F T Et E Pd. pose proof (insert_areas _ _ _ A Ha F) as A'.
  assert (zlen (bt_insert va a (areas x)) = zlen (areas x) + 1) as Lz.
  { unfold zlen. rewrite length_bt_insert; [lia|].
    apply (free_range_get _ va (a_end a)); [done|apply Ha|done]. }
  split; fields; try done.
  - split; [apply Z|]. intros p f G. destruct (proj2 Z _ _ G) as (Ap & kd & pr' & Hv).
    split; [done|]. exists kd, pr'. rewrite insert_view by done.
    destruct (Z.leb_spec va p), (Z.ltb_spec p (a_end a)); simpl; try done.
    apply view_Some in Hv as (q & c & Gq & Hq & _); [|done]. destruct (F _ _ Gq); lia.
  - rewrite cost_price; fields.
    + rewrite Lz, Et, T.
      replace (price _ _ _) with
        (price (zlen (areas x)) (zlen (zero x)) (tables_ x) + (96 + Quota.pages t * 4096)); [done|].
      unfold price. lia.
    + pose proof (areas_count _ A'). pose proof (zlen_nonneg (bt_insert va a (areas x))). lia.
    + pose proof (zero_count _ _ A Z). pose proof (zlen_nonneg (zero x)). lia.
    + rewrite Et. pose proof (full_count_bound _ A'). lia.
Qed.

Lemma map_at_sound ps s va len k pr b r s' :
  space_ok ps s → area_ok va (mk_Area (va + len) k pr b) →
  free_range (areas (space s)) va (va + len) → map_at va len k pr b s = (r, s') →
  space_ok ps s' ∧
  match r with
  | Ok va' => va' = va ∧ pages_added va (va + len) k pr b (space s) (space s')
  | Err _ => s' = s
  end.
Proof.
  intros I Ha F. unfold map_at, mbind, M_bind, gets. set (x := space s) in *.
  pose proof Ha as [H1 H2 H3 H4 H5 _ _]. simpl in H2, H4, H5. unfold IMAGE_START in *.
  destruct map_end_bounds as [_ Hb].
  assert (va +! len = va + len) as -> by (apply wrap_small; unfold in_width; lia).
  set (a := mk_Area (va + len) k pr b) in *.
  assert (tables_ x = full_count map_end (ranges (areas x))) as Tx by apply I.
  destruct (added_tables (areas x) va a (so_areas _ _ I) Ha F) as [T P].
  change (a_end a) with (va + len) in T, P.
  destruct (neighbours (areas x) va (va + len)) as [nb1 nb2]. cbn [fst snd] in T, P.
  set (t := tables [(va, va + len)] nb1 nb2 map_end) in *. clearbody t.
  assert (charge.AREA +! Tables_bytes t = 96 + Quota.pages t * 4096) as ->.
  { unfold Tables_bytes. change charge.PAGE with 4096. change charge.AREA with 96.
    assert (Quota.pages t *! 4096 = Quota.pages t * 4096) as ->
      by (apply wrap_small; unfold in_width; lia). apply wrap_small. unfold in_width. lia. }
  destruct (charge_more (96 + Quota.pages t * 4096) s) as [r1 s1] eqn:Ec.
  assert (u64 (96 + Quota.pages t * 4096)) as Hu by (unfold in_width; lia).
  destruct (charge_more_spec _ _ _ _ _ (so_paid _ _ I) Hu Ec)
    as [[-> (w & -> & Pd)]|[[er ->] ->]]; [|by intros [= <- <-]].
  fold x in Pd. unfold on_space, modify, map_fill. cbn [space set_world set_space zero vm set_tables].
  fold x. change (a_end a) with (va + len).
  destruct (fill_ptes_spec ps (zero x) va a (vm x) Ha (proj1 (so_zero _ _ I))) as [Fok _].
  { intros p f G. by apply (so_zero _ _ I) in G as [? _]. }
  destruct (fill_entries ps (areas x) (zero x) va a (vm x) (so_areas _ _ I) Ha F (so_zero _ _ I)
    (so_entries _ _ I)) as [E Eo].
  change (a_end a) with (va + len) in Fok, E, Eo.
  destruct (fill_ptes (zero x) va a va (va + len) (vm x)) as [rf v']. simpl in Fok. subst rf.
  cbn [snd] in E, Eo. intros [<- <-]%pair_equal_spec.
  pose proof (insert_areas (areas x) _ _ (so_areas _ _ I) Ha F) as A'.
  assert (tables_ x +! Quota.pages t = full_count map_end (ranges (bt_insert va a (areas x)))) as Et.
  { rewrite T, <- Tx. apply wrap_small.
    pose proof (full_count_bound _ (so_areas _ _ I)) as Hf. fold x in Hf. rewrite <- Tx in Hf.
    unfold in_width. lia. }
  split.
  - apply (new_area_sound ps w (hw s) x va a t v'); try done; try apply I.
    + by rewrite Tx.
    + unfold x in Pd. by rewrite (space_cost _ _ I) in Pd.
  - split; [done|]. intros p Ap. split; [|by apply Eo].
    cbn [space set_space areas set_areas set_vm set_tables].
    change (va + len) with (a_end a). by apply insert_view; [apply I|..].
Qed.

(** Where [map] is asked to map: at a word, or where the space has room; the room is looked for
    where no area lies across [MAP_BASE]. *)
Definition place_ok (at_ : option Z) (l : BTreeMap Area) : Prop :=
  match at_ with Some va => u64 va | None => unstraddled l end.

Lemma map_sound ps s at_ len k pr b fx r s' :
  space_ok ps s → u64 len → place_ok at_ (areas (space s)) →
  (∀ n, pages len = Ok n → backing_ok (n / PAGE_SIZE) b) →
  map_ at_ len k pr b fx s = (r, s') →
  space_ok ps s' ∧
  match r with
  | Ok va => ∃ n s1, pages len = Ok n ∧
      match at_ with
      | Some va' => va = va' ∧ free_range (areas (space s1)) va (va + n) ∧
          (s1 = s ∨ fx = true ∧ pages_left va (va + n) (space s) (space s1) ∧
             ∀ j a, bt_get (areas (space s)) j = Some a → j < va + n → va < a_end a →
               kind a ≠ Plane)
      | None => s1 = s ∧ MAP_BASE < va ∧
          free_range (areas (space s)) (va - PAGE_SIZE) (va + n + PAGE_SIZE)
      end ∧ pages_added va (va + n) k pr b (space s1) (space s')
  | Err _ => s' = s ∨ fx = true ∧ ∃ va n, at_ = Some va ∧ pages len = Ok n ∧
      pages_left va (va + n) (space s) (space s') ∧
      ∀ j a, bt_get (areas (space s)) j = Some a → j < va + n → va < a_end a → kind a ≠ Plane
  end.
Proof.
  intros I Hl Hat Hpre. unfold map_, mbind, M_bind, lift, gets, mret, M_ret.
  destruct (check_prot pr b) as [[]|er] eqn:Ep; [|intros [= <- <-]; by split; [|left]].
  destruct (pages len) as [n|er] eqn:En; [|intros [= <- <-]; by split; [|left]].
  destruct (pages_round _ _ Hl En) as (An & Hn & Hn'). pose proof (Hpre n eq_refl) as Hb.
  destruct (Z.eqb_spec n 0); [intros [= <- <-]; by split; [|left]|].
  assert (0 < n) as Hn0 by (unfold in_width in *; lia). assert (u64 n) by (unfold in_width; lia).
  assert (∀ va, aligned va → IMAGE_START ≤ va → va + n ≤ map_end →
    area_ok va (mk_Area (va + n) k pr b)) as Ao.
  { intros va Hva H3 H4. split; simpl; try done; try lia.
    - by apply aligned_add.
    - by replace (va + n - va) with n by lia. }
  destruct at_ as [va|].
  - rename Hat into Hu.
    destruct (check_range va n) as [e|er] eqn:Er; [|intros [= <- <-]; by split; [|left]].
    destruct (check_range_spec _ _ _ Hu ltac:(done) Er) as (Av & _ & Ae & -> & Hlt & Htop).
    specialize (Ao va Av ltac:(lia) ltac:(lia)).
    destruct (overlaps (areas (space s)) va (va + n)) eqn:Eo.
    + destruct fx; [|intros [= <- <-]; by split; [|left]]. simpl.
      destruct (unmap va n None s) as [ru s1] eqn:Eu.
      destruct (unmap_sound _ _ _ _ _ _ _ I Hu ltac:(done) Eu) as [I1 U].
      destruct ru as [[]|er]; [|subst s1; intros [= <- <-]; by split; [|left]].
      destruct U as (e & Er' & L & Np). rewrite Er in Er'. injection Er' as <-.
      destruct (overlaps (areas (space s1)) va (va + n)) eqn:Eo1.
      { intros [= <- <-]. split; [done|]. right. eauto 10. }
      intros Hm. pose proof (overlaps_free _ va (va + n) (so_areas _ _ I1) ltac:(lia) Eo1) as F1.
      destruct (map_at_sound _ _ _ _ _ _ _ _ _ I1 Ao F1 Hm) as [I' R]. split; [done|].
      destruct r as [va'|er]; [|subst; right; eauto 10]. destruct R as [-> R].
      exists n, s1. split_and!; try done. by right.
    + intros Hm. pose proof (overlaps_free _ va (va + n) (so_areas _ _ I) ltac:(lia) Eo) as F1.
      destruct (map_at_sound _ _ _ _ _ _ _ _ _ I Ao F1 Hm) as [I' R]. split; [done|].
      destruct r as [va'|er]; [|by left]. destruct R as [-> R].
      exists n, s. split_and!; try done. by left.
  - destruct (find_free (areas (space s)) n) as [va|er] eqn:Ef;
      [|intros [= <- <-]; by split; [|left]].
    destruct (find_free_spec _ _ _ (so_areas _ _ I) Hat Hn0 An Ef) as (Av & Hb1 & Hb2 & F1).
    assert (MAP_BASE = 0x100000000000) as Eb by done. unfold IMAGE_START in *.
    specialize (Ao va Av ltac:(lia) ltac:(lia)). intros Hm.
    assert (free_range (areas (space s)) va (va + n)) as F2.
    { eapply free_range_sub; [done|unfold PAGE_SIZE; lia..]. }
    destruct (map_at_sound _ _ _ _ _ _ _ _ _ I Ao F2 Hm) as [I' R]. split; [done|].
    destruct r as [va'|er]; [|by left]. destruct R as [-> R].
    exists n, s. split_and!; try done.
Qed.

End inv.
