(* ===== verification/VmCalls.v ===== *)
(** * Protection, first touches, discards and the end of a space

    The other calls on an address space keep it sound too. *)

From S2P Require Import Prelude Abi Quota Account BTree Vm VmAreas VmEntries VmInv.
Section calls.
Context {O : Ostd} {OL : OstdLaws}.
Implicit Types (l : BTreeMap Area) (a : Area) (b : Backing) (x : Space) (s : Machine)
  (v : VmSpace) (zs : BTreeMap UFrame) (w : World).
Variables (total : Z) (carves : list (id * list byte * Z * id)).
Abbreviation space_ok := (space_ok total carves).
Abbreviation paid := (paid total carves).

(** ** Protection *)

(** The areas of a range with another protection. *)
Definition reprot (va end_ p : Z) (e : Z * Area) : Z * Area :=
  if (va <=? e.1) && (e.1 <? end_) then (e.1, set_prot p e.2) else e.

Lemma reprot_key va end_ p e : (reprot va end_ p e).1 = e.1.
Proof. unfold reprot. by destruct (_ && _). Qed.

Lemma reprot_end va end_ p e : a_end (reprot va end_ p e).2 = a_end e.2.
Proof. unfold reprot. by destruct (_ && _). Qed.

Lemma bt_get_reprot va end_ p l k :
  bt_get (reprot va end_ p <$> l) k = (λ a, (reprot va end_ p (k, a)).2) <$> bt_get l k.
Proof.
  induction l as [|[j a] l IH]; [done|]. simpl.
  pose proof (reprot_key va end_ p (j, a)) as E. destruct (reprot va end_ p (j, a)) as [j' a'] eqn:Er.
  simpl in E. subst j'. destruct (Z.eqb_spec j k) as [<-|]; [|done]. simpl. by rewrite Er.
Qed.

Lemma sorted_reprot va end_ p l : sorted l → sorted (reprot va end_ p <$> l).
Proof.
  unfold sorted. induction 1 as [|e m Hs IH HF]; [constructor|]. simpl. constructor; [done|].
  apply Forall_fmap. eapply Forall_impl; [done|]. intros e' He'. simpl.
  by rewrite !reprot_key.
Qed.

Lemma bt_get_foldr (m : BTreeMap Area) l k :
  bt_get (foldr (λ e l, bt_insert e.1 e.2 l) l m) k =
  match bt_get m k with Some a => Some a | None => bt_get l k end.
Proof.
  induction m as [|[j a] m IH]; [done|]. simpl. rewrite bt_get_insert, IH. by destruct (j =? k).
Qed.

Lemma sorted_foldr (m : BTreeMap Area) l :
  sorted l → sorted (foldr (λ e l, bt_insert e.1 e.2 l) l m).
Proof. intros Hs. induction m as [|e m IH]; [done|]. simpl. by apply sorted_insert. Qed.

(** What [reprotect] makes of the areas. *)
Lemma reprotect_areas va end_ p l :
  sorted l →
  foldr (λ e l, bt_insert e.1 e.2 l) l ((λ e, (e.1, set_prot p e.2)) <$> bt_range va end_ l) =
  reprot va end_ p <$> l.
Proof.
  intros Hs. apply sorted_ext; [by apply sorted_foldr|by apply sorted_reprot|].
  intros k. rewrite bt_get_foldr, bt_get_reprot.
  assert (∀ m : BTreeMap Area, bt_get ((λ e, (e.1, set_prot p e.2)) <$> m) k =
    set_prot p <$> bt_get m k) as E.
  { induction m as [|[j a] m IH]; [done|]. simpl. by destruct (j =? k). }
  rewrite E. unfold bt_range. rewrite bt_get_filter by done.
  destruct (bt_get l k) as [a|]; [|done]. simpl. unfold reprot. simpl. by destruct (_ && _).
Qed.

(** The areas of [m] filled one after the other. *)
Lemma refill_spec ps zs m v :
  (∀ k a, (k, a) ∈ m → area_ok k a) → sorted zs → (∀ p f, bt_get zs p = Some f → aligned p) →
  (refill zs m v).1 = Ok tt ∧
  ∀ p, aligned p →
    ((∀ k a, (k, a) ∈ m → ¬ (k ≤ p < a_end a)) →
       cursor_query (refill zs m v).2 p = cursor_query v p) ∧
    (∀ it, cursor_query (refill zs m v).2 p = Some it →
       cursor_query v p = Some it ∨
       ∃ k a, (k, a) ∈ m ∧ k ≤ p < a_end a ∧ Z.land (prot a) map.PROTECTION ≠ 0 ∧
         item_ok ps zs p (prot a) (advanced (backing a) ((p - k) / PAGE_SIZE)) it).
Proof.
  intros Hm Hz Az. revert v. induction m as [|[k a] m IH]; intros v; simpl.
  { split; [done|]. intros p Ap. split; [done|]. by left. }
  destruct (fill_ptes_spec ps zs k a v (Hm k a ltac:(by left)) Hz Az) as [F1 F2].
  destruct (fill_ptes zs k a k (a_end a) v) as [rf v1]. simpl in F1. subst rf. cbn [snd] in F2.
  destruct (IH (λ j c H, Hm j c (list_elem_of_further _ _ _ H)) v1) as [I1 I2].
  split; [done|]. intros p Ap. destruct (I2 p Ap) as [J1 J2]. destruct (F2 p Ap) as [G1 G2].
  cbv zeta in G1, G2. split.
  - intros Hn. rewrite J1.
    + apply G1. apply (Hn k a). by left.
    + intros j c Hj. apply Hn. by right.
  - intros it [Hq|(j & c & Hj & ?)]%J2.
    + destruct (decide (k ≤ p < a_end a)) as [Hp|Hp].
      * destruct (G2 Hp) as [E|(Hpr & i & E & Hi)]; rewrite E in Hq; [by left|].
        injection Hq as ->. right. exists k, a. split; [by left|]. done.
      * rewrite (G1 Hp) in Hq. by left.
    + right. exists j, c. split; [by right|done].
Qed.

(** A range of pages with another protection. *)
Definition pages_reprotected (va end_ p : Z) x x' : Prop :=
  ∀ q, aligned q →
    view (areas x') q =
      (if (va <=? q) && (q <? end_) then (λ '(k, _, b), (k, p, b)) <$> view (areas x) q
       else view (areas x) q) ∧
    (¬ (va ≤ q < end_) → cursor_query (vm x') q = cursor_query (vm x) q).

Section reprotect.
Context (l : BTreeMap Area) (va end_ p : Z) (A : areas_ok l) (E1 : edge l va) (E2 : edge l end_)
  (J : ∀ k a, bt_get l k = Some a → va ≤ k < end_ → check_prot p (backing a) = Ok tt).

Lemma reprot_ok : areas_ok (reprot va end_ p <$> l).
Proof.
  split.
  - apply sorted_reprot, A.
  - intros k c. rewrite bt_get_reprot. destruct (bt_get l k) as [a|] eqn:G; [|done].
    simpl. intros [= <-]. pose proof (as_area _ A _ _ G) as H. unfold reprot. simpl.
    destruct (Z.leb_spec va k), (Z.ltb_spec k end_); simpl; try done.
    destruct H. split; simpl; try done. by apply (J k).
  - intros k c k' c'. rewrite !bt_get_reprot.
    destruct (bt_get l k) as [a|] eqn:G; [|done]. destruct (bt_get l k') as [a'|] eqn:G'; [|done].
    simpl. intros [= <-] [= <-]. rewrite reprot_end. simpl. by apply (as_apart _ A k a k' a').
Qed.

Lemma reprot_view q :
  va < end_ →
  view (reprot va end_ p <$> l) q =
  if (va <=? q) && (q <? end_) then (λ '(k, _, b), (k, p, b)) <$> view l q else view l q.
Proof.
  intros Hlt. pose proof reprot_ok as A'. destruct (view l q) as [e|] eqn:V.
  - apply view_Some in V as (k & a & G & Hq & ->); [|done].
    specialize (E1 _ _ G). specialize (E2 _ _ G).
    assert (view (reprot va end_ p <$> l) q = Some (page_of q (reprot va end_ p (k, a)))) as ->.
    { apply view_Some; [done|]. exists k, (reprot va end_ p (k, a)).2.
      rewrite bt_get_reprot, G, reprot_end. split; [done|]. split; [done|].
      unfold page_of. simpl. by rewrite reprot_key. }
    unfold reprot. simpl.
    destruct (Z.leb_spec va k), (Z.ltb_spec k end_), (Z.leb_spec va q), (Z.ltb_spec q end_);
      simpl; (done || lia).
  - assert (view (reprot va end_ p <$> l) q = None) as ->.
    { apply view_None; [done|]. intros k c. rewrite bt_get_reprot.
      destruct (bt_get l k) as [a|] eqn:G; [|done]. simpl. intros [= <-]. rewrite reprot_end. simpl.
      by apply (proj1 (view_None l q A) V). }
    by destruct (_ && _).
Qed.

End reprotect.

Lemma elem_of_inside l va end_ p :
  sorted l →
  ∀ k c, (k, c) ∈ (λ e, (e.1, set_prot p e.2)) <$> bt_range va end_ l ↔
    ∃ a, bt_get l k = Some a ∧ va ≤ k < end_ ∧ c = set_prot p a.
Proof.
  intros Hs k c. rewrite list_elem_of_fmap. split.
  - intros ([j a] & [= -> ->] & H). unfold bt_range in H.
    apply list_elem_of_In, filter_In in H as [H Hb]. simpl in Hb.
    apply list_elem_of_In, elem_of_bt in H; [|done].
    destruct (Z.leb_spec va j), (Z.ltb_spec j end_); try done. exists a. done.
  - intros (a & G & Hk & ->). exists (k, a). split; [done|].
    apply list_elem_of_In, filter_In. split; [by apply list_elem_of_In, elem_of_bt|].
    simpl. by destruct (Z.leb_spec va k), (Z.ltb_spec k end_); try lia.
Qed.

Lemma reprotect_sound ps s va end_ p r s' :
  space_ok ps s → aligned va → aligned end_ → IMAGE_START ≤ va < end_ → end_ ≤ map_end →
  edge (areas (space s)) va → edge (areas (space s)) end_ →
  (∀ k a, bt_get (areas (space s)) k = Some a → va ≤ k < end_ →
     check_prot p (backing a) = Ok tt) →
  reprotect va end_ p s = (r, s') →
  r = Ok tt ∧ space_ok ps s' ∧ pages_reprotected va end_ p (space s) (space s').
Proof.
  intros I Av Ae Hlt Htop E1 E2 J. unfold reprotect, IMAGE_START in *. set (x := space s) in *.
  pose proof (so_areas _ _ _ _ I) as A. fold x in A.
  rewrite reprotect_areas by apply A.
  pose proof (reprot_ok _ va end_ p A J) as A'.
  pose proof (reprot_view _ va end_ p A E1 E2 J) as V.
  set (inside := (λ e, (e.1, set_prot p e.2)) <$> bt_range va end_ (areas x)).
  pose proof (elem_of_inside (areas x) va end_ p (as_sorted _ A)) as Hin. fold inside in Hin.
  destruct (refill_spec ps (zero x) inside (unmap_ptes va (end_ -! va) (vm x))) as [R1 R2].
  { intros k c (a & G & Hk & ->)%Hin. pose proof (as_area _ A _ _ G) as []. split; simpl; try done.
    by apply (J k). }
  { apply I. }
  { intros q f G. by apply (so_zero _ _ _ _ I) in G as [? _]. }
  destruct (refill _ _ _) as [rf v']. simpl in R1. subst rf. cbn [snd] in R2.
  intros [<- <-]%pair_equal_spec. split; [done|].
  assert (∀ q, aligned q → ¬ (va ≤ q < end_) → cursor_query v' q = cursor_query (vm x) q) as Qo.
  { intros q Aq Hn. rewrite (proj1 (R2 q Aq)).
    - rewrite query_unmap_ptes by (done || lia).
      destruct (Z.leb_spec va q), (Z.ltb_spec q end_); simpl; (done || lia).
    - intros k c (a & G & Hk & ->)%Hin. simpl. specialize (E2 _ _ G). lia. }
  split.
  - pose proof (so_zero _ _ _ _ I) as Z. fold x in Z. split; fields; try done.
    + split; [apply Z|]. intros q f G. destruct (proj2 Z _ _ G) as (Aq & kd & pr & Hv).
      split; [done|]. rewrite V, Hv by lia. destruct (_ && _); simpl; eauto.
    + intros q it Aq Hq. destruct (decide (va ≤ q < end_)) as [Hr|Hr].
      * destruct (proj2 (R2 q Aq) _ Hq) as [Hq'|(k & c & Hk & Hp & Hpr & Hit)].
        { rewrite query_unmap_ptes in Hq' by (done || lia).
          by destruct (Z.leb_spec va q), (Z.ltb_spec q end_); try lia. }
        apply Hin in Hk as (a & G & Hk & ->). simpl in *.
        rewrite V by lia. assert (view (areas x) q = Some (page_of q (k, a))) as ->.
        { apply view_Some; [done|]. exists k, a. done. }
        destruct (Z.leb_spec va q), (Z.ltb_spec q end_); try lia. simpl.
        exists (kind a), p. eexists. done.
      * rewrite Qo in Hq by done. destruct (so_entries _ _ _ _ I q it Aq Hq) as (kd & pr & b & Hv & ?).
        exists kd, pr, b. fold x in Hv. rewrite V, Hv by lia.
        destruct (Z.leb_spec va q), (Z.ltb_spec q end_); simpl; (done || lia).
    + pose proof (so_tables _ _ _ _ I) as T. fold x in T. rewrite T. f_equal. unfold ranges. rewrite <- list_fmap_compose.
      apply list_fmap_ext. intros i e _. unfold range_of. simpl. by rewrite reprot_key, reprot_end.
    + replace (cost _) with (cost x); [apply I|]. unfold cost. fields. unfold zlen.
      by rewrite length_fmap.
  - intros q Aq. fields. split; [by apply V; lia|]. by apply Qo.
Qed.

Lemma protect_sound ps s va len p only r s' :
  space_ok ps s → u64 va → u64 len → protect va len p only s = (r, s') →
  space_ok ps s' ∧
  match r with
  | Ok _ => ∃ end_, check_range va len = Ok end_ ∧
      pages_reprotected va end_ p (space s) (space s') ∧
      (∀ q, va ≤ q < end_ → ∃ k pr b, view (areas (space s)) q = Some (k, pr, b) ∧ k ≠ Plane)
  | Err _ => s' = s
  end.
Proof.
  intros I Hv Hl. unfold protect, mbind, M_bind, lift, gets. set (x := space s) in *.
  destruct (check_range va len) as [e|er] eqn:Er; [|by intros [= <- <-]].
  destruct (check_range_spec _ _ _ Hv Hl Er) as (Av & Al & Ae & Ee & Hlt & Htop).
  destruct (check_cover va _ va (bt_below e (areas x))) as [c|er] eqn:Ec; [|by intros [= <- <-]].
  destruct (Z.ltb_spec c e); [by intros [= <- <-]|].
  pose proof (so_areas _ _ _ _ I) as A. fold x in A.
  destruct (covered _ _ _ _ _ A Ec ltac:(lia)) as [C1 C2].
  pose proof (splits_ok _ _ _ A Av Ae ltac:(lia)) as (A2 & V2 & E1 & E2 & L2 & T2).
  destruct (charge_more (split_bytes (areas x) va e) s) as [r1 s1] eqn:Eg.
  assert (u64 (split_bytes (areas x) va e)) as Hsb.
  { rewrite split_bytes_eq. destruct (splits_at _ va), (splits_at _ e); done. }
  destruct (charge_more_spec _ _ _ _ _ _ _ (so_paid _ _ _ _ I) Hsb Eg)
    as [[-> (w & -> & P)]|[[er ->] ->]]; [|by intros [= <- <-]].
  unfold on_space, modify. intros Hr.
  set (s2 := settle_space (mk_Machine w (hw s) (set_areas (split e (split va (areas x))) x))).
  assert (space_ok ps s2) as I2.
  { apply (settle_sound _ _ _ _ _ _ (cost x + split_bytes (areas x) va e)); fields; try done.
    - destruct (so_zero _ _ _ _ I) as [Z1 Z2]. split; [done|]. intros q f G.
      destruct (Z2 _ _ G) as (Aq & kd & pr & Hq). split; [done|]. exists kd, pr. by rewrite V2.
    - intros q it Aq Hq. destruct (so_entries _ _ _ _ I q it Aq Hq) as (kd & pr & b & Hv' & ?).
      exists kd, pr, b. by rewrite V2.
    - rewrite T2. apply I.
    - unfold x. rewrite (space_cost _ _ _ _ I). unfold price. fold x. lia. }
  assert (∀ k a, bt_get (areas (space s2)) k = Some a → va ≤ k < e →
    check_prot p (backing a) = Ok tt) as J.
  { intros k a G Hk. change (areas (space s2)) with (split e (split va (areas x))) in G.
    pose proof (as_area _ A2 _ _ G) as Oa.
    assert (view (areas x) k = Some (page_of k (k, a))) as Vk.
    { rewrite <- V2 by apply Oa. apply view_Some; [done|]. exists k, a.
      pose proof (ao_len _ _ Oa). split; [done|]. split; [lia|done]. }
    apply view_Some in Vk as (j & c0 & Gj & Hj & Ek); [|done].
    specialize (C2 j c0 Gj ltac:(lia) ltac:(lia)). cbv beta in C2.
    destruct (_ || _); [done|]. unfold page_of in Ek. injection Ek as _ _ Eb. simpl in Eb.
    unfold check_prot in *. replace (writable (backing a)) with (writable (backing c0)); [done|].
    rewrite <- (advanced_writable (backing a) ((k - k) / PAGE_SIZE)), Eb. by rewrite advanced_writable. }
  destruct (reprotect_sound ps s2 va e p r s' I2 Av Ae Hlt Htop E1 E2 J Hr) as (-> & I' & R).
  split; [done|]. exists e. split; [done|]. split.
  - intros q Aq. destruct (R q Aq) as [R1 R2]. rewrite R1. split; [|exact R2].
    change (areas (space s2)) with (split e (split va (areas x))). by rewrite V2.
  - intros q Hq. destruct (C1 q Hq) as (k & a & G & Hk & Jk).
    assert (view (areas x) q = Some (page_of q (k, a))) as ->.
    { apply view_Some; [done|]. eauto. }
    eexists _, _, _. split; [done|]. simpl. intros Ek.
    destruct (bool_decide_reflect (kind a = Plane)); [|done]. by rewrite orb_true_r in Jk.
Qed.

(** ** First touches *)

Lemma allows_prot p c : allows p c = true → Z.land p map.PROTECTION ≠ 0.
Proof.
  intros H E. destruct c; simpl in H; apply negb_true_iff, Z.eqb_neq in H; [done| |];
    apply H.
  - change map.WRITE with (Z.land map.PROTECTION map.WRITE).
    by rewrite Z.land_assoc, E.
  - change map.EXECUTE with (Z.land map.PROTECTION map.EXECUTE).
    by rewrite Z.land_assoc, E.
Qed.

(** The calls that change no area. *)
Definition same_areas s s' : Prop := areas (space s') = areas (space s).

Lemma frame_sound ps s k a page r s' :
  space_ok ps s → aligned page → area_at (areas (space s)) page = Some (k, a) →
  frame k a page s = (r, s') →
  space_ok ps s' ∧ same_areas s s' ∧ vm (space s') = vm (space s) ∧
  match r with
  | Ok f => ∀ fl, fl = page_flags (prot a) →
      item_ok ps (zero (space s')) page (prot a) (advanced (backing a) ((page - k) / PAGE_SIZE))
        (Ram f fl)
  | Err _ => True
  end.
Proof.
  intros I Ap Ha. pose proof (so_areas _ _ _ _ I) as A. set (x := space s) in *.
  assert (view (areas x) page = Some (page_of page (k, a))) as Vp by (unfold view; by rewrite Ha).
  apply area_at_Some in Ha as [G Hp]; [|done]. pose proof (as_area _ A _ _ G) as [H1 H2 H3 H4 H5 _ H8].
  destruct map_end_bounds as [_ Hb]. unfold IMAGE_START in *.
  assert (page -! k = page - k) as Es by (apply wrap_small; unfold in_width; lia).
  unfold frame, mbind, M_bind, lift, gets, mret, M_ret, fail. destruct (backing a) as [m first wr| |] eqn:Eb.
  - rewrite Es. destruct (Z.leb_spec 0 (first +! (page - k) / PAGE_SIZE)).
    + destruct (frames m !! _) as [f|] eqn:Ef; simpl; intros [= <- <-]; (split; [done|]);
        (split; [done|]); (split; [done|]); [|done]. by intros fl ->.
    + simpl. intros [= <- <-]. by split_and!.
  - fold x. destruct (bt_get (zero x) page) as [f|] eqn:Gz.
    { intros [= <- <-]. split_and!; try done. intros fl ->. split; [done|by left]. }
    destruct (charge_more charge.ZERO_PAGE s) as [r1 s1] eqn:Eg.
    assert (u64 charge.ZERO_PAGE) as Hz by done.
    destruct (charge_more_spec _ _ _ _ _ _ _ (so_paid _ _ _ _ I) Hz Eg)
      as [[-> (w & -> & P)]|[[er ->] ->]]; [|intros [= <- <-]; by split_and!].
    change charge.ZERO_PAGE with 4128 in P. fold x in P.
    pose proof (space_cost _ _ _ _ I) as C. fold x in C.
    pose proof (so_zero _ _ _ _ I) as [Z1 Z2]. fold x in Z1, Z2.
    unfold zeroed_frame. fields. destruct (alloc_frame (hw s)) as [[f h]|] eqn:Ea.
    + intros [= <- <-]. fold x. split; [|split; [done|split; [done|]]].
      2: { intros fl ->. split; [done|]. left. fields. by rewrite bt_get_insert, Z.eqb_refl. }
      assert (zlen (bt_insert page f (zero x)) = zlen (zero x) + 1) as Lz.
      { unfold zlen. rewrite length_bt_insert by done. lia. }
      split; fields; try apply I; fold x.
      * split; [by apply sorted_insert|]. intros q g. rewrite bt_get_insert.
        destruct (Z.eqb_spec page q) as [<-|]; [|apply Z2].
        intros [= <-]. split; [done|]. exists (kind a), (prot a). rewrite Vp. unfold page_of.
        simpl. by rewrite Eb.
      * intros q it Aq Hq. destruct (so_entries _ _ _ _ I q it Aq Hq) as (kd & pr & b & Hv & Hpr & Hit).
        exists kd, pr, b. split; [done|]. split; [done|]. fold x in Hit.
        destruct it as [g fl|], b as [| |]; try done. destruct Hit as [-> [Hg|Hpe]]; (split; [done|]).
        -- left. rewrite bt_get_insert. destruct (Z.eqb_spec page q) as [<-|]; [congruence|done].
        -- by right.
      * assert (areas_ok (areas x)) as A' by done.
        pose proof (zero_count (areas x) (zero x) A' (conj Z1 Z2)). pose proof (areas_count _ A').
        pose proof (full_count_bound _ A') as Hf. pose proof (so_tables _ _ _ _ I) as T. fold x in T.
        rewrite <- T in Hf. pose proof (zlen_nonneg (areas x)). pose proof (zlen_nonneg (zero x)).
        rewrite cost_price; fields; try lia. rewrite Lz.
        replace (price _ _ _) with (cost x + 4128); [done|]. rewrite C. unfold price. lia.
    + intros [= <- <-]. split; [|by split_and!].
      apply (settle_sound _ _ _ w (hw s) x (cost x + 4128)); try apply I; [done|]. rewrite C. lia.
  - intros [= <- <-]. by split_and!.
Qed.

Lemma touch_sound ps s k a page r s' :
  space_ok ps s → aligned page → area_at (areas (space s)) page = Some (k, a) →
  Z.land (prot a) map.PROTECTION ≠ 0 →
  touch k a page s = (r, s') → space_ok ps s' ∧ same_areas s s'.
Proof.
  intros I Ap Ha Hpr. unfold touch, mbind, M_bind, gets, mret, M_ret, fail.
  destruct (negb _); [by intros [= <- <-]|].
  destruct (cursor_query (vm (space s)) page) as [it|] eqn:Eq; [by intros [= <- <-]|].
  destruct (frame k a page s) as [rf s1] eqn:Ef.
  destruct (frame_sound _ _ _ _ _ _ _ I Ap Ha Ef) as (I1 & S1 & V1 & R1).
  destruct rf as [f|er]; [|by intros [= <- <-]].
  destruct (negb _); [by intros [= <- <-]|]. unfold on_space, modify.
  intros [<- <-]%pair_equal_spec. split; [|done]. split; fields; try apply I1.
  intros q it Aq. rewrite query_map. destruct (Z.eqb_spec q page) as [->|].
  - intros [= <-]. unfold same_areas in S1. rewrite S1. unfold view. rewrite Ha. simpl.
    eexists _, _, _. split; [done|]. split; [done|]. by apply R1.
  - apply (so_entries _ _ _ _ I1 q it Aq).
Qed.

(** A call after which a space in order is in order, with the areas it had. *)
Definition quiet {A} ps (c : M Machine Error A) : Prop :=
  ∀ s r s', space_ok ps s → c s = (r, s') → space_ok ps s' ∧ same_areas s s'.

Lemma quiet_pure {A} ps (f : Machine → result Error A) : quiet ps (λ s, (f s, s)).
Proof. by intros s r s' I [= <- <-]. Qed.

Lemma quiet_ret {A} ps (y : A) : quiet ps (mret y).
Proof. apply (quiet_pure ps (λ _, Ok y)). Qed.

Lemma quiet_fail {A} ps e : quiet ps (fail (A := A) e).
Proof. apply (quiet_pure ps (λ _, Err e)). Qed.

Lemma quiet_lift {A} ps (r : result Error A) : quiet ps (lift r).
Proof. apply (quiet_pure ps (λ _, r)). Qed.

Lemma quiet_bind {A B} ps (c : M Machine Error A) (k : A → M Machine Error B) :
  quiet ps c → (∀ y, quiet ps (k y)) → quiet ps (c ≫= k).
Proof.
  intros Hc Hk s r s' I. unfold mbind, M_bind. destruct (c s) as [[y|e] s1] eqn:E.
  - destruct (Hc _ _ _ I E) as [I1 S1]. intros [I2 S2]%Hk; [|done]. split; [done|].
    unfold same_areas in *. congruence.
  - intros [= <- <-]. by eapply Hc.
Qed.

Lemma quiet_gets {A B} ps (f : Machine → A) (k : A → M Machine Error B) :
  (∀ s r s', space_ok ps s → k (f s) s = (r, s') → space_ok ps s' ∧ same_areas s s') →
  quiet ps (gets f ≫= k).
Proof. intros H s r s' I. apply H, I. Qed.

Lemma fault_quiet ps addr access : u64 addr → quiet ps (fault addr access).
Proof.
  intros Hu. apply quiet_gets. intros s r s' I.
  destruct (area_at (areas (space s)) (Z.land addr page_mask)) as [[k a]|] eqn:Ea; [|by apply quiet_ret].
  destruct (negb (allows (prot a) access)) eqn:Eal; [by apply quiet_ret|].
  apply negb_false_iff, allows_prot in Eal. revert s r s' I Ea. unfold mbind, M_bind.
  intros s r s' I Ea. destruct (touch k a _ s) as [[[]|e] s1] eqn:Et; intros [= <- <-];
    (eapply touch_sound; [done|by apply land_mask_aligned|done..]).
Qed.

Lemma populate_loop_quiet ps fuel page end_ write :
  aligned page → quiet ps (populate_loop fuel page end_ write).
Proof.
  revert page. induction fuel as [|fuel IH]; intros page Ap; [apply quiet_ret|]. simpl.
  destruct (Z.leb_spec end_ page); [apply quiet_ret|]. apply quiet_gets. intros s r s' I.
  destruct (area_at (areas (space s)) page) as [[k a]|] eqn:Ea; [|by apply quiet_fail].
  destruct (negb (allows (prot a) _)) eqn:Eal; [by apply quiet_fail|].
  apply negb_false_iff, allows_prot in Eal. unfold mbind, M_bind.
  destruct (touch k a page s) as [[[]|e] s1] eqn:Et;
    destruct (touch_sound _ _ _ _ _ _ _ I Ap Ea Eal Et) as [I1 S1]; [|by intros [= <- <-]].
  intros [I2 S2]%IH; [|by apply aligned_wrap_add|done]. split; [done|].
  unfold same_areas in *. congruence.
Qed.

Lemma populate_quiet ps va len write : u64 va → quiet ps (populate va len write).
Proof.
  intros Hu. unfold populate. destruct (len =? 0); [apply quiet_ret|].
  destruct (checked_add 64 va len); [|apply quiet_fail]. by apply populate_loop_quiet, land_mask_aligned.
Qed.

Lemma page_frame_quiet ps page write : aligned page → quiet ps (page_frame page write).
Proof.
  intros Ap. apply quiet_gets. intros s r s' I.
  destruct (area_at (areas (space s)) page) as [[k a]|] eqn:Ea; [|by apply quiet_fail].
  destruct (negb (allows (prot a) _)) eqn:Eal; [by apply quiet_fail|].
  apply negb_false_iff, allows_prot in Eal. unfold mbind, M_bind.
  destruct (frame k a page s) as [[f|e] s1] eqn:Ef;
    destruct (frame_sound _ _ _ _ _ _ _ I Ap Ea Ef) as (I1 & S1 & _); [|by intros [= <- <-]].
  destruct (backing a); [by intros [= <- <-]| |by intros [= <- <-]].
  destruct (touch k a page s1) as [[[]|e] s2] eqn:Et;
    (destruct (touch_sound _ _ _ _ _ _ _ I1 Ap ltac:(by rewrite S1) Eal Et) as [I2 S2];
     intros [= <- <-]; split; [done|]; unfold same_areas in *; congruence).
Qed.

Lemma same_space ps s s' :
  world s' = world s → vm (space s') = vm (space s) → areas (space s') = areas (space s) →
  zero (space s') = zero (space s) → tables_ (space s') = tables_ (space s) →
  charged (space s') = charged (space s) → space_ok ps s → space_ok ps s'.
Proof.
  intros Ew Ev Ea Ez Et Ec [A Z E T P].
  split; rewrite ?Ea, ?Ez, ?Ev, ?Et; try done. unfold cost. by rewrite Ew, Ec, Ea, Ez, Et.
Qed.

Lemma count_copy_quiet ps n : quiet ps (count_copy n).
Proof. intros s r s' I [= <- <-]. split; [|done]. by eapply same_space; [..|exact I]. Qed.

Lemma write_page_quiet ps data fr within at_ n : quiet ps (write_page data fr within at_ n).
Proof.
  intros s r s' I. unfold write_page. destruct (_ ≫= _); intros [= <- <-]; [|done].
  split; [|done]. by eapply same_space; [..|exact I].
Qed.

Lemma each_page_quiet ps fuel va len n write f :
  u64 va → 0 ≤ n → (∀ fr wi i j, quiet ps (f fr wi i j)) →
  quiet ps (each_page fuel va len n write f).
Proof.
  intros Hu Hn Hf. revert n Hn. induction fuel as [|fuel IH]; intros n Hn; [apply quiet_ret|]. simpl.
  destruct (Z.leb_spec len n); [apply quiet_ret|].
  destruct (checked_add 64 va n) as [at_|] eqn:Ec; [|apply quiet_fail].
  apply checked_add_Some in Ec as [-> Hc].
  assert (u64 (va + n)) as Hv by (unfold in_width in *; lia).
  pose proof (land_mask_aligned _ Hv). pose proof (land_mask_within _ Hv).
  apply quiet_bind; [by apply page_frame_quiet|]. intros fr.
  apply quiet_bind; [apply Hf|]. intros _. apply quiet_bind; [apply count_copy_quiet|].
  intros _. apply IH. lia.
Qed.

Lemma copy_pages_quiet ps fuel va len n buf :
  u64 va → 0 ≤ n → quiet ps (copy_pages fuel va len n buf).
Proof.
  intros Hu Hn. revert n buf Hn. induction fuel as [|fuel IH]; intros n buf Hn; [apply quiet_ret|].
  simpl. destruct (Z.leb_spec len n); [apply quiet_ret|].
  destruct (checked_add 64 va n) as [at_|] eqn:Ec; [|apply quiet_fail].
  apply checked_add_Some in Ec as [-> Hc].
  assert (u64 (va + n)) as Hv by (unfold in_width in *; lia).
  pose proof (land_mask_aligned _ Hv). pose proof (land_mask_within _ Hv).
  apply quiet_bind; [by apply page_frame_quiet|]. intros fr.
  apply quiet_bind; [by apply (quiet_pure ps (λ s, Ok (hw s)))|]. intros h.
  apply quiet_bind; [apply quiet_lift|]. intros bs.
  apply quiet_bind; [apply count_copy_quiet|]. intros _. apply IH. lia.
Qed.

(** ** Discarding and clearing *)

Lemma space_ok_pending ps ps' s :
  (∀ p it, aligned p → cursor_query (vm (space s)) p = Some it → pending ps p → pending ps' p) →
  space_ok ps s → space_ok ps' s.
Proof.
  intros Hp I. split; try apply I. intros p it Ap Hq.
  destruct (so_entries _ _ _ _ I p it Ap Hq) as (k & pr & b & Hv & Hpr & Hit).
  exists k, pr, b. split; [done|]. split; [done|].
  destruct it as [f fl|], b as [| |]; try done. destruct Hit as [-> [Hf|Hpe]]; (split; [done|]).
  - by left.
  - right. eauto.
Qed.

Lemma discard_pages_sound ps s va end_ r s' :
  space_ok ps s → discard_pages va end_ s = (r, s') →
  same_areas s s' ∧
  match r with
  | Ok _ => space_ok ((va, end_) :: ps) s' ∧
      ∀ q, va ≤ q < end_ → ∃ k pr b, view (areas (space s)) q = Some (k, pr, b) ∧ k ≠ Plane
  | Err _ => s' = s
  end.
Proof.
  intros I. unfold discard_pages, mbind, M_bind, lift, gets, on_space, modify, fail.
  set (x := space s) in *. pose proof (so_areas _ _ _ _ I) as A. fold x in A.
  destruct (check_cover va _ va (bt_below end_ (areas x))) as [c|er] eqn:Ec; [|by intros [= <- <-]].
  destruct (Z.ltb_spec c end_); [by intros [= <- <-]|].
  intros [<- <-]%pair_equal_spec. split; [done|]. fold x.
  destruct (covered _ _ _ _ _ A Ec ltac:(lia)) as [C1 C2].
  set (zs := List.filter _ (zero x)).
  pose proof (zeros_outside va end_ (zero x) (proj1 (so_zero _ _ _ _ I))) as Zl. fold zs in Zl. split.
  - pose proof (so_paid _ _ _ _ I) as P. fold x in P.
    apply (settle_sound _ _ _ (world s) (hw s) (set_zero zs x) (cost x)); fields; try done; try apply I.
    + split; [apply Zl|]. intros p f [G _]%(zl_get _ _ _ _ Zl). by apply (proj2 (so_zero _ _ _ _ I)) in G.
    + intros p it Ap Hq. destruct (so_entries _ _ _ _ I p it Ap Hq) as (kd & pr & b & Hv & Hpr & Hit).
      exists kd, pr, b. split; [done|]. split; [done|].
      destruct it as [f fl|], b as [| |]; try done. destruct Hit as [-> Hf]; (split; [done|]).
      destruct (decide (va ≤ p < end_)) as [Hp|Hp].
      { right. exists va, end_. split; [by left|done]. }
      destruct Hf as [Hf|(lo & hi & Hin & Hb)].
      * left. by apply (zl_get _ _ _ _ Zl).
      * right. exists lo, hi. split; [by right|done].
    + unfold x at 3. rewrite (space_cost _ _ _ _ I). fold x.
      pose proof (zl_length _ _ _ _ Zl). unfold price. lia.
  - intros q Hq. destruct (C1 q Hq) as (k & a & G & Hk & Jk).
    assert (view (areas x) q = Some (page_of q (k, a))) as ->.
    { apply view_Some; [done|]. eauto. }
    eexists _, _, _. split; [done|]. simpl. intros Ek. by rewrite bool_decide_eq_true_2 in Jk.
Qed.

Lemma discard_entries_sound ps ps' s va len end_ r s' :
  space_ok ps s → u64 va → u64 len → check_range va len = Ok end_ →
  (∀ p, pending ps p → pending ps' p ∨ va ≤ p < end_) →
  discard_entries va end_ s = (r, s') →
  r = Ok tt ∧ space_ok ps' s' ∧ same_areas s s'.
Proof.
  intros I Hv Hl Er Hp. destruct (check_range_spec _ _ _ Hv Hl Er) as (Av & _ & Ae & _ & Hlt & Htop).
  intros [<- <-]%pair_equal_spec. split; [done|]. split; [|done]. unfold IMAGE_START in *.
  assert (∀ p, cursor_query (unmap_ptes va (end_ -! va) (vm (space s))) p =
    if (va <=? p) && (p <? end_) then None else cursor_query (vm (space s)) p) as Q.
  { intros p. by apply query_unmap_ptes; [..|lia|]. }
  apply (space_ok_pending ps).
  - fields. intros p it Ap. rewrite Q. intros Hq [?|Hb]%Hp; [done|].
    destruct (Z.leb_spec va p), (Z.ltb_spec p end_); (done || lia).
  - split; fields; try apply I. intros p it Ap. rewrite Q.
    destruct (_ && _); [done|]. by apply (so_entries _ _ _ _ I).
Qed.

Lemma full_count_nil top : full_count top (ranges []) = 0.
Proof.
  assert (∀ k : Z, (∅ : gset Z) ∖ {[ k ]} = ∅) as E by (intros k; set_solver).
  change (sumZ ((λ size, Z.of_nat (base.size ((∅ : gset Z) ∖ {[ (top - 1) / size ]})))
    <$> charge.TABLE_REGIONS) = 0).
  assert ((λ size, Z.of_nat (base.size ((∅ : gset Z) ∖ {[ (top - 1) / size ]}))) <$> charge.TABLE_REGIONS
    = (λ _, 0) <$> charge.TABLE_REGIONS) as ->; [|done].
  apply list_fmap_ext. intros i k _. by rewrite E, size_empty.
Qed.

Lemma clear_sound ps s :
  space_ok ps s →
  space_ok [] (clear s) ∧ areas (space (clear s)) = [] ∧ zero (space (clear s)) = [] ∧
  (∀ p, aligned p → cursor_query (vm (space (clear s))) p = None).
Proof.
  intros I. destruct map_end_bounds as [Am Hb]. assert (MAP_BASE = 0x100000000000) as Eb by done.
  set (v' := unmap_ptes 0 map_end (vm (space s))).
  assert (∀ p, aligned p → cursor_query v' p = None) as Q.
  { unfold PAGE_SIZE in Hb. assert (map_end = map_end -! 0) as Em.
    { unfold wsub. rewrite Z.sub_0_r. symmetry. apply wrap_small. unfold in_width. lia. }
    intros p Ap. unfold v'. rewrite Em at 1. rewrite query_unmap_ptes by (done || lia).
    destruct (cursor_query (vm (space s)) p) as [it|] eqn:Eq; [|by destruct (_ && _)].
    destruct (so_entries _ _ _ _ I p it Ap Eq) as (k & pr & b & Hv & _).
    apply view_Some in Hv as (j & a & G & Hp & _); [|apply I].
    destruct (as_area _ (so_areas _ _ _ _ I) _ _ G). unfold IMAGE_START in *.
    by destruct (Z.leb_spec 0 p), (Z.ltb_spec p map_end); try lia. }
  split_and!; try done.
  pose proof (so_paid _ _ _ _ I) as P. rewrite (space_cost _ _ _ _ I) in P.
  apply (settle_sound _ _ [] (world s) (hw s) (set_vm v' (set_zero [] (set_areas [] (set_tables 0
    (set_brk_ None (space s)))))) _ areas_ok_nil) in P; [done|..]; fields.
  - split; [constructor|done].
  - by intros p it Ap; rewrite Q.
  - symmetry. apply full_count_nil.
  - pose proof (full_count_bound _ (so_areas _ _ _ _ I)) as F. rewrite <- (so_tables _ _ _ _ I) in F.
    pose proof (zlen_nonneg (areas (space s))). pose proof (zlen_nonneg (zero (space s))).
    unfold price. change (zlen []) with 0. lia.
Qed.

End calls.

(** A call that keeps what holds of a machine. *)
Definition keeps `{Ostd} {A} (P : Machine → Prop) (c : M Machine Error A) : Prop :=
  ∀ s r s', P s → c s = (r, s') → P s'.

Section keeps.
Context `{O : Ostd}.
Implicit Types (s : Machine).

Lemma keeps_pure {A} P (f : Machine → result Error A) : keeps P (λ s, (f s, s)).
Proof. by intros s r s' I [= <- <-]. Qed.

Lemma keeps_ret {A} P (y : A) : keeps P (mret y).
Proof. apply (keeps_pure P (λ _, Ok y)). Qed.

Lemma keeps_fail {A} P e : keeps P (fail (A := A) e).
Proof. apply (keeps_pure P (λ _, Err e)). Qed.

Lemma keeps_lift {A} P (r : result Error A) : keeps P (lift r).
Proof. apply (keeps_pure P (λ _, r)). Qed.

Lemma keeps_gets {A} P (f : Machine → A) : keeps P (gets f).
Proof. apply (keeps_pure P (λ s, Ok (f s))). Qed.

Lemma keeps_modify P (f : Machine → Machine) : (∀ s, P s → P (f s)) → keeps P (modify f).
Proof. intros H s r s' I [= <- <-]. auto. Qed.

Lemma keeps_bind {A B} P (c : M Machine Error A) (k : A → M Machine Error B) :
  keeps P c → (∀ y, keeps P (k y)) → keeps P (c ≫= k).
Proof.
  intros Hc Hk s r s' I. unfold mbind, M_bind. destruct (c s) as [[y|e] s1] eqn:E.
  - apply Hk. by eapply Hc.
  - intros [= <- <-]. by eapply Hc.
Qed.

End keeps.

Create HintDb keeps.
#[export] Hint Resolve keeps_ret keeps_fail keeps_lift keeps_gets : keeps.

(** Goes through the binds and branches of a call. *)
Ltac keep := repeat
  match goal with
  | |- ∀ _, _ => intros ?
  | |- keeps _ (mbind _ _) => apply keeps_bind
  | |- keeps _ (match ?c with _ => _ end) => destruct c
  | |- _ => solve [auto with keeps]
  end.

(** ** What every call keeps *)

(** The bounds of the heap are addresses. *)
Definition brk_u64 `{Ostd} (x : Space) : Prop :=
  ∀ b, brk_ x = Some b → u64 (b_start b) ∧ u64 (b_current b).
Definition brk_ok `{Ostd} (s : Machine) : Prop := brk_u64 (space s).

(** What a machine keeps whatever becomes of the space, as long as it is charged to the
    same entry and its heap has bounds, and of the frames. *)
Class Stable `{Ostd} (P : Machine → Prop) : Prop := {
  st_space s x : P s → charged x = charged (space s) → (brk_u64 (space s) → brk_u64 x) →
    P (set_space x s);
  st_hw s h : P s → P (set_hw h s);
  st_charge n : keeps P (charge_more n);
  st_settle s : P s → P (settle_space s);
}.

Section stable.
Context `{O : Ostd} (P : Machine → Prop) {SP : Stable P}.
Implicit Types (s : Machine).

Lemma keeps_on_space f :
  (∀ x, charged (f x) = charged x) → (∀ x, brk_ (f x) = brk_ x) → keeps P (on_space f).
Proof.
  intros Hc Hb. apply keeps_modify. intros s I. apply st_space; [done|apply Hc|].
  unfold brk_u64. by rewrite Hb.
Qed.

Lemma keeps_charge_more n : keeps P (charge_more n).
Proof. apply st_charge. Qed.

Lemma keeps_settle : keeps P (modify settle_space).
Proof. apply keeps_modify, st_settle. Qed.

Lemma keeps_free_tables ps va end_ : keeps P (act (free_tables ps va end_)).
Proof.
  intros s r s' I. unfold act, free_tables. destruct (neighbours _ _ _).
  intros [= <- <-]. by apply st_settle, st_space.
Qed.

Lemma brk_after_ok va end_ b :
  u64 (b_start b) ∧ u64 (b_current b) →
  u64 (b_start (brk_after va end_ b)) ∧ u64 (b_current (brk_after va end_ b)).
Proof. unfold brk_after, in_width. destruct (_ && _); simpl; lia. Qed.

Lemma keeps_remove_range va end_ : keeps P (modify (remove_range va end_)).
Proof.
  apply keeps_modify. intros s I. unfold remove_range, free_tables. destruct (neighbours _ _ _).
  apply st_space; [|done|done]. apply st_settle, st_space; [|done|done]. apply st_space; [done..|].
  intros Hb b. cbn. destruct (brk_ (space s)) as [b'|] eqn:Eb; simpl; [|done].
  intros [= <-]. by apply brk_after_ok, Hb.
Qed.

Lemma keeps_map_fill va a t : keeps P (map_fill va a t).
Proof.
  intros s r s' I. unfold map_fill. destruct (fill_ptes _ _ _ _ _ _) as [[[]|e] v];
    intros [<- <-]%pair_equal_spec; [|apply st_settle]; by repeat apply st_space.
Qed.

Lemma keeps_reprotect va end_ p : keeps P (reprotect va end_ p).
Proof.
  intros s r s' I. unfold reprotect. destruct (refill _ _ _) as [r' v]. intros [= <- <-].
  by apply st_space.
Qed.

Lemma keeps_zeroed_frame page : keeps P (zeroed_frame page).
Proof.
  intros s r s' I. unfold zeroed_frame. destruct (alloc_frame _) as [[f h]|];
    intros [<- <-]%pair_equal_spec; [|by apply st_settle].
  apply (st_space (set_hw h s)); [by apply st_hw|done..].
Qed.

End stable.
#[export] Hint Resolve keeps_on_space keeps_charge_more keeps_settle keeps_free_tables
  keeps_remove_range keeps_map_fill keeps_reprotect keeps_zeroed_frame : keeps.

#[export] Instance brk_stable `{Ostd} : Stable brk_ok.
Proof.
  split.
  - intros s x I _ Hb. by apply Hb.
  - done.
  - intros n s r s' I. unfold charge_more. destruct (charge_grow _ _ _). by intros [= <- <-].
  - done.
Qed.
#[export] Hint Resolve brk_stable : keeps.
