(* ===== verification/VmSteps.v ===== *)
(** * The calls on an address space, and the states they reach

    An address space is promised to its callers as a function from pages to what each page
    shows: the kind of the mapping, its protection and the page of the backing behind it.
    Here are the calls, what each does to that function, and the spaces any sequence of
    calls leaves, calls of other threads between the two halves of a discard included. *)

From S2P Require Import Prelude Abi Quota Account BTree Vm VmAreas VmEntries VmInv VmCalls.
Section steps.
Context {O : Ostd} {OL : OstdLaws}.
Implicit Types (a : Area) (b : Backing) (x : Space) (s : Machine).

(** ** Calls *)

Inductive call :=
| Map (at_ : option Z) (len : Z) (k : Kind) (p : Z) (b : Backing) (fixed : bool)
| MapPlane (m : MemoryObject) (first len : Z) (write : bool)
| Unmap (va len : Z) (only : option Kind)
| UnmapPlane (va len : Z) (m : MemoryObject)
| Protect (va len p : Z) (only : option Kind)
| PageFault (addr : Z) (access : Access)
| Populate (va len : Z) (write : bool)
| CopyIn (va : Z) (data : list byte)
| CopyOut (va len : Z)
| Discard (va len : Z)
| SetBrk (start : Z)
| ResetBrk (start : Z)
| MoveBrk (want : Z)
| Clear.

(** The value of a call that answers no number is left out. *)
Definition quietly {A} (c : M Machine Error A) : M Machine Error Z := _ ← c; mret 0.

Definition run (c : call) : M Machine Error Z :=
  match c with
  | Map at_ len k p b fixed => map_ at_ len k p b fixed
  | MapPlane m first len write => map_plane m first len write
  | Unmap va len only => quietly (unmap va len only)
  | UnmapPlane va len m => quietly (unmap_plane va len m)
  | Protect va len p only => quietly (protect va len p only)
  | PageFault addr access => quietly (fault addr access)
  | Populate va len write => quietly (populate va len write)
  | CopyIn va data => quietly (copy_in va data)
  | CopyOut va len => quietly (copy_out va len)
  | Discard va len => quietly (discard va len)
  | SetBrk start => quietly (set_brk start)
  | ResetBrk start => quietly (reset_brk start)
  | MoveBrk want => λ s, let '(cur, s) := brk want s in (Ok cur, s)
  | Clear => λ s, (Ok 0, clear s)
  end.

(** The arguments a caller may give: machine words, and a backing that has the pages asked
    for. *)
Definition call_ok (c : call) : Prop :=
  match c with
  | Map at_ len _ _ b _ =>
      u64 len ∧ (∀ va, at_ = Some va → u64 va) ∧
      ∀ n, pages len = Ok n → backing_ok (n / PAGE_SIZE) b
  | MapPlane m first len write =>
      u64 len ∧ ∀ n, pages len = Ok n → backing_ok (n / PAGE_SIZE) (Object m first write)
  | Unmap va len _ | UnmapPlane va len _ | Protect va len _ _ | Discard va len => u64 va ∧ u64 len
  | PageFault va _ | Populate va _ _ | CopyIn va _ | CopyOut va _ | SetBrk va | ResetBrk va
  | MoveBrk va => u64 va
  | Clear => True
  end.

(** When a call is made that lets the kernel choose the address: while no area lies across
    [MAP_BASE].  [find_free] does not look at one that does; [VmRun.straddling_map_hides] is
    what then happens. *)
Definition choice_ok (c : call) (s : Machine) : Prop :=
  match c with
  | Map None _ _ _ _ _ | MapPlane _ _ _ _ => unstraddled (areas (space s))
  | _ => True
  end.

(** ** What a call does to the pages *)

Definition Pages : Type := Z → option (Kind * Z * Backing).

Definition pages_of s : Pages := view (areas (space s)).

Definition within (va end_ q : Z) : bool := (va <=? q) && (q <? end_).

(** Every page of a range shows the mapping, the rest what it did. *)
Definition shows va end_ (k : Kind) p b (v v' : Pages) : Prop :=
  ∀ q, aligned q →
    v' q = if within va end_ q then Some (k, p, advanced b ((q - va) / PAGE_SIZE)) else v q.

Definition emptied va end_ (v v' : Pages) : Prop :=
  ∀ q, aligned q → v' q = if within va end_ q then None else v q.

Definition reprotected va end_ p (v v' : Pages) : Prop :=
  ∀ q, aligned q →
    v' q = if within va end_ q then (λ '(k, _, b), (k, p, b)) <$> v q else v q.

Definition unchanged (v v' : Pages) : Prop := ∀ q, v' q = v q.

(** No page of a range is a data plane's. *)
Definition no_plane va end_ (v : Pages) : Prop :=
  ∀ q, aligned q → va ≤ q < end_ → ∀ p b, v q ≠ Some (Plane, p, b).

Definition all_mapped va end_ (v : Pages) : Prop := ∀ q, va ≤ q < end_ → is_Some (v q).

Definition none_mapped va end_ (v : Pages) : Prop := ∀ q, va ≤ q < end_ → v q = None.

(** What a mapping finds where it goes, and what it leaves. *)
Definition map_spec (at_ : option Z) len k p b (fixed : bool) (r : result Error Z)
    (v v' : Pages) : Prop :=
  match r with
  | Ok va => ∃ n, pages len = Ok n ∧ shows va (va + n) k p b v v' ∧
      match at_ with
      | Some va' => va = va' ∧ no_plane va (va + n) v ∧
          (fixed = false → none_mapped va (va + n) v)
      | None => MAP_BASE < va ∧ none_mapped (va - PAGE_SIZE) (va + n + PAGE_SIZE) v
      end
  | Err _ => unchanged v v' ∨
      fixed = true ∧ ∃ va n, at_ = Some va ∧ pages len = Ok n ∧ emptied va (va + n) v v' ∧
        no_plane va (va + n) v
  end.

Definition spec (c : call) (r : result Error Z) (v v' : Pages) : Prop :=
  match c, r with
  | Map at_ len k p b fixed, r => map_spec at_ len k p b fixed r v v'
  | MapPlane m first len write, r =>
      map_spec None len Plane (if write then Z.lor map.READ map.WRITE else map.READ)
        (Object m first write) false r v v'
  | Unmap va len _, Ok _ => no_plane va (va + len) v ∧ emptied va (va + len) v v'
  | UnmapPlane va len m, Ok _ => emptied va (va + len) v v' ∧
      ∃ p first write m', mo_id m' = mo_id m ∧
        ∀ q, aligned q → va ≤ q < va + len →
          v q = Some (Plane, p, Object m' (first +! (q - va) / PAGE_SIZE) write)
  | Protect va len p _, Ok _ => all_mapped va (va + len) v ∧ no_plane va (va + len) v ∧
      reprotected va (va + len) p v v'
  | Discard va len, Ok _ => all_mapped va (va + len) v ∧ no_plane va (va + len) v ∧ unchanged v v'
  | MoveBrk want, Ok cur => unchanged v v' ∨
      cur = want ∧ ∃ have need, pages want = Ok need ∧ need ≤ MAP_BASE ∧
        (have < need ∧ none_mapped have need v ∧
           shows have need Mapping (Z.lor map.READ map.WRITE) Zero v v' ∨
         need < have ∧ no_plane need have v ∧ emptied need have v v')
  | Clear, Ok _ => ∀ q, v' q = None
  | _, _ => unchanged v v'
  end.

(** ** Every call keeps its promise *)

Variable total : Z.
Implicit Types (carves : list (id * list byte * Z * id)) (ps : list (Z * Z)).

Lemma within_spec va end_ q : within va end_ q = true ↔ va ≤ q < end_.
Proof. unfold within. rewrite andb_true_iff, Z.leb_le, Z.ltb_lt. done. Qed.

Lemma free_pages carves ps s va end_ :
  space_ok total carves ps s → free_range (areas (space s)) va end_ →
  none_mapped va end_ (pages_of s).
Proof.
  intros I F q Hq. unfold pages_of. destruct (view (areas (space s)) q) as [e|] eqn:E; [|done].
  apply view_Some in E as (j & a & G & Hj & _); [|apply I]. destruct (F _ _ G); lia.
Qed.

Lemma plane_pages carves ps s va end_ :
  space_ok total carves ps s →
  (∀ j a, bt_get (areas (space s)) j = Some a → j < end_ → va < a_end a → kind a ≠ Plane) →
  no_plane va end_ (pages_of s).
Proof.
  intros I H q _ Hq p b E. apply view_Some in E as (j & a & G & Hj & Ek); [|apply I].
  unfold page_of in Ek. injection Ek as Ek _ _. eapply H; [done|lia..|done].
Qed.

Lemma unplane_mapped va end_ (v : Pages) :
  (∀ q, va ≤ q < end_ → ∃ k pr b, v q = Some (k, pr, b) ∧ k ≠ Plane) →
  all_mapped va end_ v ∧ no_plane va end_ v.
Proof.
  intros H. split; [intros q Hq|intros q _ Hq p b]; destruct (H q Hq) as (k & pr & c & -> & Hk);
    [done|congruence].
Qed.

Lemma map_refines carves ps s at_ len k p b fixed r s' :
  space_ok total carves ps s → call_ok (Map at_ len k p b fixed) →
  choice_ok (Map at_ len k p b fixed) s → map_ at_ len k p b fixed s = (r, s') →
  space_ok total carves ps s' ∧ map_spec at_ len k p b fixed r (pages_of s) (pages_of s').
Proof.
  intros I (Hl & Ha & Hb) Hc E.
  assert (place_ok at_ (areas (space s))) as Hp by (destruct at_; [by apply Ha|done]).
  destruct (map_sound _ _ _ _ _ _ _ _ _ _ _ _ I Hl Hp Hb E) as [I' R]. clear Hp.
  split; [done|]. destruct r as [va|e]; simpl.
  - destruct R as (n & s1 & Hn & R & Ad). exists n. split; [done|].
    destruct at_ as [va'|].
    + destruct R as (-> & F & [->|(-> & L & Hp)]).
      * split; [intros q Aq; apply Ad, Aq|]. split; [done|].
        pose proof (free_pages _ _ _ _ _ I F) as N. split; [|done].
        intros q _ Hq ? ?. by rewrite N.
      * split; [|split; [done|split; [by eapply plane_pages|done]]].
        intros q Aq. destruct (Ad q Aq) as [Aq' _]. unfold pages_of, within. rewrite Aq'.
        destruct (_ && _) eqn:Ew; [done|]. destruct (L q Aq) as [Lq _].
        rewrite Ew in Lq. exact Lq.
    + destruct R as (-> & Hva & F). split; [intros q Aq; apply Ad, Aq|]. split; [done|].
      by eapply free_pages.
  - destruct R as [->|(-> & va & n & -> & Hn & L & Hp)]; [by left|]. right. split; [done|].
    exists va, n. split_and!; [done|done|intros q Aq; apply L, Aq|by eapply plane_pages].
Qed.

Lemma unmap_refines carves ps s va len only r s' :
  space_ok total carves ps s → u64 va → u64 len → unmap va len only s = (r, s') →
  space_ok total carves ps s' ∧
  match r with
  | Ok _ => no_plane va (va + len) (pages_of s) ∧ emptied va (va + len) (pages_of s) (pages_of s')
  | Err _ => s' = s
  end.
Proof.
  intros I Hv Hl E. destruct (unmap_sound _ _ _ _ _ _ _ _ _ I Hv Hl E) as [I' R].
  split; [done|]. destruct r as [[]|e]; [|done]. destruct R as (end_ & Er & L & Hp).
  destruct (check_range_spec _ _ _ Hv Hl Er) as (_ & _ & _ & -> & _).
  split; [by eapply plane_pages|]. intros q Aq. apply L, Aq.
Qed.

Lemma unmap_plane_refines carves ps s va len m r s' :
  space_ok total carves ps s → u64 va → u64 len → unmap_plane va len m s = (r, s') →
  space_ok total carves ps s' ∧
  match r with
  | Ok _ => emptied va (va + len) (pages_of s) (pages_of s') ∧
      ∃ p first write m', mo_id m' = mo_id m ∧
        ∀ q, aligned q → va ≤ q < va + len →
          pages_of s q = Some (Plane, p, Object m' (first +! (q - va) / PAGE_SIZE) write)
  | Err _ => s' = s
  end.
Proof.
  intros I Hv Hl E. destruct (unmap_plane_sound _ _ _ _ _ _ _ _ _ I Hv Hl E) as [I' R].
  split; [done|]. destruct r as [[]|e]; [|done].
  destruct R as (end_ & a & first & wr & Er & G & Ee & Ek & (m' & Eb & Em) & L).
  destruct (check_range_spec _ _ _ Hv Hl Er) as (_ & _ & _ & -> & _).
  split; [intros q Aq; apply L, Aq|]. exists (prot a), first, wr, m'. split; [done|].
  intros q Aq Hq. apply view_Some; [apply I|]. exists va, a. split_and!; [done|lia|lia|].
  unfold page_of. simpl. by rewrite Ek, Eb.
Qed.

Lemma protect_refines carves ps s va len p only r s' :
  space_ok total carves ps s → u64 va → u64 len → protect va len p only s = (r, s') →
  space_ok total carves ps s' ∧
  match r with
  | Ok _ => all_mapped va (va + len) (pages_of s) ∧ no_plane va (va + len) (pages_of s) ∧
      reprotected va (va + len) p (pages_of s) (pages_of s')
  | Err _ => s' = s
  end.
Proof.
  intros I Hv Hl E. destruct (protect_sound _ _ _ _ _ _ _ _ _ _ I Hv Hl E) as [I' R].
  split; [done|]. destruct r as [[]|e]; [|done]. destruct R as (end_ & Er & L & Hp).
  destruct (check_range_spec _ _ _ Hv Hl Er) as (_ & _ & _ & -> & _).
  destruct (unplane_mapped _ _ _ Hp) as [H1 H2]. split_and!; [done|done|].
  intros q Aq. apply L, Aq.
Qed.

Lemma pending_cons ps va end_ p : pending ((va, end_) :: ps) p → pending ps p ∨ va ≤ p < end_.
Proof.
  intros (lo & hi & [[= -> ->]|Hin]%elem_of_cons & Hp); [by right|]. left. by exists lo, hi.
Qed.

Lemma discard_refines carves ps s va len r s' :
  space_ok total carves ps s → u64 va → u64 len → discard va len s = (r, s') →
  space_ok total carves ps s' ∧ unchanged (pages_of s) (pages_of s') ∧
  match r with
  | Ok _ => all_mapped va (va + len) (pages_of s) ∧ no_plane va (va + len) (pages_of s)
  | Err _ => s' = s
  end.
Proof.
  intros I Hv Hl. unfold discard, mbind, M_bind, lift.
  destruct (check_range va len) as [end_|e] eqn:Er; [|by intros [= <- <-]].
  destruct (check_range_spec _ _ _ Hv Hl Er) as (_ & _ & _ & Ee & _).
  destruct (discard_pages va end_ s) as [r1 s1] eqn:E1.
  destruct (discard_pages_sound _ _ _ _ _ _ _ _ I E1) as [S1 R1].
  destruct r1 as [[]|e]; [|subst s1; by intros [= <- <-]]. destruct R1 as [I1 C].
  intros E2.
  destruct (discard_entries_sound _ _ _ ps _ _ _ _ _ _ I1 Hv Hl Er (pending_cons _ _ _) E2)
    as (-> & I2 & S2).
  subst end_. apply unplane_mapped in C as [C1 C2]. split_and!; try done.
  intros q. unfold pages_of, same_areas in *. congruence.
Qed.

(** ** Steps of a space *)

(** A space is used by the threads of its process.  A call runs under the space's lock,
    but for the two halves of a discard, the pages of a copy, and the end of [brk] after the
    mapping or unmapping it makes; a fixed mapping that finds its range taken is an
    unmapping and a mapping that is not fixed.  [may] says which calls are made. *)
Inductive local (may : call → Prop) : list (Z * Z) * Machine → list (Z * Z) * Machine → Prop :=
| local_call ps s c r s' :
    may c → call_ok c → choice_ok c s → run c s = (r, s') → local may (ps, s) (ps, s')
| local_discard_pages ps s va len end_ s' :
    u64 va → u64 len → check_range va len = Ok end_ →
    discard_pages va end_ s = (Ok tt, s') → local may (ps, s) ((va, end_) :: ps, s')
| local_discard_entries ps1 ps2 s va end_ s' :
    discard_entries va end_ s = (Ok tt, s') →
    local may (ps1 ++ (va, end_) :: ps2, s) (ps1 ++ ps2, s')
| local_page_frame ps s page write r s' :
    aligned page → page_frame page write s = (r, s') → local may (ps, s) (ps, s')
| local_brk_end ps s want :
    u64 want → local may (ps, s) (ps, set_space (brk_moved want (space s)) s).

(** ** What every call keeps *)

Section stable.
Context (P : Machine → Prop) {SP : Stable P}.

Lemma keeps_unmap va len only : keeps P (unmap va len only).
Proof. unfold unmap. keep. Qed.

Lemma keeps_map at_ len k p b fixed : keeps P (map_ at_ len k p b fixed).
Proof. unfold map_, map_at. keep; auto using keeps_unmap with keeps. Qed.

Lemma pages_u64 n m : u64 n → pages n = Ok m → u64 m ∧ aligned m.
Proof.
  intros Hn E. destruct (pages_round _ _ Hn E) as (A & B & C). unfold in_width in *.
  split; [lia|done].
Qed.

Lemma keeps_frame k a page : keeps P (frame k a page).
Proof. unfold frame. keep; auto with keeps. Qed.

Lemma keeps_touch k a page : keeps P (touch k a page).
Proof. unfold touch. keep; auto using keeps_frame with keeps. Qed.

Lemma keeps_populate va len write : keeps P (populate va len write).
Proof.
  unfold populate. keep. generalize (Z.to_nat ((z - Z.land va page_mask) / PAGE_SIZE + 1)).
  intros fuel. generalize (Z.land va page_mask). induction fuel as [|fuel IH]; intros page; simpl;
    [auto with keeps|]. keep. by apply keeps_touch.
Qed.

Lemma keeps_page_frame page write : keeps P (page_frame page write).
Proof. unfold page_frame. keep; auto using keeps_frame, keeps_touch with keeps. Qed.

Lemma keeps_copy_in va data : keeps P (copy_in va data).
Proof.
  unfold copy_in. generalize 0. induction (length data) as [|fuel IH]; intros n; simpl;
    [auto with keeps|]. keep.
  - apply keeps_page_frame.
  - intros s r s' I. unfold write_page. destruct (_ ≫= _); intros [= <- <-]; [by apply st_hw|done].
  - by apply keeps_on_space.
Qed.

Lemma keeps_copy_out va len : keeps P (copy_out va len).
Proof.
  unfold copy_out. generalize 0, (@nil byte). induction (Z.to_nat len) as [|fuel IH];
    intros n buf; simpl; [auto with keeps|]. keep.
  - apply keeps_page_frame.
  - by apply keeps_on_space.
Qed.

Lemma set_brk_keeps start : u64 start → keeps P (set_brk start) ∧ keeps P (reset_brk start).
Proof.
  intros Hs. assert (∀ n, pages start = Ok n → keeps P (on_space (set_brk_ (Some (mk_Brk n n))))) as H.
  { intros n En. apply keeps_modify. intros s I. apply st_space; [done..|]. intros _ b [= <-].
    by apply (pages_u64 _ _ Hs) in En as []. }
  assert (∀ (k : Z → M Machine Error unit), (∀ n, pages start = Ok n → keeps P (k n)) →
    keeps P (n ← lift (pages start); k n)) as L.
  { intros k Hk s r s' I. unfold mbind, M_bind, lift. destruct (pages start) as [n|e] eqn:E.
    - by apply Hk.
    - by intros [= <- <-]. }
  split.
  - apply L. intros n En. keep.
  - unfold reset_brk. apply keeps_bind; [|intros _].
    { apply keeps_modify. intros s I. by apply st_space. }
    case_match; [auto with keeps|]. apply L. intros n En. keep.
Qed.

Lemma brk_moved_keeps s want : u64 want → P s → P (set_space (brk_moved want (space s)) s).
Proof.
  intros Hw I. apply st_space; [done..|]. intros Hb b. cbn.
  destruct (brk_ (space s)) as [b'|] eqn:Eb; [|done]. intros [= <-]. by destruct (Hb _ Eb).
Qed.

Lemma brk_keeps s want : u64 want → P s → P (brk want s).2.
Proof.
  intros Hw B. unfold brk. destruct (brk_ (space s)) as [[start current]|]; [|done].
  destruct (_ <? _); [done|]. destruct (pages current) as [have|], (pages want) as [need|]; try done.
  destruct (_ <? _); [done|].
  assert (keeps P (move_brk have need)) as Km.
  { unfold move_brk. keep; [apply keeps_map|apply keeps_unmap]. }
  destruct (move_brk have need s) as [[[]|e] s1] eqn:Em; pose proof (Km _ _ _ B Em) as B1; [|done].
  by apply brk_moved_keeps.
Qed.

Lemma keeps_run c : call_ok c → keeps P (run c).
Proof.
  destruct c as [at_ len k p b fixed|m first len write|va len only|va len m|va len p only
    |addr access|va len write|va data|va len|va len|start|start|want|]; intros Hc; simpl run;
    unfold quietly; try lazymatch goal with |- keeps _ (mbind _ _) => apply keeps_bind; [|auto with keeps] end.
  - apply keeps_map.
  - apply keeps_map.
  - apply keeps_unmap.
  - unfold unmap_plane. keep; auto with keeps.
  - unfold protect. keep; auto with keeps.
  - unfold fault. keep. apply keeps_touch.
  - apply keeps_populate.
  - apply keeps_copy_in.
  - apply keeps_copy_out.
  - unfold discard, discard_pages. keep; by apply keeps_on_space.
  - by apply set_brk_keeps.
  - by apply set_brk_keeps.
  - intros s r s' B. pose proof (brk_keeps s want Hc B) as B'. destruct (brk want s).
    by intros [= <- <-].
  - intros s r s' I [= <- <-]. unfold clear, clear_areas. apply st_space; [|done|done].
    by apply st_settle, st_space.
Qed.

Lemma keeps_discard_pages va end_ : keeps P (discard_pages va end_).
Proof. unfold discard_pages. keep; by apply keeps_on_space. Qed.

Lemma keeps_discard_entries va end_ : keeps P (discard_entries va end_).
Proof. by apply keeps_on_space. Qed.

(** A step of a space keeps it. *)
Lemma keeps_local may ps s ps' s' : local may (ps, s) (ps', s') → P s → P s'.
Proof.
  intros St I. remember (ps, s) as c0 eqn:E0. remember (ps', s') as c1 eqn:E1.
  destruct St as [qs t c r t' _ Hc Hn E|qs t va len end_ t' Hv Hl Er E
    |ps1 ps2 t va end_ t' E|qs t page write r t' Ap E|qs t want Hw]; simplify_eq.
  - by eapply keeps_run.
  - by eapply keeps_discard_pages.
  - by eapply keeps_discard_entries.
  - by eapply keeps_page_frame.
  - by apply brk_moved_keeps.
Qed.

End stable.

(** ** The program break *)

Lemma pages_aligned n : 0 ≤ n < 2 ^ 63 → aligned n → pages n = Ok n.
Proof.
  intros Hn [k E]%aligned_mul. unfold pages, checked_add. change (umax 64) with (2 ^ 64 - 1).
  destruct (Z.leb_spec (n + (PAGE_SIZE - 1)) (2 ^ 64 - 1)) as [_|H]; [|unfold PAGE_SIZE in H; lia].
  change (Ok (E := Error) (Z.land (n + (PAGE_SIZE - 1)) page_mask) = Ok n). f_equal.
  rewrite land_mask by (unfold in_width, PAGE_SIZE; lia). rewrite E, (Z.add_comm (k * _)), Z_mod_plus_full.
  change ((PAGE_SIZE - 1) mod PAGE_SIZE) with (PAGE_SIZE - 1). lia.
Qed.

Lemma move_brk_refines carves ps s have need r s' :
  space_ok total carves ps s → u64 have → aligned have → u64 need → aligned need →
  need ≤ MAP_BASE → move_brk have need s = (r, s') →
  space_ok total carves ps s' ∧
  match r with
  | Ok _ => unchanged (pages_of s) (pages_of s') ∨
      (have < need ∧ none_mapped have need (pages_of s) ∧
         shows have need Mapping (Z.lor map.READ map.WRITE) Zero (pages_of s) (pages_of s') ∨
       need < have ∧ no_plane need have (pages_of s) ∧
         emptied need have (pages_of s) (pages_of s'))
  | Err _ => unchanged (pages_of s) (pages_of s')
  end.
Proof.
  intros I Uh Ah Un An Hb. assert (MAP_BASE = 0x100000000000) as Eb by done.
  assert (∀ i j, u64 i → u64 j → i < j → j -! i = j - i) as Es.
  { intros i j ? ? ?. apply wrap_small. unfold in_width in *. lia. }
  unfold move_brk. destruct (Z.ltb_spec have need) as [Hlt|].
  - rewrite Es by done. set (c := Map (Some have) (need - have) Mapping (Z.lor map.READ map.WRITE) Zero false).
    assert (pages (need - have) = Ok (need - have)) as Ep.
    { unfold in_width in *. by apply pages_aligned, aligned_sub; [lia|..]. }
    unfold mbind, M_bind. destruct (map_ _ _ _ _ _ _ s) as [r1 s1] eqn:Em.
    assert (call_ok c) as Hc.
    { split; [unfold in_width in *; lia|]. split; [by intros va [= <-]|]. by rewrite Ep. }
    destruct (map_refines _ _ _ _ _ _ _ _ _ _ _ I Hc ltac:(done) Em) as [I1 R].
    destruct r1 as [va|e].
    + intros [= <- <-]. split; [done|]. right. left.
      destruct R as (n & En & R & -> & _ & Hf). rewrite Ep in En. injection En as <-.
      replace (have + (need - have)) with need in * by lia. split_and!; [done|by apply Hf|done].
    + intros [= <- <-]. split; [done|]. by destruct R as [?|[? _]].
  - destruct (Z.ltb_spec need have) as [Hlt|]; [|intros [= <- <-]; split; [done|by left]].
    rewrite Es by done. intros Eu.
    assert (u64 (have - need)) as Hl by (unfold in_width in *; lia).
    destruct (unmap_refines _ _ _ _ _ _ _ _ I Un Hl Eu) as [I1 R].
    replace (need + (have - need)) with have in R by lia.
    split; [done|]. destruct r as [[]|e]; [|by subst]. right. right. by destruct R.
Qed.

Lemma brk_refines carves ps s want cur s' :
  space_ok total carves ps s → brk_ok s → u64 want → brk want s = (cur, s') →
  space_ok total carves ps s' ∧ spec (MoveBrk want) (Ok cur) (pages_of s) (pages_of s').
Proof.
  intros I B Hw. unfold brk. destruct (brk_ (space s)) as [[start current]|] eqn:Eb;
    [|intros [= <- <-]; split; [done|by left]].
  destruct (B _ Eb) as [Hs Hc]. simpl in Hs, Hc.
  destruct (want <? start); [intros [= <- <-]; split; [done|by left]|].
  destruct (pages current) as [have|] eqn:Eh; [|intros [= <- <-]; split; [done|by left]].
  destruct (pages want) as [need|] eqn:En; [|intros [= <- <-]; split; [done|by left]].
  destruct (Z.ltb_spec MAP_BASE need); [intros [= <- <-]; split; [done|by left]|].
  destruct (pages_u64 _ _ Hc Eh) as [Uh Ah]. destruct (pages_u64 _ _ Hw En) as [Un An].
  destruct (move_brk have need s) as [r s1] eqn:Em.
  destruct (move_brk_refines _ _ _ _ _ _ _ I Uh Ah Un An ltac:(lia) Em) as [I1 R].
  destruct r as [[]|e]; [|intros [= <- <-]; split; [done|by left]].
  intros [<- <-]%pair_equal_spec. split.
  - by eapply same_space; [..|exact I1].
  - simpl. destruct R as [R|R]; [by left|right]. split; [done|]. exists have, need.
    split; [done|]. split; [lia|]. exact R.
Qed.

(** ** Every call *)

Lemma quietly_inv {A} (c : M Machine Error A) s r s' :
  quietly c s = (r, s') →
  ∃ r0, c s = (r0, s') ∧ r = match r0 with Ok _ => Ok 0 | Err e => Err e end.
Proof.
  unfold quietly, mbind, M_bind. destruct (c s) as [[y|e] s1]; intros [= <- <-]; eauto.
Qed.

Lemma quiet_refines {A} carves ps (c : M Machine Error A) s r s' :
  quiet total carves ps c → space_ok total carves ps s → quietly c s = (r, s') →
  space_ok total carves ps s' ∧ unchanged (pages_of s) (pages_of s').
Proof.
  intros Hq I (r0 & E & _)%quietly_inv. destruct (Hq _ _ _ I E) as [I' S]. split; [done|].
  intros q. unfold pages_of, same_areas in *. by rewrite S.
Qed.

Lemma set_brk_quiet carves ps start :
  quiet total carves ps (set_brk start) ∧ quiet total carves ps (reset_brk start).
Proof.
  assert (∀ f, (∀ x, ∃ bk, f x = set_brk_ bk x) → quiet total carves ps (on_space f)) as H.
  { intros f Hf s r s' I [= <- <-]. destruct (Hf (space s)) as [bk ->]. split; [|done].
    by eapply same_space; [..|exact I]. }
  split.
  - apply quiet_bind; [apply quiet_lift|]. intros n. apply quiet_gets. intros s r s'.
    destruct (brk_ (space s)); [apply quiet_fail|apply H; eauto].
  - apply quiet_bind; [apply H; eauto|]. intros _. case_match; [apply quiet_ret|].
    apply quiet_bind; [apply quiet_lift|]. intros n. apply quiet_gets. intros s r s'.
    destruct (area_at _ _); [apply quiet_fail|apply H; eauto].
Qed.

Lemma run_sound carves ps s c r s' :
  space_ok total carves ps s → brk_ok s → call_ok c → choice_ok c s → run c s = (r, s') →
  space_ok total carves ps s' ∧ spec c r (pages_of s) (pages_of s').
Proof.
  intros I B Hc Hn. destruct c as [at_ len k p b fixed|m first len write|va len only|va len m
    |va len p only|addr access|va len write|va data|va len|va len|start|start|want|];
    simpl in Hc; cbn [run]; intros E.
  - by eapply map_refines.
  - eapply map_refines; [done| | |exact E]; [by destruct Hc|done].
  - destruct Hc. apply quietly_inv in E as (r0 & E & ->).
    eapply unmap_refines in E as [I' R]; [|done..]. split; [done|]. by destruct r0; [|subst].
  - destruct Hc. apply quietly_inv in E as (r0 & E & ->).
    eapply unmap_plane_refines in E as [I' R]; [|done..]. split; [done|]. by destruct r0; [|subst].
  - destruct Hc. apply quietly_inv in E as (r0 & E & ->).
    eapply protect_refines in E as [I' R]; [|done..]. split; [done|]. by destruct r0; [|subst].
  - by eapply quiet_refines in E; [|apply fault_quiet|].
  - by eapply quiet_refines in E; [|apply populate_quiet|].
  - eapply quiet_refines in E; [done| |done]. by apply each_page_quiet; [..|apply write_page_quiet].
  - by eapply quiet_refines in E; [|apply copy_pages_quiet|].
  - destruct Hc. apply quietly_inv in E as (r0 & E & ->).
    eapply discard_refines in E as (I' & U & R); [|done..]. split; [done|].
    destruct r0; [|done]. destruct R. split_and!; done.
  - by eapply quiet_refines in E; [|apply set_brk_quiet|].
  - by eapply quiet_refines in E; [|apply set_brk_quiet|].
  - destruct (brk want s) as [cur s1] eqn:Eb. injection E as <- <-. by apply (brk_refines _ _ s).
  - injection E as <- <-. destruct (clear_sound _ _ _ _ I) as (I' & Ea & _ & Q). split.
    + eapply space_ok_pending; [|exact I']. intros p it Ap Hq. by rewrite Q in Hq.
    + intros q. unfold pages_of. by rewrite Ea.
Qed.

(** ** Reachable spaces *)

(** The accounts carved but not yet recorded, the ranges whose pages are discarded and whose
    entries are still to go, and the machine. *)
Definition conf : Type := list (id * list byte * Z * id) * list (Z * Z) * Machine.

(** The rest of the kernel uses the accounts and the frames. *)
Inductive step : conf → conf → Prop :=
| step_local carves ps s ps' s' :
    local (λ _, True) (ps, s) (ps', s') → step (carves, ps, s) (carves, ps', s')
| step_accounts carves carves' ps s w' :
    Account.step (world s, carves) (w', carves') →
    charges w' !! charged (space s) = charges (world s) !! charged (space s) →
    step (carves, ps, s) (carves', ps, set_world w' s)
| step_hw carves ps s h :
    step (carves, ps, s) (carves, ps, set_hw h s).

(** A space as [Space::new] makes it, in a machine that has run for a while. *)
Inductive init (lim : Z) : conf → Prop :=
| init_new carves i w x w' h :
    rtc Account.step (machine lim, []) (w, carves) → is_Some (accounts w !! i) →
    space_new i w = (Ok x, w') → init lim (carves, [], mk_Machine w' h x).

Definition reachable (lim : Z) (c : conf) : Prop := ∃ c0, init lim c0 ∧ rtc step c0 c.

Definition range_ok (e : Z * Z) : Prop :=
  ∃ len, u64 e.1 ∧ u64 len ∧ check_range e.1 len = Ok e.2.

Record conf_ok (c : conf) : Prop := {
  co_space : space_ok total c.1.1 c.1.2 c.2;
  co_brk : brk_ok c.2;
  co_ranges : Forall range_ok c.1.2;
}.

Lemma local_ok may carves ps s ps' s' :
  local may (ps, s) (ps', s') → conf_ok (carves, ps, s) → conf_ok (carves, ps', s').
Proof.
  intros St [I B R]. simpl in *. pose proof (keeps_local brk_ok _ _ _ _ _ St B) as B'.
  remember (ps, s) as c0 eqn:E0. remember (ps', s') as c1 eqn:E1.
  destruct St as [qs t c r t' _ Hc Hn E|qs t va len end_ t' Hv Hl Er E
    |ps1 ps2 t va end_ t' E|qs t page write r t' Ap E|qs t want Hw]; simplify_eq.
  - split; simpl; [by eapply run_sound|done|done].
  - split; simpl; [|done|].
    + by apply (discard_pages_sound _ _ _ _ _ _ _ _ I) in E as [_ [I' _]].
    + constructor; [|done]. by exists len.
  - apply Forall_app in R as [R1 [Hr R2]%Forall_cons]. destruct Hr as (len & Hv & Hl & Er).
    split; simpl; [|done|by apply Forall_app].
    eapply discard_entries_sound in E as (_ & I' & _); [exact I'|exact I|done..|].
    intros p (lo & hi & Hin & Hp). apply elem_of_app in Hin as [?|[[= -> ->]|?]%elem_of_cons].
    + left. exists lo, hi. split; [apply elem_of_app; by left|done].
    + by right.
    + left. exists lo, hi. split; [apply elem_of_app; by right|done].
  - split; simpl; [by eapply page_frame_quiet|done|done].
  - split; simpl; [by eapply same_space; [..|exact I]|done|done].
Qed.

Lemma step_ok c c' : step c c' → conf_ok c → conf_ok c'.
Proof.
  intros St Hok. destruct St as [carves ps s ps' s' St|carves carves' ps s w' St Hch|carves ps s h];
    [by eapply local_ok|destruct Hok as [I B R]; simpl in *..].
  - split; simpl; [|done|done]. split; try apply I. destruct (so_paid _ _ _ _ I) as [Ia (ch & Hc & Hb)].
    split; [by apply (step_inv _ _ _ _ _ Ia St)|]. exists ch. simpl. by rewrite Hch.
  - split; [|done|done]. by eapply same_space; [..|exact I].
Qed.

(** A new space: in order, charged to an entry of its own, the other entries as they were. *)
Lemma space_new_ok carves i w (x : Space) w' h :
  Account.inv total w carves → is_Some (accounts w !! i) → space_new i w = (Ok x, w') →
  conf_ok (carves, [], mk_Machine w' h x) ∧ charges w !! fixed_charge x = None ∧
  (∀ c, is_Some (charges w !! c) → charges w' !! c = charges w !! c) ∧
  areas x = [] ∧ charges w !! charged x = None.
Proof.
  intros Ia Hi E. unfold space_new in E.
  destruct (charge_new i charge.SPACE w) as [[f|e] w1] eqn:E1; [|done].
  destruct (inv_fresh _ _ _ Ia) as [_ F0].
  assert (is_Some (accounts w1 !! i) ∧ f = next w ∧ next w1 = S (next w) ∧
    (∀ c, c ≠ next w → charges w1 !! c = charges w !! c)) as (Hi1 & -> & Hn1 & Hc1).
  { clear E. revert E1. rewrite charge_new_eq. destruct Hi as [a Ha].
    destruct (inv_account _ _ _ Ia _ _ Ha) as [Ok1 _]. assert (u64 charge.SPACE) as Hs by done.
    destruct (charge_cases i charge.SPACE a w Ha Ok1 Hs) as [(l & -> & _)|[-> _]]; [|done].
    intros [= <- <-]. simpl. rewrite lookup_insert_eq. split_and!; [by eexists|done|done|].
    intros c Hc. by rewrite lookup_insert_ne. }
  eapply (inv_charge_new _ _ _ _ _ _ _ Ia Hi) in E1 as Ia1; [|done].
  destruct (inv_fresh _ _ _ Ia1) as [_ F1].
  destruct (charge_new i 0 w1) as [[ch|e] w2] eqn:E2; [|done]. injection E as <- <-.
  eapply (inv_charge_new _ _ _ _ _ _ _ Ia1 Hi1) in E2 as Ia2; [|done].
  assert (ch = next w1 ∧ charges w2 = <[next w1 := mk_Charge i 0]> (charges w1)) as [-> Hc2].
  { revert E2. rewrite charge_new_eq. unfold charge, try_charge. simpl. by intros [= <- <-]. }
  split_and!; simpl.
  - split; simpl; [|done|by constructor]. split; simpl.
    + apply areas_ok_nil.
    + split; [constructor|done].
    + intros p it _. by rewrite query_new.
    + symmetry. apply full_count_nil.
    + split; [done|]. simpl. rewrite Hc2, lookup_insert_eq. by eexists.
  - done.
  - intros c Hc. rewrite Hc2, lookup_insert_ne.
    + apply Hc1. intros ->. rewrite F0 in Hc. by destruct Hc.
    + intros <-. destruct Hc as [y Hy]. rewrite Hc1 in F1; [congruence|lia].
  - done.
  - rewrite <- (Hc1 (next w1)); [done|lia].
Qed.

Lemma init_ok c : u64 total → init total c → conf_ok c.
Proof.
  intros Hl [carves i w x w' h R Hi E]. pose proof (reachable_inv _ _ _ Hl R) as Ia.
  by destruct (space_new_ok _ _ _ _ _ h Ia Hi E).
Qed.

Lemma reachable_ok c : u64 total → reachable total c → conf_ok c.
Proof.
  intros Hl (c0 & Hi & R). apply init_ok in Hi; [|done].
  induction R as [|c1 c2 c3 St _ IH]; [done|]. by apply IH, (step_ok c1).
Qed.

(** ** First touches *)

Definition item_flags (it : Item UFrame IoMem) : Z := match it with Ram _ fl | Mmio _ fl _ => fl end.

(** An entry the processor lets an access through. *)
Definition grants (it : Item UFrame IoMem) (access : Access) : bool :=
  match access with
  | Read => true
  | Write => negb (Z.land (item_flags it) PageFlags.W =? 0)
  | Execute => negb (Z.land (item_flags it) PageFlags.X =? 0)
  end.

Definition granted s (page : Z) (access : Access) : Prop :=
  ∃ it, cursor_query (vm (space s)) page = Some it ∧ grants it access = true.

Lemma page_flags_grant pr access it :
  item_flags it = page_flags pr → allows pr access = true → grants it access = true.
Proof.
  intros E. destruct access; simpl; [done| |]; rewrite E; unfold page_flags; intros ->;
    [by destruct (negb (Z.land pr map.EXECUTE =? 0))
    |by destruct (negb (Z.land pr map.WRITE =? 0))].
Qed.

Lemma present_granted carves ps s q k a access it :
  space_ok total carves ps s → aligned q → area_at (areas (space s)) q = Some (k, a) →
  allows (prot a) access = true → cursor_query (vm (space s)) q = Some it → granted s q access.
Proof.
  intros I Aq Ha Hal Hq. exists it. split; [done|].
  destruct (so_entries _ _ _ _ I q it Aq Hq) as (kd & pr & b & Hv & _ & Hit).
  unfold view in Hv. rewrite Ha in Hv. injection Hv as _ <- _.
  eapply page_flags_grant; [|done]. destruct it, b; try done; by destruct Hit.
Qed.

Lemma touch_adds carves ps s k a page s' :
  space_ok total carves ps s → aligned page → area_at (areas (space s)) page = Some (k, a) →
  touch k a page s = (Ok tt, s') →
  is_Some (cursor_query (vm (space s')) page) ∧
  ∀ q it, cursor_query (vm (space s)) q = Some it → cursor_query (vm (space s')) q = Some it.
Proof.
  intros I Ap Ha. unfold touch, mbind, M_bind, gets, mret, M_ret, fail.
  destruct (negb _); [done|].
  destruct (cursor_query (vm (space s)) page) as [it|] eqn:Eq; [intros [= <-]; by rewrite Eq|].
  destruct (frame k a page s) as [rf s1] eqn:Ef.
  destruct (frame_sound _ _ _ _ _ _ _ _ _ I Ap Ha Ef) as (_ & _ & V1 & _).
  destruct rf as [f|er]; [|done]. destruct (negb _); [done|]. unfold on_space, modify.
  intros [_ <-]%pair_equal_spec. cbn [space set_space vm set_vm]. split.
  - rewrite query_map, Z.eqb_refl. done.
  - intros q it Hq. rewrite query_map. destruct (Z.eqb_spec q page) as [->|]; [congruence|].
    by rewrite V1.
Qed.

(** C39: a page fault the kernel answers is resolved, in every space whose kernel chooses
    addresses only while no mapping lies across [MAP_BASE]. When [fault] says the access may go on,
    the page has an entry that lets it through, so the instruction does not fault again; when
    it says the process is at fault, no area holds the page or its protection forbids the
    access; and nothing a page shows changes. *)
Theorem fault_resolves carves ps s addr access r s' :
  u64 total → reachable total (carves, ps, s) → u64 addr → fault addr access s = (r, s') →
  unchanged (pages_of s) (pages_of s') ∧
  let page := Z.land addr page_mask in
  match r with
  | Ok true => granted s' page access
  | Ok false => s' = s ∧ ∀ k pr b, pages_of s page = Some (k, pr, b) → allows pr access = false
  | Err _ => ∃ k pr b, pages_of s page = Some (k, pr, b) ∧ allows pr access = true
  end.
Proof.
  intros Hl [I _ _]%reachable_ok Hu E; [|done]. simpl in I.
  destruct (fault_quiet _ _ ps addr access Hu _ _ _ I E) as [I' S].
  split; [intros q; unfold pages_of, same_areas in *; by rewrite S|]. cbv zeta.
  pose proof (land_mask_aligned _ Hu) as Ap. revert E. unfold fault, pages_of.
  set (page := Z.land addr page_mask) in *. unfold mbind, M_bind, gets, mret, M_ret.
  destruct (area_at (areas (space s)) page) as [[k a]|] eqn:Ea.
  - assert (view (areas (space s)) page = Some (page_of page (k, a))) as Hv
      by (unfold view; by rewrite Ea).
    destruct (allows (prot a) access) eqn:Eal; simpl.
    + destruct (touch k a page s) as [[[]|e] s1] eqn:Et; intros [= <- <-].
      * destruct (touch_adds _ _ _ _ _ _ _ I Ap Ea Et) as [[it Hit] _].
        eapply present_granted; [done..| |done|done]. by rewrite S.
      * by eexists _, _, _.
    + intros [= <- <-]. split; [done|]. rewrite Hv. by intros ? ? ? [= <- <- <-].
  - intros [= <- <-]. split; [done|]. unfold view. by rewrite Ea.
Qed.

Lemma populate_loop_granted carves ps fuel page end_ write s s' :
  space_ok total carves ps s → aligned page → 0 ≤ page → end_ - page ≤ Z.of_nat fuel * PAGE_SIZE →
  populate_loop fuel page end_ write s = (Ok tt, s') →
  (∀ q it, cursor_query (vm (space s)) q = Some it → cursor_query (vm (space s')) q = Some it) ∧
  ∀ q, aligned q → page ≤ q < end_ → granted s' q (if write then Write else Read).
Proof.
  revert page s. induction fuel as [|fuel IH]; intros page s I Ap Hp Hf; simpl.
  { intros [= <-]. split; [done|]. intros q _ Hq. lia. }
  destruct (Z.leb_spec end_ page); [intros [= <-]; split; [done|]; intros q _ Hq; lia|].
  unfold mbind at 1, M_bind, gets, fail. set (acc := if write then Write else Read).
  destruct (area_at (areas (space s)) page) as [[k a]|] eqn:Ea; [|done].
  destruct (negb (allows (prot a) acc)) eqn:Eal; [done|]. apply negb_false_iff in Eal.
  unfold mbind, M_bind. destruct (touch k a page s) as [[[]|e] s1] eqn:Et; [|done].
  destruct (touch_sound _ _ _ _ _ _ _ _ _ I Ap Ea (allows_prot _ _ Eal) Et) as [I1 S1].
  destruct (touch_adds _ _ _ _ _ _ _ I Ap Ea Et) as [[it Hit] Hk].
  assert (page +! PAGE_SIZE = page + PAGE_SIZE) as Hw.
  { apply area_at_Some in Ea as [G Hb]; [|apply I]. destruct (as_area _ (so_areas _ _ _ _ I) _ _ G).
    destruct map_end_bounds. apply wrap_small. unfold in_width, PAGE_SIZE. lia. }
  assert (aligned (page + PAGE_SIZE)) as An by by apply aligned_add.
  rewrite Hw. intros E. pose proof (populate_loop_quiet _ _ _ _ _ _ _ An _ _ _ I1 E) as [I2 S2].
  assert (0 ≤ page + PAGE_SIZE ∧ end_ - (page + PAGE_SIZE) ≤ Z.of_nat fuel * PAGE_SIZE) as [H1 H2]
    by (unfold PAGE_SIZE in *; lia).
  destruct (IH _ _ I1 An H1 H2 E) as [K G].
  split; [eauto|]. intros q Aq Hq. destruct (decide (q = page)) as [->|].
  - eapply present_granted; [exact I2|done| |done|by apply K].
    unfold same_areas in *. by rewrite S2, S1.
  - apply G; [done|]. pose proof (aligned_next page q Ap Aq). lia.
Qed.

(** [populate] brings in every page of a range: when it succeeds, each page from the one
    that holds the first byte to the one that holds the last has an entry that lets the
    access through, and its loop ends within the pages of the range. *)
Theorem populate_present carves ps s va len write s' :
  u64 total → reachable total (carves, ps, s) → u64 va → 0 < len →
  populate va len write s = (Ok tt, s') →
  ∀ q, aligned q → va - PAGE_SIZE < q < va + len →
    granted s' q (if write then Write else Read).
Proof.
  intros Hl [I _ _]%reachable_ok Hu Hlen; [|done]. simpl in I. unfold populate.
  destruct (Z.eqb_spec len 0); [lia|].
  destruct (checked_add 64 va len) as [end_|] eqn:Ec; [|done]. apply checked_add_Some in Ec as [-> _].
  pose proof (land_mask_aligned _ Hu) as Ap. pose proof (land_mask_within _ Hu) as Hw.
  set (first := Z.land va page_mask) in *. intros E q Aq Hq.
  assert (0 ≤ first) by (unfold in_width, first in *; apply Z.land_nonneg; lia).
  pose proof (Z.div_mod (va + len - first) PAGE_SIZE ltac:(done)).
  pose proof (Z.mod_pos_bound (va + len - first) PAGE_SIZE ltac:(done)).
  pose proof (Z.div_pos (va + len - first) PAGE_SIZE ltac:(lia) ltac:(done)).
  eapply populate_loop_granted in E as [_ G]; [apply G; [done|]|exact I|done|done|].
  - destruct (decide (q < first)); [|lia]. pose proof (aligned_next q first Aq Ap). lia.
  - rewrite Z2Nat.id by lia. unfold PAGE_SIZE in *. lia.
Qed.

(** ** What holds of every reachable space *)

(** C36: a call does to the pages of an address space what it promises, in every space whose
    kernel chooses addresses only while no mapping lies across [MAP_BASE]: a mapping shows its
    backing page by page and, unless it is fixed, takes only free pages; an address the
    kernel chooses has a free page on each side; unmapping and protection change the pages
    of their range and no other, although they split the areas it cuts; no call but
    [unmap_plane] takes away or protects a page of the data plane, and that one only the
    window of the object named; and a call that fails changes nothing, but for the old
    mappings a fixed mapping replaces. *)
Theorem space_refines carves ps s c r s' :
  u64 total → reachable total (carves, ps, s) → call_ok c → choice_ok c s → run c s = (r, s') →
  spec c r (pages_of s) (pages_of s').
Proof. intros Hl [I B _]%reachable_ok Hc Hn E; [|done]. by eapply run_sound. Qed.

(** C37: the page table never shows a process what its areas do not, in every space whose kernel
    chooses addresses only while no mapping lies across [MAP_BASE]: every entry of every
    reachable space is of a page an area holds, maps the frame or the device page the area
    says or the page of zeroes kept for it, and has the flags of its protection (of a page of
    zeroes in a range whose discard is between its two halves the flags alone are said); no
    entry is writable and executable; and none is writable over a backing mapped without
    the right to write. *)
Theorem entries_safe carves ps s p it :
  u64 total → reachable total (carves, ps, s) → aligned p →
  cursor_query (vm (space s)) p = Some it →
  (∃ k pr b, pages_of s p = Some (k, pr, b) ∧ item_ok ps (zero (space s)) p pr b it ∧
     item_flags it = page_flags pr ∧ (grants it Write = true → writable b = true)) ∧
  ¬ (grants it Write = true ∧ grants it Execute = true).
Proof.
  intros Hl [I _ _]%reachable_ok Ap Hq; [|done]. simpl in I.
  destruct (so_entries _ _ _ _ I p it Ap Hq) as (k & pr & b & Hv & _ & Hit).
  assert (item_flags it = page_flags pr) as Ef by (destruct it, b; try done; by destruct Hit).
  assert (check_prot pr b = Ok tt) as Hc.
  { apply view_Some in Hv as (j & a & G & _ & [= _ -> ->]); [|apply I].
    pose proof (ao_prot _ _ (as_area _ (so_areas _ _ _ _ I) _ _ G)) as Hp.
    unfold check_prot in *. by rewrite advanced_writable. }
  unfold check_prot in Hc. destruct (negb (Z.land pr (wnot 64 map.PROTECTION) =? 0)); [done|].
  assert ((grants it Write = true → writable b = true) ∧
    ¬ (grants it Write = true ∧ grants it Execute = true)) as [H1 H2].
  { unfold grants. rewrite Ef. unfold page_flags.
    destruct (negb (Z.land pr map.WRITE =? 0)), (negb (Z.land pr map.EXECUTE =? 0)); try done;
      (split; [|by intros []]); [|done..]. by destruct (writable b). }
  split; [|done]. exists k, pr, b. by split_and!.
Qed.

(** C38: an address space whose kernel chooses addresses only while no mapping lies across
    [MAP_BASE] pays for exactly what it holds: at every moment the bytes charged to
    its account are those of its areas, its pages of zeroes and the table pages its areas
    need, counted from the areas themselves although the code keeps the count call by call;
    and the accounting is never found broken. *)
Theorem space_charge_exact carves ps s :
  u64 total → reachable total (carves, ps, s) →
  let x := space s in
  (∃ ch, charges (world s) !! charged x = Some ch ∧
     bytes ch = zlen (areas x) * charge.AREA + zlen (zero x) * charge.ZERO_PAGE +
                full_count map_end (ranges (areas x)) * charge.PAGE) ∧
  broken (world s) = 0%nat.
Proof.
  intros Hl [I _ _]%reachable_ok x; [|done]. simpl in I.
  destruct (so_paid _ _ _ _ I) as [Ia (ch & Hc & Hb)]. split; [|apply Ia].
  exists ch. split; [done|]. rewrite Hb, (space_cost _ _ _ _ I), (so_tables _ _ _ _ I). done.
Qed.

End steps.
