(* ===== verification/VmPlane.v ===== *)
(** * The data plane's mappings

    The calls a process makes leave the data plane's areas as they are, whole; [map_plane]
    adds one and [unmap_plane] takes that one away.  And a call on one space leaves the bytes
    charged for every other. *)

From S2P Require Import Prelude Abi Quota Account BTree Vm VmAreas VmEntries VmInv VmCalls VmSteps.
Section plane.
Context {O : Ostd} {OL : OstdLaws}.
Implicit Types (l : BTreeMap Area) (a : Area) (b : Backing) (x : Space) (s : Machine).
Variable total : Z.
Implicit Types (carves : list (id * list byte * Z * id)) (ps : list (Z * Z)).

(** ** Areas of the plane *)

(** Both have the same areas of the plane. *)
Definition same_planes l l' : Prop :=
  ∀ k a, kind a = Plane → bt_get l' k = Some a ↔ bt_get l k = Some a.

#[local] Instance same_planes_equiv : Equivalence same_planes.
Proof.
  split.
  - by intros l k a.
  - intros l l' H k a E. by rewrite (H k a E).
  - intros l l' l'' H H' k a E. by rewrite (H' k a E), (H k a E).
Qed.

Lemma split_planes l at_ :
  areas_ok l → aligned at_ →
  (∀ k a, bt_get l k = Some a → k < at_ < a_end a → kind a ≠ Plane) →
  same_planes l (split at_ l).
Proof.
  intros A Hat N. destruct (split_cases l at_ A Hat) as [(-> & _)|(s & c & G & Hlt & _ & ->)]; [done|].
  pose proof (N _ _ G Hlt) as Nc. intros k a Hk. rewrite (cut_get l s at_ c).
  destruct (Z.eqb_spec at_ k) as [<-|].
  - rewrite (cut_fresh l s at_ c) by done. split; [|done]. intros [= <-]. done.
  - destruct (Z.eqb_spec s k) as [<-|]; [|done]. rewrite G. split; intros [= <-]; done.
Qed.

(** A range cut out, none of whose areas is the plane's. *)
Lemma splits_planes l va end_ :
  areas_ok l → aligned va → aligned end_ → va < end_ →
  (∀ k a, bt_get l k = Some a → k < end_ → va < a_end a → kind a ≠ Plane) →
  same_planes l (split end_ (split va l)).
Proof.
  intros A Av Ae Hlt N.
  assert (same_planes l (split va l)) as S1.
  { apply split_planes; [done..|]. intros k a G Hk. eapply N; [done|lia..]. }
  transitivity (split va l); [done|]. apply split_planes; [by apply (split_ok l va)|done|].
  intros k a G Hk Ek. apply (S1 k a Ek) in G. eapply N; [done|lia..|done].
Qed.

Lemma outside_planes l va end_ :
  areas_ok l → (∀ k a, bt_get l k = Some a → k < end_ → va < a_end a → kind a ≠ Plane) →
  same_planes l (outside l va end_).
Proof.
  intros A N k a Hk. rewrite outside_get by apply A. split; [by intros []|].
  intros G. split; [done|]. intros Hr. pose proof (ao_len _ _ (as_area _ A _ _ G)).
  eapply N; [done|lia..|done].
Qed.

(** ** Calls of a process *)

Lemma charge_areas n s r s' : charge_more n s = (r, s') → space s' = space s.
Proof. unfold charge_more. destruct (charge_grow _ _ _). by intros [= <- <-]. Qed.

Lemma unmap_planes s va len only r s' :
  areas_ok (areas (space s)) → u64 va → u64 len → unmap va len only s = (r, s') →
  same_planes (areas (space s)) (areas (space s')).
Proof.
  intros A Hv Hl. unfold unmap, mbind, M_bind, lift, gets, fail.
  destruct (check_range va len) as [e|er] eqn:Er; [|by intros [= <- <-]].
  destruct (check_range_spec _ _ _ Hv Hl Er) as (Av & Al & Ae & Ee & Hlt & Htop).
  destruct (match only with Some _ => _ | None => _ end); [by intros [= <- <-]|].
  destruct (touches_plane (areas (space s)) va e) eqn:Ep; [by intros [= <- <-]|].
  destruct (charge_more _ s) as [[[]|er] s1] eqn:Ec; apply charge_areas in Ec;
    [|intros [= <- <-]; by rewrite Ec].
  pose proof (touches_plane_false _ _ _ A Ep) as N.
  intros [= <- <-]. unfold remove_range, free_tables. rewrite Ec. set (l := areas (space s)) in *.
  cbn [areas set_brk_ set_zero set_areas set_space space].
  destruct (neighbours _ _ _). cbn [areas set_brk_ set_zero set_areas set_space space drop_entries
    set_vm settle_space set_world set_tables].
  assert (same_planes l (split e (split va l))) as S by (apply splits_planes; [done..|lia|done]).
  transitivity (split e (split va l)); [done|]. apply outside_planes.
  - by apply splits_ok; [..|lia].
  - intros k a G H1 H2 Ek. apply (S k a Ek) in G. by eapply N.
Qed.

Lemma map_at_areas s va len k p b r s' :
  map_at va len k p b s = (r, s') →
  areas (space s') = match r with
                     | Ok _ => bt_insert va (mk_Area (va +! len) k p b) (areas (space s))
                     | Err _ => areas (space s)
                     end ∧ (∀ v, r = Ok v → v = va).
Proof.
  unfold map_at, mbind, M_bind, gets. destruct (neighbours _ _ _).
  destruct (charge_more _ s) as [[[]|er] s1] eqn:Ec; apply charge_areas in Ec;
    [|intros [= <- <-]; by rewrite Ec].
  unfold on_space, modify, map_fill. destruct (fill_ptes _ _ _ _ _ _) as [[[]|er] v];
    intros [<- <-]%pair_equal_spec; cbn; rewrite Ec; (split; [done|congruence]).
Qed.

Lemma insert_planes l va a :
  bt_get l va = None → kind a ≠ Plane → same_planes l (bt_insert va a l).
Proof.
  intros G Hk j c Hc. rewrite bt_get_insert. destruct (Z.eqb_spec va j) as [<-|]; [|done].
  rewrite G. split; [intros [= <-]|]; done.
Qed.

Lemma map_planes carves ps s at_ len k p b fixed r s' :
  space_ok total carves ps s → call_ok (Map at_ len k p b fixed) →
  choice_ok (Map at_ len k p b fixed) s → k ≠ Plane →
  map_ at_ len k p b fixed s = (r, s') → same_planes (areas (space s)) (areas (space s')).
Proof.
  intros I (Hl & Ha & _) Hn Hk. unfold map_, mbind, M_bind, lift, gets, mret, M_ret, fail.
  destruct (check_prot p b) as [[]|er]; [|by intros [= <- <-]].
  destruct (pages len) as [n|er] eqn:En; [|by intros [= <- <-]].
  destruct (pages_round _ _ Hl En) as (An & Hlo & Hhi).
  destruct (Z.eqb_spec n 0); [by intros [= <- <-]|]. assert (u64 n) by (unfold in_width in *; lia).
  assert (∀ s1 va, areas_ok (areas (space s1)) → free_range (areas (space s1)) va (va + n) →
    map_at va n k p b s1 = (r, s') → same_planes (areas (space s1)) (areas (space s'))) as Done.
  { intros s1 va A1 F [E _]%map_at_areas. rewrite E. destruct r; [|done].
    apply insert_planes; [|done]. apply (free_range_get _ _ (va + n)); [done| |done].
    unfold in_width in *. lia. }
  pose proof (so_areas _ _ _ _ I) as A. assert (0 < n) as Hn0 by (unfold in_width in *; lia).
  destruct at_ as [va|].
  - pose proof (Ha va eq_refl) as Hu. destruct (check_range va n) as [e|er] eqn:Er; [|by intros [= <- <-]].
    destruct (check_range_spec va n _ Hu ltac:(done) Er) as (Av & _ & Ae & -> & Hlt & Htop).
    destruct (overlaps (areas (space s)) va (va + n)) eqn:Eo.
    + destruct fixed; [|by intros [= <- <-]]. simpl.
      destruct (unmap va n None s) as [ru s1] eqn:Eu.
      pose proof (unmap_planes _ va n _ _ _ A Hu ltac:(done) Eu) as S1.
      destruct (unmap_sound _ _ _ _ va n _ _ _ I Hu ltac:(done) Eu) as [I1 _].
      destruct ru as [[]|er]; [|by intros [= <- <-]].
      destruct (overlaps (areas (space s1)) va (va + n)) eqn:Eo1; [by intros [= <- <-]|].
      intros Hm. transitivity (areas (space s1)); [done|]. apply (Done s1 va); [apply I1| |done].
      by apply overlaps_free; [apply I1|lia|].
    + intros Hm. apply (Done s va); [done| |done]. by apply overlaps_free; [|lia|].
  - destruct (find_free (areas (space s)) n) as [va|er] eqn:Ef; [|by intros [= <- <-]].
    destruct (find_free_spec _ _ _ A Hn Hn0 An Ef) as (_ & _ & _ & F).
    intros Hm. apply (Done s va); [done| |done]. eapply free_range_sub; [done|unfold PAGE_SIZE; lia..].
Qed.

Lemma protect_planes s va len p only r s' :
  areas_ok (areas (space s)) → u64 va → u64 len → protect va len p only s = (r, s') →
  same_planes (areas (space s)) (areas (space s')).
Proof.
  intros A Hv Hl. unfold protect, mbind, M_bind, lift, gets, fail.
  destruct (check_range va len) as [e|er] eqn:Er; [|by intros [= <- <-]].
  destruct (check_range_spec _ _ _ Hv Hl Er) as (Av & Al & Ae & Ee & Hlt & Htop).
  destruct (check_cover va _ va _) as [c|er] eqn:Ec; [|by intros [= <- <-]].
  destruct (Z.ltb_spec c e); [by intros [= <- <-]|].
  destruct (covered _ _ _ _ _ A Ec ltac:(lia)) as [_ C2].
  assert (∀ k a, bt_get (areas (space s)) k = Some a → k < e → va < a_end a → kind a ≠ Plane) as N.
  { intros k a G H1 H2 Ek. specialize (C2 k a G H1 H2). cbv beta in C2.
    by rewrite (bool_decide_eq_true_2 _ Ek), orb_true_r in C2. }
  destruct (charge_more _ s) as [[[]|er] s1] eqn:Eg; apply charge_areas in Eg;
    [|intros [= <- <-]; by rewrite Eg].
  unfold on_space, modify, reprotect. cbn [settle_space set_world set_space space set_areas areas].
  rewrite Eg. set (l := areas (space s)) in *.
  destruct (refill _ _ _) as [rf v]. intros [_ <-]%pair_equal_spec.
  cbn [set_space space set_areas areas set_vm].
  assert (same_planes l (split e (split va l))) as S by (apply splits_planes; [done..|lia|done]).
  assert (areas_ok (split e (split va l))) as A2 by (by apply splits_ok; [..|lia]).
  transitivity (split e (split va l)); [done|]. rewrite reprotect_areas by apply A2.
  set (l2 := split e (split va l)) in *. intros k a Hk. rewrite bt_get_reprot.
  destruct (bt_get l2 k) as [c0|] eqn:G; [|done]. simpl. unfold reprot. simpl.
  destruct (Z.leb_spec va k), (Z.ltb_spec k e); try done. simpl.
  pose proof (ao_len _ _ (as_area _ A2 _ _ G)) as Hlen.
  split; intros [= <-]; simpl in Hk; exfalso.
  - apply (S k c0 Hk) in G. eapply N; [done|lia..|done].
  - apply (S k c0 Hk) in G. eapply N; [done|lia..|done].
Qed.

(** The calls a process makes: the kernel alone maps and unmaps for the plane, and clears a
    space. *)
Definition user_call (c : call) : Prop :=
  match c with
  | Map _ _ k _ _ _ => k ≠ Plane
  | MapPlane _ _ _ _ | UnmapPlane _ _ _ | Clear => False
  | _ => True
  end.

Lemma same_areas_planes s s' : same_areas s s' → same_planes (areas (space s)) (areas (space s')).
Proof. intros ->. done. Qed.

Lemma quietly_planes {A} carves ps (c : M Machine Error A) s r s' :
  quiet total carves ps c → space_ok total carves ps s → quietly c s = (r, s') →
  same_planes (areas (space s)) (areas (space s')).
Proof.
  intros Hq I (r0 & E & _)%quietly_inv. destruct (Hq _ _ _ I E) as [_ S].
  by apply same_areas_planes.
Qed.

Lemma discard_planes carves ps s va len r s' :
  space_ok total carves ps s → discard va len s = (r, s') →
  same_planes (areas (space s)) (areas (space s')).
Proof.
  intros I. unfold discard, mbind, M_bind, lift.
  destruct (check_range va len) as [end_|e]; [|by intros [= <- <-]].
  destruct (discard_pages va end_ s) as [[[]|e] s1] eqn:E1;
    destruct (discard_pages_sound _ _ _ _ _ _ _ _ I E1) as [S1 _]; intros [= <- <-];
    by apply same_areas_planes.
Qed.

Lemma brk_planes carves ps s want :
  space_ok total carves ps s → brk_ok s → u64 want →
  same_planes (areas (space s)) (areas (space (brk want s).2)).
Proof.
  intros I B Hw. unfold brk. destruct (brk_ (space s)) as [[start current]|] eqn:Eb; [|done].
  destruct (B _ Eb) as [Hs Hc]. simpl in Hs, Hc. destruct (want <? start); [done|].
  destruct (pages current) as [have|] eqn:Eh; [|done].
  destruct (pages want) as [need|] eqn:En; [|done].
  destruct (Z.ltb_spec MAP_BASE need) as [|Hn]; [done|].
  destruct (pages_u64 _ _ Hc Eh) as [Uh Ah]. destruct (pages_u64 _ _ Hw En) as [Un An].
  assert (same_planes (areas (space s)) (areas (space (move_brk have need s).2))) as S.
  { assert (MAP_BASE = 0x100000000000) as Em by done.
    unfold move_brk. destruct (Z.ltb_spec have need).
    - assert (need -! have = need - have) as -> by (apply wrap_small; unfold in_width in *; lia).
      unfold mbind, M_bind. destruct (map_ _ _ _ _ _ _ s) as [[va|e] s1] eqn:Em1; simpl;
        (eapply map_planes; [exact I| | | |exact Em1]; [|done|done]);
        (split; [unfold in_width in *; lia|]; split; [by intros ? [= <-]|done]).
    - destruct (Z.ltb_spec need have); [|done].
      assert (have -! need = have - need) as -> by (apply wrap_small; unfold in_width in *; lia).
      destruct (unmap need (have - need) None s) as [r s1] eqn:Eu.
      eapply unmap_planes; [apply I|exact Un| |exact Eu]. unfold in_width in *. lia. }
  destruct (move_brk have need s) as [[[]|e] s1]; exact S.
Qed.

Lemma run_planes carves ps s c r s' :
  space_ok total carves ps s → brk_ok s → call_ok c → choice_ok c s → user_call c → run c s = (r, s') →
  same_planes (areas (space s)) (areas (space s')).
Proof.
  intros I B Hc Hn Hu. destruct c as [at_ len k p b fixed|m first len write|va len only|va len m
    |va len p only|addr access|va len write|va data|va len|va len|start|start|want|];
    try done; cbn [run]; intros E.
  - by eapply map_planes.
  - destruct Hc as [Hv Hl]. apply quietly_inv in E as (r0 & E & _).
    exact (unmap_planes _ _ _ _ _ _ (so_areas _ _ _ _ I) Hv Hl E).
  - destruct Hc as [Hv Hl]. apply quietly_inv in E as (r0 & E & _).
    exact (protect_planes _ _ _ _ _ _ _ (so_areas _ _ _ _ I) Hv Hl E).
  - eapply quietly_planes; [|exact I|exact E]. by apply fault_quiet.
  - eapply quietly_planes; [|exact I|exact E]. by apply populate_quiet.
  - eapply quietly_planes; [|exact I|exact E]. by apply each_page_quiet; [..|apply write_page_quiet].
  - eapply quietly_planes; [|exact I|exact E]. by apply copy_pages_quiet.
  - destruct Hc. apply quietly_inv in E as (r0 & E & _).
    exact (discard_planes _ _ _ _ _ _ _ I E).
  - eapply quietly_planes; [|exact I|exact E]. by apply set_brk_quiet.
  - eapply quietly_planes; [|exact I|exact E]. by apply set_brk_quiet.
  - pose proof (brk_planes _ _ _ want I B Hc) as S. destruct (brk want s). by injection E as <- <-.
Qed.

(** A step of a process leaves the areas of the plane. *)
Lemma local_planes carves ps s ps' s' :
  space_ok total carves ps s → brk_ok s → local user_call (ps, s) (ps', s') →
  same_planes (areas (space s)) (areas (space s')).
Proof.
  intros I B St. remember (ps, s) as c0 eqn:E0. remember (ps', s') as c1 eqn:E1.
  destruct St as [qs t c r t' Hu Hc Hn E|qs t va len end_ t' Hv Hl Er E
    |ps1 ps2 t va end_ t' E|qs t page write r t' Ap E|qs t want Hw]; simplify_eq.
  - by eapply run_planes.
  - apply same_areas_planes. by eapply discard_pages_sound.
  - by injection E as <-.
  - apply same_areas_planes. by eapply page_frame_quiet.
  - done.
Qed.

(** ** Windows *)

Definition plane_prot (write : bool) : Z := if write then Z.lor map.READ map.WRITE else map.READ.

Definition window_area (va n : Z) (m : MemoryObject) (first : Z) (write : bool) : Area :=
  mk_Area (va + n) Plane (plane_prot write) (Object m first write).

Lemma map_plane_areas carves ps s m first len write r s' :
  space_ok total carves ps s → call_ok (MapPlane m first len write) →
  unstraddled (areas (space s)) → map_plane m first len write s = (r, s') →
  match r with
  | Ok va => ∃ n, pages len = Ok n ∧ check_range va n = Ok (va + n) ∧ u64 va ∧
      bt_get (areas (space s)) va = None ∧
      areas (space s') = bt_insert va (window_area va n m first write) (areas (space s))
  | Err _ => areas (space s') = areas (space s)
  end.
Proof.
  intros I [Hl Hb] Hu. unfold map_plane, map_, mbind, M_bind, lift, gets, mret, M_ret, fail.
  destruct (check_prot _ _) as [[]|er]; [|by intros [= <- <-]].
  destruct (pages len) as [n|er] eqn:En; [|by intros [= <- <-]].
  destruct (pages_round _ _ Hl En) as (An & Hn & Hn').
  destruct (Z.eqb_spec n 0); [by intros [= <- <-]|]. assert (0 < n) as Hn0 by (unfold in_width in *; lia).
  destruct (find_free (areas (space s)) n) as [va|er] eqn:Ef; [|by intros [= <- <-]].
  pose proof (so_areas _ _ _ _ I) as A.
  destruct (find_free_spec _ _ _ A Hu Hn0 An Ef) as (Av & Hb1 & Hb2 & F).
  intros [E Eq]%map_at_areas. destruct r as [va'|e]; [|done].
  rewrite (Eq va' eq_refl). exists n. destruct map_end_bounds as [_ Ht].
  assert (MAP_BASE = 0x100000000000) as Em by done.
  split_and!; [done| | | |].
  - unfold check_range, checked_add. rewrite (proj2 (is_multiple_page va) Av), (proj2 (is_multiple_page n) An).
    destruct (Z.eqb_spec n 0); [lia|]. simpl. unfold umax, IMAGE_START.
    destruct (Z.leb_spec (va + n) (2 ^ 64 - 1)); [|lia].
    by destruct (Z.ltb_spec va 4096), (Z.ltb_spec map_end (va + n)); try lia.
  - unfold in_width. lia.
  - apply (free_range_get _ _ (va + n)); [done|lia|]. eapply free_range_sub; [done|unfold PAGE_SIZE; lia..].
  - rewrite E. unfold window_area.
    assert (va +! n = va + n) as -> by (apply wrap_small; unfold in_width; lia). done.
Qed.

Lemma unmap_plane_areas s va len m r s' :
  unmap_plane va len m s = (r, s') →
  match r with
  | Ok _ => areas (space s') = bt_remove va (areas (space s))
  | Err _ => s' = s
  end.
Proof.
  unfold unmap_plane, mbind, M_bind, lift, gets, fail.
  destruct (check_range va len) as [e|er]; [|by intros [= <- <-]].
  destruct (negb _); [by intros [= <- <-]|].
  unfold on_space, modify, act, free_tables. destruct (neighbours _ _ _).
  by intros [<- <-]%pair_equal_spec.
Qed.

(** The window of an object is there to be unmapped. *)
Lemma unmap_plane_succeeds s va n m first write :
  check_range va n = Ok (va + n) →
  bt_get (areas (space s)) va = Some (window_area va n m first write) →
  (unmap_plane va n m s).1 = Ok tt.
Proof.
  intros Er G. unfold unmap_plane, mbind, M_bind, lift, gets. rewrite Er, G. simpl.
  rewrite Z.eqb_refl, bool_decide_eq_true_2 by done. simpl.
  reflexivity.
Qed.

(** ** A mapping across [MAP_BASE] *)

(** An area put inside another hides the rest of it. *)
Lemma insert_inside l st a va c q :
  areas_ok l → bt_get l st = Some a → st < va → va ≤ q < a_end a → st < q →
  view (bt_insert va c l) q = if q <? a_end c then Some (page_of q (va, c)) else None.
Proof.
  intros A G Hst Hq Hq'. unfold view, area_at. pose proof (sorted_insert l va c (as_sorted _ A)) as Hs.
  assert (∀ j y, bt_get l j = Some y → j ≤ q → j ≤ st) as Hj.
  { intros j y Gj Hjq. destruct (Z.le_gt_cases j st); [done|].
    pose proof (as_apart _ A _ _ _ _ G Gj ltac:(lia)). lia. }
  destruct (last (bt_below (q + 1) (bt_insert va c l))) as [[k x]|] eqn:E.
  - apply last_below in E as (Gk & Hk & Hmax); [|done].
    specialize (Hmax va c ltac:(by rewrite bt_get_insert, Z.eqb_refl) ltac:(lia)).
    rewrite bt_get_insert in Gk. destruct (Z.eqb_spec va k) as [<-|].
    + injection Gk as <-. simpl. by destruct (q <? a_end c).
    + specialize (Hj _ _ Gk ltac:(lia)). lia.
  - pose proof (last_below_None _ _ Hs E va c ltac:(by rewrite bt_get_insert, Z.eqb_refl)). lia.
Qed.

(** The first range is chosen when no area that is looked at comes near it. *)
Lemma first_fit_first len c l :
  (∀ k a, (k, a) ∈ l → c + len + PAGE_SIZE ≤ k) → 0 ≤ c → 0 ≤ len → c + len + PAGE_SIZE < 2 ^ 64 →
  first_fit len c l = c.
Proof.
  intros H Hc Hl Hb. destruct l as [|[k a] l]; simpl; [done|]. specialize (H k a ltac:(by left)).
  unfold checked_add, umax, PAGE_SIZE in *. destruct (Z.leb_spec (c + len) (2 ^ 64 - 1)); [|lia]. simpl.
  destruct (Z.leb_spec (c + len + 4096) (2 ^ 64 - 1)); [|lia].
  by destruct (Z.leb_spec (c + len + 4096) k); [|lia].
Qed.


(** ** Other spaces *)

(** An entry of the charges other than the space's. *)
Definition charged_apart (c0 c : id) (ch : option Charge) s : Prop :=
  charged (space s) = c0 ∧ charges (world s) !! c = ch.

Lemma charge_apart i n w r w' : charge i n w = (r, w') → charges w' = charges w ∧ next w' = next w.
Proof.
  unfold charge, try_charge. destruct (n =? 0); [by intros [= <- <-]|].
  destruct (accounts w !! i) as [a|]; [|by intros [= <- <-]].
  destruct (Ledger.charge (ledger a) n) as [r0 l]. by intros [= <- <-].
Qed.

(** A new entry of the charges is no other. *)
Lemma charge_new_apart cs i n w r w' j :
  Account.inv total w cs → charge_new i n w = (r, w') → is_Some (charges w !! j) →
  charges w' !! j = charges w !! j.
Proof.
  intros Ia. rewrite charge_new_eq. destruct (charge i n w) as [[[]|e] w1] eqn:E;
    destruct (charge_apart _ _ _ _ _ E) as [Ec En]; intros [= _ <-] [y Hy]; simpl; [|by rewrite Ec].
  rewrite Ec, En, lookup_insert_ne; [done|]. intros <-.
  destruct (inv_fresh _ _ _ Ia) as [_ F]. congruence.
Qed.

Lemma uncharge_apart i n w : charges (uncharge i n w) = charges w.
Proof.
  unfold uncharge. destruct (n =? 0); [done|]. destruct (accounts w !! i) as [a|]; [|done].
  by destruct (Ledger.uncharge (ledger a) n) as [[] l].
Qed.

Lemma charged_apart_stable c0 c ch : c ≠ c0 → Stable (charged_apart c0 c ch).
Proof.
  intros Hne. split.
  - intros s x [E1 E2] Ec _. split; [cbn; congruence|done].
  - intros s h. done.
  - intros n s r s' [E1 E2]. unfold charge_more, charge_grow. rewrite E1.
    destruct (charges (world s) !! c0) as [ch0|] eqn:Eh; [|by intros [= <- <-]].
    destruct (charge (account ch0) n (world s)) as [[[]|e] w'] eqn:Ec; intros [= <- <-];
      (split; [done|]); cbn; rewrite ?lookup_insert_ne by done; by rewrite (proj1 (charge_apart _ _ _ _ _ Ec)).
  - intros s [E1 E2]. split; [done|]. cbn. unfold Account.settle. rewrite E1.
    destruct (charges (world s) !! c0) as [ch0|] eqn:Eh; [|done]. destruct (_ <? _); [done|].
    cbn. by rewrite lookup_insert_ne, uncharge_apart.
Qed.

End plane.
