(* ===== verification/VmRun.v ===== *)
(** * An address space that runs

    A page table kept as the list of what was done to it satisfies what OSTD documents, so
    the theorems of [VmSteps] speak of spaces that exist: here one is made in a machine of
    one gibibyte and used, each theorem at a state it reaches.  The last lemma is a
    sequence of calls the promise of [find_free] does not survive. *)

From S2P Require Import Prelude Abi Quota Account BTree Vm VmAreas VmEntries VmInv VmCalls VmSteps VmPlane.
Module Tables.

(** What was done to a page table, the last first. *)
Inductive change :=
| Mapped (a : Z) (f : nat) (fl : Z)
| MappedIo (a : Z) (d : nat) (fl len off : Z)
| Unmapped (a len : Z).

Fixpoint query (v : list change) (p : Z) : option (Item nat nat) :=
  match v with
  | [] => None
  | Mapped a f fl :: v => if p =? a then Some (Ram f fl) else query v p
  | MappedIo a d fl len off :: v =>
      if (a <=? p) && (p <? a + len) then Some (Mmio d fl (off + (p - a))) else query v p
  | Unmapped a len :: v => if (a <=? p) && (p <? a + len) then None else query v p
  end.

(** Frames are the pages of a list; there are sixteen. *)
Definition alloc (h : list (list byte)) : option (nat * list (list byte)) :=
  if (length h <? 16)%nat then Some (length h, h ++ [repeat x00 4096]) else None.

Definition read (h : list (list byte)) (f : nat) (off n : Z) : option (list byte) :=
  page ← h !! f; get_range page off (off + n).

Definition write (h : list (list byte)) (f : nat) (off : Z) (bs : list byte) :
    option (list (list byte)) :=
  page ← h !! f;
  if off + zlen bs <=? 4096
  then Some (<[f := put_range page off bs]> h)
  else None.

Definition ostd : Ostd := {|
  Hw := list (list byte);
  VmSpace := list change;
  UFrame := nat;
  IoMem := nat;
  MAX_USERSPACE_VADDR := 0x7ffffffff000;
  alloc_frame := alloc;
  read_bytes := read;
  write_bytes := write;
  vm_new := [];
  cursor_mut _ lo hi := (lo <? hi) && (hi <=? 0x7ffffffff000);
  cursor_jump lo hi p := (lo <=? p) && (p <? hi);
  cursor_query := query;
  cursor_map v a f fl := Mapped a f fl :: v;
  cursor_map_iomem v a d fl len off := MappedIo a d fl len off :: v;
  cursor_unmap v a len := Unmapped a len :: v;
|}.

#[export] Existing Instance ostd.

#[export] Instance ostd_laws : OstdLaws.
Proof.
  split; try done.
  - intros v lo hi _ _ H1 H2. simpl. change map_end with 0x7ffffffff000 in H2.
    by destruct (Z.ltb_spec lo hi), (Z.leb_spec hi 0x7ffffffff000); try lia.
  - intros lo hi p H _. simpl. by destruct (Z.leb_spec lo p), (Z.ltb_spec p hi); try lia.
Qed.

End Tables.
Export Tables.

Definition x0 : Space :=
  match (space_new 0 (machine gib)).1 with
  | Ok x => x
  | Err _ => mk_Space [] [] [] None 0 0 0 0
  end.
Definition w0 : World := (space_new 0 (machine gib)).2.
Definition s0 : Machine := mk_Machine w0 [] x0.

Lemma pair_of {A B} (c : A * B) (y : A) : c.1 = y → c = (y, c.2).
Proof. destruct c. simpl. by intros ->. Qed.

Lemma x0_made : space_new 0 (machine gib) = (Ok x0, w0).
Proof.
  apply pair_of. unfold x0.
  assert (match (space_new 0 (machine gib)).1 with Ok _ => true | Err _ => false end = true) as H
    by by vm_compute.
  by destruct (space_new 0 (machine gib)).1.
Qed.

Lemma s0_reachable : reachable gib ([], [], s0).
Proof.
  exists ([], [], s0). split; [|apply rtc_refl].
  apply (init_new gib [] 0 (machine gib) x0 w0 []); [apply rtc_refl|by eexists|exact x0_made].
Qed.

Lemma gib_u64 : u64 gib.
Proof. done. Qed.

(** A reachable state after a call. *)
Lemma reach_call lim s c :
  reachable lim ([], [], s) → call_ok c → choice_ok c s → reachable lim ([], [], (run c s).2).
Proof.
  intros (c0 & Hi & R) Hc Hn. exists c0. split; [done|]. eapply rtc_r; [done|].
  eapply step_local, local_call; [done..|]. apply surjective_pairing.
Qed.

Definition rw : Z := Z.lor map.READ map.WRITE.
Definition heap : Z := MAP_BASE + PAGE_SIZE.

Definition map_two : call := Map None 8192 Mapping rw Zero false.
Definition s1 : Machine := (run map_two s0).2.

Lemma s1_reachable : reachable gib ([], [], s1).
Proof.
  assert (length (areas (space s0)) = 0%nat) as E%nil_length_inv by (vm_compute; reflexivity).
  apply reach_call; [apply s0_reachable| |].
  - split; [done|]. split; [|done]. by intros va Hva.
  - unfold choice_ok, map_two, unstraddled. rewrite E. by intros st a G.
Qed.

Definition s2 : Machine := (run (PageFault (heap + 8) Write) s1).2.

Lemma s2_reachable : reachable gib ([], [], s2).
Proof. apply reach_call; [apply s1_reachable|done|exact I]. Qed.

Example fault_resolves_witness : granted (fault (heap + 8) Write s1).2 heap Write.
Proof.
  assert (u64 (heap + 8)) as H by done.
  assert (fault (heap + 8) Write s1 = (Ok true, (fault (heap + 8) Write s1).2)) as E
    by (apply pair_of; by vm_compute).
  change heap with (Z.land (heap + 8) page_mask) at 2.
  destruct (fault_resolves gib [] [] s1 (heap + 8) Write (Ok true) _ gib_u64
    s1_reachable H E) as [_ G]. cbv beta iota zeta in G. exact G.
Defined.

Example populate_present_witness : granted (populate heap 4097 true s1).2 (heap + 4096) Write.
Proof.
  assert (u64 heap) as H by done. assert (0 < 4097) as H' by done.
  assert (heap - PAGE_SIZE < heap + 4096 < heap + 4097) as Hq by done.
  assert (populate heap 4097 true s1 = (Ok tt, (populate heap 4097 true s1).2)) as E
    by (apply pair_of; by vm_compute).
  exact (populate_present gib [] [] s1 heap 4097 true _ gib_u64 s1_reachable H H' E
    (heap + 4096) eq_refl Hq).
Defined.

(** The second page read-only: the first is as it was. *)
Definition protect_second : call := Protect (heap + 4096) 4096 map.READ None.
Definition s3 : Machine := (run protect_second s2).2.

Example space_refines_witness :
  pages_of s3 heap = pages_of s2 heap ∧
  pages_of s3 (heap + 4096) = (λ '(k, _, b), (k, map.READ, b)) <$> pages_of s2 (heap + 4096).
Proof.
  assert (call_ok protect_second) as H by done.
  assert (run protect_second s2 = (Ok 0, s3)) as E by (unfold s3; apply pair_of; by vm_compute).
  pose proof (space_refines gib [] [] s2 protect_second (Ok 0) s3 gib_u64 s2_reachable
    H I E) as (_ & _ & R).
  split; [exact (R heap eq_refl)|exact (R (heap + 4096) eq_refl)].
Defined.

Definition first_entry : Item UFrame IoMem := @Ram UFrame IoMem 0%nat (page_flags rw).

Example entries_safe_witness :
  cursor_query (vm (space s2)) heap = Some first_entry ∧ grants first_entry Execute = false.
Proof.
  assert (aligned heap) as H by done. assert (grants first_entry Write = true) as W by done.
  assert (cursor_query (vm (space s2)) heap = Some first_entry) as E by by vm_compute.
  split; [exact E|].
  destruct (grants first_entry Execute) eqn:G; [|reflexivity].
  destruct (proj2 (entries_safe gib [] [] s2 heap _ gib_u64 s2_reachable H E)).
  exact (conj W G).
Defined.

(** One area, one page of zeroes and the tables that lead to it. *)
Example space_charge_exact_witness :
  bytes <$> charges (world s2) !! charged (space s2) = Some (96 + 4128 + 3 * 4096).
Proof.
  destruct (space_charge_exact gib [] [] s2 gib_u64 s2_reachable) as [(ch & -> & E) _].
  simpl. f_equal. rewrite E. by vm_compute.
Defined.

(** ** A mapping across the end of the image range *)

(** A window on the first page of an object. *)
Definition window : MemoryObject := mk_MemoryObject 7 [3%nat].

(** A mapping across [MAP_BASE], then the window, then the mapping's first two pages
    unmapped, then the window. *)
Definition m1 : result Error Z * Machine :=
  run (Map (Some (MAP_BASE - PAGE_SIZE)) (4 * PAGE_SIZE) Mapping rw Zero false) s0.
Definition m2 : result Error Z * Machine := run (MapPlane window 0 PAGE_SIZE false) m1.2.
Definition m3 : result Error Z * Machine :=
  run (Unmap (MAP_BASE - PAGE_SIZE) (2 * PAGE_SIZE) None) m2.2.
Definition m4 : result Error Z * Machine :=
  run (UnmapPlane (MAP_BASE + PAGE_SIZE) PAGE_SIZE window) m3.2.

Definition ends (s : Machine) : list (Z * Z) := (λ e, (e.1, a_end e.2)) <$> areas (space s).

Lemma m1_reachable : reachable gib ([], [], m1.2).
Proof.
  apply reach_call; [apply s0_reachable| |exact I]. split; [done|]. split; [|done].
  intros va Hva. injection Hva as <-. done.
Qed.


(** What comes of it: unmapping the mapping's first pages overwrites the window's area,
    [unmap_plane] finds no window to unmap, and the entry by which the process reads the
    object's page stays in its page table. *)
Lemma straddling_map_keeps_window :
  m1.1 = Ok (MAP_BASE - PAGE_SIZE) ∧ m2.1 = Ok (MAP_BASE + PAGE_SIZE) ∧
  m3.1 = Ok 0 ∧ m4.1 = Err BadState ∧
  ends m2.2 = [(MAP_BASE - PAGE_SIZE, MAP_BASE + 3 * PAGE_SIZE);
               (MAP_BASE + PAGE_SIZE, MAP_BASE + 2 * PAGE_SIZE)] ∧
  query (vm (space m4.2)) (MAP_BASE + PAGE_SIZE) = Some (Ram 3%nat (page_flags map.READ)) ∧
  (λ '(k, pr, _), (k, pr)) <$> pages_of m4.2 (MAP_BASE + PAGE_SIZE) = Some (Mapping, rw).
Proof. split_and!; vm_compute; reflexivity. Qed.
