(* ===== verification/Signal.v ===== *)
(** * Signals

    [src/kernel/core/src/signal.rs]: the bits an object raises and the wakers of the threads
    that wait on them.  A waker is a number; an operation returns those it woke.  Waking one
    makes its waiter's [wait] return, now or when it is called (OSTD's documentation). *)

From S2P Require Import Prelude Abi.
Record Signaller := mk_Signaller { bits : Z; observers : list nat }.

Module Signaller.

Definition new (initial : Z) : Signaller := mk_Signaller initial [].

Definition get (g : Signaller) : Z := bits g.

Definition update (clear set : Z) (g : Signaller) : Signaller * list nat :=
  let b := Signals.union (Signals.difference (bits g) clear) set in
  if negb (b =? bits g) then (mk_Signaller b (observers g), observers g) else (g, []).

Definition poke (g : Signaller) : list nat := observers g.

Definition observe (waker : nat) (g : Signaller) : Z * Signaller :=
  (bits g, mk_Signaller (bits g) (observers g ++ [waker])).

Definition unobserve (waker : nat) (g : Signaller) : Signaller :=
  mk_Signaller (bits g) (List.filter (λ w, negb (Nat.eqb w waker)) (observers g)).

End Signaller.

(** Setting all the bits to [b]. *)
Definition set_all (b : Z) (g : Signaller) : Signaller * list nat :=
  Signaller.update (Signals.difference Signals.ALL b) b g.

(** What [ALL.difference(b)] and [b] leave of any bits is [b]. *)
Lemma set_all_eq x y :
  0 ≤ x ≤ Signals.ALL → 0 ≤ y ≤ Signals.ALL →
  Signals.union (Signals.difference x (Signals.difference Signals.ALL y)) y = y.
Proof.
  intros Hx Hy.
  assert (forallb (λ x, forallb (λ y, Signals.union (Signals.difference x
    (Signals.difference Signals.ALL y)) y =? y) (seqZ 0 32)) (seqZ 0 32) = true) as H by by vm_compute.
  rewrite forallb_forall in H. specialize (H x). rewrite forallb_forall in H.
  apply Z.eqb_eq, H; apply list_elem_of_In, elem_of_seqZ; lia.
Qed.

Lemma set_all_bits b g :
  0 ≤ b ≤ Signals.ALL → 0 ≤ bits g ≤ Signals.ALL →
  bits (set_all b g).1 = b ∧ observers (set_all b g).1 = observers g ∧
  (bits g ≠ b → (set_all b g).2 = observers g).
Proof.
  intros Hb Hg. unfold set_all, Signaller.update. rewrite set_all_eq by done.
  destruct (Z.eqb_spec b (bits g)); simpl; (split; [done|]); (split; [done|]); [congruence|done].
Qed.
