(* ===== verification/Slots.v ===== *)
(** * The kernel's slots

    [src/kernel/core/src/plane.rs]: a slot is where memory objects pass between the engine
    and one task.  A slot's lock is the atomicity of the definitions below; those that map or
    unmap run in the machine of the process that does.  Processes, slots and threads are
    numbers, a [Weak] the number of what it points to. *)

From S2P Require Import Prelude Abi Quota Account BTree Vm Signal.
Section slot.
Context `{!Ostd}.

(** [MemoryObject::size]: whole pages. *)
Definition mo_size (m : MemoryObject) : Z := zlen (frames m) *! PAGE_SIZE.

Record Entry := mk_Entry {
  memory : MemoryObject;
  rights : Z;
  offset : Z;
  len : Z;
  cookie : Z;
}.

Record Mapped := mk_Mapped { mapper : nat; addr : Z; span : Z; entry : Entry }.

Inductive Event :=
| Released (cookie : Z)
| Put (entry : Entry) (offset len : Z)
| Returned (entry : Entry).

Record State := mk_State {
  ready : list Entry;
  current : option Mapped;
  events : list Event;
  closed : bool;
  attached : bool;
  ended : bool;
  task : option nat;
  index : Z;
}.

Definition in_flight (s : State) : Z :=
  zlen (ready s) + (if current s is Some _ then 1 else 0) + zlen (events s).

Record Slot := mk_Slot {
  output : bool;
  state : State;
  engine : Signaller;
  task_signal : Signaller;
  slot_charge : id;
}.

(** A slot, the machine of the process at work, and the wakers woken so far. *)
Record Ctx := mk_Ctx { slot : Slot; mach : Machine; woken : list nat }.

Abbreviation C := (M Ctx Error).

Definition set_state (st : State) (s : Slot) : Slot :=
  mk_Slot (output s) st (engine s) (task_signal s) (slot_charge s).
Definition set_ready (l : list Entry) (s : State) : State :=
  mk_State l (current s) (events s) (closed s) (attached s) (ended s) (task s) (index s).
Definition set_current (m : option Mapped) (s : State) : State :=
  mk_State (ready s) m (events s) (closed s) (attached s) (ended s) (task s) (index s).
Definition set_events (l : list Event) (s : State) : State :=
  mk_State (ready s) (current s) l (closed s) (attached s) (ended s) (task s) (index s).
Definition set_closed (b : bool) (s : State) : State :=
  mk_State (ready s) (current s) (events s) b (attached s) (ended s) (task s) (index s).
Definition set_ended (b : bool) (s : State) : State :=
  mk_State (ready s) (current s) (events s) (closed s) (attached s) b (task s) (index s).
Definition set_task (b : bool) (t : option nat) (i : Z) (s : State) : State :=
  mk_State (ready s) (current s) (events s) (closed s) b (ended s) t i.

Definition put_state (st : State) : C unit :=
  modify (λ c, mk_Ctx (set_state st (slot c)) (mach c) (woken c)).
Definition get_state : C State := gets (λ c, state (slot c)).
Definition get_output : C bool := gets (λ c, output (slot c)).

(** A call on the space of the process at work, its refusal a value. *)
Definition in_space {A} (f : M Machine Error A) : C (result Error A) := λ c,
  let '(r, m) := f (mach c) in (Ok r, mk_Ctx (slot c) m (woken c)).

(** ** Making a slot *)

Definition new_state : State := mk_State [] None [] false false false None 0.

(** [Slot::new]; [room] says whether the heap gives both queues. *)
Definition slot_new (flags : Z) (account : id) (room : bool) (w : World) :
    result Error Slot * World :=
  if negb ((flags =? slot_flags.INPUT) || (flags =? slot_flags.OUTPUT)) then (Err InvalidArgs, w)
  else match charge_new account charge.SLOT w with
  | (Err e, w) => (Err e, w)
  | (Ok c, w) =>
      if negb room then (Err NoMemory, charge_drop c w)
      else (Ok (mk_Slot (flags =? slot_flags.OUTPUT) new_state (Signaller.new Signals.WRITABLE)
                  (Signaller.new Signals.NONE) c), w)
  end.

(** ** Signals *)

Definition task_ready (s : State) : bool :=
  negb (bool_decide (ready s = [])) || closed s || ended s.

Definition engine_bits (s : State) : Z :=
  let e := Signals.NONE in
  let e := if negb (bool_decide (events s = [])) then Signals.union e Signals.READABLE else e in
  let e := if negb (closed s) && negb (ended s) && (in_flight s <? limits.SLOT_DEPTH)
           then Signals.union e Signals.WRITABLE else e in
  let e := if ended s then Signals.union e Signals.PEER_CLOSED else e in
  if task_ready s then Signals.union e Signals.SIGNALED else e.

Definition task_bits (s : State) : Z := if task_ready s then Signals.READABLE else Signals.NONE.

Definition refresh : C unit := modify (λ c,
  let s := slot c in
  let '(e, w1) := set_all (engine_bits (state s)) (engine s) in
  let '(t, w2) := set_all (task_bits (state s)) (task_signal s) in
  mk_Ctx (mk_Slot (output s) (state s) e t (slot_charge s)) (mach c) (woken c ++ w1 ++ w2)).

(** ** The engine's calls *)

Definition push (m : MemoryObject) (r offset len cookie : Z) : C unit :=
  out ← get_output;
  let needed := if (out : bool) then Rights.union (Rights.union Rights.READ Rights.WRITE) Rights.MAP
                else Rights.union Rights.READ Rights.MAP in
  if negb (Rights.contains r needed) then fail AccessDenied
  else if (len =? 0) || negb (is_multiple_of offset PAGE_SIZE)
          || (out && negb (is_multiple_of len PAGE_SIZE)) then fail InvalidArgs
  else
    span ← lift (pages len);
    if match checked_add 64 offset span with None => true | Some e => mo_size m <? e end
    then fail OutOfRange
    else
      s ← get_state;
      if closed s || ended s then fail BadState
      else if limits.SLOT_DEPTH <=? in_flight s then fail ShouldWait
      else
        _ ← put_state (set_ready (ready s ++ [mk_Entry m r offset len cookie]) s);
        refresh.

Definition close : C unit :=
  s ← get_state;
  _ ← put_state (set_closed true s);
  refresh.

(** What [slot_take] hands back. *)
Record Taken := mk_Taken { t_bytes : list byte; t_memory : option (MemoryObject * Z) }.

Definition event_bytes (kind cookie offset len : Z) : list byte :=
  let b := repeat x00 slot_event.SIZE in
  let b := (write_u32 b slot_event.KIND kind).2 in
  let b := (write_u64 b slot_event.COOKIE cookie).2 in
  let b := (write_u64 b slot_event.OFFSET offset).2 in
  (write_u64 b slot_event.LEN len).2.

Definition taken_of (e : Event) : Taken :=
  match e with
  | Released c =>
      mk_Taken (write_u64 (write_u32 (repeat x00 slot_event.SIZE) slot_event.KIND
                             slot_event.RELEASED).2 slot_event.COOKIE c).2 None
  | Put e off n =>
      mk_Taken (event_bytes slot_event.PUT (cookie e) off n) (Some (memory e, rights e))
  | Returned e =>
      mk_Taken (event_bytes slot_event.RETURNED (cookie e) (offset e) (len e))
        (Some (memory e, rights e))
  end.

(** [Slot::take]: the event leaves the queue only once [insert] has succeeded. *)
Definition take (insert : Taken → result Error unit) : C unit :=
  s ← get_state;
  match events s with
  | [] => fail (if ended s then PeerClosed else ShouldWait)
  | front :: rest =>
      _ ← lift (insert (taken_of front));
      _ ← put_state (set_events rest s);
      refresh
  end.

(** [Slot::refuse]: the task to end, and the number of the slot the reason names. *)
Definition refuse (alive : nat → bool) : C (nat * Z) :=
  s ← get_state;
  if ended s then fail BadState
  else match task s with
  | Some t => if alive t then mret (t, index s) else fail BadState
  | None => fail BadState
  end.

(** ** The task's calls *)

Definition attach (t : nat) (i : Z) : C unit :=
  s ← get_state;
  if attached s then fail BadState else put_state (set_task true (Some t) i s).

(** How a turn of [get]'s loop ends. *)
Inductive Turn :=
| Break (r : result Error (Z * Z))
| Continue
| Wait.

(** The batch mapped before is released. *)
Definition release (m : Mapped) : C (result Error unit) :=
  r ← in_space (unmap_plane (addr m) (span m) (memory (entry m)));
  match r with
  | Err e => mret (Err e)
  | Ok _ =>
      s ← get_state;
      _ ← put_state (set_current None
            (set_events (events s ++ [Released (cookie (entry m))]) s));
      _ ← refresh;
      mret (Ok tt)
  end.

(** The next entry is mapped for [p]. *)
Definition map_next (p : nat) (e : Entry) (rest : list Entry) : C Turn :=
  match pages (len e) with
  | Err er => mret (Break (Err er))
  | Ok n =>
      out ← get_output;
      r ← in_space (map_plane (memory e) (offset e / PAGE_SIZE) n out);
      match r with
      | Err er => mret (Break (Err er))
      | Ok a =>
          s ← get_state;
          _ ← put_state (set_current (Some (mk_Mapped p a n e)) (set_ready rest s));
          _ ← refresh;
          mret (Break (Ok (a, len e)))
      end
  end.

(** What a turn does once nothing is mapped. *)
Definition next_turn (p waker : nat) (watching : bool) : C Turn :=
  s ← get_state;
  match ready s with
  | e :: rest => map_next p e rest
  | [] =>
      if closed s then mret (Break (Ok (0, 0)))
      else if watching then mret Wait
      else
        _ ← modify (λ c, let s := slot c in
              mk_Ctx (mk_Slot (output s) (state s) (engine s)
                        (Signaller.observe waker (task_signal s)).2 (slot_charge s))
                (mach c) (woken c));
        mret Continue
  end.

(** A turn of the loop of [Slot::get] by a thread of process [p]. *)
Definition get_turn (killed : bool) (p waker : nat) (watching : bool) : C Turn :=
  if killed then mret (Break (Err BadState))
  else
    s ← get_state;
    out ← get_output;
    if ended s then mret (Break (Err BadState))
    else match current s with
    | Some m =>
        if negb (Nat.eqb (mapper m) p) then mret (Break (Err BadState))
        else if (out : bool) then mret (Break (Ok (addr m, len (entry m))))
        else
          r ← release m;
          match r with
          | Err e => mret (Break (Err e))
          | Ok _ => next_turn p waker watching
          end
    | None => next_turn p waker watching
    end.

(** The end of [get], once its loop is left. *)
Definition get_end (waker : nat) (watching : bool) : C unit :=
  if watching then
    modify (λ c, let s := slot c in
      mk_Ctx (mk_Slot (output s) (state s) (engine s)
                (Signaller.unobserve waker (task_signal s)) (slot_charge s)) (mach c) (woken c))
  else mret tt.

(** [Slot::put]; the parameters are [plane.rs]'s [addr] and [len]. *)
Definition put (p : nat) (at_ n : Z) : C unit :=
  out ← get_output;
  if negb out then fail InvalidArgs
  else
    s ← get_state;
    match current s with
    | None => fail BadState
    | Some m =>
        if negb (Nat.eqb (mapper m) p) then fail BadState
        else if (n =? 0) || negb (is_multiple_of at_ PAGE_SIZE) then fail InvalidArgs
        else
          within ← lift (ok_or (checked_sub at_ (addr m)) OutOfRange);
          if match checked_add 64 within n with None => true | Some e => len (entry m) <? e end
          then fail OutOfRange
          else
            r ← in_space (unmap_plane (addr m) (span m) (memory (entry m)));
            _ ← lift r;
            _ ← put_state (set_current None
                  (set_events (events s ++ [Put (entry m) (offset (entry m) +! within) n]) s));
            refresh
    end.

(** ** The task's end *)

Definition back (out : bool) (e : Entry) : Event :=
  if out then Returned e else Released (cookie e).

(** The mapping of a task that ends, unmapped. *)
Definition unmap_current (upgraded : bool) (m : option Mapped) : C unit :=
  match m with
  | Some m =>
      if upgraded then
        _ ← in_space (unmap_plane (addr m) (span m) (memory (entry m))); mret tt
      else mret tt
  | None => mret tt
  end.

(** [Slot::detach]; [upgraded] says whether the process that has the mapping, whose machine
    this runs in, still exists.  A refusal to unmap is at most a line on the console. *)
Definition detach (upgraded : bool) : C unit :=
  s ← get_state;
  if ended s then mret tt
  else
    out ← get_output;
    _ ← unmap_current upgraded (current s);
    let given := match current s with Some m => [back out (entry m)] | None => [] end
                 ++ (back out <$> ready s) in
    _ ← put_state (set_ended true
          (set_ready [] (set_current None (set_events (events s ++ given) s))));
    refresh.

(** ** Port calls *)

(** What a thread has of its last port call mapped. *)
Definition Reply : Type := Z * Z * MemoryObject.

(** The previous reply of the thread goes; a refusal is a line on the console. *)
Definition drop_reply (r : option Reply) : M Machine Error unit := λ s,
  match r with
  | Some (a, n, m) => (Ok tt, (unmap_plane a n m s).2)
  | None => (Ok tt, s)
  end.

(** The request, its header filled in. *)
Definition request_bytes (tid port : Z) (bytes : list byte) : list byte :=
  let b := repeat x00 request.SIZE in
  let b := (write_u32 b request.KIND request.CALL).2 in
  let b := (write_u64 b request.TOKEN tid).2 in
  let b := (write_u64 b request.PORT port).2 in
  (write_u64 b request.LEN (zlen bytes)).2 ++ bytes.

(** The reply read: nothing, or an object and the length of the answer in it.  [first] is the
    reply's first handle, the object of it when it is a memory object, and its rights. *)
Definition reply_of (bytes : list byte) (first : option (option MemoryObject * Z)) :
    result Error (option (MemoryObject * Z)) :=
  let status := default 0 (read_u64 bytes reply.STATUS) in
  if negb (status =? 0) then
    Err (default InvalidArgs (if status <? 2 ^ 32 then Err.from_code status else None))
  else
    let n := default 0 (read_u64 bytes reply.LEN) in
    if n =? 0 then Ok None
    else match first with
    | Some (Some m, r) =>
        if Rights.contains r (Rights.union Rights.READ Rights.MAP) && (n <=? mo_size m)
        then Ok (Some (m, n)) else Err PeerClosed
    | _ => Err PeerClosed
    end.

(** The answer mapped read only. *)
Definition map_reply (m : MemoryObject) (n : Z) : M Machine Error Reply :=
  span ← lift (pages n);
  a ← map_plane m 0 span false;
  mret (a, span, m).

End slot.
Arguments mk_Entry {_} _ _ _ _ _.
Arguments mk_Mapped {_} _ _ _ _.
Arguments Released {_} _.
Arguments Put {_} _ _ _.
Arguments Returned {_} _.
Arguments mk_State {_} _ _ _ _ _ _ _ _.
Arguments mk_Slot {_} _ _ _ _ _.
Arguments mk_Ctx {_} _ _ _.
Arguments mk_Taken {_} _ _.
