(* ===== verification/SlotInv.v ===== *)
(** * What a slot keeps

    Whatever the engine and the task do, in whatever order: every object pushed comes back to
    the engine as exactly one event, in the order pushed; the slot never holds more than it
    reserved room for; and the signals both sides wait on say what the slot would answer. *)

From S2P Require Import Prelude Abi Quota Account BTree Vm Signal Slots.
Section slot.
Context {O : Ostd}.
Implicit Types (sl : Slot) (st : State) (c : Ctx).

(** ** Signals *)

Record signals_ok sl : Prop := {
  sg_engine : bits (engine sl) = engine_bits (state sl);
  sg_task : bits (task_signal sl) = task_bits (state sl);
}.

Lemma engine_bits_range st : 0 ≤ engine_bits st ≤ Signals.ALL.
Proof.
  unfold engine_bits. repeat case_match; vm_compute; split; congruence.
Qed.

Lemma task_bits_range st : 0 ≤ task_bits st ≤ Signals.ALL.
Proof. unfold task_bits. case_match; vm_compute; split; congruence. Qed.

(** The slot as [refresh] leaves it, and whom it wakes: every observer of the task's signals
    when whether a [get] would wait has changed. *)
Lemma refresh_spec c :
  0 ≤ bits (engine (slot c)) ≤ Signals.ALL → 0 ≤ bits (task_signal (slot c)) ≤ Signals.ALL →
  ∃ c', refresh c = (Ok tt, c') ∧ state (slot c') = state (slot c) ∧
    output (slot c') = output (slot c) ∧ mach c' = mach c ∧ signals_ok (slot c') ∧
    observers (task_signal (slot c')) = observers (task_signal (slot c)) ∧
    (∀ w, w ∈ woken c → w ∈ woken c') ∧
    (bits (task_signal (slot c)) ≠ task_bits (state (slot c)) →
     ∀ w, w ∈ observers (task_signal (slot c)) → w ∈ woken c').
Proof.
  intros He Ht. unfold refresh, modify. eexists. split; [reflexivity|].
  destruct (set_all_bits _ _ (engine_bits_range (state (slot c))) He) as (E1 & E2 & _).
  destruct (set_all_bits _ _ (task_bits_range (state (slot c))) Ht) as (T1 & T2 & T3).
  destruct (set_all (engine_bits _) _) as [e w1], (set_all (task_bits _) _) as [t w2].
  simpl in *. split_and!; try done.
  - intros w Hw. apply elem_of_app. by left.
  - intros Hne w Hw. rewrite (T3 Hne). rewrite !elem_of_app. by right; right.
Qed.

(** ** The operations on a slot *)

(** A new state, both sides' signals renewed. *)
Definition refreshed st c c' : Prop :=
  state (slot c') = st ∧ output (slot c') = output (slot c) ∧ signals_ok (slot c') ∧
  observers (task_signal (slot c')) = observers (task_signal (slot c)) ∧
  (∀ w, w ∈ woken c → w ∈ woken c') ∧
  (task_bits (state (slot c)) ≠ task_bits st →
   ∀ w, w ∈ observers (task_signal (slot c)) → w ∈ woken c').

Lemma put_refresh st c :
  signals_ok (slot c) →
  ∃ c', (_ ← put_state st; refresh) c = (Ok tt, c') ∧ refreshed st c c' ∧ mach c' = mach c.
Proof.
  intros [He Ht]. unfold mbind, M_bind, put_state, modify. set (c1 := mk_Ctx _ _ _).
  destruct (refresh_spec c1) as (c' & E & H1 & H2 & H3 & H4 & H5 & H6 & H7).
  { unfold c1. simpl. rewrite He. apply engine_bits_range. }
  { unfold c1. simpl. rewrite Ht. apply task_bits_range. }
  exists c'. split; [done|]. split; [|done]. split_and!; try done.
  intros Hne. apply H7. unfold c1. simpl. by rewrite Ht.
Qed.

Lemma put_refresh_bind {A} st c (k : M Ctx Error A) r c2 :
  signals_ok (slot c) → (_ ← put_state st; _ ← refresh; k) c = (r, c2) →
  ∃ c1, refreshed st c c1 ∧ mach c1 = mach c ∧ k c1 = (r, c2).
Proof.
  intros S. destruct (put_refresh st c S) as (c1 & E & R & M). unfold mbind, M_bind in *.
  destruct (put_state st c) as [[[]|e] c0]; [|done]. rewrite E. eauto.
Qed.

(** What an entry was checked for when it was pushed. *)
Definition entry_ok (out : bool) (e : Entry) : Prop :=
  len e ≠ 0 ∧ offset e mod PAGE_SIZE = 0 ∧ (out = true → len e mod PAGE_SIZE = 0) ∧
  Rights.contains (rights e) (if out then Z.lor (Z.lor Rights.READ Rights.WRITE) Rights.MAP
                              else Z.lor Rights.READ Rights.MAP) = true ∧
  ∃ n, pages (len e) = Ok n ∧ offset e + n ≤ mo_size (memory e).

Lemma push_spec m r off n ck c res c' :
  signals_ok (slot c) → push m r off n ck c = (res, c') →
  let st := state (slot c) in
  let e := mk_Entry m r off n ck in
  match res with
  | Ok _ => refreshed (set_ready (ready st ++ [e]) st) c c' ∧ mach c' = mach c ∧
      closed st = false ∧ ended st = false ∧ in_flight st < limits.SLOT_DEPTH ∧
      entry_ok (output (slot c)) e
  | Err _ => c' = c
  end.
Proof.
  intros S. unfold push. unfold mbind at 1, M_bind at 1. unfold get_output, gets, fail.
  destruct (Rights.contains r _) eqn:Hr; simpl; [|by intros [= <- <-]].
  destruct (Z.eqb_spec n 0) as [|Hn]; [by intros [= <- <-]|].
  destruct (is_multiple_of off PAGE_SIZE) eqn:Ho; [|by intros [= <- <-]]. simpl.
  destruct (output (slot c) && negb (is_multiple_of n PAGE_SIZE)) eqn:Hm; [by intros [= <- <-]|].
  unfold lift. unfold mbind at 1, M_bind at 1.
  destruct (pages n) as [k|er] eqn:Ek; [|by intros [= <- <-]].
  destruct (checked_add 64 off k) as [e|] eqn:Ea; [|by intros [= <- <-]].
  apply checked_add_Some in Ea as [-> _].
  destruct (Z.ltb_spec (mo_size m) (off + k)); [by intros [= <- <-]|].
  unfold get_state, gets. unfold mbind at 1, M_bind at 1.
  destruct (closed (state (slot c))) eqn:Hc; [by intros [= <- <-]|].
  destruct (ended (state (slot c))) eqn:He; simpl; [by intros [= <- <-]|].
  destruct (Z.leb_spec limits.SLOT_DEPTH (in_flight (state (slot c)))); [by intros [= <- <-]|].
  destruct (put_refresh (set_ready (ready (state (slot c)) ++ [mk_Entry m r off n ck])
    (state (slot c))) c S) as (c1 & E & R & M).
  rewrite E. intros [= <- <-]. split_and!; try done.
  unfold entry_ok. simpl. unfold is_multiple_of in *. split_and!; try done.
  - by apply Z.eqb_eq.
  - intros Hout. rewrite Hout in Hm. simpl in Hm. by apply negb_false_iff, Z.eqb_eq in Hm.
  - exists k. split; [done|lia].
Qed.

Lemma close_spec c r c' :
  signals_ok (slot c) → close c = (r, c') →
  r = Ok tt ∧ refreshed (set_closed true (state (slot c))) c c' ∧ mach c' = mach c.
Proof.
  intros S. unfold close, get_state, gets. unfold mbind at 1, M_bind at 1.
  destruct (put_refresh (set_closed true (state (slot c))) c S) as (c1 & E & R & M).
  rewrite E. by intros [= <- <-].
Qed.

Lemma take_spec insert c r c' :
  signals_ok (slot c) → take insert c = (r, c') →
  let st := state (slot c) in
  match r with
  | Ok _ => ∃ ev rest, events st = ev :: rest ∧ insert (taken_of ev) = Ok tt ∧
      refreshed (set_events rest st) c c' ∧ mach c' = mach c
  | Err e => c' = c ∧
      match events st with
      | [] => e = if ended st then PeerClosed else ShouldWait
      | ev :: _ => insert (taken_of ev) = Err e
      end
  end.
Proof.
  intros S. unfold take, get_state, gets. unfold mbind at 1, M_bind at 1.
  cbv zeta. destruct (events (state (slot c))) as [|ev rest] eqn:Ev; [by intros [= <- <-]|].
  unfold lift. unfold mbind at 1, M_bind at 1.
  destruct (insert (taken_of ev)) as [[]|e] eqn:Ei; [|by intros [= <- <-]].
  destruct (put_refresh (set_events rest (state (slot c))) c S) as (c1 & E & R & M).
  rewrite E. intros [= <- <-]. by exists ev, rest.
Qed.

Lemma release_spec m c r c' :
  signals_ok (slot c) → release m c = (r, c') →
  let u := unmap_plane (addr m) (span m) (memory (entry m)) (mach c) in
  let st := state (slot c) in
  mach c' = u.2 ∧
  match u.1 with
  | Ok _ => r = Ok (Ok tt) ∧
      refreshed (set_current None (set_events (events st ++ [Released (cookie (entry m))]) st)) c c'
  | Err e => r = Ok (Err e) ∧ slot c' = slot c ∧ woken c' = woken c
  end.
Proof.
  intros S. unfold release, in_space. unfold mbind at 1, M_bind at 1.
  destruct (unmap_plane _ _ _ (mach c)) as [[[]|e] m1] eqn:Eu; simpl; [|by intros [= <- <-]].
  unfold get_state, gets. unfold mbind at 1, M_bind at 1. simpl. intros E.
  apply put_refresh_bind in E as (c1 & R & M & [= <- <-]); [|done]. simpl in M. by split.
Qed.

Lemma map_next_spec p e rest c r c' :
  signals_ok (slot c) → map_next p e rest c = (r, c') →
  match pages (len e) with
  | Err er => r = Ok (Break (Err er)) ∧ c' = c
  | Ok n =>
      let u := map_plane (memory e) (offset e / PAGE_SIZE) n (output (slot c)) (mach c) in
      mach c' = u.2 ∧
      match u.1 with
      | Err er => r = Ok (Break (Err er)) ∧ slot c' = slot c ∧ woken c' = woken c
      | Ok a => r = Ok (Break (Ok (a, len e))) ∧
          refreshed (set_current (Some (mk_Mapped p a n e)) (set_ready rest (state (slot c)))) c c'
      end
  end.
Proof.
  intros S. unfold map_next. destruct (pages (len e)) as [n|er]; [|by intros [= <- <-]].
  unfold get_output, gets, in_space. unfold mbind at 1, M_bind at 1. unfold mbind at 1, M_bind at 1.
  destruct (map_plane _ _ _ _ (mach c)) as [[a|er] m1] eqn:Eu; simpl; [|by intros [= <- <-]].
  unfold get_state, gets. unfold mbind at 1, M_bind at 1. simpl. intros E.
  apply put_refresh_bind in E as (c1 & R & M & [= <- <-]); [|done]. simpl in M. by split.
Qed.

Lemma unmap_plane_err va n m (s s' : Machine) e : unmap_plane va n m s = (Err e, s') → s' = s.
Proof.
  unfold unmap_plane, mbind, M_bind, lift, gets, fail.
  destruct (check_range va n) as [k|er]; [|by intros [= <- <-]].
  destruct (negb _); [by intros [= <- <-]|].
  unfold on_space, modify, act, free_tables. by destruct (neighbours _ _ _).
Qed.

(** A thread that waits is among the observers of the task's signals. *)
Definition observing (waker : nat) (sl : Slot) : Slot :=
  mk_Slot (output sl) (state sl) (engine sl) (Signaller.observe waker (task_signal sl)).2
    (slot_charge sl).

Lemma next_turn_spec p waker watching c r c' :
  signals_ok (slot c) → next_turn p waker watching c = (r, c') →
  match ready (state (slot c)) with
  | e :: rest => map_next p e rest c = (r, c')
  | [] => woken c' = woken c ∧ mach c' = mach c ∧
      if closed (state (slot c)) then r = Ok (Break (Ok (0, 0))) ∧ slot c' = slot c
      else if watching then r = Ok Wait ∧ slot c' = slot c
      else r = Ok Continue ∧ slot c' = observing waker (slot c)
  end.
Proof.
  intros S. unfold next_turn, get_state, gets. unfold mbind at 1, M_bind at 1.
  destruct (ready (state (slot c))) as [|e rest]; [|done].
  destruct (closed (state (slot c))); [by intros [= <- <-]|].
  destruct watching; [by intros [= <- <-]|]. by intros [= <- <-].
Qed.

(** The slot once what the task had mapped is out of the way. *)
Definition cleared (p : nat) c c1 : Prop :=
  (current (state (slot c)) = None ∧ c1 = c) ∨
  ∃ m, current (state (slot c)) = Some m ∧ mapper m = p ∧ output (slot c) = false ∧
    unmap_plane (addr m) (span m) (memory (entry m)) (mach c) = (Ok tt, mach c1) ∧
    refreshed (set_current None
      (set_events (events (state (slot c)) ++ [Released (cookie (entry m))]) (state (slot c)))) c c1.

Lemma get_turn_spec killed p waker watching c r c' :
  signals_ok (slot c) → get_turn killed p waker watching c = (r, c') →
  (∃ b, r = Ok (Break b) ∧ c' = c) ∨
  (killed = false ∧ ended (state (slot c)) = false ∧
   ∃ c1, cleared p c c1 ∧ next_turn p waker watching c1 = (r, c')).
Proof.
  intros S. unfold get_turn. destruct killed; [intros [= <- <-]; left; eauto|].
  unfold get_state, get_output, gets. unfold mbind at 1, M_bind at 1. unfold mbind at 1, M_bind at 1.
  destruct (ended (state (slot c))) eqn:Ee; [intros [= <- <-]; left; eauto|].
  destruct (current (state (slot c))) as [m|] eqn:Ec.
  2: { intros E. right. split; [done|]. split; [done|]. exists c. split; [by left|done]. }
  destruct (Nat.eqb_spec (mapper m) p) as [Hm|]; [|intros [= <- <-]; left; eauto]. simpl.
  destruct (output (slot c)) eqn:Eo; [intros [= <- <-]; left; eauto|].
  unfold mbind at 1, M_bind at 1. destruct (release m c) as [rr c1] eqn:Er.
  destruct (release_spec m c rr c1 S Er) as [M R].
  destruct (unmap_plane _ _ _ (mach c)) as [[[]|e] m1] eqn:Eu; simpl in M, R.
  - destruct R as [-> R]. intros E. right. split; [done|]. split; [done|]. exists c1.
    split; [|done]. right. exists m. split_and!; try done. by rewrite Eu, M.
  - destruct R as (-> & Hs & Hw). intros [= <- <-]. left. eexists. split; [done|].
    destruct c1, c. simpl in *. subst. f_equal. by eapply unmap_plane_err.
Qed.

Lemma put_spec p at_ n c r c' :
  signals_ok (slot c) → put p at_ n c = (r, c') →
  let st := state (slot c) in
  match r with
  | Err _ => c' = c
  | Ok _ => ∃ m, current st = Some m ∧ mapper m = p ∧ output (slot c) = true ∧ n ≠ 0 ∧
      addr m ≤ at_ ∧ at_ - addr m + n ≤ len (entry m) ∧ at_ mod PAGE_SIZE = 0 ∧
      unmap_plane (addr m) (span m) (memory (entry m)) (mach c) = (Ok tt, mach c') ∧
      refreshed (set_current None (set_events (events st ++
        [Put (entry m) (offset (entry m) +! (at_ - addr m)) n]) st)) c c'
  end.
Proof.
  intros S. unfold put, get_output, get_state, gets, fail. unfold mbind at 1, M_bind at 1.
  destruct (output (slot c)) eqn:Eo; [|by intros [= <- <-]]. simpl.
  unfold mbind at 1, M_bind at 1.
  destruct (current (state (slot c))) as [m|] eqn:Ec; [|by intros [= <- <-]].
  destruct (Nat.eqb_spec (mapper m) p) as [Hm|]; [|by intros [= <- <-]]. simpl.
  destruct (Z.eqb_spec n 0) as [|Hn]; [by intros [= <- <-]|].
  destruct (is_multiple_of at_ PAGE_SIZE) eqn:Ha; [|by intros [= <- <-]]. simpl.
  unfold mbind at 1, M_bind at 1, lift. unfold checked_sub.
  destruct (Z.leb_spec (addr m) at_); simpl; [|by intros [= <- <-]].
  destruct (checked_add 64 (at_ - addr m) n) as [e|] eqn:Eadd; [|by intros [= <- <-]].
  apply checked_add_Some in Eadd as [-> _].
  destruct (Z.ltb_spec (len (entry m)) (at_ - addr m + n)); [by intros [= <- <-]|].
  unfold mbind at 1, M_bind at 1, in_space.
  destruct (unmap_plane _ _ _ (mach c)) as [[[]|er] m1] eqn:Eu.
  - unfold mbind at 1, M_bind at 1. set (c1 := mk_Ctx (slot c) m1 (woken c)).
    destruct (put_refresh (set_current None (set_events (events (state (slot c)) ++
      [Put (entry m) (offset (entry m) +! (at_ - addr m)) n]) (state (slot c)))) c1 S)
      as (c2 & E & R & M).
    rewrite E. intros [= <- <-]. exists m. split_and!; try done; try lia.
    + by apply Z.eqb_eq.
    + by rewrite M.
  - unfold mbind, M_bind. intros [= <- <-]. destruct c. simpl in *. f_equal.
    by eapply unmap_plane_err.
Qed.

(** What a slot gives back when its task ends. *)
Definition given (out : bool) st : list Event :=
  match current st with Some m => [back out (entry m)] | None => [] end ++ (back out <$> ready st).

Lemma unmap_current_spec upgraded cur c r c' :
  unmap_current upgraded cur c = (r, c') →
  r = Ok tt ∧ slot c' = slot c ∧ woken c' = woken c ∧
  mach c' = match cur with
            | Some m =>
                if upgraded
                then (unmap_plane (addr m) (span m) (memory (entry m)) (mach c)).2
                else mach c
            | None => mach c
            end.
Proof.
  unfold unmap_current. destruct cur as [m|]; [|by intros [= <- <-]].
  destruct upgraded; [|by intros [= <- <-]]. unfold mbind, M_bind, in_space.
  destruct (unmap_plane _ _ _ (mach c)). by intros [= <- <-].
Qed.

Lemma detach_spec upgraded c r c' :
  signals_ok (slot c) → detach upgraded c = (r, c') →
  let st := state (slot c) in
  r = Ok tt ∧
  if ended st then c' = c
  else
    mach c' = match current st with
              | Some m =>
                  if upgraded
                  then (unmap_plane (addr m) (span m) (memory (entry m)) (mach c)).2
                  else mach c
              | None => mach c
              end ∧
    refreshed (set_ended true (set_ready [] (set_current None
      (set_events (events st ++ given (output (slot c)) st) st)))) c c'.
Proof.
  intros S. unfold detach, get_output, get_state, gets. unfold mbind at 1, M_bind at 1.
  cbv zeta. destruct (ended (state (slot c))) eqn:Ee; [by intros [= <- <-]|].
  unfold mbind at 1, M_bind at 1. unfold mbind at 1, M_bind at 1.
  destruct (unmap_current upgraded (current (state (slot c))) c) as [r1 c1] eqn:E1.
  destruct (unmap_current_spec _ _ _ _ _ E1) as (-> & Hs & Hw & Hm).
  fold (given (output (slot c)) (state (slot c))). rewrite <- Hs in S.
  destruct (put_refresh (set_ended true (set_ready [] (set_current None
    (set_events (events (state (slot c)) ++ given (output (slot c)) (state (slot c)))
      (state (slot c)))))) c1 S) as (c2 & E & R & M).
  rewrite E. intros [= <- <-]. split; [done|]. split; [by rewrite M|].
  unfold refreshed in *. by rewrite Hs, Hw in R.
Qed.

Lemma attach_spec t i c r c' :
  attach t i c = (r, c') →
  match r with
  | Ok _ => attached (state (slot c)) = false ∧ mach c' = mach c ∧ woken c' = woken c ∧
      slot c' = set_state (set_task true (Some t) i (state (slot c))) (slot c)
  | Err _ => attached (state (slot c)) = true ∧ c' = c
  end.
Proof.
  unfold attach, get_state, gets. unfold mbind, M_bind.
  destruct (attached (state (slot c))); [by intros [= <- <-]|]. by intros [= <- <-].
Qed.

(** ** Every object comes back once, in order *)

Definition event_cookie (ev : Event) : Z :=
  match ev with Released k => k | Put e _ _ | Returned e => cookie e end.

(** The cookies of what a slot holds, in the order it was pushed. *)
Definition cookies st : list Z :=
  (event_cookie <$> events st) ++
  match current st with Some m => [cookie (entry m)] | None => [] end ++ (cookie <$> ready st).

Lemma in_flight_cookies st : in_flight st = zlen (cookies st).
Proof.
  unfold in_flight, cookies, zlen. rewrite !length_app, !length_fmap. destruct (current st); simpl; lia.
Qed.

Lemma back_cookie out e : event_cookie (back out e) = cookie e.
Proof. by destruct out. Qed.

(** A slot in use: the cookies pushed so far, those taken, and the slot.  The machines the
    calls run in are any. *)
Inductive slot_run : list Z → list Z → Slot → Prop :=
| run_new flags account room w sl w' :
    slot_new flags account room w = (Ok sl, w') → slot_run [] [] sl
| run_push pu ta c m r off n ck c' :
    slot_run pu ta (slot c) → push m r off n ck c = (Ok tt, c') →
    slot_run (pu ++ [ck]) ta (slot c')
| run_take pu ta c insert ev rest c' :
    slot_run pu ta (slot c) → events (state (slot c)) = ev :: rest →
    take insert c = (Ok tt, c') → slot_run pu (ta ++ [event_cookie ev]) (slot c')
| run_refused pu ta c m r off n ck insert e c' :
    slot_run pu ta (slot c) →
    push m r off n ck c = (Err e, c') ∨ take insert c = (Err e, c') → slot_run pu ta (slot c')
| run_close pu ta c r c' :
    slot_run pu ta (slot c) → close c = (r, c') → slot_run pu ta (slot c')
| run_attach pu ta c t i r c' :
    slot_run pu ta (slot c) → attach t i c = (r, c') → slot_run pu ta (slot c')
| run_get pu ta c killed p waker watching r c' :
    slot_run pu ta (slot c) → get_turn killed p waker watching c = (r, c') →
    slot_run pu ta (slot c')
| run_get_end pu ta c waker watching r c' :
    slot_run pu ta (slot c) → get_end waker watching c = (r, c') → slot_run pu ta (slot c')
| run_put pu ta c p at_ n r c' :
    slot_run pu ta (slot c) → put p at_ n c = (r, c') → slot_run pu ta (slot c')
| run_detach pu ta c upgraded r c' :
    slot_run pu ta (slot c) → detach upgraded c = (r, c') → slot_run pu ta (slot c').

Record slot_inv (pu ta : list Z) sl : Prop := {
  si_signals : signals_ok sl;
  si_fifo : pu = ta ++ cookies (state sl);
  si_depth : in_flight (state sl) ≤ limits.SLOT_DEPTH;
  si_ended : ended (state sl) = true → ready (state sl) = [] ∧ current (state sl) = None;
}.

(** A slot that holds what it held. *)
Lemma slot_inv_same pu ta sl sl' :
  slot_inv pu ta sl → signals_ok sl' → cookies (state sl') = cookies (state sl) →
  (ended (state sl') = true → ready (state sl') = [] ∧ current (state sl') = None) →
  slot_inv pu ta sl'.
Proof.
  intros [S F D E] S' C' E'. split; [done| | |done].
  - by rewrite C'.
  - by rewrite in_flight_cookies, C', <- in_flight_cookies.
Qed.

Lemma cleared_inv pu ta p c c1 :
  slot_inv pu ta (slot c) → ended (state (slot c)) = false → cleared p c c1 →
  slot_inv pu ta (slot c1) ∧ current (state (slot c1)) = None ∧
  ready (state (slot c1)) = ready (state (slot c)) ∧ ended (state (slot c1)) = false.
Proof.
  intros I Ee [[Ec ->]|(m & Ec & _ & _ & _ & R)]; [done|].
  destruct R as (Es & _ & S & _). rewrite Es. split; [|done].
  eapply slot_inv_same; [done|done| |].
  - rewrite Es. unfold cookies. simpl. rewrite Ec, fmap_app, <- app_assoc. done.
  - rewrite Es. simpl. by rewrite Ee.
Qed.

Lemma get_turn_inv pu ta killed p waker watching c r c' :
  slot_inv pu ta (slot c) → get_turn killed p waker watching c = (r, c') → slot_inv pu ta (slot c').
Proof.
  intros I E. destruct (get_turn_spec _ _ _ _ _ _ _ (si_signals _ _ _ I) E)
    as [(b & _ & ->)|(_ & Ee & c1 & Hc & En)]; [done|].
  destruct (cleared_inv _ _ _ _ _ I Ee Hc) as (I1 & Ec1 & _ & Ee1). clear I E Hc c Ee.
  pose proof (next_turn_spec _ _ _ _ _ _ (si_signals _ _ _ I1) En) as N.
  destruct (ready (state (slot c1))) as [|e rest] eqn:Er.
  - destruct N as (_ & _ & N). destruct (closed _); [by destruct N as [_ ->]|].
    destruct watching; [by destruct N as [_ ->]|]. destruct N as [_ ->].
    eapply slot_inv_same; [done| |done|].
    + by destruct (si_signals _ _ _ I1).
    + simpl. by rewrite Ee1.
  - pose proof (map_next_spec _ _ _ _ _ _ (si_signals _ _ _ I1) N) as M.
    destruct (pages (len e)) as [n|er]; [|by destruct M as [_ ->]]. destruct M as [_ M].
    destruct (map_plane _ _ _ _ _).1 as [a|er]; [|by destruct M as (_ & -> & _)].
    destruct M as (_ & Es & _ & S & _). eapply slot_inv_same; [done|done| |].
    + rewrite Es. unfold cookies. simpl. by rewrite Ec1, Er.
    + rewrite Es. simpl. by rewrite Ee1.
Qed.

Lemma put_inv pu ta p at_ n c r c' :
  slot_inv pu ta (slot c) → put p at_ n c = (r, c') → slot_inv pu ta (slot c').
Proof.
  intros I E. pose proof (put_spec _ _ _ _ _ _ (si_signals _ _ _ I) E) as P. simpl in P.
  destruct r as [[]|er]; [|by subst]. destruct P as (m & Ec & _ & _ & _ & _ & _ & _ & _ & Es & _ & S & _).
  eapply slot_inv_same; [done|done| |].
  - rewrite Es. unfold cookies. simpl. rewrite Ec, fmap_app, <- app_assoc. done.
  - rewrite Es. simpl. intros Ee. destruct (si_ended _ _ _ I Ee). congruence.
Qed.

Lemma detach_inv pu ta upgraded c r c' :
  slot_inv pu ta (slot c) → detach upgraded c = (r, c') → slot_inv pu ta (slot c').
Proof.
  intros I E. destruct (detach_spec _ _ _ _ (si_signals _ _ _ I) E) as [_ P].
  destruct (ended (state (slot c))); [by subst|]. destruct P as (_ & Es & _ & S & _).
  eapply slot_inv_same; [done|done| |by rewrite Es].
  rewrite Es. unfold cookies, given. simpl. rewrite !fmap_app, app_nil_r. f_equal. f_equal.
  - destruct (current (state (slot c))); [|done]. simpl. by rewrite back_cookie.
  - rewrite <- list_fmap_compose. apply list_fmap_ext. intros i e _. apply back_cookie.
Qed.

Lemma slot_run_inv pu ta sl : slot_run pu ta sl → slot_inv pu ta sl.
Proof.
  induction 1 as [flags account room w sl w' E|pu ta c m r off n ck c' _ IH E
    |pu ta c insert ev rest c' _ IH Ev E|pu ta c m r off n ck insert e c' _ IH E
    |pu ta c r c' _ IH E|pu ta c t i r c' _ IH E|pu ta c killed p waker watching r c' _ IH E
    |pu ta c waker watching r c' _ IH E|pu ta c p at_ n r c' _ IH E|pu ta c upgraded r c' _ IH E].
  - revert E. unfold slot_new. destruct (negb _); [done|].
    destruct (charge_new _ _ w) as [[i|e] w1]; [|done]. destruct (negb room); [done|].
    intros [= <- _]. split; [split; by vm_compute|done|done|done].
  - destruct (push_spec _ _ _ _ _ _ _ _ (si_signals _ _ _ IH) E)
      as ((Es & _ & S & _) & _ & _ & Ee & D & _).
    split; [done| | |].
    + rewrite Es. rewrite (si_fifo _ _ _ IH) at 1. unfold cookies. simpl.
      by rewrite fmap_app, <- !app_assoc.
    + rewrite Es. unfold in_flight in *. simpl. rewrite zlen_app. change (zlen [_]) with 1. lia.
    + rewrite Es. simpl. by rewrite Ee.
  - destruct (take_spec _ _ _ _ (si_signals _ _ _ IH) E) as (ev' & rest' & Ev' & _ & (Es & _ & S & _) & _).
    rewrite Ev in Ev'. injection Ev' as <- <-. split; [done| | |].
    + rewrite Es. rewrite (si_fifo _ _ _ IH) at 1. unfold cookies. simpl. rewrite Ev.
      by rewrite <- app_assoc.
    + rewrite Es. pose proof (si_depth _ _ _ IH). unfold in_flight in *. simpl. rewrite Ev, zlen_cons in *. lia.
    + rewrite Es. apply (si_ended _ _ _ IH).
  - destruct E as [E|E].
    + by rewrite (push_spec _ _ _ _ _ _ _ _ (si_signals _ _ _ IH) E).
    + by destruct (take_spec _ _ _ _ (si_signals _ _ _ IH) E) as [-> _].
  - destruct (close_spec _ _ _ (si_signals _ _ _ IH) E) as (_ & (Es & _ & S & _) & _).
    eapply slot_inv_same; [done|done|by rewrite Es|]. rewrite Es. apply (si_ended _ _ _ IH).
  - pose proof (attach_spec _ _ _ _ _ E) as A. destruct r as [[]|e]; [|by destruct A as [_ ->]].
    destruct A as (_ & _ & _ & ->). eapply slot_inv_same; [done| |done|apply (si_ended _ _ _ IH)].
    by destruct (si_signals _ _ _ IH).
  - by eapply get_turn_inv.
  - revert E. unfold get_end. destruct watching; intros [= <- <-]; [|done].
    eapply slot_inv_same; [done| |done|apply (si_ended _ _ _ IH)]. by destruct (si_signals _ _ _ IH).
  - by eapply put_inv.
  - by eapply detach_inv.
Qed.

(** C16: a slot gives back to the engine every object pushed into it, once each and in the
    order pushed: at any moment the cookies pushed are those of the events taken, then those
    of the events waiting, then that of the object the task has mapped, then those of the
    objects queued.  It never holds more than its queues have room for, so a push or an event
    never allocates; and the engine sees [READABLE] exactly while an event waits, [WRITABLE]
    exactly while a push would be taken, and both sides the bit that says a [get] would not
    wait. *)
Theorem slot_fifo pu ta sl :
  slot_run pu ta sl →
  let st := state sl in
  pu = ta ++ (event_cookie <$> events st) ++
       match current st with Some m => [cookie (entry m)] | None => [] end ++
       (cookie <$> ready st) ∧
  in_flight st ≤ limits.SLOT_DEPTH ∧
  Signals.contains (bits (engine sl)) Signals.READABLE = negb (bool_decide (events st = [])) ∧
  Signals.contains (bits (engine sl)) Signals.WRITABLE =
    negb (closed st) && negb (ended st) && (in_flight st <? limits.SLOT_DEPTH) ∧
  Signals.contains (bits (engine sl)) Signals.SIGNALED = task_ready st ∧
  Signals.contains (bits (task_signal sl)) Signals.READABLE = task_ready st.
Proof.
  intros [[Se St] F D _]%slot_run_inv st. split; [exact F|]. split; [done|].
  rewrite Se, St. fold st. unfold engine_bits, task_bits.
  destruct (negb (bool_decide (events st = []))), (negb (closed st) && negb (ended st) && _),
    (ended st), (task_ready st); by split_and!.
Qed.

End slot.
