(* ===== verification/SlotPlane.v ===== *)
(** * A process's plane

    [Plane] of [src/kernel/core/src/plane.rs]: the slots a task was given, by the numbers it
    was given them under.  The slots are shared, so a plane is their names in a store; a
    slot's lock makes each [attach] one step, and between the checks and the attaching
    another process may have been given a slot. *)

From S2P Require Import Prelude Abi Quota Account BTree Vm Signal Slots.
Section plane.
Context {O : Ostd}.

Abbreviation Store := (gmap nat Slot).

Implicit Types (sl : Slot) (st : Store).

Definition is_attached sl : bool := attached (state sl).

(** Whether a slot is given twice. *)
Fixpoint repeated (seen ks : list nat) : bool :=
  match ks with
  | [] => false
  | k :: ks => existsb (Nat.eqb k) seen || repeated (seen ++ [k]) ks
  end.

(** The checks [bind] makes before it attaches anything. *)
Definition bind_checks (ks : list nat) st : option (result Error unit) :=
  sls ← mapM (λ k, st !! k) ks;
  Some (if existsb is_attached sls then Err BadState
        else if repeated [] ks then Err InvalidArgs else Ok tt).

(** What [bind] undoes: the slot is free again, its number as it was left. *)
Definition unbind sl : Slot := set_state (set_task false None (index (state sl)) (state sl)) sl.

(** The slots of [ks] attached to [t] from number [i] on, those of [bound] unbound when one of
    them is not free. *)
Fixpoint attach_all (t : nat) (m : Machine) (bound : list nat) (i : Z) (ks : list nat) st :
    option (result Error unit * Store) :=
  match ks with
  | [] => Some (Ok tt, st)
  | k :: ks =>
      sl ← st !! k;
      match attach t i (mk_Ctx sl m []) with
      | (Ok _, c) => attach_all t m (bound ++ [k]) (i + 1) ks (<[k := slot c]> st)
      | (Err e, _) => Some (Err e, foldr (λ k, alter unbind k) st bound)
      end
  end.

Record Plane := mk_Plane { p_slots : list nat; p_port : bool }.

(** [Plane::bind], another's steps between its two parts left out when [mid] is [st]. *)
Definition bind (t : nat) (m : Machine) (ks : list nat) (port : bool) (mid : Store → Store) st :
    option (result Error Plane * Store) :=
  r ← bind_checks ks st;
  match r with
  | Err e => Some (Err e, st)
  | Ok _ =>
      '(r, st') ← attach_all t m [] 0 ks (mid st);
      Some (match r with Ok _ => Ok (mk_Plane ks port) | Err e => Err e end, st')
  end.

(** [Plane::slot]. *)
Definition plane_slot (i : Z) (p : Plane) : result Error nat :=
  match p_slots p !! Z.to_nat i with Some k => Ok k | None => Err BadHandle end.

(** ** Lemmas *)

Lemma attach_result t i sl m :
  attach t i (mk_Ctx sl m []) =
  if is_attached sl then (Err BadState, mk_Ctx sl m [])
  else (Ok tt, mk_Ctx (set_state (set_task true (Some t) i (state sl)) sl) m []).
Proof. unfold attach, is_attached, get_state, mbind, M_bind, gets. simpl. by destruct (attached _). Qed.

Lemma repeated_NoDup seen ks :
  NoDup seen → repeated seen ks = false → NoDup (seen ++ ks).
Proof.
  revert seen. induction ks as [|k ks IH]; intros seen Hs; simpl.
  - by rewrite app_nil_r.
  - intros [Hk Hr]%orb_false_iff. replace (seen ++ k :: ks) with ((seen ++ [k]) ++ ks) by by rewrite <- app_assoc.
    apply IH; [|done]. apply NoDup_app. split; [done|]. split; [|apply NoDup_singleton].
    intros x Hx ->%list_elem_of_singleton. apply not_true_iff_false in Hk. apply Hk.
    apply existsb_exists. exists k. split; [by apply list_elem_of_In|apply Nat.eqb_refl].
Qed.

Lemma unbind_all_lookup (bound : list nat) st k :
  NoDup bound →
  foldr (λ k, alter unbind k) st bound !! k =
  if bool_decide (k ∈ bound) then unbind <$> st !! k else st !! k.
Proof.
  induction 1 as [|k' bound Hk' Hd IH]; simpl; [done|].
  destruct (decide (k = k')) as [->|Hne].
  - rewrite lookup_alter_eq, IH. rewrite bool_decide_eq_false_2 by done.
    by rewrite bool_decide_eq_true_2 by set_solver.
  - rewrite lookup_alter_ne by done. rewrite IH.
    by rewrite (bool_decide_ext (k ∈ k' :: bound) (k ∈ bound)) by set_solver.
Qed.

(** What the slots of a plane become: attached to [t] under their numbers. *)
Definition given t (i : Z) sl : Slot := set_state (set_task true (Some t) i (state sl)) sl.

Lemma attach_all_ok t m bound i ks st st' :
  NoDup ks → attach_all t m bound i ks st = Some (Ok tt, st') →
  (∀ (n : nat) k, ks !! n = Some k →
     ∃ sl, st !! k = Some sl ∧ is_attached sl = false ∧ st' !! k = Some (given t (i + Z.of_nat n) sl)) ∧
  ∀ k, k ∉ ks → st' !! k = st !! k.
Proof.
  intros N. revert bound i st. induction N as [|k ks Hk N IH]; intros bound i st; simpl; [by intros [= ->]|].
  destruct (st !! k) as [sl|] eqn:Hsl; [|done]. simpl. rewrite attach_result.
  destruct (is_attached sl) eqn:Ha; [done|]. simpl. intros [H1 H2]%IH. split.
  - intros [|n] k' Hn; simpl in Hn.
    + injection Hn as <-. exists sl. split_and!; [done|done|].
      rewrite H2 by done. rewrite lookup_insert_eq. by rewrite Z.add_0_r.
    + destruct (H1 n k' Hn) as (sl' & Hl & Ha' & Hg). exists sl'.
      rewrite lookup_insert_ne in Hl by (intros <-; apply Hk; by eapply list_elem_of_lookup_2).
      split_and!; [done|done|]. rewrite Hg. do 2 f_equal. lia.
  - intros k' Hk'. rewrite H2 by set_solver. apply lookup_insert_ne. set_solver.
Qed.

(** The loop that fails leaves free what was free, and the slots that were not as they were. *)
Lemma attach_all_err t m bound i ks st e st' :
  NoDup (bound ++ ks) → (∀ k, k ∈ bound → attached ∘ state <$> st !! k = Some true) →
  attach_all t m bound i ks st = Some (Err e, st') →
  e = BadState ∧ (∃ k sl, k ∈ ks ∧ st !! k = Some sl ∧ is_attached sl = true) ∧
  ∀ k, if bool_decide (k ∈ bound) then attached ∘ state <$> st' !! k = Some false
       else attached ∘ state <$> st' !! k = attached ∘ state <$> st !! k ∧
         (attached ∘ state <$> st !! k = Some true → st' !! k = st !! k).
Proof.
  revert bound i st. induction ks as [|k ks IH]; intros bound i st N Hd; simpl; [done|].
  destruct (st !! k) as [sl|] eqn:Hsl; [|done]. simpl. rewrite attach_result.
  destruct (is_attached sl) eqn:Ha.
  - intros [= <- <-]. split; [done|]. split; [exists k, sl; split_and!; [set_solver|done|done]|]. intros k'.
    apply NoDup_app in N as (N & _). rewrite unbind_all_lookup by done.
    case_bool_decide as Hin; [|done]. specialize (Hd k' Hin).
    destruct (st !! k'); done.
  - assert (k ∉ bound) as Hk by (apply NoDup_app in N as (_ & N & _); set_solver).
    intros E. apply IH in E as (-> & (k1 & sl1 & Hk1 & Hl1 & Ha1) & H).
    + split; [done|]. split.
      { exists k1, sl1. assert (k1 ≠ k) as Hne.
        { intros ->. apply NoDup_app in N as (_ & _ & N). by apply NoDup_cons in N as [N _]. }
        rewrite lookup_insert_ne in Hl1 by done. split_and!; [set_solver|done|done]. }
      intros k'. specialize (H k').
      destruct (decide (k' = k)) as [->|Hne].
      * rewrite bool_decide_eq_true_2 in H by set_solver. rewrite bool_decide_eq_false_2 by done.
        rewrite H, Hsl. unfold is_attached in Ha. simpl. by rewrite Ha.
      * rewrite lookup_insert_ne in H by done.
        by rewrite (bool_decide_ext (k' ∈ bound ++ [k]) (k' ∈ bound)) in H by set_solver.
    + by rewrite <- app_assoc.
    + intros k' Hin. apply elem_of_app in Hin as [Hk'|Hk'%list_elem_of_singleton]; [|subst k'].
      * rewrite lookup_insert_ne by set_solver. by apply Hd.
      * by rewrite lookup_insert_eq.
Qed.

(** C17: a task is given all of its slots or none of them.  When [bind] succeeds every slot was
    free and is now the task's, under the number it has in the plane and reached by it, and no
    other slot has changed.  When it refuses, whatever another process did between its checks
    and its attaching, every slot is free or taken as it was, and those taken are untouched. *)
Theorem bind_all_or_none t m ks port mid st r st' :
  bind t m ks port mid st = Some (r, st') →
  match r with
  | Ok p =>
      (∀ (n : nat) k, ks !! n = Some k →
         plane_slot (Z.of_nat n) p = Ok k ∧
         ∃ sl, mid st !! k = Some sl ∧ is_attached sl = false ∧ st' !! k = Some (given t (Z.of_nat n) sl)) ∧
      ∀ k, k ∉ ks → st' !! k = mid st !! k
  | Err e =>
      st' = st ∨
      e = BadState ∧ ∀ k, attached ∘ state <$> st' !! k = attached ∘ state <$> mid st !! k ∧
        (attached ∘ state <$> mid st !! k = Some true → st' !! k = mid st !! k)
  end.
Proof.
  unfold bind, bind_checks. destruct (mapM _ ks) as [sls|] eqn:Em; [|done]. simpl.
  destruct (existsb is_attached sls); [intros [= <- <-]; by left|].
  destruct (repeated [] ks) eqn:Er; [intros [= <- <-]; by left|].
  apply (repeated_NoDup [] ks NoDup_nil_2) in Er. simpl in Er.
  destruct (attach_all t m [] 0 ks (mid st)) as [[[[]|e] st1]|] eqn:Ea; simpl; intros [= <- <-].
  - destruct (attach_all_ok _ _ _ _ _ _ _ Er Ea) as [H1 H2]. split; [|done].
    intros n k Hn. split; [|by apply H1]. unfold plane_slot. simpl. by rewrite Nat2Z.id, Hn.
  - right.
    assert (∀ k, k ∈ [] → attached ∘ state <$> mid st !! k = Some true) as H0
      by by intros k ?%not_elem_of_nil.
    destruct (attach_all_err _ _ [] _ _ _ _ _ Er H0 Ea) as (-> & _ & H).
    split; [done|]. intros k. apply (H k).
Qed.

End plane.
