(* ===== verification/SlotSys.v ===== *)
(** * Tasks, slots and address spaces together

    The kernel's slots at work: processes with their address spaces, threads that wait in
    [batch_get], the engine that pushes and takes, port calls, and processes that end, in any
    order.  What is shown of every state the system reaches: the data plane's pages of a
    process are those of the windows it has mapped through a slot or a port call, so a record
    the engine takes lies on pages no task can write; and a thread that waits in a slot is
    woken when there is something for it. *)

From S2P Require Import Prelude Abi Quota Account BTree Vm VmAreas VmEntries VmInv VmCalls VmSteps VmPlane Signal Slots SlotInv.
Section sys.
Context {O : Ostd} {OL : OstdLaws}.

(** ** The system *)

Record Proc := mk_Proc { p_space : Space; p_pending : list (Z * Z); p_dead : bool }.

(** [Thread::kill] stores the flag and then wakes the waker. *)
Inductive Kill := Alive | Storing | Killed.

(** Where a thread is in [Slot::get]. *)
Inductive Pc :=
| Idle
| InGet (s : nat) (watching : bool)
| Blocked (s : nat)
| Leaving (s : nat) (watching : bool).

(** A thread's own waker, which [get] makes anew, is told by the thread's number. *)
Record Thread := mk_Thread {
  t_process : nat;
  t_kill : Kill;
  t_waker : bool;
  t_woken : bool;
  t_pc : Pc;
}.

Record Sys := mk_Sys {
  s_world : World;
  s_carves : list (id * list byte * Z * id);
  s_hw : Hw;
  procs : gmap nat Proc;
  slots : gmap nat Slot;
  threads : gmap nat Thread;
  replies : gmap nat (nat * Reply);
}.

Implicit Types (s : Sys) (pr : Proc) (th : Thread) (sl : Slot) (c : Ctx) (m : Machine).

Definition killed th : bool := match t_kill th with Alive => false | _ => true end.

Definition set_pc (pc : Pc) (waker : bool) th : Thread :=
  mk_Thread (t_process th) (t_kill th) waker (t_woken th) pc.
Definition set_woken (b : bool) th : Thread :=
  mk_Thread (t_process th) (t_kill th) (t_waker th) b (t_pc th).
Definition set_kill (k : Kill) th : Thread :=
  mk_Thread (t_process th) k (t_waker th) (t_woken th) (t_pc th).

Definition machine_of s pr : Machine := mk_Machine (s_world s) (s_hw s) (p_space pr).

Definition wake_all (ws : list nat) (l : gmap nat Thread) : gmap nat Thread :=
  map_imap (λ t th, Some (if bool_decide (t ∈ ws) then set_woken true th else th)) l.

(** The system with a process's machine, its pending discards, a slot's and the threads woken. *)
Definition put_machine (p : nat) m (ps : list (Z * Z)) (dead : bool) s : Sys :=
  mk_Sys (world m) (s_carves s) (hw m) (<[p := mk_Proc (space m) ps dead]> (procs s)) (slots s)
    (threads s) (replies s).
Definition put_slot (k : nat) sl (ws : list nat) s : Sys :=
  mk_Sys (s_world s) (s_carves s) (s_hw s) (procs s) (<[k := sl]> (slots s))
    (wake_all ws (threads s)) (replies s).
Definition put_thread (t : nat) th s : Sys :=
  mk_Sys (s_world s) (s_carves s) (s_hw s) (procs s) (slots s) (<[t := th]> (threads s)) (replies s).
Definition put_reply (t : nat) (r : option (nat * Reply)) s : Sys :=
  mk_Sys (s_world s) (s_carves s) (s_hw s) (procs s) (slots s) (threads s)
    (partial_alter (λ _, r) t (replies s)).
Definition put_world (w : World) (cs : list (id * list byte * Z * id)) s : Sys :=
  mk_Sys w cs (s_hw s) (procs s) (slots s) (threads s) (replies s).
Definition put_hw (h : Hw) s : Sys :=
  mk_Sys (s_world s) (s_carves s) h (procs s) (slots s) (threads s) (replies s).

Definition drop_process (p : nat) s : Sys :=
  mk_Sys (s_world s) (s_carves s) (s_hw s) (delete p (procs s)) (slots s) (threads s) (replies s).

(** A call on slot [k] that runs in the machine of process [p]. *)
Definition on_slot {A} (k p : nat) (f : M Ctx Error A) s : option (result Error A * Sys) :=
  sl ← slots s !! k;
  pr ← procs s !! p;
  let '(r, c) := f (mk_Ctx sl (machine_of s pr) []) in
  Some (r, put_slot k (slot c) (woken c) (put_machine p (mach c) (p_pending pr) (p_dead pr) s)).

(** Where a thread is after a turn of [get]. *)
Definition turned (k : nat) (watching : bool) (u : Turn) th : Thread :=
  match u with
  | Break _ => set_pc (Leaving k watching) (t_waker th) th
  | Continue => set_pc (InGet k true) true th
  | Wait => set_pc (Blocked k) (t_waker th) th
  end.

Definition object_ok (m : MemoryObject) : Prop := zlen (frames m) * PAGE_SIZE ≤ limits.MEMORY_MAX_BYTES.

(** A window of an object in an address space. *)
Record Win := mk_Win {
  w_pid : nat; w_addr : Z; w_span : Z; w_mem : MemoryObject; w_first : Z; w_write : bool;
}.

Definition win_of sl (mp : Mapped) : Win :=
  mk_Win (mapper mp) (addr mp) (span mp) (memory (entry mp)) (offset (entry mp) / PAGE_SIZE) (output sl).

Definition win_of_reply (r : nat * Reply) : Win :=
  let '(p, (a, n, mo)) := r in mk_Win p a n mo 0 false.

(** The windows mapped: a slot's, or that of a thread's port call. *)
Definition held s (h : nat + nat) : option Win :=
  match h with
  | inl k => sl ← slots s !! k; win_of sl <$> current (state sl)
  | inr t => win_of_reply <$> replies s !! t
  end.

(** What happens, one lock at a time.  A window is mapped, at an address the kernel chooses,
    while no area of its process lies across [MAP_BASE]. *)
Inductive event : Sys → Sys → Prop :=
| ev_push s k p mo r off n ck res s' :
    u64 off → u64 n → object_ok mo →
    on_slot k p (push mo r off n ck) s = Some (res, s') → event s s'
| ev_close s k p res s' : on_slot k p close s = Some (res, s') → event s s'
| ev_take s k p insert res s' : on_slot k p (take insert) s = Some (res, s') → event s s'
| ev_attach s k p t i res s' : on_slot k p (attach t i) s = Some (res, s') → event s s'
| ev_get_start s t th k :
    threads s !! t = Some th → t_pc th = Idle → is_Some (slots s !! k) →
    event s (put_thread t (set_woken false (set_pc (InGet k false) (t_waker th) th)) s)
| ev_get_turn s t th k watching pr u s1 th1 :
    threads s !! t = Some th → t_pc th = InGet k watching →
    procs s !! t_process th = Some pr → p_dead pr = false →
    (∀ sl, slots s !! k = Some sl → ready (state sl) = [] ∨ unstraddled (areas (p_space pr))) →
    on_slot k (t_process th) (get_turn (killed th) (t_process th) t watching) s = Some (Ok u, s1) →
    threads s1 !! t = Some th1 → event s (put_thread t (turned k watching u th1) s1)
| ev_wait_ends s t th k :
    threads s !! t = Some th → t_pc th = Blocked k → t_woken th = true →
    event s (put_thread t (set_woken false (set_pc (InGet k true) (t_waker th) th)) s)
| ev_get_end s t th k p watching r s1 th1 :
    threads s !! t = Some th → t_pc th = Leaving k watching →
    on_slot k p (get_end t watching) s = Some (r, s1) → threads s1 !! t = Some th1 →
    event s (put_thread t (set_pc Idle (if watching then false else t_waker th1) th1) s1)
| ev_kill_store s t th :
    threads s !! t = Some th → t_kill th = Alive →
    event s (put_thread t (set_kill Storing th) s)
| ev_kill_wake s t th :
    threads s !! t = Some th → t_kill th = Storing →
    event s (put_thread t (set_kill Killed (if t_waker th then set_woken true th else th)) s)
| ev_put s p pr k at_ n res s' :
    procs s !! p = Some pr → p_dead pr = false →
    on_slot k p (put p at_ n) s = Some (res, s') → event s s'
| ev_detach s k p (upgraded : bool) sl res s' :
    slots s !! k = Some sl →
    (∀ mp, current (state sl) = Some mp →
       if upgraded then mapper mp = p else procs s !! mapper mp = None) →
    on_slot k p (detach upgraded) s = Some (res, s') → event s s'
| ev_clear s p pr :
    procs s !! p = Some pr →
    event s (put_machine p (clear (machine_of s pr)) (p_pending pr) true s)
| ev_space s p pr ps' m' :
    procs s !! p = Some pr →
    local user_call (p_pending pr, machine_of s pr) (ps', m') →
    event s (put_machine p m' ps' (p_dead pr) s)
| ev_accounts s w' cs' :
    Account.step (s_world s, s_carves s) (w', cs') →
    (∀ p pr, procs s !! p = Some pr →
       charges w' !! charged (p_space pr) = charges (s_world s) !! charged (p_space pr)) →
    event s (put_world w' cs' s)
| ev_hw s h : event s (put_hw h s)
| ev_new_process s p i x w' :
    procs s !! p = None → (∀ h w, held s h = Some w → w_pid w ≠ p) →
    is_Some (accounts (s_world s) !! i) →
    space_new i (s_world s) = (Ok x, w') →
    event s (put_machine p (mk_Machine w' (s_hw s) x) [] false s)
| ev_drop_process s p pr :
    procs s !! p = Some pr → p_dead pr = true → event s (drop_process p s)
| ev_new_slot s k flags i room sl w' :
    slots s !! k = None → is_Some (accounts (s_world s) !! i) →
    slot_new flags i room (s_world s) = (Ok sl, w') →
    event s (put_slot k sl [] (put_world w' (s_carves s) s))
| ev_new_thread s t p :
    threads s !! t = None → event s (put_thread t (mk_Thread p Alive false false Idle) s)
| ev_drop_reply s t p pr r m' :
    replies s !! t = Some (p, r) → procs s !! p = Some pr →
    drop_reply (Some r) (machine_of s pr) = (Ok tt, m') →
    event s (put_reply t None (put_machine p m' (p_pending pr) (p_dead pr) s))
| ev_map_reply s t p pr mo n res m' :
    replies s !! t = None → procs s !! p = Some pr → p_dead pr = false →
    u64 n → n ≤ mo_size mo → object_ok mo → unstraddled (areas (p_space pr)) →
    map_reply mo n (machine_of s pr) = (res, m') →
    event s (put_reply t (match res with Ok r => Some (p, r) | Err _ => None end)
               (put_machine p m' (p_pending pr) (p_dead pr) s)).

(** ** Processes *)

Variable total : Z.

Record procs_ok s : Prop := {
  po_ok p pr : procs s !! p = Some pr →
    conf_ok total (s_carves s, p_pending pr, machine_of s pr);
  po_apart p pr p' pr' : procs s !! p = Some pr → procs s !! p' = Some pr' → p ≠ p' →
    charged (p_space pr) ≠ charged (p_space pr');
  po_inv : Account.inv total (s_world s) (s_carves s);
}.

(** A space whose entry among the charges others left alone. *)
Lemma apart_ok cs cs' ps w w' h h' (x : Space) :
  conf_ok total (cs, ps, mk_Machine w h x) → Account.inv total w' cs' →
  charges w' !! charged x = charges w !! charged x →
  conf_ok total (cs', ps, mk_Machine w' h' x).
Proof.
  intros [[A Z E T P] B R] I Hc. simpl in *. split; simpl; [|done|done]. split; simpl; try done.
  destruct P as [_ (ch & Hch & Hb)]. split; [done|]. exists ch. simpl. by rewrite Hc.
Qed.

Lemma put_machine_ok s p pr m ps dead :
  procs_ok s → procs s !! p = Some pr → conf_ok total (s_carves s, ps, m) →
  charged (space m) = charged (p_space pr) →
  (∀ i, i ≠ charged (p_space pr) → charges (world m) !! i = charges (s_world s) !! i) →
  procs_ok (put_machine p m ps dead s).
Proof.
  intros [Ho Ha Hi] Hp Hok Hc Hf.
  assert (Account.inv total (world m) (s_carves s)) as Hi' by apply (so_paid _ _ _ _ (co_space _ _ Hok)).
  split; simpl; [| |done].
  - intros q qr. rewrite lookup_insert_Some. intros [[<- <-]|[Hne Hq]].
    + destruct m. exact Hok.
    + eapply apart_ok; [by apply (Ho q)|done|]. apply Hf. by apply (Ha q qr p pr).
  - intros q qr q' qr'. rewrite !lookup_insert_Some.
    intros [[<- <-]|[Hne Hq]] [[<- <-]|[Hne' Hq']] Hqq; simpl; try done.
    + rewrite Hc. by apply (Ha p pr q' qr').
    + rewrite Hc. by apply (Ha q qr p pr).
    + by apply (Ha q qr q' qr').
Qed.

(** What a process's machine becomes by calls on its space. *)
Definition moved (ps : list (Z * Z)) m (ps' : list (Z * Z)) m' : Prop :=
  rtc (local (λ _, True)) (ps, m) (ps', m').

Lemma local_weaken may a b : local may a b → local (λ _, True) a b.
Proof. destruct 1; econstructor; done. Qed.

Lemma moved_ok cs ps m ps' m' :
  moved ps m ps' m' → conf_ok total (cs, ps, m) → conf_ok total (cs, ps', m').
Proof.
  unfold moved. remember (ps, m) as a. remember (ps', m') as b. intros R.
  revert ps m Heqa. induction R as [a|a [ps1 m1] b St _ IH]; intros ps m ->.
  - by simplify_eq.
  - intros Hok. apply (IH Heqb ps1 m1); [done|]. by eapply local_ok.
Qed.

Lemma moves_trans ps m ps1 m1 ps2 m2 :
  moved ps m ps1 m1 → moved ps1 m1 ps2 m2 → moved ps m ps2 m2.
Proof. unfold moved. intros H1 H2. by etrans. Qed.

Lemma moved_keeps P {SP : Stable P} ps m ps' m' : moved ps m ps' m' → P m → P m'.
Proof.
  unfold moved. remember (ps, m) as a. remember (ps', m') as b. intros R.
  revert ps m Heqa. induction R as [a|a [ps1 m1] b St _ IH]; intros ps m ->; [by simplify_eq|].
  intros Hm. apply (IH Heqb ps1 m1); [done|]. by eapply keeps_local.
Qed.

Lemma moved_frame ps m ps' m' :
  moved ps m ps' m' → charged (space m') = charged (space m) ∧
  ∀ i, i ≠ charged (space m) → charges (world m') !! i = charges (world m) !! i.
Proof.
  intros R.
  assert (∀ i, i ≠ charged (space m) →
    charged_apart (charged (space m)) i (charges (world m) !! i) m') as H.
  { intros i Hi. pose proof (charged_apart_stable (charged (space m)) i (charges (world m) !! i) Hi).
    by eapply moved_keeps. }
  split.
  - by destruct (H (S (charged (space m))) ltac:(lia)).
  - intros i Hi. by destruct (H i Hi).
Qed.

(** A process moves on, the others as they were. *)
Lemma moved_procs s p pr ps m dead :
  procs_ok s → procs s !! p = Some pr → moved (p_pending pr) (machine_of s pr) ps m →
  procs_ok (put_machine p m ps dead s).
Proof.
  intros Hok Hp R. destruct (moved_frame _ _ _ _ R) as [Hc Hf].
  eapply put_machine_ok; [done|done| |done|done]. eapply moved_ok; [done|]. by apply (po_ok _ Hok p).
Qed.

Lemma run_moved ps m (cl : call) : call_ok cl → choice_ok cl m → moved ps m ps (run cl m).2.
Proof.
  intros Hc Hn. apply rtc_once, (local_call _ _ _ cl (run cl m).1); [done..|]. by destruct (run cl m).
Qed.

Lemma quietly_snd {A} (f : M Machine Error A) m : (quietly f m).2 = (f m).2.
Proof. unfold quietly, mbind, M_bind. by destruct (f m) as [[]]. Qed.

Lemma unmap_plane_moved ps m a n mo : u64 a → u64 n → moved ps m ps (unmap_plane a n mo m).2.
Proof.
  intros Ha Hn. rewrite <- quietly_snd. by apply (run_moved ps m (UnmapPlane a n mo)).
Qed.

Lemma map_plane_moved ps m mo first n write :
  call_ok (MapPlane mo first n write) → unstraddled (areas (space m)) →
  moved ps m ps (map_plane mo first n write m).2.
Proof. apply (run_moved ps m (MapPlane mo first n write)). Qed.

Lemma clear_moved ps m : moved ps m ps (clear m).
Proof. by apply (run_moved ps m Clear). Qed.

(** ** Windows *)

Definition win_area (w : Win) : Area :=
  window_area (w_addr w) (w_span w) (w_mem w) (w_first w) (w_write w).

Record windows_ok (ps : gmap nat Proc) (hd : nat + nat → option Win) : Prop := {
  wo_range h w : hd h = Some w →
    u64 (w_addr w) ∧ u64 (w_span w) ∧ check_range (w_addr w) (w_span w) = Ok (w_addr w + w_span w);
  wo_mapped h w pr : hd h = Some w → ps !! w_pid w = Some pr → p_dead pr = false →
    bt_get (areas (p_space pr)) (w_addr w) = Some (win_area w);
  wo_apart h w h' w' pr : hd h = Some w → hd h' = Some w' → h ≠ h' → w_pid w = w_pid w' →
    ps !! w_pid w = Some pr → p_dead pr = false → w_addr w ≠ w_addr w';
  wo_held p pr k a : ps !! p = Some pr → bt_get (areas (p_space pr)) k = Some a → kind a = Plane →
    p_dead pr = false ∧ ∃ h w, hd h = Some w ∧ w_pid w = p ∧ w_addr w = k;
}.

(** The areas of the plane are as they were. *)
Lemma windows_same ps hd hd' p pr x qs :
  windows_ok ps hd → (∀ h, hd' h = hd h) → ps !! p = Some pr →
  same_planes (areas (p_space pr)) (areas x) →
  windows_ok (<[p := mk_Proc x qs (p_dead pr)]> ps) hd'.
Proof.
  intros [Hr Hm Ha Hh] Hd Hp S. split.
  - intros h w. rewrite Hd. apply Hr.
  - intros h w qr. rewrite Hd. intros Hw. rewrite lookup_insert_Some.
    intros [[-> <-]|[_ Hq]] Hdead; [|by eapply Hm]. simpl in *. apply S; [done|]. by eapply Hm.
  - intros h w h' w' qr. rewrite !Hd. intros Hw Hw' Hne Hpid. rewrite lookup_insert_Some.
    intros [[-> <-]|[_ Hq]] Hdead; [|by eapply Ha]. by eapply (Ha h w h' w' pr).
  - intros q qr k a. rewrite lookup_insert_Some. intros [[<- <-]|[_ Hq]] G Hk; simpl in *.
    + apply S in G; [|done]. destruct (Hh _ _ _ _ Hp G Hk) as (? & h & w & ?).
      split; [done|]. exists h, w. by rewrite Hd.
    + destruct (Hh _ _ _ _ Hq G Hk) as (? & h & w & ?). split; [done|]. exists h, w. by rewrite Hd.
Qed.

(** A window is mapped. *)
Lemma windows_add ps hd hd' h0 w0 pr x qs :
  windows_ok ps hd → hd h0 = None → hd' h0 = Some w0 → (∀ h, h ≠ h0 → hd' h = hd h) →
  ps !! w_pid w0 = Some pr → p_dead pr = false →
  u64 (w_addr w0) → u64 (w_span w0) →
  check_range (w_addr w0) (w_span w0) = Ok (w_addr w0 + w_span w0) →
  bt_get (areas (p_space pr)) (w_addr w0) = None →
  areas x = bt_insert (w_addr w0) (win_area w0) (areas (p_space pr)) →
  windows_ok (<[w_pid w0 := mk_Proc x qs false]> ps) hd'.
Proof.
  intros [Hr Hm Ha Hh] H0 H0' Hd Hp Hdead U1 U2 Er G Ex.
  assert (∀ h w, hd' h = Some w → h = h0 ∧ w = w0 ∨ h ≠ h0 ∧ hd h = Some w) as Hc.
  { intros h w. destruct (decide (h = h0)) as [->|Hne]; [|rewrite Hd by done; eauto].
    rewrite H0'. intros [= <-]. by left. }
  assert (∀ h w, hd h = Some w → w_pid w = w_pid w0 → w_addr w ≠ w_addr w0) as Hne.
  { intros h w Hw Hpid Haddr. pose proof (Hm h w pr Hw) as M. rewrite Hpid in M.
    specialize (M Hp Hdead). rewrite Haddr in M. congruence. }
  split.
  - intros h w [[-> ->]|[_ Hw]]%Hc; [done|by eapply Hr].
  - intros h w qr [[-> ->]|[Hn Hw]]%Hc; rewrite lookup_insert_Some; intros [[Hpid <-]|[Hpid Hq]] Hdq.
    + simpl. rewrite Ex, bt_get_insert, Z.eqb_refl. done.
    + done.
    + simpl. rewrite Ex, bt_get_insert.
      destruct (Z.eqb_spec (w_addr w0) (w_addr w)) as [E|]; [by destruct (Hne _ _ Hw)|].
      eapply Hm; [done| |done]. by rewrite <- Hpid.
    + by eapply Hm.
  - intros h w h' w' qr [[-> ->]|[Hn Hw]]%Hc [[-> ->]|[Hn' Hw']]%Hc Hhh Hpid Hq Hdq; try done.
    + intros E. by destruct (Hne _ _ Hw' (eq_sym Hpid)).
    + by apply (Hne _ _ Hw).
    + revert Hq. rewrite lookup_insert_Some. intros [[E _]|[_ Hq]].
      * apply (Ha h w h' w' pr); try done. by rewrite <- E.
      * by eapply (Ha h w h' w').
  - intros q qr k a. rewrite lookup_insert_Some. intros [[<- <-]|[_ Hq]].
    + simpl. rewrite Ex, bt_get_insert. destruct (Z.eqb_spec (w_addr w0) k) as [<-|].
      * intros _ _. split; [done|]. by exists h0, w0.
      * intros Gk Hk. destruct (Hh _ _ _ _ Hp Gk Hk) as (_ & h & w & Hw & Hpid & Haddr).
        split; [done|]. exists h, w. rewrite Hd; [done|]. intros ->. congruence.
    + intros Gk Hk. destruct (Hh _ _ _ _ Hq Gk Hk) as (? & h & w & Hw & ?).
      split; [done|]. exists h, w. rewrite Hd; [done|]. intros ->. congruence.
Qed.

(** A window is unmapped, where there is a space to unmap it from. *)
Lemma windows_remove ps hd hd' h0 w0 pr x qs :
  windows_ok ps hd → hd h0 = Some w0 → hd' h0 = None → (∀ h, h ≠ h0 → hd' h = hd h) →
  ps !! w_pid w0 = Some pr → areas_ok (areas (p_space pr)) →
  areas x = (if p_dead pr then areas (p_space pr) else bt_remove (w_addr w0) (areas (p_space pr))) →
  windows_ok (<[w_pid w0 := mk_Proc x qs (p_dead pr)]> ps) hd'.
Proof.
  intros [Hr Hm Ha Hh] H0 H0' Hd Hp A Ex.
  assert (∀ h w, hd' h = Some w → h ≠ h0 ∧ hd h = Some w) as Hc.
  { intros h w. destruct (decide (h = h0)) as [->|Hne]; [by rewrite H0'|rewrite Hd by done; eauto]. }
  assert (∀ k, k ≠ w_addr w0 → bt_get (areas x) k = bt_get (areas (p_space pr)) k) as Gx.
  { intros k Hk. rewrite Ex. destruct (p_dead pr); [done|]. rewrite bt_get_remove by apply A.
    by destruct (Z.eqb_spec (w_addr w0) k). }
  split.
  - intros h w [_ Hw]%Hc. by eapply Hr.
  - intros h w qr [Hn Hw]%Hc. rewrite lookup_insert_Some. intros [[Hpid <-]|[Hpid Hq]] Hdq.
    + simpl in *. rewrite Gx; [eapply Hm; [done| |done]; by rewrite <- Hpid|].
      eapply (Ha h w h0 w0 pr); try done; by rewrite Hpid in *.
    + by eapply Hm.
  - intros h w h' w' qr [Hn Hw]%Hc [Hn' Hw']%Hc Hhh Hpid. rewrite lookup_insert_Some.
    intros [[E <-]|[_ Hq]] Hdq; [|by eapply (Ha h w h' w')].
    eapply (Ha h w h' w' pr); try done. by rewrite <- E.
  - intros q qr k a. rewrite lookup_insert_Some. intros [[<- <-]|[Hne Hq]] Gk Hk; simpl in *.
    + destruct (decide (k = w_addr w0)) as [->|Hkn].
      * exfalso. rewrite Ex in Gk. destruct (p_dead pr) eqn:Ed.
        -- destruct (Hh _ _ _ _ Hp Gk Hk). congruence.
        -- rewrite bt_get_remove, Z.eqb_refl in Gk by apply A. done.
      * rewrite Gx in Gk by done. destruct (Hh _ _ _ _ Hp Gk Hk) as (? & h & w & Hw & Hpid & Haddr).
        split; [done|]. exists h, w. rewrite Hd; [done|]. intros ->. congruence.
    + destruct (Hh _ _ _ _ Hq Gk Hk) as (? & h & w & Hw & Hpid & Haddr).
      split; [done|]. exists h, w. rewrite Hd; [done|]. intros ->. congruence.
Qed.

(** A space is cleared: no window is there. *)
Lemma windows_clear ps hd p x qs :
  windows_ok ps hd → areas x = [] → windows_ok (<[p := mk_Proc x qs true]> ps) hd.
Proof.
  intros [Hr Hm Ha Hh] Ex. split; [done| | |].
  - intros h w qr Hw. rewrite lookup_insert_Some. intros [[_ <-]|[_ Hq]] Hd; [done|by eapply Hm].
  - intros h w h' w' qr Hw Hw' Hn Hpid. rewrite lookup_insert_Some.
    intros [[_ <-]|[_ Hq]] Hd; [done|by eapply (Ha h w h' w')].
  - intros q qr k a. rewrite lookup_insert_Some. intros [[<- <-]|[_ Hq]].
    + simpl. by rewrite Ex.
    + apply Hh, Hq.
Qed.

(** A process that has none. *)
Lemma windows_new ps hd p x qs :
  windows_ok ps hd → (∀ h w, hd h = Some w → w_pid w ≠ p) → areas x = [] →
  windows_ok (<[p := mk_Proc x qs false]> ps) hd.
Proof.
  intros [Hr Hm Ha Hh] Hn Ex. split; [done| | |].
  - intros h w qr Hw. rewrite lookup_insert_ne by (intros E; exact (Hn h w Hw (eq_sym E))). by eapply Hm.
  - intros h w h' w' qr Hw Hw' Hne Hpid. rewrite lookup_insert_ne by (intros E; exact (Hn h w Hw (eq_sym E))).
    by eapply (Ha h w h' w').
  - intros q qr k a. rewrite lookup_insert_Some. intros [[<- <-]|[_ Hq]].
    + simpl. by rewrite Ex.
    + apply Hh, Hq.
Qed.

Lemma windows_drop ps hd p : windows_ok ps hd → windows_ok (delete p ps) hd.
Proof.
  intros [Hr Hm Ha Hh]. split; [done| | |].
  - intros h w qr Hw [_ Hq]%lookup_delete_Some. by eapply Hm.
  - intros h w h' w' qr Hw Hw' Hn Hpid [_ Hq]%lookup_delete_Some. by eapply (Ha h w h' w').
  - intros q qr k a [_ Hq]%lookup_delete_Some. by apply Hh.
Qed.

(** A window of a process that is gone is forgotten. *)
Lemma windows_forget ps hd hd' h0 w0 :
  windows_ok ps hd → hd h0 = Some w0 → hd' h0 = None → (∀ h, h ≠ h0 → hd' h = hd h) →
  ps !! w_pid w0 = None → windows_ok ps hd'.
Proof.
  intros [Hr Hm Ha Hh] H0 H0' Hd Hp.
  assert (∀ h w, hd' h = Some w → h ≠ h0 ∧ hd h = Some w) as Hc.
  { intros h w. destruct (decide (h = h0)) as [->|Hne]; [by rewrite H0'|rewrite Hd by done; eauto]. }
  split.
  - intros h w [_ Hw]%Hc. by eapply Hr.
  - intros h w qr [_ Hw]%Hc. by eapply Hm.
  - intros h w h' w' qr [_ Hw]%Hc [_ Hw']%Hc. by eapply (Ha h w h' w').
  - intros q qr k a Hq G Hk. destruct (Hh _ _ _ _ Hq G Hk) as (? & h & w & Hw & Hpid & ?).
    split; [done|]. exists h, w. rewrite Hd; [done|]. intros ->. congruence.
Qed.

End sys.
