(* ===== verification/SlotSafe.v ===== *)
(** * What every state of the system keeps

    Each event of [SlotSys] leaves the slots, the windows and the waiting threads in order. *)

From S2P Require Import Prelude Abi Quota Account BTree Vm VmAreas VmEntries VmInv VmCalls VmSteps VmPlane Signal Slots SlotInv SlotSys.
Section safe.
Context {O : Ostd} {OL : OstdLaws}.
Implicit Types (s : Sys) (pr : Proc) (th : Thread) (sl : Slot) (c : Ctx) (m : Machine).
Variable total : Z.

(** ** Slots *)

Definition entry_sound (out : bool) (e : Entry) : Prop :=
  entry_ok out e ∧ u64 (offset e) ∧ u64 (len e) ∧ object_ok (memory e).

Record slot_sound sl : Prop := {
  ss_signals : signals_ok sl;
  ss_ready : Forall (entry_sound (output sl)) (ready (state sl));
  ss_current mp : current (state sl) = Some mp →
    entry_sound (output sl) (entry mp) ∧ pages (len (entry mp)) = Ok (span mp);
}.

(** Whoever watches the task's signals is woken when a [get] would no longer wait. *)
Record wakes c c' : Prop := {
  wk_woken w : w ∈ woken c → w ∈ woken c';
  wk_observers w : w ∈ observers (task_signal (slot c)) → w ∈ observers (task_signal (slot c'));
  wk_ready : task_ready (state (slot c)) = false → task_ready (state (slot c')) = true →
    ∀ w, w ∈ observers (task_signal (slot c)) → w ∈ woken c';
}.

#[local] Instance wakes_preorder : PreOrder wakes.
Proof.
  split.
  - intros c. split; try done. congruence.
  - intros c c1 c2 [W1 O1 R1] [W2 O2 R2]. split; [auto|auto|].
    intros H0 H2 w Hw. destruct (task_ready (state (slot c1))) eqn:H1; [|auto].
    apply W2. by apply R1.
Qed.

Lemma refreshed_wakes st c c' : refreshed st c c' → wakes c c'.
Proof.
  intros (Es & _ & _ & Eo & W & R). split; [done|by rewrite Eo|].
  rewrite Es. intros H0 H1. apply R. unfold task_bits. by rewrite H0, H1.
Qed.

(** What a call does to a slot it keeps sound. *)
Definition kept c c' : Prop :=
  slot_sound (slot c') ∧ output (slot c') = output (slot c) ∧ wakes c c'.

Lemma kept_refl c : slot_sound (slot c) → kept c c.
Proof. by intros. Qed.

Lemma kept_trans c c1 c2 : kept c c1 → kept c1 c2 → kept c c2.
Proof.
  intros (S1 & O1 & W1) (S2 & O2 & W2). split; [done|]. split; [congruence|by transitivity c1].
Qed.

Lemma kept_refreshed st c c' :
  refreshed st c c' → Forall (entry_sound (output (slot c))) (ready st) →
  (∀ mp, current st = Some mp →
     entry_sound (output (slot c)) (entry mp) ∧ pages (len (entry mp)) = Ok (span mp)) →
  kept c c'.
Proof.
  intros R Hr Hc. pose proof (refreshed_wakes _ _ _ R) as W.
  destruct R as (Es & Eo & S & _). split; [|done]. split; [done| |]; by rewrite Eo, Es.
Qed.

Lemma push_kept mo r off n ck c res c' :
  slot_sound (slot c) → u64 off → u64 n → object_ok mo → push mo r off n ck c = (res, c') →
  kept c c' ∧ mach c' = mach c ∧ current (state (slot c')) = current (state (slot c)).
Proof.
  intros S Ho Hn Hm E. pose proof (push_spec _ _ _ _ _ _ _ _ (ss_signals _ S) E) as P. simpl in P.
  destruct res as [[]|e]; [|subst; by split; [apply kept_refl|]].
  destruct P as (R & M & _ & _ & _ & Eok). split; [|split; [done|]].
  - eapply kept_refreshed; [done| |]; simpl.
    + apply Forall_app. split; [apply S|]. by constructor.
    + apply S.
  - destruct R as (-> & _). done.
Qed.

Lemma close_kept c res c' :
  slot_sound (slot c) → close c = (res, c') →
  kept c c' ∧ mach c' = mach c ∧ current (state (slot c')) = current (state (slot c)).
Proof.
  intros S E. destruct (close_spec _ _ _ (ss_signals _ S) E) as (_ & R & M).
  split; [eapply kept_refreshed; [done|apply S|apply S]|]. split; [done|].
  destruct R as (-> & _). done.
Qed.

Lemma take_kept insert c res c' :
  slot_sound (slot c) → take insert c = (res, c') →
  kept c c' ∧ mach c' = mach c ∧ current (state (slot c')) = current (state (slot c)).
Proof.
  intros S E. pose proof (take_spec _ _ _ _ (ss_signals _ S) E) as P. simpl in P.
  destruct res as [[]|e]; [|destruct P as [-> _]; by split; [apply kept_refl|]].
  destruct P as (ev & rest & _ & _ & R & M).
  split; [eapply kept_refreshed; [done|apply S|apply S]|]. split; [done|].
  destruct R as (-> & _). done.
Qed.

Lemma attach_kept t i c res c' :
  slot_sound (slot c) → attach t i c = (res, c') →
  kept c c' ∧ mach c' = mach c ∧ current (state (slot c')) = current (state (slot c)).
Proof.
  intros S E. pose proof (attach_spec _ _ _ _ _ E) as P.
  destruct res as [[]|e]; [|destruct P as [_ ->]; by split; [apply kept_refl|]].
  destruct P as (_ & M & W & Es). rewrite Es. split; [|done]. split; [|split].
  - rewrite Es. destruct S as [[S1 S2] S3 S4]. split; [split|..]; done.
  - by rewrite Es.
  - split; [by rewrite W|by rewrite Es|]. rewrite Es. intros H0 H1. exfalso.
    unfold task_ready in *. simpl in H1. congruence.
Qed.

Lemma observing_kept waker c :
  slot_sound (slot c) → kept c (mk_Ctx (observing waker (slot c)) (mach c) (woken c)).
Proof.
  intros [[S1 S2] S3 S4]. split; [split; [split|..]; done|]. split; [done|]. split; simpl; [done| |].
  - intros w Hw. apply elem_of_app. by left.
  - congruence.
Qed.

Lemma cleared_kept p c c1 : slot_sound (slot c) → cleared p c c1 →
  kept c c1 ∧ current (state (slot c1)) = None ∧ ended (state (slot c1)) = ended (state (slot c)) ∧
  ready (state (slot c1)) = ready (state (slot c)).
Proof.
  intros S [[Ec ->]|(mp & Ec & _ & _ & _ & R)]; [by split; [apply kept_refl|]|].
  split; [eapply kept_refreshed; [done|apply S|done]|]. destruct R as (-> & _). done.
Qed.

(** A turn of [get]: what it does to the slot, and what is known when the thread waits. *)
Lemma get_turn_kept killed p t watching c r c' :
  slot_sound (slot c) → get_turn killed p t watching c = (r, c') →
  kept c c' ∧ ∃ u, r = Ok u ∧
    (u = Wait → watching = true ∧ killed = false ∧ task_ready (state (slot c')) = false) ∧
    (u = Continue → t ∈ observers (task_signal (slot c'))).
Proof.
  intros S E. destruct (get_turn_spec _ _ _ _ _ _ _ (ss_signals _ S) E)
    as [(b & -> & ->)|(-> & Ee & c1 & Hc & En)].
  { split; [by apply kept_refl|]. eexists. by split. }
  destruct (cleared_kept _ _ _ S Hc) as (K1 & Ec1 & Ee1 & Er1). rewrite Ee in Ee1.
  pose proof (proj1 K1) as S1. pose proof (next_turn_spec _ _ _ _ _ _ (ss_signals _ S1) En) as N.
  destruct (ready (state (slot c1))) as [|e rest] eqn:Er.
  - destruct N as (W & M & N).
    assert (∀ sl', slot c' = sl' → kept c1 (mk_Ctx sl' (mach c1) (woken c1)) → kept c1 c') as L.
    { intros sl' <- K. destruct c'. simpl in *. by subst. }
    destruct (closed (state (slot c1))) eqn:Ecl.
    { destruct N as [-> Hs]. split; [|by eexists].
      eapply kept_trans; [done|]. apply (L _ Hs). destruct c1. by apply kept_refl. }
    destruct watching; destruct N as [-> Hs].
    + split; [eapply kept_trans; [done|]; apply (L _ Hs); destruct c1; by apply kept_refl|].
      exists Wait. split; [done|]. split; [|done]. intros _. split; [done|]. split; [done|].
      rewrite Hs. unfold task_ready. by rewrite Er, Ecl, Ee1.
    + split; [eapply kept_trans; [done|]; apply (L _ Hs), observing_kept; done|].
      exists Continue. split; [done|]. split; [done|]. intros _. rewrite Hs. simpl.
      apply elem_of_app. right. by apply list_elem_of_singleton.
  - pose proof (map_next_spec _ _ _ _ _ _ (ss_signals _ S1) N) as P.
    pose proof (ss_ready _ S1) as F. rewrite Er in F. apply Forall_cons in F as [Fe Fr].
    destruct (pages (len e)) as [n|er] eqn:En'.
    2: { destruct P as [-> ->]. split; [done|]. by eexists. }
    destruct P as [_ P]. destruct (map_plane _ _ _ _ _).1 as [a|er].
    + destruct P as [-> R]. split; [|by eexists]. eapply kept_trans; [done|].
      eapply kept_refreshed; [done|done|]. simpl. by intros mp [= <-].
    + destruct P as (-> & Hs & Hw). split; [|by eexists]. eapply kept_trans; [done|].
      destruct c', c1. simpl in *. subst. split; [done|]. split; [done|]. by split; simpl; congruence.
Qed.

Lemma put_kept p at_ n c r c' :
  slot_sound (slot c) → put p at_ n c = (r, c') → kept c c'.
Proof.
  intros S E. pose proof (put_spec _ _ _ _ _ _ (ss_signals _ S) E) as P. simpl in P.
  destruct r as [[]|e]; [|subst; by apply kept_refl].
  destruct P as (mp & _ & _ & _ & _ & _ & _ & _ & _ & R).
  eapply kept_refreshed; [done|apply S|done].
Qed.

Lemma detach_kept upgraded c r c' :
  slot_sound (slot c) → detach upgraded c = (r, c') → kept c c'.
Proof.
  intros S E. destruct (detach_spec _ _ _ _ (ss_signals _ S) E) as [_ P].
  destruct (ended (state (slot c))); [subst; by apply kept_refl|]. destruct P as [_ R].
  by eapply kept_refreshed; [done|constructor|].
Qed.

(** ** Threads that wait *)

(** A thread whose waker is among the observers of slot [k]. *)
Definition watches th (k : nat) : Prop :=
  t_pc th = InGet k true ∨ t_pc th = Blocked k ∨ t_pc th = Leaving k true.

Record thread_ok (sls : gmap nat Slot) (t : nat) th : Prop := {
  to_slot k : (∃ b, t_pc th = InGet k b) ∨ t_pc th = Blocked k ∨ (∃ b, t_pc th = Leaving k b) →
    is_Some (sls !! k);
  to_observes k sl : watches th k → sls !! k = Some sl → t ∈ observers (task_signal sl);
  to_waker k : t_pc th = InGet k true ∨ t_pc th = Blocked k → t_waker th = true;
  to_blocked k sl : t_pc th = Blocked k → sls !! k = Some sl → t_woken th = false →
    task_ready (state sl) = false ∧ t_kill th ≠ Killed;
}.

Definition threads_ok (sls : gmap nat Slot) (ths : gmap nat Thread) : Prop :=
  ∀ t th, ths !! t = Some th → thread_ok sls t th.

Lemma lookup_wake_all ws (ths : gmap nat Thread) t :
  wake_all ws ths !! t =
  (λ th, if bool_decide (t ∈ ws) then set_woken true th else th) <$> ths !! t.
Proof. unfold wake_all. rewrite map_lookup_imap. by destruct (ths !! t). Qed.

(** A call on a slot wakes who waits there for what it brings. *)
Lemma kept_threads sls ths k sl m c' :
  threads_ok sls ths → sls !! k = Some sl → wakes (mk_Ctx sl m []) c' →
  threads_ok (<[k := slot c']> sls) (wake_all (woken c') ths).
Proof.
  intros T Hk [_ Wo Wr] t th'. rewrite lookup_wake_all.
  intros (th & Ht & ->)%fmap_Some. destruct (T _ _ Ht) as [T1 T2 T3 T4]. simpl in Wo, Wr.
  set (th' := if bool_decide (t ∈ woken c') then set_woken true th else th).
  assert (t_pc th' = t_pc th ∧ t_waker th' = t_waker th ∧ t_kill th' = t_kill th) as (E1 & E2 & E3)
    by (unfold th'; by destruct (bool_decide _)).
  unfold watches in *. split; unfold watches; rewrite ?E1, ?E2, ?E3.
  - intros j Hj. destruct (decide (k = j)) as [->|]; [by rewrite lookup_insert_eq|].
    rewrite lookup_insert_ne by done. by apply T1.
  - intros j sl' Hw. rewrite lookup_insert_Some. intros [[-> <-]|[_ Hj]]; [|by eapply T2].
    apply Wo. by eapply T2.
  - apply T3.
  - intros j sl' Hpc. rewrite lookup_insert_Some. intros [[-> <-]|[_ Hj]] Hwk.
    2: { apply (T4 j); try done. unfold th' in Hwk. by destruct (bool_decide _). }
    unfold th' in Hwk. destruct (bool_decide_reflect (t ∈ woken c')) as [|Hn]; [done|].
    destruct (T4 j sl Hpc Hk Hwk) as [Hr Hkl]. split; [|done].
    destruct (task_ready (state (slot c'))) eqn:Er; [|done]. exfalso. apply Hn.
    apply Wr; [done..|]. eapply T2; [|done]. by right; left.
Qed.

Lemma put_thread_ok sls ths t th :
  threads_ok sls ths → thread_ok sls t th → threads_ok sls (<[t := th]> ths).
Proof. intros T Ht u uh. rewrite lookup_insert_Some. intros [[<- <-]|[_ Hu]]; auto. Qed.

(** A thread after a turn of [get]. *)
Lemma turned_ok sls t th k watching u sl :
  thread_ok sls t th → t_pc th = InGet k watching → sls !! k = Some sl →
  (u = Wait → watching = true ∧ t_kill th = Alive ∧ task_ready (state sl) = false) →
  (u = Continue → t ∈ observers (task_signal sl)) →
  thread_ok sls t (turned k watching u th).
Proof.
  intros [T1 T2 T3 T4] Hpc Hk HW HC. destruct u; simpl.
  - split; unfold watches; simpl.
    + intros j [[b [=]]|[[=]|[b [= <- <-]]]]. eauto.
    + intros j sl' [[=]|[[=]|[= <- ->]]] Hj. eapply T2; [|done]. by left.
    + intros j [[=]|[=]].
    + done.
  - split; unfold watches; simpl.
    + intros j [[b [= <- <-]]|[[=]|[b [=]]]]. eauto.
    + intros j sl' [[= <-]|[[=]|[=]]] Hj. rewrite Hk in Hj. injection Hj as <-. auto.
    + done.
    + done.
  - destruct (HW eq_refl) as (-> & Hal & Hr). split; unfold watches; simpl.
    + intros j [[b [=]]|[[= <-]|[b [=]]]]. eauto.
    + intros j sl' [[=]|[[= <-]|[=]]] Hj. eapply T2; [|done]. by left.
    + intros j _. apply (T3 k). by left.
    + intros j sl' [= <-] Hj _. rewrite Hk in Hj. injection Hj as <-. by rewrite Hal.
Qed.

(** ** The windows a call maps and unmaps *)

Lemma object_size mo : object_ok mo → mo_size mo = zlen (frames mo) * PAGE_SIZE.
Proof.
  unfold object_ok, mo_size. change limits.MEMORY_MAX_BYTES with 268435456. intros H.
  pose proof (zlen_nonneg (frames mo)). apply wrap_small. unfold in_width, PAGE_SIZE in *. lia.
Qed.

(** The pages of an object asked for are the object's. *)
Lemma plane_call mo off n0 n out :
  u64 off → off mod PAGE_SIZE = 0 → u64 n0 → pages n0 = Ok n → off + n ≤ mo_size mo → object_ok mo →
  call_ok (MapPlane mo (off / PAGE_SIZE) n out) ∧ u64 n ∧ pages n = Ok n.
Proof.
  intros Uo Ho Ul En Hs Hm. rewrite (object_size _ Hm) in Hs.
  destruct (pages_round _ _ Ul En) as (An & Hn & Hn'). unfold object_ok in Hm.
  change limits.MEMORY_MAX_BYTES with 268435456 in Hm. unfold in_width in Uo, Ul.
  assert (u64 n) as Un by (unfold in_width; lia).
  assert (pages n = Ok n) as Ep by (apply pages_aligned; [unfold PAGE_SIZE in *; lia|done]).
  split; [|done]. split; [done|]. intros n2 E2. rewrite Ep in E2. injection E2 as <-.
  apply aligned_mul in An as [j ->]. rewrite Z.div_mul by done.
  pose proof (Z.div_mod off PAGE_SIZE ltac:(done)) as Eo.
  split; [apply Z.div_pos; [lia|done]|]. unfold PAGE_SIZE in *. split; nia.
Qed.

Lemma entry_backing out e n :
  entry_sound out e → pages (len e) = Ok n →
  call_ok (MapPlane (memory e) (offset e / PAGE_SIZE) n out) ∧ u64 n ∧ pages n = Ok n.
Proof.
  intros ((_ & Ho & _ & _ & n' & En' & Hs) & Uo & Ul & Hm) En. rewrite En in En'. injection En' as <-.
  by apply (plane_call _ _ (len e)).
Qed.

(** An answer that fits in an object has its pages there. *)
Lemma reply_backing mo n span :
  u64 n → n ≤ mo_size mo → object_ok mo → pages n = Ok span →
  call_ok (MapPlane mo 0 span false) ∧ u64 span ∧ pages span = Ok span.
Proof.
  intros Un Hn Ho En. apply (plane_call mo 0 n); try done. simpl.
  rewrite object_size in * by done. destruct (pages_round _ _ Un En) as (An & Hr & _).
  destruct (decide (span ≤ zlen (frames mo) * PAGE_SIZE)) as [|Hgt]; [done|].
  assert (aligned (zlen (frames mo) * PAGE_SIZE)) as Am by (apply aligned_mul; eauto).
  pose proof (aligned_next _ _ Am An ltac:(lia)). lia.
Qed.

(** Unmapping a window: refused only where the space is gone already. *)
Lemma window_unmapped ps hd h w pr m r m' :
  windows_ok ps hd → hd h = Some w → ps !! w_pid w = Some pr → space m = p_space pr →
  unmap_plane (w_addr w) (w_span w) (w_mem w) m = (r, m') →
  r = (if p_dead pr then Err BadState else Ok tt) ∧
  areas (space m') = (if p_dead pr then areas (p_space pr)
                      else bt_remove (w_addr w) (areas (p_space pr))) ∧
  u64 (w_addr w) ∧ u64 (w_span w).
Proof.
  intros W Hd Hp Em E. destruct (wo_range _ _ W _ _ Hd) as (U1 & U2 & Er).
  pose proof (unmap_plane_areas _ _ _ _ _ _ E) as Ea. rewrite Em in Ea.
  assert (r = if p_dead pr then Err BadState else Ok tt) as Hr.
  { destruct (p_dead pr) eqn:Ed.
    - revert E. unfold unmap_plane, mbind, M_bind, lift, gets, fail. rewrite Er, Em.
      destruct (bt_get (areas (p_space pr)) (w_addr w)) as [a|] eqn:G; [|by intros [= <- <-]].
      destruct (bool_decide_reflect (kind a = Plane)) as [Hk|]; [|by intros [= <- <-]].
      destruct (wo_held _ _ W _ _ _ _ Hp G Hk). congruence.
    - pose proof (wo_mapped _ _ W _ _ _ Hd Hp Ed) as G. rewrite <- Em in G.
      pose proof (unmap_plane_succeeds _ _ _ _ _ _ Er G) as Hok. by rewrite E in Hok. }
  split; [done|]. split; [|done]. rewrite Hr in Ea. destruct (p_dead pr); [|done].
  by rewrite Ea, Em.
Qed.

(** The windows with slot [k]'s set aside. *)
Definition but (k : nat) (hd : nat + nat → option Win) : nat + nat → option Win :=
  λ h, if decide (h = inl k) then None else hd h.

Lemma but_eq k hd : but k hd (inl k) = None.
Proof. unfold but. by rewrite decide_True. Qed.

Lemma but_ne k hd h : h ≠ inl k → but k hd h = hd h.
Proof. intros. unfold but. by rewrite decide_False. Qed.

Section windows.
Context (ps : gmap nat Proc) (hd : nat + nat → option Win) (k : nat) (sl : Slot).
Context (W : windows_ok ps hd) (Hd : hd (inl k) = win_of sl <$> current (state sl)).

(** What slot [k] has mapped for a process is unmapped. *)
Lemma unmapped_windows mp pr m r m' :
  current (state sl) = Some mp → ps !! mapper mp = Some pr → areas_ok (areas (p_space pr)) →
  space m = p_space pr →
  unmap_plane (addr mp) (span mp) (memory (entry mp)) m = (r, m') →
  r = (if p_dead pr then Err BadState else Ok tt) ∧
  windows_ok (<[mapper mp := mk_Proc (space m') (p_pending pr) (p_dead pr)]> ps) (but k hd) ∧
  u64 (addr mp) ∧ u64 (span mp).
Proof.
  intros Hc Hp A Em E. rewrite Hc in Hd.
  destruct (window_unmapped _ _ _ (win_of sl mp) pr m r m' W Hd Hp Em E) as (Hr & Ea & U1 & U2).
  split; [done|]. split; [|done].
  eapply (windows_remove ps hd (but k hd) (inl k) (win_of sl mp) pr); try done.
  - apply but_eq.
  - intros h. apply but_ne.
Qed.

(** Slot [k] maps its next entry for a process. *)
Lemma mapped_windows hd1 cs qs pr m e n a m' p :
  windows_ok (<[p := pr]> ps) hd1 → hd1 (inl k) = None → (∀ h, h ≠ inl k → hd1 h = hd h) →
  p_dead pr = false → space m = p_space pr → space_ok total cs qs m → unstraddled (areas (space m)) →
  entry_sound (output sl) e → pages (len e) = Ok n →
  map_plane (memory e) (offset e / PAGE_SIZE) n (output sl) m = (Ok a, m') →
  ∀ hd', hd' (inl k) = Some (win_of sl (mk_Mapped p a n e)) → (∀ h, h ≠ inl k → hd' h = hd h) →
  windows_ok (<[p := mk_Proc (space m') (p_pending pr) false]> ps) hd'.
Proof.
  intros W1 H1 Hn1 Hdead Em I Us Es En E hd' Hh' Hn'.
  destruct (entry_backing _ _ _ Es En) as (Hc & Un & Ep).
  destruct (map_plane_areas _ _ _ _ _ _ _ _ _ _ I Hc Us E) as (n' & En' & Er & Ua & G & Ea).
  rewrite Ep in En'. injection En' as <-. rewrite Em in G, Ea.
  rewrite <- (insert_insert_eq ps p _ pr).
  eapply (windows_add _ hd1 hd' (inl k) (win_of sl (mk_Mapped p a n e)) pr); try done.
  - intros h Hh. by rewrite Hn', Hn1.
  - by rewrite lookup_insert_eq.
Qed.

End windows.

Lemma map_plane_err_areas cs qs m mo first n write e m' :
  space_ok total cs qs m → call_ok (MapPlane mo first n write) → unstraddled (areas (space m)) →
  map_plane mo first n write m = (Err e, m') → areas (space m') = areas (space m).
Proof. intros I Hc Us E. exact (map_plane_areas _ _ _ _ _ _ _ _ _ _ I Hc Us E). Qed.

(** ** The system in order *)

Record sys_ok s : Prop := {
  sy_procs : procs_ok total s;
  sy_windows : windows_ok (procs s) (held s);
  sy_slots k sl : slots s !! k = Some sl → slot_sound sl;
  sy_threads : threads_ok (slots s) (threads s);
}.

Lemma held_slot s k sl : slots s !! k = Some sl → held s (inl k) = win_of sl <$> current (state sl).
Proof. intros H. simpl. by rewrite H. Qed.

Lemma held_put_slot s k sl ws h :
  held (put_slot k sl ws s) h =
  if decide (h = inl k) then win_of sl <$> current (state sl) else held s h.
Proof.
  destruct (decide (h = inl k)) as [->|Hne]; cbn [held slots put_slot replies].
  - by rewrite lookup_insert_eq.
  - destruct h as [j|t]; [|done]. simpl. by rewrite lookup_insert_ne by congruence.
Qed.

Lemma windows_ext ps hd hd' : (∀ h, hd' h = hd h) → windows_ok ps hd → windows_ok ps hd'.
Proof.
  intros Hh [W1 W2 W3 W4]. split.
  - intros h w. rewrite Hh. apply W1.
  - intros h w qr. rewrite Hh. apply W2.
  - intros h w h' w' qr. rewrite !Hh. apply W3.
  - intros q qr j a Hq G Ek. destruct (W4 _ _ _ _ Hq G Ek) as (? & h & w & Hw & ?).
    split; [done|]. exists h, w. by rewrite Hh.
Qed.

(** A call on a slot: what is left to show is of the machine and the windows. *)
Lemma on_slot_ok {A} k p (f : M Ctx Error A) s r s' :
  sys_ok s → on_slot k p f s = Some (r, s') →
  (∀ sl pr c', slots s !! k = Some sl → procs s !! p = Some pr →
     f (mk_Ctx sl (machine_of s pr) []) = (r, c') →
     slot_sound sl →
     kept (mk_Ctx sl (machine_of s pr) []) c' ∧
     moved (p_pending pr) (machine_of s pr) (p_pending pr) (mach c') ∧
     windows_ok (<[p := mk_Proc (space (mach c')) (p_pending pr) (p_dead pr)]> (procs s))
       (λ h, if decide (h = inl k) then win_of (slot c') <$> current (state (slot c')) else held s h)) →
  sys_ok s'.
Proof.
  intros [P W S T] E H. unfold on_slot in E.
  destruct (slots s !! k) as [sl|] eqn:Hk; [|done]. destruct (procs s !! p) as [pr|] eqn:Hp; [|done].
  simpl in E. destruct (f (mk_Ctx sl (machine_of s pr) [])) as [r' c'] eqn:Ef. injection E as <- <-.
  destruct (H sl pr c' eq_refl eq_refl Ef (S _ _ Hk)) as ((K1 & K2 & K3) & M & W').
  pose proof (moved_procs total s p pr (p_pending pr) (mach c') (p_dead pr) P Hp M) as P'.
  split.
  - destruct P' as [P1 P2 P3]. by split.
  - eapply windows_ext; [|exact W']. intros h. rewrite held_put_slot.
    destruct (decide (h = inl k)); [done|]. by destruct h.
  - intros j sl'. simpl. rewrite lookup_insert_Some. intros [[<- <-]|[_ Hj]]; [done|by eapply S].
  - simpl. by eapply kept_threads.
Qed.

Lemma proc_space s p pr :
  sys_ok s → procs s !! p = Some pr →
  space_ok total (s_carves s) (p_pending pr) (machine_of s pr) ∧ brk_ok (machine_of s pr).
Proof. intros I Hp. destruct (po_ok _ _ (sy_procs _ I) _ _ Hp) as [S B _]. done. Qed.

(** The calls that map nothing. *)
Lemma engine_ok {A} k p (f : M Ctx Error A) s r s' :
  sys_ok s → on_slot k p f s = Some (r, s') →
  (∀ c c', slot_sound (slot c) → f c = (r, c') →
     kept c c' ∧ mach c' = mach c ∧ current (state (slot c')) = current (state (slot c))) →
  sys_ok s'.
Proof.
  intros I E H. eapply on_slot_ok; [done..|]. intros sl pr c' Hk Hp Ef S.
  destruct (H (mk_Ctx sl (machine_of s pr) []) c' S Ef) as (K & M & C). simpl in M, C. split; [done|]. rewrite M.
  split; [apply rtc_refl|]. eapply windows_same; [apply I| |done|done].
  intros h. destruct (decide (h = inl k)) as [->|]; [|done].
  rewrite (held_slot _ _ _ Hk), C. destruct K as (_ & Ko & _). simpl in Ko.
  unfold win_of. by rewrite Ko.
Qed.

(** A turn of [get] by a process that lives. *)
Lemma turn_windows s k sl p pr killed t watching r c' :
  sys_ok s → slots s !! k = Some sl → procs s !! p = Some pr → p_dead pr = false → slot_sound sl →
  ready (state sl) = [] ∨ unstraddled (areas (p_space pr)) →
  get_turn killed p t watching (mk_Ctx sl (machine_of s pr) []) = (r, c') →
  moved (p_pending pr) (machine_of s pr) (p_pending pr) (mach c') ∧
  windows_ok (<[p := mk_Proc (space (mach c')) (p_pending pr) (p_dead pr)]> (procs s))
    (λ h, if decide (h = inl k) then win_of (slot c') <$> current (state (slot c')) else held s h).
Proof.
  intros I Hk Hp Hd S Hfree E. set (c := mk_Ctx sl (machine_of s pr) []) in *.
  destruct (proc_space _ _ _ I Hp) as [Sp _].
  destruct (get_turn_spec _ _ _ _ _ _ _ (ss_signals _ S : signals_ok (slot c)) E)
    as [(b & -> & ->)|(-> & Ee & c1 & Hc & En)].
  { split; [apply rtc_refl|]. eapply windows_same; [apply I| |done|done].
    intros h. destruct (decide (h = inl k)) as [->|]; [|done]. by rewrite (held_slot _ _ _ Hk). }
  destruct (cleared_kept p c c1 S Hc) as ((S1 & O1 & _) & Ec1 & _ & Rd1). simpl in O1, Rd1.
  assert (moved (p_pending pr) (machine_of s pr) (p_pending pr) (mach c1) ∧
    windows_ok (<[p := mk_Proc (space (mach c1)) (p_pending pr) false]> (procs s)) (but k (held s)) ∧
    (unstraddled (areas (p_space pr)) → unstraddled (areas (space (mach c1)))))
    as (M1 & W1 & Us1).
  { destruct Hc as [[Ecur ->]|(mp & Ecur & Hmp & _ & Eu & _)]; simpl in Ecur.
    - split; [apply rtc_refl|]. split; [|done]. rewrite <- Hd. eapply windows_same; [apply I| |done|done].
      intros h. unfold but. destruct (decide (h = inl k)) as [->|]; [|done].
      by rewrite (held_slot _ _ _ Hk), Ecur.
    - rewrite <- Hmp in *.
      destruct (unmapped_windows _ _ k sl (sy_windows _ I) (held_slot _ _ _ Hk) mp pr (machine_of s pr) _ _ Ecur Hp
        (so_areas _ _ _ _ Sp) eq_refl Eu) as (_ & W1 & U1 & U2).
      rewrite Hd in W1. split; [|split; [done|]].
      + pose proof (unmap_plane_moved (p_pending pr) (machine_of s pr) (addr mp) (span mp)
          (memory (entry mp)) U1 U2) as M. simpl in Eu. by rewrite Eu in M.
      + rewrite (unmap_plane_areas _ _ _ _ _ _ Eu). apply unstraddled_remove. }
  pose proof (moved_ok _ (s_carves s) _ _ _ _ M1 (po_ok _ _ (sy_procs _ I) _ _ Hp)) as [Sp1 _ _].
  simpl in Sp1. rewrite Hd.
  pose proof (next_turn_spec _ _ _ _ _ _ (ss_signals _ S1) En) as N.
  assert (∀ m, areas (space m) = areas (space (mach c1)) → current (state (slot c')) = None →
    windows_ok (<[p := mk_Proc (space m) (p_pending pr) false]> (procs s))
      (λ h, if decide (h = inl k) then win_of (slot c') <$> current (state (slot c')) else held s h))
    as Done.
  { intros m Em Ec. rewrite <- (insert_insert_eq (procs s) p _ (mk_Proc (space (mach c1)) (p_pending pr) false)).
    eapply (windows_same _ (but k (held s)) _ p (mk_Proc (space (mach c1)) (p_pending pr) false));
      [done| |by rewrite lookup_insert_eq|by rewrite Em].
    intros h. unfold but. destruct (decide (h = inl k)); [by rewrite Ec|done]. }
  destruct (ready (state (slot c1))) as [|e rest] eqn:Er.
  - destruct N as (_ & M & N). rewrite M. split; [done|]. apply Done; [done|].
    destruct (closed _); [|destruct watching]; destruct N as [_ ->]; done.
  - pose proof (map_next_spec _ _ _ _ _ _ (ss_signals _ S1) N) as P.
    destruct Hfree as [Hfree|Us]; [congruence|]. apply Us1 in Us.
    pose proof (ss_ready _ S1) as F. rewrite Er, O1 in F. apply Forall_cons in F as [Fe _].
    destruct (pages (len e)) as [n|er] eqn:En'.
    2: { destruct P as [_ ->]. split; [done|]. by apply Done. }
    destruct P as [M P]. rewrite O1 in *. destruct (entry_backing _ _ _ Fe En') as (Hcall & _ & _).
    destruct (map_plane _ _ _ _ (mach c1)) as [[a|er] m2] eqn:Em; simpl in M, P; rewrite M.
    + split. { eapply moves_trans; [exact M1|]. pose proof (map_plane_moved (p_pending pr) (mach c1) _ _ _ _ Hcall Us) as M2.
        by rewrite Em in M2. }
      destruct P as [_ (Es & Eo & _)].
      eapply (mapped_windows (procs s) (held s) k sl (but k (held s)) _ _
        (mk_Proc (space (mach c1)) (p_pending pr) false)); try done.
      * apply but_eq.
      * intros h. apply but_ne.
      * rewrite decide_True by done. rewrite Es. simpl. unfold win_of. by rewrite Eo, O1.
      * intros h Hh. by rewrite decide_False.
    + split. { eapply moves_trans; [exact M1|]. pose proof (map_plane_moved (p_pending pr) (mach c1) _ _ _ _ Hcall Us) as M2.
        by rewrite Em in M2. }
      destruct P as (_ & Hs & _). apply Done; [|by rewrite Hs].
      by eapply map_plane_err_areas.
Qed.

Lemma put_windows s k sl p pr at_ n r c' :
  sys_ok s → slots s !! k = Some sl → procs s !! p = Some pr → slot_sound sl →
  put p at_ n (mk_Ctx sl (machine_of s pr) []) = (r, c') →
  moved (p_pending pr) (machine_of s pr) (p_pending pr) (mach c') ∧
  windows_ok (<[p := mk_Proc (space (mach c')) (p_pending pr) (p_dead pr)]> (procs s))
    (λ h, if decide (h = inl k) then win_of (slot c') <$> current (state (slot c')) else held s h).
Proof.
  intros I Hk Hp S E. destruct (proc_space _ _ _ I Hp) as [Sp _].
  pose proof (put_spec _ _ _ (mk_Ctx sl (machine_of s pr) []) _ _ (ss_signals _ S) E) as P. simpl in P.
  destruct r as [[]|e].
  - destruct P as (mp & Ecur & Hmp & _ & _ & _ & _ & _ & Eu & Es & _). rewrite <- Hmp in *.
    destruct (unmapped_windows _ _ k sl (sy_windows _ I) (held_slot _ _ _ Hk) mp pr (machine_of s pr)
      _ _ Ecur Hp (so_areas _ _ _ _ Sp) eq_refl Eu) as (_ & W1 & U1 & U2). split.
    + pose proof (unmap_plane_moved (p_pending pr) (machine_of s pr) (addr mp) (span mp)
        (memory (entry mp)) U1 U2) as M. by rewrite Eu in M.
    + eapply windows_ext; [|exact W1]. intros h. unfold but.
      destruct (decide (h = inl k)); [by rewrite Es|done].
  - subst c'. split; [apply rtc_refl|]. eapply windows_same; [apply I| |done|done].
    intros h. destruct (decide (h = inl k)) as [->|]; [|done]. by rewrite (held_slot _ _ _ Hk).
Qed.

Lemma detach_windows s k sl p pr (upgraded : bool) r c' :
  sys_ok s → slots s !! k = Some sl → procs s !! p = Some pr → slot_sound sl →
  (∀ mp, current (state sl) = Some mp →
     if upgraded then mapper mp = p else procs s !! mapper mp = None) →
  detach upgraded (mk_Ctx sl (machine_of s pr) []) = (r, c') →
  moved (p_pending pr) (machine_of s pr) (p_pending pr) (mach c') ∧
  windows_ok (<[p := mk_Proc (space (mach c')) (p_pending pr) (p_dead pr)]> (procs s))
    (λ h, if decide (h = inl k) then win_of (slot c') <$> current (state (slot c')) else held s h).
Proof.
  intros I Hk Hp S Hup E. destruct (proc_space _ _ _ I Hp) as [Sp _].
  destruct (detach_spec _ (mk_Ctx sl (machine_of s pr) []) _ _ (ss_signals _ S) E) as [_ P]. simpl in P.
  destruct (ended (state sl)) eqn:Ee.
  { subst c'. split; [apply rtc_refl|]. eapply windows_same; [apply I| |done|done].
    intros h. destruct (decide (h = inl k)) as [->|]; [|done]. by rewrite (held_slot _ _ _ Hk). }
  destruct P as [M (Es & _)].
  assert (current (state (slot c')) = None) as Ec by by rewrite Es.
  destruct (current (state sl)) as [mp|] eqn:Ecur.
  2: { rewrite M. split; [apply rtc_refl|]. eapply windows_same; [apply I| |done|done].
       intros h. destruct (decide (h = inl k)) as [->|]; [|done].
       by rewrite (held_slot _ _ _ Hk), Ecur, Ec. }
  specialize (Hup mp eq_refl). destruct upgraded.
  - rewrite <- Hup in *.
    destruct (unmap_plane (addr mp) (span mp) (memory (entry mp)) (machine_of s pr)) as [ru m'] eqn:Eu.
    simpl in M. rewrite M.
    destruct (unmapped_windows _ _ k sl (sy_windows _ I) (held_slot _ _ _ Hk) mp pr (machine_of s pr)
      _ _ Ecur Hp (so_areas _ _ _ _ Sp) eq_refl Eu) as (_ & W1 & U1 & U2). split.
    + pose proof (unmap_plane_moved (p_pending pr) (machine_of s pr) (addr mp) (span mp)
        (memory (entry mp)) U1 U2) as M1. by rewrite Eu in M1.
    + eapply windows_ext; [|exact W1]. intros h. unfold but.
      destruct (decide (h = inl k)); [by rewrite Ec|done].
  - rewrite M. split; [apply rtc_refl|].
    eapply (windows_same _ (but k (held s))); [|intros h; unfold but|done|done].
    + eapply (windows_forget _ (held s) _ (inl k)); [apply I|by rewrite (held_slot _ _ _ Hk), Ecur|
        apply but_eq|intros h; apply but_ne|done].
    + destruct (decide (h = inl k)); [by rewrite Ec|done].
Qed.

(** ** Port calls *)

Lemma held_put_reply s t r h :
  held (put_reply t r s) h =
  if decide (h = inr t) then win_of_reply <$> r else held s h.
Proof.
  destruct (decide (h = inr t)) as [->|Hne]; simpl.
  - by rewrite lookup_partial_alter_eq.
  - destruct h as [j|u]; simpl; [done|]. by rewrite lookup_partial_alter_ne by congruence.
Qed.

(** The reply of a port call goes. *)
Lemma drop_reply_ok s t p pr r m' :
  sys_ok s → replies s !! t = Some (p, r) → procs s !! p = Some pr →
  drop_reply (Some r) (machine_of s pr) = (Ok tt, m') →
  sys_ok (put_reply t None (put_machine p m' (p_pending pr) (p_dead pr) s)).
Proof.
  intros I Hr Hp. destruct r as [[a n] mo]. destruct (proc_space _ _ _ I Hp) as [Sp _]. simpl.
  destruct (unmap_plane a n mo (machine_of s pr)) as [ru m1] eqn:Eu. intros [= <-]. simpl.
  assert (held s (inr t) = Some (mk_Win p a n mo 0 false)) as Hh by (unfold held; by rewrite Hr).
  destruct (window_unmapped _ _ _ _ pr (machine_of s pr) _ _ (sy_windows _ I) Hh Hp eq_refl Eu)
    as (_ & Ea & U1 & U2). simpl in U1, U2, Ea.
  pose proof (unmap_plane_moved (p_pending pr) (machine_of s pr) a n mo U1 U2) as M.
  rewrite Eu in M. simpl in M.
  pose proof (moved_procs _ s p pr (p_pending pr) m1 (p_dead pr) (sy_procs _ I) Hp M) as [P1 P2 P3].
  split; [by split| |apply I|apply I].
  eapply (windows_remove _ (held s) _ (inr t) (mk_Win p a n mo 0 false) pr); try done; [apply I| | |].
  - by rewrite held_put_reply, decide_True.
  - intros h Hn. rewrite held_put_reply, decide_False by done. by destruct h.
  - apply Sp.
Qed.

(** The reply of a port call is mapped. *)
Lemma map_reply_ok s t p pr mo n res m' :
  sys_ok s → replies s !! t = None → procs s !! p = Some pr → p_dead pr = false →
  u64 n → n ≤ mo_size mo → object_ok mo → unstraddled (areas (p_space pr)) →
  map_reply mo n (machine_of s pr) = (res, m') →
  sys_ok (put_reply t (match res with Ok r => Some (p, r) | Err _ => None end)
            (put_machine p m' (p_pending pr) (p_dead pr) s)).
Proof.
  intros I Hr Hp Hd Un Hn Ho Us. destruct (proc_space _ _ _ I Hp) as [Sp _].
  assert (held s (inr t) = None) as Hh by (unfold held; by rewrite Hr).
  assert (∀ m1, moved (p_pending pr) (machine_of s pr) (p_pending pr) m1 →
    areas (space m1) = areas (p_space pr) →
    sys_ok (put_reply t None (put_machine p m1 (p_pending pr) (p_dead pr) s))) as Nothing.
  { intros m1 M Ea.
    pose proof (moved_procs _ s p pr (p_pending pr) m1 (p_dead pr) (sy_procs _ I) Hp M) as [P1 P2 P3].
    split; [by split| |apply I|apply I]. eapply windows_same; [apply I| |done|by rewrite Ea].
    intros h. rewrite held_put_reply. destruct (decide (h = inr t)) as [->|]; [done|by destruct h]. }
  unfold map_reply, mbind, M_bind, lift, mret, M_ret. destruct (pages n) as [span|e] eqn:En.
  2: { intros [= <- <-]. apply Nothing; [apply rtc_refl|done]. }
  destruct (reply_backing _ _ _ Un Hn Ho En) as (Hc & Hsp & Es).
  pose proof (map_plane_moved (p_pending pr) (machine_of s pr) _ _ _ _ Hc Us) as M.
  destruct (map_plane mo 0 span false (machine_of s pr)) as [[a|e] m1] eqn:Em;
    intros [= <- <-]; simpl in M.
  2: { apply Nothing; [done|]. exact (map_plane_areas _ _ _ _ _ _ _ _ _ _ Sp Hc Us Em). }
  destruct (map_plane_areas _ _ _ _ _ _ _ _ _ _ Sp Hc Us Em) as (n' & En' & Er & Ua & G & Ea).
  rewrite Es in En'. injection En' as <-.
  pose proof (moved_procs _ s p pr (p_pending pr) m1 (p_dead pr) (sy_procs _ I) Hp M) as [P1 P2 P3].
  split; [by split| |apply I|apply I]. rewrite Hd.
  eapply (windows_add _ (held s) _ (inr t) (mk_Win p a span mo 0 false) pr); try done; [apply I| |].
  - by rewrite held_put_reply, decide_True.
  - intros h Hh'. rewrite held_put_reply, decide_False by done. by destruct h.
Qed.

(** ** Every event *)

(** Changes that are no process's, slot's or window's. *)
Lemma thread_change s t th : sys_ok s → thread_ok (slots s) t th → sys_ok (put_thread t th s).
Proof.
  intros [P W S T] Ht. split; [by destruct P; split|by eapply windows_ext; [|exact W]; intros []|done|].
  by apply put_thread_ok.
Qed.

Lemma start_ok s t th k :
  sys_ok s → threads s !! t = Some th → is_Some (slots s !! k) →
  sys_ok (put_thread t (set_woken false (set_pc (InGet k false) (t_waker th) th)) s).
Proof.
  intros I Ht Hk. apply thread_change; [done|]. split; unfold watches; simpl.
  - intros j [[b [= <- <-]]|[[=]|[b [=]]]]. done.
  - intros j sl [[=]|[[=]|[=]]].
  - intros j [[=]|[=]].
  - done.
Qed.

Lemma wait_ends_ok s t th k :
  sys_ok s → threads s !! t = Some th → t_pc th = Blocked k →
  sys_ok (put_thread t (set_woken false (set_pc (InGet k true) (t_waker th) th)) s).
Proof.
  intros I Ht Hpc. apply thread_change; [done|]. destruct (sy_threads _ I _ _ Ht) as [T1 T2 T3 T4].
  split; unfold watches; simpl.
  - intros j [[b [= <- <-]]|[[=]|[b [=]]]]. apply T1. by right; left.
  - intros j sl [[= <-]|[[=]|[=]]]. apply T2. by right; left.
  - intros j _. apply (T3 k). by right.
  - done.
Qed.

Lemma kill_ok s t th kl b :
  sys_ok s → threads s !! t = Some th →
  (b = false → t_woken th = false) →
  (∀ k, t_pc th = Blocked k → kl = Killed → b = true) →
  sys_ok (put_thread t (set_kill kl (set_woken b th)) s).
Proof.
  intros I Ht Hb Hk. apply thread_change; [done|]. destruct (sy_threads _ I _ _ Ht) as [T1 T2 T3 T4].
  split; simpl; try done. intros k sl Hpc Hs Hw. subst b. split.
  - by apply (T4 k sl Hpc Hs), Hb.
  - intros ->. by specialize (Hk _ Hpc eq_refl).
Qed.

Lemma turn_ok s t th k watching pr u s1 th1 :
  sys_ok s → threads s !! t = Some th → t_pc th = InGet k watching →
  procs s !! t_process th = Some pr → p_dead pr = false →
  (∀ sl, slots s !! k = Some sl → ready (state sl) = [] ∨ unstraddled (areas (p_space pr))) →
  on_slot k (t_process th) (get_turn (killed th) (t_process th) t watching) s = Some (Ok u, s1) →
  threads s1 !! t = Some th1 → sys_ok (put_thread t (turned k watching u th1) s1).
Proof.
  intros I Ht Hpc Hp Hd Hfree E Ht1.
  assert (sys_ok s1) as I1.
  { eapply on_slot_ok; [done|done|]. intros sl pr' c' Hk Hp' Ef S.
    rewrite Hp in Hp'. injection Hp' as <-. split; [by eapply get_turn_kept|].
    eapply turn_windows; [done..| |exact Ef]. by apply Hfree. }
  unfold on_slot in E. destruct (slots s !! k) as [sl|] eqn:Hk; [|done]. rewrite Hp in E. simpl in E.
  destruct (get_turn _ _ _ _ _) as [r c'] eqn:Ef. injection E as -> <-.
  pose proof (sy_slots _ I _ _ Hk : slot_sound (slot (mk_Ctx sl (machine_of s pr) []))) as S.
  destruct (get_turn_kept _ _ _ _ _ _ _ S Ef) as (_ & u' & [= <-] & HW & HC).
  apply thread_change; [done|]. simpl in Ht1. rewrite lookup_wake_all, Ht in Ht1. injection Ht1 as <-.
  set (th1 := if bool_decide _ then _ else _).
  assert (t_pc th1 = InGet k watching ∧ t_kill th1 = t_kill th) as [Hpc1 Hkl].
  { unfold th1. by destruct (bool_decide _). }
  eapply (turned_ok _ _ _ _ _ _ (slot c')).
  - apply (sy_threads _ I1). simpl. by rewrite lookup_wake_all, Ht.
  - done.
  - simpl. by rewrite lookup_insert_eq.
  - intros ->. destruct (HW eq_refl) as (-> & Hal & Hr). split_and!; [done| |done].
    rewrite Hkl. unfold killed in Hal. by destruct (t_kill th).
  - exact HC.
Qed.

Lemma get_end_ok s t th k p watching r s1 th1 :
  sys_ok s → threads s !! t = Some th → t_pc th = Leaving k watching →
  on_slot k p (get_end t watching) s = Some (r, s1) → threads s1 !! t = Some th1 →
  sys_ok (put_thread t (set_pc Idle (if watching then false else t_waker th1) th1) s1).
Proof.
  intros I Ht Hpc E Ht1. unfold on_slot in E.
  destruct (slots s !! k) as [sl|] eqn:Hk; [|done]. destruct (procs s !! p) as [pr|] eqn:Hp; [|done].
  simpl in E. destruct I as [P W S T].
  assert (∃ sl', slot_sound sl' ∧ state sl' = state sl ∧ output sl' = output sl ∧
    (∀ w, w ≠ t → w ∈ observers (task_signal sl) → w ∈ observers (task_signal sl')) ∧
    s1 = put_slot k sl' [] (put_machine p (machine_of s pr) (p_pending pr) (p_dead pr) s))
    as (sl' & S' & Es & Eo & Hob & ->).
  { unfold get_end in E. destruct watching; injection E as _ <-.
    - eexists. split; [|split; [|split; [|split; [|reflexivity]]]]; try done.
      + destruct (S _ _ Hk) as [[S1 S2] S3 S4]. by split; [split|..].
      + intros w Hn Hw. simpl. apply list_elem_of_In, filter_In.
        split; [by apply list_elem_of_In|]. by destruct (Nat.eqb_spec w t).
    - exists sl. split_and!; try done. by apply (S k). }
  simpl in Ht1. rewrite lookup_wake_all, Ht in Ht1. injection Ht1 as <-.
  split; simpl.
  - pose proof (moved_procs _ s p pr (p_pending pr) (machine_of s pr) (p_dead pr) P Hp ltac:(apply rtc_refl))
      as [P1 P2 P3]. by split.
  - eapply windows_same; [exact W| |done|done]. intros h.
    transitivity (held (put_slot k sl' [] (put_machine p (machine_of s pr) (p_pending pr) (p_dead pr) s)) h);
      [by destruct h|]. rewrite held_put_slot. destruct (decide (h = inl k)) as [->|]; [|by destruct h].
    rewrite (held_slot _ _ _ Hk), Es. unfold win_of. by rewrite Eo.
  - intros j sl0. rewrite lookup_insert_Some. intros [[<- <-]|[_ Hj]]; [done|by eapply S].
  - intros u uh. rewrite lookup_insert_Some. intros [[<- <-]|[Hne Hu]].
    + split; unfold watches; simpl; try done.
      * by intros j [[b [=]]|[[=]|[b [=]]]].
      * by intros j sl0 [[=]|[[=]|[=]]].
      * by intros j [[=]|[=]].
    + rewrite lookup_wake_all in Hu. destruct (threads s !! u) as [uh'|] eqn:Hu'; [|done].
      injection Hu as <-. simpl. destruct (T _ _ Hu') as [T1 T2 T3 T4]. split; [| |done|].
      * intros j Hj. destruct (decide (k = j)) as [->|]; [by rewrite lookup_insert_eq|].
        rewrite lookup_insert_ne by done. by apply T1.
      * intros j sl0 Hw. rewrite lookup_insert_Some. intros [[-> <-]|[_ Hj]]; [|by eapply T2].
        apply Hob; [done|]. by eapply T2.
      * intros j sl0 Hb. rewrite lookup_insert_Some. intros [[-> <-]|[_ Hj]]; [|by eapply T4].
        rewrite Es. by eapply T4.
Qed.

Lemma space_step_ok s p pr ps' m' :
  sys_ok s → procs s !! p = Some pr → local user_call (p_pending pr, machine_of s pr) (ps', m') →
  sys_ok (put_machine p m' ps' (p_dead pr) s).
Proof.
  intros I Hp St. destruct (proc_space _ _ _ I Hp) as [Sp B].
  pose proof (moved_procs _ s p pr ps' m' (p_dead pr) (sy_procs _ I) Hp
    (rtc_once _ _ (local_weaken _ _ _ St))) as P.
  split; [done| |apply I|apply I]. eapply windows_same; [apply I|by intros []|done|].
  exact (local_planes total _ _ _ _ _ Sp B St).
Qed.

Lemma new_process_ok s p i x w' :
  u64 total → sys_ok s → procs s !! p = None → (∀ h w, held s h = Some w → w_pid w ≠ p) →
  is_Some (accounts (s_world s) !! i) → space_new i (s_world s) = (Ok x, w') →
  sys_ok (put_machine p (mk_Machine w' (s_hw s) x) [] false s).
Proof.
  intros Hl I Hp Hh Hi E. destruct (sy_procs _ I) as [P1 P2 P3].
  destruct (space_new_ok _ _ _ _ _ _ (s_hw s) P3 Hi E) as (C & Hf & Ho & Hx & Hc).
  split; [|eapply windows_new; [|done|done]|apply I|apply I].
  2: { eapply windows_ext; [|apply I]. by intros []. }
  split; simpl.
  - intros q qr. rewrite lookup_insert_Some. intros [[<- <-]|[Hne Hq]]; [done|].
    eapply apart_ok; [by apply (P1 q)|by apply (so_paid _ _ _ _ (co_space _ _ C))|]. apply Ho.
    destruct (po_ok _ _ (sy_procs _ I) _ _ Hq) as [Sq _ _].
    destruct (so_paid _ _ _ _ Sq) as [_ (ch & Hch & _)]. by exists ch.
  - intros q qr q' qr'. rewrite !lookup_insert_Some.
    assert (∀ q qr, procs s !! q = Some qr → charged (p_space qr) ≠ charged x) as Hne.
    { intros q0 qr0 Hq0 Eq. destruct (po_ok _ _ (sy_procs _ I) _ _ Hq0) as [Sq _ _].
      destruct (so_paid _ _ _ _ Sq) as [_ (ch & Hch & _)]. simpl in Hch. congruence. }
    intros [[<- <-]|[_ Hq]] [[<- <-]|[_ Hq']] Hqq; simpl; try done.
    + intros Eq. by eapply Hne.
    + by eapply Hne.
    + by eapply (P2 q qr q' qr').
  - apply (so_paid _ _ _ _ (co_space _ _ C)).
Qed.


Lemma new_slot_sound flags i room w sl w' : slot_new flags i room w = (Ok sl, w') → slot_sound sl.
Proof.
  unfold slot_new. destruct (negb _); [done|]. destruct (charge_new _ _ w) as [[c|e] w1]; [|done].
  destruct (negb room); [done|]. intros [= <- _].
  split; simpl; [split; by vm_compute|by constructor|done].
Qed.

Lemma new_slot_ok s k flags i room sl w' :
  sys_ok s → slots s !! k = None → is_Some (accounts (s_world s) !! i) →
  slot_new flags i room (s_world s) = (Ok sl, w') →
  sys_ok (put_slot k sl [] (put_world w' (s_carves s) s)).
Proof.
  intros I Hk Hi E. pose proof (new_slot_sound _ _ _ _ _ _ E) as S.
  assert (current (state sl) = None) as Ec.
  { revert E. unfold slot_new. destruct (negb _); [done|]. destruct (charge_new _ _ _) as [[c|e] w1]; [|done].
    destruct (negb room); [done|]. by intros [= <- _]. }
  destruct (sy_procs _ I) as [P1 P2 P3].
  assert (Account.inv total w' (s_carves s) ∧
    ∀ j, is_Some (charges (s_world s) !! j) → charges w' !! j = charges (s_world s) !! j) as [P3' Hc].
  { revert E. unfold slot_new. destruct (negb _); [done|].
    destruct (charge_new i charge.SLOT (s_world s)) as [[j|e] w1] eqn:E1; [|done].
    destruct (negb room); [done|]. intros [= _ <-].
    split; [by eapply (inv_charge_new _ _ _ _ _ _ _ P3 Hi) in E1|].
    intros j' Hj. by eapply charge_new_apart. }
  split; simpl.
  - split; simpl; [|done|done]. intros q qr Hq. eapply apart_ok; [by apply (P1 q)|done|]. apply Hc.
    destruct (P1 _ _ Hq) as [Sq _ _]. destruct (so_paid _ _ _ _ Sq) as [_ (ch & Hch & _)]. by exists ch.
  - eapply windows_ext; [|apply I]. intros h. rewrite held_put_slot.
    destruct (decide (h = inl k)) as [->|]; [|by destruct h]. rewrite Ec. simpl. by rewrite Hk.
  - intros j sl0. rewrite lookup_insert_Some. intros [[<- <-]|[_ Hj]]; [done|by eapply (sy_slots _ I)].
  - intros t th. rewrite lookup_wake_all. intros (th' & Ht & ->)%fmap_Some. simpl.
    destruct (sy_threads _ I _ _ Ht) as [T1 T2 T3 T4].
    assert (∀ j sl0, is_Some (slots s !! j) → <[k := sl]> (slots s) !! j = Some sl0 → slots s !! j = Some sl0) as L.
    { intros j sl0 Hj. rewrite lookup_insert_ne; [done|]. intros <-. rewrite Hk in Hj. by destruct Hj. }
    split; [| |done|].
    + intros j Hj. destruct (decide (k = j)) as [->|]; [by rewrite lookup_insert_eq|].
      rewrite lookup_insert_ne by done. by apply T1.
    + intros j sl0 Hw Hj. apply (T2 j); [done|]. apply L; [|done]. apply T1.
      destruct Hw as [?|[?|?]]; eauto.
    + intros j sl0 Hb Hj. apply (T4 j); [done|]. apply L; [|done]. apply T1. by right; left.
Qed.

Lemma event_ok s s' : u64 total → sys_ok s → event s s' → sys_ok s'.
Proof.
  intros Hl I. destruct 1 as [s k p mo r off n ck res s' Uo Un Ho E|s k p res s' E|s k p insert res s' E
    |s k p t i res s' E|s t th k Ht Hpc Hk|s t th k watching pr u s1 th1 Ht Hpc Hp Hd Hfree E Ht1
    |s t th k Ht Hpc Hw|s t th k p watching r s1 th1 Ht Hpc E Ht1|s t th Ht Ha|s t th Ht Ha
    |s p pr k at_ n res s' Hp Hd E|s k p upgraded sl res s' Hk Hup E|s p pr Hp|s p pr ps' m' Hp St
    |s w' cs' St Hc|s h|s p i x w' Hp Hh Hi E|s p pr Hp Hd|s k flags i room sl w' Hk Hi E|s t p Ht
    |s t p pr r m' Hr Hp E|s t p pr mo n res m' Hr Hp Hd Un Hn Ho Us E].
  - eapply engine_ok; [done..|]. intros c c' S Ef. exact (push_kept _ _ _ _ _ _ _ _ S Uo Un Ho Ef).
  - eapply engine_ok; [done..|]. intros c c' S Ef. exact (close_kept _ _ _ S Ef).
  - eapply engine_ok; [done..|]. intros c c' S Ef. exact (take_kept _ _ _ _ S Ef).
  - eapply engine_ok; [done..|]. intros c c' S Ef. exact (attach_kept _ _ _ _ _ S Ef).
  - by apply start_ok.
  - by eapply turn_ok.
  - by apply wait_ends_ok.
  - by eapply get_end_ok.
  - replace (set_kill Storing th) with (set_kill Storing (set_woken (t_woken th) th)) by by destruct th.
    by apply kill_ok.
  - replace (set_kill Killed _) with (set_kill Killed (set_woken (t_waker th || t_woken th) th))
      by (destruct th as [? ? [] ? ?]; done).
    apply kill_ok; [done..| |].
    + by intros [_ ?]%orb_false_iff.
    + intros k Hpc _. by rewrite (to_waker _ _ _ (sy_threads _ I _ _ Ht) k (or_intror Hpc)).
  - eapply on_slot_ok; [done|done|]. intros sl pr' c' Hk Hp' Ef S. split; [by eapply put_kept|].
    by eapply put_windows.
  - eapply on_slot_ok; [done|done|]. intros sl' pr c' Hk' Hp Ef S. rewrite Hk in Hk'. injection Hk' as <-.
    split; [by eapply detach_kept|]. by eapply detach_windows.
  - pose proof (moved_procs _ s p pr (p_pending pr) _ true (sy_procs _ I) Hp
      (clear_moved (p_pending pr) (machine_of s pr))) as P.
    split; [done| |apply I|apply I]. eapply windows_clear; [|done].
    eapply windows_ext; [|apply I]. by intros [].
  - by apply (space_step_ok s p pr).
  - destruct (sy_procs _ I) as [P1 P2 P3]. pose proof (step_inv _ _ _ _ _ P3 St) as P3'.
    split; [|eapply windows_ext; [|apply I]; by intros []|apply I|apply I].
    split; simpl; [|done|done]. intros q qr Hq. eapply apart_ok; [by apply (P1 q)|done|]. by apply (Hc q).
  - destruct (sy_procs _ I) as [P1 P2 P3].
    split; [|eapply windows_ext; [|apply I]; by intros []|apply I|apply I].
    split; simpl; [|done|done]. intros q qr Hq. eapply apart_ok; [by apply (P1 q)|done|done].
  - by eapply new_process_ok.
  - destruct (sy_procs _ I) as [P1 P2 P3].
    split; [|apply windows_drop; eapply windows_ext; [|apply I]; by intros []|apply I|apply I].
    split; simpl; [| |done].
    + intros q qr [_ Hq]%lookup_delete_Some. by apply (P1 q).
    + intros q qr q' qr' [_ Hq]%lookup_delete_Some [_ Hq']%lookup_delete_Some. by apply P2.
  - by eapply new_slot_ok.
  - apply thread_change; [done|]. split; unfold watches; simpl; try done.
    + by intros j [[b [=]]|[[=]|[b [=]]]].
    + by intros j sl [[=]|[[=]|[=]]].
    + by intros j [[=]|[=]].
  - by eapply drop_reply_ok.
  - by eapply map_reply_ok.
Qed.

(** ** What holds of every state the system reaches *)

Definition boot (lim : Z) (h : Hw) : Sys := mk_Sys (machine lim) [] h ∅ ∅ ∅ ∅.

Definition sys_reachable (lim : Z) s : Prop := ∃ h, rtc event (boot lim h) s.

Lemma reachable_sys_ok s : u64 total → sys_reachable total s → sys_ok s.
Proof.
  intros Hl (h & R). assert (sys_ok (boot total h)) as I.
  { split; simpl; [split; simpl; [done|done|by apply machine_inv]| |done|done].
    split.
    - by intros [] w.
    - by intros [] w.
    - by intros [] w.
    - done. }
  induction R as [|s1 s2 s3 St _ IH]; [done|]. by apply IH, (event_ok s1).
Qed.

(** C4: the data plane's pages of a process are those of the windows it holds: every
    page-table entry over a plane area maps the page of the object the window says, of a
    slot that has the window as its current one or of the thread's last port call; and it is
    writable only when an output slot has it as its current window, which a put, a detach
    or the next get takes out of the slot.  Windows are mapped while no mapping of their process
    lies across [MAP_BASE] (see [VmPlane.straddling_map_hides]). *)
Theorem plane_entries_held s p pr q it (perm : Z) b :
  u64 total → sys_reachable total s → procs s !! p = Some pr → aligned q →
  cursor_query (vm (p_space pr)) q = Some it →
  view (areas (p_space pr)) q = Some (Plane, perm, b) →
  ∃ h w f, held s h = Some w ∧ w_pid w = p ∧ w_addr w ≤ q < w_addr w + w_span w ∧
    it = Ram f (page_flags (plane_prot (w_write w))) ∧
    frames (w_mem w) !! Z.to_nat (w_first w + (q - w_addr w) / PAGE_SIZE) = Some f ∧
    (grants it Write = true →
     ∃ k sl mp, h = inl k ∧ slots s !! k = Some sl ∧ output sl = true ∧
       current (state sl) = Some mp ∧ w = win_of sl mp).
Proof.
  intros Hl I%reachable_sys_ok Hp Aq Hq Hv; [|done].
  destruct (proc_space _ _ _ I Hp) as [Sp _]. pose proof (so_areas _ _ _ _ Sp) as A. simpl in A.
  apply view_Some in Hv as (k & a & G & Hk & [= Ek -> ->]); [|done].
  destruct (wo_held _ _ (sy_windows _ I) _ _ _ _ Hp G (eq_sym Ek)) as (Hd & h & w & Hw & Hpid & Haddr).
  pose proof (wo_mapped _ _ (sy_windows _ I) h w pr Hw) as G'. rewrite Hpid, Haddr, G in G'.
  specialize (G' Hp Hd). injection G' as ->. simpl in Hk.
  destruct (so_entries _ _ _ _ Sp q it Aq Hq) as (kd & pr1 & b1 & Hv1 & _ & Hit). simpl in Hv1.
  assert (view (areas (p_space pr)) q = Some (page_of q (k, win_area w))) as Hv2.
  { apply view_Some; [done|]. exists k, (win_area w). by split. }
  rewrite Hv2 in Hv1. injection Hv1 as _ <- <-. simpl in Hit.
  destruct it as [f fl|]; [|done]. destruct Hit as [-> Hf].
  pose proof (as_area _ A _ _ G) as [Ak Ae _ _ Htop _ Hb]. simpl in Hb, Ae, Htop. destruct Hb as (H1 & H2 & H3).
  rewrite <- Haddr in *. replace (w_addr w + w_span w - w_addr w) with (w_span w) in H2 by lia.
  assert (w_first w +! (q - w_addr w) / PAGE_SIZE = w_first w + (q - w_addr w) / PAGE_SIZE) as Ew.
  { assert ((q - w_addr w) / PAGE_SIZE ≤ w_span w / PAGE_SIZE) by (apply Z.div_le_mono; [done|lia]).
    assert (0 ≤ (q - w_addr w) / PAGE_SIZE) by (apply Z.div_pos; [lia|done]).
    apply wrap_small. unfold in_width. lia. }
  rewrite Ew in Hf. exists h, w, f. split_and!; try done; try lia.
  intros Hg. destruct h as [k'|t]; simpl in Hw.
  - destruct (slots s !! k') as [sl|] eqn:Hk'; [|done]. simpl in Hw.
    destruct (current (state sl)) as [mp|] eqn:Hc; [|done]. injection Hw as <-.
    exists k', sl, mp. split_and!; try done. simpl in Hg. by destruct (output sl).
  - destruct (replies s !! t) as [[p' [[a' n'] mo]]|]; [|done]. by injection Hw as <-.
Qed.

(** The window the task has is there to be handed back. *)
Lemma put_succeeds p at_ n c mp :
  output (slot c) = true → current (state (slot c)) = Some mp → mapper mp = p → n ≠ 0 →
  0 ≤ n → addr mp ≤ at_ → at_ mod PAGE_SIZE = 0 → at_ - addr mp + n ≤ len (entry mp) →
  u64 (len (entry mp)) →
  (unmap_plane (addr mp) (span mp) (memory (entry mp)) (mach c)).1 = Ok tt →
  (put p at_ n c).1 = Ok tt.
Proof.
  intros Ho Hc <- Hn H0 Ha Hm Hle Hu Eu. unfold put, get_output, get_state, gets, lift, fail.
  unfold mbind at 1, M_bind at 1. rewrite Ho. simpl.
  unfold mbind at 1, M_bind at 1. rewrite Hc. rewrite Nat.eqb_refl. simpl.
  destruct (Z.eqb_spec n 0); [done|]. unfold is_multiple_of. rewrite Hm. simpl.
  unfold mbind at 1, M_bind at 1. unfold checked_sub. destruct (Z.leb_spec (addr mp) at_); [|lia]. simpl.
  unfold checked_add. change (umax 64) with (2 ^ 64 - 1). unfold in_width in Hu.
  destruct (Z.leb_spec (at_ - addr mp + n) (2 ^ 64 - 1)); [|lia].
  destruct (Z.ltb_spec (len (entry mp)) (at_ - addr mp + n)); [lia|].
  unfold mbind at 1, M_bind at 1, in_space.
  destruct (unmap_plane _ _ _ (mach c)) as [ru m']. simpl in Eu. subst ru. simpl.
  done.
Qed.

(** C15: [batch_put] hands a record to the engine after its window has left the task: for any
    record inside the window a live process has mapped, the call succeeds, queues exactly the
    event that names the record's place in the object, and no page of the window is mapped in
    the process any more, in its areas or in its page table.  The window was mapped, as all
    are, while no mapping of its process lay across [MAP_BASE]. *)
Theorem put_takes_window s p pr k sl mp at_ n :
  u64 total → sys_reachable total s → procs s !! p = Some pr → p_dead pr = false →
  slots s !! k = Some sl → output sl = true → current (state sl) = Some mp → mapper mp = p →
  0 < n → addr mp ≤ at_ → at_ mod PAGE_SIZE = 0 → at_ - addr mp + n ≤ len (entry mp) →
  ∃ s' pr' sl', on_slot k p (put p at_ n) s = Some (Ok tt, s') ∧
    procs s' !! p = Some pr' ∧ slots s' !! k = Some sl' ∧ current (state sl') = None ∧
    events (state sl') = events (state sl) ++ [Put (entry mp) (offset (entry mp) + (at_ - addr mp)) n] ∧
    ∀ q, aligned q → addr mp ≤ q < addr mp + span mp →
      view (areas (p_space pr')) q = None ∧ cursor_query (vm (p_space pr')) q = None.
Proof.
  intros Hl I%reachable_sys_ok Hp Hd Hk Ho Hc Hmp Hn Ha Hm Hle; [|done].
  destruct (proc_space _ _ _ I Hp) as [Sp _]. pose proof (sy_slots _ I _ _ Hk) as S.
  destruct (ss_current _ S _ Hc) as [Es Esp].
  assert (held s (inl k) = Some (win_of sl mp)) as Hh by (by rewrite (held_slot _ _ _ Hk), Hc).
  destruct (unmap_plane (addr mp) (span mp) (memory (entry mp)) (machine_of s pr)) as [ru m'] eqn:Eu.
  destruct (window_unmapped _ _ _ _ pr (machine_of s pr) ru m' (sy_windows _ I) Hh) as (Hr & _ & U1 & U2);
    [by rewrite <- Hmp in Hp|done|done|]. rewrite Hd in Hr. subst ru. simpl in U1, U2.
  set (c := mk_Ctx sl (machine_of s pr) []).
  destruct Es as ((_ & _ & _ & _ & n' & En' & Hs) & Uo & Ul & Hobj). rewrite Esp in En'. injection En' as <-.
  assert ((put p at_ n c).1 = Ok tt) as Hput.
  { apply (put_succeeds p at_ n c mp); try done; try lia. simpl. by rewrite Eu. }
  destruct (put p at_ n c) as [rp c'] eqn:Ep. simpl in Hput. subst rp.
  destruct (put_spec _ _ _ c _ _ (ss_signals _ S) Ep)
    as (mp' & Hc' & _ & _ & _ & _ & _ & _ & Eu' & Est & _). simpl in Hc', Eu'.
  rewrite Hc in Hc'. injection Hc' as <-. rewrite Eu in Eu'. injection Eu' as ->.
  eexists _, _, _. split.
  { unfold on_slot. rewrite Hk, Hp. simpl. fold c. rewrite Ep. reflexivity. }
  split; [simpl; by rewrite lookup_insert_eq|]. split; [simpl; by rewrite lookup_insert_eq|].
  rewrite Est. split; [done|]. split.
  - simpl. do 3 f_equal. apply wrap_small. unfold in_width in *. rewrite object_size in Hs by done.
    unfold object_ok in Hobj. change limits.MEMORY_MAX_BYTES with 268435456 in Hobj.
    destruct (pages_round _ _ Ul Esp) as (_ & Hr & _). lia.
  - destruct (unmap_plane_sound _ _ _ _ _ _ _ _ _ Sp U1 U2 Eu) as (_ & e & a & f & wr & Er & _ & _ & _ & _ & L).
    destruct (check_range_spec _ _ _ U1 U2 Er) as (_ & _ & _ & -> & _).
    intros q Aq Hq. destruct (L q Aq) as [L1 L2]. simpl.
    assert ((addr mp <=? q) && (q <? addr mp + span mp) = true) as Ew
      by (by destruct (Z.leb_spec (addr mp) q), (Z.ltb_spec q (addr mp + span mp)); try lia).
    rewrite Ew in L1, L2. done.
Qed.

(** A turn of [get] with something to get, or killed, ends the call. *)
Lemma turn_breaks killed p t c :
  slot_sound (slot c) → task_ready (state (slot c)) = true ∨ killed = true →
  ∃ b c', get_turn killed p t true c = (Ok (Break b), c').
Proof.
  intros S H. destruct (get_turn killed p t true c) as [r c'] eqn:E. exists (if r is Ok (Break b) then b else Err BadState), c'.
  f_equal. destruct (get_turn_spec _ _ _ _ _ _ _ (ss_signals _ S) E)
    as [(b & -> & _)|(-> & Ee & c1 & Hc & En)]; [done|].
  destruct H as [H|H]; [|done]. destruct (cleared_kept _ _ _ S Hc) as ((S1 & _) & _ & _ & Er).
  assert (closed (state (slot c1)) = closed (state (slot c))) as Ec.
  { destruct Hc as [[_ ->]|(mp & _ & _ & _ & _ & -> & _)]; done. }
  pose proof (next_turn_spec _ _ _ _ _ _ (ss_signals _ S1) En) as N.
  unfold task_ready in H. rewrite Ee, orb_false_r in H.
  destruct (ready (state (slot c1))) as [|e rest].
  - rewrite <- Er in H. simpl in H. rewrite Ec, H in N. by destruct N as (_ & _ & -> & _).
  - pose proof (map_next_spec _ _ _ _ _ _ (ss_signals _ S1) N) as P.
    destruct (pages (len e)); [|by destruct P as [-> _]]. destruct P as [_ P].
    destruct (map_plane _ _ _ _ _).1; by destruct P as [-> _].
Qed.

(** C5: no wake-up is lost in [batch_get]. Whenever a thread sleeps in a slot that has an
    entry for it, that the engine has closed or whose task has ended, or the thread has been
    killed, its waker has been woken: its wait ends, and the turn it then takes leaves the
    call, whatever happened to the machine meanwhile.  Windows are mapped while no mapping of
    their process lies across [MAP_BASE]. *)
Theorem get_never_sleeps_on s t th k sl :
  u64 total → sys_reachable total s → threads s !! t = Some th → t_pc th = Blocked k →
  slots s !! k = Some sl → task_ready (state sl) = true ∨ t_kill th = Killed →
  t_woken th = true ∧
  event s (put_thread t (set_woken false (set_pc (InGet k true) (t_waker th) th)) s) ∧
  ∀ m, ∃ b c', get_turn (killed th) (t_process th) t true (mk_Ctx sl m []) = (Ok (Break b), c').
Proof.
  intros Hl I%reachable_sys_ok Ht Hpc Hk H; [|done].
  assert (t_woken th = true) as Hw.
  { destruct (t_woken th) eqn:Hw; [done|]. exfalso.
    destruct (to_blocked _ _ _ (sy_threads _ I _ _ Ht) k sl Hpc Hk Hw) as [H1 H2].
    destruct H as [H|H]; congruence. }
  split; [done|]. split; [by eapply ev_wait_ends|]. intros m.
  apply turn_breaks; [by apply (sy_slots _ I k)|]. destruct H as [H|H]; [by left|right].
  unfold killed. by rewrite H.
Qed.

End safe.
