(* ===== verification/SlotRun.v ===== *)
(** * A slot at work

    The theorems of the kernel's slots at states a system reaches: a process of one thread
    and an output slot are made, the thread waits in the slot, the engine pushes an object,
    the thread wakes, has the object mapped and puts a record of it. *)

From S2P Require Import Prelude Abi Quota Account BTree Vm VmAreas VmEntries VmInv VmCalls VmSteps VmRun VmPlane Signal Slots SlotInv SlotPlane SlotSys SlotSafe.
Lemma reach_event s s' : sys_reachable gib s → event s s' → sys_reachable gib s'.
Proof. intros (h & R) St. exists h. by eapply rtc_r. Qed.

Definition after {A} (o : option (result Error A * Sys)) (s : Sys) : Sys :=
  if o is Some (_, s') then s' else s.

Lemma after_Some {A} (o : option (result Error A * Sys)) s r :
  fst <$> o = Some r → o = Some (r, after o s).
Proof. destruct o as [[]|]; [|done]. by intros [= ->]. Qed.

(** ** The system is set up *)

Definition y0 : Sys := boot gib [].
Definition y1 : Sys := put_machine 1 s0 [] false y0.

Definition made : result Error Slot * World := slot_new slot_flags.OUTPUT 0 true w0.
Definition out_slot : Slot :=
  match made.1 with
  | Ok sl => sl
  | Err _ => mk_Slot false new_state (Signaller.new 0) (Signaller.new 0) 0
  end.

Lemma out_slot_made : slot_new slot_flags.OUTPUT 0 true w0 = (Ok out_slot, made.2).
Proof.
  apply pair_of. fold made. unfold out_slot.
  assert (match made.1 with Ok _ => true | Err _ => false end = true) as H by (vm_compute; reflexivity).
  by destruct made.1.
Qed.

Definition y2 : Sys := put_slot 2 out_slot [] (put_world made.2 [] y1).
Definition y3 : Sys := put_thread 3 (mk_Thread 1 Alive false false Idle) y2.

Lemma y3_reachable : sys_reachable gib y3.
Proof.
  assert (sys_reachable gib y0) as R0 by (exists []; apply rtc_refl).
  assert (sys_reachable gib y1) as R1.
  { apply (reach_event _ _ R0). apply (ev_new_process y0 1 0 x0 w0); [done|by intros []|by eexists|exact x0_made]. }
  assert (sys_reachable gib y2) as R2.
  { apply (reach_event _ _ R1). apply (ev_new_slot y1 2 slot_flags.OUTPUT 0 true); [done| |].
    - assert (bool_decide (is_Some (accounts w0 !! 0%nat)) = true) as H by (vm_compute; reflexivity).
      exact (proj1 (bool_decide_eq_true _) H).
    - exact out_slot_made. }
  by apply (reach_event _ _ R2), ev_new_thread.
Qed.

(** ** A thread gets *)

Definition started : Thread := mk_Thread 1 Alive false false (InGet 2 false).
Definition watched : Thread := mk_Thread 1 Alive true false (InGet 2 true).
Definition asleep : Thread := mk_Thread 1 Alive true false (Blocked 2).

(** A turn of thread [th], which has number 3. *)
Definition turn (th : Thread) (watching : bool) (s : Sys) :
    option (result Error Turn * Sys) :=
  on_slot 2 1 (get_turn (killed th) 1 3 watching) s.

Definition y4 : Sys := put_thread 3 started y3.
Definition y5 : Sys := put_thread 3 watched (after (turn started false y4) y4).
Definition y6 : Sys := put_thread 3 asleep (after (turn watched true y5) y5).

(** A live process none of whose areas lies across [MAP_BASE]. *)
Definition sound_process (pr : Proc) : bool :=
  negb (p_dead pr) && forallb (λ e, (MAP_BASE <=? e.1) || (a_end e.2 <=? MAP_BASE)) (areas (p_space pr)).

Lemma live_1 s : sound_process <$> procs s !! 1%nat = Some true →
  ∃ pr, procs s !! 1%nat = Some pr ∧ p_dead pr = false ∧ unstraddled (areas (p_space pr)).
Proof.
  intros (pr & Hp & Hd)%fmap_Some. exists pr. symmetry in Hd. apply andb_true_iff in Hd as [Hd Hu].
  split; [done|]. split; [by destruct (p_dead pr)|by apply unstraddled_list].
Qed.

Lemma turn_reachable s th watching u th1 s1 :
  sys_reachable gib s → threads s !! 3%nat = Some th → t_process th = 1%nat →
  t_pc th = InGet 2 watching → sound_process <$> procs s !! 1%nat = Some true →
  fst <$> turn th watching s = Some (Ok u) → threads (after (turn th watching s) s) !! 3%nat = Some th1 →
  s1 = put_thread 3 (turned 2 watching u th1) (after (turn th watching s) s) →
  sys_reachable gib s1.
Proof.
  intros R Ht Hp Hpc (pr & Hpr & Hd & Hs)%live_1 Hu H1 ->. apply (reach_event _ _ R).
  eapply ev_get_turn; rewrite ?Hp; [done|done|done|done|by right|by apply after_Some|done].
Qed.

Lemma y6_reachable : sys_reachable gib y6.
Proof.
  assert (sys_reachable gib y4) as R4.
  { apply (reach_event _ _ y3_reachable).
    apply (ev_get_start y3 3 (mk_Thread 1 Alive false false Idle) 2); [by vm_compute|done|].
    assert (bool_decide (is_Some (slots y3 !! 2%nat)) = true) as H by (vm_compute; reflexivity).
    exact (proj1 (bool_decide_eq_true _) H). }
  assert (sys_reachable gib y5) as R5.
  { apply (turn_reachable y4 started false Continue started _ R4);
      [by vm_compute|done|done|by vm_compute|by vm_compute|by vm_compute|done]. }
  apply (turn_reachable y5 watched true Wait watched _ R5);
    [by vm_compute|done|done|by vm_compute|by vm_compute|by vm_compute|done].
Qed.

(** ** The engine pushes, and the thread wakes *)

Definition object : MemoryObject := mk_MemoryObject 9 [5%nat; 6%nat].
Definition all_rights : Z := Rights.union (Rights.union Rights.READ Rights.WRITE) Rights.MAP.

Definition pushed : option (result Error unit * Sys) :=
  on_slot 2 1 (push object all_rights 0 8192 77) y6.
Definition y7 : Sys := after pushed y6.
Definition awake : Thread := mk_Thread 1 Alive true true (Blocked 2).

Lemma y7_reachable : sys_reachable gib y7.
Proof.
  apply (reach_event _ _ y6_reachable).
  apply (ev_push y6 2 1 object all_rights 0 8192 77 (Ok tt)); [done|done|done|].
  apply after_Some. by vm_compute.
Qed.

Lemma slot_at {A} s k (f : Slot → A) x :
  f <$> slots s !! k = Some x → ∃ sl, slots s !! k = Some sl ∧ f sl = x.
Proof. intros (sl & Hk & Hf)%fmap_Some. by exists sl. Qed.

(** The engine's push woke the thread that slept in the slot. *)
Example get_never_sleeps_on_witness :
  ∃ sl, slots y7 !! 2%nat = Some sl ∧ t_woken awake = true ∧
  ∀ m, ∃ b c', get_turn (killed awake) (t_process awake) 3 true (mk_Ctx sl m []) = (Ok (Break b), c').
Proof.
  assert (threads y7 !! 3%nat = Some awake) as Ht by (vm_compute; reflexivity).
  assert (t_pc awake = Blocked 2) as Hpc by reflexivity.
  assert ((λ sl, task_ready (state sl)) <$> slots y7 !! 2%nat = Some true) as Hs by (vm_compute; reflexivity).
  apply slot_at in Hs as (sl & Hk & Hr). exists sl. split; [exact Hk|].
  destruct (get_never_sleeps_on gib y7 3 awake 2 sl gib_u64 y7_reachable Ht Hpc Hk (or_introl Hr))
    as (Hw & _ & Hb).
  split; [exact Hw|exact Hb].
Defined.

(** ** The object is mapped, and a record of it put *)

Definition again : Thread := mk_Thread 1 Alive true false (InGet 2 true).
Definition y8 : Sys := put_thread 3 again y7.
(** The slot has nothing more, which its signal says. *)
Definition poked : Thread := mk_Thread 1 Alive true true (InGet 2 true).
Definition got : Turn := Break (Ok (heap, 8192)).
Definition y9 : Sys := put_thread 3 (turned 2 true got poked) (after (turn again true y8) y8).

Lemma y9_reachable : sys_reachable gib y9.
Proof.
  assert (sys_reachable gib y8) as R8.
  { apply (reach_event _ _ y7_reachable). apply (ev_wait_ends y7 3 awake 2); [by vm_compute|done|done]. }
  apply (turn_reachable y8 again true got poked _ R8);
    [by vm_compute|done|done|by vm_compute|by vm_compute|by vm_compute|done].
Qed.

Definition window_entry : Item UFrame IoMem := @Ram UFrame IoMem 6%nat (page_flags rw).

(** The second page of the window. *)
Example plane_entries_held_witness :
  ∃ h w, held y9 h = Some w ∧ w_pid w = 1%nat ∧ ∃ k sl, h = inl k ∧ slots y9 !! k = Some sl ∧ output sl = true.
Proof.
  assert (aligned (heap + 4096)) as Ha by done.
  assert ((λ pr, cursor_query (vm (p_space pr)) (heap + 4096)) <$> procs y9 !! 1%nat
          = Some (Some window_entry)) as H1 by (vm_compute; reflexivity).
  assert ((λ pr, (λ '(k, p, _), (k, p)) <$> view (areas (p_space pr)) (heap + 4096)) <$> procs y9 !! 1%nat
          = Some (Some (Vm.Plane, rw))) as H2 by (vm_compute; reflexivity).
  destruct (procs y9 !! 1%nat) as [pr|] eqn:Hp; [|discriminate H1].
  injection H1 as H1. injection H2 as H2.
  destruct (view (areas (p_space pr)) (heap + 4096)) as [[[k p] b]|] eqn:Hv; [|discriminate H2].
  injection H2 as -> ->.
  destruct (plane_entries_held gib y9 1 pr (heap + 4096) window_entry rw b gib_u64 y9_reachable
    Hp Ha H1 Hv) as (h & w & f & Hh & Hw & _ & _ & _ & Hg).
  exists h, w. split; [exact Hh|]. split; [exact Hw|].
  destruct (Hg eq_refl) as (k & sl & mp & -> & Hk & Ho & _).
  exists k, sl. exact (conj eq_refl (conj Hk Ho)).
Defined.

(** A record of its first hundred bytes. *)
Example put_takes_window_witness :
  ∃ s' pr', on_slot 2 1 (put 1 heap 100) y9 = Some (Ok tt, s') ∧ procs s' !! 1%nat = Some pr' ∧
    cursor_query (vm (p_space pr')) (heap + 4096) = None.
Proof.
  assert ((λ sl, (output sl, (λ mp, (mapper mp, addr mp, span mp, Slots.len (entry mp))) <$> current (state sl)))
          <$> slots y9 !! 2%nat = Some (true, Some (1%nat, heap, 8192, 8192))) as Hs by (vm_compute; reflexivity).
  assert (sound_process <$> procs y9 !! 1%nat = Some true) as Hd by (vm_compute; reflexivity).
  assert (0 < 100) as H0 by lia. assert (heap `mod` PAGE_SIZE = 0) as H2 by done.
  apply live_1 in Hd as (pr & Hp & Hd & _).
  apply slot_at in Hs as (sl & Hk & Hs). injection Hs as Ho Hc.
  destruct (current (state sl)) as [mp|] eqn:Ec; [|discriminate Hc].
  injection Hc as Hm Ha Hsp Hl.
  assert (addr mp ≤ heap) as H1 by (rewrite Ha; lia).
  assert (addr mp ≤ heap + 4096 < addr mp + span mp) as H4 by (rewrite Ha, Hsp; lia).
  assert (heap - addr mp + 100 ≤ Slots.len (entry mp)) as H3 by (rewrite Ha, Hl; lia).
  destruct (put_takes_window gib y9 1 pr 2 sl mp heap 100 gib_u64 y9_reachable Hp Hd Hk Ho Ec Hm
    H0 H1 H2 H3) as (s' & pr' & sl' & E & Hp' & _ & _ & _ & Hq).
  exists s', pr'. split; [exact E|]. split; [exact Hp'|].
  exact (proj2 (Hq (heap + 4096) eq_refl H4)).
Defined.

(** ** One slot, and a plane of two *)

(** The task's object and one more queued for it. *)
Definition c1 : Ctx := (push object all_rights 0 8192 77 (mk_Ctx out_slot s0 [])).2.
Definition c2 : Ctx := (push object all_rights 4096 4096 78 c1).2.

Example slot_fifo_witness :
  cookie <$> ready (state (slot c2)) = [77; 78] ∧
  Signals.contains (bits (engine (slot c2))) Signals.WRITABLE = true.
Proof.
  assert (push object all_rights 0 8192 77 (mk_Ctx out_slot s0 []) = (Ok tt, c1)) as E1
    by (apply pair_of; vm_compute; reflexivity).
  assert (push object all_rights 4096 4096 78 c1 = (Ok tt, c2)) as E2 by (apply pair_of; vm_compute; reflexivity).
  assert (length (events (state (slot c2))) = 0%nat) as Ee by (vm_compute; reflexivity).
  assert (addr <$> current (state (slot c2)) = None) as Ec by (vm_compute; reflexivity).
  apply nil_length_inv in Ee. apply fmap_None in Ec.
  assert (negb (closed (state (slot c2))) && negb (ended (state (slot c2))) &&
    (in_flight (state (slot c2)) <? limits.SLOT_DEPTH) = true) as Ew by (vm_compute; reflexivity).
  destruct (slot_fifo _ _ _ (run_push _ _ c1 _ _ _ _ _ _ (run_push _ _ (mk_Ctx out_slot s0 [])
    _ _ _ _ _ _ (run_new _ _ _ _ _ _ out_slot_made) E1) E2)) as (F & _ & _ & W & _).
  rewrite Ee, Ec in F. split; [symmetry; exact F|]. rewrite W. exact Ew.
Defined.

(** Another process is given slot 3 while this one binds 2 and 3: 2 is free again. *)
Definition both : gmap nat Slot := {[2%nat := out_slot; 3%nat := out_slot]}.
Definition taken_by (t : nat) : gmap nat Slot → gmap nat Slot := alter (given t 0) 3%nat.

Example bind_all_or_none_witness :
  ∃ st', bind 1 s0 [2%nat; 3%nat] true (taken_by 8) both = Some (Err BadState, st') ∧
  attached ∘ state <$> st' !! 2%nat = Some false.
Proof.
  assert (fst <$> bind 1 s0 [2%nat; 3%nat] true (taken_by 8) both = Some (Err BadState)) as E
    by (vm_compute; reflexivity).
  assert (attached ∘ state <$> taken_by 8 both !! 2%nat = Some false) as Ef by (vm_compute; reflexivity).
  assert (bool_decide (attached ∘ state <$> both !! 2%nat = Some false) = true) as Ef' by (vm_compute; reflexivity).
  destruct (bind 1 s0 [2%nat; 3%nat] true (taken_by 8) both) as [[r st']|] eqn:Eb; [|discriminate E].
  injection E as ->. exists st'. split; [reflexivity|].
  destruct (bind_all_or_none 1 s0 _ true (taken_by 8) both _ st' Eb) as [->|[_ H]].
  - exact (proj1 (bool_decide_eq_true _) Ef').
  - rewrite (proj1 (H 2%nat)). exact Ef.
Defined.
