(* ===== verification/PlanePort.v ===== *)
(** * The data-plane port

    [src/kernel/plane/core/src/port.rs] and [calls.rs]: the names the engine moves
    batches by, what it learns from the plane, why the plane refuses, and the kernel
    calls the plane is built on as a type class whose instances are a kernel's. *)

From S2P Require Import Prelude Abi.
(** ** Names, events and errors *)

(** [TaskId], [BatchId] are their numbers. *)
Abbreviation TaskId := Z (only parsing).
Abbreviation BatchId := Z (only parsing).

Record CallId := mk_CallId { c_task : TaskId; c_token : Z }.

Record Shape := mk_Shape { sh_inputs : Z; sh_outputs : Z; sh_port : bool }.

Module Event.
Inductive t :=
| Put (task : TaskId) (output : Z) (batch : BatchId) (rows bytes : Z)
| Released (task : TaskId) (input : Z) (batch : BatchId)
| Freed (batch : BatchId)
| Refused (task : TaskId) (output : Z) (reason : text)
| Call (call : CallId) (port : Z) (request : list byte)
| Ended (task : TaskId).
End Event.

Module PlaneError.
Inductive t :=
| Unknown (what : string)
| Budget (asked free : Z)
| Full
| Closed
| Limit (what : string)
| Kernel (e : Error)
| Refused (reason : text).
End PlaneError.

Record Residency := mk_Residency {
  r_budget : Z; r_made : Z; r_resident : Z; r_batches : Z;
  r_shares : Z; r_windows : Z; r_pooled : Z
}.

(** ** The kernel's calls *)

Inductive Taken (Memory : Type) :=
| Released (cookie : Z)
| Put (cookie : Z) (memory : Memory) (offset len : Z)
| Returned (cookie : Z) (memory : Memory).
Arguments Released {_} _.
Arguments Put {_} _ _ _ _.
Arguments Returned {_} _ _.

Module Ready.
Inductive t := Something | TimedOut.
End Ready.

(** [Calls]: what a call does is a function of the kernel's state [S]. *)
Class Calls (S Memory Slot Channel : Type) := {
  memory : Z → M S Error Memory;
  share : Memory → M S Error Memory;
  read : Memory → Z → Z → M S Error (list byte);
  write : Memory → Z → list byte → M S Error unit;
  slot : bool → M S Error Slot;
  push : Slot → Memory → Z → Z → Z → M S (Error * Memory) unit;
  take : Slot → M S Error (Taken Memory);
  close : Slot → M S Error unit;
  refuse : Slot → text → M S Error unit;
  channel : M S Error (Channel * Channel);
  receive : Channel → M S Error (list byte);
  send : Channel → list byte → option Memory → M S Error unit;
  wait : list Slot → list Channel → Z → M S Error Ready.t;
}.

(** ** What the kernel promises *)

(** A slot as the engine may know it: which side it is on, the cookies of what was pushed
    and not yet taken back, and whether its task has ended with everything taken. *)
Record entry := mk_entry { e_output : bool; e_cookies : list Z; e_over : bool }.

Definition cookie {Mem} (x : Taken Mem) : Z :=
  match x with Released c | Put c _ _ _ | Returned c _ => c end.

Definition is_released {Mem} (x : Taken Mem) : bool :=
  match x with Released _ => true | _ => false end.

(** The same slots, with their cookies in any order, and perhaps more of them over. *)
Definition later (m m' : gmap Z entry) : Prop :=
  ∀ i, match m !! i, m' !! i with
       | Some e, Some e' =>
           e_output e' = e_output e ∧ e_cookies e' ≡ₚ e_cookies e ∧
           (e_over e = true → e_over e' = true)
       | None, None => True
       | _, _ => False
       end.

Lemma later_refl m : later m m.
Proof. intros i. by destruct (m !! i). Qed.

Lemma later_trans m1 m2 m3 : later m1 m2 → later m2 m3 → later m1 m3.
Proof.
  intros H1 H2 i. specialize (H1 i). specialize (H2 i).
  destruct (m1 !! i), (m2 !! i), (m3 !! i); try done.
  destruct H1 as (E1 & P1 & O1), H2 as (E2 & P2 & O2).
  split; [congruence|]. split; [by rewrite P2, P1|auto].
Qed.

(** The documented behaviour of the calls (SDD 29): what is pushed into a slot comes back
    from it once; an input slot gives back releases and an output slot its windows; a
    slot answers [PeerClosed] once its task has ended and everything came back; no other
    call touches a slot.  [kernel_ok] is what a kernel relies on of its own state,
    [messages] counts the port requests waiting to be received, and [task_step] is what
    the tasks do between the engine's calls. *)
Class CallsLaws (S Mem Slot Channel : Type) `{!Calls S Mem Slot Channel} := {
  slot_id : Slot → Z;
  slots_of : S → gmap Z entry;
  messages : S → nat;
  kernel_ok : S → Prop;
  task_step : S → S → Prop;
  over_empty s i e : slots_of s !! i = Some e → e_over e = true → e_cookies e = [];
  (** A call that leaves every slot as it was. *)
  quiet (s s' : S) : Prop := slots_of s' = slots_of s ∧ (kernel_ok s → kernel_ok s');
  memory_quiet n s : quiet s (memory n s).2;
  share_quiet m s : quiet s (share m s).2;
  read_quiet m o k s : quiet s (read m o k s).2;
  write_quiet m o l s : quiet s (write m o l s).2;
  close_quiet sl s : quiet s (close sl s).2;
  refuse_quiet sl r s : quiet s (refuse sl r s).2;
  channel_quiet s : quiet s (channel s).2;
  receive_quiet c s : quiet s (receive c s).2;
  send_quiet c l m s : quiet s (send c l m s).2;
  wait_quiet ss cs d s : quiet s (wait ss cs d s).2;
  slot_law out s :
    match slot out s with
    | (Ok sl, s') => slots_of s !! slot_id sl = None ∧
        slots_of s' = <[slot_id sl := mk_entry out [] false]> (slots_of s) ∧
        (kernel_ok s → kernel_ok s')
    | (Err _, s') => quiet s s'
    end;
  push_law sl m o n c s e :
    kernel_ok s → slots_of s !! slot_id sl = Some e →
    match push sl m o n c s with
    | (Ok _, s') => kernel_ok s' ∧ e_over e = false ∧ ∃ l, l ≡ₚ c :: e_cookies e ∧
        slots_of s' = <[slot_id sl := mk_entry (e_output e) l false]> (slots_of s)
    | (Err (_, m'), s') => m' = m ∧ quiet s s'
    end;
  take_law sl s e :
    kernel_ok s → slots_of s !! slot_id sl = Some e →
    match take sl s with
    | (Ok x, s') => kernel_ok s' ∧ is_released x = negb (e_output e) ∧
        ∃ l o, e_cookies e ≡ₚ cookie x :: l ∧
        slots_of s' = <[slot_id sl := mk_entry (e_output e) l o]> (slots_of s)
    | (Err PeerClosed, s') => e_over e = true ∧ quiet s s'
    | (Err _, s') => quiet s s'
    end;
  read_messages m o k s : messages (read m o k s).2 = messages s;
  refuse_messages sl r s : messages (refuse sl r s).2 = messages s;
  take_messages sl s : messages (take sl s).2 = messages s;
  receive_messages c s :
    match receive c s with
    | (Ok _, s') => (messages s' < messages s)%nat
    | (Err _, s') => messages s' = messages s
    end;
  task_step_later s s' :
    kernel_ok s → task_step s s' → later (slots_of s) (slots_of s') ∧ kernel_ok s';
}.
