(* ===== verification/PlaneArena.v ===== *)
(** * The arena of the data plane

    [src/kernel/plane/core/src/arena.rs]: the memory objects batches and windows live in,
    within a budget, and the pool a window is granted from.  An arena's objects are a
    finite map and its pool a list, as the [BTreeMap] and the [Vec] of the code; the
    closure [take] makes an object with is an argument that runs over a state of its own.
    The theorems show what [take] gives and refuses, that the budget is never passed, and
    that a refusal means the bytes held by batches and windows leave no room. *)

From S2P Require Import Prelude Abi PlanePort.
Definition PAGE : Z := PAGE_SIZE.

(** [bytes] rounded up to whole pages. *)
Definition pages (bytes : Z) : option Z :=
  (λ b, Z.land b (wnot 64 (PAGE - 1))) <$> checked_add 64 bytes (PAGE - 1).

Record Object (Mem : Type) := mk_Object { handle : option Mem; bytes : Z }.
Arguments mk_Object {_} _ _.
Arguments handle {_} _.
Arguments bytes {_} _.

Record Arena (Mem : Type) := mk_Arena {
  budget : Z;
  made : Z;
  objects : gmap Z (Object Mem);
  pool : list Z;
  next : Z;
}.
Arguments mk_Arena {_} _ _ _ _ _.
Arguments budget {_} _.
Arguments made {_} _.
Arguments objects {_} _.
Arguments pool {_} _.
Arguments next {_} _.

Module Arena.
Section arena.
Context {Mem : Type}.
Implicit Types a : Arena Mem.

Definition new (budget : Z) : Arena Mem := mk_Arena budget 0 ∅ [] 1.

Definition set_objects (os : gmap Z (Object Mem)) a : Arena Mem :=
  mk_Arena (budget a) (made a) os (pool a) (next a).
Definition set_pool (p : list Z) a : Arena Mem :=
  mk_Arena (budget a) (made a) (objects a) p (next a).

(** [self.objects.get(id).map_or(0, |o| o.bytes)]; the size of an object. *)
Definition size_of a (id : Z) : Z :=
  match objects a !! id with Some o => bytes o | None => 0 end.

Definition pooled a : Z :=
  foldl (wadd 64) 0 (bytes <$> omap (λ id, objects a !! id) (pool a)).

(** The smallest pooled object of at least [size]: its place, its id and its size. *)
Definition best a (size : Z) : option (nat * Z * Z) :=
  min_by_key (λ '(_, _, b), b)
    (List.filter (λ '(_, _, b), size <=? b)
      (omap (λ '(i, id), (λ o, (i, id, bytes o)) <$> objects a !! id) (enumerate (pool a)))).

(** The pooled object [reclaim] gives up next. *)
Definition largest a : option (nat * Z) :=
  max_by_key (λ '(_, id), size_of a id) (enumerate (pool a)).

(** One round of [reclaim]'s loop; [None] when it returns. *)
Definition reclaim_round a (size : Z) : option (Arena Mem) :=
  if saturating_sub (budget a) (made a) <? size then
    match largest a with
    | None => None
    | Some (i, id) =>
        let a := set_pool (swap_remove (pool a) i) a in
        Some match objects a !! id with
             | Some o => mk_Arena (budget a) (made a -! bytes o) (delete id (objects a))
                           (pool a) (next a)
             | None => a
             end
    end
  else None.

Fixpoint reclaim_loop (fuel : nat) a (size : Z) : option (Arena Mem) :=
  match fuel with
  | O => None
  | S fuel =>
      match reclaim_round a size with
      | None => Some a
      | Some a' => reclaim_loop fuel a' size
      end
  end.

(** Each round takes an id out of the pool, so one more round than the pool is long is
    enough ([reclaim_total]). *)
Definition reclaim (size : Z) a : Arena Mem :=
  default a (reclaim_loop (S (length (pool a))) a size).

Section take.
Context {St : Type}.
Variable make : Z → M St Error Mem.

Definition take_pooled (i : nat) (id have : Z) a : result PlaneError.t (Z * Mem * Z) * Arena Mem :=
  let a := set_pool (swap_remove (pool a) i) a in
  match objects a !! id with
  | Some (mk_Object (Some h) b) =>
      (Ok (id, h, have), set_objects (<[id := mk_Object None b]> (objects a)) a)
  | _ => (Err (PlaneError.Unknown "a pooled object with no handle"), a)
  end.

Definition take_new (size : Z) : M (Arena Mem * St) PlaneError.t (Z * Mem * Z) := λ '(a, s),
  let a := reclaim size a in
  let free := saturating_sub (budget a) (made a) in
  if free <? size then (Err (PlaneError.Budget size free), (a, s))
  else
    match make size s with
    | (Err e, s) => (Err (PlaneError.Kernel e), (a, s))
    | (Ok h, s) =>
        let id := next a in
        (Ok (id, h, size),
         (mk_Arena (budget a) (made a +! size) (<[id := mk_Object None size]> (objects a))
            (pool a) (next a +! 1), s))
    end.

Definition take (want : Z) : M (Arena Mem * St) PlaneError.t (Z * Mem * Z) := λ '(a, s),
  match option_filter (λ l, 0 <? l) (pages want) with
  | None => (Err (PlaneError.Limit "a window of no bytes, or past u64"), (a, s))
  | Some size =>
      match best a size with
      | Some (i, id, have) => let '(r, a) := take_pooled i id have a in (r, (a, s))
      | None => take_new size (a, s)
      end
  end.

End take.

Definition hold (id : Z) (h : Mem) a : result PlaneError.t unit * Arena Mem :=
  match objects a !! id with
  | None => (Err (PlaneError.Unknown "an object the arena did not make"), a)
  | Some o =>
      match handle o with
      | Some _ => (Err (PlaneError.Unknown "an object the arena already holds"), a)
      | None => (Ok tt, set_objects (<[id := mk_Object (Some h) (bytes o)]> (objects a)) a)
      end
  end.

(** [Arena::handle]. *)
Definition handle_of a (id : Z) : option Mem := objects a !! id ≫= handle.

Definition free (id : Z) a : result PlaneError.t unit * Arena Mem :=
  match objects a !! id with
  | None => (Err (PlaneError.Unknown "an object the arena did not make"), a)
  | Some o =>
      match handle o with
      | None => (Err (PlaneError.Unknown "an object a slot still holds"), a)
      | Some _ =>
          (Ok tt, if bool_decide (id ∈ pool a) then a else set_pool (pool a ++ [id]) a)
      end
  end.

Definition retire (id : Z) a : result PlaneError.t Mem * Arena Mem :=
  match objects a !! id with
  | None => (Err (PlaneError.Unknown "an object the arena did not make"), a)
  | Some o =>
      match handle o with
      | None => (Err (PlaneError.Unknown "an object a slot still holds"), a)
      | Some h =>
          (Ok h, mk_Arena (budget a) (made a -! bytes o) (delete id (objects a))
                   (List.filter (λ p, negb (p =? id)) (pool a)) (next a))
      end
  end.

Definition untake (id : Z) (h : Mem) a : result PlaneError.t unit * Arena Mem :=
  match hold id h a with
  | (Err e, a) => (Err e, a)
  | (Ok _, a) => free id a
  end.

End arena.
End Arena.

(** ** What an arena always satisfies *)

Record wf {Mem} (a : Arena Mem) : Prop := {
  wf_budget : u64 (budget a);
  wf_made : made a = map_sum (λ _ o, bytes o) (objects a);
  wf_fits : made a ≤ budget a;
  wf_bytes : ∀ id o, objects a !! id = Some o → 0 < bytes o ∧ bytes o mod PAGE = 0;
  wf_next0 : 0 < next a;
  wf_next : ∀ id, is_Some (objects a !! id) → 0 < id < next a;
  wf_pool : NoDup (pool a);
  wf_pooled : ∀ id, id ∈ pool a →
    ∃ o h, objects a !! id = Some o ∧ handle o = Some h;
}.

(** Bytes of the objects outside the pool: what batches and windows hold. *)
Definition held_bytes {Mem} (a : Arena Mem) : Z :=
  map_sum (λ id o, if decide (id ∈ pool a) then 0 else bytes o) (objects a).

(** What giving up pooled objects keeps. *)
Record shrunk {Mem} (a a' : Arena Mem) : Prop := {
  shrunk_wf : wf a';
  shrunk_budget : budget a' = budget a;
  shrunk_next : next a' = next a;
  shrunk_held : held_bytes a' = held_bytes a;
  shrunk_pool : ∀ id, id ∈ pool a' → id ∈ pool a;
  shrunk_objects : ∀ id, id ∉ pool a ∨ id ∈ pool a' → objects a' !! id = objects a !! id;
  shrunk_gone : ∀ id, id ∈ pool a → id ∉ pool a' → objects a' !! id = None;
}.

(** ** Pages *)

Lemma pages_spec n :
  u64 n →
  match pages n with
  | Some s => n ≤ s < n + PAGE ∧ s mod PAGE = 0 ∧ u64 s
  | None => 2 ^ 64 < n + PAGE
  end.
Proof.
  intros [Hn Hn']. unfold pages.
  destruct (checked_add 64 n (PAGE - 1)) as [b|] eqn:E; simpl.
  - apply checked_add_Some in E as [-> Hlt]. unfold PAGE, PAGE_SIZE in *.
    change (4096 - 1) with (2 ^ 12 - 1) in *.
    rewrite (land_wnot_ones 64 12) by (unfold in_width; lia).
    set (b := n + (2 ^ 12 - 1)) in *.
    pose proof (Z.mod_pos_bound b (2 ^ 12) ltac:(lia)).
    pose proof (Z.div_mod b (2 ^ 12) ltac:(lia)).
    replace (b - b mod 2 ^ 12) with ((b / 2 ^ 12) * 2 ^ 12) by lia.
    change 4096 with (2 ^ 12). split; [lia|]. split; [by apply Z.mod_mul|].
    unfold in_width. lia.
  - apply checked_add_None in E. lia.
Qed.

Section lemmas.
Context {Mem : Type}.
Implicit Types a : Arena Mem.

Lemma shrunk_refl a : wf a → shrunk a a.
Proof. by split. Qed.

Lemma shrunk_trans a b c : shrunk a b → shrunk b c → shrunk a c.
Proof.
  intros [] []. split; try done; try congruence; [by auto|intros id [H|H]|].
  - rewrite shrunk_objects1, shrunk_objects0; [done|by left|]. left. auto.
  - rewrite shrunk_objects1, shrunk_objects0; [done|right; auto|by right].
  - intros id Ha Hc. destruct (decide (id ∈ pool b)); [by auto|].
    rewrite shrunk_objects1; [by auto|by left].
Qed.

Lemma made_lookup a id o : wf a → objects a !! id = Some o → 0 < bytes o ≤ made a.
Proof.
  intros W Ho. split; [by apply (wf_bytes a W id)|]. rewrite (wf_made a W).
  apply (map_sum_lookup_le (λ _ o, bytes o) _ id); [|done].
  intros i p Hp. pose proof (wf_bytes a W i p Hp). lia.
Qed.

Definition outside (p : list Z) (id : Z) (o : Object Mem) : Z :=
  if decide (id ∈ p) then 0 else bytes o.

(** An id that leaves the pool with its object changes nothing outside. *)
Lemma outside_delete (p q : list Z) id (m : gmap Z (Object Mem)) :
  p ≡ₚ id :: q → map_sum (outside q) (delete id m) = map_sum (outside p) (delete id m).
Proof.
  intros P. apply map_sum_ext. intros j o Hj. apply lookup_delete_Some in Hj as [Hne _].
  pose proof (elem_of_Permutation_proper j _ _ P) as E. rewrite elem_of_cons in E.
  unfold outside. destruct (decide (j ∈ q)), (decide (j ∈ p)); naive_solver.
Qed.

Lemma reclaim_round_spec a a' size :
  wf a → Arena.reclaim_round a size = Some a' →
  shrunk a a' ∧ length (pool a) = S (length (pool a')).
Proof.
  intros W. unfold Arena.reclaim_round, Arena.largest. case_if; [|done].
  pose proof (max_by_key_spec (λ '(_, id), Arena.size_of a id) (enumerate (pool a))) as L.
  destruct (max_by_key _ _) as [[i id]|]; [|done].
  destruct L as [L _]. apply elem_of_enumerate in L.
  pose proof (swap_remove_perm _ _ _ L) as P.
  assert (id ∈ pool a) as Hin by (apply (elem_of_Permutation_proper id _ _ P); by left).
  destruct (wf_pooled a W id Hin) as (o & h & Ho & Hh).
  simpl. rewrite Ho. intros [= <-].
  pose proof (made_lookup a id o W Ho) as Hm.
  assert (made a -! bytes o = made a - bytes o) as Em.
  { apply wrap_small. destruct (wf_budget a W). pose proof (wf_fits a W).
    unfold in_width. lia. }
  rewrite Em. pose proof (proj1 (NoDup_Permutation_proper _ _ P) (wf_pool a W)) as ND.
  apply NoDup_cons in ND as [Hnid ND]. split; [|exact (Permutation_length P)].
  assert (∀ j, j ∈ swap_remove (pool a) i → j ∈ pool a) as Hsub.
  { intros j Hj. apply (elem_of_Permutation_proper j _ _ P). by right. }
  split; simpl; try done.
  - split; simpl; try done.
    + apply (wf_budget a W).
    + rewrite (wf_made a W), (map_sum_delete _ (objects a) id o Ho). lia.
    + pose proof (wf_fits a W). lia.
    + intros j p Hp. apply lookup_delete_Some in Hp as [_ Hp]. by apply (wf_bytes a W j).
    + apply (wf_next0 a W).
    + intros j Hj. apply lookup_delete_is_Some in Hj as [_ Hj]. by apply (wf_next a W).
    + intros j Hj. rewrite lookup_delete_ne by congruence. apply (wf_pooled a W). auto.
  - unfold held_bytes. simpl. fold (outside (pool a)) (outside (swap_remove (pool a) i)).
    rewrite (outside_delete _ _ _ _ P), (map_sum_delete (outside (pool a)) (objects a) id o Ho).
    unfold outside at 2. by rewrite decide_True by done.
  - intros j Hj. rewrite lookup_delete_ne; [done|]. intros <-. by destruct Hj.
  - intros j Hj Hnj. apply (elem_of_Permutation_proper j _ _ P), elem_of_cons in Hj as [->|?];
      [apply lookup_delete_eq|done].
Qed.

Lemma reclaim_loop_spec n a size :
  wf a → (length (pool a) < n)%nat →
  ∃ a', Arena.reclaim_loop n a size = Some a' ∧ shrunk a a' ∧
    Arena.reclaim_round a' size = None.
Proof.
  revert a. induction n as [|n IH]; intros a W Hn; [lia|]. simpl.
  destruct (Arena.reclaim_round a size) as [a1|] eqn:E.
  - destruct (reclaim_round_spec a a1 size W E) as [S Hl].
    destruct (IH a1 (shrunk_wf _ _ S)) as (a' & E' & S' & R); [lia|].
    exists a'. split; [done|]. split; [by eapply shrunk_trans|done].
  - exists a. split; [done|]. split; [by apply shrunk_refl|done].
Qed.

(** Giving up pooled objects ends, with room for [size] or an empty pool. *)
Lemma reclaim_total a size :
  wf a → ∃ a', Arena.reclaim_loop (S (length (pool a))) a size = Some a' ∧
    Arena.reclaim size a = a' ∧ shrunk a a' ∧ (size ≤ budget a' - made a' ∨ pool a' = []).
Proof.
  intros W. destruct (reclaim_loop_spec (S (length (pool a))) a size W) as (a' & E & S & R);
    [lia|].
  exists a'. unfold Arena.reclaim. rewrite E. split; [done|]. split; [done|]. split; [done|].
  revert R. unfold Arena.reclaim_round. rewrite saturating_sub_max.
  pose proof (wf_fits a' (shrunk_wf _ _ S)). case_if; [|intros _; left; lia].
  intros R. right. unfold Arena.largest in R.
  pose proof (max_by_key_spec (λ '(_, id), Arena.size_of a' id) (enumerate (pool a'))) as L.
  destruct (max_by_key _ _) as [[i id]|]; [done|].
  unfold enumerate in L. apply (f_equal length) in L. rewrite length_imap in L.
  by apply nil_length_inv.
Qed.

(** ** Taking an object *)

Lemma best_None a size :
  wf a → Arena.best a size = None → ∀ id, id ∈ pool a → Arena.size_of a id < size.
Proof.
  intros W E id Hin. unfold Arena.best in E.
  set (l := List.filter _ _) in E. pose proof (min_by_key_spec (λ '(_, _, b), b) l) as L.
  rewrite E in L. destruct (wf_pooled a W id Hin) as (o & h & Ho & _).
  unfold Arena.size_of. rewrite Ho. apply Z.nle_gt. intros Hle.
  apply list_elem_of_lookup in Hin as [i Hi].
  assert ((i, id, bytes o) ∈ l) as X; [|by rewrite L in X; apply not_elem_of_nil in X].
  unfold l. apply list_elem_of_In, filter_In. split; [|by apply Z.leb_le].
  apply list_elem_of_In, list_elem_of_omap. exists (i, id). rewrite Ho. simpl.
  split; [by apply elem_of_enumerate|done].
Qed.

Lemma best_Some a size i id have :
  wf a → Arena.best a size = Some (i, id, have) →
  pool a !! i = Some id ∧ size ≤ have ∧ Arena.size_of a id = have ∧
  ∀ id', id' ∈ pool a → size ≤ Arena.size_of a id' → have ≤ Arena.size_of a id'.
Proof.
  intros W E. unfold Arena.best in E.
  set (l := List.filter _ _) in E. pose proof (min_by_key_spec (λ '(_, _, b), b) l) as L.
  rewrite E in L. destruct L as [L Hmin].
  assert (∀ j jd b, (j, jd, b) ∈ l ↔
    pool a !! j = Some jd ∧ size ≤ b ∧ bytes <$> objects a !! jd = Some b) as Hl.
  { intros j jd b. unfold l. rewrite list_elem_of_In, filter_In, <-list_elem_of_In.
    rewrite list_elem_of_omap, Z.leb_le. split.
    - intros [([k kd] & Hk & Hb) ?]. apply elem_of_enumerate in Hk.
      destruct (objects a !! kd) eqn:Eo; simpl in Hb; [|done]. injection Hb as <- <- <-.
      by rewrite Eo.
    - intros (? & ? & Hb). split; [|done]. exists (j, jd). rewrite elem_of_enumerate.
      split; [done|]. destruct (objects a !! jd); [|done]. simpl in *. congruence. }
  apply Hl in L as (Hi & Hle & Hb).
  assert (Arena.size_of a id = have) as Hs.
  { unfold Arena.size_of. destruct (objects a !! id); simpl in Hb; congruence. }
  split_and!; try done. intros id' Hin Hle'.
  destruct (wf_pooled a W id' Hin) as (o & h & Ho & _).
  unfold Arena.size_of in *. rewrite Ho in *.
  apply list_elem_of_lookup in Hin as [j Hj].
  apply (Hmin (j, id', bytes o)). apply Hl. by rewrite Ho.
Qed.

(** What [take] of an object of [have] bytes leaves. *)
Record took a (id have : Z) (a' : Arena Mem) : Prop := {
  took_wf : wf a';
  took_budget : budget a' = budget a;
  took_next : next a ≤ next a' ≤ next a + 1;
  took_object : objects a' !! id = Some (mk_Object None have);
  took_pool : ∀ j, j ∈ pool a' → j ∈ pool a ∧ j ≠ id;
  took_held : held_bytes a' = held_bytes a + have;
  took_others : ∀ j, j ≠ id → j ∉ pool a ∨ j ∈ pool a' → objects a' !! j = objects a !! j;
  took_gone : ∀ j, j ≠ id → j ∈ pool a → j ∉ pool a' → objects a' !! j = None;
  took_from : id ∈ pool a ∨ objects a !! id = None;
}.

Lemma take_pooled_spec a i id :
  wf a → pool a !! i = Some id →
  ∃ h a', Arena.take_pooled i id (Arena.size_of a id) a = (Ok (id, h, Arena.size_of a id), a') ∧
    Arena.handle_of a id = Some h ∧ took a id (Arena.size_of a id) a'.
Proof.
  intros W Hi. pose proof (swap_remove_perm _ _ _ Hi) as P.
  assert (id ∈ pool a) as Hin by (apply (elem_of_Permutation_proper id _ _ P); by left).
  destruct (wf_pooled a W id Hin) as ([hh b] & h & Ho & Hh). simpl in Hh. subst hh.
  unfold Arena.take_pooled, Arena.handle_of, Arena.size_of. simpl. rewrite Ho. simpl.
  do 2 eexists. split; [done|]. split; [done|].
  pose proof (proj1 (NoDup_Permutation_proper _ _ P) (wf_pool a W)) as ND.
  apply NoDup_cons in ND as [Hnid ND].
  assert (∀ j, j ∈ swap_remove (pool a) i → j ∈ pool a ∧ j ≠ id) as Hsub.
  { intros j Hj. split; [|by intros ->].
    apply (elem_of_Permutation_proper j _ _ P). by right. }
  split; simpl; try done.
  - split; simpl; try done.
    + apply (wf_budget a W).
    + rewrite (map_sum_update _ _ _ _ _ Ho). simpl. rewrite (wf_made a W). lia.
    + apply (wf_fits a W).
    + intros j p Hp. apply lookup_insert_Some in Hp as [[<- <-]|[_ Hp]].
      * by apply (wf_bytes a W id _ Ho).
      * by apply (wf_bytes a W j).
    + apply (wf_next0 a W).
    + intros j Hj. apply lookup_insert_is_Some' in Hj as [<-|Hj]; apply (wf_next a W); eauto.
    + intros j Hj. destruct (Hsub j Hj) as [Hj' Hne]. rewrite lookup_insert_ne by done.
      by apply (wf_pooled a W).
  - lia.
  - apply lookup_insert_eq.
  - unfold held_bytes. simpl. fold (outside (pool a)) (outside (swap_remove (pool a) i)).
    rewrite (map_sum_update _ _ _ _ _ Ho), !(map_sum_delete _ (objects a) id _ Ho).
    rewrite (outside_delete _ _ _ _ P). unfold outside at 1 3 4 5. simpl.
    rewrite !decide_False, decide_True by done. lia.
  - intros j Hne _. by apply lookup_insert_ne.
  - intros j Hne Hj Hnj.
    apply (elem_of_Permutation_proper j _ _ P), elem_of_cons in Hj as [->|?]; done.
  - by left.
Qed.

Lemma made_split a : wf a → made a = held_bytes a + map_sum (λ id o,
  if decide (id ∈ pool a) then bytes o else 0) (objects a).
Proof.
  intros W. rewrite (wf_made a W). unfold held_bytes. rewrite <-map_sum_add.
  apply map_sum_ext. intros id o _. destruct (decide _); lia.
Qed.

Lemma made_empty_pool a : wf a → pool a = [] → made a = held_bytes a.
Proof.
  intros W E. rewrite (made_split a W), E.
  rewrite (map_sum_ext _ (λ _ _, 0)), map_sum_zero; [lia|].
  intros id o _. by rewrite decide_False by apply not_elem_of_nil.
Qed.

Lemma insert_took a1 a size :
  wf a → shrunk a a1 → 0 < size ≤ budget a1 - made a1 → size mod PAGE = 0 →
  next a + 1 < 2 ^ 64 →
  took a (next a1) size
    (mk_Arena (budget a1) (made a1 +! size) (<[next a1 := mk_Object None size]> (objects a1))
       (pool a1) (next a1 +! 1)).
Proof.
  intros W [W1 Eb En Eh Hp Ho Hg] Hs Hm Hn.
  assert (objects a1 !! next a1 = None) as Fr.
  { destruct (objects a1 !! next a1) eqn:E; [|done].
    pose proof (wf_next a1 W1 (next a1) ltac:(eauto)). lia. }
  assert (next a1 ∉ pool a1) as Fp.
  { intros Hin. destruct (wf_pooled a1 W1 _ Hin) as (o & h & X & _). congruence. }
  pose proof (wf_budget a1 W1) as [Hb Hb']. pose proof (wf_fits a1 W1).
  assert (0 ≤ made a1) as Hm0.
  { rewrite (wf_made a1 W1). apply map_sum_nonneg. intros j o Hj.
    pose proof (wf_bytes a1 W1 j o Hj). lia. }
  assert (made a1 +! size = made a1 + size) as E1.
  { apply wrap_small. unfold in_width. lia. }
  pose proof (wf_next0 a1 W1). assert (next a1 +! 1 = next a1 + 1) as E2.
  { apply wrap_small. unfold in_width. lia. }
  rewrite E1, E2. split; simpl; try done.
  - split; simpl; try done.
    + rewrite map_sum_insert by done. simpl. rewrite (wf_made a1 W1). lia.
    + lia.
    + intros j o Hj. apply lookup_insert_Some in Hj as [[<- <-]|[_ Hj]]; simpl; [lia|].
      by apply (wf_bytes a1 W1 j).
    + lia.
    + intros j Hj. apply lookup_insert_is_Some' in Hj as [<-|Hj]; [lia|].
      pose proof (wf_next a1 W1 j Hj). lia.
    + apply (wf_pool a1 W1).
    + intros j Hj. rewrite lookup_insert_ne by congruence. by apply (wf_pooled a1 W1).
  - lia.
  - apply lookup_insert_eq.
  - intros j Hj. split; [by apply Hp|congruence].
  - unfold held_bytes in *. simpl. rewrite map_sum_insert by done.
    rewrite decide_False by done. simpl. lia.
  - intros j Hne Hj. rewrite lookup_insert_ne by done. by apply Ho.
  - intros j Hne Hj Hnj. rewrite lookup_insert_ne by done. by apply Hg.
  - right. rewrite En. destruct (objects a !! next a) eqn:X; [|done].
    pose proof (wf_next a W (next a) ltac:(eauto)). lia.
Qed.

Section take.
Context {St : Type}.
Variable make : Z → M St Error Mem.

Lemma take_new_spec a s size :
  wf a → 0 < size → size mod PAGE = 0 → next a + 1 < 2 ^ 64 →
  match Arena.take_new make size (a, s) with
  | (Ok (id, h, have), (a', s')) =>
      have = size ∧ make size s = (Ok h, s') ∧ id = next a ∧ took a id size a'
  | (Err e, (a', s')) =>
      shrunk a a' ∧
      ((e = PlaneError.Budget size (budget a - held_bytes a) ∧ s' = s ∧
        budget a - held_bytes a < size) ∨
       (∃ x, e = PlaneError.Kernel x ∧ make size s = (Err x, s')))
  end.
Proof.
  intros W Hs Hm Hn. unfold Arena.take_new.
  destruct (reclaim_total a size W) as (a1 & _ & -> & S & Hor). simpl.
  pose proof (wf_fits a1 (shrunk_wf _ _ S)) as Hf. rewrite saturating_sub_max.
  destruct (Z.ltb_spec (Z.max 0 (budget a1 - made a1)) size) as [Hlt|Hge].
  - split; [done|]. left. destruct Hor as [|Hp]; [lia|].
    rewrite <-(shrunk_held _ _ S), <-(shrunk_budget _ _ S).
    rewrite <-(made_empty_pool a1 (shrunk_wf _ _ S) Hp).
    split; [f_equal; lia|]. split; [done|lia].
  - destruct (make size s) as [[h|x] s'] eqn:E.
    + split; [done|]. split; [done|]. split; [apply (shrunk_next _ _ S)|].
      apply insert_took; try done. lia.
    + split; [done|]. right. by exists x.
Qed.

Lemma take_cases a s want :
  wf a → u64 want → next a + 1 < 2 ^ 64 →
  match Arena.take make want (a, s) with
  | (Ok (id, h, have), (a', s')) =>
      took a id have a' ∧ want ≤ have ∧ (s' = s ∨ ∃ n, s' = (make n s).2)
  | (Err e, (a', s')) =>
      shrunk a a' ∧ (s' = s ∨ ∃ n, s' = (make n s).2) ∧
      match e with
      | PlaneError.Limit _ | PlaneError.Budget _ _ | PlaneError.Kernel _ => True
      | _ => False
      end
  end.
Proof.
  intros W Hw Hn. unfold Arena.take. pose proof (pages_spec want Hw) as P.
  destruct (pages want) as [size|] eqn:Ep; cbn [option_filter].
  2:{ split; [by apply shrunk_refl|]. split; [by left|done]. }
  destruct (Z.ltb_spec 0 size).
  2:{ split; [by apply shrunk_refl|]. split; [by left|done]. }
  destruct P as (P1 & P2 & P3).
  destruct (Arena.best a size) as [[[i id'] have']|] eqn:B.
  - destruct (best_Some _ _ _ _ _ W B) as (Hi & Hle & Hs & Hmin). subst have'.
    destruct (take_pooled_spec a i id' W Hi) as (h' & a1 & -> & Hh & T).
    split; [done|]. split; [lia|by left].
  - pose proof (take_new_spec a s size W ltac:(lia) P2 Hn) as T.
    destruct (Arena.take_new make size (a, s)) as [[[[id h] have]|e] [a' s']].
    + destruct T as (-> & Em & -> & T). split; [done|]. split; [lia|].
      right. exists size. by rewrite Em.
    + destruct T as [S [(-> & -> & _)|(x & -> & Em)]]; (split; [done|]).
      * by split; [left|].
      * split; [|done]. right. exists size. by rewrite Em.
Qed.

End take.

(** ** The other operations *)

Lemma hold_spec a id h o :
  wf a → objects a !! id = Some o → handle o = None →
  ∃ a', Arena.hold id h a = (Ok tt, a') ∧ wf a' ∧ held_bytes a' = held_bytes a ∧
    budget a' = budget a ∧ made a' = made a ∧ next a' = next a ∧ pool a' = pool a ∧
    objects a' = <[id := mk_Object (Some h) (bytes o)]> (objects a).
Proof.
  intros W Ho Hh. unfold Arena.hold. rewrite Ho, Hh. eexists. split; [done|].
  assert (id ∉ pool a) as Hnp.
  { intros Hin. destruct (wf_pooled a W id Hin) as (? & ? & ? & ?). congruence. }
  split; [|split; [|done]].
  - split; simpl; try apply W.
    + rewrite (map_sum_update _ _ _ o) by done. simpl. rewrite (wf_made a W). lia.
    + intros j p Hj. apply lookup_insert_Some in Hj as [[<- <-]|[_ Hj]]; simpl;
        [by apply (wf_bytes a W id)|by apply (wf_bytes a W j)].
    + intros j Hj. apply lookup_insert_is_Some' in Hj as [<-|Hj]; apply (wf_next a W); eauto.
    + intros j Hj. rewrite lookup_insert_ne by congruence. by apply (wf_pooled a W).
  - unfold held_bytes. simpl. rewrite (map_sum_update _ _ _ o) by done. simpl. lia.
Qed.

Lemma free_spec a id o h :
  wf a → objects a !! id = Some o → handle o = Some h → id ∉ pool a →
  ∃ a', Arena.free id a = (Ok tt, a') ∧ wf a' ∧ held_bytes a' = held_bytes a - bytes o ∧
    budget a' = budget a ∧ made a' = made a ∧ next a' = next a ∧
    pool a' = pool a ++ [id] ∧ objects a' = objects a.
Proof.
  intros W Ho Hh Hnp. unfold Arena.free. rewrite Ho, Hh, bool_decide_false by done.
  eexists. split; [done|]. split; [|split; [|done]].
  - split; simpl; try apply W.
    + apply NoDup_app. split; [apply (wf_pool a W)|]. split; [|apply NoDup_singleton].
      intros x Hx ->%list_elem_of_singleton. done.
    + intros j Hj. apply elem_of_app in Hj as [Hj|Hj%list_elem_of_singleton];
        [by apply (wf_pooled a W)|subst; by eauto].
  - unfold held_bytes. simpl. fold (outside (pool a ++ [id])) (outside (pool a)).
    rewrite !(map_sum_delete _ (objects a) id o Ho).
    rewrite <-(outside_delete (pool a ++ [id]) (pool a)) by apply Permutation_app_comm.
    unfold outside at 1 3. rewrite (decide_False (P := id ∈ pool a)) by done.
    rewrite decide_True by set_solver. lia.
Qed.

Lemma retire_spec a id o h :
  wf a → objects a !! id = Some o → handle o = Some h →
  ∃ a', Arena.retire id a = (Ok h, a') ∧ wf a' ∧ budget a' = budget a ∧
    next a' = next a ∧ made a' = made a - bytes o ∧ objects a' = delete id (objects a) ∧
    held_bytes a' = held_bytes a - (if decide (id ∈ pool a) then 0 else bytes o).
Proof.
  intros W Ho Hh. unfold Arena.retire. rewrite Ho, Hh. eexists. split; [done|].
  pose proof (made_lookup a id o W Ho) as Hm. destruct (wf_budget a W) as [Hb Hb'].
  pose proof (wf_fits a W).
  assert (made a -! bytes o = made a - bytes o) as ->.
  { apply wrap_small. unfold in_width. lia. }
  assert (∀ j, j ∈ List.filter (λ p, negb (p =? id)) (pool a) ↔ j ∈ pool a ∧ j ≠ id) as Hin.
  { intros j. rewrite !list_elem_of_In, filter_In, negb_true_iff, Z.eqb_neq. done. }
  split; [|split; [done|]; split; [done|]; split; [done|]; split; [done|]].
  - split; simpl; try apply W.
    + rewrite (wf_made a W), (map_sum_delete _ (objects a) id o Ho). lia.
    + lia.
    + intros j p Hj. apply lookup_delete_Some in Hj as [_ Hj]. by apply (wf_bytes a W j).
    + intros j Hj. apply lookup_delete_is_Some in Hj as [_ Hj]. by apply (wf_next a W).
    + apply NoDup_ListNoDup, List.NoDup_filter, NoDup_ListNoDup, W.
    + intros j Hj. apply Hin in Hj as [Hj Hne]. rewrite lookup_delete_ne by done.
      by apply (wf_pooled a W).
  - unfold held_bytes. simpl. rewrite (map_sum_delete _ (objects a) id o Ho).
    rewrite (map_sum_ext _ (λ j p, if decide (j ∈ pool a) then 0 else bytes p)
      (delete id (objects a))); [lia|].
    intros j p Hj. apply lookup_delete_Some in Hj as [Hne _].
    pose proof (Hin j). destruct (decide _), (decide (j ∈ pool a)); naive_solver.
Qed.

Lemma hold_wf a id h : wf a → wf (Arena.hold id h a).2.
Proof.
  intros W. destruct (objects a !! id) as [o|] eqn:Ho.
  - destruct (handle o) eqn:Hh.
    + unfold Arena.hold. by rewrite Ho, Hh.
    + by destruct (hold_spec a id h o W Ho Hh) as (a' & -> & ? & _).
  - unfold Arena.hold. by rewrite Ho.
Qed.

Lemma free_wf a id : wf a → wf (Arena.free id a).2.
Proof.
  intros W. destruct (objects a !! id) as [o|] eqn:Ho;
    [destruct (handle o) eqn:Hh; [destruct (decide (id ∈ pool a))|]|].
  - unfold Arena.free. by rewrite Ho, Hh, bool_decide_true.
  - by destruct (free_spec a id o m W Ho Hh) as (a' & -> & ? & _).
  - unfold Arena.free. by rewrite Ho, Hh.
  - unfold Arena.free. by rewrite Ho.
Qed.

Lemma retire_wf a id : wf a → wf (Arena.retire id a).2.
Proof.
  intros W. destruct (objects a !! id) as [o|] eqn:Ho; [destruct (handle o) eqn:Hh|].
  - by destruct (retire_spec a id o m W Ho Hh) as (a' & -> & ? & _).
  - unfold Arena.retire. by rewrite Ho, Hh.
  - unfold Arena.retire. by rewrite Ho.
Qed.

Lemma untake_wf a id h : wf a → wf (Arena.untake id h a).2.
Proof.
  intros W. unfold Arena.untake. pose proof (hold_wf a id h W) as W'.
  destruct (Arena.hold id h a) as [[[]|e] a']; [by apply free_wf|done].
Qed.

Lemma arena_new_wf n : u64 n → wf (Arena.new (Mem := Mem) n).
Proof.
  intros Hn. split; simpl; try done.
  - destruct Hn. lia.
  - intros id [? Hid]. by rewrite lookup_empty in Hid.
  - apply NoDup_nil_2.
  - intros id Hid. by apply not_elem_of_nil in Hid.
Qed.

Lemma pages_least n s m : u64 n → pages n = Some s → m mod PAGE = 0 → n ≤ m → s ≤ m.
Proof.
  intros Hn E Hm Hle. pose proof (pages_spec n Hn) as P. rewrite E in P.
  destruct P as (P & Q & _). unfold PAGE, PAGE_SIZE in *.
  apply Z.div_exact in Hm, Q; lia.
Qed.

End lemmas.

#[local] Arguments Arena.take_new : simpl never.

Section properties.
Context {Mem St : Type}.
Variable make : Z → M St Error Mem.
Implicit Types a : Arena Mem.

(** An object [take] gives is of at least the bytes asked, in whole pages, and no
    longer in the pool; it is the smallest pooled object that is large enough, or, when
    none is, a new one; no object a batch or a window holds changes. *)
Theorem take_gives a s want id h have a' s' :
  wf a → u64 want → next a + 1 < 2 ^ 64 →
  Arena.take make want (a, s) = (Ok (id, h, have), (a', s')) →
  wf a' ∧ want ≤ have ∧ have mod PAGE = 0 ∧
  objects a' !! id = Some (mk_Object None have) ∧ (id ∉ pool a') ∧
  held_bytes a' = held_bytes a + have ∧
  (∀ j, j ≠ id → j ∉ pool a → objects a' !! j = objects a !! j) ∧
  ((id ∈ pool a ∧ Arena.handle_of a id = Some h ∧ s' = s ∧
    ∀ j, j ∈ pool a → want ≤ Arena.size_of a j → have ≤ Arena.size_of a j) ∨
   (objects a !! id = None ∧ make have s = (Ok h, s') ∧
    ∀ j, j ∈ pool a → Arena.size_of a j < want)).
Proof.
  intros W Hw Hn. unfold Arena.take. pose proof (pages_spec want Hw) as P.
  destruct (pages want) as [size|] eqn:Ep; simpl; [|done].
  destruct (Z.ltb_spec 0 size); [|done]. destruct P as (P1 & P2 & P3).
  destruct (Arena.best a size) as [[[i id'] have']|] eqn:B.
  - destruct (best_Some _ _ _ _ _ W B) as (Hi & Hle & Hs & Hmin). subst have'.
    destruct (take_pooled_spec a i id' W Hi) as (h' & a1 & -> & Hh & [T1 T2 T3 T4 T5 T6 T7 _ T9]).
    intros [= <- <- <- <- <-]. split; [done|]. split; [lia|].
    split; [by apply (wf_bytes a1 T1 _ _ T4)|]. split; [done|].
    split; [intros X; by apply T5 in X as []|]. split; [done|]. split; [auto|].
    left. split; [by apply list_elem_of_lookup; eauto|]. split; [done|]. split; [done|].
    intros j Hj Hwj. apply Hmin; [done|]. apply (pages_least want); try done.
    destruct (wf_pooled a W j Hj) as (o & ? & Ho & _). unfold Arena.size_of.
    rewrite Ho. by apply (wf_bytes a W j).
  - pose proof (take_new_spec make a s size W ltac:(lia) P2 Hn) as T.
    intros E. rewrite E in T. destruct T as (-> & Em & -> & [T1 T2 T3 T4 T5 T6 T7 _ T9]).
    split; [done|]. split; [lia|]. split; [done|]. split; [done|].
    split; [intros X; by apply T5 in X as []|]. split; [done|]. split; [auto|]. right.
    split; [|split; [done|]].
    + destruct T9 as [Hin|]; [|done]. destruct (wf_pooled a W _ Hin) as (? & ? & X & _).
      pose proof (wf_next a W (next a) ltac:(eauto)). lia.
    + intros j Hj. pose proof (best_None a size W B j Hj) as Hlt.
      apply Z.nle_gt. intros Hle. apply (Z.lt_irrefl size).
      eapply Z.le_lt_trans; [|exact Hlt]. apply (pages_least want); try done.
      destruct (wf_pooled a W j Hj) as (o & ? & Ho & _). unfold Arena.size_of.
      rewrite Ho. by apply (wf_bytes a W j).
Qed.

(** [take] refuses no bytes and sizes past [u64]; otherwise it refuses only with the
    kernel's error, or when the bytes batches and windows hold leave no room for the
    size, whatever waits in the pool, and then says what is left beside them. *)
Theorem take_refuses a s want e a' s' :
  wf a → u64 want → next a + 1 < 2 ^ 64 →
  Arena.take make want (a, s) = (Err e, (a', s')) →
  wf a' ∧ held_bytes a' = held_bytes a ∧
  (∀ j, j ∉ pool a → objects a' !! j = objects a !! j) ∧
  ((e = PlaneError.Limit "a window of no bytes, or past u64" ∧ (a', s') = (a, s) ∧
    (want = 0 ∨ 2 ^ 64 < want + PAGE)) ∨
   ∃ size, pages want = Some size ∧
    ((e = PlaneError.Budget size (budget a - held_bytes a) ∧ s' = s ∧
      budget a < held_bytes a + size) ∨
     ∃ x, e = PlaneError.Kernel x ∧ make size s = (Err x, s'))).
Proof.
  intros W Hw Hn. unfold Arena.take. pose proof (pages_spec want Hw) as P.
  destruct (pages want) as [size|] eqn:Ep; simpl.
  2:{ intros [= <- <- <-]. split_and!; try done. left. auto. }
  destruct P as (P1 & P2 & P3). destruct (Z.ltb_spec 0 size) as [Hs|Hs].
  2:{ intros [= <- <- <-]. split_and!; try done. left. split_and!; try done.
      left. destruct Hw. lia. }
  destruct (Arena.best a size) as [[[i id'] have']|] eqn:B.
  - destruct (best_Some _ _ _ _ _ W B) as (Hi & Hle & Hz & Hmin). subst have'.
    by destruct (take_pooled_spec a i id' W Hi) as (h' & a1 & -> & _).
  - pose proof (take_new_spec make a s size W Hs P2 Hn) as T.
    intros E. rewrite E in T. destruct T as [S T]. split; [apply S|].
    split; [apply (shrunk_held _ _ S)|].
    split; [intros j Hj; apply (shrunk_objects _ _ S); auto|].
    right. exists size. split; [done|]. destruct T as [(-> & -> & ?)|T]; [left|by right].
    split_and!; try done. lia.
Qed.

(** ** Any use of an arena *)

Inductive op :=
| Take (want : Z)
| Hold (id : Z) (h : Mem)
| Free (id : Z)
| Retire (id : Z)
| Untake (id : Z) (h : Mem).

Definition step (o : op) (x : Arena Mem * St) : Arena Mem * St :=
  let '(a, s) := x in
  match o with
  | Take want => (Arena.take make want (a, s)).2
  | Hold id h => ((Arena.hold id h a).2, s)
  | Free id => ((Arena.free id a).2, s)
  | Retire id => ((Arena.retire id a).2, s)
  | Untake id h => ((Arena.untake id h a).2, s)
  end.

Definition run (os : list op) (x : Arena Mem * St) : Arena Mem * St := foldl (flip step) x os.

Lemma take_wf a s want :
  wf a → u64 want → next a + 1 < 2 ^ 64 →
  wf (Arena.take make want (a, s)).2.1 ∧ next (Arena.take make want (a, s)).2.1 ≤ next a + 1 ∧
  budget (Arena.take make want (a, s)).2.1 = budget a.
Proof.
  intros W Hw Hn. pose proof (take_cases make a s want W Hw Hn) as T.
  destruct (Arena.take make want (a, s)) as [[[[id h] have]|e] [a' s']]; simpl.
  - destruct T as [[] _]. split; [done|]. split; [lia|done].
  - destruct T as [[] _]. split; [done|]. split; [lia|done].
Qed.

Lemma arena_step_wf o a s :
  wf a → next a + 1 < 2 ^ 64 → match o with Take want => u64 want | _ => True end →
  wf (step o (a, s)).1 ∧ next (step o (a, s)).1 ≤ next a + 1 ∧
  budget (step o (a, s)).1 = budget a.
Proof.
  intros W Hn Ho. destruct o as [want|id h|id|id|id h]; simpl.
  - by apply take_wf.
  - split; [by apply hold_wf|]. unfold Arena.hold. repeat case_match; simpl; lia.
  - split; [by apply free_wf|]. unfold Arena.free. repeat case_match; simpl; lia.
  - split; [by apply retire_wf|]. unfold Arena.retire. repeat case_match; simpl; lia.
  - split; [by apply untake_wf|]. unfold Arena.untake, Arena.hold, Arena.free.
    repeat case_match; simplify_eq; simpl in *; lia.
Qed.

(** C29: whatever is asked of an arena, in any order and however a caller misuses it, the
    objects it has made never pass its budget, every object in the pool is one it made
    and holds, and no object is in the pool twice. *)
Theorem arena_within_budget lim os s :
  u64 lim → zlen os + 2 < 2 ^ 64 →
  Forall (λ o, match o with Take want => u64 want | _ => True end) os →
  let a := (run os (Arena.new lim, s)).1 in
  map_sum (λ _ o, bytes o) (objects a) ≤ lim ∧ NoDup (pool a) ∧
  ∀ id, id ∈ pool a → is_Some (Arena.handle_of a id).
Proof.
  intros Hl Hlen Hos.
  assert (∀ os x, wf x.1 → zlen os + next x.1 + 1 < 2 ^ 64 →
    Forall (λ o, match o with Take want => u64 want | _ => True end) os →
    wf (run os x).1 ∧ budget (run os x).1 = budget x.1) as G.
  { clear. induction os as [|o os IH]; intros [a s] W Hn Hos; [done|].
    apply Forall_cons in Hos as [Ho Hos]. rewrite zlen_cons in Hn. simpl in Hn.
    pose proof (zlen_nonneg os).
    destruct (arena_step_wf o a s W ltac:(lia) Ho) as (W' & Hn' & Eb).
    destruct (IH (step o (a, s)) W' ltac:(lia) Hos) as [W'' Eb']. split; [done|]. simpl in *.
    congruence. }
  destruct (G os (Arena.new lim, s)) as [W Eb]; [by apply arena_new_wf|simpl; lia|done|].
  intros a. split; [|split; [apply (wf_pool a W)|]].
  - rewrite <-(wf_made a W). change (budget a = lim) in Eb. rewrite <-Eb.
    apply (wf_fits a W).
  - intros id Hid. destruct (wf_pooled a W id Hid) as (o & h & Ho & Hh).
    unfold Arena.handle_of. rewrite Ho. simpl. by rewrite Hh.
Qed.

End properties.

(** ** Witnesses *)

(** Objects are named by the count of those made. *)
Definition make_next : Z → M Z Error Z := λ _ s, (Ok s, s + 1).

(** Two objects made, of two pages and one; the first back in the pool. *)
Definition arena_two : Arena Z :=
  (run make_next [Take 8192; Take 4096; Untake 1 0] (Arena.new 16384, 0)).1.

Lemma arena_two_wf : wf arena_two.
Proof.
  assert (arena_two = mk_Arena 16384 12288
    (<[1 := mk_Object (Some 0) 8192]> {[2 := mk_Object None 4096]}) [1] 3) as E.
  { vm_compute. reflexivity. }
  rewrite E. split; simpl; try done.
  - intros id o Ho. apply lookup_insert_Some in Ho as [[<- <-]|[_ Ho]]; [done|].
    apply lookup_singleton_Some in Ho as [<- <-]. done.
  - intros id Hid. apply lookup_insert_is_Some' in Hid as [<-|[o Hid]]; [lia|].
    apply lookup_singleton_Some in Hid as [<- _]. lia.
  - apply NoDup_singleton.
  - intros id ->%list_elem_of_singleton. eexists _, _. done.
Qed.

Example take_gives_witness :
  (Arena.take make_next 5000 (arena_two, 2)).1 = Ok (1, 0, 8192) ∧ 5000 ≤ 8192.
Proof.
  assert (u64 5000) as Hn by done. assert (next arena_two + 1 < 2 ^ 64) as Hl by (vm_compute; reflexivity).
  destruct (Arena.take make_next 5000 (arena_two, 2)) as [r [a' s']] eqn:E.
  assert (r = Ok (1, 0, 8192)) as -> by (vm_compute in E; congruence).
  split; [done|].
  exact (proj1 (proj2 (take_gives make_next arena_two 2 5000 1 0 8192 a' s' arena_two_wf
    Hn Hl E))).
Defined.

Example take_refuses_witness :
  (Arena.take make_next 12289 (arena_two, 2)).1 = Err (PlaneError.Budget 16384 12288) ∧
  held_bytes (Arena.take make_next 12289 (arena_two, 2)).2.1 = held_bytes arena_two.
Proof.
  assert (u64 12289) as Hn by done. assert (next arena_two + 1 < 2 ^ 64) as Hl by (vm_compute; reflexivity).
  destruct (Arena.take make_next 12289 (arena_two, 2)) as [r [a' s']] eqn:E.
  assert (r = Err (PlaneError.Budget 16384 12288)) as -> by (vm_compute in E; congruence).
  split; [done|].
  exact (proj1 (proj2 (take_refuses make_next arena_two 2 12289 _ a' s' arena_two_wf
    Hn Hl E))).
Defined.

Example arena_within_budget_witness :
  map_sum (λ _ o, bytes o)
    (objects (run make_next [Take 8192; Take 4096; Untake 1 0] (Arena.new 16384, 0)).1) ≤ 16384.
Proof.
  apply (arena_within_budget make_next 16384 [Take 8192; Take 4096; Untake 1 0] 0);
    [done|done|by repeat constructor].
Defined.
