(* ===== verification/Plane.v ===== *)
(** * The engine's side of the data plane

    [src/kernel/plane/core/src/plane.rs]: [KernelPlane] over the kernel's calls.  The
    plane is a record with the kernel's state inside it, and each method a computation of
    the state-and-error monad that follows the code's order of calls, early returns
    included.  The record check ([verify.rs]) is an argument, with the rows it finds. *)

From S2P Require Import Prelude Abi PlanePort PlaneArena.
Definition WAITED_MAX : Z := limits.WAIT_MAX_ITEMS.

Record SlotRec (Slot : Type) := mk_SlotRec { sr_slot : Slot; drained : bool }.
Arguments mk_SlotRec {_} _ _.
Arguments sr_slot {_} _.
Arguments drained {_} _.

Record TaskRec (Slot Channel : Type) := mk_TaskRec {
  inputs : list (SlotRec Slot);
  outputs : list (SlotRec Slot);
  port : option Channel;
  port_done : bool;
  ended : bool;
}.
Arguments mk_TaskRec {_ _} _ _ _ _ _.
Arguments inputs {_ _} _.
Arguments outputs {_ _} _.
Arguments port {_ _} _.
Arguments port_done {_ _} _.
Arguments ended {_ _} _.

Record BatchRec := mk_BatchRec {
  object : Z; offset : Z; len : Z; shares : Z; held : bool
}.

Record KernelPlane (St Mem Slot Channel : Type) := mk_KernelPlane {
  calls : St;
  arena : Arena Mem;
  tasks : gmap Z (TaskRec Slot Channel);
  next_task : Z;
  batches : gmap Z BatchRec;
  next_batch : Z;
  events : list Event.t;
  windows : Z;
}.
Arguments mk_KernelPlane {_ _ _ _} _ _ _ _ _ _ _ _.
Arguments calls {_ _ _ _} _.
Arguments arena {_ _ _ _} _.
Arguments tasks {_ _ _ _} _.
Arguments next_task {_ _ _ _} _.
Arguments batches {_ _ _ _} _.
Arguments next_batch {_ _ _ _} _.
Arguments events {_ _ _ _} _.
Arguments windows {_ _ _ _} _.

(** The fields of a port's request and reply ([abi::plane]). *)
Module request.
Definition KIND : Z := 0.
Definition TOKEN : Z := 8.
Definition PORT : Z := 16.
Definition LEN : Z := 24.
Definition SIZE : Z := 32.
Definition CALL : Z := 1.
End request.

Module reply.
Definition TOKEN : Z := 0.
Definition STATUS : Z := 8.
Definition LEN : Z := 16.
Definition SIZE : Z := 24.
End reply.

(** Why a loop stops: the error it returns, an index out of range, or more rounds than
    the model's bound. *)
Inductive halt := Refuse (e : PlaneError.t) | Panic | Fuel.

(** Where a round of a loop goes on: the next round, after the loop, or out of the
    method. *)
Inductive flow := Continue | Break | Return.

Section plane.
Context {St Mem Slot Channel : Type} `{!Calls St Mem Slot Channel}.

(** [verify] and the rows of what it returns. *)
Context {R : Type}.
Variable verify : Z → (Z → Z → M St Error (list byte)) → M St text R.
Variable rows : R → Z.

Abbreviation Plane := (KernelPlane St Mem Slot Channel).
Abbreviation PM := (M Plane PlaneError.t).
Abbreviation HM := (M Plane halt).
Implicit Types p : Plane.
Implicit Types t : TaskRec Slot Channel.

(** ** Fields *)

Definition set_calls (s : St) p : Plane :=
  mk_KernelPlane s (arena p) (tasks p) (next_task p) (batches p) (next_batch p) (events p)
    (windows p).
Definition set_arena (a : Arena Mem) p : Plane :=
  mk_KernelPlane (calls p) a (tasks p) (next_task p) (batches p) (next_batch p) (events p)
    (windows p).
Definition set_tasks (ts : gmap Z (TaskRec Slot Channel)) p : Plane :=
  mk_KernelPlane (calls p) (arena p) ts (next_task p) (batches p) (next_batch p) (events p)
    (windows p).
Definition set_batches (bs : gmap Z BatchRec) p : Plane :=
  mk_KernelPlane (calls p) (arena p) (tasks p) (next_task p) bs (next_batch p) (events p)
    (windows p).
Definition set_windows (w : Z) p : Plane :=
  mk_KernelPlane (calls p) (arena p) (tasks p) (next_task p) (batches p) (next_batch p)
    (events p) w.
Definition push_event (e : Event.t) p : Plane :=
  mk_KernelPlane (calls p) (arena p) (tasks p) (next_task p) (batches p) (next_batch p)
    (events p ++ [e]) (windows p).

(** A kernel call; its error kept, or returned as [PlaneError::Kernel]. *)
Definition try_call {E A} (c : M St E A) : PM (result E A) :=
  act (λ p, let '(r, s) := c (calls p) in (r, set_calls s p)).
Definition call {A} (c : M St Error A) : PM A := λ p,
  let '(r, s) := c (calls p) in (map_err PlaneError.Kernel r, set_calls s p).

(** An operation of the arena. *)
Definition with_arena {A} (f : Arena Mem → result PlaneError.t A * Arena Mem) : PM A := λ p,
  let '(r, a) := f (arena p) in (r, set_arena a p).

(** [self.arena.take(bytes, |n| calls.memory(n))]. *)
Definition arena_take (bytes : Z) : PM (Z * Mem * Z) := λ p,
  let '(r, (a, s)) := Arena.take memory bytes (arena p, calls p) in
  (r, set_calls s (set_arena a p)).

(** The record of a task, or [Unknown("task")]. *)
Definition get_task (task : Z) : PM (TaskRec Slot Channel) := λ p,
  (ok_or (tasks p !! task) (PlaneError.Unknown "task"), p).

(** ** Tasks *)

Definition open_slots t : list (SlotRec Slot) :=
  List.filter (λ s, negb (drained s)) (inputs t ++ outputs t).

Definition all_drained t : bool :=
  match open_slots t with
  | [] => match port t with None => true | Some _ => port_done t end
  | _ => false
  end.

Definition port_open t : option Channel :=
  match port t with Some c => if port_done t then None else Some c | None => None end.

(** The tasks in the order of their ids, as the [BTreeMap] gives them. *)
Definition task_ids p : list Z := merge_sort Z.le (elements (dom (tasks p))).

Definition tasks_in_order p : list (TaskRec Slot Channel) :=
  omap (λ id, tasks p !! id) (task_ids p).

Definition waited p : Z :=
  sumZ ((λ t, zlen (open_slots t) + match port_open t with Some _ => 1 | None => 0 end) <$>
    tasks_in_order p).

(** ** The engine's calls *)

Definition new (s : St) (budget : Z) : Plane :=
  mk_KernelPlane s (Arena.new budget) ∅ 1 ∅ 1 [] 0.

Definition slots (task : Z) p : result PlaneError.t (list Slot) :=
  match tasks p !! task with
  | None => Err (PlaneError.Unknown "task")
  | Some t => Ok (sr_slot <$> inputs t ++ outputs t)
  end.

Definition batch (b : Z) p : result PlaneError.t (Mem * Z * Z) :=
  match batches p !! b with
  | None => Err (PlaneError.Unknown "batch")
  | Some r =>
      match Arena.handle_of (arena p) (object r) with
      | None => Err (PlaneError.Unknown "a batch whose object a slot holds")
      | Some m => Ok (m, offset r, len r)
      end
  end.

(** A batch the engine holds, under the next id. *)
Definition insert_batch (r : BatchRec) p : Z * Plane :=
  (next_batch p,
   mk_KernelPlane (calls p) (arena p) (tasks p) (next_task p)
     (<[next_batch p := r]> (batches p)) (next_batch p +! 1) (events p) (windows p)).

Definition load_with (n : Z) (write : Mem → M St Error unit) : PM (Z * Z) :=
  x ← arena_take n;
  let '(object, memory, _) := x in
  written ← try_call (write memory);
  match written with
  | Err e =>
      _ ← with_arena (Arena.untake object memory);
      fail (PlaneError.Kernel e)
  | Ok _ =>
      checked ← try_call (verify n (λ at_ k, read memory at_ k));
      _ ← with_arena (Arena.hold object memory);
      match checked with
      | Err reason =>
          _ ← with_arena (Arena.free object);
          fail (PlaneError.Refused reason)
      | Ok record =>
          id ← act (insert_batch (mk_BatchRec object 0 n 0 true));
          mret (id, rows record)
      end
  end.

Definition load (record : list byte) : PM (Z * Z) :=
  load_with (zlen record) (λ memory, write memory 0 record).

(** A share or the hold of a batch has gone. *)
Definition settle (b : Z) : PM unit := λ p,
  match batches p !! b with
  | None => (Ok tt, p)
  | Some r =>
      if (0 <? shares r) || held r then (Ok tt, p)
      else
        (_ ← modify (λ p, set_batches (delete b (batches p)) p);
         _ ← with_arena (Arena.free (object r));
         modify (push_event (Event.Freed b))) p
  end.

(** A record a task put. *)
Definition arrived (task output object : Z) (memory : Mem) (offset len : Z) : PM unit :=
  checked ← try_call (verify len (λ at_ k, read memory (offset +! at_) k));
  _ ← with_arena (Arena.hold object memory);
  _ ← modify (λ p, set_windows (saturating_sub (windows p) (Arena.size_of (arena p) object)) p);
  match checked with
  | Ok record =>
      id ← act (insert_batch (mk_BatchRec object offset len 0 true));
      modify (push_event (Event.Put task output id (rows record) len))
  | Err reason =>
      _ ← with_arena (Arena.free object);
      t ← get_task task;
      slot ← lift (ok_or (outputs t !! Z.to_nat output) (PlaneError.Unknown "output"));
      refused ← try_call (refuse (sr_slot slot) reason);
      _ ← lift match refused with
               | Ok _ | Err BadState => Ok tt
               | Err e => Err (PlaneError.Kernel e)
               end;
      modify (push_event (Event.Refused task output reason))
  end.

(** ** Polling *)

Definition refusing {A} (c : PM A) : HM A := λ p,
  let '(r, p) := c p in (map_err Refuse r, p).

Definition slot_recs t (output : bool) : list (SlotRec Slot) :=
  if output then outputs t else inputs t.

Definition set_slot_recs t (output : bool) (l : list (SlotRec Slot)) : TaskRec Slot Channel :=
  if output then mk_TaskRec (inputs t) l (port t) (port_done t) (ended t)
  else mk_TaskRec l (outputs t) (port t) (port_done t) (ended t).

Definition put_task (id : Z) t p : Plane := set_tasks (<[id := t]> (tasks p)) p.

(** One of a slot's events. *)
Definition taken_event (id : Z) (index : nat) (x : Taken Mem) : PM unit :=
  match x with
  | Released cookie =>
      _ ← modify (λ p,
        match batches p !! cookie with
        | Some b =>
            set_batches (<[cookie := mk_BatchRec (object b) (offset b) (len b)
              (saturating_sub (shares b) 1) (held b)]> (batches p)) p
        | None => p
        end);
      _ ← modify (push_event (Event.Released id (Z.of_nat index) cookie));
      settle cookie
  | Put cookie memory offset len => arrived id (Z.of_nat index) cookie memory offset len
  | Returned cookie memory =>
      _ ← modify (λ p,
        set_windows (saturating_sub (windows p) (Arena.size_of (arena p) cookie)) p);
      with_arena (Arena.untake cookie memory)
  end.

(** One round of the loop over a slot's events. *)
Definition poll_slot_round (id : Z) (output : bool) (index : nat) : HM flow := λ p,
  match tasks p !! id with
  | None => (Ok Return, p)
  | Some t =>
      match slot_recs t output !! index with
      | None => (Err Panic, p)
      | Some r =>
          if drained r then (Ok Break, p)
          else
            match take (sr_slot r) (calls p) with
            | (Err ShouldWait, s) => (Ok Break, set_calls s p)
            | (Err PeerClosed, s) =>
                (Ok Break,
                 put_task id (set_slot_recs t output
                   (<[index := mk_SlotRec (sr_slot r) true]> (slot_recs t output)))
                   (set_calls s p))
            | (Err e, s) => (Err (Refuse (PlaneError.Kernel e)), set_calls s p)
            | (Ok x, s) =>
                (_ ← refusing (taken_event id index x); mret Continue) (set_calls s p)
            end
      end
  end.

Fixpoint poll_slot (fuel : nat) (id : Z) (output : bool) (index : nat) : HM flow :=
  match fuel with
  | O => fail Fuel
  | S fuel =>
      f ← poll_slot_round id output index;
      match f with
      | Continue => poll_slot fuel id output index
      | Break => mret Continue
      | Return => mret Return
      end
  end.

(** [for which in 0..inputs + outputs]. *)
Fixpoint poll_slots (fuel : nat) (id : Z) (which : list (bool * nat)) : HM flow :=
  match which with
  | [] => mret Continue
  | (output, index) :: which =>
      f ← poll_slot fuel id output index;
      match f with Return => mret Return | _ => poll_slots fuel id which end
  end.

Definition slot_numbers t : list (bool * nat) :=
  ((λ i, (false, i)) <$> seq 0 (length (inputs t))) ++
  ((λ i, (true, i)) <$> seq 0 (length (outputs t))).

(** A port's message, when it is a request. *)
Definition port_request (id : Z) (message : list byte) : option Event.t :=
  match read_u32 message request.KIND, read_u64 message request.TOKEN,
        read_u64 message request.PORT, read_u64 message request.LEN with
  | Some kind, Some token, Some port_number, Some n =>
      if (kind =? request.CALL) && (request.SIZE +! n =? zlen message)
      then Some (Event.Call (mk_CallId id token) port_number
                   (drop (Z.to_nat request.SIZE) message))
      else None
  | _, _, _, _ => None
  end.

Definition poll_port_round (id : Z) : HM flow := λ p,
  match tasks p !! id with
  | None => (Ok Return, p)
  | Some t =>
      match port t with
      | None => (Ok Return, p)
      | Some c =>
          if port_done t then (Ok Return, p)
          else
            match receive c (calls p) with
            | (Err ShouldWait, s) => (Ok Return, set_calls s p)
            | (Err PeerClosed, s) =>
                (Ok Return,
                 put_task id (mk_TaskRec (inputs t) (outputs t) (port t) true (ended t))
                   (set_calls s p))
            | (Err e, s) => (Err (Refuse (PlaneError.Kernel e)), set_calls s p)
            | (Ok message, s) =>
                match port_request id message with
                | Some e => (Ok Continue, push_event e (set_calls s p))
                | None =>
                    (Err (Refuse (PlaneError.Unknown "a port message that is no request")),
                     set_calls s p)
                end
            end
      end
  end.

Fixpoint poll_port (fuel : nat) (id : Z) : HM unit :=
  match fuel with
  | O => fail Fuel
  | S fuel =>
      f ← poll_port_round id;
      match f with Continue => poll_port fuel id | _ => mret tt end
  end.

(** The end of a task all of whose slots are drained. *)
Definition end_task (id : Z) p : Plane :=
  match tasks p !! id with
  | Some t =>
      if all_drained t
      then push_event (Event.Ended id) (set_tasks (delete id (tasks p)) p)
      else p
  | None => p
  end.

Definition poll_task (fuel : nat) (id : Z) : HM unit := λ p,
  match tasks p !! id with
  | Some t =>
      if ended t then (Ok tt, p)
      else
        (f ← poll_slots fuel id (slot_numbers t);
         match f with
         | Return => mret tt
         | _ => _ ← poll_port fuel id; modify (end_task id)
         end) p
  | None => (Ok tt, p)
  end.

Fixpoint poll_tasks (fuel : nat) (ids : list Z) : HM unit :=
  match ids with
  | [] => mret tt
  | id :: ids => _ ← poll_task fuel id; poll_tasks fuel ids
  end.

Definition poll (fuel : nat) : HM unit := λ p, poll_tasks fuel (task_ids p) p.

(** ** The port *)

Fixpoint open_n (n : nat) (output : bool) : PM (list (SlotRec Slot)) :=
  match n with
  | O => mret []
  | S n =>
      s ← call (slot output);
      l ← open_n n output;
      mret (mk_SlotRec s false :: l)
  end.

Definition insert_task (ins outs : list (SlotRec Slot)) (c : option Channel) p : Z * Plane :=
  (next_task p,
   mk_KernelPlane (calls p) (arena p)
     (<[next_task p := mk_TaskRec ins outs c false false]> (tasks p))
     (wrap 32 (next_task p + 1)) (batches p) (next_batch p) (events p) (windows p)).

Definition open_port (port : bool) : PM (option Channel * option Channel) :=
  if port then (c ← call channel; mret (Some c.1, Some c.2)) else mret (None, None).

(** [open] once the bounds are checked. *)
Definition make_task (shape : Shape) : PM (Z * option Channel) :=
  ins ← open_n (Z.to_nat (sh_inputs shape)) false;
  outs ← open_n (Z.to_nat (sh_outputs shape)) true;
  ends ← open_port (sh_port shape);
  id ← act (insert_task ins outs ends.1);
  mret (id, ends.2).

Definition open (shape : Shape) : PM (Z * option Channel) := λ p,
  let count := sh_inputs shape + sh_outputs shape in
  if limits.PLANE_SLOTS <? count then (Err (PlaneError.Limit "slots of one task"), p)
  else if WAITED_MAX <? waited p + count + (if sh_port shape then 1 else 0)
  then (Err (PlaneError.Limit "slots and ports waited on at once"), p)
  else make_task shape p.

(** The slot of a push a task's state refuses. *)
Definition push_error (e : Error) : PlaneError.t :=
  match e with
  | ShouldWait => PlaneError.Full
  | BadState => PlaneError.Closed
  | e => PlaneError.Kernel e
  end.

Definition offer (task input b : Z) : PM unit :=
  r ← (λ p, (ok_or (batches p !! b) (PlaneError.Unknown "batch"), p));
  t ← get_task task;
  s ← lift (ok_or (inputs t !! Z.to_nat input) (PlaneError.Unknown "input"));
  m ← (λ p, (ok_or (Arena.handle_of (arena p) (object r))
               (PlaneError.Unknown "a batch whose object a slot holds"), p));
  m' ← call (share m);
  pushed ← try_call (push (sr_slot s) m' (offset r) (len r) b);
  _ ← lift match pushed with Ok _ => Ok tt | Err (e, _) => Err (push_error e) end;
  modify (λ p,
    match batches p !! b with
    | Some r =>
        set_batches (<[b := mk_BatchRec (object r) (offset r) (len r) (shares r +! 1) (held r)]>
          (batches p)) p
    | None => p
    end).

Definition finish (task input : Z) : PM unit :=
  t ← get_task task;
  s ← lift (ok_or (inputs t !! Z.to_nat input) (PlaneError.Unknown "input"));
  call (close (sr_slot s)).

Definition grant (task output bytes : Z) : PM unit :=
  n ← lift (ok_or (option_filter (λ l, 0 <? l) (pages bytes))
              (PlaneError.Limit "a window of no bytes, or past u64"));
  s ← (λ p, (ok_or (tasks p !! task ≫= λ t, outputs t !! Z.to_nat output)
               (PlaneError.Unknown "output"), p));
  x ← arena_take n;
  let '(id, memory, size) := x in
  pushed ← try_call (push (sr_slot s) memory 0 n id);
  match pushed with
  | Ok _ => modify (λ p, set_windows (windows p +! size) p)
  | Err (e, memory) =>
      _ ← with_arena (Arena.untake id memory);
      fail (push_error e)
  end.

(** A round of [next]: an event or the end of the wait, or another round. *)
Definition next_round (fuel : nat) (deadline : Z) : HM (option (option Event.t)) := λ p,
  match events p with
  | e :: es => (Ok (Some (Some e)), mk_KernelPlane (calls p) (arena p) (tasks p) (next_task p)
                  (batches p) (next_batch p) es (windows p))
  | [] =>
      match poll fuel p with
      | (Err h, p) => (Err h, p)
      | (Ok _, p) =>
          match events p with
          | e :: es =>
              (Ok (Some (Some e)), mk_KernelPlane (calls p) (arena p) (tasks p) (next_task p)
                 (batches p) (next_batch p) es (windows p))
          | [] =>
              let ss := sr_slot <$> mjoin (open_slots <$> tasks_in_order p) in
              let cs := omap port_open (tasks_in_order p) in
              match ss, cs with
              | [], [] => (Ok (Some None), p)
              | _, _ =>
                  match wait ss cs deadline (calls p) with
                  | (Err e, s) => (Err (Refuse (PlaneError.Kernel e)), set_calls s p)
                  | (Ok Ready.TimedOut, s) => (Ok (Some None), set_calls s p)
                  | (Ok Ready.Something, s) => (Ok None, set_calls s p)
                  end
              end
          end
      end
  end.

Fixpoint next (fuel rounds : nat) (deadline : Z) : HM (option Event.t) :=
  match rounds with
  | O => fail Fuel
  | S rounds =>
      r ← next_round fuel deadline;
      match r with Some e => mret e | None => next fuel rounds deadline end
  end.

Definition answer_memory (answered : result Error (list byte)) (header : list byte) :
    PM (list byte * option Mem) :=
  match answered with
  | Err e => mret ((write_u64 header reply.STATUS (Err.code e)).2, None)
  | Ok [] => mret (header, None)
  | Ok bytes =>
      size ← lift (ok_or (pages (zlen bytes)) (PlaneError.Limit "a reply past u64"));
      made ← call (memory size);
      _ ← call (write made 0 bytes);
      shared ← call (share made);
      mret ((write_u64 header reply.LEN (zlen bytes)).2, Some shared)
  end.

Definition answer (c : CallId) (answered : result Error (list byte)) : PM unit :=
  let header := repeat x00 (Z.to_nat reply.SIZE) in
  let header := (write_u64 header reply.TOKEN (c_token c)).2 in
  x ← answer_memory answered header;
  t ← get_task (c_task c);
  port ← lift (ok_or (port t) (PlaneError.Unknown "port"));
  sent ← try_call (send port x.1 x.2);
  lift match sent with
       | Ok _ => Ok tt
       | Err PeerClosed => Err PlaneError.Closed
       | Err e => Err (PlaneError.Kernel e)
       end.

Definition drop_batch (b : Z) : PM unit := λ p,
  match batches p !! b with
  | None => (Err (PlaneError.Unknown "batch"), p)
  | Some r =>
      if negb (held r)
      then (Err (PlaneError.Unknown "a batch the engine no longer holds"), p)
      else settle b (set_batches
             (<[b := mk_BatchRec (object r) (offset r) (len r) (shares r) false]> (batches p)) p)
  end.

Definition residency p : Residency :=
  mk_Residency (PlaneArena.budget (arena p)) (made (arena p))
    (wrap 64 (map_sum (λ _ b, len b) (batches p)))
    (Z.of_nat (size (batches p)))
    (wrap 64 (map_sum (λ _ b, shares b) (batches p)))
    (windows p) (Arena.pooled (arena p)).

End plane.
