(* ===== verification/PlaneInv.v ===== *)
(** * Who holds the data plane's memory

    The invariant of [KernelPlane] over any kernel that keeps the promises of
    [CallsLaws]: every object of the arena is in one place, a window in one slot, a batch,
    or the pool; a batch's shares are the entries of the input slots that name it; the
    engine's counters are the sums they stand for.  It is kept by every method of the
    plane, and by whatever the tasks do between them. *)

From S2P Require Import Prelude Abi PlanePort PlaneArena Plane.
(** Occurrences of a cookie. *)
Definition occ (c : Z) (l : list Z) : Z := sumZ ((λ x, if decide (x = c) then 1 else 0) <$> l).

Definition shares_in (b : Z) (m : gmap Z entry) : Z :=
  map_sum (λ _ e, if e_output e then 0 else occ b (e_cookies e)) m.
Definition windows_in (id : Z) (m : gmap Z entry) : Z :=
  map_sum (λ _ e, if e_output e then occ id (e_cookies e) else 0) m.
Definition pushed_in (m : gmap Z entry) : Z := map_sum (λ _ e, zlen (e_cookies e)) m.

(** Bytes of the windows in slots. *)
Definition window_bytes {Mem} (m : gmap Z entry) (a : Arena Mem) : Z :=
  map_sum (λ _ e, if e_output e then sumZ (Arena.size_of a <$> e_cookies e) else 0) m.

Lemma occ_cons c x l : occ c (x :: l) = (if decide (x = c) then 1 else 0) + occ c l.
Proof. done. Qed.

Lemma occ_perm c l k : l ≡ₚ k → occ c l = occ c k.
Proof. intros P. unfold occ. apply sumZ_perm. by rewrite P. Qed.

Lemma occ_nonneg c l : 0 ≤ occ c l.
Proof.
  apply sumZ_nonneg, Forall_fmap, Forall_forall. intros x _. simpl. destruct (decide _); lia.
Qed.

Lemma occ_le c l : occ c l ≤ zlen l.
Proof.
  induction l as [|x l IH]; [done|]. rewrite occ_cons, zlen_cons. destruct (decide _); lia.
Qed.

Lemma zlen_perm {A} (l k : list A) : l ≡ₚ k → zlen l = zlen k.
Proof. intros P. unfold zlen. by rewrite P. Qed.

Lemma occ_in c l : c ∈ l ↔ 0 < occ c l.
Proof.
  induction l as [|x l IH]; [rewrite elem_of_nil; split; [done|unfold occ; simpl; lia]|].
  rewrite elem_of_cons, occ_cons, IH. pose proof (occ_nonneg c l).
  destruct (decide (x = c)) as [->|]; [split; [lia|by left]|]. split; [|right; lia].
  intros [->|]; [done|lia].
Qed.

(** Slots of the kernel with one entry replaced. *)
Section entries.
Implicit Types m : gmap Z entry.

Lemma shares_in_update b m i e l o :
  m !! i = Some e →
  shares_in b (<[i := mk_entry (e_output e) l o]> m) =
  shares_in b m - (if e_output e then 0 else occ b (e_cookies e)) +
    (if e_output e then 0 else occ b l).
Proof. intros H. unfold shares_in. by rewrite (map_sum_update _ _ _ _ _ H). Qed.

Lemma windows_in_update b m i e l o :
  m !! i = Some e →
  windows_in b (<[i := mk_entry (e_output e) l o]> m) =
  windows_in b m - (if e_output e then occ b (e_cookies e) else 0) +
    (if e_output e then occ b l else 0).
Proof. intros H. unfold windows_in. by rewrite (map_sum_update _ _ _ _ _ H). Qed.

Lemma pushed_in_update m i e l o :
  m !! i = Some e →
  pushed_in (<[i := mk_entry (e_output e) l o]> m) = pushed_in m - zlen (e_cookies e) + zlen l.
Proof. intros H. unfold pushed_in. by rewrite (map_sum_update _ _ _ _ _ H). Qed.

Lemma later_sums m m' :
  later m m' →
  (∀ b, shares_in b m' = shares_in b m) ∧ (∀ b, windows_in b m' = windows_in b m) ∧
  pushed_in m' = pushed_in m.
Proof.
  intros L. split_and!; [intros b; unfold shares_in|intros b; unfold windows_in|unfold pushed_in];
    apply map_sum_ext2; intros i; specialize (L i);
    destruct (m !! i) as [e|], (m' !! i) as [e'|]; try done;
    destruct L as (E & P & _); rewrite ?E; destruct (e_output e); auto using occ_perm, zlen_perm.
Qed.

Lemma later_window_bytes {Mem} (a : Arena Mem) m m' :
  later m m' → window_bytes m' a = window_bytes m a.
Proof.
  intros L. apply map_sum_ext2. intros i. specialize (L i).
  destruct (m !! i) as [e|], (m' !! i) as [e'|]; try done.
  destruct L as (-> & P & _). destruct (e_output e); [|done]. apply sumZ_perm. by rewrite P.
Qed.

Lemma shares_in_nonneg b m : 0 ≤ shares_in b m.
Proof.
  apply map_sum_nonneg. intros i e _. simpl. destruct (e_output e); [lia|apply occ_nonneg].
Qed.

Lemma windows_in_nonneg b m : 0 ≤ windows_in b m.
Proof.
  apply map_sum_nonneg. intros i e _. simpl. destruct (e_output e); [apply occ_nonneg|lia].
Qed.

Lemma shares_in_le b m : shares_in b m ≤ pushed_in m.
Proof.
  apply map_sum_mono. intros i e _. simpl.
  destruct (e_output e); [apply zlen_nonneg|apply occ_le].
Qed.

End entries.

(** ** The invariant *)

(** Whether an object's handle is out of the engine's hands. *)
Definition no_handle {Mem} (a : Arena Mem) (id : Z) : Z :=
  match objects a !! id with
  | Some o => match handle o with None => 1 | Some _ => 0 end
  | None => 0
  end.

Definition at_hand (hand : option Z) (id : Z) : Z := if decide (hand = Some id) then 1 else 0.

Lemma at_hand_None id : at_hand None id = 0.
Proof. unfold at_hand. by rewrite decide_False. Qed.

Lemma at_hand_Some id j : at_hand (Some id) j = if decide (id = j) then 1 else 0.
Proof. unfold at_hand. destruct (decide (id = j)), (decide (Some id = Some j)); congruence. Qed.

Section invariant.
Context {St Mem Slot Channel : Type} `{!Calls St Mem Slot Channel}
  `{!CallsLaws St Mem Slot Channel}.

Abbreviation Plane := (KernelPlane St Mem Slot Channel).
Implicit Types p : Plane.

Definition kslots p : gmap Z entry := slots_of (calls p).

(** The slots of a task are the kernel's, on their side, and over once drained. *)
Definition slots_ok p (output : bool) (l : list (SlotRec Slot)) : Prop :=
  ∀ r, r ∈ l → ∃ e, kslots p !! slot_id (sr_slot r) = Some e ∧ e_output e = output ∧
    (drained r = true → e_over e = true).

(** Between two calls of a method: [hand] is an object whose handle the method has in a
    variable, [loose] one the arena holds that is in no batch and not in the pool, and
    [extra] what the count of window bytes is ahead by.  [nb] bounds the batches ever
    made and what is in the slots, [na] the objects ever made. *)
Record inv (nb na : Z) (hand loose : option Z) (extra : Z) p : Prop := {
  inv_kernel : kernel_ok (calls p);
  inv_arena : wf (arena p);
  inv_windows : windows p = window_bytes (kslots p) (arena p) + extra;
  inv_out : ∀ id, windows_in id (kslots p) + at_hand hand id = no_handle (arena p) id;
  inv_batch : ∀ b r, batches p !! b = Some r →
    is_Some (Arena.handle_of (arena p) (object r)) ∧ (object r ∉ pool (arena p)) ∧
    loose ≠ Some (object r) ∧ shares r = shares_in b (kslots p) ∧ 0 < b < next_batch p;
  inv_nobatch : ∀ b, batches p !! b = None → shares_in b (kslots p) = 0;
  inv_distinct : ∀ b c r q, batches p !! b = Some r → batches p !! c = Some q →
    object r = object q → b = c;
  inv_covered : ∀ id, is_Some (Arena.handle_of (arena p) id) →
    id ∈ pool (arena p) ∨ loose = Some id ∨ ∃ b r, batches p !! b = Some r ∧ object r = id;
  inv_loose : ∀ id, loose = Some id →
    is_Some (Arena.handle_of (arena p) id) ∧ id ∉ pool (arena p);
  inv_tasks : ∀ i t, tasks p !! i = Some t →
    ended t = false ∧ slots_ok p false (inputs t) ∧ slots_ok p true (outputs t);
  inv_events : ∀ b, Event.Freed b ∈ events p → b < next_batch p ∧ batches p !! b = None;
  inv_next : 0 < next_batch p ∧ next_batch p + pushed_in (kslots p) ≤ nb < 2 ^ 64;
  inv_made : PlaneArena.next (arena p) ≤ na;
}.

(** Every batch but [except] has a holder. *)
Definition live (except : option Z) p : Prop :=
  ∀ b r, batches p !! b = Some r → except ≠ Some b → held r = true ∨ 0 < shares r.

(** ** The kernel's calls *)

Lemma slots_ok_later p s output l :
  later (kslots p) (slots_of s) → slots_ok p output l → slots_ok (set_calls s p) output l.
Proof.
  intros L H r Hr. destruct (H r Hr) as (e & He & Ho & Hd). specialize (L (slot_id (sr_slot r))).
  unfold kslots in *. simpl. rewrite He in L.
  destruct (slots_of s !! slot_id (sr_slot r)) as [e'|]; [|done].
  destruct L as (E & _ & Hov). exists e'. rewrite E. auto.
Qed.

Lemma quiet_refl (s : St) : quiet s s.
Proof. by split. Qed.

Lemma quiet_trans (s1 s2 s3 : St) : quiet s1 s2 → quiet s2 s3 → quiet s1 s3.
Proof. intros [E1 K1] [E2 K2]. split; [congruence|auto]. Qed.

Lemma inv_set_calls nb na hand loose x p s :
  inv nb na hand loose x p → later (kslots p) (slots_of s) → kernel_ok s →
  inv nb na hand loose x (set_calls s p).
Proof.
  intros I L K. destruct (later_sums _ _ L) as (Ls & Lw & Lp). destruct I.
  split; unfold kslots in *; simpl; try done.
  - by rewrite inv_windows0, (later_window_bytes _ _ _ L).
  - intros id. by rewrite Lw.
  - intros b r Hb. rewrite Ls. by apply inv_batch0.
  - intros b Hb. rewrite Ls. by apply inv_nobatch0.
  - intros i t Ht. destruct (inv_tasks0 i t Ht) as (? & ? & ?).
    split; [done|]. split; by apply slots_ok_later.
  - by rewrite Lp.
Qed.

Lemma inv_quiet nb na hand loose x p s :
  inv nb na hand loose x p → quiet (calls p) s → inv nb na hand loose x (set_calls s p).
Proof.
  intros I [E K]. apply inv_set_calls; [done| |apply K, (inv_kernel _ _ _ _ _ _ I)].
  rewrite E. apply later_refl.
Qed.

Lemma inv_more nb na nb' na' hand loose x p :
  nb ≤ nb' < 2 ^ 64 → na ≤ na' → inv nb na hand loose x p → inv nb' na' hand loose x p.
Proof. intros ? ? []. split; try done; lia. Qed.

(** ** The arena *)

Lemma handle_of_None a id : no_handle (Mem := Mem) a id = 1 → Arena.handle_of a id = None.
Proof.
  unfold no_handle, Arena.handle_of. destruct (objects a !! id) as [o|]; [|done]. simpl.
  by destruct (handle o).
Qed.

Lemma no_handle_Some a id : no_handle (Mem := Mem) a id = 1 →
  ∃ o, objects a !! id = Some o ∧ handle o = None.
Proof.
  unfold no_handle. destruct (objects a !! id) as [o|]; [|done].
  destruct (handle o) eqn:E; [done|]. eauto.
Qed.

Lemma window_bytes_ext (m : gmap Z entry) (a a' : Arena Mem) :
  (∀ id, 0 < windows_in id m → Arena.size_of a' id = Arena.size_of a id) →
  window_bytes m a' = window_bytes m a.
Proof.
  intros H. apply map_sum_ext. intros i e He. destruct (e_output e) eqn:Eo; [|done]. f_equal.
  apply list_fmap_ext. intros j c Hc. apply H. apply list_elem_of_lookup_2 in Hc.
  apply occ_in in Hc. eapply Z.lt_le_trans; [exact Hc|].
  pose proof (map_sum_lookup_le (λ _ e, if e_output e then occ c (e_cookies e) else 0) m i e)
    as L. simpl in L. rewrite Eo in L. apply L; [|done].
  intros k d _. destruct (e_output d); [apply occ_nonneg|lia].
Qed.

Lemma window_bytes_update m (a : Arena Mem) i e l o :
  m !! i = Some e →
  window_bytes (<[i := mk_entry (e_output e) l o]> m) a =
  window_bytes m a - (if e_output e then sumZ (Arena.size_of a <$> e_cookies e) else 0) +
    (if e_output e then sumZ (Arena.size_of a <$> l) else 0).
Proof. intros H. unfold window_bytes. by rewrite (map_sum_update _ _ _ _ _ H). Qed.

(** What is at hand or in a slot is an object with no handle, so not pooled and in no
    batch. *)
Lemma out_object nb na hand loose x p id :
  inv nb na hand loose x p → 0 < windows_in id (kslots p) + at_hand hand id →
  ∃ o, objects (arena p) !! id = Some o ∧ handle o = None ∧ (id ∉ pool (arena p)) ∧
    windows_in id (kslots p) + at_hand hand id = 1.
Proof.
  intros I Hpos. pose proof (inv_out _ _ _ _ _ _ I id) as E.
  assert (no_handle (arena p) id = 1) as H1.
  { unfold no_handle in *. repeat case_match; lia. }
  destruct (no_handle_Some _ _ H1) as (o & Ho & Hh). exists o. split; [done|]. split; [done|].
  split; [|lia]. intros Hin.
  destruct (wf_pooled _ (inv_arena _ _ _ _ _ _ I) id Hin) as (o' & h & Ho' & Hh').
  congruence.
Qed.

(** An object the arena holds outside its pool. *)
Definition kept (a : Arena Mem) (id : Z) : Prop :=
  is_Some (Arena.handle_of a id) ∧ id ∉ pool a.

Lemma inv_set_arena nb na na' hand hand' loose loose' x p a :
  inv nb na hand loose x p → wf a → PlaneArena.next a ≤ na' →
  (∀ j, windows_in j (kslots p) + at_hand hand' j = no_handle a j) →
  (∀ j, 0 < windows_in j (kslots p) → Arena.size_of a j = Arena.size_of (arena p) j) →
  (∀ j, loose' ≠ Some j → kept a j ↔ kept (arena p) j ∧ loose ≠ Some j) →
  (∀ j, loose' = Some j → kept a j ∧ (kept (arena p) j → loose = Some j)) →
  inv nb na' hand' loose' x (set_arena a p).
Proof.
  intros I W Hna Hout Hsz Hkept Hloose. destruct I.
  split; unfold kslots in *; simpl; try done.
  - rewrite inv_windows0. f_equal. symmetry. by apply window_bytes_ext.
  - intros b r Hb. destruct (inv_batch0 b r Hb) as (Hh & Hp & Hl & Hsh & Hlt).
    assert (loose' ≠ Some (object r)) as Hne.
    { intros E. destruct (Hloose _ E) as [_ K]. by apply Hl, K. }
    destruct (proj2 (Hkept _ Hne)) as [K1 K2]; [done|]. done.
  - intros id Hid. destruct (decide (id ∈ pool a)); [by left|].
    destruct (decide (loose' = Some id)) as [|Hne]; [by right; left|]. right; right.
    destruct (proj1 (Hkept id Hne)) as [[K1 K2] Hl]; [done|].
    destruct (inv_covered0 id K1) as [?|[?|?]]; done.
  - intros id E. by destruct (Hloose id E).
Qed.

Lemma took_kept (a a' : Arena Mem) id size j :
  wf a → took a id size a' → kept a' j ↔ kept a j.
Proof.
  intros W T. unfold kept, Arena.handle_of. destruct (decide (j = id)) as [->|Hne].
  - rewrite (took_object _ _ _ _ T). simpl. split; [by intros [[] _]|].
    intros [[h Hh] Hp]. destruct (took_from _ _ _ _ T) as [?|E]; [done|]. by rewrite E in Hh.
  - destruct (decide (j ∈ pool a)) as [Hj|Hj].
    + split; [|by intros []]. intros [[h Hh] Hp].
      by rewrite (took_gone _ _ _ _ T j) in Hh.
    + rewrite (took_others _ _ _ _ T j) by auto. split; [by intros []|].
      intros [Hh _]. split; [done|]. intros Hin. by apply (took_pool _ _ _ _ T) in Hin as [].
Qed.

Lemma shrunk_kept (a a' : Arena Mem) j : shrunk a a' → kept a' j ↔ kept a j.
Proof.
  intros S. unfold kept, Arena.handle_of. destruct (decide (j ∈ pool a)) as [Hj|Hj].
  - split; [|by intros []]. intros [[h Hh] Hp]. by rewrite (shrunk_gone _ _ S j) in Hh.
  - rewrite (shrunk_objects _ _ S j) by auto. split; [by intros []|].
    intros [Hh _]. split; [done|]. intros Hin. by apply (shrunk_pool _ _ S) in Hin.
Qed.

(** Objects a method may not lose sight of: those in slots. *)
Lemma out_unpooled nb na x p j :
  inv nb na None None x p → 0 < windows_in j (kslots p) →
  (j ∉ pool (arena p)) ∧ is_Some (objects (arena p) !! j).
Proof.
  intros I Hj. destruct (out_object _ _ _ _ _ _ j I) as (o & Ho & _ & Hp & _); [|eauto].
  unfold at_hand. simpl. lia.
Qed.

Lemma inv_took nb na x p id size a :
  inv nb na None None x p → took (arena p) id size a → na + 1 < 2 ^ 64 →
  inv nb (na + 1) (Some id) None x (set_arena a p).
Proof.
  intros I T Hna. pose proof (inv_arena _ _ _ _ _ _ I) as W.
  assert (∀ j, 0 < windows_in j (kslots p) → j ≠ id) as Hne.
  { intros j Hj ->. destruct (out_unpooled _ _ _ _ _ I Hj) as [? []].
    destruct (took_from _ _ _ _ T); congruence. }
  eapply inv_set_arena; [done|apply T| | | | |done].
  - pose proof (took_next _ _ _ _ T). pose proof (inv_made _ _ _ _ _ _ I). lia.
  - intros j. pose proof (inv_out _ _ _ _ _ _ I j) as E. unfold at_hand, no_handle in *.
    simpl in E. destruct (decide (Some id = Some j)) as [[= <-]|Hj].
    + rewrite (took_object _ _ _ _ T). simpl. pose proof (windows_in_nonneg id (kslots p)).
      destruct (decide (windows_in id (kslots p) = 0)); [lia|]. destruct (Hne id); [lia|done].
    + assert (j ≠ id) by congruence. rewrite E.
      destruct (decide (j ∈ pool (arena p))) as [Hp|Hp].
      * destruct (wf_pooled _ W j Hp) as (o & h & Ho & Hh). rewrite Ho, Hh.
        destruct (decide (j ∈ pool a)).
        -- rewrite (took_others _ _ _ _ T j) by auto. by rewrite Ho, Hh.
        -- by rewrite (took_gone _ _ _ _ T j).
      * by rewrite (took_others _ _ _ _ T j) by auto.
  - intros j Hj. destruct (out_unpooled _ _ _ _ _ I Hj) as [Hp _]. unfold Arena.size_of.
    rewrite (took_others _ _ _ _ T j); auto.
  - intros j _. rewrite (took_kept _ _ _ _ j W T). naive_solver.
Qed.

Lemma inv_shrunk nb na x p a :
  inv nb na None None x p → shrunk (arena p) a → inv nb na None None x (set_arena a p).
Proof.
  intros I S. pose proof (inv_arena _ _ _ _ _ _ I) as W.
  eapply inv_set_arena; [done|apply S| | | | |done].
  - rewrite (shrunk_next _ _ S). apply (inv_made _ _ _ _ _ _ I).
  - intros j. rewrite (inv_out _ _ _ _ _ _ I j). unfold no_handle.
    destruct (decide (j ∈ pool (arena p))) as [Hp|Hp].
    + destruct (wf_pooled _ W j Hp) as (o & h & Ho & Hh). rewrite Ho, Hh.
      destruct (decide (j ∈ pool a)).
      * rewrite (shrunk_objects _ _ S j) by auto. by rewrite Ho, Hh.
      * by rewrite (shrunk_gone _ _ S j).
    + by rewrite (shrunk_objects _ _ S j) by auto.
  - intros j Hj. destruct (out_unpooled _ _ _ _ _ I Hj) as [Hp _]. unfold Arena.size_of.
    rewrite (shrunk_objects _ _ S j); auto.
  - intros j _. rewrite (shrunk_kept _ _ j S). naive_solver.
Qed.

Lemma inv_arena_take nb na x p n :
  inv nb na None None x p → u64 n → na + 1 < 2 ^ 64 →
  match arena_take n p with
  | (Ok (id, m, size), p') =>
      inv nb (na + 1) (Some id) None x p' ∧ Arena.size_of (arena p') id = size ∧ n ≤ size ∧
      tasks p' = tasks p ∧ batches p' = batches p
  | (Err e, p') =>
      inv nb (na + 1) None None x p' ∧ tasks p' = tasks p ∧ batches p' = batches p ∧
      match e with
      | PlaneError.Limit _ | PlaneError.Budget _ _ | PlaneError.Kernel _ => True
      | _ => False
      end
  end.
Proof.
  intros I Hn Hna. unfold arena_take.
  pose proof (inv_made _ _ _ _ _ _ I) as Hm. pose proof (inv_arena _ _ _ _ _ _ I) as W.
  pose proof (inv_next _ _ _ _ _ _ I) as Hnb.
  pose proof (take_cases memory (arena p) (calls p) n W Hn ltac:(lia)) as T.
  destruct (Arena.take memory n (arena p, calls p)) as [[[[id m] size]|e] [a s]].
  - destruct T as (T & Hle & Hs). split; [|split; [|done]].
    + apply inv_quiet; [by eapply inv_took|].
      destruct Hs as [->|[k ->]]; [apply quiet_refl|apply memory_quiet].
    + unfold Arena.size_of. simpl. by rewrite (took_object _ _ _ _ T).
  - destruct T as (S & Hs & He). split; [|done]. apply inv_quiet.
    + apply (inv_more nb na); [lia|lia|]. by apply inv_shrunk.
    + destruct Hs as [->|[k ->]]; [apply quiet_refl|apply memory_quiet].
Qed.

Lemma inv_hold nb na x p id h :
  inv nb na (Some id) None x p →
  ∃ a, with_arena (Arena.hold id h) p = (Ok tt, set_arena a p) ∧
    inv nb na None (Some id) x (set_arena a p) ∧
    ∀ j, Arena.size_of a j = Arena.size_of (arena p) j.
Proof.
  intros I. pose proof (inv_arena _ _ _ _ _ _ I) as W.
  pose proof (windows_in_nonneg id (kslots p)).
  destruct (out_object _ _ _ _ _ _ id I) as (o & Ho & Hh & Hp & H1).
  { unfold at_hand. rewrite decide_True by done. lia. }
  unfold at_hand in H1. rewrite decide_True in H1 by done.
  destruct (hold_spec _ id h o W Ho Hh) as (a & E & W' & _ & _ & _ & En & Ep & Eo).
  assert (∀ j, Arena.size_of a j = Arena.size_of (arena p) j) as Hsz.
  { intros j. unfold Arena.size_of. rewrite Eo. destruct (decide (j = id)) as [->|].
    - by rewrite lookup_insert_eq, Ho.
    - by rewrite lookup_insert_ne. }
  assert (∀ j, j ≠ id → kept a j ↔ kept (arena p) j) as Hk.
  { intros j Hj. unfold kept, Arena.handle_of. by rewrite Ep, Eo, lookup_insert_ne. }
  exists a. unfold with_arena. rewrite E. split; [done|]. split; [|done].
  eapply inv_set_arena; [done|done| | |by auto| |].
  - rewrite En. apply (inv_made _ _ _ _ _ _ I).
  - intros j. pose proof (inv_out _ _ _ _ _ _ I j) as X. unfold at_hand, no_handle in *.
    simpl. rewrite Eo. destruct (decide (j = id)) as [->|].
    + rewrite lookup_insert_eq. simpl. lia.
    + rewrite lookup_insert_ne by done. by rewrite decide_False in X by congruence.
  - intros j Hj. rewrite Hk by congruence. naive_solver.
  - intros j [= <-]. unfold kept, Arena.handle_of. rewrite Ep, Eo, lookup_insert_eq, Ho.
    simpl. rewrite Hh. split; [by eauto|]. by intros [[] _].
Qed.

Lemma inv_free nb na hand x p id :
  inv nb na hand (Some id) x p →
  ∃ a, with_arena (Arena.free id) p = (Ok tt, set_arena a p) ∧
    inv nb na hand None x (set_arena a p).
Proof.
  intros I. pose proof (inv_arena _ _ _ _ _ _ I) as W.
  destruct (inv_loose _ _ _ _ _ _ I id eq_refl) as [[h Hh] Hp].
  unfold Arena.handle_of in Hh. destruct (objects (arena p) !! id) as [o|] eqn:Ho; [|done].
  simpl in Hh. destruct (free_spec _ id o h W Ho Hh Hp) as (a & E & W' & _ & _ & _ & En & Ep & Eo).
  exists a. unfold with_arena. rewrite E. split; [done|].
  eapply inv_set_arena; [done|done| | | | |done].
  - rewrite En. apply (inv_made _ _ _ _ _ _ I).
  - intros j. rewrite (inv_out _ _ _ _ _ _ I j). unfold no_handle. by rewrite Eo.
  - intros j _. unfold Arena.size_of. by rewrite Eo.
  - intros j _. unfold kept, Arena.handle_of. rewrite Eo, Ep, not_elem_of_app.
    rewrite list_elem_of_singleton. naive_solver.
Qed.

Lemma inv_untake nb na x p id h :
  inv nb na (Some id) None x p →
  ∃ a, with_arena (Arena.untake id h) p = (Ok tt, set_arena a p) ∧
    inv nb na None None x (set_arena a p).
Proof.
  intros I. destruct (inv_hold _ _ _ _ _ h I) as (a & E & I' & _).
  destruct (inv_free _ _ _ _ _ _ I') as (a' & E' & I'').
  exists a'. unfold with_arena, Arena.untake in *.
  destruct (Arena.hold id h (arena p)) as [[[]|e] a1]; [|done].
  injection E as E. simpl in E'. subst a1.
  destruct (Arena.free id a) as [r a2]. injection E' as -> E'. subst a2. done.
Qed.

(** ** Batches *)

Lemma inv_insert_batch nb na x p obj off n :
  inv nb na None (Some obj) x p → nb + 1 < 2 ^ 64 →
  let '(id, p') := insert_batch (mk_BatchRec obj off n 0 true) p in
  inv (nb + 1) na None None x p' ∧ batches p' !! id = Some (mk_BatchRec obj off n 0 true) ∧
  (live None p → live None p').
Proof.
  intros I Hnb. pose proof (inv_next _ _ _ _ _ _ I) as [Hn0 Hn]. unfold insert_batch. simpl.
  assert (0 ≤ pushed_in (kslots p)) as Hp0.
  { apply map_sum_nonneg. intros. apply zlen_nonneg. }
  assert (next_batch p +! 1 = next_batch p + 1) as ->.
  { apply wrap_small. unfold in_width. lia. }
  assert (batches p !! next_batch p = None) as Fr.
  { destruct (batches p !! next_batch p) as [r|] eqn:E; [|done].
    destruct (inv_batch _ _ _ _ _ _ I _ _ E) as (_ & _ & _ & _ & ?). lia. }
  pose proof (inv_loose _ _ _ _ _ _ I obj eq_refl) as [Ho Hop].
  split; [|split; [apply lookup_insert_eq|]].
  - destruct I. split; unfold kslots in *; simpl in *; try done.
    + intros b r Hb. apply lookup_insert_Some in Hb as [[<- <-]|[Hne Hb]]; simpl.
      * split_and!; try done; try lia. by rewrite inv_nobatch0.
      * destruct (inv_batch0 b r Hb) as (? & ? & ? & ? & ?). split_and!; try done; lia.
    + intros b Hb. apply lookup_insert_None in Hb as [Hb _]. by apply inv_nobatch0.
    + intros b c r q Hb Hc.
      apply lookup_insert_Some in Hb as [[<- <-]|[Hb1 Hb]];
        apply lookup_insert_Some in Hc as [[<- <-]|[Hc1 Hc]]; simpl; try done.
      * intros ->. by destruct (inv_batch0 c q Hc) as (_ & _ & ? & _).
      * intros <-. by destruct (inv_batch0 b r Hb) as (_ & _ & ? & _).
      * by apply inv_distinct0.
    + intros id Hid. destruct (inv_covered0 id Hid) as [?|[[= <-]|(b & r & Hb & <-)]].
      * by left.
      * right; right. eexists _, _. split; [apply lookup_insert_eq|done].
      * right; right. exists b, r. split; [|done]. rewrite lookup_insert_ne; [done|congruence].
    + intros b Hb. destruct (inv_events0 b Hb). split; [lia|].
      rewrite lookup_insert_ne; [done|lia].
    + lia.
  - intros L b r Hb _. simpl in Hb. apply lookup_insert_Some in Hb as [[<- <-]|[_ Hb]];
      [by left|]. by apply (L b).
Qed.

Lemma inv_push_event nb na hand loose x p e :
  inv nb na hand loose x p → (∀ b, e = Event.Freed b → b < next_batch p ∧ batches p !! b = None) →
  inv nb na hand loose x (push_event e p).
Proof.
  intros [] He. split; try done. simpl. intros b. rewrite elem_of_app, list_elem_of_singleton.
  intros [Hb| <-]; auto.
Qed.

Lemma inv_delete_batch nb na x p b r :
  inv nb na None None x p → batches p !! b = Some r → shares r = 0 →
  inv nb na None (Some (object r)) x (set_batches (delete b (batches p)) p).
Proof.
  intros I Hb Hs. destruct I. destruct (inv_batch0 b r Hb) as (Ho & Hp & _ & Es & Hlt).
  split; unfold kslots in *; simpl; try done.
  - intros c q Hc. apply lookup_delete_Some in Hc as [Hne Hc].
    destruct (inv_batch0 c q Hc) as (? & ? & _ & ? & ?). split_and!; try done; try lia.
    intros [= E]. by apply Hne, (inv_distinct0 b c r q).
  - intros c Hc. destruct (decide (c = b)) as [->|]; [lia|].
    rewrite lookup_delete_ne in Hc by done. auto.
  - intros c d q q' Hc Hd. apply lookup_delete_Some in Hc as [_ Hc], Hd as [_ Hd].
    by apply inv_distinct0.
  - intros id Hid. destruct (inv_covered0 id Hid) as [?|[?|(c & q & Hc & <-)]];
      [by left|done|]. right. destruct (decide (c = b)) as [->|].
    + left. congruence.
    + right. exists c, q. by rewrite lookup_delete_ne.
  - intros id [= <-]. done.
  - intros c Hc. destruct (inv_events0 c Hc). split; [done|].
    destruct (decide (c = b)) as [->|]; [apply lookup_delete_eq|by rewrite lookup_delete_ne].
Qed.

(** Settling a batch frees it exactly when nothing holds it, and never fails. *)
Lemma settle_keeps nb na x p b :
  inv nb na None None x p → live (Some b) p →
  ∃ p', settle b p = (Ok tt, p') ∧ inv nb na None None x p' ∧ live None p' ∧
    tasks p' = tasks p ∧ calls p' = calls p.
Proof.
  intros I L. unfold settle. destruct (batches p !! b) as [r|] eqn:Hb.
  2:{ exists p. split_and!; try done. intros c q Hc _. apply (L c q Hc). congruence. }
  destruct (inv_batch _ _ _ _ _ _ I _ _ Hb) as (_ & _ & _ & Es & Hlt).
  pose proof (shares_in_nonneg b (kslots p)).
  destruct ((0 <? shares r) || held r) eqn:Eh.
  - exists p. split_and!; try done. intros c q Hc _. destruct (decide (c = b)) as [->|].
    + simplify_eq. apply orb_true_iff in Eh as [Eh|Eh]; [right; by apply Z.ltb_lt|by left].
    + apply (L c q Hc). congruence.
  - apply orb_false_iff in Eh as [Eh%Z.ltb_ge _].
    pose proof (inv_delete_batch _ _ _ _ _ _ I Hb ltac:(lia)) as I'.
    destruct (inv_free _ _ _ _ _ _ I') as (a & E & I'').
    unfold modify, mbind, M_bind. rewrite E. eexists. split; [done|].
    split; [|split; [|done]].
    + apply inv_push_event; [done|]. intros c [= <-]. simpl. split; [lia|apply lookup_delete_eq].
    + intros c q Hc _. simpl in Hc. apply lookup_delete_Some in Hc as [Hne Hc].
      apply (L c q Hc). congruence.
Qed.

(** ** Windows in slots *)

Lemma slots_ok_insert p s i e l o output ls :
  kslots p !! i = Some e → (e_over e = true → o = true) →
  slots_of s = <[i := mk_entry (e_output e) l o]> (kslots p) →
  slots_ok p output ls → slots_ok (set_calls s p) output ls.
Proof.
  intros He Ho Es H r Hr. destruct (H r Hr) as (e' & He' & Eo & Hd).
  unfold kslots in *. simpl. rewrite Es. destruct (decide (i = slot_id (sr_slot r))) as [->|].
  - rewrite lookup_insert_eq. eexists. split; [done|]. simpl.
    rewrite He in He'. simplify_eq. auto.
  - rewrite lookup_insert_ne by done. eauto.
Qed.

(** Replacing an entry of the kernel's slots. *)
Lemma inv_slot nb nb' na hand hand' x x' p s i e l o :
  inv nb na hand None x p → kernel_ok s →
  kslots p !! i = Some e → (e_over e = true → o = true) →
  slots_of s = <[i := mk_entry (e_output e) l o]> (kslots p) →
  (∀ j, windows_in j (slots_of s) + at_hand hand' j = windows_in j (kslots p) + at_hand hand j) →
  (∀ b, shares_in b (slots_of s) = shares_in b (kslots p)) →
  window_bytes (slots_of s) (arena p) + x' = window_bytes (kslots p) (arena p) + x →
  nb' < 2 ^ 64 → pushed_in (slots_of s) - pushed_in (kslots p) ≤ nb' - nb →
  inv nb' na hand' None x' (set_calls s p).
Proof.
  intros I K He Ho Es Hw Hs Hx Hn Hp. destruct I. unfold kslots in *.
  split; unfold kslots; simpl; try done.
  - lia.
  - intros j. by rewrite Hw.
  - intros b r Hb. rewrite Hs. by apply inv_batch0.
  - intros b Hb. rewrite Hs. auto.
  - intros j t Ht. destruct (inv_tasks0 j t Ht) as (? & ? & ?). split; [done|].
    split; by eapply slots_ok_insert.
  - lia.
Qed.

Lemma inv_push_window nb na x p sl h off n id s e :
  inv nb na (Some id) None x p → nb + 1 < 2 ^ 64 →
  kslots p !! slot_id sl = Some e → e_output e = true →
  push sl h off n id (calls p) = (Ok tt, s) →
  inv (nb + 1) na None None (x - Arena.size_of (arena p) id) (set_calls s p).
Proof.
  intros I Hnb He Eo E.
  pose proof (push_law sl h off n id (calls p) e (inv_kernel _ _ _ _ _ _ I) He) as L.
  rewrite E in L. destruct L as (K & Ho & l & P & Es). fold (kslots p) in Es.
  eapply inv_slot; [done|done|done| |exact Es| | | |done|]; rewrite ?Es.
  - congruence.
  - intros j. rewrite windows_in_update by done. rewrite Eo, (occ_perm j _ _ P), occ_cons.
    rewrite at_hand_Some, at_hand_None. lia.
  - intros b. rewrite shares_in_update by done. rewrite Eo. lia.
  - rewrite window_bytes_update by done. rewrite Eo.
    rewrite (sumZ_perm (Arena.size_of (arena p) <$> l)
      (Arena.size_of (arena p) <$> id :: e_cookies e)) by by rewrite P.
    rewrite fmap_cons, sumZ_cons. lia.
  - rewrite pushed_in_update by done. rewrite (zlen_perm _ _ P), zlen_cons. lia.
Qed.

Lemma inv_take_window nb na x p sl c l o s e :
  inv nb na None None x p → kernel_ok s → kslots p !! slot_id sl = Some e →
  e_output e = true → e_cookies e ≡ₚ c :: l →
  slots_of s = <[slot_id sl := mk_entry (e_output e) l o]> (kslots p) →
  inv (nb - 1) na (Some c) None (x + Arena.size_of (arena p) c) (set_calls s p).
Proof.
  intros I K He Eo P Es. pose proof (inv_next _ _ _ _ _ _ I) as [_ Hn].
  eapply inv_slot; [done|done|done| |exact Es| | | | |]; rewrite ?Es.
  - intros Ho. pose proof (over_empty (calls p) _ e He Ho) as X. rewrite X in P.
    by apply Permutation_nil_cons in P.
  - intros j. rewrite windows_in_update by done. rewrite Eo, (occ_perm j _ _ P), occ_cons.
    rewrite at_hand_Some, at_hand_None. lia.
  - intros b. rewrite shares_in_update by done. rewrite Eo. lia.
  - rewrite window_bytes_update by done. rewrite Eo.
    rewrite (sumZ_perm (Arena.size_of (arena p) <$> e_cookies e)
      (Arena.size_of (arena p) <$> c :: l)) by by rewrite P.
    rewrite fmap_cons, sumZ_cons. lia.
  - lia.
  - rewrite pushed_in_update by done. rewrite (zlen_perm _ _ P), zlen_cons. lia.
Qed.

(** ** Shares in slots *)

Definition set_shares (r : BatchRec) (n : Z) : BatchRec :=
  mk_BatchRec (object r) (offset r) (len r) n (held r).

(** Replacing an input slot's entry and the shares of one batch with it. *)
Lemma inv_shares nb nb' na x p s i e l o b r n :
  inv nb na None None x p → kernel_ok s → kslots p !! i = Some e → e_output e = false →
  (e_over e = true → o = true) →
  slots_of s = <[i := mk_entry (e_output e) l o]> (kslots p) →
  batches p !! b = Some r → n = shares r - occ b (e_cookies e) + occ b l →
  (∀ c, c ≠ b → occ c l = occ c (e_cookies e)) →
  nb' < 2 ^ 64 → zlen l - zlen (e_cookies e) ≤ nb' - nb →
  inv nb' na None None x
    (set_batches (<[b := set_shares r n]> (batches p)) (set_calls s p)).
Proof.
  intros I K He Eo Ho Es Hb Hn Hocc Hnb Hlen. destruct I. unfold kslots in *.
  assert (∀ c, shares_in c (slots_of s) =
    shares_in c (slots_of (calls p)) - occ c (e_cookies e) + occ c l) as Hsh.
  { intros c. rewrite Es, shares_in_update by done. by rewrite Eo. }
  split; unfold kslots; simpl; try done.
  - rewrite inv_windows0, Es, window_bytes_update by done. rewrite Eo. lia.
  - intros j. rewrite Es, windows_in_update by done. rewrite Eo, <-inv_out0. lia.
  - intros c q Hc. rewrite Hsh. apply lookup_insert_Some in Hc as [[<- <-]|[Hne Hc]]; simpl.
    + destruct (inv_batch0 b r Hb) as (? & ? & ? & ? & ?). split_and!; try done; lia.
    + destruct (inv_batch0 c q Hc) as (? & ? & ? & ? & ?). rewrite Hocc by done.
      split_and!; try done; lia.
  - intros c Hc. apply lookup_insert_None in Hc as [Hc Hne].
    rewrite Hsh, Hocc, inv_nobatch0 by done. lia.
  - intros c d q q' Hc Hd.
    apply lookup_insert_Some in Hc as [[<- <-]|[Hc1 Hc]];
      apply lookup_insert_Some in Hd as [[<- <-]|[Hd1 Hd]]; simpl; try done.
    + intros E. by apply (inv_distinct0 b d r q').
    + intros E. by apply (inv_distinct0 c b q r).
    + by apply inv_distinct0.
  - intros id Hid. destruct (inv_covered0 id Hid) as [?|[?|(c & q & Hc & <-)]];
      [by left|done|]. right; right. destruct (decide (c = b)) as [->|].
    + exists b, (set_shares r n). rewrite lookup_insert_eq. simplify_eq. done.
    + exists c, q. by rewrite lookup_insert_ne.
  - intros j t Ht. destruct (inv_tasks0 j t Ht) as (? & H1 & H2). split; [done|].
    split; [by eapply (slots_ok_insert p s) in H1|by eapply (slots_ok_insert p s) in H2].
  - intros c Hc. destruct (inv_events0 c Hc). split; [done|].
    rewrite lookup_insert_ne; [done|]. intros <-. congruence.
  - rewrite Es, pushed_in_update by done. lia.
Qed.

Lemma inv_push_share nb na x p sl h off n b r s e :
  inv nb na None None x p → nb + 1 < 2 ^ 64 → live None p →
  kslots p !! slot_id sl = Some e → e_output e = false → batches p !! b = Some r →
  push sl h off n b (calls p) = (Ok tt, s) →
  let p' := set_batches (<[b := set_shares r (shares r +! 1)]> (batches p)) (set_calls s p) in
  inv (nb + 1) na None None x p' ∧ live None p'.
Proof.
  intros I Hnb Lv He Eo Hb E.
  pose proof (push_law sl h off n b (calls p) e (inv_kernel _ _ _ _ _ _ I) He) as L.
  rewrite E in L. destruct L as (K & Ho & l & P & Es). fold (kslots p) in Es.
  destruct (inv_batch _ _ _ _ _ _ I _ _ Hb) as (_ & _ & _ & Hs & Hlt).
  pose proof (inv_next _ _ _ _ _ _ I) as [_ Hn].
  pose proof (shares_in_nonneg b (kslots p)). pose proof (shares_in_le b (kslots p)).
  assert (shares r +! 1 = shares r + 1) as ->.
  { apply wrap_small. unfold in_width. lia. }
  split.
  - eapply inv_shares; [done|done|done|done| |exact Es|done| | |lia|].
    + congruence.
    + rewrite (occ_perm b _ _ P), occ_cons, decide_True by done. lia.
    + intros c Hc. rewrite (occ_perm c _ _ P), occ_cons, decide_False by done. lia.
    + rewrite (zlen_perm _ _ P), zlen_cons. lia.
  - intros c q Hc _. simpl in Hc. apply lookup_insert_Some in Hc as [[<- <-]|[_ Hc]].
    + right. simpl. lia.
    + by apply (Lv c).
Qed.

Lemma inv_take_share nb na x p sl c l o s e :
  inv nb na None None x p → live None p → kernel_ok s →
  kslots p !! slot_id sl = Some e → e_output e = false → e_cookies e ≡ₚ c :: l →
  slots_of s = <[slot_id sl := mk_entry (e_output e) l o]> (kslots p) →
  ∃ r, batches p !! c = Some r ∧
    let p' := set_batches (<[c := set_shares r (saturating_sub (shares r) 1)]> (batches p))
                (set_calls s p) in
    inv (nb - 1) na None None x p' ∧ live (Some c) p'.
Proof.
  intros I Lv K He Eo P Es. pose proof (inv_next _ _ _ _ _ _ I) as [_ Hn].
  assert (occ c (e_cookies e) ≤ shares_in c (kslots p)) as Hle.
  { pose proof (map_sum_lookup_le (λ _ e, if e_output e then 0 else occ c (e_cookies e))
      (kslots p) (slot_id sl) e) as L. simpl in L. rewrite Eo in L. apply L; [|done].
    intros k d _. destruct (e_output d); [lia|apply occ_nonneg]. }
  rewrite (occ_perm c _ _ P), occ_cons, decide_True in Hle by done.
  pose proof (occ_nonneg c l).
  destruct (batches p !! c) as [r|] eqn:Hc.
  2:{ pose proof (inv_nobatch _ _ _ _ _ _ I c Hc). lia. }
  destruct (inv_batch _ _ _ _ _ _ I _ _ Hc) as (_ & _ & _ & Hs & Hlt).
  exists r. split; [done|]. rewrite saturating_sub_max. split.
  - eapply inv_shares; [done|done|done|done| |exact Es|done| | |lia|].
    + intros Ho. pose proof (over_empty (calls p) _ e He Ho) as X. rewrite X in P.
      by apply Permutation_nil_cons in P.
    + rewrite (occ_perm c _ _ P), occ_cons, decide_True by done. lia.
    + intros d Hd. rewrite (occ_perm d _ _ P), occ_cons, decide_False by done. lia.
    + rewrite (zlen_perm _ _ P), zlen_cons. lia.
  - intros d q Hd Hne. simpl in Hd. rewrite lookup_insert_ne in Hd by congruence.
    by apply (Lv d).
Qed.

(** ** Other fields *)

Lemma inv_set_windows nb na hand loose x x' p w :
  inv nb na hand loose x p → w - windows p = x' - x →
  inv nb na hand loose x' (set_windows w p).
Proof. intros [] E. split; try done. simpl. unfold kslots in *. simpl. lia. Qed.

Lemma inv_put_task nb na hand loose x p i t :
  inv nb na hand loose x p → ended t = false → slots_ok p false (inputs t) →
  slots_ok p true (outputs t) → inv nb na hand loose x (put_task i t p).
Proof.
  intros [] He Hi Ho. split; try done. simpl. intros j u Hu.
  apply lookup_insert_Some in Hu as [[<- <-]|[_ Hu]]; [done|]. by apply (inv_tasks0 j).
Qed.

Lemma inv_drop_task nb na hand loose x p i :
  inv nb na hand loose x p → inv nb na hand loose x (set_tasks (delete i (tasks p)) p).
Proof.
  intros []. split; try done. simpl. intros j u Hu.
  apply lookup_delete_Some in Hu as [_ Hu]. by apply (inv_tasks0 j).
Qed.

End invariant.

(** ** The methods *)

Section methods.
Context {St Mem Slot Channel : Type} `{!Calls St Mem Slot Channel}
  `{!CallsLaws St Mem Slot Channel}.
Context {R : Type}.
Variable verify : Z → (Z → Z → M St Error (list byte)) → M St text R.
Variable rows : R → Z.

(** The record check only reads. *)
Hypothesis verify_reads : ∀ n rd (P : St → Prop),
  (∀ at_ k s, P s → P (rd at_ k s).2) → ∀ s, P s → P (verify n rd s).2.

Abbreviation Plane := (KernelPlane St Mem Slot Channel).
Implicit Types p : Plane.

(** What holds of a plane between its methods. *)
Definition good (nb na : Z) p : Prop := inv nb na None None 0 p ∧ live None p.

(** An error of the plane's own bookkeeping, which no caller can provoke. *)
Definition internal (e : PlaneError.t) : Prop :=
  e = PlaneError.Unknown "a pooled object with no handle" ∨
  e = PlaneError.Unknown "an object the arena did not make" ∨
  e = PlaneError.Unknown "an object the arena already holds" ∨
  e = PlaneError.Unknown "an object a slot still holds" ∨
  e = PlaneError.Unknown "a batch whose object a slot holds".

Definition external {A} (r : result PlaneError.t A) : Prop :=
  match r with Ok _ => True | Err e => ¬ internal e end.

(** The kernel's slots and port messages as they were. *)
Definition same_kernel (s s' : St) : Prop :=
  quiet s s' ∧ messages s' = messages s.

Lemma verify_same n m f s : same_kernel s (verify n (λ at_ k, read m (f at_) k) s).2.
Proof.
  apply (verify_reads n _ (same_kernel s)); [|by split; [apply quiet_refl|]].
  intros at_ k s' [E1 E2]. split; [|by rewrite read_messages].
  eapply quiet_trans; [exact E1|apply read_quiet].
Qed.

Lemma live_same p p' x : batches p' = batches p → live x p → live x p'.
Proof. unfold live. by intros ->. Qed.

Lemma wp_try_call {E A} (c : M St E A) (Q : _ → Plane → Prop) p :
  Q (Ok (c (calls p)).1) (set_calls (c (calls p)).2 p) → wp (try_call c) Q p.
Proof. unfold wp, try_call, act. by destruct (c (calls p)). Qed.

Lemma wp_call {A} (c : M St Error A) (Q : _ → Plane → Prop) p :
  Q (map_err PlaneError.Kernel (c (calls p)).1) (set_calls (c (calls p)).2 p) →
  wp (call c) Q p.
Proof. unfold wp, call. by destruct (c (calls p)). Qed.

Lemma load_with_good nb na p n (wr : Mem → M St Error unit) :
  good nb na p → u64 n → nb + 1 < 2 ^ 64 → na + 1 < 2 ^ 64 →
  (∀ m s, quiet s (wr m s).2) →
  wp (load_with verify rows n wr) (λ r p', good (nb + 1) (na + 1) p' ∧ external r) p.
Proof.
  intros [I L] Hn Hnb Hna Hwr. unfold load_with. apply wp_bind. unfold wp at 1.
  pose proof (inv_next _ _ _ _ _ _ I) as [_ Hb].
  pose proof (inv_arena_take _ _ _ _ _ I Hn Hna) as T.
  destruct (arena_take n p) as [[[[id m] size]|e] p1]; simpl.
  2:{ destruct T as (I1 & _ & Eb & He). split; [|destruct e; try done; by intros [|[|[|[|]]]]].
      split; [apply (inv_more nb (na + 1)); [lia|lia|done]|by eapply live_same]. }
  destruct T as (I1 & _ & _ & _ & Eb1).
  apply wp_bind, wp_try_call. destruct (wr m (calls p1)) as [[[]|e] s] eqn:Ew; simpl.
  - assert (inv nb (na + 1) (Some id) None 0 (set_calls s p1)) as I2.
    { apply inv_quiet; [done|]. pose proof (Hwr m (calls p1)) as X. by rewrite Ew in X. }
    apply wp_bind, wp_try_call. simpl.
    set (v := verify n _ s). assert (quiet s v.2) as Ev.
    { apply (verify_same n m (λ at_, at_)). }
    pose proof (inv_quiet _ _ _ _ _ _ v.2 I2 Ev) as I3.
    apply wp_bind. unfold wp at 1. destruct (inv_hold _ _ _ _ _ m I3) as (a & -> & I4 & _).
    simpl. destruct v.1 as [record|reason].
    + apply wp_bind. unfold wp at 1, act.
      pose proof (inv_insert_batch _ _ _ _ id 0 n I4 Hnb) as B.
      destruct (insert_batch _ _) as [b p5]. destruct B as (I5 & _ & L5). simpl.
      unfold wp, mret, M_ret. simpl. split; [|done]. split; [done|]. apply L5.
      by eapply live_same.
    + apply wp_bind. unfold wp at 1. destruct (inv_free _ _ _ _ _ _ I4) as (a' & -> & I5).
      unfold wp, fail. simpl. split; [|by intros [|[|[|[|]]]]]. split.
      * apply (inv_more nb (na + 1)); [lia|lia|done].
      * by eapply live_same.
  - assert (inv nb (na + 1) (Some id) None 0 (set_calls s p1)) as I2.
    { apply inv_quiet; [done|]. pose proof (Hwr m (calls p1)) as X. by rewrite Ew in X. }
    apply wp_bind. unfold wp at 1. destruct (inv_untake _ _ _ _ _ m I2) as (a & -> & I3).
    unfold wp, fail. simpl. split; [|by intros [|[|[|[|]]]]]. split.
    + apply (inv_more nb (na + 1)); [lia|lia|done].
    + by eapply live_same.
Qed.

Lemma good_more nb na nb' na' p :
  nb ≤ nb' < 2 ^ 64 → na ≤ na' → good nb na p → good nb' na' p.
Proof. intros ? ? [I L]. split; [by apply (inv_more nb na)|done]. Qed.

Lemma window_bytes_nonneg (m : gmap Z entry) (a : Arena Mem) : wf a → 0 ≤ window_bytes m a.
Proof.
  intros W. apply map_sum_nonneg. intros i e _. simpl. destruct (e_output e); [|lia].
  apply sumZ_nonneg, Forall_fmap, Forall_forall. intros c _. simpl. unfold Arena.size_of.
  destruct (objects a !! c) as [o|] eqn:E; [|lia]. pose proof (wf_bytes a W c o E). lia.
Qed.

Lemma entry_bytes (a : Arena Mem) l :
  sumZ (Arena.size_of a <$> l) = map_sum (λ id o, occ id l * bytes o) (objects a).
Proof.
  induction l as [|c l IH].
  - rewrite (map_sum_ext _ (λ _ _, 0)), map_sum_zero; done.
  - rewrite fmap_cons, sumZ_cons, IH.
    rewrite (map_sum_ext (λ id o, occ id (c :: l) * bytes o)
      (λ id o, (if decide (c = id) then bytes o else 0) + occ id l * bytes o)).
    + rewrite map_sum_add, (map_sum_at bytes). done.
    + intros id o _. rewrite occ_cons. destruct (decide _); lia.
Qed.

(** The bytes of the windows in slots, counted by object. *)
Lemma window_bytes_objects m (a : Arena Mem) :
  window_bytes m a = map_sum (λ id o, windows_in id m * bytes o) (objects a).
Proof.
  unfold window_bytes, windows_in.
  rewrite (map_sum_ext _ (λ _ e, map_sum (λ id o,
    (if e_output e then occ id (e_cookies e) else 0) * bytes o) (objects a))).
  - rewrite (map_sum_exchange (λ _ id e o,
      (if e_output e then occ id (e_cookies e) else 0) * bytes o)).
    apply map_sum_ext. intros id o _. symmetry. apply map_sum_mul.
  - intros i e _. destruct (e_output e); [apply entry_bytes|].
    rewrite (map_sum_ext _ (λ _ _, 0)), map_sum_zero; done.
Qed.

Lemma window_bytes_hand nb na x p id :
  inv nb na (Some id) None x p →
  window_bytes (kslots p) (arena p) + Arena.size_of (arena p) id ≤ made (arena p).
Proof.
  intros I. pose proof (inv_arena _ _ _ _ _ _ I) as W. rewrite window_bytes_objects, (wf_made _ W).
  unfold Arena.size_of. rewrite <-(map_sum_at bytes id (objects (arena p))), <-map_sum_add.
  apply map_sum_mono. intros j o Hj. pose proof (wf_bytes _ W j o Hj).
  pose proof (inv_out _ _ _ _ _ _ I j) as E. rewrite at_hand_Some in E.
  pose proof (windows_in_nonneg j (kslots p)). unfold no_handle in E. rewrite Hj in E.
  destruct (decide (id = j)), (handle o); nia.
Qed.

(** The windows' count gives back the bytes of a window that came back. *)
Lemma inv_sub_windows nb na hand loose p size :
  inv nb na hand loose size p →
  inv nb na hand loose 0 (set_windows (saturating_sub (windows p) size) p).
Proof.
  intros I. eapply inv_set_windows; [done|]. rewrite saturating_sub_max.
  rewrite (inv_windows _ _ _ _ _ _ I).
  pose proof (window_bytes_nonneg (kslots p) _ (inv_arena _ _ _ _ _ _ I)). lia.
Qed.

Lemma arrived_good nb na p task output t r id m off n :
  inv nb na (Some id) None (Arena.size_of (arena p) id) p → live None p →
  nb + 1 < 2 ^ 64 → tasks p !! task = Some t → outputs t !! Z.to_nat output = Some r →
  wp (arrived verify rows task output id m off n)
    (λ r p', good (nb + 1) na p' ∧ external r ∧ tasks p' = tasks p ∧
       same_kernel (calls p) (calls p')) p.
Proof.
  intros I L Hnb Ht Hr. unfold arrived. apply wp_bind, wp_try_call. simpl.
  pose proof (inv_next _ _ _ _ _ _ I) as [_ Hb].
  set (v := verify n _ (calls p)).
  assert (same_kernel (calls p) v.2) as [Ev Em] by apply (verify_same n m (λ at_, off +! at_)).
  pose proof (inv_quiet _ _ _ _ _ _ v.2 I Ev) as I1.
  apply wp_bind. unfold wp at 1. destruct (inv_hold _ _ _ _ _ m I1) as (a & -> & I2 & Hsz).
  simpl. apply wp_bind. unfold wp at 1, modify. simpl. rewrite Hsz.
  pose proof (inv_sub_windows _ _ _ _ _ _ I2) as I3. simpl in I3.
  set (p3 := set_windows _ _) in *. destruct v.1 as [record|reason].
  - apply wp_bind. unfold wp at 1, act.
    pose proof (inv_insert_batch _ _ _ _ id off n I3 Hnb) as B.
    unfold insert_batch in *. simpl in *. destruct B as (I4 & _ & L4).
    unfold wp, modify. simpl. split; [|done]. split; [|apply L4; by eapply live_same].
    apply inv_push_event; [done|]. done.
  - apply wp_bind. unfold wp at 1. destruct (inv_free _ _ _ _ _ _ I3) as (a' & -> & I4).
    simpl. apply wp_bind. unfold wp at 1, get_task. simpl. rewrite Ht. simpl.
    apply wp_bind. unfold wp at 1, lift. simpl. rewrite Hr. simpl.
    apply wp_bind, wp_try_call. simpl.
    set (f := refuse (sr_slot r) reason _).
    assert (quiet v.2 f.2) as Ef by apply refuse_quiet.
    assert (messages f.2 = messages v.2) as Ef' by apply refuse_messages.
    assert (same_kernel (calls p) f.2) by (split; [by eapply quiet_trans|congruence]).
    pose proof (inv_quiet _ _ _ _ _ _ f.2 I4 Ef) as I5.
    assert (good (nb + 1) na (set_calls f.2 (set_arena a' p3))) as G5.
    { split; [apply (inv_more nb na); [lia|lia|done]|by eapply live_same]. }
    apply wp_bind. unfold wp at 1, lift. simpl.
    destruct f.1 as [[]|e]; [|destruct e]; unfold wp, modify; simpl;
      (split; [|split; [done || by intros [|[|[|[|]]]]|done]]);
      try done; (split; [apply inv_push_event; [apply G5|done]|apply G5]).
Qed.

Lemma taken_event_good nb na p task t r output index x sl e s l o :
  good nb na p → kernel_ok s → tasks p !! task = Some t →
  slot_recs t output !! index = Some r → sr_slot r = sl → kslots p !! slot_id sl = Some e → e_output e = output →
  is_released x = negb output → e_cookies e ≡ₚ cookie x :: l →
  slots_of s = <[slot_id sl := mk_entry (e_output e) l o]> (kslots p) →
  wp (taken_event verify rows task index x)
    (λ res p', good nb na p' ∧ external res ∧ tasks p' = tasks p ∧
       same_kernel s (calls p')) (set_calls s p).
Proof.
  intros [I L] K Ht Hr Hsl He Eo Hx P Es. pose proof (inv_next _ _ _ _ _ _ I) as [_ Hb].
  destruct x as [c|c m off n|c m]; simpl in *.
  - assert (e_output e = false) as Eo' by (rewrite Eo; by destruct output).
    destruct (inv_take_share _ _ _ _ _ _ _ _ _ _ I L K He Eo' P Es) as (b & Hc & I1 & L1).
    apply wp_bind. unfold wp at 1, modify. simpl. rewrite Hc.
    apply wp_bind. unfold wp at 1. simpl. unfold wp.
    set (p1 := set_batches _ (set_calls s p)) in *.
    assert (inv (nb - 1) na None None 0 (push_event (Event.Released task (Z.of_nat index) c) p1))
      as I2 by (by apply inv_push_event).
    destruct (settle_keeps _ _ _ _ c I2) as (p' & E & I3 & L3 & T3 & C3).
    { by eapply live_same. }
    unfold set_shares in p1. rewrite E. simpl.
    split; [|split; [done|split; [done|by rewrite C3; split; [apply quiet_refl|]]]].
    apply (good_more (nb - 1) na); [lia|lia|done].
  - assert (e_output e = true) as Eo' by (rewrite Eo; by destruct output).
    assert (output = true) as -> by congruence.
    pose proof (inv_take_window _ _ _ _ _ _ _ _ _ _ I K He Eo' P Es) as I1.
    rewrite Z.add_0_l in I1.
    eapply wp_mono; [eapply (arrived_good (nb - 1) na)|].
    + exact I1.
    + by eapply live_same.
    + lia.
    + exact Ht.
    + by rewrite Nat2Z.id.
    + intros res p' (G & X & T' & C'). rewrite Z.sub_add in G. done.
  - assert (e_output e = true) as Eo' by (rewrite Eo; by destruct output).
    pose proof (inv_take_window _ _ _ _ _ _ _ _ _ _ I K He Eo' P Es) as I1.
    rewrite Z.add_0_l in I1. apply wp_bind. unfold wp at 1, modify. simpl.
    pose proof (inv_sub_windows _ _ _ _ _ _ I1) as I2. simpl in I2.
    destruct (inv_untake _ _ _ _ _ m I2) as (a & E & I3). unfold wp. rewrite E. simpl.
    split; [|done]. apply (good_more (nb - 1) na); [lia|lia|].
    split; [done|by eapply live_same].
Qed.

(** ** Polling *)

Definition shape (t t' : TaskRec Slot Channel) : Prop :=
  length (inputs t') = length (inputs t) ∧ length (outputs t') = length (outputs t).

(** A slot whose task has ended with everything taken back. *)
Definition over p (sl : Slot) : Prop :=
  ∃ e, kslots p !! slot_id sl = Some e ∧ e_over e = true.

(** The tasks after a round: a task is still there with its slots, or gone with all of
    them over. *)
Record after p p' : Prop := {
  after_over : ∀ sl, over p sl → over p' sl;
  after_none : ∀ i, tasks p !! i = None → tasks p' !! i = None;
  after_some : ∀ i t, tasks p !! i = Some t →
    match tasks p' !! i with
    | Some t' => sr_slot <$> inputs t' = sr_slot <$> inputs t ∧
                 sr_slot <$> outputs t' = sr_slot <$> outputs t
    | None => ∀ r, r ∈ inputs t ++ outputs t → over p' (sr_slot r)
    end;
}.

Lemma after_same p p' :
  tasks p' = tasks p → (∀ sl, over p sl → over p' sl) → after p p'.
Proof. intros Et Ho. split; [done|by rewrite Et|]. intros i t Ht. by rewrite Et, Ht. Qed.

Lemma after_kept p p' : tasks p' = tasks p → kslots p' = kslots p → after p p'.
Proof. intros Et Es. apply after_same; [done|]. intros sl. unfold over. by rewrite Es. Qed.

Lemma after_put p p' id t t' :
  tasks p !! id = Some t → tasks p' = <[id := t']> (tasks p) → kslots p' = kslots p →
  sr_slot <$> inputs t' = sr_slot <$> inputs t →
  sr_slot <$> outputs t' = sr_slot <$> outputs t → after p p'.
Proof.
  intros Ht Et Es Ei Eo. split.
  - intros sl. unfold over. by rewrite Es.
  - intros i Hi. rewrite Et, lookup_insert_ne; [done|congruence].
  - intros i u Hu. rewrite Et. destruct (decide (id = i)) as [<-|Hne].
    + rewrite lookup_insert_eq. by simplify_eq.
    + by rewrite lookup_insert_ne, Hu.
Qed.

Lemma elem_of_slots (l k : list (SlotRec Slot)) (r : SlotRec Slot) :
  sr_slot <$> l = sr_slot <$> k → r ∈ k → ∃ r', r' ∈ l ∧ sr_slot r' = sr_slot r.
Proof.
  intros E Hr. assert (sr_slot r ∈ sr_slot <$> l) as H by (rewrite E; by apply list_elem_of_fmap_2).
  apply list_elem_of_fmap in H as (r' & ? & ?). eauto.
Qed.

Lemma after_trans p q r : after p q → after q r → after p r.
Proof.
  intros [O1 N1 S1] [O2 N2 S2]. split; [auto|auto|]. intros i t Ht. specialize (S1 i t Ht).
  destruct (tasks q !! i) as [u|] eqn:Hu.
  - destruct S1 as [Ei Eo]. specialize (S2 i u Hu). destruct (tasks r !! i) as [v|].
    + destruct S2. split; congruence.
    + intros x Hx. apply elem_of_app in Hx as [Hx|Hx];
        [destruct (elem_of_slots _ _ _ Ei Hx) as (y & Hy & <-)|
         destruct (elem_of_slots _ _ _ Eo Hx) as (y & Hy & <-)]; apply S2, elem_of_app; auto.
  - rewrite (N2 _ Hu). auto.
Qed.

(** What polling leaves: no more in the slots and on the ports than there was. *)
Record polled p p' : Prop := {
  polled_pushed : pushed_in (kslots p') ≤ pushed_in (kslots p);
  polled_messages : (messages (calls p') ≤ messages (calls p))%nat;
  polled_after : after p p';
}.

Lemma polled_refl p : polled p p.
Proof. split; [done|done|by apply after_kept]. Qed.

#[local] Hint Resolve polled_refl : core.

Lemma polled_trans p q r : polled p q → polled q r → polled p r.
Proof. intros [? ? A] [? ? B]. split; [lia|lia|by eapply after_trans]. Qed.

Lemma polled_quiet p s :
  quiet (calls p) s → (messages s ≤ messages (calls p))%nat → polled p (set_calls s p).
Proof.
  intros [E _] Hm. split; unfold kslots; simpl; [by rewrite E|done|].
  apply after_kept; [done|]. unfold kslots. simpl. done.
Qed.

(** A loop's result when it has enough rounds: an error is the kernel's or the caller's. *)
Definition halted {A} (r : result halt A) : Prop :=
  match r with Ok _ => True | Err (Refuse e) => ¬ internal e | Err _ => False end.

Lemma not_internal_kernel e : ¬ internal (PlaneError.Kernel e).
Proof. by intros [|[|[|[|]]]]. Qed.

Lemma slot_entry nb na p id t output index r :
  good nb na p → tasks p !! id = Some t → slot_recs t output !! index = Some r →
  ∃ e, kslots p !! slot_id (sr_slot r) = Some e ∧ e_output e = output ∧
    (drained r = true → e_over e = true).
Proof.
  intros [I _] Ht Hr. destruct (inv_tasks _ _ _ _ _ _ I id t Ht) as (_ & Hi & Ho).
  apply list_elem_of_lookup_2 in Hr. destruct output; [by apply Ho|by apply Hi].
Qed.

Lemma drain_slot_good nb na p id t output index r e :
  good nb na p → tasks p !! id = Some t → slot_recs t output !! index = Some r →
  kslots p !! slot_id (sr_slot r) = Some e → e_output e = output → e_over e = true →
  good nb na (put_task id (set_slot_recs t output
    (<[index := mk_SlotRec (sr_slot r) true]> (slot_recs t output))) p).
Proof.
  intros [I L] Ht Hr He Eo Hov. split; [|by eapply live_same].
  destruct (inv_tasks _ _ _ _ _ _ I id t Ht) as (He1 & Hi & Ho).
  assert (∀ ls, slots_ok p output ls → ls !! index = Some r →
    slots_ok p output (<[index := mk_SlotRec (sr_slot r) true]> ls)) as Hins.
  { intros ls Hls Hlr q Hq. apply list_elem_of_lookup in Hq as [j Hj].
    destruct (decide (j = index)) as [->|].
    - rewrite list_lookup_insert_eq in Hj by (by eapply lookup_lt_Some).
      simplify_eq. simpl. exists e. done.
    - rewrite list_lookup_insert_ne in Hj by done. apply Hls.
      by apply list_elem_of_lookup_2 in Hj. }
  apply inv_put_task; [done|by destruct output|..]; destruct output; simpl; auto.
Qed.

Lemma poll_slot_round_good nb na p id t output index r :
  good nb na p → tasks p !! id = Some t → slot_recs t output !! index = Some r →
  wp (poll_slot_round verify rows id output index)
    (λ res p', good nb na p' ∧ halted res ∧ polled p p' ∧
       (∃ t', tasks p' !! id = Some t' ∧ shape t t') ∧
       match res with
       | Ok Continue => pushed_in (kslots p') < pushed_in (kslots p)
       | Ok Return => False
       | _ => True
       end) p.
Proof.
  intros G Ht Hr. pose proof G as [I L].
  destruct (slot_entry _ _ _ _ _ _ _ _ G Ht Hr) as (e & He & Eo & Hd).
  unfold wp, poll_slot_round. rewrite Ht, Hr. destruct (drained r) eqn:Dr.
  { simpl. split_and!; try done. by exists t. }
  pose proof (take_law (sr_slot r) (calls p) e (inv_kernel _ _ _ _ _ _ I) He) as TL.
  pose proof (take_messages (sr_slot r) (calls p)) as TM.
  assert (∀ s, quiet (calls p) s → messages s = messages (calls p) →
    good nb na (set_calls s p) ∧ polled p (set_calls s p) ∧
    ∃ t', tasks (set_calls s p) !! id = Some t' ∧ shape t t') as Quiet.
  { intros s Es Em. split; [split; [by apply inv_quiet|by eapply live_same]|].
    split; [|by exists t]. apply polled_quiet; [done|lia]. }
  destruct (take (sr_slot r) (calls p)) as [[x|err] s] eqn:Et; simpl in TM.
  - destruct TL as (K & Hx & l & o & P & Es). rewrite Eo in Hx. fold (kslots p) in Es.
    unfold mbind, M_bind, refusing.
    pose proof (taken_event_good _ _ _ _ _ _ output index x _ _ s l o G K Ht Hr eq_refl He Eo Hx P Es)
      as TE. unfold wp in TE.
    destruct (taken_event verify rows id index x (set_calls s p)) as [res p'] eqn:Ete.
    simpl in TE. destruct TE as (G' & X & T' & [K1 K2]).
    assert (pushed_in (kslots p') < pushed_in (kslots p)).
    { unfold kslots at 1. rewrite (proj1 K1), Es, pushed_in_update by done.
      rewrite (zlen_perm _ _ P), zlen_cons. lia. }
    assert (polled p p').
    { split; [lia|lia|]. apply after_same; [done|]. intros sl (f & Hf & Hof).
      unfold over, kslots. rewrite (proj1 K1), Es.
      destruct (decide (slot_id (sr_slot r) = slot_id sl)) as [E|E].
      - rewrite E in He. pose proof (over_empty _ _ _ Hf Hof) as Hz.
        assert (e = f) as -> by (unfold kslots in *; congruence).
        rewrite Hz in P. by apply Permutation_nil_cons in P.
      - exists f. by rewrite lookup_insert_ne. }
    destruct res as [[]|e']; simpl.
    + split_and!; try done. exists t. by rewrite T'.
    + split_and!; try done. exists t. by rewrite T'.
  - assert (err ≠ PeerClosed → quiet (calls p) s) as Es by (destruct err; naive_solver).
    destruct (decide (err = PeerClosed)) as [->|Hne].
    + destruct TL as [Hov Es']. destruct (Quiet s Es' TM) as (G1 & [P1 P2 _] & _). simpl.
      split; [|split; [done|split; [|split; [|done]]]].
      * eapply (drain_slot_good _ _ (set_calls s p)); try done.
        unfold kslots. simpl. by rewrite (proj1 Es').
      * split; [done|done|]. eapply after_put; [done|done|unfold kslots; apply Es'|..];
          destruct output; simpl; try done;
          rewrite list_fmap_insert; apply list_insert_id; rewrite list_lookup_fmap;
          simpl in Hr; by rewrite Hr.
      * eexists. simpl. rewrite lookup_insert_eq. split; [done|].
        destruct output; split; simpl; by rewrite ?length_insert.
    + destruct (Quiet s (Es Hne) TM) as (G1 & P1 & S1).
      destruct err; try done; split_and!; try done; apply not_internal_kernel.
Qed.

(** What a loop over a task's slots leaves. *)
Definition after_slots (nb na : Z) (id : Z) t p (res : result halt flow) p' : Prop :=
  good nb na p' ∧ halted res ∧ polled p p' ∧
  (∃ t', tasks p' !! id = Some t' ∧ shape t t') ∧ res ≠ Ok Return.

Lemma shape_trans (t u v : TaskRec Slot Channel) : shape t u → shape u v → shape t v.
Proof. intros [] []. split; congruence. Qed.

Lemma poll_slot_good fuel nb na p id t output index :
  good nb na p → tasks p !! id = Some t → (index < length (slot_recs t output))%nat →
  pushed_in (kslots p) < Z.of_nat fuel →
  wp (poll_slot verify rows fuel id output index) (after_slots nb na id t p) p.
Proof.
  revert p t. induction fuel as [|fuel IH]; intros p t G Ht Hi Hf.
  { pose proof (map_sum_nonneg (λ _ e, zlen (e_cookies e)) (kslots p)
      (λ _ _ _, zlen_nonneg _)). unfold pushed_in in Hf. lia. }
  apply lookup_lt_is_Some in Hi as [r Hr]. simpl. apply wp_bind.
  eapply wp_mono; [by apply (poll_slot_round_good nb na p id t output index r)|].
  intros res p1 (G1 & H1 & P1 & (t1 & Ht1 & S1) & Hres).
  destruct res as [[]|h]; try done.
  - assert (index < length (slot_recs t1 output))%nat as Hi1.
    { apply lookup_lt_Some in Hr. destruct S1, output; simpl in *; lia. }
    eapply wp_mono; [apply (IH p1 t1 G1 Ht1 Hi1); lia|].
    intros res p2 (G2 & H2 & P2 & (t2 & Ht2 & S2) & Hr2).
    split; [done|]. split; [done|]. split; [by eapply polled_trans|].
    split; [|done]. exists t2. split; [done|by eapply shape_trans].
  - unfold wp, mret, M_ret. simpl. split_and!; try done. by exists t1.
  - split_and!; try done. by exists t1.
Qed.

Lemma poll_slots_good fuel nb na p id t which :
  good nb na p → tasks p !! id = Some t →
  (∀ output index, (output, index) ∈ which → (index < length (slot_recs t output))%nat) →
  pushed_in (kslots p) < Z.of_nat fuel →
  wp (poll_slots verify rows fuel id which) (after_slots nb na id t p) p.
Proof.
  revert p t. induction which as [|[output index] which IH]; intros p t G Ht Hw Hf.
  { unfold wp, mret, M_ret. simpl. split_and!; try done. by exists t. }
  simpl. apply wp_bind.
  eapply wp_mono; [by apply (poll_slot_good fuel nb na p id t); [..|apply Hw; left|]|].
  intros res p1 (G1 & H1 & P1 & (t1 & Ht1 & S1) & Hr).
  assert (wp (poll_slots verify rows fuel id which) (after_slots nb na id t p) p1) as Next.
  { eapply wp_mono; [apply (IH p1 t1 G1 Ht1)|].
    - intros o i Hin. assert (i < length (slot_recs t o))%nat by (apply Hw; by right).
      destruct S1, o; simpl in *; lia.
    - pose proof (polled_pushed _ _ P1). lia.
    - intros res2 p2 (G2 & H2 & P2 & (t2 & Ht2 & S2) & Hr2).
      split; [done|]. split; [done|]. split; [by eapply polled_trans|].
      split; [|done]. exists t2. split; [done|by eapply shape_trans]. }
  destruct res as [[]|h]; try done. split_and!; try done. by exists t1.
Qed.

Lemma poll_port_good fuel nb na p id :
  good nb na p → (messages (calls p) < fuel)%nat →
  wp (poll_port fuel id) (λ res p', good nb na p' ∧ halted res ∧ polled p p') p.
Proof.
  revert p. induction fuel as [|fuel IH]; intros p G Hf; [lia|]. simpl. apply wp_bind.
  unfold wp at 1, poll_port_round. pose proof G as [I L].
  destruct (tasks p !! id) as [t|] eqn:Ht; [|by unfold wp].
  destruct (port t) as [c|] eqn:Hp; [|by unfold wp].
  destruct (port_done t); [by unfold wp|].
  pose proof (receive_messages c (calls p)) as RM.
  pose proof (receive_quiet c (calls p)) as RQ.
  destruct (receive c (calls p)) as [[message|err] s]; simpl in RQ.
  - assert (good nb na (set_calls s p)) as G1.
    { split; [by apply inv_quiet|by eapply live_same]. }
    assert (polled p (set_calls s p)) as P1.
    { apply polled_quiet; [done|lia]. }
    assert (∀ e, port_request id message = Some e → ∀ b, e ≠ Event.Freed b) as Hne.
    { unfold port_request. repeat case_match; naive_solver. }
    destruct (port_request id message) as [e|]; simpl.
    + eapply wp_mono; [apply IH|].
      * split; [|eapply live_same; [|apply G1]; done]. apply inv_push_event; [apply G1|].
        intros b ->. by destruct (Hne _ eq_refl b).
      * simpl. lia.
      * intros res p2 (G2 & H2 & P2). split; [done|]. split; [done|].
        eapply polled_trans; [exact P1|]. eapply polled_trans; [|exact P2].
        split; [done|done|by apply after_kept].
    + split; [done|]. split; [|done]. by intros [|[|[|[|]]]].
  - assert (good nb na (set_calls s p)) as G1.
    { split; [by apply inv_quiet|by eapply live_same]. }
    assert (polled p (set_calls s p)) as P1.
    { apply polled_quiet; [done|lia]. }
    destruct err; unfold wp; simpl;
      try (split; [done|split; [apply not_internal_kernel|done]]); try done.
    split; [|split; [done|]].
    + destruct G1 as [I1 L1]. split; [|by eapply live_same].
      destruct (inv_tasks _ _ _ _ _ _ I1 id t Ht) as (? & ? & ?). by apply inv_put_task.
    + destruct P1. split; [done|done|]. eapply after_put; [done|done|unfold kslots; apply RQ|done..].
Qed.

Lemma all_drained_each (t : TaskRec Slot Channel) (r : SlotRec Slot) :
  all_drained t = true → r ∈ inputs t ++ outputs t → drained r = true.
Proof.
  unfold all_drained. intros Hd Hr. destruct (open_slots t) eqn:E; [|done].
  destruct (drained r) eqn:D; [done|]. assert (r ∈ open_slots t) as X.
  { unfold open_slots. apply list_elem_of_In, filter_In. rewrite <-list_elem_of_In, D. done. }
  rewrite E in X. by apply not_elem_of_nil in X.
Qed.

Lemma end_task_good nb na p id :
  good nb na p → good nb na (end_task id p) ∧ polled p (end_task id p).
Proof.
  intros [I L]. unfold end_task.
  destruct (tasks p !! id) as [t|] eqn:Ht; [|by split; [|apply polled_refl]].
  destruct (all_drained t) eqn:Hd; [|by split; [|apply polled_refl]]. split.
  - split; [|by eapply live_same]. apply inv_push_event; [by apply inv_drop_task|done].
  - split; [done|done|]. split; simpl; [done|intros i Hi; by rewrite lookup_delete_None; right|].
    intros i u Hu. destruct (decide (id = i)) as [<-|Hne].
    + rewrite lookup_delete_eq. simplify_eq. intros r Hr.
      destruct (inv_tasks _ _ _ _ _ _ I id t Ht) as (_ & Hi & Ho).
      pose proof (all_drained_each _ _ Hd Hr) as Dr.
      apply elem_of_app in Hr as [Hr|Hr]; [destruct (Hi r Hr) as (e & He & _ & Hov)|
        destruct (Ho r Hr) as (e & He & _ & Hov)]; exists e; auto.
    + by rewrite lookup_delete_ne, Hu.
Qed.

(** Enough rounds for every loop of a poll. *)
Definition enough (fuel : nat) p : Prop :=
  pushed_in (kslots p) < Z.of_nat fuel ∧ (messages (calls p) < fuel)%nat.

Lemma enough_polled fuel p p' : enough fuel p → polled p p' → enough fuel p'.
Proof. intros [] []. split; lia. Qed.

Lemma poll_task_good fuel nb na p id :
  good nb na p → enough fuel p →
  wp (poll_task verify rows fuel id) (λ res p', good nb na p' ∧ halted res ∧ polled p p') p.
Proof.
  intros G Hf. unfold wp, poll_task. destruct (tasks p !! id) as [t|] eqn:Ht; [|done].
  destruct (ended t); [done|].
  change (wp (f ← poll_slots verify rows fuel id (slot_numbers t);
    match f with
    | Return => mret tt
    | _ => _ ← poll_port fuel id; modify (end_task id)
    end) (λ res p', good nb na p' ∧ halted res ∧ polled p p') p).
  apply wp_bind. eapply wp_mono; [apply (poll_slots_good fuel nb na p id t)|]; try done.
  { intros o i. unfold slot_numbers. rewrite elem_of_app, !list_elem_of_fmap.
    intros [(j & [= -> ->] & Hj)|(j & [= -> ->] & Hj)]; apply elem_of_seq in Hj; simpl; lia. }
  { apply Hf. }
  intros res p1 (G1 & H1 & P1 & _ & Hr).
  assert (wp (_ ← poll_port fuel id; modify (end_task id))
    (λ res p', good nb na p' ∧ halted res ∧ polled p p') p1) as Next.
  { apply wp_bind. eapply wp_mono; [apply (poll_port_good fuel nb na p1 id G1)|].
    { by apply (enough_polled _ _ _ Hf P1). }
    intros res2 p2 (G2 & H2 & P2). destruct res2 as [[]|h].
    - unfold wp, modify. simpl. destruct (end_task_good _ _ _ id G2) as [G3 P3].
      split; [done|]. split; [done|]. eauto using polled_trans.
    - split; [done|]. split; [done|]. eauto using polled_trans. }
  destruct res as [[]|h]; done.
Qed.

Lemma poll_tasks_good fuel nb na p ids :
  good nb na p → enough fuel p →
  wp (poll_tasks verify rows fuel ids)
    (λ res p', good nb na p' ∧ halted res ∧ enough fuel p' ∧ after p p') p.
Proof.
  revert p. induction ids as [|id ids IH]; intros p G Hf.
  { unfold wp. simpl. split; [done|]. split; [done|]. split; [done|by apply after_kept]. }
  simpl. apply wp_bind. eapply wp_mono; [by apply (poll_task_good fuel nb na p id)|].
  intros res p1 (G1 & H1 & P1). pose proof (enough_polled _ _ _ Hf P1).
  pose proof (polled_after _ _ P1) as A1. destruct res as [[]|h]; [|done].
  eapply wp_mono; [by apply IH|]. intros res p2 (G2 & H2 & E2 & A2).
  split_and!; try done. by eapply after_trans.
Qed.

Lemma poll_good fuel nb na p :
  good nb na p → enough fuel p →
  wp (poll verify rows fuel) (λ res p', good nb na p' ∧ halted res ∧ enough fuel p' ∧ after p p') p.
Proof. intros G Hf. unfold wp, poll. by apply poll_tasks_good. Qed.

(** ** The port's methods *)

Lemma good_quiet nb na p s : good nb na p → quiet (calls p) s → good nb na (set_calls s p).
Proof. intros [I L] E. split; [by apply inv_quiet|by eapply live_same]. Qed.

Lemma offer_good nb na p task input b :
  good nb na p → nb + 1 < 2 ^ 64 →
  wp (offer task input b) (λ res p', good (nb + 1) na p' ∧ external res) p.
Proof.
  intros G Hnb. pose proof G as [I L]. pose proof (inv_next _ _ _ _ _ _ I) as [_ Hb].
  assert (∀ p', good nb na p' → good (nb + 1) na p') as More.
  { intros p'. apply good_more; lia. }
  unfold offer. apply wp_bind. unfold wp at 1. simpl.
  destruct (batches p !! b) as [r|] eqn:Hr; simpl.
  2:{ split; [auto|by intros [|[|[|[|]]]]]. }
  apply wp_bind. unfold wp at 1, get_task. destruct (tasks p !! task) as [t|] eqn:Ht; simpl.
  2:{ split; [auto|by intros [|[|[|[|]]]]]. }
  apply wp_bind. unfold wp at 1, lift. simpl.
  destruct (inputs t !! Z.to_nat input) as [sl|] eqn:Hs; simpl.
  2:{ split; [auto|by intros [|[|[|[|]]]]]. }
  destruct (inv_batch _ _ _ _ _ _ I _ _ Hr) as ([m Hm] & _ & _ & _ & _).
  apply wp_bind. unfold wp at 1. simpl. rewrite Hm. simpl.
  apply wp_bind, wp_call. pose proof (share_quiet m (calls p)) as Q.
  destruct (share m (calls p)) as [[m'|e] s]; simpl in *.
  2:{ split; [apply More; by apply good_quiet|apply not_internal_kernel]. }
  pose proof (good_quiet _ _ _ _ G Q) as G1. set (p1 := set_calls s p) in *.
  destruct (slot_entry _ _ _ _ _ false _ _ G1 Ht Hs) as (e & He & Eo & _).
  apply wp_bind, wp_try_call.
  pose proof (push_law (sr_slot sl) m' (offset r) (len r) b (calls p1) e
    (inv_kernel _ _ _ _ _ _ (proj1 G1)) He) as PL.
  destruct (push (sr_slot sl) m' (offset r) (len r) b (calls p1)) as [[[]|[err m2]] s'] eqn:Ep.
  - simpl. apply wp_bind. unfold wp, lift, modify. simpl. rewrite Hr. split; [|done].
    destruct G1 as [I1 L1].
    exact (inv_push_share _ _ _ _ _ _ _ _ _ _ _ _ I1 Hnb L1 He Eo Hr Ep).
  - simpl. apply wp_bind. unfold wp, lift. simpl. destruct PL as [_ Es'].
    split; [|destruct err; by intros [|[|[|[|]]]]].
    apply More. exact (good_quiet _ _ _ _ G1 Es').
Qed.

Lemma grant_good nb na p task output n :
  good nb na p → nb + 1 < 2 ^ 64 → na + 1 < 2 ^ 64 → u64 n →
  wp (grant task output n) (λ res p', good (nb + 1) (na + 1) p' ∧ external res) p.
Proof.
  intros G Hnb Hna Hn. pose proof G as [I L]. pose proof (inv_next _ _ _ _ _ _ I) as [_ Hb].
  assert (∀ p', good nb (na + 1) p' → good (nb + 1) (na + 1) p') as More.
  { intros p'. apply good_more; lia. }
  assert (good (nb + 1) (na + 1) p) as Gp by (apply (good_more nb na); [lia|lia|done]).
  unfold grant. apply wp_bind. unfold wp at 1, lift. simpl.
  pose proof (pages_spec n Hn) as P. destruct (pages n) as [size|]; simpl.
  2:{ split; [done|by intros [|[|[|[|]]]]]. }
  destruct (0 <? size); simpl. 2:{ split; [done|by intros [|[|[|[|]]]]]. }
  apply wp_bind. unfold wp at 1. simpl.
  destruct (tasks p !! task) as [t|] eqn:Ht; simpl. 2:{ split; [done|by intros [|[|[|[|]]]]]. }
  destruct (outputs t !! Z.to_nat output) as [sl|] eqn:Hs; simpl.
  2:{ split; [done|by intros [|[|[|[|]]]]]. }
  apply wp_bind. unfold wp at 1.
  pose proof (inv_arena_take _ _ _ _ size I ltac:(apply P) Hna) as T.
  destruct (arena_take size p) as [[[[id m] have]|e] p1]; simpl.
  2:{ destruct T as (I1 & _ & Eb & He). split; [|destruct e; try done; by intros [|[|[|[|]]]]].
      apply More. split; [done|by eapply live_same]. }
  destruct T as (I1 & Hsz & _ & Et & Eb). rewrite <-Et in Ht.
  destruct (inv_tasks _ _ _ _ _ _ I1 task t Ht) as (_ & _ & Ho).
  destruct (Ho sl) as (e & He & Eo & _); [by apply list_elem_of_lookup_2 in Hs|].
  apply wp_bind, wp_try_call.
  pose proof (push_law (sr_slot sl) m 0 size id (calls p1) e (inv_kernel _ _ _ _ _ _ I1) He)
    as PL.
  destruct (push (sr_slot sl) m 0 size id (calls p1)) as [[[]|[err m2]] s'] eqn:Ep; simpl.
  - unfold wp, modify. simpl. split; [|done].
    pose proof (inv_push_window _ _ _ _ _ _ _ _ _ _ _ I1 Hnb He Eo Ep) as I2.
    rewrite Hsz in I2. pose proof (inv_next _ _ _ _ _ _ I2) as Hb2.
    assert (windows p1 +! have = windows p1 + have) as ->; [|split; [|by eapply live_same]].
    + apply wrap_small. pose proof (window_bytes_hand _ _ _ _ _ I1) as Hw.
      rewrite (inv_windows _ _ _ _ _ _ I1), Z.add_0_r. rewrite Hsz in Hw.
      pose proof (wf_fits _ (inv_arena _ _ _ _ _ _ I1)).
      destruct (wf_budget _ (inv_arena _ _ _ _ _ _ I1)).
      pose proof (window_bytes_nonneg (kslots p1) _ (inv_arena _ _ _ _ _ _ I1)).
      destruct (out_object _ _ _ _ _ _ id I1) as (o & Ho' & _).
      { rewrite at_hand_Some, decide_True by done.
        pose proof (windows_in_nonneg id (kslots p1)). lia. }
      pose proof (wf_bytes _ (inv_arena _ _ _ _ _ _ I1) id o Ho').
      unfold Arena.size_of in Hsz. rewrite Ho' in Hsz. unfold in_width. lia.
    + eapply inv_set_windows; [exact I2|]. simpl. lia.
  - destruct PL as [-> Es]. pose proof (inv_quiet _ _ _ _ _ _ s' I1 Es) as I2.
    destruct (inv_untake _ _ _ _ _ m I2) as (a & E & I3). apply wp_bind. unfold wp at 1.
    rewrite E. unfold wp, fail. simpl.
    split; [|destruct err; by intros [|[|[|[|]]]]]. apply More. split; [done|by eapply live_same].
Qed.

Lemma finish_good nb na p task input :
  good nb na p → wp (finish task input) (λ res p', good nb na p' ∧ external res) p.
Proof.
  intros G. unfold finish. apply wp_bind. unfold wp at 1, get_task.
  destruct (tasks p !! task) as [t|]; simpl. 2:{ split; [done|by intros [|[|[|[|]]]]]. }
  apply wp_bind. unfold wp at 1, lift. simpl.
  destruct (inputs t !! Z.to_nat input) as [sl|]; simpl.
  2:{ split; [done|by intros [|[|[|[|]]]]]. }
  apply wp_call. pose proof (close_quiet (sr_slot sl) (calls p)) as Q.
  split; [by apply good_quiet|].
  destruct (close (sr_slot sl) (calls p)) as [[[]|e] s]; [done|apply not_internal_kernel].
Qed.

(** A slot made for a task. *)
Lemma inv_new_slot nb na p s sl output :
  good nb na p → kernel_ok s → kslots p !! slot_id sl = None →
  slots_of s = <[slot_id sl := mk_entry output [] false]> (kslots p) →
  good nb na (set_calls s p) ∧
  (∀ out ls, slots_ok p out ls → slots_ok (set_calls s p) out ls).
Proof.
  intros [I L] K Fr Es.
  assert (∀ out ls, slots_ok p out ls → slots_ok (set_calls s p) out ls) as Hok.
  { intros out ls H r Hr. destruct (H r Hr) as (e & He & ?). exists e. unfold kslots in *.
    simpl. rewrite Es, lookup_insert_ne by congruence. done. }
  split; [|done]. split; [|by eapply live_same].
  assert (∀ b, shares_in b (slots_of s) = shares_in b (kslots p)) as Hs.
  { intros b. unfold shares_in. rewrite Es, map_sum_insert by done. simpl. by destruct output. }
  assert (∀ b, windows_in b (slots_of s) = windows_in b (kslots p)) as Hw.
  { intros b. unfold windows_in. rewrite Es, map_sum_insert by done. simpl. by destruct output. }
  destruct I. split; unfold kslots in *; simpl; try done.
  - rewrite inv_windows0, Es. unfold window_bytes. rewrite map_sum_insert by done. simpl.
    by destruct output.
  - intros id. by rewrite Hw.
  - intros b r Hb. rewrite Hs. by apply inv_batch0.
  - intros b Hb. rewrite Hs. auto.
  - intros i t Ht. destruct (inv_tasks0 i t Ht) as (? & ? & ?). auto.
  - rewrite Es. unfold pushed_in. rewrite map_sum_insert by done. done.
Qed.

(** Slots a task has keep being its slots. *)
Definition keeps_slots p p' : Prop :=
  ∀ out ls, slots_ok p out ls → slots_ok p' out ls.

Lemma open_n_good nb na p n output :
  good nb na p →
  wp (open_n n output) (λ res p', good nb na p' ∧ keeps_slots p p' ∧ tasks p' = tasks p ∧
       external res ∧ match res with Ok ls => slots_ok p' output ls | Err _ => True end) p.
Proof.
  revert p. induction n as [|n IH]; intros p G.
  { unfold wp, mret, M_ret. simpl. split_and!; try done; [by intros out ls|].
    intros r Hr. by apply not_elem_of_nil in Hr. }
  simpl. apply wp_bind, wp_call. pose proof (slot_law output (calls p)) as SL.
  destruct (slot output (calls p)) as [[sl|e] s]; simpl.
  - destruct SL as (Fr & Es & K).
    specialize (K (inv_kernel _ _ _ _ _ _ (proj1 G))).
    destruct (inv_new_slot _ _ _ _ _ _ G K Fr Es) as [G1 Hok].
    apply wp_bind. eapply wp_mono; [by apply IH|]. intros res p2 (G2 & K2 & T2 & X2 & S2).
    assert (keeps_slots p p2) as K' by (intros out ls H; by apply K2, Hok).
    destruct res as [ls|err]; [|by split_and!].
    unfold wp, mret, M_ret. simpl. split_and!; try done.
    intros r Hr. apply elem_of_cons in Hr as [->|Hr]; [|by apply S2].
    apply (K2 output [mk_SlotRec sl false]); [|by left].
    intros q ->%list_elem_of_singleton. unfold kslots. simpl.
    rewrite Es, lookup_insert_eq. by eexists.
  - split; [by apply good_quiet|]. split_and!; try done; [|apply not_internal_kernel].
    intros out ls H. by apply slots_ok_later; [rewrite (proj1 SL); apply later_refl|].
Qed.

Lemma make_task_good nb na p sh :
  good nb na p → wp (make_task sh) (λ res p', good nb na p' ∧ external res) p.
Proof.
  intros G. unfold make_task. apply wp_bind. eapply wp_mono; [by apply open_n_good|].
  intros res p1 (G1 & _ & _ & X1 & S1). destruct res as [ins|e]; [|done].
  apply wp_bind. eapply wp_mono; [by apply open_n_good|].
  intros res p2 (G2 & K2 & _ & X2 & S2). destruct res as [outs|e]; [|done].
  apply K2 in S1. apply wp_bind.
  assert (wp (open_port (sh_port sh)) (λ res p', good nb na p' ∧ external res ∧
    slots_ok p' false ins ∧ slots_ok p' true outs) p2) as P.
  { unfold open_port. destruct (sh_port sh); [|by unfold wp].
    apply wp_bind, wp_call. pose proof (channel_quiet (calls p2)) as Q.
    assert (later (kslots p2) (slots_of (channel (calls p2)).2)) as L
      by (rewrite (proj1 Q); apply later_refl).
    pose proof (good_quiet _ _ _ _ G2 Q). pose proof (slots_ok_later _ _ _ _ L S1).
    pose proof (slots_ok_later _ _ _ _ L S2).
    destruct (channel (calls p2)) as [[c|e] s]; simpl in *; [by unfold wp|].
    split; [done|]. split; [apply not_internal_kernel|done]. }
  eapply wp_mono; [exact P|]. intros res p3 (G3 & X3 & Si & So).
  destruct res as [ends|e]; [|done]. apply wp_bind. unfold wp, act, mret, M_ret. simpl.
  split; [|done]. destruct G3 as [I3 L3]. split; [|by eapply live_same].
  pose proof (inv_put_task _ _ _ _ _ _ (next_task p3)
    (mk_TaskRec ins outs ends.1 false false) I3 eq_refl Si So) as []. by split.
Qed.

Lemma open_good nb na p sh :
  good nb na p → wp (open sh) (λ res p', good nb na p' ∧ external res) p.
Proof.
  intros G. unfold wp, open. destruct (limits.PLANE_SLOTS <? _).
  { split; [done|by intros [|[|[|[|]]]]]. }
  destruct (WAITED_MAX <? _). { split; [done|by intros [|[|[|[|]]]]]. }
  by apply make_task_good.
Qed.

Lemma drop_batch_good nb na p b :
  good nb na p → wp (drop_batch b) (λ res p', good nb na p' ∧ external res) p.
Proof.
  intros [I L]. unfold wp, drop_batch. destruct (batches p !! b) as [r|] eqn:Hb.
  2:{ split; [done|by intros [|[|[|[|]]]]]. }
  destruct (held r) eqn:Hh; simpl. 2:{ split; [done|by intros [|[|[|[|]]]]]. }
  set (p1 := set_batches _ p).
  assert (inv nb na None None 0 p1) as I1.
  { destruct I. split; unfold kslots in *; simpl; try done.
    - intros c q Hc. apply lookup_insert_Some in Hc as [[<- <-]|[_ Hc]];
        [by apply (inv_batch0 b r)|by apply inv_batch0].
    - intros c Hc. apply lookup_insert_None in Hc as [Hc _]. auto.
    - intros c d q q' Hc Hd.
      apply lookup_insert_Some in Hc as [[<- <-]|[_ Hc]];
        apply lookup_insert_Some in Hd as [[<- <-]|[_ Hd]]; simpl; try done;
        [by apply (inv_distinct0 b d r)|by apply (inv_distinct0 c b q r)|by apply inv_distinct0].
    - intros id Hid. destruct (inv_covered0 id Hid) as [?|[?|(c & q & Hc & <-)]];
        [by left|done|]. right; right. destruct (decide (c = b)) as [->|].
      + eexists b, _. rewrite lookup_insert_eq. split; [done|]. by simplify_eq.
      + exists c, q. by rewrite lookup_insert_ne.
    - intros c Hc. destruct (inv_events0 c Hc). split; [done|].
      rewrite lookup_insert_ne; [done|]. intros <-. congruence. }
  destruct (settle_keeps _ _ _ _ b I1) as (p' & E & I2 & L2 & _).
  { intros c q Hc Hne. simpl in Hc. rewrite lookup_insert_ne in Hc by congruence. by apply (L c). }
  by rewrite E.
Qed.

Lemma answer_good nb na p c answered :
  good nb na p → wp (answer c answered) (λ res p', good nb na p' ∧ external res) p.
Proof.
  intros G. unfold answer. apply wp_bind.
  assert (∀ h, wp (answer_memory answered h)
    (λ res p', good nb na p' ∧ external res) p) as Mem_ok.
  { intros h. unfold answer_memory. destruct answered as [[|x bytes]|e]; try by unfold wp.
    apply wp_bind. unfold wp at 1, lift. simpl.
    destruct (pages (zlen (x :: bytes))) as [size|]; simpl.
    2:{ split; [done|by intros [|[|[|[|]]]]]. }
    apply wp_bind, wp_call. pose proof (memory_quiet size (calls p)) as Q.
    pose proof (good_quiet _ _ _ _ G Q) as G1.
    destruct (memory size (calls p)) as [[m|e] s]; simpl in *.
    2:{ split; [done|apply not_internal_kernel]. }
    apply wp_bind, wp_call. pose proof (write_quiet m 0 (x :: bytes) s) as Q2.
    pose proof (good_quiet _ _ _ _ G1 Q2) as G2. simpl.
    destruct (write m 0 (x :: bytes) s) as [[[]|e] s2]; simpl in *.
    2:{ split; [done|apply not_internal_kernel]. }
    apply wp_bind, wp_call. pose proof (share_quiet m s2) as Q3.
    pose proof (good_quiet _ _ _ _ G2 Q3) as G3. simpl.
    destruct (share m s2) as [[m'|e] s3]; simpl in *.
    - by unfold wp.
    - split; [done|apply not_internal_kernel]. }
  eapply wp_mono; [apply Mem_ok|]. intros res p1 [G1 X1]. destruct res as [x|e]; [|done].
  apply wp_bind. unfold wp at 1, get_task. destruct (tasks p1 !! c_task c) as [t|]; simpl.
  2:{ split; [done|by intros [|[|[|[|]]]]]. }
  apply wp_bind. unfold wp at 1, lift. simpl. destruct (port t) as [ch|]; simpl.
  2:{ split; [done|by intros [|[|[|[|]]]]]. }
  apply wp_bind, wp_try_call. pose proof (send_quiet ch x.1 x.2 (calls p1)) as Q.
  pose proof (good_quiet _ _ _ _ G1 Q) as G2. unfold wp, lift. simpl. split; [done|].
  destruct (send ch x.1 x.2 (calls p1)) as [[[]|e] s]; [done|].
  destruct e; by intros [|[|[|[|]]]].
Qed.

Lemma pop_event_good nb na p e es :
  good nb na p → events p = e :: es →
  good nb na (mk_KernelPlane (calls p) (arena p) (tasks p) (next_task p) (batches p)
    (next_batch p) es (windows p)).
Proof.
  intros [I L] E. split; [|by eapply live_same]. destruct I. split; try done. simpl.
  intros b Hb. apply inv_events0. rewrite E. by right.
Qed.

Lemma next_round_good fuel nb na p d :
  good nb na p → enough fuel p →
  wp (next_round verify rows fuel d)
    (λ res p', good nb na p' ∧ halted res ∧ after p p') p.
Proof.
  intros G Hf. unfold wp, next_round. destruct (events p) as [|e es] eqn:Ee.
  2:{ split; [by apply (pop_event_good _ _ p e)|split; [done|by apply after_kept]]. }
  pose proof (poll_good fuel nb na p G Hf) as PG. unfold wp in PG.
  destruct (poll verify rows fuel p) as [[[]|h] p1]; simpl in PG;
    destruct PG as (G1 & H1 & _ & A1).
  2:{ done. }
  destruct (events p1) as [|e es] eqn:Ee1.
  2:{ split; [by apply (pop_event_good _ _ p1 e)|split; [done|]].
      eapply after_trans; [exact A1|by apply after_kept]. }
  set (ss := sr_slot <$> _). set (cs := omap _ _).
  assert (∀ (rs : result Error Ready.t * St), rs = wait ss cs d (calls p1) →
    let '(res, p') := match rs with
      | (Err e, s) => (Err (Refuse (PlaneError.Kernel e)), set_calls s p1)
      | (Ok Ready.TimedOut, s) => (Ok (Some None), set_calls s p1)
      | (Ok Ready.Something, s) => (Ok (None : option (option Event.t)), set_calls s p1)
      end in good nb na p' ∧ halted res ∧ after p p') as W.
  { intros [r s] E. pose proof (wait_quiet ss cs d (calls p1)) as Q. rewrite <-E in Q.
    simpl in Q. pose proof (good_quiet _ _ _ _ G1 Q).
    assert (after p (set_calls s p1)).
    { eapply after_trans; [exact A1|]. apply after_kept; [done|apply Q]. }
    destruct r as [[]|e]; split_and!; try done. apply not_internal_kernel. }
  specialize (W _ eq_refl).
  destruct ss as [|s0 ss], cs as [|c0 cs]; [by unfold wp|..];
    by destruct (wait _ _ d (calls p1)) as [[[]|e] s].
Qed.

(** ** Any use of a plane *)

(** The engine's methods and the tasks' steps, in any order.  [Next] is a round of
    [DataPlane::next], with bounds its loops do not reach. *)
Inductive step p : Plane → Prop :=
| step_open sh : step p (open sh p).2
| step_load record : u64 (zlen record) → step p (load verify rows record p).2
| step_offer task input b : step p (offer task input b p).2
| step_finish task input : step p (finish task input p).2
| step_grant task output n : u64 n → step p (grant task output n p).2
| step_next fuel d : enough fuel p → step p (next_round verify rows fuel d p).2
| step_answer c answered : step p (answer c answered p).2
| step_drop b : step p (drop_batch b p).2
| step_tasks s : task_step (calls p) s → step p (set_calls s p).

Lemma step_good n p p' :
  good n n p → n + 1 < 2 ^ 64 → step p p' → good (n + 1) (n + 1) p'.
Proof.
  intros G Hn Hst.
  assert (∀ q, good n n q → good (n + 1) (n + 1) q) as More.
  { intros q [I L]. pose proof (inv_next _ _ _ _ _ _ I). apply (good_more n n); [lia|lia|done]. }
  destruct Hst as [sh|record Hr|task input b|task input|task output k Hk|fuel d Hf|c a|b|s Hs].
  - by apply More, (open_good n n p sh).
  - unfold load. apply (load_with_good n n p); try done. intros. apply write_quiet.
  - apply (good_more (n + 1) n); [lia|lia|]. by apply (offer_good n n p).
  - by apply More, (finish_good n n p).
  - by apply (grant_good n n p).
  - by apply More, (next_round_good fuel n n p).
  - by apply More, (answer_good n n p).
  - by apply More, (drop_batch_good n n p).
  - apply More. destruct G as [I L]. split; [|by eapply live_same].
    destruct (task_step_later _ _ (inv_kernel _ _ _ _ _ _ I) Hs). by apply inv_set_calls.
Qed.

Lemma new_good s lim : slots_of s = ∅ → kernel_ok s → u64 lim → good 1 1 (new s lim).
Proof.
  intros Es K Hl. split; [|by intros b r].
  split; unfold kslots; simpl; rewrite ?Es; try done.
  - by apply arena_new_wf.
  - intros id [h Hh]. done.
  - intros b Hb. by apply not_elem_of_nil in Hb.
Qed.

Lemma reachable_good s lim n p :
  slots_of s = ∅ → kernel_ok s → u64 lim → Z.of_nat n + 2 < 2 ^ 64 → nsteps step n (new s lim) p →
  good (Z.of_nat n + 1) (Z.of_nat n + 1) p.
Proof.
  intros Es K Hl Hn Hr.
  assert (∀ m k q r, nsteps step k q r → good m m q → m + Z.of_nat k + 1 < 2 ^ 64 →
    good (m + Z.of_nat k) (m + Z.of_nat k) r) as H.
  { clear -verify_reads. intros m k. revert m. induction k as [|k IH]; intros m q r Hqr G Hm.
    - inversion Hqr; subst. by rewrite Z.add_0_r.
    - inversion Hqr; subst. replace (m + Z.of_nat (S k)) with (m + 1 + Z.of_nat k) by lia.
      eapply IH; [done| |lia]. eapply step_good; [done|lia|done]. }
  replace (Z.of_nat n + 1) with (1 + Z.of_nat n) by lia.
  apply (H 1 n (new s lim) p); [done|by apply new_good|lia].
Qed.

(** ** The counters the plane reports *)

Lemma foldl_wadd_sum l acc :
  Forall (λ z, 0 ≤ z) l → 0 ≤ acc → acc + sumZ l < 2 ^ 64 → foldl (wadd 64) acc l = acc + sumZ l.
Proof.
  revert acc. induction l as [|x l IH]; intros acc Hl Ha Hb; [simpl; lia|]; cbn [foldl].
  apply Forall_cons in Hl as [Hx Hl]. rewrite sumZ_cons in Hb.
  pose proof (sumZ_nonneg l Hl). unfold wadd at 2.
  rewrite (wrap_small 64 (acc + x)) by (unfold in_width; lia).
  rewrite IH, sumZ_cons by (done || lia). lia.
Qed.

Lemma occ_nodup id l : NoDup l → occ id l = if decide (id ∈ l) then 1 else 0.
Proof.
  induction 1 as [|x l Hx Hl IH]; [by rewrite decide_False by apply not_elem_of_nil|].
  rewrite occ_cons, IH. destruct (decide (x = id)) as [->|Hne].
  - rewrite (decide_False (P := id ∈ l)) by done. rewrite decide_True by (by left). done.
  - destruct (decide (id ∈ l)).
    + by rewrite decide_True by (by right).
    + by rewrite decide_False by (rewrite elem_of_cons; naive_solver).
Qed.

Lemma pooled_spec (a : Arena Mem) : wf a → Arena.pooled a = sumZ (Arena.size_of a <$> pool a).
Proof.
  intros W. unfold Arena.pooled.
  assert (bytes <$> omap (λ id, objects a !! id) (pool a) = Arena.size_of a <$> pool a) as ->.
  { assert (∀ l : list Z, (∀ id, id ∈ l → is_Some (objects a !! id)) →
      bytes <$> omap (λ id, objects a !! id) l = Arena.size_of a <$> l) as H.
    { induction l as [|id l IH]; intros Hl; [done|]. destruct (Hl id) as [o Ho]; [by left|].
      simpl. rewrite Ho. simpl. unfold Arena.size_of at 1. rewrite Ho. f_equal.
      apply IH. intros j Hj. apply Hl. by right. }
    apply H. intros id Hid. destruct (wf_pooled a W id Hid) as (o & _ & Ho & _). eauto. }
  assert (sumZ (Arena.size_of a <$> pool a) ≤ made a) as Hle.
  { rewrite entry_bytes, (wf_made a W). apply map_sum_mono. intros id o Ho.
    rewrite (occ_nodup _ _ (wf_pool a W)). pose proof (wf_bytes a W id o Ho).
    destruct (decide _); lia. }
  apply foldl_wadd_sum; [|lia|].
  - apply Forall_fmap, Forall_forall. intros id _. simpl. unfold Arena.size_of.
    destruct (objects a !! id) as [o|] eqn:Ho; [|lia]. pose proof (wf_bytes a W id o Ho). lia.
  - pose proof (wf_fits a W). destruct (wf_budget a W). lia.
Qed.

(** Batches whose object is [id]. *)
Definition batches_of (id : Z) (m : gmap Z BatchRec) : Z :=
  map_sum (λ _ r, if decide (object r = id) then 1 else 0) m.

Definition batch_bytes (m : gmap Z BatchRec) (a : Arena Mem) : Z :=
  map_sum (λ _ r, Arena.size_of a (object r)) m.

Lemma batch_bytes_objects m (a : Arena Mem) :
  batch_bytes m a = map_sum (λ id o, batches_of id m * bytes o) (objects a).
Proof.
  unfold batch_bytes, batches_of.
  rewrite (map_sum_ext _ (λ _ r, map_sum (λ id o,
    (if decide (object r = id) then 1 else 0) * bytes o) (objects a))).
  - rewrite (map_sum_exchange (λ _ id r o, (if decide (object r = id) then 1 else 0) * bytes o)).
    apply map_sum_ext. intros id o _. symmetry. apply map_sum_mul.
  - intros b r _. unfold Arena.size_of. rewrite <- (map_sum_at bytes).
    apply map_sum_ext. intros id o _. destruct (decide _); lia.
Qed.

Lemma batches_of_none id (m : gmap Z BatchRec) :
  (∀ b r, m !! b = Some r → object r ≠ id) → batches_of id m = 0.
Proof.
  intros H. unfold batches_of. rewrite (map_sum_ext _ (λ _ _, 0)); [apply map_sum_zero|].
  intros b r Hb. rewrite decide_False by (by eapply H). done.
Qed.

Lemma batches_of_one id (m : gmap Z BatchRec) b r :
  m !! b = Some r → object r = id → (∀ c q, m !! c = Some q → object q = id → c = b) →
  batches_of id m = 1.
Proof.
  intros Hb Hr H. unfold batches_of.
  rewrite (map_sum_ext _ (λ c _, if decide (c = b) then 1 else 0)).
  - rewrite map_sum_single, decide_True by eauto. done.
  - intros c q Hc. destruct (decide (object q = id)) as [E|E].
    + rewrite decide_True by eauto. done.
    + rewrite decide_False; [done|]. intros ->. congruence.
Qed.

(** Everything the arena made is a window, in the pool, or a batch's. *)
Lemma made_exact nb na p :
  inv nb na None None 0 p →
  made (arena p) = windows p + Arena.pooled (arena p) + batch_bytes (batches p) (arena p).
Proof.
  intros I. pose proof (inv_arena _ _ _ _ _ _ I) as W.
  rewrite (inv_windows _ _ _ _ _ _ I), Z.add_0_r, (pooled_spec _ W), entry_bytes,
    window_bytes_objects, batch_bytes_objects, (wf_made _ W), <- !map_sum_add.
  apply map_sum_ext. intros id o Ho. rewrite (occ_nodup _ _ (wf_pool _ W)).
  pose proof (inv_out _ _ _ _ _ _ I id) as E. rewrite at_hand_None, Z.add_0_r in E.
  unfold no_handle in E. rewrite Ho in E. rewrite E.
  assert (Arena.handle_of (arena p) id = handle o) as Eh.
  { unfold Arena.handle_of. by rewrite Ho. }
  destruct (handle o) as [h|] eqn:Hh.
  - destruct (decide (id ∈ pool (arena p))) as [Hin|Hin].
    + rewrite batches_of_none; [lia|]. intros b r Hb <-.
      by destruct (inv_batch _ _ _ _ _ _ I _ _ Hb) as (_ & ? & _).
    + destruct (inv_covered _ _ _ _ _ _ I id) as [?|[?|(b & r & Hb & Er)]]; [|done|done|].
      { rewrite Eh. by eexists. }
      rewrite (batches_of_one id _ b r Hb Er); [lia|]. intros c q Hc Eq.
      apply (inv_distinct _ _ _ _ _ _ I c b q r); congruence.
  - rewrite decide_False, batches_of_none; [lia| |].
    + intros b r Hb <-. destruct (inv_batch _ _ _ _ _ _ I _ _ Hb) as ([x Hx] & _). congruence.
    + intros Hin. destruct (wf_pooled _ W id Hin) as (? & ? & ? & ?). congruence.
Qed.

(** What the input slots hold is what the batches count as shares. *)
Definition offered_in (m : gmap Z entry) : Z :=
  map_sum (λ _ e, if e_output e then 0 else zlen (e_cookies e)) m.

Lemma occ_dom {A} (m : gmap Z A) l :
  (∀ c, c ∈ l → is_Some (m !! c)) → map_sum (λ b _, occ b l) m = zlen l.
Proof.
  induction l as [|x l IH]; intros H; [apply map_sum_zero|].
  rewrite (map_sum_ext _ (λ b _, (if decide (b = x) then 1 else 0) + occ b l)).
  - rewrite map_sum_add, map_sum_single, IH, zlen_cons.
    + rewrite decide_True by (apply H; by left). lia.
    + intros c Hc. apply H. by right.
  - intros b y _. rewrite occ_cons. destruct (decide (x = b)), (decide (b = x)); congruence.
Qed.

Lemma shares_total nb na hand loose x p :
  inv nb na hand loose x p →
  map_sum (λ _ r, shares r) (batches p) = offered_in (kslots p).
Proof.
  intros I. rewrite (map_sum_ext _ (λ b _, map_sum (λ _ e,
    if e_output e then 0 else occ b (e_cookies e)) (kslots p))).
  - rewrite (map_sum_exchange (λ b _ _ e, if e_output e then 0 else occ b (e_cookies e))).
    apply map_sum_ext. intros i e He. destruct (e_output e) eqn:Eo; [apply map_sum_zero|].
    apply occ_dom. intros c Hc. destruct (batches p !! c) as [r|] eqn:Hb; [eauto|].
    pose proof (inv_nobatch _ _ _ _ _ _ I c Hb) as Hz. apply occ_in in Hc.
    unfold shares_in in Hz.
    pose proof (map_sum_lookup_le (λ _ e, if e_output e then 0 else occ c (e_cookies e))
      (kslots p) i e) as Hle. simpl in Hle. rewrite Eo in Hle.
    assert (occ c (e_cookies e) ≤ 0); [|lia]. rewrite <- Hz. apply Hle; [|done].
    intros j f _. destruct (e_output f); [lia|apply occ_nonneg].
  - intros b r Hb. by destruct (inv_batch _ _ _ _ _ _ I _ _ Hb) as (_ & _ & _ & ? & _).
Qed.

Section reachable.
Context (s0 : St) (lim : Z) (n : nat) (p : Plane).
Hypothesis no_slots : slots_of s0 = ∅.
Hypothesis kernel_starts_ok : kernel_ok s0.
Hypothesis lim_u64 : u64 lim.
Hypothesis few : Z.of_nat n + 2 < 2 ^ 64.
Hypothesis reached : nsteps step n (new s0 lim) p.

(** C18: every memory object of the arena is in one place at a time: in exactly one slot
    as a window (the engine without a handle to it), or the object of exactly one batch,
    or in the pool; so no task can write the bytes of a batch or of another's window. *)
Theorem object_in_one_place id o :
  objects (arena p) !! id = Some o →
  (handle o = None ∧ windows_in id (kslots p) = 1 ∧ (id ∉ pool (arena p)) ∧
   ∀ b r, batches p !! b = Some r → object r ≠ id) ∨
  (is_Some (handle o) ∧ windows_in id (kslots p) = 0 ∧
   ((id ∈ pool (arena p) ∧ ∀ b r, batches p !! b = Some r → object r ≠ id) ∨
    ((id ∉ pool (arena p)) ∧ ∃ b r, batches p !! b = Some r ∧ object r = id ∧
       ∀ c q, batches p !! c = Some q → object q = id → c = b))).
Proof.
  intros Ho. destruct (reachable_good _ _ _ _ no_slots kernel_starts_ok lim_u64 few reached) as [I _].
  pose proof (inv_out _ _ _ _ _ _ I id) as E. rewrite at_hand_None, Z.add_0_r in E.
  unfold no_handle in E. rewrite Ho in E. destruct (handle o) as [h|] eqn:Hh.
  - right. split; [by eauto|]. split; [done|].
    assert (is_Some (Arena.handle_of (arena p) id)) as Hs.
    { unfold Arena.handle_of. rewrite Ho. simpl. by rewrite Hh. }
    destruct (decide (id ∈ pool (arena p))) as [Hin|Hin].
    + left. split; [done|]. intros b r Hb <-.
      by destruct (inv_batch _ _ _ _ _ _ I _ _ Hb) as (_ & ? & _).
    + right. split; [done|].
      destruct (inv_covered _ _ _ _ _ _ I id Hs) as [?|[?|(b & r & Hb & Er)]]; [done|done|].
      exists b, r. split_and!; try done. intros c q Hc Eq.
      apply (inv_distinct _ _ _ _ _ _ I c b q r); congruence.
  - left. split; [done|]. split; [done|]. split.
    + intros Hin. destruct (wf_pooled _ (inv_arena _ _ _ _ _ _ I) id Hin) as (? & ? & ? & ?).
      congruence.
    + intros b r Hb <-. destruct (inv_batch _ _ _ _ _ _ I _ _ Hb) as ([h Hs] & _).
      unfold Arena.handle_of in Hs. rewrite Ho in Hs. simpl in Hs. congruence.
Qed.

(** C19: the shares counted for a batch are the entries of input slots that name it; a
    batch stays while the engine or a task holds it, and an event says it is freed only
    when it is gone and no slot names it any more. *)
Theorem shares_exact :
  (∀ b r, batches p !! b = Some r →
     shares r = shares_in b (kslots p) ∧ (held r = true ∨ 0 < shares r) ∧
     is_Some (Arena.handle_of (arena p) (object r))) ∧
  (∀ b, batches p !! b = None → shares_in b (kslots p) = 0) ∧
  (∀ b, Event.Freed b ∈ events p → batches p !! b = None ∧ shares_in b (kslots p) = 0).
Proof.
  destruct (reachable_good _ _ _ _ no_slots kernel_starts_ok lim_u64 few reached) as [I L]. split_and!.
  - intros b r Hb. destruct (inv_batch _ _ _ _ _ _ I _ _ Hb) as (? & _ & _ & ? & _).
    split_and!; try done. by apply (L b).
  - apply (inv_nobatch _ _ _ _ _ _ I).
  - intros b Hb. destruct (inv_events _ _ _ _ _ _ I b Hb). split; [done|].
    by apply (inv_nobatch _ _ _ _ _ _ I).
Qed.

(** C20: no sequence of calls provokes an error of the plane's own bookkeeping, and a
    round of [next] ends: no method loses an object or finds one where it should not
    be. *)
Theorem no_internal_error :
  (∀ sh, external (open sh p).1) ∧
  (∀ record, u64 (zlen record) → external (load verify rows record p).1) ∧
  (∀ task input b, external (offer task input b p).1) ∧
  (∀ task output k, u64 k → external (grant task output k p).1) ∧
  (∀ c answered, external (answer c answered p).1) ∧
  (∀ b, external (drop_batch b p).1) ∧
  (∀ fuel d, enough fuel p → halted (next_round verify rows fuel d p).1).
Proof.
  pose proof (reachable_good _ _ _ _ no_slots kernel_starts_ok lim_u64 few reached) as G.
  split_and!; intros.
  - by apply (open_good _ _ p sh G).
  - apply (load_with_good _ _ p (zlen record) (λ m, write m 0 record) G); try done; try lia.
    intros. apply write_quiet.
  - apply (offer_good _ _ p task input b G). lia.
  - apply (grant_good _ _ p task output k G); [lia|lia|done].
  - by apply (answer_good _ _ p c answered G).
  - by apply (drop_batch_good _ _ p b G).
  - by apply (next_round_good fuel _ _ p d G).
Qed.

(** C21: a task the plane lets go, which is when it reports the task ended, has nothing
    left out: each of its slots is over, and what was pushed to it has come back. *)
Theorem ended_task_holds_nothing fuel d id t :
  enough fuel p → tasks p !! id = Some t →
  tasks (next_round verify rows fuel d p).2 !! id = None →
  ∀ r, r ∈ inputs t ++ outputs t →
  ∃ e, kslots (next_round verify rows fuel d p).2 !! slot_id (sr_slot r) = Some e ∧
    e_over e = true ∧ e_cookies e = [].
Proof.
  intros Hf Ht Hn r Hr.
  pose proof (reachable_good _ _ _ _ no_slots kernel_starts_ok lim_u64 few reached) as G.
  destruct (next_round_good fuel _ _ p d G Hf) as (_ & _ & A).
  pose proof (after_some _ _ A id t Ht) as H. rewrite Hn in H.
  destruct (H r Hr) as (e & He & Ho). exists e. split_and!; try done.
  exact (over_empty _ _ _ He Ho).
Qed.

(** C22: what the plane reports is what is there: the arena has made exactly the windows
    out, the pool and the batches' objects, within its budget, and the shares it counts
    are the entries of the tasks' input slots. *)
Theorem residency_exact :
  let r := residency p in
  r_made r = r_windows r + r_pooled r + batch_bytes (batches p) (arena p) ∧
  r_made r ≤ r_budget r ∧
  r_windows r = window_bytes (kslots p) (arena p) ∧
  r_shares r = offered_in (kslots p).
Proof.
  destruct (reachable_good _ _ _ _ no_slots kernel_starts_ok lim_u64 few reached) as [I _].
  simpl. split; [by eapply made_exact|]. split; [apply (wf_fits _ (inv_arena _ _ _ _ _ _ I))|].
  split; [rewrite (inv_windows _ _ _ _ _ _ I); lia|].
  rewrite (shares_total _ _ _ _ _ _ I). apply wrap_small.
  assert (0 ≤ offered_in (kslots p) ≤ pushed_in (kslots p)).
  { split; [apply map_sum_nonneg|apply map_sum_mono]; intros i e _;
      pose proof (zlen_nonneg (e_cookies e)); destruct (e_output e); lia. }
  pose proof (inv_next _ _ _ _ _ _ I). unfold in_width. lia.
Qed.

End reachable.

End methods.
