(* ===== verification/PlaneModel.v ===== *)
(** * A kernel for the data plane

    [src/kernel/plane/core/src/model.rs]: the kernel's data-plane calls on a host, and
    tasks that run scripts against it.  What the code keeps behind [Rc<RefCell<..>>] is a
    store here: a [Mem] names an entry of the memory store, a [Slot] and a [Chan] their
    entries, so that handles to one object share it.  The instance at the end shows that
    these calls and the tasks' steps keep the promises the plane's theorems rest on. *)

From S2P Require Import Prelude Abi PlanePort PlaneArena Plane.
Record Mem := mk_Mem { m_bytes : nat; writable : bool }.

(** The object, where the batch or window starts, its length, and the cookie. *)
Abbreviation Pushed := (Mem * Z * Z * Z)%type.

Definition p_cookie (x : Pushed) : Z := x.2.

Record SlotState := mk_SlotState {
  output : bool;
  ready : list Pushed;
  s_events : list (Taken Mem);
  current : option Pushed;
  closed : bool;
  s_ended : bool;
  refused : option text;
}.

Record ChannelState := mk_ChannelState {
  queue0 : list (list byte * option Mem);
  queue1 : list (list byte * option Mem);
  open0 : bool;
  open1 : bool;
}.

Record Chan := mk_Chan { c_state : nat; side : bool }.

Record Model := mk_Model {
  mems : list (list byte);
  m_made : Z;
  m_slots : list SlotState;
  m_chans : list ChannelState;
  fail_memory : bool;
  fail_read : bool;
  fail_push : option Error;
  depth : Z;
}.

Definition model_default : Model := mk_Model [] 0 [] [] false false None limits.SLOT_DEPTH.

Definition set_mems (l : list (list byte)) (k : Model) : Model :=
  mk_Model l (m_made k) (m_slots k) (m_chans k) (fail_memory k) (fail_read k) (fail_push k)
    (depth k).
Definition set_m_slots (l : list SlotState) (k : Model) : Model :=
  mk_Model (mems k) (m_made k) l (m_chans k) (fail_memory k) (fail_read k) (fail_push k)
    (depth k).
Definition set_chans (l : list ChannelState) (k : Model) : Model :=
  mk_Model (mems k) (m_made k) (m_slots k) l (fail_memory k) (fail_read k) (fail_push k)
    (depth k).

(** A slot's state and what a call makes of it; a name of no slot is not one the code can
    hold. *)
Definition on_slot {E A} (none : E) (i : nat) (f : SlotState → result E A * SlotState) :
    M Model E A := λ k,
  match m_slots k !! i with
  | None => (Err none, k)
  | Some s => let '(r, s) := f s in (r, set_m_slots (<[i := s]> (m_slots k)) k)
  end.

(** ** The calls *)

Definition model_memory (n : Z) : M Model Error Mem := λ k,
  if fail_memory k then (Err NoMemory, k)
  else (Ok (mk_Mem (length (mems k)) true),
        mk_Model (mems k ++ [repeat x00 (Z.to_nat n)]) (m_made k +! 1) (m_slots k) (m_chans k)
          (fail_memory k) (fail_read k) (fail_push k) (depth k)).

Definition model_share (m : Mem) : M Model Error Mem := mret (mk_Mem (m_bytes m) false).

Definition model_read (m : Mem) (off n : Z) : M Model Error (list byte) := λ k,
  if fail_read k then (Err Fault, k)
  else (ok_or (mems k !! m_bytes m ≫= λ b, get_range b off (off +! n)) OutOfRange, k).

Definition model_write (m : Mem) (off : Z) (data : list byte) : M Model Error unit := λ k,
  match mems k !! m_bytes m with
  | None => (Err OutOfRange, k)
  | Some b =>
      match get_range b off (off +! zlen data) with
      | None => (Err OutOfRange, k)
      | Some _ => (Ok tt, set_mems (<[m_bytes m := put_range b off data]> (mems k)) k)
      end
  end.

Definition model_slot (out : bool) : M Model Error nat := λ k,
  (Ok (length (m_slots k)),
   set_m_slots (m_slots k ++ [mk_SlotState out [] [] None false false None]) k).

Definition push_back (x : Pushed) (s : SlotState) : SlotState :=
  mk_SlotState (output s) (ready s ++ [x]) (s_events s) (current s) (closed s) (s_ended s)
    (refused s).

Definition holds (s : SlotState) : Z :=
  zlen (ready s) + zlen (s_events s) + match current s with Some _ => 1 | None => 0 end.

Definition model_push (i : nat) (m : Mem) (off n cookie : Z) : M Model (Error * Mem) unit := λ k,
  match fail_push k with
  | Some e =>
      (Err (e, m), mk_Model (mems k) (m_made k) (m_slots k) (m_chans k) (fail_memory k)
         (fail_read k) None (depth k))
  | None =>
      on_slot (BadHandle, m) i (λ s,
        if closed s || s_ended s then (Err (BadState, m), s)
        else if depth k <=? holds s then (Err (ShouldWait, m), s)
        else (Ok tt, push_back (m, off, n, cookie) s)) k
  end.

Definition model_take (i : nat) : M Model Error (Taken Mem) :=
  on_slot BadHandle i (λ s,
    match s_events s with
    | x :: es => (Ok x, mk_SlotState (output s) (ready s) es (current s) (closed s) (s_ended s)
                          (refused s))
    | [] => (Err (if s_ended s then PeerClosed else ShouldWait), s)
    end).

Definition model_close (i : nat) : M Model Error unit :=
  on_slot BadHandle i (λ s,
    (Ok tt, mk_SlotState (output s) (ready s) (s_events s) (current s) true (s_ended s)
              (refused s))).

Definition model_refuse (i : nat) (reason : text) : M Model Error unit :=
  on_slot BadHandle i (λ s,
    if s_ended s then (Err BadState, s)
    else (Ok tt, mk_SlotState (output s) (ready s) (s_events s) (current s) (closed s)
                   (s_ended s) (Some reason))).

Definition model_channel : M Model Error (Chan * Chan) := λ k,
  (Ok (mk_Chan (length (m_chans k)) false, mk_Chan (length (m_chans k)) true),
   set_chans (m_chans k ++ [mk_ChannelState [] [] true true]) k).

(** The queue an end reads, and whether its peer is open. *)
Definition my_queue (c : Chan) (st : ChannelState) : list (list byte * option Mem) :=
  if side c then queue1 st else queue0 st.
Definition peer_open (c : Chan) (st : ChannelState) : bool :=
  if side c then open0 st else open1 st.
Definition set_queue (sd : bool) (q : list (list byte * option Mem)) (st : ChannelState) :
    ChannelState :=
  if sd then mk_ChannelState (queue0 st) q (open0 st) (open1 st)
  else mk_ChannelState q (queue1 st) (open0 st) (open1 st).

Definition model_receive (c : Chan) : M Model Error (list byte) := λ k,
  match m_chans k !! c_state c with
  | None => (Err BadHandle, k)
  | Some st =>
      match my_queue c st with
      | (bytes, _) :: q => (Ok bytes, set_chans (<[c_state c := set_queue (side c) q st]> (m_chans k)) k)
      | [] => (Err (if peer_open c st then ShouldWait else PeerClosed), k)
      end
  end.

Definition model_send (c : Chan) (bytes : list byte) (m : option Mem) : M Model Error unit := λ k,
  match m_chans k !! c_state c with
  | None => (Err BadHandle, k)
  | Some st =>
      if negb (peer_open c st) then (Err PeerClosed, k)
      else
        let q := if side c then queue0 st else queue1 st in
        (Ok tt, set_chans (<[c_state c := set_queue (negb (side c)) (q ++ [(bytes, m)]) st]>
                  (m_chans k)) k)
  end.

Definition model_wait (ss : list nat) (cs : list Chan) (_ : Z) : M Model Error Ready.t := λ k,
  let ready_slot i :=
    match m_slots k !! i with
    | Some s => match s_events s with [] => s_ended s | _ => true end
    | None => false
    end in
  let ready_chan c :=
    match m_chans k !! c_state c with
    | Some st => match my_queue c st with [] => negb (peer_open c st) | _ => true end
    | None => false
    end in
  (Ok (if existsb ready_slot ss || existsb ready_chan cs then Ready.Something
       else Ready.TimedOut), k).

#[export] Instance model_calls : Calls Model Mem nat Chan := {
  memory := model_memory;
  share := model_share;
  read := model_read;
  write := model_write;
  slot := model_slot;
  push := model_push;
  take := model_take;
  close := model_close;
  refuse := model_refuse;
  channel := model_channel;
  receive := model_receive;
  send := model_send;
  wait := model_wait;
}.

(** ** Tasks *)

Inductive Step :=
| Get (n : Z)
| Write (slot at_ : Z) (bytes : list byte)
| SPut (slot off n : Z)
| WriteAfterPut (slot : Z)
| SCall (port : Z) (req : list byte)
| Crash.

Inductive Ending := Exited | Faulted | Killed.

Inductive Seen :=
| SeenBatch (n sum : Z)
| SeenEnd
| SeenWindow (n : Z)
| SeenWrote
| SeenPut
| SeenReply (bytes : list byte)
| SeenError (e : Error).

(** [conformance::sum]: FNV-1a. *)
Definition sum (l : list byte) : Z :=
  foldl (λ h b, wrap 64 (Z.lxor h (byte_Z b) * 0x100000001b3)) 0xcbf29ce484222325 l.

(** What a step did; [Panicked] where the code indexes out of range. *)
Inductive Did := Next | Wait | End (e : Ending) | Panicked.

Record Task := mk_Task {
  t_slots : list nat;
  t_port : option Chan;
  seen : list Seen;
  ending : option Ending;
  waiting : option Z;
}.

Definition see (x : Seen) (t : Task) : Task :=
  mk_Task (t_slots t) (t_port t) (seen t ++ [x]) (ending t) (waiting t).
Definition set_waiting (w : option Z) (t : Task) : Task :=
  mk_Task (t_slots t) (t_port t) (seen t) (ending t) w.

Definition set_slot (i : nat) (s : SlotState) (k : Model) : Model :=
  set_m_slots (<[i := s]> (m_slots k)) k.

(** The batch an input's task has mapped is released. *)
Definition release_current (s : SlotState) : SlotState :=
  match current s with
  | Some x => mk_SlotState (output s) (ready s) (s_events s ++ [Released (p_cookie x)]) None
                (closed s) (s_ended s) (refused s)
  | None => s
  end.

(** The next entry becomes the one mapped. *)
Definition map_next (s : SlotState) : option (Pushed * SlotState) :=
  match ready s with
  | [] => None
  | x :: r => Some (x, mk_SlotState (output s) r (s_events s) (Some x) (closed s) (s_ended s)
                      (refused s))
  end.

(** [task_get]: the bytes of the next batch, [None] while there is none; the outer [None]
    is a slice out of range. *)
Definition task_get (i : nat) (k : Model) : option (option (list byte) * Model) :=
  match m_slots k !! i with
  | None => None
  | Some s =>
      let s := if output s then s else release_current s in
      match map_next s with
      | None => Some (None, set_slot i s k)
      | Some ((m, off, n, _), s') =>
          b ← mems k !! m_bytes m;
          bytes ← get_range b off (off +! n);
          Some (Some bytes, set_slot i s' k)
      end
  end.

(** [task_end]: everything the slot's task held or had queued goes back. *)
Definition give_back (out : bool) (x : Pushed) : Taken Mem :=
  if out then Returned (p_cookie x) x.1.1.1 else Released (p_cookie x).

Definition task_end (s : SlotState) : SlotState :=
  if s_ended s then s
  else
    mk_SlotState (output s) []
      (s_events s ++ (give_back (output s) <$> option_list (current s) ++ ready s))
      None (closed s) true (refused s).

(** [Task::end]. *)
Definition end_slots (l : list nat) (k : Model) : Model :=
  foldl (λ k i, match m_slots k !! i with
                | Some s => set_slot i (task_end s) k
                | None => k
                end) k l.

Definition close_port (c : option Chan) (k : Model) : Model :=
  match c with
  | None => k
  | Some c =>
      match m_chans k !! c_state c with
      | None => k
      | Some st => set_chans (<[c_state c := mk_ChannelState (queue0 st) (queue1 st) (open0 st)
                                  false]> (m_chans k)) k
      end
  end.

Definition end_of_task (e : Ending) (t : Task) (k : Model) : Task * Model :=
  (mk_Task (t_slots t) (t_port t) (seen t) (Some e) (waiting t),
   close_port (t_port t) (end_slots (t_slots t) k)).

Abbreviation stepped := (Did * Task * Model * Z)%type.

Definition step_get (n : Z) (t : Task) (k : Model) (token : Z) : stepped :=
  match t_slots t !! Z.to_nat n with
  | None => (Next, see (SeenError BadHandle) t, k, token)
  | Some i =>
      match m_slots k !! i with
      | None => (Panicked, t, k, token)
      | Some s =>
          if output s then
            match current s with
            | Some w => (Next, see (SeenWindow w.1.2) t, k, token)
            | None =>
                match map_next s with
                | None => (Wait, t, k, token)
                | Some (w, s') => (Next, see (SeenWindow w.1.2) t, set_slot i s' k, token)
                end
            end
          else
            let s := release_current s in
            let k := set_slot i s k in
            if match ready s with [] => negb (closed s) | _ => false end
            then (Wait, t, k, token)
            else
              match task_get i k with
              | None => (Panicked, t, k, token)
              | Some (Some bytes, k) =>
                  (Next, see (SeenBatch (zlen bytes) (sum bytes)) t, k, token)
              | Some (None, k) => (Next, see SeenEnd t, k, token)
              end
      end
  end.

Definition step_write (n at_ : Z) (bytes : list byte) (t : Task) (k : Model) (token : Z) :
    stepped :=
  match t_slots t !! Z.to_nat n ≫= λ i, m_slots k !! i with
  | None => (End Faulted, t, k, token)
  | Some s =>
      match current s with
      | None => (End Faulted, t, k, token)
      | Some (m, off, len, _) =>
          if negb (writable m) ||
             match checked_add 64 at_ (zlen bytes) with Some e => len <? e | None => true end
          then (End Faulted, t, k, token)
          else
            let from := off +! at_ in
            match mems k !! m_bytes m with
            | None => (Panicked, t, k, token)
            | Some b =>
                match get_range b from (from +! zlen bytes) with
                | None => (Panicked, t, k, token)
                | Some _ =>
                    (Next, see SeenWrote t,
                     set_mems (<[m_bytes m := put_range b from bytes]> (mems k)) k, token)
                end
            end
      end
  end.

Definition put_refused (s : SlotState) (off n : Z) : option Error :=
  if negb (output s) || (n =? 0) || negb (off mod PAGE =? 0) then Some InvalidArgs
  else match current s with
  | None => Some BadState
  | Some (_, _, window, _) =>
      match checked_add 64 off n with
      | Some e => if window <? e then Some OutOfRange else None
      | None => Some OutOfRange
      end
  end.

Definition step_put (n off len : Z) (t : Task) (k : Model) (token : Z) : stepped :=
  match t_slots t !! Z.to_nat n with
  | None => (Next, see (SeenError BadHandle) t, k, token)
  | Some i =>
      match m_slots k !! i with
      | None => (Panicked, t, k, token)
      | Some s =>
          match put_refused s off len, current s with
          | Some e, _ => (Next, see (SeenError e) t, k, token)
          | None, None => (End Faulted, t, k, token)
          | None, Some (m, start, _, c) =>
              (Next, see SeenPut t,
               set_slot i (mk_SlotState (output s) (ready s)
                 (s_events s ++ [Put c m (start +! off) len]) None (closed s) (s_ended s)
                 (refused s)) k, token)
          end
      end
  end.

(** The message of a port call. *)
Definition request_message (token port : Z) (bytes : list byte) : list byte :=
  let m := repeat x00 (Z.to_nat request.SIZE) in
  let m := (write_u32 m request.KIND request.CALL).2 in
  let m := (write_u64 m request.TOKEN token).2 in
  let m := (write_u64 m request.PORT port).2 in
  let m := (write_u64 m request.LEN (zlen bytes)).2 in
  m ++ bytes.

(** Replies are taken until the one awaited. *)
Fixpoint find_reply (w : option Z) (q : list (list byte * option Mem)) :
    option (list byte * option Mem) * list (list byte * option Mem) :=
  match q with
  | [] => (None, [])
  | (header, m) :: q =>
      if bool_decide (read_u64 header reply.TOKEN = w) then (Some (header, m), q)
      else find_reply w q
  end.

Definition reply_seen (header : list byte) (m : option Mem) (k : Model) : option Seen :=
  let status := default 0 (read_u64 header reply.STATUS) in
  let n := default 0 (read_u64 header reply.LEN) in
  if negb (status =? 0)
  then Some (SeenError (default BadState (Err.from_code (wrap 32 status))))
  else match m with
  | Some m => b ← mems k !! m_bytes m; SeenReply <$> get_range b 0 n
  | None => Some (SeenReply [])
  end.

Definition await_reply (c : Chan) (t : Task) (k : Model) (token : Z) : stepped :=
  match m_chans k !! c_state c with
  | None => (Panicked, t, k, token)
  | Some st =>
      let '(found, q) := find_reply (waiting t) (queue1 st) in
      let k' := set_chans (<[c_state c := set_queue true q st]> (m_chans k)) k in
      match found with
      | None => (Wait, t, k', token)
      | Some (header, m) =>
          match reply_seen header m k with
          | None => (Panicked, set_waiting None t, k', token)
          | Some x => (Next, see x (set_waiting None t), k', token)
          end
      end
  end.

Definition step_call (port : Z) (bytes : list byte) (t : Task) (k : Model) (token : Z) : stepped :=
  match waiting t, t_port t with
  | Some _, None => (End Faulted, t, k, token)
  | Some _, Some c => await_reply c t k token
  | None, None => (Next, see (SeenError BadHandle) t, k, token)
  | None, Some c =>
      if limits.CHANNEL_MAX_BYTES - request.SIZE <? zlen bytes
      then (Next, see (SeenError Limit) t, k, token)
      else
        let token := token +! 1 in
        match m_chans k !! c_state c with
        | None => (Panicked, t, k, token)
        | Some st =>
            let q := queue0 st ++ [(request_message token port bytes, None)] in
            await_reply c (set_waiting (Some token) t)
              (set_chans (<[c_state c := set_queue false q st]> (m_chans k)) k) token
        end
  end.

(** [Task::step]. *)
Definition task_do (st : Step) (t : Task) (k : Model) (token : Z) : stepped :=
  match st with
  | Get n => step_get n t k token
  | Write n at_ bytes => step_write n at_ bytes t k token
  | SPut n off len => step_put n off len t k token
  | WriteAfterPut _ => (End Faulted, t, k, token)
  | SCall port bytes => step_call port bytes t k token
  | Crash => (End Killed, t, k, token)
  end.

(** ** What the engine may know of a slot *)

Definition cookies_of (s : SlotState) : list Z :=
  (p_cookie <$> option_list (current s) ++ ready s) ++ (cookie <$> s_events s).

Definition entry_of (s : SlotState) : entry :=
  mk_entry (output s) (cookies_of s)
    (s_ended s && match cookies_of s with [] => true | _ => false end).

Definition model_slots (k : Model) : gmap Z entry :=
  kmap Z.of_nat (map_seq (M := gmap nat entry) 0 (entry_of <$> m_slots k)).

(** An input gives back releases, an output windows; an ended task holds nothing. *)
Definition slot_ok (s : SlotState) : Prop :=
  Forall (λ x, is_released x = negb (output s)) (s_events s) ∧
  (s_ended s = true → current s = None ∧ ready s = []).

Definition model_ok (k : Model) : Prop := Forall slot_ok (m_slots k).

(** The messages every channel holds. *)
Definition queued (st : ChannelState) : nat := length (queue0 st) + length (queue1 st).

Definition model_messages (k : Model) : nat := sum_list (queued <$> m_chans k).

(** A task's step, and its end. *)
Inductive model_step (k : Model) : Model → Prop :=
| model_step_do st t token d t' k' token' :
    task_do st t k token = (d, t', k', token') → model_step k k'
| model_step_end e t : model_step k (end_of_task e t k).2.

Lemma model_slots_lookup k i : model_slots k !! Z.of_nat i = entry_of <$> m_slots k !! i.
Proof.
  unfold model_slots. rewrite (lookup_kmap Z.of_nat), lookup_map_seq_0, list_lookup_fmap.
  done.
Qed.

Lemma model_slots_eq k m :
  (∀ i, m !! Z.of_nat i = entry_of <$> m_slots k !! i) →
  (∀ z e, m !! z = Some e → 0 ≤ z) → model_slots k = m.
Proof.
  intros Hm Hn. apply map_eq. intros z. destruct (decide (0 ≤ z)) as [Hz|Hz].
  - rewrite <- (Z2Nat.id z Hz), model_slots_lookup. by rewrite Hm.
  - transitivity (@None entry); [|symmetry; apply eq_None_not_Some; intros [e He]; eauto].
    apply eq_None_not_Some. intros [e He]. unfold model_slots in He.
    apply (lookup_kmap_Some Z.of_nat) in He as (i & -> & _). lia.
Qed.

Lemma model_slots_pos k z e : model_slots k !! z = Some e → 0 ≤ z.
Proof.
  unfold model_slots. intros (i & -> & _)%(lookup_kmap_Some Z.of_nat). lia.
Qed.

Lemma model_slots_set k i s :
  (i < length (m_slots k))%nat →
  model_slots (set_slot i s k) = <[Z.of_nat i := entry_of s]> (model_slots k).
Proof.
  intros Hi. apply model_slots_eq.
  - intros j. simpl. destruct (decide (i = j)) as [<-|Hj].
    + by rewrite lookup_insert_eq, list_lookup_insert_eq.
    + rewrite lookup_insert_ne, list_lookup_insert_ne by (done || lia).
      apply model_slots_lookup.
  - intros z e. destruct (decide (Z.of_nat i = z)) as [<-|Hz]; [lia|].
    rewrite lookup_insert_ne by done. apply model_slots_pos.
Qed.

Lemma model_ok_set k i s : model_ok k → slot_ok s → model_ok (set_slot i s k).
Proof. intros K Hs. by apply Forall_insert. Qed.

Lemma model_slots_same k k' : m_slots k' = m_slots k → model_slots k' = model_slots k.
Proof. intros E. unfold model_slots. by rewrite E. Qed.

(** A slot put back with the same entry. *)
Lemma model_quiet_set k i s s' :
  m_slots k !! i = Some s → entry_of s' = entry_of s → (slot_ok s → slot_ok s') →
  model_slots (set_slot i s' k) = model_slots k ∧ (model_ok k → model_ok (set_slot i s' k)).
Proof.
  intros Hs He Hok. split.
  - rewrite model_slots_set by (by eapply lookup_lt_Some). rewrite He. apply insert_id.
    by rewrite model_slots_lookup, Hs.
  - intros K. apply model_ok_set; [done|]. apply Hok. unfold model_ok in K.
    by eapply Forall_lookup_1 in K.
Qed.

Lemma model_quiet_same k k' :
  m_slots k' = m_slots k →
  model_slots k' = model_slots k ∧ (model_ok k → model_ok k').
Proof. intros E. split; [by apply model_slots_same|]. unfold model_ok. by rewrite E. Qed.

Lemma model_messages_set k i st st' :
  m_chans k !! i = Some st →
  (model_messages (set_chans (<[i := st']> (m_chans k)) k) + queued st =
   model_messages k + queued st')%nat.
Proof.
  intros H. unfold model_messages. simpl. revert i H.
  induction (m_chans k) as [|c l IH]; intros [|i] H; csimpl in *; simplify_eq; [lia|].
  specialize (IH _ H). lia.
Qed.

(** ** The kernel keeps its promises *)

Lemma on_slot_quiet {E A} (none : E) i (f : SlotState → result E A * SlotState) k :
  (∀ s, entry_of (f s).2 = entry_of s ∧ (slot_ok s → slot_ok (f s).2)) →
  model_slots (on_slot none i f k).2 = model_slots k ∧
  (model_ok k → model_ok (on_slot none i f k).2).
Proof.
  intros Hf. unfold on_slot. destruct (m_slots k !! i) as [s|] eqn:Es; [|done].
  destruct (Hf s) as [H1 H2]. destruct (f s) as [r s']. by apply (model_quiet_set _ _ s).
Qed.

Lemma on_slot_messages {E A} (none : E) i (f : SlotState → result E A * SlotState) k :
  model_messages (on_slot none i f k).2 = model_messages k.
Proof.
  unfold on_slot. destruct (m_slots k !! i); [|done]. by destruct (f _) as [r s'].
Qed.

Lemma model_slot_law out k :
  model_slots k !! Z.of_nat (length (m_slots k)) = None ∧
  model_slots (model_slot out k).2 =
    <[Z.of_nat (length (m_slots k)) := mk_entry out [] false]> (model_slots k) ∧
  (model_ok k → model_ok (model_slot out k).2).
Proof.
  split; [|split].
  - by rewrite model_slots_lookup, lookup_ge_None_2.
  - apply model_slots_eq.
    + intros j. simpl. destruct (decide (length (m_slots k) = j)) as [<-|Hj].
      * rewrite lookup_insert_eq, lookup_app_r, Nat.sub_diag by done. done.
      * rewrite lookup_insert_ne by lia. rewrite model_slots_lookup.
        destruct (decide (j < length (m_slots k))%nat).
        { by rewrite lookup_app_l. }
        rewrite !lookup_ge_None_2; rewrite ?length_app; simpl; lia || done.
    + intros z e. destruct (decide (Z.of_nat (length (m_slots k)) = z)) as [<-|Hz]; [lia|].
      rewrite lookup_insert_ne by done. apply model_slots_pos.
  - intros K. apply Forall_app. split; [done|]. by repeat constructor.
Qed.

Lemma model_push_law i m o n c k e :
  model_ok k → model_slots k !! Z.of_nat i = Some e →
  match model_push i m o n c k with
  | (Ok _, k') => model_ok k' ∧ e_over e = false ∧ ∃ l, l ≡ₚ c :: e_cookies e ∧
      model_slots k' = <[Z.of_nat i := mk_entry (e_output e) l false]> (model_slots k)
  | (Err (_, m'), k') => m' = m ∧ model_slots k' = model_slots k ∧ (model_ok k → model_ok k')
  end.
Proof.
  intros K He. rewrite model_slots_lookup in He.
  destruct (m_slots k !! i) as [s|] eqn:Es; simplify_eq/=.
  unfold model_push, on_slot. destruct (fail_push k); [done|]. rewrite Es.
  destruct (closed s || s_ended s) eqn:Ec.
  { split; [done|]. by apply (model_quiet_set _ _ s). }
  destruct (depth k <=? holds s); [split; [done|]; by apply (model_quiet_set _ _ s)|].
  apply orb_false_iff in Ec as [_ Ee].
  assert (slot_ok s) as [Hev _] by (unfold model_ok in K; by eapply Forall_lookup_1 in K).
  split; [|split].
  - apply model_ok_set; [done|]. split; [done|]. simpl. by rewrite Ee.
  - simpl. by rewrite Ee.
  - exists (cookies_of (push_back (m, o, n, c) s)). split.
    + unfold cookies_of. simpl. rewrite !fmap_app. simpl. rewrite <- !app_assoc.
      rewrite (app_assoc _ (p_cookie <$> ready s)). simpl.
      rewrite (app_assoc _ (p_cookie <$> ready s)).
      symmetry. apply Permutation_middle.
    + pose proof (model_slots_set k i (push_back (m, o, n, c) s)) as H.
      unfold set_slot in H. rewrite H by (by eapply lookup_lt_Some).
      unfold entry_of. simpl. by rewrite Ee.
Qed.

Lemma model_take_law i k e :
  model_ok k → model_slots k !! Z.of_nat i = Some e →
  match model_take i k with
  | (Ok x, k') => model_ok k' ∧ is_released x = negb (e_output e) ∧
      ∃ l o, e_cookies e ≡ₚ cookie x :: l ∧
      model_slots k' = <[Z.of_nat i := mk_entry (e_output e) l o]> (model_slots k)
  | (Err PeerClosed, k') =>
      e_over e = true ∧ model_slots k' = model_slots k ∧ (model_ok k → model_ok k')
  | (Err _, k') => model_slots k' = model_slots k ∧ (model_ok k → model_ok k')
  end.
Proof.
  intros K He. rewrite model_slots_lookup in He.
  destruct (m_slots k !! i) as [s|] eqn:Es; simplify_eq/=.
  assert (slot_ok s) as [Hev Hend] by (unfold model_ok in K; by eapply Forall_lookup_1 in K).
  unfold model_take, on_slot. rewrite Es. destruct (s_events s) as [|x es] eqn:Ev.
  - destruct (s_ended s) eqn:Ee; [split|].
    + destruct (Hend eq_refl) as [H1 H2]. unfold cookies_of. by rewrite H1, H2, Ev.
    + by apply (model_quiet_set _ _ s).
    + by apply (model_quiet_set _ _ s).
  - apply Forall_cons in Hev as [Hx Hes]. split; [|split; [done|]].
    + apply model_ok_set; [done|]. by split.
    + pose proof (model_slots_set k i (mk_SlotState (output s) (ready s) es (current s)
        (closed s) (s_ended s) (refused s))) as H.
      unfold set_slot in H. eexists _, _. rewrite H by (by eapply lookup_lt_Some).
      split; [|done]. unfold cookies_of. simpl. rewrite Ev. simpl.
      symmetry. apply Permutation_middle.
Qed.

(** A slot its task moved on: the same cookies are out, and a task that ended stays so. *)
Definition moved (s s' : SlotState) : Prop :=
  output s' = output s ∧ cookies_of s' ≡ₚ cookies_of s ∧
  (s_ended s = true → s_ended s' = true) ∧ slot_ok s'.

Definition onward (k k' : Model) : Prop :=
  model_ok k → later (model_slots k) (model_slots k') ∧ model_ok k'.

Lemma onward_refl k : onward k k.
Proof. intros K. by split; [apply later_refl|]. Qed.

Lemma onward_trans k1 k2 k3 : onward k1 k2 → onward k2 k3 → onward k1 k3.
Proof.
  intros H1 H2 K. destruct (H1 K) as [L1 K1]. destruct (H2 K1) as [L2 K2].
  split; [by eapply later_trans|done].
Qed.

Lemma onward_same k k' : m_slots k' = m_slots k → onward k k'.
Proof.
  intros E K. destruct (model_quiet_same _ _ E) as [E1 K1]. rewrite E1.
  by split; [apply later_refl|apply K1].
Qed.

Lemma onward_set k i s s' :
  m_slots k !! i = Some s → (slot_ok s → moved s s') → onward k (set_slot i s' k).
Proof.
  intros Hs Hm K.
  assert (slot_ok s) as Hok by (unfold model_ok in K; by eapply Forall_lookup_1 in K).
  destruct (Hm Hok) as (Eo & P & He & Hok'). split; [|by apply model_ok_set].
  rewrite model_slots_set by (by eapply lookup_lt_Some). intros z.
  destruct (decide (Z.of_nat i = z)) as [<-|Hz].
  - rewrite lookup_insert_eq, model_slots_lookup, Hs. simpl. split; [done|]. split; [done|].
    intros [E1 E2]%andb_true_iff. rewrite He by done.
    destruct (cookies_of s); [|done]. by apply Permutation_nil_r in P as ->.
  - rewrite lookup_insert_ne by done. by destruct (model_slots k !! z).
Qed.

Lemma moved_refl s : slot_ok s → moved s s.
Proof. by repeat (split; [done|]). Qed.

Lemma release_moved s : slot_ok s → output s = false → moved s (release_current s).
Proof.
  intros Hok Ho. unfold release_current.
  destruct (current s) as [x|] eqn:Ec; [|by apply moved_refl].
  destruct Hok as [Hev Hend].
  split; [done|]. split; [|split; [done|split]].
  - unfold cookies_of. simpl. rewrite Ec, fmap_app. simpl. rewrite app_assoc.
    symmetry. apply Permutation_cons_append.
  - simpl. apply Forall_app. split; [done|]. constructor; [by rewrite Ho|done].
  - simpl. intros H. by destruct (Hend H).
Qed.

Lemma map_next_moved s x s' :
  slot_ok s → current s = None → map_next s = Some (x, s') → moved s s'.
Proof.
  intros [Hev Hend] Hc H. unfold map_next in H. destruct (ready s) as [|y r] eqn:Er; simplify_eq.
  split; [done|]. split; [|split; [done|split; [done|]]].
  - unfold cookies_of. simpl. by rewrite Hc, Er.
  - simpl. intros H. by destruct (Hend H).
Qed.

Lemma task_end_moved s : slot_ok s → moved s (task_end s).
Proof.
  intros Hok. unfold task_end. destruct (s_ended s) eqn:Ee; [by apply moved_refl|].
  destruct Hok as [Hev Hend].
  split; [done|]. split; [|split; [done|split; [|done]]].
  - unfold cookies_of. simpl. rewrite fmap_app, <- list_fmap_compose.
    rewrite (list_fmap_ext (cookie ∘ give_back (output s)) p_cookie
      (option_list (current s) ++ ready s)); [apply Permutation_app_comm|].
    intros j x _. unfold give_back. simpl. by destruct (output s).
  - simpl. apply Forall_app. split; [done|]. apply Forall_fmap, Forall_true.
    intros x. unfold give_back. simpl. by destruct (output s).
Qed.

Lemma release_none s : current (release_current s) = None.
Proof. unfold release_current. by destruct (current s) eqn:E. Qed.

Lemma moved_trans s1 s2 s3 : moved s1 s2 → (slot_ok s2 → moved s2 s3) → moved s1 s3.
Proof.
  intros (E1 & P1 & H1 & K1) H. destruct (H K1) as (E2 & P2 & H2 & K2).
  split; [congruence|]. split; [by rewrite P2|]. split; [auto|done].
Qed.

(** [task_get] is only called on an input slot. *)
Lemma task_get_onward i k s r k' :
  m_slots k !! i = Some s → output s = false → task_get i k = Some (r, k') → onward k k'.
Proof.
  unfold task_get. intros Es Eo H. rewrite Es, Eo in H.
  destruct (map_next (release_current s)) as [[[[[m off] n] c] s']|] eqn:En.
  - destruct (mems k !! m_bytes m) as [b|]; simpl in H; [|done].
    destruct (get_range b off (off +! n)); simplify_eq/=.
    apply (onward_set _ _ s); [done|]. intros Hok.
    eapply moved_trans; [by apply release_moved|]. intros Hok'.
    eapply map_next_moved; [done|apply release_none|done].
  - simplify_eq. apply (onward_set _ _ s); [done|]. intros Hok. by apply release_moved.
Qed.

Lemma step_get_onward n t k token d t' k' token' :
  step_get n t k token = (d, t', k', token') → onward k k'.
Proof.
  unfold step_get. intros H. destruct (t_slots t !! Z.to_nat n) as [i|]; [|simplify_eq; apply onward_refl].
  destruct (m_slots k !! i) as [s|] eqn:Es; [|simplify_eq; apply onward_refl].
  destruct (output s) eqn:Eo.
  - destruct (current s) eqn:Ec; [simplify_eq; apply onward_refl|].
    destruct (map_next s) as [[w s']|] eqn:En; simplify_eq; [|apply onward_refl].
    apply (onward_set _ _ s); [done|]. intros Hok. by eapply map_next_moved.
  - assert (onward k (set_slot i (release_current s) k)) as O1.
    { apply (onward_set _ _ s); [done|]. intros Hok. by apply release_moved. }
    destruct (match ready _ with [] => _ | _ => false end); [by simplify_eq|].
    assert (m_slots (set_slot i (release_current s) k) !! i = Some (release_current s)) as Es1.
    { apply list_lookup_insert_eq. by eapply lookup_lt_Some. }
    assert (output (release_current s) = false) as Eo1.
    { unfold release_current. by destruct (current s). }
    destruct (task_get _ _) as [[[bytes|] k2]|] eqn:Eg; simplify_eq; [| |done];
      (eapply onward_trans; [exact O1|exact (task_get_onward _ _ _ _ _ Es1 Eo1 Eg)]).
Qed.

Lemma step_put_onward n off len t k token d t' k' token' :
  step_put n off len t k token = (d, t', k', token') → onward k k'.
Proof.
  unfold step_put. intros H. destruct (t_slots t !! Z.to_nat n) as [i|]; [|simplify_eq; apply onward_refl].
  destruct (m_slots k !! i) as [s|] eqn:Es; [|simplify_eq; apply onward_refl].
  destruct (put_refused s off len) eqn:Er; [simplify_eq; apply onward_refl|].
  destruct (current s) as [[[[m start] w] c]|] eqn:Ec; simplify_eq; [|apply onward_refl].
  apply (onward_set _ _ s); [done|]. intros [Hev Hend].
  split; [done|]. split; [|split; [done|split]].
  - unfold cookies_of. simpl. rewrite Ec, fmap_app. simpl. rewrite app_assoc.
    symmetry. apply Permutation_cons_append.
  - simpl. apply Forall_app. split; [done|]. constructor; [|done].
    unfold put_refused in Er. by destruct (output s).
  - simpl. intros H. by destruct (Hend H).
Qed.

Lemma await_reply_slots c t k token : m_slots (await_reply c t k token).1.2 = m_slots k.
Proof.
  unfold await_reply. destruct (m_chans k !! c_state c); [|done].
  destruct (find_reply _ _) as [[[h m]|] q]; [|done]. by destruct (reply_seen h m k).
Qed.

Lemma step_call_slots port bytes t k token :
  m_slots (step_call port bytes t k token).1.2 = m_slots k.
Proof.
  unfold step_call. destruct (waiting t), (t_port t) as [c|]; try done.
  - apply await_reply_slots.
  - destruct (_ <? _); [done|]. destruct (m_chans k !! c_state c); [|done].
    by rewrite await_reply_slots.
Qed.

Lemma step_write_slots n at_ bytes t k token :
  m_slots (step_write n at_ bytes t k token).1.2 = m_slots k.
Proof.
  unfold step_write. destruct (_ ≫= _) as [s|]; [|done].
  destruct (current s) as [[[[m off] len] c]|]; [|done]. destruct (_ || _); [done|].
  destruct (mems k !! m_bytes m); [|done]. by destruct (get_range _ _ _).
Qed.

Lemma end_slots_onward l k : onward k (end_slots l k).
Proof.
  revert k. induction l as [|i l IH]; intros k; simpl; [apply onward_refl|].
  eapply onward_trans; [|apply IH]. destruct (m_slots k !! i) as [s|] eqn:Es; [|apply onward_refl].
  apply (onward_set _ _ s); [done|]. apply task_end_moved.
Qed.

Lemma close_port_slots c k : m_slots (close_port c k) = m_slots k.
Proof. destruct c as [c|]; simpl; [|done]. by destruct (m_chans k !! c_state c). Qed.

Lemma model_step_onward k k' : model_step k k' → onward k k'.
Proof.
  intros [st t token d t' k1 token' H|e t].
  - destruct st as [n|n a b|n o len|n|p b|]; simpl in H; try (simplify_eq; apply onward_refl).
    + by eapply step_get_onward.
    + pose proof (step_write_slots n a b t k token) as E. rewrite H in E. by apply onward_same.
    + by eapply step_put_onward.
    + pose proof (step_call_slots p b t k token) as E. rewrite H in E. by apply onward_same.
  - simpl. eapply onward_trans; [apply end_slots_onward|]. apply onward_same, close_port_slots.
Qed.

Lemma model_receive_messages c k :
  match model_receive c k with
  | (Ok _, k') => (model_messages k' < model_messages k)%nat
  | (Err _, k') => model_messages k' = model_messages k
  end.
Proof.
  unfold model_receive. destruct (m_chans k !! c_state c) as [st|] eqn:Es; [|done].
  destruct (my_queue c st) as [|[b m] q] eqn:Eq; [done|].
  assert (queued (set_queue (side c) q st) < queued st)%nat.
  { unfold my_queue in Eq. unfold queued, set_queue.
    destruct (side c); simpl; rewrite Eq; simpl; lia. }
  pose proof (model_messages_set k (c_state c) st (set_queue (side c) q st) Es). lia.
Qed.

#[export] Program Instance model_laws : CallsLaws Model Mem nat Chan := {|
  slot_id := Z.of_nat;
  slots_of := model_slots;
  messages := model_messages;
  kernel_ok := model_ok;
  task_step := model_step;
|}.
Next Obligation.
  intros k z e He Ho. pose proof (model_slots_pos _ _ _ He) as Hz.
  rewrite <- (Z2Nat.id z Hz), model_slots_lookup in He.
  destruct (m_slots k !! Z.to_nat z) as [s|]; simplify_eq/=.
  apply andb_true_iff in Ho as [_ Ho]. by destruct (cookies_of s).
Qed.
Next Obligation.
  intros n k. apply model_quiet_same. simpl. unfold model_memory. by destruct (fail_memory k).
Qed.
Next Obligation. intros m k. by apply model_quiet_same. Qed.
Next Obligation.
  intros m o n k. apply model_quiet_same. simpl. unfold model_read. by destruct (fail_read k).
Qed.
Next Obligation.
  intros m o l k. apply model_quiet_same. simpl. unfold model_write.
  destruct (mems k !! m_bytes m) as [b|]; [|done]. by destruct (get_range b _ _).
Qed.
Next Obligation. intros i k. apply on_slot_quiet. done. Qed.
Next Obligation. intros i r k. apply on_slot_quiet. by intros [? ? ? ? ? [] ?]. Qed.
Next Obligation. intros k. by apply model_quiet_same. Qed.
Next Obligation.
  intros c k. apply model_quiet_same. simpl. unfold model_receive.
  destruct (m_chans k !! c_state c) as [st|]; [|done]. by destruct (my_queue c st) as [|[b m] q].
Qed.
Next Obligation.
  intros c l m k. apply model_quiet_same. simpl. unfold model_send.
  destruct (m_chans k !! c_state c) as [st|]; [|done]. by destruct (negb _).
Qed.
Next Obligation. intros ss cs d k. by apply model_quiet_same. Qed.
Next Obligation. intros out k. apply (model_slot_law out k). Qed.
Next Obligation. intros i m o n c k e K He. apply model_push_law; done. Qed.
Next Obligation. intros i k e K He. apply model_take_law; done. Qed.
Next Obligation. intros m o n k. simpl. unfold model_read. by destruct (fail_read k). Qed.
Next Obligation. intros i r k. apply on_slot_messages. Qed.
Next Obligation. intros i k. apply on_slot_messages. Qed.
Next Obligation. intros c k. apply model_receive_messages. Qed.
Next Obligation. intros k k' K H. by apply model_step_onward. Qed.
