(* ===== verification/PlaneRun.v ===== *)
(** * A run of the data plane

    The theorems of [PlaneInv] at a concrete run: the engine's plane over the model kernel,
    with a check that reads one byte, and a task of one input and one output that gets a
    shared batch and a window, and then ends. *)

From S2P Require Import Prelude Abi PlanePort PlaneArena Plane PlaneInv PlaneModel.
(** A check that reads the first byte and counts it as the rows. *)
Definition first_byte (_ : Z) (rd : Z → Z → M Model Error (list byte)) : M Model text Z := λ s,
  match rd 0 1 s with
  | (Ok [b], s) => (Ok (byte_Z b), s)
  | (_, s) => (Err [T "no first byte"], s)
  end.

Lemma first_byte_reads n rd (P : Model → Prop) :
  (∀ at_ k s, P s → P (rd at_ k s).2) → ∀ s, P s → P (first_byte n rd s).2.
Proof.
  intros H s Hs. unfold first_byte. specialize (H 0 1 s Hs).
  destruct (rd 0 1 s) as [[[|b [|]]|] s']; done.
Qed.

Abbreviation RunPlane := (KernelPlane Model Mem nat Chan).
Abbreviation run_step := (PlaneInv.step first_byte (λ r, r)).

Definition run_task : Task := mk_Task [0%nat; 1%nat] None [] None None.

Definition tasks_do (st : Step) (p : RunPlane) : RunPlane :=
  set_calls (task_do st run_task (calls p) 0).1.2 p.

Definition run0 : RunPlane := new model_default 65536.
Definition run1 : RunPlane := (open (mk_Shape 1 1 false) run0).2.
Definition run2 : RunPlane := (load first_byte (λ r, r) [x01; x02; x03] run1).2.
Definition run3 : RunPlane := (offer 1 0 1 run2).2.
Definition run4 : RunPlane := (grant 1 0 4096 run3).2.
Definition run5 : RunPlane := tasks_do (Get 0) run4.
Definition run6 : RunPlane := tasks_do (Get 1) run5.
Definition run7 : RunPlane := set_calls (end_of_task Exited run_task (calls run6)).2 run6.

Lemma tasks_do_step st p : run_step p (tasks_do st p).
Proof.
  apply step_tasks. destruct (task_do st run_task (calls p) 0) as [[[d t] k] token] eqn:E.
  by eapply model_step_do.
Qed.

Lemma run_start : slots_of (calls run0) = ∅ ∧ kernel_ok (calls run0).
Proof. split; [done|]. constructor. Qed.

Lemma run_enough : enough 9 run7.
Proof. split; vm_compute; [done|lia]. Qed.

Lemma run_to_6 : nsteps run_step 6 run0 run6.
Proof.
  eapply nsteps_l; [by apply (step_open _ _ run0)|].
  eapply nsteps_l; [apply (step_load _ _ run1 [x01; x02; x03]); by split|].
  eapply nsteps_l; [by apply (step_offer _ _ run2)|].
  eapply nsteps_l; [apply (step_grant _ _ run3 1 0 4096); by split|].
  eapply nsteps_l; [by apply (tasks_do_step (Get 0) run4)|].
  apply nsteps_once, (tasks_do_step (Get 1) run5).
Qed.

Lemma run_to_7 : nsteps run_step 7 run0 run7.
Proof.
  eapply nsteps_r; [apply run_to_6|]. apply (step_tasks _ _ run6), model_step_end.
Qed.

(** With the batch mapped by the task and the window in its hands, the window's object is
    in the output slot and nowhere else. *)
Lemma object_in_one_place_witness :
  objects (arena run6) !! 2 = Some (mk_Object None 4096) ∧
  windows_in 2 (kslots run6) = 1 ∧ 2 ∉ pool (arena run6).
Proof.
  assert (objects (arena run6) !! 2 = Some (mk_Object None 4096)) as Ho by reflexivity.
  split; [exact Ho|].
  destruct (object_in_one_place first_byte (λ r, r) first_byte_reads (calls run0) 65536 6 run6
    (proj1 run_start) (proj2 run_start) ltac:(by split) ltac:(lia) run_to_6 2 _ Ho)
    as [(_ & Hw & Hp & _)|([h Hh] & _)]; [by split|discriminate Hh].
Defined.

(** The batch offered to the task has one share, the entry in its input slot. *)
Lemma shares_exact_witness :
  batches run6 !! 1 = Some (mk_BatchRec 1 0 3 1 true) ∧ shares_in 1 (kslots run6) = 1.
Proof.
  assert (batches run6 !! 1 = Some (mk_BatchRec 1 0 3 1 true)) as Hb by reflexivity.
  split; [exact Hb|].
  destruct (shares_exact first_byte (λ r, r) first_byte_reads (calls run0) 65536 6 run6
    (proj1 run_start) (proj2 run_start) ltac:(by split) ltac:(lia) run_to_6) as (H & _).
  symmetry. exact (proj1 (H 1 _ Hb)).
Defined.

Lemma no_internal_error_witness :
  external (drop_batch 1 run6).1 ∧ halted (next_round first_byte (λ r, r) 9 0 run6).1.
Proof.
  destruct (no_internal_error first_byte (λ r, r) first_byte_reads (calls run0) 65536 6 run6
    (proj1 run_start) (proj2 run_start) ltac:(by split) ltac:(lia) run_to_6)
    as (_ & _ & _ & _ & _ & Hd & Hn).
  split; [apply Hd|]. apply Hn. split; vm_compute; [done|lia].
Defined.

(** The round that lets the ended task go finds its output slot over. *)
Lemma ended_task_holds_nothing_witness :
  tasks (next_round first_byte (λ r, r) 9 0 run7).2 !! 1 = None ∧
  ∃ e, kslots (next_round first_byte (λ r, r) 9 0 run7).2 !! 1 = Some e ∧
    e_over e = true ∧ e_cookies e = [].
Proof.
  assert (tasks (next_round first_byte (λ r, r) 9 0 run7).2 !! 1 = None) as Hn by reflexivity.
  split; [exact Hn|].
  exact (ended_task_holds_nothing first_byte (λ r, r) first_byte_reads (calls run0) 65536 7 run7
    (proj1 run_start) (proj2 run_start) ltac:(by split) ltac:(lia) run_to_7 9 0 1
    (mk_TaskRec [mk_SlotRec 0%nat false] [mk_SlotRec 1%nat false] None false false)
    run_enough eq_refl Hn (mk_SlotRec 1%nat false) ltac:(right; by left)).
Defined.

Lemma residency_exact_witness :
  r_made (residency run6) = 8192 ∧ r_windows (residency run6) = 4096 ∧
  r_shares (residency run6) = offered_in (kslots run6) ∧ offered_in (kslots run6) = 1.
Proof.
  destruct (residency_exact first_byte (λ r, r) first_byte_reads (calls run0) 65536 6 run6
    (proj1 run_start) (proj2 run_start) ltac:(by split) ltac:(lia) run_to_6) as (_ & _ & _ & Hs).
  split; [reflexivity|]. split; [reflexivity|]. split; [exact Hs|]. rewrite <- Hs. reflexivity.
Defined.
