(* ===== verification/ArrowFormat.v ===== *)
(** * The Arrow messages the record check reads

    The field slots and enum values of [src/kernel/plane/check/src/format.rs], a slot being
    a field's index in its table, and the results of the check: a value, or the sentence
    that refuses the bytes.  Where the source would panic the model says so, and where a
    recursion is bounded by a count of rounds, so does running out of them. *)

From S2P Require Import Prelude.
(** ** Results *)

Inductive stop := Said (t : text) | Panics | Unfinished.

Definition say {A} (t : text) : result stop A := Err (Said t).

(** [s[lo..hi]]. *)
Definition slice {A} (l : list A) (lo hi : Z) : result stop (list A) :=
  ok_or (get_range l lo hi) Panics.

(** The call does not panic and ends, and its value, if any, satisfies [P]. *)
Definition gives {A} (r : result stop A) (P : A → Prop) : Prop :=
  match r with Ok a => P a | Err (Said _) => True | Err _ => False end.

Lemma gives_bind {A B} (r : result stop A) (k : A → result stop B) (P : A → Prop) Q :
  gives r P → (∀ a, P a → gives (k a) Q) → gives (r ≫= k) Q.
Proof. destruct r as [a|[]]; simpl; auto. Qed.

Lemma gives_mono {A} (r : result stop A) (P Q : A → Prop) :
  gives r P → (∀ a, P a → Q a) → gives r Q.
Proof. destruct r as [a|[]]; simpl; auto. Qed.

Lemma gives_say {A} t (P : A → Prop) : gives (say t) P.
Proof. done. Qed.

Lemma gives_map_err {A} (f : stop → stop) (r : result stop A) (P : A → Prop) :
  (∀ t, ∃ t', f (Said t) = Said t') → gives r P → gives (map_err f r) P.
Proof. intros Hf. destruct r as [a|[]]; simpl; try done. by destruct (Hf t) as [? ->]. Qed.

Lemma gives_mapM {A B} (f : A → result stop B) (P : B → Prop) (l : list A) :
  (∀ a, a ∈ l → gives (f a) P) → gives (mapM f l) (λ bs, Forall P bs ∧ length bs = length l).
Proof.
  induction l as [|a l IH]; intros Hf; simpl; [done|].
  eapply gives_bind; [apply Hf; by left|]. intros b Hb.
  eapply gives_bind; [apply IH; intros c Hc; apply Hf; by right|].
  intros bs [Hbs Hl]. simpl. split; [by constructor|]. by rewrite Hl.
Qed.

Lemma gives_True {A} (r : result stop A) P : gives r P → gives r (λ _, True).
Proof. intros H. eapply gives_mono; [exact H|done]. Qed.

Lemma result_bind_Ok {E A B} (r : result E A) (k : A → result E B) b :
  r ≫= k = Ok b → ∃ a, r = Ok a ∧ k a = Ok b.
Proof. destruct r as [a|e]; [|done]. eauto. Qed.

Lemma result_fmap_Ok {E A B} (f : A → B) (r : result E A) b :
  f <$> r = Ok b → ∃ a, r = Ok a ∧ f a = b.
Proof. destruct r as [a|e]; [|done]. intros [= <-]. eauto. Qed.

(** Takes a successful chain of reads apart. *)
Ltac inv_ok :=
  repeat match goal with
  | H : _ ≫= _ = Ok _ |- _ => apply result_bind_Ok in H as (? & ? & H)
  | H : _ <$> _ = Ok _ |- _ => apply result_fmap_Ok in H as (? & ? & H)
  | H : mret _ = Ok _ |- _ => injection H as H
  | H : Ok _ = Ok _ |- _ => injection H as H
  | H : say _ = Ok _ |- _ => discriminate H
  | H : Err _ = Ok _ |- _ => discriminate H
  end; simplify_eq.

(** Two reads of one place agree. *)
Ltac same_reads :=
  repeat match goal with
  | H1 : ?e = Ok ?a, H2 : ?e = Ok ?b |- _ => rewrite H1 in H2; injection H2 as H2; subst
  | H : match ?x with Some _ => _ | None => _ end = Ok _ |- _ =>
      is_var x; destruct x; try discriminate H
  | H : (if ?b then Ok false else _) = Ok true |- _ => destruct b; [discriminate H|]
  end; inv_ok.

Lemma mapM_Ok {A B} (g : A → result stop B) l k :
  mapM g l = Ok k → Forall2 (λ a b, g a = Ok b) l k.
Proof.
  revert k. induction l as [|a l IH]; intros k H; simpl in H; inv_ok; [constructor|].
  constructor; [done|]. by apply IH.
Qed.

(** An error's sentence put after a prefix: [map_err(|e| format!("..{e}"))]. *)
Definition after (t : text) (e : stop) : stop :=
  match e with Said u => Said (t ++ u) | _ => e end.

Lemma after_said t u : ∃ v, after t (Said u) = Said v.
Proof. by eexists. Qed.

(** ** [Message] *)

Module message.
Definition VERSION := 0.
Definition HEADER_TYPE := 1.
Definition HEADER := 2.
Definition BODY_LENGTH := 3.
End message.

(** [MessageHeader]. *)
Module header.
Definition NONE := 0.
Definition SCHEMA := 1.
Definition DICTIONARY_BATCH := 2.
Definition RECORD_BATCH := 3.
Definition TENSOR := 4.
Definition SPARSE_TENSOR := 5.

Definition name (kind : Z) : text :=
  if kind =? NONE then [T "NONE"]
  else if kind =? SCHEMA then [T "Schema"]
  else if kind =? DICTIONARY_BATCH then [T "DictionaryBatch"]
  else if kind =? RECORD_BATCH then [T "RecordBatch"]
  else if kind =? TENSOR then [T "Tensor"]
  else if kind =? SPARSE_TENSOR then [T "SparseTensor"]
  else [T "<UNKNOWN "; N kind; T ">"].
End header.

(** [MetadataVersion]. *)
Module version.
Definition V1 := 0.
Definition V4 := 3.
Definition V5 := 4.

Definition name (v : Z) : text :=
  if (0 <=? v) && (v <=? 4) then [T "V"; N (v + 1)] else [T "<UNKNOWN "; N v; T ">"].
End version.

(** ** [Schema] and [Field] *)

Module schema.
Definition ENDIANNESS := 0.
Definition FIELDS := 1.
Definition BIG := 1.
End schema.

Module field.
Definition NAME := 0.
Definition NULLABLE := 1.
Definition TYPE_TYPE := 2.
Definition TYPE := 3.
Definition DICTIONARY := 4.
Definition CHILDREN := 5.
End field.

Module dictionary.
Definition ID := 0.
Definition INDEX_TYPE := 1.
End dictionary.

(** [Type], the union a field's type is, and the slots and enums of its tables. *)
Module types.
Definition NONE := 0.
Definition NULL := 1.
Definition INT := 2.
Definition FLOATING_POINT := 3.
Definition BINARY := 4.
Definition UTF8 := 5.
Definition BOOL := 6.
Definition DECIMAL := 7.
Definition DATE := 8.
Definition TIME := 9.
Definition TIMESTAMP := 10.
Definition INTERVAL := 11.
Definition LIST := 12.
Definition STRUCT := 13.
Definition UNION := 14.
Definition FIXED_SIZE_BINARY := 15.
Definition FIXED_SIZE_LIST := 16.
Definition MAP := 17.
Definition DURATION := 18.
Definition LARGE_BINARY := 19.
Definition LARGE_UTF8 := 20.
Definition LARGE_LIST := 21.
Definition RUN_END_ENCODED := 22.
Definition BINARY_VIEW := 23.
Definition UTF8_VIEW := 24.
Definition LIST_VIEW := 25.
Definition LARGE_LIST_VIEW := 26.

Definition NAMES : list string :=
  ["NONE"; "Null"; "Int"; "FloatingPoint"; "Binary"; "Utf8"; "Bool"; "Decimal"; "Date";
   "Time"; "Timestamp"; "Interval"; "List"; "Struct_"; "Union"; "FixedSizeBinary";
   "FixedSizeList"; "Map"; "Duration"; "LargeBinary"; "LargeUtf8"; "LargeList";
   "RunEndEncoded"; "BinaryView"; "Utf8View"; "ListView"; "LargeListView"]%string.

Definition name (kind : Z) : text :=
  match NAMES !! Z.to_nat kind with
  | Some n => [T n]
  | None => [T "<UNKNOWN "; N kind; T ">"]
  end.

Definition INT_BIT_WIDTH := 0.
Definition PRECISION := 0.
Definition DECIMAL_PRECISION := 0.
Definition DECIMAL_SCALE := 1.
Definition DECIMAL_BIT_WIDTH := 2.
Definition UNIT := 0.
Definition TIME_BIT_WIDTH := 1.
Definition WIDTH := 0.
Definition UNION_MODE := 0.
Definition UNION_TYPE_IDS := 1.
Definition SPARSE := 0.
Definition DENSE := 1.
Definition SECOND := 0.
Definition MILLISECOND := 1.
Definition MICROSECOND := 2.
Definition NANOSECOND := 3.
Definition DAY := 0.
Definition YEAR_MONTH := 0.
Definition DAY_TIME := 1.
Definition MONTH_DAY_NANO := 2.
End types.

(** ** [RecordBatch] *)

Module batch.
Definition LENGTH := 0.
Definition NODES := 1.
Definition BUFFERS := 2.
Definition COMPRESSION := 3.
Definition VARIADIC := 4.
Definition ENTRY := 16.
End batch.

Module compression.
Definition CODEC := 0.
Definition METHOD := 1.

Definition codec (c : Z) : text :=
  if c =? 0 then [T "LZ4_FRAME"]
  else if c =? 1 then [T "ZSTD"]
  else [T "<UNKNOWN "; N c; T ">"].
End compression.

Module dictionary_batch.
Definition ID := 0.
Definition DATA := 1.
Definition IS_DELTA := 2.
End dictionary_batch.
