(* ===== verification/Flatbuf.v ===== *)
(** * A bounds-checked reader of flatbuffers

    [src/kernel/plane/check/src/fb.rs].  A table is a buffer and a position; every read is
    checked against the buffer.  The theorems show that a table in hand lies in its buffer,
    that no reader panics, and that a table reached from another lies after it and deeper,
    which bounds every walk. *)

From S2P Require Import Prelude ArrowFormat.
Module fb.

Definition MAX_DEPTH := 64.

Definition short (what : string) (at_ : Z) : text :=
  [T "the flatbuffer ends inside "; T what; T " at byte "; N at_].

Definition bytes (n : Z) (buf : list byte) (at_ : Z) (what : string) :
    result stop (list byte) :=
  match checked_add 64 at_ n ≫= λ e, get_range buf at_ e with
  | Some b => Ok b
  | None => say (short what at_)
  end.

Definition read_u16 (buf : list byte) (at_ : Z) (what : string) : result stop Z :=
  le_dec <$> bytes 2 buf at_ what.

Definition read_u32 (buf : list byte) (at_ : Z) (what : string) : result stop Z :=
  le_dec <$> bytes 4 buf at_ what.

(** The position an unsigned offset stored at [at_] points to. *)
Definition follow (buf : list byte) (at_ : Z) (what : string) : result stop Z :=
  offset ← read_u32 buf at_ what;
  match option_filter (λ to, to <? zlen buf) (checked_add 64 at_ offset) with
  | Some to => Ok to
  | None =>
      say [T what; T " at byte "; N at_; T " points to byte "; N (at_ +! offset);
           T ", past the end of the flatbuffer of "; N (zlen buf); T " bytes"]
  end.

(** One table: where it is, and how deep in the message it lies. *)
Record Table := mk_Table {
  buf : list byte;
  loc : Z;
  vtable : Z;
  vtable_len : Z;
  depth : Z;
}.

(** [(loc as i64).checked_sub(back)], as a [usize] inside the buffer. *)
Definition vtable_of (b : list byte) (l back : Z) : option Z :=
  let v := signed 64 l - back in
  if (- 2 ^ 63 <=? v) && (v <? 2 ^ 63) && (0 <=? v) && (v <? zlen b) then Some v else None.

Definition table_new (b : list byte) (l d : Z) : result stop Table :=
  if MAX_DEPTH <=? d
  then say [T "the flatbuffer nests tables more than "; N MAX_DEPTH; T " deep"]
  else
    raw ← bytes 4 b l "a table's vtable offset";
    match vtable_of b l (signed 32 (le_dec raw)) with
    | None => say [T "the table at byte "; N l; T " has its vtable outside the flatbuffer"]
    | Some v =>
        n ← read_u16 b v "a vtable";
        if (n <? 4) || negb (n mod 2 =? 0)
        then say [T "the vtable at byte "; N v; T " declares "; N n;
                  T " bytes, not a whole vtable"]
        else if zlen b <? v +! n then say (short "a vtable" v)
        else Ok (mk_Table b l v n d)
    end.

Definition root (b : list byte) : result stop Table :=
  l ← follow b 0 "the root offset"; table_new b l 0.

Definition at_ (b : list byte) (l : Z) : result stop Table := table_new b l 0.

(** Where field [slot] is stored; [None] when it is absent. *)
Definition position (t : Table) (slot : Z) : result stop (option Z) :=
  let entry := 4 +! 2 *! slot in
  if vtable_len t <? entry +! 2 then Ok None
  else
    offset ← read_u16 (buf t) (vtable t +! entry) "a vtable";
    if offset =? 0 then Ok None else Ok (Some (loc t +! offset)).

Definition scalar (n : Z) (t : Table) (slot : Z) : result stop (option (list byte)) :=
  p ← position t slot;
  match p with
  | Some a => Some <$> bytes n (buf t) a "a field"
  | None => Ok None
  end.

Definition u8 (t : Table) (slot default : Z) : result stop Z :=
  from_option le_dec default <$> scalar 1 t slot.
Definition i8 (t : Table) (slot default : Z) : result stop Z :=
  from_option (λ b, signed 8 (le_dec b)) default <$> scalar 1 t slot.
Definition bool (t : Table) (slot : Z) (default : bool) : result stop bool :=
  from_option (λ b, negb (le_dec b =? 0)) default <$> scalar 1 t slot.
Definition i16 (t : Table) (slot default : Z) : result stop Z :=
  from_option (λ b, signed 16 (le_dec b)) default <$> scalar 2 t slot.
Definition i32 (t : Table) (slot default : Z) : result stop Z :=
  from_option (λ b, signed 32 (le_dec b)) default <$> scalar 4 t slot.
Definition i64 (t : Table) (slot default : Z) : result stop Z :=
  from_option (λ b, signed 64 (le_dec b)) default <$> scalar 8 t slot.

(** The table field [slot] points to. *)
Definition table (t : Table) (slot : Z) : result stop (option Table) :=
  p ← position t slot;
  match p with
  | Some a =>
      l ← follow (buf t) a "a table offset";
      Some <$> table_new (buf t) l (wadd 8 (depth t) 1)
  | None => Ok None
  end.

(** A vector of [len] elements of [width] bytes from [data]. *)
Record Vector := mk_Vector {
  v_buf : list byte;
  data : Z;
  v_end : Z;
  len : Z;
  width : Z;
  v_depth : Z;
}.

Definition vector (t : Table) (slot w : Z) : result stop (option Vector) :=
  p ← position t slot;
  match p with
  | None => Ok None
  | Some a =>
      start ← follow (buf t) a "a vector offset";
      n ← read_u32 (buf t) start "a vector's length";
      let d := start +! 4 in
      match option_filter (λ e, e <=? zlen (buf t))
              (checked_mul 64 n w ≫= λ k, checked_add 64 d k) with
      | Some e => Ok (Some (mk_Vector (buf t) d e n w (depth t)))
      | None =>
          say [T "the vector at byte "; N start; T " declares "; N n; T " elements of "; N w;
               T " bytes, past the end of the flatbuffer of "; N (zlen (buf t)); T " bytes"]
      end
  end.

Definition v_bytes (v : Vector) : result stop (list byte) := slice (v_buf v) (data v) (v_end v).

(** The string field [slot] points to. *)
Definition str (t : Table) (slot : Z) : result stop (option (list byte)) :=
  o ← vector t slot 1;
  match o with
  | Some v =>
      b ← v_bytes v;
      if utf8_valid b then Ok (Some b)
      else say [T "the string at byte "; N (data v); T " is not UTF-8"]
  | None => Ok None
  end.

(** Element [i]'s bytes. *)
Definition element (v : Vector) (i : Z) : option (list byte) :=
  if len v <=? i then None
  else let a := data v +! i *! width v in get_range (v_buf v) a (a +! width v).

(** Element [i] as a little-endian integer of [n] bytes. *)
Definition v_int (n : nat) (v : Vector) (i : Z) : option Z :=
  b ← element v i;
  if decide (length b = n) then Some (signed (8 * Z.of_nat n) (le_dec b)) else None.

Definition v_i32 : Vector → Z → option Z := v_int 4.
Definition v_i64 : Vector → Z → option Z := v_int 8.

(** Element [i] of a vector of tables. *)
Definition v_table (v : Vector) (i : Z) : result stop Table :=
  if (len v <=? i) || negb (width v =? 4)
  then say [T "the vector has no table "; N i]
  else
    l ← follow (v_buf v) (data v +! i *! 4) "a table offset";
    table_new (v_buf v) l (wadd 8 (v_depth v) 1).

(** The two [i64] of a struct of 16 bytes. *)
Definition pair (e : list byte) : option (Z * Z) :=
  a ← get_range e 0 8;
  b ← get_range e 8 16;
  Some (signed 64 (le_dec a), signed 64 (le_dec b)).

End fb.

(** ** What a reader may rely on *)

(** A slice is never longer than [isize::MAX]. *)
Definition small (b : list byte) : Prop := zlen b < 2 ^ 63.

Record table_ok (t : fb.Table) : Prop := {
  table_small : small (fb.buf t);
  table_loc : 0 ≤ fb.loc t ∧ fb.loc t + 4 ≤ zlen (fb.buf t);
  table_vtable : 0 ≤ fb.vtable t ∧ 4 ≤ fb.vtable_len t < 2 ^ 16 ∧
    fb.vtable t + fb.vtable_len t ≤ zlen (fb.buf t);
  table_depth : 0 ≤ fb.depth t < fb.MAX_DEPTH;
}.

Record vector_ok (v : fb.Vector) : Prop := {
  vector_small : small (fb.v_buf v);
  vector_range : 0 ≤ fb.data v ∧ fb.v_end v ≤ zlen (fb.v_buf v);
  vector_len : 0 ≤ fb.len v < 2 ^ 32 ∧ 0 ≤ fb.width v ∧
    fb.v_end v = fb.data v + fb.len v * fb.width v;
  vector_depth : 0 ≤ fb.v_depth v < fb.MAX_DEPTH;
}.

(** Sums and products that do not reach the width of a word. *)
Ltac nowrap :=
  unfold wadd, wsub, wmul;
  repeat match goal with
  | |- context [wrap ?w ?z] =>
      lazymatch z with
      | context [wrap _ _] => fail
      | _ => rewrite (wrap_small w z) by (unfold in_width; lia)
      end
  end.

Lemma bytes_gives n b at_ what :
  0 ≤ at_ → 0 ≤ n → gives (fb.bytes n b at_ what) (λ l, at_ + n ≤ zlen b ∧ zlen l = n).
Proof.
  intros Ha Hn. unfold fb.bytes. destruct (checked_add 64 at_ n) as [e|] eqn:E; [|done].
  apply checked_add_Some in E as [-> _]. simpl.
  destruct (get_range b at_ (at_ + n)) as [l|] eqn:G; [|done].
  pose proof (get_range_length _ _ _ _ G). apply get_range_Some in G. simpl. lia.
Qed.

Lemma read_u16_gives b at_ what :
  0 ≤ at_ → gives (fb.read_u16 b at_ what) (λ z, 0 ≤ z < 2 ^ 16 ∧ at_ + 2 ≤ zlen b).
Proof.
  intros Ha. unfold fb.read_u16. pose proof (bytes_gives 2 b at_ what Ha ltac:(lia)) as G.
  destruct (fb.bytes 2 b at_ what) as [l|[]]; simpl in *; try done.
  destruct G as [? E]. pose proof (le_dec_range l) as R. rewrite E in R. done.
Qed.

Lemma read_u32_gives b at_ what :
  0 ≤ at_ → gives (fb.read_u32 b at_ what) (λ z, 0 ≤ z < 2 ^ 32 ∧ at_ + 4 ≤ zlen b).
Proof.
  intros Ha. unfold fb.read_u32. pose proof (bytes_gives 4 b at_ what Ha ltac:(lia)) as G.
  destruct (fb.bytes 4 b at_ what) as [l|[]]; simpl in *; try done.
  destruct G as [? E]. pose proof (le_dec_range l) as R. rewrite E in R. done.
Qed.

Lemma follow_gives b at_ what :
  0 ≤ at_ → gives (fb.follow b at_ what) (λ to, at_ ≤ to < zlen b).
Proof.
  intros Ha. unfold fb.follow. eapply gives_bind; [by apply read_u32_gives|].
  intros o [Ho _]. simpl. destruct (checked_add 64 at_ o) as [to|] eqn:E; [|done].
  apply checked_add_Some in E as [-> _]. simpl. destruct (Z.ltb_spec (at_ + o) (zlen b)); [|done].
  simpl. lia.
Qed.

Lemma table_new_gives b l d :
  small b → 0 ≤ l → 0 ≤ d →
  gives (fb.table_new b l d)
    (λ t, table_ok t ∧ fb.buf t = b ∧ fb.loc t = l ∧ fb.depth t = d).
Proof.
  intros Hb Hl Hd. unfold fb.table_new. destruct (Z.leb_spec fb.MAX_DEPTH d); [done|].
  eapply gives_bind; [by apply bytes_gives|]. intros raw [Hr _].
  unfold fb.vtable_of. case_if; [|done]. set (v := signed 64 l - _) in *.
  eapply gives_bind; [apply read_u16_gives; lia|]. intros n [Hn Hv]. simpl.
  destruct (n <? 4) eqn:E1; [done|]. destruct (negb (n mod 2 =? 0)) eqn:E2; [done|]. simpl.
  unfold small in Hb. unfold wadd. rewrite wrap_small by (unfold in_width; lia).
  destruct (zlen b <? v + n) eqn:E3; [done|]. reflect_bool. simpl.
  split; [|done]. by split; simpl; try lia.
Qed.

Lemma position_gives t slot :
  table_ok t → 0 ≤ slot < 2 ^ 16 →
  gives (fb.position t slot) (λ p, ∀ a, p = Some a → fb.loc t < a < fb.loc t + 2 ^ 16).
Proof.
  intros [Hs [Hl Hl'] (Hv & Hn & Hv') Hd] Hslot. unfold small in Hs. unfold fb.position.
  nowrap. case_if; [done|]. eapply gives_bind; [apply read_u16_gives; lia|].
  intros o [Ho _]. simpl. case_if; [done|]. simpl. nowrap. intros a [= <-]. lia.
Qed.

Lemma scalar_gives n t slot :
  table_ok t → 0 ≤ slot < 2 ^ 16 → 0 ≤ n →
  gives (fb.scalar n t slot) (λ o, ∀ b, o = Some b → zlen b = n).
Proof.
  intros Ht Hslot Hn. unfold fb.scalar. eapply gives_bind; [by apply position_gives|].
  intros [a|] Ha; [|done]. specialize (Ha a eq_refl). destruct (table_loc t Ht).
  pose proof (bytes_gives n (fb.buf t) a "a field" ltac:(lia) Hn) as G.
  destruct (fb.bytes n (fb.buf t) a "a field") as [b|[]]; simpl in *; try done.
  intros c [= <-]. apply G.
Qed.

Lemma gives_fmap {A B} (f : A → B) (r : result stop A) (P : B → Prop) :
  gives r (λ a, P (f a)) → gives (f <$> r) P.
Proof. by destruct r as [a|[]]. Qed.

(** An integer field read as [n] bytes through [f], with its default. *)
Lemma field_gives n t slot (f : list byte → Z) d lo hi :
  table_ok t → 0 ≤ slot < 2 ^ 16 → 0 ≤ n →
  (∀ b, zlen b = n → lo ≤ f b < hi) → lo ≤ d < hi →
  gives (from_option f d <$> fb.scalar n t slot) (λ z, lo ≤ z < hi).
Proof.
  intros Ht Hslot Hn Hf Hd. apply gives_fmap. eapply gives_mono; [by apply scalar_gives|].
  intros [b|] Hb; simpl; auto.
Qed.

Lemma signed_range w z : 0 < w → in_width w z → - 2 ^ (w - 1) ≤ signed w z < 2 ^ (w - 1).
Proof.
  intros Hw [Hz Hz']. assert (2 ^ w = 2 * 2 ^ (w - 1)).
  { rewrite <- Z.pow_succ_r by lia. f_equal. lia. }
  unfold signed. destruct (Z.ltb_spec z (2 ^ (w - 1))); lia.
Qed.

Lemma signed_le_dec w b :
  0 < w → 8 * zlen b = w → - 2 ^ (w - 1) ≤ signed w (le_dec b) < 2 ^ (w - 1).
Proof.
  intros Hw E. apply signed_range; [done|]. unfold in_width. rewrite <- E. apply le_dec_range.
Qed.

Section readers.
Context (t : fb.Table) (slot : Z).
Hypothesis t_ok : table_ok t.
Hypothesis slot_ok : 0 ≤ slot < 2 ^ 16.

Lemma u8_gives d : 0 ≤ d < 256 → gives (fb.u8 t slot d) (λ z, 0 ≤ z < 256).
Proof.
  intros Hd. eapply field_gives; try done. intros b E. pose proof (le_dec_range b) as R.
  by rewrite E in R.
Qed.

Lemma i8_gives d : -2 ^ 7 ≤ d < 2 ^ 7 → gives (fb.i8 t slot d) (λ z, -2 ^ 7 ≤ z < 2 ^ 7).
Proof.
  intros Hd. eapply field_gives; try done. intros b E. apply (signed_le_dec 8); lia.
Qed.

Lemma i16_gives d : -2 ^ 15 ≤ d < 2 ^ 15 → gives (fb.i16 t slot d) (λ z, -2 ^ 15 ≤ z < 2 ^ 15).
Proof.
  intros Hd. eapply field_gives; try done. intros b E. apply (signed_le_dec 16); lia.
Qed.

Lemma i32_gives d : -2 ^ 31 ≤ d < 2 ^ 31 → gives (fb.i32 t slot d) (λ z, -2 ^ 31 ≤ z < 2 ^ 31).
Proof.
  intros Hd. eapply field_gives; try done. intros b E. apply (signed_le_dec 32); lia.
Qed.

Lemma i64_gives d : -2 ^ 63 ≤ d < 2 ^ 63 → gives (fb.i64 t slot d) (λ z, -2 ^ 63 ≤ z < 2 ^ 63).
Proof.
  intros Hd. eapply field_gives; try done. intros b E. apply (signed_le_dec 64); lia.
Qed.

Lemma bool_gives d : gives (fb.bool t slot d) (λ _, True).
Proof.
  apply gives_fmap. eapply gives_mono; [apply scalar_gives; [done..|lia]|]. done.
Qed.

(** A table reached from another lies after it in the same buffer, one deeper. *)
Definition below (t c : fb.Table) : Prop :=
  table_ok c ∧ fb.buf c = fb.buf t ∧ fb.loc t < fb.loc c ∧ fb.depth c = fb.depth t + 1.

Lemma table_gives : gives (fb.table t slot) (λ o, ∀ c, o = Some c → below t c).
Proof.
  unfold fb.table. eapply gives_bind; [by apply position_gives|].
  intros [a|] Ha; [|done]. specialize (Ha a eq_refl). destruct (table_loc t t_ok) as [Hl _].
  eapply gives_bind; [apply follow_gives; lia|]. intros l [Hlo Hlo2].
  destruct (table_depth t t_ok) as [Hd Hd']. unfold fb.MAX_DEPTH in Hd'.
  assert (wadd 8 (fb.depth t) 1 = fb.depth t + 1) as -> by (apply wrap_small; unfold in_width; lia).
  apply gives_fmap.
  eapply gives_mono; [apply table_new_gives; [apply (table_small t t_ok)|lia|lia]|].
  intros c (Hc & Hb & Hl' & Hde) c' [= <-]. split; [done|]. split; [done|]. split; [lia|done].
Qed.

Lemma vector_gives w :
  0 ≤ w < 2 ^ 16 →
  gives (fb.vector t slot w) (λ o, ∀ v, o = Some v →
    vector_ok v ∧ fb.width v = w ∧ fb.v_buf v = fb.buf t ∧ fb.v_depth v = fb.depth t ∧
    fb.loc t < fb.data v).
Proof.
  intros Hw. unfold fb.vector. eapply gives_bind; [by apply position_gives|].
  intros [a|] Ha; [|done]. specialize (Ha a eq_refl). destruct (table_loc t t_ok) as [Hl _].
  pose proof (table_small t t_ok) as Hs.
  eapply gives_bind; [apply follow_gives; lia|]. intros start [Hst Hst2].
  eapply gives_bind; [apply read_u32_gives; lia|]. intros n [Hn Hn']. cbn zeta.
  unfold small in Hs. nowrap. destruct (checked_mul 64 n w) as [k|] eqn:Ek; [|done].
  unfold checked_mul in Ek. destruct (n * w <=? umax 64); [|done]. injection Ek as <-. simpl.
  destruct (checked_add 64 (start + 4) (n * w)) as [e|] eqn:Ee; [|done].
  apply checked_add_Some in Ee as [-> _]. simpl.
  destruct (Z.leb_spec (start + 4 + n * w) (zlen (fb.buf t))); [|done]. simpl.
  intros v [= <-]. simpl. split_and!; try done; [|lia].
  split; simpl; [done|lia|lia|apply (table_depth t t_ok)].
Qed.

Lemma str_gives : gives (fb.str t slot) (λ _, True).
Proof.
  unfold fb.str. eapply gives_bind; [apply vector_gives; lia|].
  intros [v|] Hv; [|done]. destruct (Hv v eq_refl) as ([Hs [Hd He] (Hn & Hw & Hl) _] & _).
  unfold fb.v_bytes, slice. destruct (get_range _ _ _) eqn:G; simpl.
  - by destruct (utf8_valid l).
  - apply get_range_None in G. destruct G. nia.
Qed.

End readers.

(** An element of a vector has its width. *)
Lemma element_spec v i :
  vector_ok v → 0 ≤ i → fb.width v < 2 ^ 16 →
  match fb.element v i with
  | Some b => i < fb.len v ∧ zlen b = fb.width v
  | None => fb.len v ≤ i
  end.
Proof.
  intros [Hs [Hd He] (Hn & Hw & Hl) _] Hi Hww. unfold fb.element, small in *.
  destruct (Z.leb_spec (fb.len v) i); [done|]. assert (i * fb.width v < 2 ^ 48) by nia.
  assert (0 ≤ i * fb.width v) by nia. nowrap.
  destruct (get_range _ _ _) as [b|] eqn:G.
  - apply get_range_length in G. lia.
  - apply get_range_None in G. destruct G. nia.
Qed.

Lemma v_int_spec n v i :
  vector_ok v → 0 ≤ i → fb.width v < 2 ^ 16 → fb.width v = Z.of_nat n → (0 < n)%nat →
  match fb.v_int n v i with
  | Some z => - 2 ^ (8 * Z.of_nat n - 1) ≤ z < 2 ^ (8 * Z.of_nat n - 1)
  | None => fb.len v ≤ i
  end.
Proof.
  intros Hv Hi Hw E Hn. pose proof (element_spec v i Hv Hi Hw) as H. unfold fb.v_int.
  destruct (fb.element v i) as [b|]; simpl; [|done]. destruct H as [H1 H2].
  assert (length b = n) as -> by (unfold zlen in H2; lia). rewrite decide_True by done. simpl.
  apply signed_le_dec; [lia|]. lia.
Qed.

Lemma v_table_gives t v i :
  vector_ok v → fb.v_buf v = fb.buf t → fb.v_depth v = fb.depth t → fb.loc t < fb.data v →
  0 ≤ i → gives (fb.v_table v i) (below t).
Proof.
  intros [Hs [Hd He] (Hn & Hw & Hl) Hde] Eb Ed Hloc Hi. unfold fb.v_table.
  destruct (Z.leb_spec (fb.len v) i); [done|]. simpl.
  destruct (Z.eqb_spec (fb.width v) 4) as [E4|]; [|done]. simpl. unfold small in Hs.
  rewrite E4 in *. assert (0 ≤ i * 4 < 2 ^ 34) by lia. unfold fb.MAX_DEPTH in Hde. nowrap.
  eapply gives_bind; [apply follow_gives; lia|]. intros l [Hlo Hlo2].
  eapply gives_mono; [apply table_new_gives; [done|lia|lia]|].
  intros c (Hc & Hb & Hlc & Hdc). split; [done|]. split; [congruence|]. split; [lia|congruence].
Qed.

Lemma root_gives b : small b → gives (fb.root b) (λ t, table_ok t ∧ fb.buf t = b ∧ fb.depth t = 0).
Proof.
  intros Hb. unfold fb.root. eapply gives_bind; [by apply follow_gives|]. intros l [Hl Hl2].
  eapply gives_mono; [apply table_new_gives; [done|lia|done]|]. naive_solver.
Qed.

Lemma pair_spec e :
  zlen e = 16 → ∃ a b, fb.pair e = Some (a, b) ∧ -2 ^ 63 ≤ a < 2 ^ 63 ∧ -2 ^ 63 ≤ b < 2 ^ 63.
Proof.
  intros E. unfold fb.pair. destruct (get_range e 0 8) as [a|] eqn:Ga.
  2:{ apply get_range_None in Ga. lia. }
  destruct (get_range e 8 16) as [b|] eqn:Gb.
  2:{ apply get_range_None in Gb. lia. }
  apply get_range_length in Ga, Gb. eexists _, _. split; [done|].
  split; apply (signed_le_dec 64); lia.
Qed.
