(* ===== verification/ArrowSchema.v ===== *)
(** * The schema message, checked

    [src/kernel/plane/check/src/schema.rs]: the fields of a schema message, checked so that
    Arrow's converter cannot panic on them, and the model of each field the walk over a
    record batch reads.  Both recursions follow tables down the flatbuffer, whose depth is
    bounded, so a count of [fb.MAX_DEPTH] rounds is always enough. *)

From S2P Require Import Prelude ArrowFormat Flatbuf.
(** ** Fields *)

Module Ty.

(** [Field] and [Type]. *)
Inductive Field :=
| mk_Field (name : list byte) (nullable : bool) (kind : t)
with t :=
| Null
| Boolean
| Primitive (width : option Z)
| FixedSizeBinary (width : Z)
| Text (width : Z)
| View
| List (width : Z) (child : Field)
| ListView (width : Z) (child : Field)
| FixedSizeList (size : Z) (child : Field)
| Struct (children : list Field)
| RunEndEncoded (run_ends values : Field)
| Dictionary (key_width : Z) (value : t)
| Union (dense : bool) (children : list Field).

Definition name (f : Field) : list byte := let '(mk_Field n _ _) := f in n.
Definition nullable (f : Field) : bool := let '(mk_Field _ b _) := f in b.
Definition kind (f : Field) : t := let '(mk_Field _ _ k) := f in k.

Definition primitive_width (k : t) : option Z :=
  match k with Primitive w => w | _ => None end.

(** Whether this type, or any child of it, is dictionary encoded. *)
Fixpoint has_dictionary (k : t) : bool :=
  match k with
  | Dictionary _ _ => true
  | List _ c | ListView _ c | FixedSizeList _ c => field_dictionary c
  | Struct cs | Union _ cs => existsb field_dictionary cs
  | RunEndEncoded r v => field_dictionary r || field_dictionary v
  | _ => false
  end
with field_dictionary (f : Field) : bool :=
  let '(mk_Field _ _ k) := f in has_dictionary k.

End Ty.

(** ** Reading a field *)

Definition name (f : fb.Table) : result stop (list byte) :=
  default [] <$> fb.str f field.NAME.

(** [(0..v.len()).map(|i| v.table(i)).collect()]. *)
Definition tables (v : fb.Vector) : result stop (list fb.Table) :=
  mapM (fb.v_table v) (seqZ 0 (fb.len v)).

Definition children (f : fb.Table) : result stop (list fb.Table) :=
  o ← fb.vector f field.CHILDREN 4;
  match o with None => Ok [] | Some v => tables v end.

Definition type_as (f : fb.Table) (kind : Z) : result stop (option fb.Table) :=
  k ← fb.u8 f field.TYPE_TYPE types.NONE;
  if negb (k =? kind) then Ok None else fb.table f field.TYPE.

Definition is_nested (kind : Z) : bool :=
  (kind =? types.LIST) || (kind =? types.LARGE_LIST) || (kind =? types.LIST_VIEW)
  || (kind =? types.LARGE_LIST_VIEW) || (kind =? types.FIXED_SIZE_LIST)
  || (kind =? types.STRUCT) || (kind =? types.RUN_END_ENCODED) || (kind =? types.MAP)
  || (kind =? types.UNION).

(** A width the conversion maps. *)
Definition bits (w : Z) : bool := (w =? 8) || (w =? 16) || (w =? 32) || (w =? 64).

(** The loop of [union_ids] over the ids, with the mask of those seen. *)
Fixpoint union_loop (ids : list (option Z)) (seen : Z) : bool :=
  match ids with
  | [] => true
  | None :: _ => false
  | Some id :: ids =>
      let id := signed 8 (wrap 8 id) in
      if id <? 0 then false
      else
        let mask := Z.shiftl 1 id in
        if negb (Z.land seen mask =? 0) then false else union_loop ids (Z.lor seen mask)
  end.

Definition union_ids (ids : fb.Vector) (count : Z) : bool :=
  if negb (fb.len ids =? count) then false
  else union_loop (fb.v_i32 ids <$> seqZ 0 (fb.len ids)) 0.

Definition time_unit (u : Z) : bool :=
  (u =? types.SECOND) || (u =? types.MILLISECOND) || (u =? types.MICROSECOND)
  || (u =? types.NANOSECOND).

(** [match table(kind)? { Some(t) => .., None => None }]. *)
Definition with_type (f : fb.Table) (kind : Z) (k : fb.Table → result stop bool) :
    result stop bool :=
  o ← type_as f kind; match o with Some t => k t | None => Ok false end.

(** Whether the converter maps the field's type. *)
Definition known (f : fb.Table) (children : option Z) : result stop bool :=
  kind ← fb.u8 f field.TYPE_TYPE types.NONE;
  if (kind =? types.NULL) || (kind =? types.BOOL) || (kind =? types.BINARY)
     || (kind =? types.BINARY_VIEW) || (kind =? types.LARGE_BINARY) || (kind =? types.UTF8)
     || (kind =? types.UTF8_VIEW) || (kind =? types.LARGE_UTF8) || (kind =? types.STRUCT)
  then Ok true
  else if kind =? types.INT then
    with_type f kind (λ t, bits <$> fb.i32 t types.INT_BIT_WIDTH 0)
  else if kind =? types.FIXED_SIZE_BINARY then
    with_type f kind (λ t, (λ w, 0 <=? w) <$> fb.i32 t types.WIDTH 0)
  else if kind =? types.FLOATING_POINT then
    with_type f kind (λ t, (λ p, (0 <=? p) && (p <=? 2)) <$> fb.i16 t types.PRECISION 0)
  else if kind =? types.DATE then
    with_type f kind (λ t, (λ u, (u =? types.DAY) || (u =? types.MILLISECOND)) <$>
      fb.i16 t types.UNIT types.MILLISECOND)
  else if kind =? types.TIME then
    with_type f kind (λ t,
      w ← fb.i32 t types.TIME_BIT_WIDTH 32;
      u ← fb.i16 t types.UNIT types.MILLISECOND;
      Ok ((w =? 32) && ((u =? types.SECOND) || (u =? types.MILLISECOND))
          || (w =? 64) && ((u =? types.MICROSECOND) || (u =? types.NANOSECOND))))
  else if kind =? types.TIMESTAMP then
    with_type f kind (λ t, time_unit <$> fb.i16 t types.UNIT types.SECOND)
  else if kind =? types.DURATION then
    with_type f kind (λ t, time_unit <$> fb.i16 t types.UNIT types.MILLISECOND)
  else if kind =? types.INTERVAL then
    with_type f kind (λ t, (λ u, (u =? types.YEAR_MONTH) || (u =? types.DAY_TIME)
      || (u =? types.MONTH_DAY_NANO)) <$> fb.i16 t types.UNIT types.YEAR_MONTH)
  else if (kind =? types.LIST) || (kind =? types.LARGE_LIST) || (kind =? types.LIST_VIEW)
     || (kind =? types.LARGE_LIST_VIEW)
  then Ok (bool_decide (children = Some 1))
  else if kind =? types.FIXED_SIZE_LIST then
    o ← type_as f kind; Ok (bool_decide (is_Some o) && bool_decide (children = Some 1))
  else if kind =? types.RUN_END_ENCODED then Ok (bool_decide (children = Some 2))
  else if kind =? types.MAP then
    o ← type_as f kind; Ok (bool_decide (is_Some o) && bool_decide (children = Some 1))
  else if kind =? types.DECIMAL then
    with_type f kind (λ t,
      p ← fb.i32 t types.DECIMAL_PRECISION 0;
      if negb ((0 <=? p) && (p <=? 255)) then Ok false
      else
        s ← fb.i32 t types.DECIMAL_SCALE 0;
        if negb ((-128 <=? s) && (s <=? 127)) then Ok false
        else (λ w, (w =? 32) || (w =? 64) || (w =? 128) || (w =? 256)) <$>
          fb.i32 t types.DECIMAL_BIT_WIDTH 128)
  else if kind =? types.UNION then
    with_type f kind (λ t,
      let count := default 0 children in
      o ← fb.vector t types.UNION_TYPE_IDS 4;
      let ids := match o with None => count <=? 128 | Some ids => union_ids ids count end in
      m ← fb.i16 t types.UNION_MODE types.SPARSE;
      Ok (((m =? types.SPARSE) || (m =? types.DENSE)) && ids))
  else Ok false.

(** The check of a field's dictionary index. *)
Definition check_index (f : fb.Table) (fault : text → text) : result stop unit :=
  enc ← fb.table f field.DICTIONARY;
  match enc with
  | None => Ok tt
  | Some encoding =>
      o ← fb.table encoding dictionary.INDEX_TYPE;
      match o with
      | None => say (fault [T "is dictionary encoded with no index type"])
      | Some index =>
          w ← fb.i32 index types.INT_BIT_WIDTH 0;
          if bits w then Ok tt else say (fault [T "has a "; N w; T " bit dictionary index"])
      end
  end.

(** Whether a map's entries are a struct of two fields. *)
Definition map_pair (vector : option fb.Vector) : result stop bool :=
  match vector with
  | Some v =>
      if fb.len v =? 0 then Ok false
      else
        e ← fb.v_table v 0;
        k ← fb.u8 e field.TYPE_TYPE types.NONE;
        if k =? types.STRUCT then
          c ← fb.vector e field.CHILDREN 4;
          Ok (bool_decide (fb.len <$> c = Some 2))
        else Ok false
  | None => Ok false
  end.

(** One field and the children the conversion recurses into. *)
Fixpoint check_field (fuel : nat) (f : fb.Table) : result stop unit :=
  match fuel with
  | O => Err Unfinished
  | S fuel =>
      label ← name f;
      let fault what := [T "field "; Q label; T " "] ++ what in
      _ ← check_index f fault;
      vector ← fb.vector f field.CHILDREN 4;
      let count := fb.len <$> vector in
      kind ← fb.u8 f field.TYPE_TYPE types.NONE;
      k ← known f count;
      if negb k then
        say (fault ([T "has a type the Arrow IPC reader cannot convert ("] ++ types.name kind
          ++ [T ", "; N (default 0 count); T " children)"]))
      else
        p ← if kind =? types.MAP then map_pair vector else Ok true;
        if negb p
        then say (fault [T "is a map whose entries are not a struct of two fields"])
        else if is_nested kind then
          cs ← children f;
          _ ← mapM (check_field fuel) cs;
          Ok tt
        else Ok tt
  end.

(** ** The model of a field *)

(** [usize::try_from(z).unwrap_or(d)]. *)
Definition to_usize (z d : Z) : Z := if 0 <=? z then z else d.

Section value_type.
(** [model], for the children. *)
Variable model : fb.Table → result stop Ty.Field.

Definition child (f : fb.Table) (i : nat) : result stop Ty.Field :=
  all ← children f;
  match all !! i with
  | Some t => model t
  | None =>
      say [T "field "; Q (match name f with Ok n => n | Err _ => [] end); T " has no child ";
           N (Z.of_nat i)]
  end.

Definition width_of (f : fb.Table) (id slot d : Z) : result stop Z :=
  o ← type_as f id; match o with Some t => fb.i32 t slot d | None => Ok d end.

Definition unit_of (f : fb.Table) (id slot d : Z) : result stop Z :=
  o ← type_as f id; match o with Some t => fb.i16 t slot d | None => Ok d end.

Definition fixed (n : Z) : Ty.t := Ty.Primitive (Some n).

(** The type a field's own type table describes, before any dictionary encoding. *)
Definition value_type (f : fb.Table) : result stop Ty.t :=
  kind ← fb.u8 f field.TYPE_TYPE types.NONE;
  if kind =? types.NULL then Ok Ty.Null
  else if kind =? types.BOOL then Ok Ty.Boolean
  else if kind =? types.INT then
    (λ w, fixed (to_usize (Z.quot w 8) 0)) <$> width_of f kind types.INT_BIT_WIDTH 0
  else if kind =? types.FLOATING_POINT then
    (λ p, fixed (if p =? 0 then 2 else if p =? 1 then 4 else 8)) <$>
      unit_of f kind types.PRECISION 0
  else if kind =? types.DECIMAL then
    (λ w, fixed (to_usize (Z.quot w 8) 0)) <$> width_of f kind types.DECIMAL_BIT_WIDTH 128
  else if kind =? types.DATE then
    (λ u, fixed (if u =? types.DAY then 4 else 8)) <$>
      unit_of f kind types.UNIT types.MILLISECOND
  else if kind =? types.TIME then
    (λ w, fixed (to_usize (Z.quot w 8) 0)) <$> width_of f kind types.TIME_BIT_WIDTH 32
  else if (kind =? types.TIMESTAMP) || (kind =? types.DURATION) then Ok (fixed 8)
  else if kind =? types.INTERVAL then
    (λ u, fixed (if u =? types.YEAR_MONTH then 4 else if u =? types.DAY_TIME then 8 else 16))
      <$> unit_of f kind types.UNIT types.YEAR_MONTH
  else if kind =? types.FIXED_SIZE_BINARY then
    Ty.FixedSizeBinary <$> width_of f kind types.WIDTH 0
  else if (kind =? types.BINARY) || (kind =? types.UTF8) then Ok (Ty.Text 4)
  else if (kind =? types.LARGE_BINARY) || (kind =? types.LARGE_UTF8) then Ok (Ty.Text 8)
  else if (kind =? types.BINARY_VIEW) || (kind =? types.UTF8_VIEW) then Ok Ty.View
  else if (kind =? types.LIST) || (kind =? types.MAP) then Ty.List 4 <$> child f 0
  else if kind =? types.LARGE_LIST then Ty.List 8 <$> child f 0
  else if kind =? types.LIST_VIEW then Ty.ListView 4 <$> child f 0
  else if kind =? types.LARGE_LIST_VIEW then Ty.ListView 8 <$> child f 0
  else if kind =? types.FIXED_SIZE_LIST then
    size ← width_of f kind types.WIDTH 0;
    Ty.FixedSizeList size <$> child f 0
  else if kind =? types.STRUCT then
    cs ← children f; Ty.Struct <$> mapM model cs
  else if kind =? types.RUN_END_ENCODED then
    r ← child f 0; v ← child f 1; Ok (Ty.RunEndEncoded r v)
  else if kind =? types.UNION then
    m ← unit_of f kind types.UNION_MODE types.SPARSE;
    cs ← children f; Ty.Union (m =? types.DENSE) <$> mapM model cs
  else
    n ← name f;
    say ([T "field "; Q n; T " has a type the Arrow IPC reader cannot convert ("]
         ++ types.name kind ++ [T ", 0 children)"]).

End value_type.

(** The model of a field that passed [check_field]. *)
Fixpoint model (fuel : nat) (f : fb.Table) : result stop Ty.Field :=
  match fuel with
  | O => Err Unfinished
  | S fuel =>
      label ← name f;
      nullable ← fb.bool f field.NULLABLE false;
      value ← value_type (model fuel) f;
      enc ← fb.table f field.DICTIONARY;
      kind ← match enc with
             | Some encoding =>
                 o ← fb.table encoding dictionary.INDEX_TYPE;
                 w ← match o with
                     | Some index => fb.i32 index types.INT_BIT_WIDTH 0
                     | None => Ok 0
                     end;
                 Ok (Ty.Dictionary (to_usize (Z.quot w 8) 1) value)
             | None => Ok value
             end;
      Ok (Ty.mk_Field label nullable kind)
  end.

(** The rounds that are always enough. *)
Definition rounds : nat := 64.

(** One field of the schema. *)
Definition schema_field (big : bool) (v : fb.Vector) (i : Z) : result stop Ty.Field :=
  f ← fb.v_table v i;
  k ← if big then fb.u8 f field.TYPE_TYPE types.NONE else Ok types.NONE;
  if big && (k =? types.DECIMAL) then
    n ← name f; say [T "field "; Q n; T " is a big-endian decimal"]
  else
    _ ← check_field rounds f;
    model rounds f.

Definition check_schema (t : fb.Table) : result stop (list Ty.Field) :=
  o ← fb.vector t schema.FIELDS 4;
  match o with
  | None => say [T "the schema has no field list"]
  | Some v =>
      e ← fb.i16 t schema.ENDIANNESS 0;
      mapM (schema_field (e =? schema.BIG) v) (seqZ 0 (fb.len v))
  end.

(** ** No schema makes the check panic, and its rounds are enough *)

Section safe.
Context (f : fb.Table).
Hypothesis f_ok : table_ok f.

Lemma name_gives : gives (name f) (λ _, True).
Proof. apply gives_fmap. by eapply gives_True, str_gives. Qed.

Lemma kind_gives : gives (fb.u8 f field.TYPE_TYPE types.NONE) (λ z, 0 ≤ z < 256).
Proof. by apply u8_gives. Qed.

Lemma children_vector_gives :
  gives (fb.vector f field.CHILDREN 4) (λ o, ∀ v, o = Some v →
    vector_ok v ∧ fb.width v = 4 ∧ fb.v_buf v = fb.buf f ∧ fb.v_depth v = fb.depth f ∧
    fb.loc f < fb.data v).
Proof. by apply vector_gives. Qed.

Lemma tables_gives v :
  vector_ok v → fb.v_buf v = fb.buf f → fb.v_depth v = fb.depth f → fb.loc f < fb.data v →
  gives (tables v) (Forall (below f)).
Proof.
  intros. eapply gives_mono; [apply gives_mapM|].
  - intros i Hi. apply elem_of_seqZ in Hi. apply v_table_gives; try done. lia.
  - by intros ts [Hts _].
Qed.

Lemma children_gives : gives (children f) (Forall (below f)).
Proof.
  unfold children. eapply gives_bind; [apply children_vector_gives|].
  intros [v|] Hv; [|by constructor]. destruct (Hv v eq_refl) as (? & _ & ? & ? & ?).
  by apply tables_gives.
Qed.

Lemma type_as_gives k : gives (type_as f k) (λ o, ∀ c, o = Some c → below f c).
Proof.
  unfold type_as. eapply gives_bind; [apply kind_gives|]. intros z _.
  destruct (negb (z =? k)); [done|]. by apply table_gives.
Qed.

Lemma with_type_gives k (g : fb.Table → result stop bool) :
  (∀ c, table_ok c → gives (g c) (λ _, True)) → gives (with_type f k g) (λ _, True).
Proof.
  intros Hg. unfold with_type. eapply gives_bind; [apply type_as_gives|].
  intros [c|] Hc; [|done]. apply Hg. by destruct (Hc c eq_refl).
Qed.

Lemma known_gives n : gives (known f n) (λ _, True).
Proof.
  unfold known. eapply gives_bind; [apply kind_gives|]. intros kind _.
  repeat case_match; try done; try (apply with_type_gives; intros c Hc);
    repeat first
      [ done
      | by apply gives_fmap; eapply gives_True, i32_gives
      | by apply gives_fmap; eapply gives_True, i16_gives
      | eapply gives_bind; [by eapply gives_True, i32_gives|]; intros
      | eapply gives_bind; [by eapply gives_True, i16_gives|]; intros
      | eapply gives_bind; [by eapply gives_True, vector_gives|]; intros
      | eapply gives_bind; [by eapply gives_True, type_as_gives|]; intros
      | match goal with |- gives (if ?b then _ else _) _ => destruct b end ].
Qed.

Lemma check_index_gives fault : gives (check_index f fault) (λ _, True).
Proof.
  unfold check_index. eapply gives_bind; [by apply table_gives|].
  intros [e|] He; [|done]. destruct (He e eq_refl) as (He' & _).
  eapply gives_bind; [by apply table_gives|]. intros [i|] Hi; [|done].
  destruct (Hi i eq_refl) as (Hi' & _).
  eapply gives_bind; [by eapply gives_True, i32_gives|]. intros w _. by destruct (bits w).
Qed.

Lemma map_pair_gives o :
  (∀ v, o = Some v → vector_ok v ∧ fb.width v = 4 ∧ fb.v_buf v = fb.buf f ∧
    fb.v_depth v = fb.depth f ∧ fb.loc f < fb.data v) →
  gives (map_pair o) (λ _, True).
Proof.
  intros Ho. unfold map_pair. destruct o as [v|]; [|done].
  destruct (Ho v eq_refl) as (? & _ & ? & ? & ?). destruct (fb.len v =? 0); [done|].
  eapply gives_bind; [by apply (v_table_gives f)|]. intros e [He _].
  eapply gives_bind; [by eapply gives_True, u8_gives|]. intros k _.
  destruct (k =? types.STRUCT); [|done].
  eapply gives_bind; [by eapply gives_True, vector_gives|]. done.
Qed.

End safe.

(** The rounds left at a table. *)
Definition enough_rounds (fuel : nat) (f : fb.Table) : Prop :=
  fb.MAX_DEPTH - fb.depth f ≤ Z.of_nat fuel.

Lemma enough_below fuel f c : enough_rounds (S fuel) f → below f c → enough_rounds fuel c.
Proof. unfold enough_rounds. intros H (_ & _ & _ & E). lia. Qed.

Lemma enough_some fuel f : table_ok f → enough_rounds fuel f → (0 < fuel)%nat.
Proof. intros Hf H. destruct (table_depth f Hf). unfold enough_rounds in H. lia. Qed.

Lemma check_field_gives fuel f :
  table_ok f → enough_rounds fuel f → gives (check_field fuel f) (λ _, True).
Proof.
  revert f. induction fuel as [|fuel IH]; intros f Hf Hr.
  { by apply enough_some in Hr; [lia|]. }
  simpl. eapply gives_bind; [by apply name_gives|]. intros label _.
  eapply gives_bind; [by apply check_index_gives|]. intros _ _.
  eapply gives_bind; [by apply children_vector_gives|]. intros o Ho.
  eapply gives_bind; [by apply kind_gives|]. intros kind _.
  eapply gives_bind; [by apply known_gives|]. intros k _. destruct (negb k); [done|].
  eapply (gives_bind _ _ (λ _, True)).
  { destruct (kind =? types.MAP); [|done]. by apply (map_pair_gives f). }
  intros p _. destruct (negb p); [done|]. destruct (is_nested kind); [|done].
  eapply gives_bind; [by apply children_gives|]. intros cs Hcs.
  eapply gives_bind; [|done]. apply gives_mapM. intros c Hc.
  rewrite Forall_forall in Hcs. specialize (Hcs c Hc).
  apply IH; [apply Hcs|by eapply enough_below].
Qed.

Lemma child_gives m f i (P : Ty.Field → Prop) :
  table_ok f → (∀ c, below f c → gives (m c) P) → gives (child m f i) P.
Proof.
  intros Hf Hm. unfold child. eapply gives_bind; [by apply children_gives|]. intros cs Hcs.
  destruct (cs !! i) as [c|] eqn:Hc; [|done]. apply Hm. rewrite Forall_forall in Hcs.
  apply Hcs. by apply list_elem_of_lookup_2 in Hc.
Qed.

Lemma width_of_gives f id slot d :
  table_ok f → 0 ≤ slot < 2 ^ 16 → -2 ^ 31 ≤ d < 2 ^ 31 →
  gives (width_of f id slot d) (λ _, True).
Proof.
  intros Hf Hs Hd. unfold width_of. eapply gives_bind; [by apply type_as_gives|].
  intros [c|] Hc; [|done]. destruct (Hc c eq_refl) as (Hc' & _). by eapply gives_True, i32_gives.
Qed.

Lemma unit_of_gives f id slot d :
  table_ok f → 0 ≤ slot < 2 ^ 16 → -2 ^ 15 ≤ d < 2 ^ 15 →
  gives (unit_of f id slot d) (λ _, True).
Proof.
  intros Hf Hs Hd. unfold unit_of. eapply gives_bind; [by apply type_as_gives|].
  intros [c|] Hc; [|done]. destruct (Hc c eq_refl) as (Hc' & _). by eapply gives_True, i16_gives.
Qed.

Lemma value_type_gives m f :
  table_ok f → (∀ c, below f c → gives (m c) (λ _, True)) →
  gives (value_type m f) (λ _, True).
Proof.
  intros Hf Hm. unfold value_type. eapply gives_bind; [by apply kind_gives|]. intros kind _.
  assert (∀ i, gives (child m f i) (λ _, True)) as Hc by (intros; by apply child_gives).
  assert (∀ cs, Forall (below f) cs → gives (mapM m cs) (λ _, True)) as Hcs.
  { intros cs Hcs. eapply gives_True, (gives_mapM _ (λ _, True)). intros c Hin.
    rewrite Forall_forall in Hcs. auto. }
  repeat first
    [ done
    | by apply gives_fmap, width_of_gives
    | by apply gives_fmap, unit_of_gives
    | by apply gives_fmap, Hc
    | eapply gives_bind; [by apply width_of_gives|]; intros
    | eapply gives_bind; [by apply unit_of_gives|]; intros
    | eapply gives_bind; [by apply Hc|]; intros
    | eapply gives_bind; [by apply children_gives|]; intros ? ?; by apply gives_fmap, Hcs
    | eapply gives_bind; [by apply name_gives|]; intros
    | match goal with |- gives (if ?b then _ else _) _ => destruct b end ].
Qed.

Lemma model_gives fuel f :
  table_ok f → enough_rounds fuel f → gives (model fuel f) (λ _, True).
Proof.
  revert f. induction fuel as [|fuel IH]; intros f Hf Hr.
  { by apply enough_some in Hr; [lia|]. }
  simpl. eapply gives_bind; [by apply name_gives|]. intros label _.
  eapply gives_bind; [by apply bool_gives|]. intros nullable _.
  eapply gives_bind.
  { apply value_type_gives; [done|]. intros c Hc. apply IH; [apply Hc|by eapply enough_below]. }
  intros value _. eapply gives_bind; [by apply table_gives|]. intros enc He.
  eapply (gives_bind _ _ (λ _, True)); [|done]. destruct enc as [e|]; [|done].
  destruct (He e eq_refl) as (He' & _). eapply gives_bind; [by apply table_gives|].
  intros o Ho. eapply (gives_bind _ _ (λ _, True)); [|done]. destruct o as [i|]; [|done].
  destruct (Ho i eq_refl) as (Hi & _). by eapply gives_True, i32_gives.
Qed.

Lemma check_schema_gives t :
  table_ok t → gives (check_schema t) (λ _, True).
Proof.
  intros Ht. unfold check_schema. eapply gives_bind; [by apply vector_gives|].
  intros [v|] Hv; [|done]. destruct (Hv v eq_refl) as (Hok & _ & Eb & Ed & Hl).
  eapply gives_bind; [by eapply gives_True, i16_gives|]. intros e _.
  eapply gives_True, (gives_mapM _ (λ _, True)). intros i Hi. apply elem_of_seqZ in Hi.
  unfold schema_field. eapply gives_bind; [apply (v_table_gives t); try done; lia|].
  intros f [Hf _]. assert (enough_rounds rounds f).
  { destruct (table_depth f Hf). unfold enough_rounds, fb.MAX_DEPTH, rounds in *. lia. }
  eapply (gives_bind _ _ (λ _, True)).
  { destruct (e =? schema.BIG); [|done]. by eapply gives_True, u8_gives. }
  intros k _. destruct (_ && _).
  { eapply gives_bind; [by apply name_gives|]. done. }
  eapply gives_bind; [by apply check_field_gives|]. intros _ _. by apply model_gives.
Qed.

(** ** The fields of a schema that passes *)

(** The widths the walk sizes buffers with. *)
Fixpoint type_ok (k : Ty.t) : bool :=
  match k with
  | Ty.Primitive w => bool_decide (w ∈ [Some 1; Some 2; Some 4; Some 8; Some 16; Some 32])
  | Ty.FixedSizeBinary w => 0 <=? w
  | Ty.Text w => bool_decide (w ∈ [4; 8])
  | Ty.List w c | Ty.ListView w c => bool_decide (w ∈ [4; 8]) && field_ok c
  | Ty.FixedSizeList _ c => field_ok c
  | Ty.Struct cs | Ty.Union _ cs => forallb field_ok cs
  | Ty.RunEndEncoded r v => field_ok r && field_ok v
  | Ty.Dictionary w v => bool_decide (w ∈ [1; 2; 4; 8]) && type_ok v
  | _ => true
  end
with field_ok (f : Ty.Field) : bool := let '(Ty.mk_Field _ _ k) := f in type_ok k.

Lemma bits_cases w : bits w = true → w = 8 ∨ w = 16 ∨ w = 32 ∨ w = 64.
Proof. unfold bits. rewrite !orb_true_iff, !Z.eqb_eq. tauto. Qed.

(** The check's kind is one of the twenty-six types. *)
Lemma known_kinds f n k :
  fb.u8 f field.TYPE_TYPE types.NONE = Ok k → known f n = Ok true →
  k ∈ seqZ 1 26.
Proof.
  intros Hk H. unfold known in H. rewrite Hk in H. simpl in H. apply elem_of_seqZ.
  repeat match type of H with
  | (if ?b then _ else _) = _ => destruct b eqn:?
  end; rewrite ?orb_true_iff, ?Z.eqb_eq in *; try discriminate;
  unfold types.NULL, types.BOOL, types.BINARY, types.BINARY_VIEW, types.LARGE_BINARY, types.UTF8,
    types.UTF8_VIEW, types.LARGE_UTF8, types.STRUCT, types.INT, types.FIXED_SIZE_BINARY,
    types.FLOATING_POINT, types.DATE, types.TIME, types.TIMESTAMP, types.DURATION, types.INTERVAL,
    types.LIST, types.LARGE_LIST, types.LIST_VIEW, types.LARGE_LIST_VIEW, types.FIXED_SIZE_LIST,
    types.RUN_END_ENCODED, types.MAP, types.DECIMAL, types.UNION in *; lia.
Qed.

Lemma type_as_kind f k :
  fb.u8 f field.TYPE_TYPE types.NONE = Ok k → type_as f k = fb.table f field.TYPE.
Proof. intros H. unfold type_as. rewrite H. simpl. by rewrite Z.eqb_refl. Qed.

Section value_ok.
Context (m : fb.Table → result stop Ty.Field) (f : fb.Table) (k : Z) (n : option Z).
Hypothesis kind_k : fb.u8 f field.TYPE_TYPE types.NONE = Ok k.
Hypothesis known_k : known f n = Ok true.

(** The children of a nested field pass, so their models are well formed. *)
Hypothesis children_ok : is_nested k = true →
  ∀ cs, children f = Ok cs → ∀ c x, c ∈ cs → m c = Ok x → field_ok x = true.

Lemma child_ok i x : is_nested k = true → child m f i = Ok x → field_ok x = true.
Proof.
  intros Hn H. unfold child in H. inv_ok. destruct (_ !! i) eqn:E; [|done].
  eapply children_ok; [done|done| |done]. by apply list_elem_of_lookup_2 in E.
Qed.

Lemma all_children_ok cs xs :
  is_nested k = true → children f = Ok cs → mapM m cs = Ok xs → forallb field_ok xs = true.
Proof.
  intros Hn Hcs H. apply mapM_Ok in H. apply forallb_forall. intros x Hx%list_elem_of_In.
  apply list_elem_of_lookup in Hx as [i Hi].
  destruct (Forall2_lookup_r _ _ _ _ _ H Hi) as (c & Hc & E).
  eapply children_ok; [done|done| |done]. by apply list_elem_of_lookup_2 in Hc.
Qed.

Lemma quot_width_ok w :
  w = 8 ∨ w = 16 ∨ w = 32 ∨ w = 64 ∨ w = 128 ∨ w = 256 →
  type_ok (fixed (to_usize (Z.quot w 8) 0)) = true.
Proof. intros [->|[->|[->|[->|[->| ->]]]]]; reflexivity. Qed.

Lemma value_type_ok v : value_type m f = Ok v → type_ok v = true.
Proof.
  intros H. pose proof (known_kinds _ _ _ kind_k known_k) as Hk.
  pose proof child_ok as Hc. pose proof all_children_ok as Hcs.
  unfold value_type in H. unfold known in known_k. rewrite kind_k in H, known_k.
  unfold width_of, unit_of in H. unfold with_type in known_k. apply elem_of_seqZ in Hk.
  assert (k = 1 ∨ k = 2 ∨ k = 3 ∨ k = 4 ∨ k = 5 ∨ k = 6 ∨ k = 7 ∨ k = 8 ∨ k = 9 ∨ k = 10 ∨
    k = 11 ∨ k = 12 ∨ k = 13 ∨ k = 14 ∨ k = 15 ∨ k = 16 ∨ k = 17 ∨ k = 18 ∨ k = 19 ∨ k = 20 ∨
    k = 21 ∨ k = 22 ∨ k = 23 ∨ k = 24 ∨ k = 25 ∨ k = 26) as Hcase by lia. clear Hk.
  destruct_or!; subst k;
    cbn -[Z.quot type_as child children mapM fb.i32 fb.i16] in H, known_k; inv_ok;
    do 4 same_reads; simpl;
    first
    [ reflexivity
    | by eapply Hc
    | by eapply Hcs
    | by apply andb_true_iff; split; eapply Hc
    | by repeat match goal with |- context [if ?b then _ else _] => destruct b end
    | unfold bits in *; apply quot_width_ok;
      rewrite ?orb_true_iff, ?andb_true_iff, ?Z.eqb_eq in known_k; lia
    | done ].
Qed.

End value_ok.

Lemma checked_model_ok fuel f :
  check_field fuel f = Ok tt → ∀ fuel' x, model fuel' f = Ok x → field_ok x = true.
Proof.
  revert f. induction fuel as [|fuel IH]; intros f H fuel' x Hm; [done|].
  destruct fuel' as [|fuel']; [done|]. cbn -[known map_pair children] in H, Hm.
  apply result_bind_Ok in H as (label & Hl & H). apply result_bind_Ok in H as ([] & Hi & H).
  apply result_bind_Ok in H as (o & Ho & H). apply result_bind_Ok in H as (k & Hk & H).
  apply result_bind_Ok in H as (kn & Hkn & H). destruct kn; [|done]. simpl in H.
  apply result_bind_Ok in H as (p & Hp & H). destruct p; [|done]. simpl in H.
  apply result_bind_Ok in Hm as (label' & _ & Hm). apply result_bind_Ok in Hm as (nu & _ & Hm).
  apply result_bind_Ok in Hm as (value & Hv & Hm). apply result_bind_Ok in Hm as (enc & He & Hm).
  assert (type_ok value = true) as Hok.
  { eapply value_type_ok; [exact Hk|exact Hkn| |exact Hv]. intros Hn cs Hcs c y Hc Hy.
    rewrite Hn in H. rewrite Hcs in H. simpl in H. apply result_bind_Ok in H as (us & Hus & _).
    apply mapM_Ok in Hus. apply list_elem_of_lookup in Hc as [i Hi'].
    destruct (Forall2_lookup_l _ _ _ _ _ Hus Hi') as ([] & _ & Hcf). by eapply IH. }
  apply result_bind_Ok in Hm as (kind & Hkd & Hm). inv_ok. simpl.
  unfold check_index in Hi. rewrite He in Hi. simpl in Hi. destruct enc as [e|]; inv_ok; [|done].
  same_reads. same_reads. destruct (bits _) eqn:Hb; [|done]. apply bits_cases in Hb. simpl.
  apply andb_true_iff. split; [|done]. by destruct Hb as [->|[->|[->| ->]]].
Qed.

Lemma checked_fields_ok t fs : check_schema t = Ok fs → forallb field_ok fs = true.
Proof.
  unfold check_schema. intros H. apply result_bind_Ok in H as (o & Ho & H).
  destruct o as [v|]; [|done]. apply result_bind_Ok in H as (e & He & H).
  apply mapM_Ok in H. apply forallb_forall. intros x Hx%list_elem_of_In.
  apply list_elem_of_lookup in Hx as [i Hi].
  destruct (Forall2_lookup_r _ _ _ _ _ H Hi) as (j & _ & Hf). unfold schema_field in Hf.
  apply result_bind_Ok in Hf as (f & Hf1 & Hf). apply result_bind_Ok in Hf as (k & Hf2 & Hf).
  destruct (_ && _); [inv_ok|]. apply result_bind_Ok in Hf as ([] & Hf3 & Hf).
  by eapply checked_model_ok.
Qed.

(** Every field of a schema that passes is one the walk can size: a primitive column
    has a width of 1, 2, 4, 8, 16 or 32 bytes, offsets are of 4 or 8, dictionary keys of
    1, 2, 4 or 8, and a fixed-size binary's width is not negative, at every depth. *)
Theorem schema_fields_ok t fs : check_schema t = Ok fs → forallb field_ok fs = true.
Proof. apply checked_fields_ok. Qed.

(** ** Union type ids *)

Definition as_i8 (z : Z) : Z := signed 8 (wrap 8 z).

Lemma union_loop_spec ids seen :
  0 ≤ seen →
  union_loop ids seen = true ↔
  ∃ zs, ids = Some <$> zs ∧ Forall (λ z, 0 ≤ as_i8 z ∧ Z.testbit seen (as_i8 z) = false) zs ∧
    NoDup (as_i8 <$> zs).
Proof.
  revert seen. induction ids as [|[z|] ids IH]; intros seen Hs; simpl.
  - split; [intros _; exists []; by repeat constructor|done].
  - fold (as_i8 z). destruct (Z.ltb_spec (as_i8 z) 0) as [Hneg|Hpos].
    { split; [done|]. intros ([|y zs] & E & F & _); simplify_eq/=.
      apply Forall_cons in F as [[? _] _]. lia. }
    assert (Z.land seen (Z.shiftl 1 (as_i8 z)) = 0 ↔ Z.testbit seen (as_i8 z) = false) as Hbit.
    { rewrite Z.shiftl_1_l. rewrite <- Z.bits_inj_iff'. split.
      - intros H. specialize (H (as_i8 z) Hpos). rewrite Z.land_spec, Z.bits_0 in H.
        rewrite Z.pow2_bits_true, andb_true_r in H by lia. done.
      - intros H n Hn. rewrite Z.land_spec, Z.bits_0, Z.pow2_bits_eqb by lia.
        destruct (Z.eqb_spec (as_i8 z) n) as [<-|]; [by rewrite H|apply andb_false_r]. }
    destruct (Z.eqb_spec (Z.land seen (Z.shiftl 1 (as_i8 z))) 0) as [E0|E0]; simpl.
    2:{ split; [done|]. intros ([|y zs] & E & F & _); simplify_eq/=.
        apply Forall_cons in F as [[_ ?] _]. tauto. }
    apply Hbit in E0. rewrite IH.
    2:{ apply Z.lor_nonneg. split; [done|]. rewrite Z.shiftl_1_l. lia. }
    assert (∀ y, 0 ≤ as_i8 y → Z.testbit (Z.lor seen (Z.shiftl 1 (as_i8 z))) (as_i8 y) = false
      ↔ Z.testbit seen (as_i8 y) = false ∧ as_i8 z ≠ as_i8 y) as Hor.
    { intros y Hy. rewrite Z.lor_spec, Z.shiftl_1_l, Z.pow2_bits_eqb, orb_false_iff, Z.eqb_neq by lia.
      done. }
    split.
    + intros (zs & -> & F & D). exists (z :: zs). split; [done|]. rewrite Forall_forall in F.
      split.
      * constructor; [done|]. apply Forall_forall. intros y Hy. destruct (F y Hy) as [Hy0 Hy1].
        apply Hor in Hy1 as [? _]; done.
      * simpl. constructor; [|done]. intros (y & E & Hy)%list_elem_of_fmap.
        destruct (F y Hy) as [Hy0 Hy1]. by apply Hor in Hy1 as [_ ?].
    + intros ([|y zs] & E & F & D); simplify_eq/=. apply NoDup_cons in D as [D1 D2].
      apply Forall_cons in F as [_ F]. exists zs. split; [done|]. split; [|done].
      rewrite Forall_forall in *. intros x Hx. destruct (F x Hx) as [Hx0 Hx1].
      split; [done|]. apply Hor; [done|]. split; [done|]. intros Ex. apply D1. rewrite Ex.
      by apply list_elem_of_fmap_2.
  - split; [done|]. intros ([|y zs] & E & _); simplify_eq/=.
Qed.

(** The mask of [union_ids] decides what Arrow asks of a union's type ids: one for each
    child, none negative as an [i8], none repeated. *)
Theorem union_ids_spec ids count :
  union_ids ids count = true ↔
  fb.len ids = count ∧
  ∃ zs, fb.v_i32 ids <$> seqZ 0 count = Some <$> zs ∧
    Forall (λ z, 0 ≤ as_i8 z) zs ∧ NoDup (as_i8 <$> zs).
Proof.
  unfold union_ids. destruct (Z.eqb_spec (fb.len ids) count) as [<-|Hne]; simpl.
  2:{ split; [done|]. by intros [? _]. }
  rewrite union_loop_spec by done. split.
  - intros (zs & E & F & D). split; [done|]. exists zs. split; [done|]. split; [|done].
    eapply Forall_impl; [exact F|]. naive_solver.
  - intros (_ & zs & E & F & D). exists zs. split; [done|]. split; [|done].
    eapply Forall_impl; [exact F|]. intros z Hz. split; [done|apply Z.bits_0].
Qed.
