(* ===== verification/ArrowWalk.v ===== *)
(** * A record batch walked against its schema

    [src/kernel/plane/check/src/walk.rs]: the walk Arrow's decoder makes over a batch's
    nodes and buffers, field by field in the same order, checking what it relies on.  The
    inflation of a compressed batch is the caller's, an instance of [Plan].  The theorems,
    for a batch with no plan: the walk takes the nodes and buffers the columnar layout
    gives each type, in order, and every buffer lies in the body. *)

From S2P Require Import Prelude ArrowFormat Flatbuf ArrowSchema.
Record Node := mk_Node { n_len : Z; n_nulls : Z }.

Record Span := mk_Span { offset : Z; s_len : Z; slot : Z }.

Module Rule.

Inductive t :=
| Free
| Exact (n : Z)
| Validity (len : Z)
| Offsets (len width : Z)
| Text (len width : Z)
| Data (offsets : Z).

(** [Rule::values]. *)
Definition values (len width : Z) : t := Exact (saturating_mul 64 len width).

Definition of_values (kind : Ty.t) (len : Z) : t :=
  match kind with
  | Ty.Boolean => Exact (div_ceil len 8)
  | Ty.FixedSizeBinary w => values len (to_usize w (umax 64))
  | other =>
      match Ty.primitive_width other with Some w => values len w | None => Free end
  end.

End Rule.

(** [trait Plan]: what the inflation of a compressed batch does with each buffer. *)
Class Plan (P : Type) := plan_take : list byte → string → Span → Rule.t → M P text Span.

(** No plan. *)
#[export] Instance no_plan : Plan Empty_set := λ _ _ _ _ p, match p with end.

Record Body := mk_Body { b_len : Z; addr : Z }.

Record Walked := mk_Walked { spans : list Span; columns : list (nat * nat) }.

Record Walk (P : Type) := mk_Walk {
  nodes : list (Z * Z);
  buffers : list (Z * Z);
  variadic : list Z;
  body : Body;
  ver : Z;
  plan : option P;
  walked : Walked;
}.
Arguments mk_Walk {_} _ _ _ _ _ _ _.
Arguments nodes {_} _.
Arguments buffers {_} _.
Arguments variadic {_} _.
Arguments body {_} _.
Arguments ver {_} _.
Arguments plan {_} _.
Arguments walked {_} _.

(** [for x in l { f(x)?; }]. *)
Definition each {S E A B} (f : A → M S E B) : list A → M S E unit :=
  fix go l :=
    match l with
    | [] => mret tt
    | x :: l => _ ← f x; go l
    end.

(** ["column {:?} .."]. *)
Definition column (f : Ty.Field) (rest : text) : stop :=
  Said ([T "column "; Q (Ty.name f); T " "] ++ rest).

(** A whole number of values. *)
Definition whole (f : Ty.Field) (s : Span) (width : Z) (what : string) : result stop unit :=
  if is_multiple_of (s_len s) width then Ok tt
  else Err (column f [T "has "; T what; T " of "; N (s_len s);
                      T " bytes, not a whole number of "; N width; T "-byte values"]).

(** A column with nulls has a bitmap of its length. *)
Definition nulls (f : Ty.Field) (n : Node) (validity : Span) : result stop unit :=
  if (0 <? n_nulls n) && (saturating_mul 64 (s_len validity) 8 <? n_len n)
  then Err (column f [T "has "; N (n_len n); T " values and a validity bitmap of ";
                      N (s_len validity); T " bytes"])
  else Ok tt.

Section walk.
Context {P : Type} `{!Plan P}.

Abbreviation W := (M (Walk P) stop).

Definition node (f : Ty.Field) : W Node := λ w,
  match nodes w with
  | [] => (Err (column f [T "has no field node; the record batch has too few"]), w)
  | (len, nulls) :: ns =>
      let w := mk_Walk ns (buffers w) (variadic w) (body w) (ver w) (plan w) (walked w) in
      if (0 <=? len) && (0 <=? nulls) && (nulls <=? len) then (Ok (mk_Node len nulls), w)
      else (Err (column f [T "has a field node of length "; N len; T " with "; N nulls;
                           T " nulls"]), w)
  end.

Definition push_span (s : Span) (w : Walk P) : Walk P :=
  mk_Walk (nodes w) (buffers w) (variadic w) (body w) (ver w) (plan w)
    (mk_Walked (spans (walked w) ++ [s]) (columns (walked w))).

(** What the plan makes of a buffer. *)
Definition planned (f : Ty.Field) (what : string) (s : Span) (rule : Rule.t) : W Span := λ w,
  match plan w with
  | None => (Ok s, w)
  | Some p =>
      let '(r, p) := plan_take (Ty.name f) what s rule p in
      (map_err Said r,
       mk_Walk (nodes w) (buffers w) (variadic w) (body w) (ver w) (Some p) (walked w))
  end.

(** The next buffer of the message. *)
Definition next_buffer (f : Ty.Field) : W Span := λ w,
  match buffers w with
  | [] => (Err (column f [T "has no buffer left; the record batch has too few"]), w)
  | (off, len) :: bs =>
      let w := mk_Walk (nodes w) bs (variadic w) (body w) (ver w) (plan w) (walked w) in
      if (0 <=? off) && (0 <=? len) &&
         match checked_add 64 off len with Some e => e <=? b_len (body w) | None => false end
      then (Ok (mk_Span off len (umax 64)), w)
      else (Err (column f [T "has a buffer of "; N len; T " bytes at "; N off;
                           T ", outside the body of "; N (b_len (body w)); T " bytes"]), w)
  end.

Definition buffer (f : Ty.Field) (what : string) (rule : Rule.t) : W Span :=
  s ← next_buffer f;
  s ← planned f what s rule;
  _ ← modify (push_span s);
  mret s.

Definition pop_variadic (f : Ty.Field) : W Z := λ w,
  match variadic w with
  | [] => (Err (column f [T "is a view with no variadic count"]), w)
  | c :: cs =>
      let w := mk_Walk (nodes w) (buffers w) cs (body w) (ver w) (plan w) (walked w) in
      if 0 <=? c then (Ok c, w)
      else (Err (column f [T "has a negative variadic count ("; N c; T ")"]), w)
  end.

(** The parts of a union before its children. *)
Definition union_parts (f : Ty.Field) (dense : bool) : W unit :=
  n ← node f;
  v ← gets ver;
  _ ← (if v <? version.V5
       then _ ← buffer f "validity" (Rule.Validity (n_len n)); mret tt
       else mret tt);
  ids ← buffer f "type ids" (Rule.values (n_len n) 1);
  if s_len ids <? n_len n
  then fail (column f [T "is a union of "; N (n_len n); T " values with "; N (s_len ids);
                       T " bytes of type ids"])
  else if dense then
    offsets ← buffer f "offsets" (Rule.values (n_len n) 4);
    if match checked_mul 64 (n_len n) 4 with Some need => s_len offsets <? need | None => true end
    then fail (column f [T "is a dense union of "; N (n_len n); T " values with ";
                         N (s_len offsets); T " bytes of offsets"])
    else
      w ← gets (λ w, w);
      match plan w with
      | None =>
          if is_multiple_of (addr (body w) +! offset offsets) 4 then mret tt
          else fail (column f [T "is a dense union whose offsets are not 4-byte aligned"])
      | Some _ => mret tt
      end
  else mret tt.

(** One column, its children, and, for a primitive column, the span of its values. *)
Fixpoint array (f : Ty.Field) : W (option Span) :=
  match f with
  | Ty.mk_Field nm nu kind =>
    let f := Ty.mk_Field nm nu kind in
    match kind with
    | Ty.Text width =>
        n ← node f;
        validity ← buffer f "validity" (Rule.Validity (n_len n));
        offsets ← buffer f "offsets" (Rule.Text (n_len n) width);
        _ ← buffer f "data" (Rule.Data (slot offsets));
        _ ← lift (whole f offsets width "offsets");
        _ ← lift (nulls f n validity);
        mret None
    | Ty.View =>
        count ← pop_variadic f;
        n ← node f;
        validity ← buffer f "validity" (Rule.Validity (n_len n));
        views ← buffer f "views" (Rule.values (n_len n) 16);
        _ ← each (λ _, buffer f "view data" Rule.Free) (replicate (Z.to_nat count) tt);
        _ ← lift (whole f views 16 "views");
        _ ← lift (nulls f n validity);
        mret None
    | Ty.List width child =>
        n ← node f;
        validity ← buffer f "validity" (Rule.Validity (n_len n));
        offsets ← buffer f "offsets" (Rule.Offsets (n_len n) width);
        _ ← lift (whole f offsets width "offsets");
        _ ← lift (nulls f n validity);
        _ ← array child;
        mret None
    | Ty.ListView width child =>
        n ← node f;
        validity ← buffer f "validity" (Rule.Validity (n_len n));
        offsets ← buffer f "offsets" (Rule.values (n_len n) width);
        _ ← lift (whole f offsets width "offsets");
        sizes ← buffer f "sizes" (Rule.values (n_len n) width);
        _ ← lift (whole f sizes width "sizes");
        _ ← lift (nulls f n validity);
        _ ← array child;
        mret None
    | Ty.FixedSizeList size child =>
        n ← node f;
        validity ← buffer f "validity" (Rule.Validity (n_len n));
        _ ← lift (nulls f n validity);
        let size := to_usize size 0 in
        match checked_mul 64 (n_len n) size with
        | None => fail (column f [T "has "; N (n_len n); T " lists of "; N size;
                                  T " values, more than can be counted"])
        | Some _ => _ ← array child; mret None
        end
    | Ty.Struct children =>
        n ← node f;
        validity ← buffer f "validity" (Rule.Validity (n_len n));
        _ ← lift (nulls f n validity);
        _ ← each array children;
        mret None
    | Ty.RunEndEncoded run_ends values =>
        _ ← node f;
        ends ← array run_ends;
        _ ← match ends with
            | Some e =>
                lift (whole run_ends e (default 1 (Ty.primitive_width (Ty.kind run_ends)))
                        "values")
            | None => mret tt
            end;
        _ ← array values;
        mret None
    | Ty.Dictionary width _ =>
        n ← node f;
        validity ← buffer f "validity" (Rule.Validity (n_len n));
        keys ← buffer f "keys" (Rule.values (n_len n) width);
        _ ← lift (whole f keys width "keys");
        _ ← lift (nulls f n validity);
        mret None
    | Ty.Union dense children =>
        _ ← union_parts f dense;
        _ ← each array children;
        mret None
    | Ty.Null => _ ← node f; mret None
    | other =>
        n ← node f;
        validity ← buffer f "validity" (Rule.Validity (n_len n));
        values ← buffer f "values" (Rule.of_values other (n_len n));
        _ ← lift (nulls f n validity);
        mret (Some values)
    end
  end.

(** A top-level column, with the range of spans that belongs to it. *)
Definition top (f : Ty.Field) : W unit :=
  start ← gets (λ w, length (spans (walked w)));
  _ ← array f;
  modify (λ w, mk_Walk (nodes w) (buffers w) (variadic w) (body w) (ver w) (plan w)
    (mk_Walked (spans (walked w))
       (columns (walked w) ++ [(start, length (spans (walked w)))]))).

Definition walk_fields (fields : list Ty.Field) : W Walked :=
  _ ← each top fields;
  w ← gets (λ w, w);
  match variadic w with
  | [] => mret (walked w)
  | cs => fail (Said [T "the record batch has "; N (zlen cs);
                      T " variadic buffer counts that no view column uses"])
  end.

(** The entries of a vector of [FieldNode] or [Buffer]. *)
Definition entries (v : fb.Vector) : list (Z * Z) :=
  omap (λ i, fb.element v i ≫= fb.pair) (seqZ 0 (fb.len v)).

Definition variadic_counts (b : fb.Table) : result stop (list Z) :=
  o ← fb.vector b batch.VARIADIC 8;
  match o with
  | None => Ok []
  | Some v =>
      mapM (λ i, ok_or (fb.v_i64 v i) (Said [T "a variadic count is truncated"]))
        (seqZ 0 (fb.len v))
  end.

(** The walk before its first column. *)
Definition walk_start (b : fb.Table) (bd : Body) (v : Z) (p : option P) :
    result stop (Walk P) :=
  c ← fb.table b batch.COMPRESSION;
  if bool_decide (is_Some c) && negb (bool_decide (is_Some p))
  then say [T "the record batch is compressed and its reader inflates nothing"]
  else
    length ← fb.i64 b batch.LENGTH 0;
    if length <? 0
    then say [T "the record batch has a negative row count ("; N length; T ")"]
    else
      ns ← fb.vector b batch.NODES batch.ENTRY;
      ns ← ok_or ns (Said [T "the record batch has no field nodes"]);
      bs ← fb.vector b batch.BUFFERS batch.ENTRY;
      bs ← ok_or bs (Said [T "the record batch has no buffers"]);
      cs ← variadic_counts b;
      Ok (mk_Walk (entries ns) (entries bs) cs bd v p (mk_Walked [] [])).

(** The walk, and the plan it leaves. *)
Definition walk (b : fb.Table) (bd : Body) (v : Z) (fields : list Ty.Field) (p : option P) :
    result stop Walked * option P :=
  match walk_start b bd v p with
  | Err e => (Err e, p)
  | Ok w => let '(r, w) := walk_fields fields w in (r, plan w)
  end.

End walk.

(** ** The columnar layout *)

(** The fields of a list laid out one after the other. *)
Definition laid_out (g : Ty.Field → list Z → option (nat * nat * list Z)) :
    list Ty.Field → list Z → option (nat * nat * list Z) :=
  fix go l cs :=
    match l with
    | [] => Some (0%nat, 0%nat, cs)
    | f :: l =>
        '(n, b, cs) ← g f cs;
        '(n', b', cs) ← go l cs;
        Some ((n + n')%nat, (b + b')%nat, cs)
    end.

Definition with_own (n b : nat) (o : option (nat * nat * list Z)) :
    option (nat * nat * list Z) :=
  '(n', b', cs) ← o; Some ((n + n')%nat, (b + b')%nat, cs).

(** The field nodes and the buffers a column takes in the Arrow format of metadata version
    [v], its children's after its own, with the view columns' variadic counts. *)
Fixpoint layout (v : Z) (f : Ty.Field) (cs : list Z) : option (nat * nat * list Z) :=
  let '(Ty.mk_Field _ _ kind) := f in
  match kind with
  | Ty.Null => Some (1%nat, 0%nat, cs)
  | Ty.Boolean | Ty.Primitive _ | Ty.FixedSizeBinary _ | Ty.Dictionary _ _ =>
      Some (1%nat, 2%nat, cs)
  | Ty.Text _ => Some (1%nat, 3%nat, cs)
  | Ty.View =>
      match cs with
      | c :: cs => if 0 <=? c then Some (1%nat, (2 + Z.to_nat c)%nat, cs) else None
      | [] => None
      end
  | Ty.List _ c => with_own 1 2 (layout v c cs)
  | Ty.ListView _ c => with_own 1 3 (layout v c cs)
  | Ty.FixedSizeList _ c => with_own 1 1 (layout v c cs)
  | Ty.Struct l => with_own 1 1 (laid_out (layout v) l cs)
  | Ty.RunEndEncoded r c => with_own 1 0 (laid_out (layout v) [r; c] cs)
  | Ty.Union dense l =>
      with_own 1 ((if (v <? version.V5)%Z then 1 else 0) + (1 + if dense then 1 else 0))
        (laid_out (layout v) l cs)
  end.

Definition to_span (e : Z * Z) : Span := mk_Span e.1 e.2 (umax 64).

Definition in_body (bd : Body) (e : Z * Z) : Prop :=
  0 ≤ e.1 ∧ 0 ≤ e.2 ∧ e.1 + e.2 ≤ b_len bd.

(** A field node with no more nulls than values. *)
Definition node_ok (n : Z * Z) : Prop := 0 ≤ n.2 ≤ n.1.

(** The first pairs of the vector at [slot] of the batch [b], one after the other. *)
Definition read_at (b : fb.Table) (slot : Z) (l : list (Z * Z)) : Prop :=
  ∃ v, fb.vector b slot batch.ENTRY = Ok (Some v) ∧ zlen l ≤ fb.len v ∧
    ∀ i e, l !! i = Some e → fb.element v (Z.of_nat i) ≫= fb.pair = Some e.

(** The variadic counts of the batch [b], all of them. *)
Definition counts_of (b : fb.Table) (cs : list Z) : Prop :=
  fb.vector b batch.VARIADIC 8 = Ok None ∧ cs = [] ∨
  ∃ v, fb.vector b batch.VARIADIC 8 = Ok (Some v) ∧ zlen cs = fb.len v ∧
    ∀ i c, cs !! i = Some c → fb.v_i64 v (Z.of_nat i) = Some c.

(** The fields directly inside a type. *)
Definition inside (k : Ty.t) : list Ty.Field :=
  match k with
  | Ty.List _ c | Ty.ListView _ c | Ty.FixedSizeList _ c => [c]
  | Ty.Struct l | Ty.Union _ l => l
  | Ty.RunEndEncoded r v => [r; v]
  | _ => []
  end.

Lemma field_induction (R : Ty.Field → Prop) :
  (∀ nm nu k, Forall R (inside k) → R (Ty.mk_Field nm nu k)) → ∀ f, R f.
Proof.
  intros H. fix IH 1. intros [nm nu k]. apply H.
  destruct k; simpl; repeat constructor; try apply IH;
    match goal with l : list Ty.Field |- _ =>
      induction l as [|c l IHl]; constructor; [apply IH|exact IHl] end.
Qed.

Section laws.
Context {P : Type} `{!Plan P}.
Implicit Types w : Walk P.

(** What a walk without a plan took from the message: [n] nodes and [b] buffers, the
    buffers now spans of the body. *)
Record took (n b : nat) w w' : Prop := {
  took_nodes : ∃ ns, nodes w = ns ++ nodes w' ∧ length ns = n ∧ Forall node_ok ns;
  took_buffers : ∃ bs, buffers w = bs ++ buffers w' ∧ length bs = b ∧
    spans (walked w') = spans (walked w) ++ (to_span <$> bs) ∧ Forall (in_body (body w)) bs;
  took_body : body w' = body w;
  took_ver : ver w' = ver w;
  took_plan : plan w' = plan w;
  took_columns : columns (walked w') = columns (walked w);
}.

Lemma took_refl w : took 0 0 w w.
Proof.
  split; try done; [by exists []|]. exists []. split; [done|]. split; [done|].
  split; [|done]. by rewrite app_nil_r.
Qed.

Lemma took_trans n b n' b' w w1 w2 :
  took n b w w1 → took n' b' w1 w2 → took (n + n') (b + b') w w2.
Proof.
  intros [(ns & En & Ln & Fn) (bs & Eb & Lb & Es & F) Bd Ve Pl Co]
    [(ns' & En' & Ln' & Fn') (bs' & Eb' & Lb' & Es' & F') Bd' Ve' Pl' Co'].
  split; try congruence.
  - exists (ns ++ ns'). rewrite <- app_assoc, <- En', length_app. split; [done|]. split; [lia|].
    by apply Forall_app.
  - exists (bs ++ bs'). rewrite <- app_assoc, <- Eb', length_app, fmap_app, app_assoc, <- Es.
    split; [done|]. split; [lia|]. split; [done|]. rewrite Bd in F'. by apply Forall_app.
Qed.

(** The call ends without a panic, and what it took satisfies [Q] when it succeeds. *)
Definition goes {A} (c : M (Walk P) stop A) w (Q : A → nat → nat → Walk P → Prop) : Prop :=
  wp c (λ r w', match r with
    | Ok a => ∃ n b, took n b w w' ∧ Q a n b w'
    | Err (Said _) => True
    | Err _ => False
    end) w.

Lemma goes_bind {A B} (c : M (Walk P) stop A) (k : A → M (Walk P) stop B) w Q R :
  goes c w Q →
  (∀ a n b w1, took n b w w1 → Q a n b w1 →
     goes (k a) w1 (λ x n' b' w2, R x (n + n')%nat (b + b')%nat w2)) →
  goes (c ≫= k) w R.
Proof.
  unfold goes. intros Hc Hk. apply wp_bind. eapply wp_mono; [exact Hc|]. intros [a|[]] w1; try done.
  intros (n & b & Ht & HQ). eapply wp_mono; [by apply (Hk a n b)|]; simpl.
  intros [x|[]] w2; try done. intros (n' & b' & Ht' & HR). eexists _, _.
  split; [by eapply took_trans|done].
Qed.

Lemma goes_ret {A} (a : A) w Q : Q a 0%nat 0%nat w → goes (mret a) w Q.
Proof. intros HQ. exists 0%nat, 0%nat. split; [apply took_refl|done]. Qed.

Lemma goes_gets {A} (f : Walk P → A) w Q : Q (f w) 0%nat 0%nat w → goes (gets f) w Q.
Proof. intros HQ. exists 0%nat, 0%nat. split; [apply took_refl|done]. Qed.

Lemma goes_fail {A} t w (Q : A → nat → nat → Walk P → Prop) : goes (fail (Said t)) w Q.
Proof. done. Qed.

Lemma goes_lift {A} (r : result stop A) w (Q : A → nat → nat → Walk P → Prop) :
  gives r (λ a, Q a 0%nat 0%nat w) → goes (lift r) w Q.
Proof.
  unfold goes, wp, lift. destruct r as [a|[]]; simpl; try done.
  intros HQ. exists 0%nat, 0%nat. split; [apply took_refl|done].
Qed.

Lemma goes_mono {A} (c : M (Walk P) stop A) w (Q R : A → nat → nat → Walk P → Prop) :
  goes c w Q → (∀ a n b w', took n b w w' → Q a n b w' → R a n b w') → goes c w R.
Proof.
  unfold goes. intros H HQ. eapply wp_mono; [exact H|]. intros [a|[]] w'; try done.
  intros (n & b & Ht & Hq). eauto.
Qed.

Lemma node_goes f w :
  goes (node f) w (λ _ n b w', n = 1%nat ∧ b = 0%nat ∧ variadic w' = variadic w).
Proof.
  unfold goes, wp, node. destruct (nodes w) as [|[len nl] ns] eqn:E; [done|].
  destruct (_ && _) eqn:C; simpl; [|done]. eexists _, _. split; [|done]. reflect_bool.
  split; simpl; try done; [exists [(len, nl)]|exists []; by rewrite app_nil_r].
  split; [done|]. split; [done|]. by repeat constructor.
Qed.

Lemma buffer_goes f what rule w :
  plan w = None →
  goes (buffer f what rule) w (λ _ n b w', n = 0%nat ∧ b = 1%nat ∧ variadic w' = variadic w).
Proof.
  intros Hp. unfold buffer. unfold goes. apply wp_bind. unfold wp at 1, next_buffer.
  destruct (buffers w) as [|[o l] bs] eqn:E; [done|]. simpl.
  destruct (_ && _ && _) eqn:Hin; simpl; [|done]. apply wp_bind. unfold wp at 1, planned. simpl.
  rewrite Hp. simpl. apply wp_bind. unfold wp, modify, mret, M_ret. simpl.
  eexists _, _. split; [|done]. split; simpl; try done; [by exists []|].
  exists [(o, l)]. split; [done|]. split; [done|]. split; [done|]. constructor; [|done].
  apply andb_true_iff in Hin as [Hin Hc]. reflect_bool. unfold in_body. simpl.
  destruct (checked_add 64 o l) as [e|] eqn:Ee; [|done].
  apply checked_add_Some in Ee as [-> _]. reflect_bool. lia.
Qed.

Lemma pop_variadic_goes f w :
  goes (pop_variadic f) w (λ c n b w',
    n = 0%nat ∧ b = 0%nat ∧ 0 ≤ c ∧ variadic w = c :: variadic w').
Proof.
  unfold goes, wp, pop_variadic. destruct (variadic w) as [|c cs] eqn:E; [done|].
  destruct (Z.leb_spec 0 c); simpl; [|done]. eexists _, _. split; [|done].
  split; simpl; try done; [by exists []|]. exists []. by rewrite app_nil_r.
Qed.

Lemma whole_gives f s wd what : gives (whole f s wd what) (λ _, True).
Proof. unfold whole. by destruct (is_multiple_of _ _). Qed.

Lemma nulls_gives f n s : gives (nulls f n s) (λ _, True).
Proof. unfold nulls. by destruct (_ && _). Qed.

Lemma goes_whole f s wd what w (R : unit → nat → nat → Walk P → Prop) :
  R tt 0%nat 0%nat w → goes (lift (whole f s wd what)) w R.
Proof. intros HR. apply goes_lift. unfold whole. by destruct (is_multiple_of _ _). Qed.

Lemma goes_nulls f n s w (R : unit → nat → nat → Walk P → Prop) :
  R tt 0%nat 0%nat w → goes (lift (nulls f n s)) w R.
Proof. intros HR. apply goes_lift. unfold nulls. by destruct (_ && _). Qed.

(** A column's own nodes and buffers, one after the other. *)
Lemma node_then {B} f (k : Node → M (Walk P) stop B) w R :
  (∀ n w1, plan w1 = plan w → ver w1 = ver w → variadic w1 = variadic w →
     goes (k n) w1 (λ x n b w2, R x (S n) b w2)) →
  goes (node f ≫= k) w R.
Proof.
  intros Hk. eapply goes_bind; [apply node_goes|]. intros n ? ? w1 T (-> & -> & V).
  apply Hk; [apply T|apply T|done].
Qed.

Lemma buffer_then {B} f what rule (k : Span → M (Walk P) stop B) w R :
  plan w = None →
  (∀ s w1, plan w1 = None → ver w1 = ver w → variadic w1 = variadic w →
     goes (k s) w1 (λ x n b w2, R x n (S b) w2)) →
  goes (buffer f what rule ≫= k) w R.
Proof.
  intros Hp Hk. eapply goes_bind; [by apply buffer_goes|]. intros s ? ? w1 T (-> & -> & V).
  apply Hk; [by rewrite (took_plan _ _ _ _ T)|apply T|done].
Qed.

Lemma whole_then {B} f s wd what (k : unit → M (Walk P) stop B) w R :
  goes (k tt) w R → goes (lift (whole f s wd what) ≫= k) w R.
Proof.
  intros Hk. eapply goes_bind; [apply (goes_whole _ _ _ _ _ (λ _ n b w', n = 0%nat ∧ b = 0%nat ∧ w' = w)); done|].
  intros [] ? ? w1 _ (-> & -> & ->). exact Hk.
Qed.

Lemma nulls_then {B} f n s (k : unit → M (Walk P) stop B) w R :
  goes (k tt) w R → goes (lift (nulls f n s) ≫= k) w R.
Proof.
  intros Hk. eapply goes_bind; [apply (goes_nulls _ _ _ _ (λ _ n b w', n = 0%nat ∧ b = 0%nat ∧ w' = w)); done|].
  intros [] ? ? w1 _ (-> & -> & ->). exact Hk.
Qed.

Lemma view_buffers_goes f count w :
  plan w = None →
  goes (each (λ _, buffer f "view data" Rule.Free) (replicate count tt)) w
    (λ _ n b w', n = 0%nat ∧ b = count ∧ variadic w' = variadic w).
Proof.
  revert w. induction count as [|count IH]; intros w Hp; simpl; [by apply goes_ret|].
  apply buffer_then; [done|]. intros s w1 Hp1 _ V1.
  eapply goes_mono; [by apply IH|]. intros ? n b w2 _ (-> & -> & V). split; [done|].
  split; [done|congruence].
Qed.

(** [array], with the layout of its field. *)
Definition array_lays (f : Ty.Field) : Prop :=
  ∀ w, plan w = None →
  goes (array f) w (λ _ n b w', layout (ver w) f (variadic w) = Some (n, b, variadic w')).

Lemma array_then {B} f (k : option Span → M (Walk P) stop B) w R :
  array_lays f → plan w = None →
  (∀ s n b w1, plan w1 = None → ver w1 = ver w →
     layout (ver w) f (variadic w) = Some (n, b, variadic w1) →
     goes (k s) w1 (λ x n' b' w2, R x (n + n')%nat (b + b')%nat w2)) →
  goes (array f ≫= k) w R.
Proof.
  intros Hf Hp Hk. eapply goes_bind; [by apply Hf|]. intros s n b w1 T E.
  apply Hk; [by rewrite (took_plan _ _ _ _ T)|apply T|done].
Qed.

Lemma each_lays l w :
  Forall array_lays l → plan w = None →
  goes (each array l) w (λ _ n b w',
    laid_out (layout (ver w)) l (variadic w) = Some (n, b, variadic w')).
Proof.
  intros Hl. revert w. induction Hl as [|f l Hf Hl IH]; intros w Hp; simpl; [by apply goes_ret|].
  apply array_then; [done|done|]. intros s n b w1 Hp1 Ev E. rewrite E. simpl.
  eapply goes_mono; [by apply IH|]. intros ? n' b' w2 _ E'. rewrite Ev in E'. rewrite E'. done.
Qed.

Lemma union_parts_goes f dense w :
  plan w = None →
  goes (union_parts f dense) w (λ _ n b w', n = 1%nat ∧ variadic w' = variadic w ∧
    b = ((if (ver w <? version.V5)%Z then 1 else 0) + (1 + if dense then 1 else 0))%nat).
Proof.
  intros Hp. unfold union_parts. apply node_then. intros n w1 Hp1 Ev1 V1. rewrite Hp in Hp1.
  eapply goes_bind; [apply (goes_gets _ _ (λ v n b w', n = 0%nat ∧ b = 0%nat ∧ w' = w1 ∧ v = ver w)); done|].
  intros v ? ? ? _ (-> & -> & -> & ->).
  eapply (goes_bind _ _ _ (λ _ n b w', n = 0%nat ∧ variadic w' = variadic w ∧ plan w' = None ∧
    b = (if (ver w <? version.V5)%Z then 1 else 0)%nat)).
  { destruct (ver w <? version.V5); [|by apply goes_ret].
    apply buffer_then; [done|]. intros. apply goes_ret. split_and!; congruence || done. }
  intros _ ? ? w2 T2 (-> & V2 & Hp2 & ->). apply buffer_then; [done|].
  intros ids w3 Hp3 Ev3 V3. destruct (s_len ids <? n_len n); [apply goes_fail|].
  destruct dense.
  - apply buffer_then; [done|]. intros offsets w4 Hp4 Ev4 V4.
    destruct (match checked_mul _ _ _ with Some _ => _ | None => _ end); [apply goes_fail|].
    eapply goes_bind; [apply (goes_gets _ _ (λ v n b w', n = 0%nat ∧ b = 0%nat ∧ w' = w4 ∧ v = w4)); done|].
    intros ? ? ? ? _ (-> & -> & -> & ->). rewrite Hp4. destruct (is_multiple_of _ _); [|apply goes_fail].
    apply goes_ret. split; [done|]. split; [congruence|lia].
  - apply goes_ret. split; [done|]. split; [congruence|lia].
Qed.

(** Runs through a column's own parts, then its children. *)
Ltac walk_parts :=
  repeat first
    [ apply node_then; intros ? ? ? ? ?
    | apply buffer_then; [congruence|]; intros ? ? ? ? ?
    | apply whole_then
    | apply nulls_then ].

(** The child's layout, read where the parent started. *)
Ltac lays_child :=
  cbv beta in *; apply goes_ret; cbn [layout];
  match goal with
  | E : ?l ?v ?c ?cs = Some _ |- with_own _ _ (?l ?v' ?c ?cs') = _ =>
      assert (l v' c cs' = Some _) as -> by (etransitivity; [|exact E]; congruence)
  end; simpl; do 2 f_equal; try congruence; f_equal; lia.

Lemma array_lays_all f : array_lays f.
Proof.
  revert f. apply field_induction. intros nm nu k Hin w Hp.
  destruct k as [| |wd|wd|wd| |wd c|wd c|sz c|l|r c|wd v|dense l]; cbn [array];
    try (walk_parts; by apply goes_ret; simpl; congruence); simpl in Hin.
  - eapply goes_bind; [apply pop_variadic_goes|]. intros c ? ? w1 T (-> & -> & Hc & V).
    assert (plan w1 = None) by (by rewrite (took_plan _ _ _ _ T)). walk_parts.
    eapply goes_bind; [by apply view_buffers_goes|].
    intros ? ? ? w4 _ (-> & -> & V4). walk_parts. apply goes_ret. simpl. rewrite V.
    destruct (Z.leb_spec 0 c); [|lia]. rewrite V4. do 2 f_equal; try congruence; f_equal; lia.
  - apply Forall_cons in Hin as [Hin _]. walk_parts. apply array_then; [done|congruence|].
    intros. lays_child.
  - apply Forall_cons in Hin as [Hin _]. walk_parts. apply array_then; [done|congruence|].
    intros. lays_child.
  - apply Forall_cons in Hin as [Hin _]. walk_parts. destruct (checked_mul _ _ _); [|apply goes_fail].
    apply array_then; [done|congruence|]. intros. lays_child.
  - walk_parts. eapply goes_bind; [apply each_lays; [done|congruence]|]. intros. lays_child.
  - apply Forall_cons in Hin as [Hr Hin]. apply Forall_cons in Hin as [Hin _]. walk_parts.
    apply array_then; [done|congruence|]. intros s n1 b1 wr Hp1 Ev1 E1.
    eapply (goes_bind _ _ _ (λ _ n b w', n = 0%nat ∧ b = 0%nat ∧ w' = wr)).
    { destruct s; [by apply goes_whole|by apply goes_ret]. }
    intros ? ? ? ? _ (-> & -> & ->). apply array_then; [done|done|].
    intros ? n2 b2 wc _ _ E2. apply goes_ret. simpl.
    assert (layout (ver w) r (variadic w) = Some (n1, b1, variadic wr)) as -> by congruence.
    simpl. assert (layout (ver w) c (variadic wr) = Some (n2, b2, variadic wc)) as -> by congruence.
    simpl. repeat f_equal; lia.
  - eapply goes_bind; [by apply union_parts_goes|]. intros ? ? ? w1 T (-> & V1 & ->).
    eapply goes_bind; [apply each_lays; [done|by rewrite (took_plan _ _ _ _ T)]|].
    rewrite (took_ver _ _ _ _ T), V1. intros ? n2 b2 w2 _ E2. apply goes_ret. cbn [layout].
    rewrite E2. simpl. repeat f_equal; lia.
Qed.

(** The nodes and the buffers of each column, in the layout's number. *)
Inductive laid (v : Z) :
    list Ty.Field → list (list (Z * Z)) → list (list (Z * Z)) → list Z → list Z → Prop :=
| laid_nil cs : laid v [] [] [] cs cs
| laid_cons f fs ns nss bs bss cs cs1 cs2 :
    layout v f cs = Some (length ns, length bs, cs1) → laid v fs nss bss cs1 cs2 →
    laid v (f :: fs) (ns :: nss) (bs :: bss) cs cs2.

(** The ranges of columns one after the other. *)
Fixpoint ranges {A} (start : nat) (bss : list (list A)) : list (nat * nat) :=
  match bss with
  | [] => []
  | bs :: bss => (start, (start + length bs)%nat) :: ranges (start + length bs) bss
  end.

(** What the columns of [fs] leave. *)
Record tops (fs : list Ty.Field) w w' : Prop := {
  tops_plan : plan w' = None;
  tops_laid : ∃ nss bss, laid (ver w) fs nss bss (variadic w) (variadic w') ∧
    nodes w = concat nss ++ nodes w' ∧ Forall node_ok (concat nss) ∧
    buffers w = concat bss ++ buffers w' ∧
    spans (walked w') = spans (walked w) ++ (to_span <$> concat bss) ∧
    columns (walked w') = columns (walked w) ++ ranges (length (spans (walked w))) bss ∧
    Forall (in_body (body w)) (concat bss);
}.

Lemma top_spec f w :
  plan w = None →
  wp (top f) (λ r w', match r with
    | Ok _ => ∃ ns bs,
        layout (ver w) f (variadic w) = Some (length ns, length bs, variadic w') ∧
        nodes w = ns ++ nodes w' ∧ Forall node_ok ns ∧
        buffers w = bs ++ buffers w' ∧
        spans (walked w') = spans (walked w) ++ (to_span <$> bs) ∧
        columns (walked w') =
          columns (walked w) ++ [(length (spans (walked w)), length (spans (walked w')))] ∧
        Forall (in_body (body w)) bs ∧ plan w' = None ∧ ver w' = ver w ∧ body w' = body w
    | Err (Said _) => True
    | Err _ => False
    end) w.
Proof.
  intros Hp. unfold top. apply wp_bind. unfold wp at 1. simpl. apply wp_bind.
  pose proof (array_lays_all f w Hp) as H. unfold goes in H. eapply wp_mono; [exact H|].
  intros [s|[]] w1; try done.
  intros (n & b & [(ns & En & <- & Fn) (bs & Eb & <- & Es & F) Bd Ve Pl Co] & E).
  unfold wp. simpl. exists ns, bs. rewrite Co. split_and!; try done. by rewrite Pl.
Qed.

Lemma each_top_spec fs w :
  plan w = None →
  wp (each top fs) (λ r w', match r with
    | Ok _ => tops fs w w'
    | Err (Said _) => True
    | Err _ => False
    end) w.
Proof.
  revert w. induction fs as [|f fs IH]; intros w Hp.
  { unfold wp. simpl. split; [done|]. exists [], []. simpl. rewrite !app_nil_r.
    split_and!; try done. constructor. }
  simpl. apply wp_bind. eapply wp_mono; [by apply top_spec|]. intros [u|[]] w1; try done.
  intros (ns & bs & E & En & Fn & Eb & Es & Ec & F & Hp1 & Ev & Ebd).
  eapply wp_mono; [by apply IH|]. intros [x|[]] w2; try done.
  intros [Hp2 (nss & bss & L & En2 & Fn2 & Eb2 & Es2 & Ec2 & F2)]. split; [done|].
  exists (ns :: nss), (bs :: bss).
  rewrite Ev in L. rewrite Ebd in F2. simpl. split_and!.
  - by econstructor.
  - by rewrite <- app_assoc, <- En2.
  - by apply Forall_app.
  - by rewrite <- app_assoc, <- Eb2.
  - by rewrite fmap_app, app_assoc, <- Es.
  - rewrite Ec2, Ec, Es, length_app, length_fmap, <- app_assoc. done.
  - by apply Forall_app.
Qed.

Lemma walk_fields_spec fs w :
  plan w = None → walked w = mk_Walked [] [] →
  wp (walk_fields fs) (λ r _, gives r (λ wd, ∃ nss bss,
    laid (ver w) fs nss bss (variadic w) [] ∧
    concat nss `prefix_of` nodes w ∧ Forall node_ok (concat nss) ∧
    concat bss `prefix_of` buffers w ∧
    spans wd = to_span <$> concat bss ∧ columns wd = ranges 0 bss ∧
    Forall (in_body (body w)) (concat bss))) w.
Proof.
  intros Hp Hw. unfold walk_fields. apply wp_bind.
  eapply wp_mono; [by apply each_top_spec|]. intros [u|[]] w1; try done.
  intros [_ (nss & bss & L & En & Fn & Eb & Es & Ec & F)]. rewrite Hw in *. simpl in *.
  apply wp_bind. unfold wp at 1. simpl. unfold wp. destruct (variadic w1) eqn:Ev; [|done].
  simpl. exists nss, bss. split_and!; try done; by eexists.
Qed.

(** Every entry of a vector of pairs is read. *)
Lemma entries_read v l :
  vector_ok v → fb.width v = batch.ENTRY → l `prefix_of` entries v →
  zlen l ≤ fb.len v ∧ ∀ i e, l !! i = Some e → fb.element v (Z.of_nat i) ≫= fb.pair = Some e.
Proof.
  intros Hv Hw [k Hk].
  assert (Forall2 (λ i e, fb.element v i ≫= fb.pair = Some e) (seqZ 0 (fb.len v)) (entries v)) as F.
  { unfold entries. assert (Forall (λ i, 0 ≤ i < fb.len v) (seqZ 0 (fb.len v))) as H.
    { apply Forall_forall. intros i Hi%elem_of_seqZ. lia. }
    induction H as [|i l0 Hi _ IH]; csimpl; [constructor|].
    pose proof (element_spec v i Hv (proj1 Hi) ltac:(by rewrite Hw)) as El.
    destruct (fb.element v i) as [b|] eqn:Eb; [|lia]. csimpl.
    destruct (pair_spec b) as (x & y & E & _); [by rewrite (proj2 El)|].
    rewrite E. constructor; [|done]. by rewrite Eb. }
  split.
  - apply Forall2_length in F. rewrite Hk, length_app, length_seqZ in F.
    destruct (vector_len v Hv) as [? _]. unfold zlen. lia.
  - intros i e He. assert (entries v !! i = Some e) as He' by (rewrite Hk; by apply lookup_app_l_Some).
    destruct (Forall2_lookup_r _ _ _ i e F He') as (z & Hz & E).
    apply lookup_seqZ in Hz as [-> _]. exact E.
Qed.

Lemma variadic_counts_gives b :
  table_ok b → gives (variadic_counts b) (counts_of b).
Proof.
  intros Hb. unfold variadic_counts. pose proof (vector_gives b batch.VARIADIC Hb ltac:(done) 8 ltac:(done)) as G.
  destruct (fb.vector b batch.VARIADIC 8) as [[v|]|[]] eqn:E; simpl in *; try done; [|by left].
  destruct (G v eq_refl) as (Hv & _). destruct (mapM _ _) as [cs|e] eqn:M; simpl.
  - right. exists v. split; [done|]. apply mapM_Ok in M. split.
    + apply Forall2_length in M. rewrite length_seqZ in M. destruct (vector_len v Hv). unfold zlen. lia.
    + intros i c Hc. destruct (Forall2_lookup_r _ _ _ i c M Hc) as (z & Hz & Ez).
      apply lookup_seqZ in Hz as [-> _]. change (0 + Z.of_nat i) with (Z.of_nat i) in Ez.
      by destruct (fb.v_i64 v (Z.of_nat i)); simplify_eq/=.
  - pose proof (gives_mapM (λ i, ok_or (fb.v_i64 v i) (Said [T "a variadic count is truncated"]))
      (λ _, True) (seqZ 0 (fb.len v))) as GM. rewrite M in GM. apply GM.
    intros i _. by destruct (fb.v_i64 v i).
Qed.

(** The walk reads its message without a panic. *)
Lemma walk_start_gives b bd v (p : option P) :
  table_ok b →
  gives (walk_start b bd v p) (λ w, plan w = p ∧ walked w = mk_Walked [] [] ∧ ver w = v ∧
    body w = bd ∧ counts_of b (variadic w) ∧
    (∀ l, l `prefix_of` nodes w → read_at b batch.NODES l) ∧
    (∀ l, l `prefix_of` buffers w → read_at b batch.BUFFERS l)).
Proof.
  intros Hb. unfold walk_start. eapply gives_bind; [by apply table_gives|]. intros c _.
  destruct (_ && _); [done|]. eapply gives_bind; [by apply i64_gives|]. intros len _. cbv beta.
  destruct (len <? 0); [done|].
  pose proof (vector_gives b batch.NODES Hb ltac:(done) batch.ENTRY ltac:(done)) as Gn.
  destruct (fb.vector b batch.NODES batch.ENTRY) as [[ns|]|[]] eqn:En; simpl in *; try done.
  pose proof (vector_gives b batch.BUFFERS Hb ltac:(done) batch.ENTRY ltac:(done)) as Gb.
  destruct (fb.vector b batch.BUFFERS batch.ENTRY) as [[bs|]|[]] eqn:Eb; simpl in *; try done.
  eapply gives_bind; [by apply variadic_counts_gives|]. intros cs Hcs. simpl.
  destruct (Gn ns eq_refl) as (Hn & Wn & _). destruct (Gb bs eq_refl) as (Hbs & Wb & _).
  split_and!; try done; intros l Hl; eexists; (split; [done|]); by apply entries_read.
Qed.

(** What an accepted batch is: its first nodes and buffers, column after column in the number
    the layout gives, with all of its variadic counts. *)
Definition follows (b : fb.Table) (bd : Body) (v : Z) (fs : list Ty.Field) (wd : Walked) : Prop :=
  ∃ cs nss bss, counts_of b cs ∧ read_at b batch.NODES (concat nss) ∧
    read_at b batch.BUFFERS (concat bss) ∧ laid v fs nss bss cs [] ∧
    Forall node_ok (concat nss) ∧ Forall (in_body bd) (concat bss) ∧
    spans wd = to_span <$> concat bss ∧ columns wd = ranges 0 bss.

(** The walk over [b] without a plan: it ends without a panic, and what it accepts is laid
    out as the format says, inside the body. *)
Lemma walk_spec b bd v fs :
  table_ok b → gives (walk b bd v fs None).1 (follows b bd v fs).
Proof.
  intros Hb. unfold walk. pose proof (walk_start_gives b bd v None Hb) as G.
  destruct (walk_start b bd v None) as [w|e]; simpl in *; [|done].
  destruct G as (Hp & Hw & Hv & Hbd & Hc & Hn & Hbs).
  pose proof (walk_fields_spec fs w Hp Hw) as H.
  unfold wp in H. destruct (walk_fields fs w) as [r w']. simpl in *.
  eapply gives_mono; [exact H|]. intros wd (nss & bss & L & Pn & Fn & Pb & Es & Ec & F).
  exists (variadic w), nss, bss. rewrite <- Hv, <- Hbd. split_and!; auto.
Qed.

End laws.

