(* ===== verification/ArrowFrame.v ===== *)
(** * The framing of a record

    [src/kernel/plane/check/src/frame.rs]: the lengths of a record's two messages, the
    record batch message's buffer entries and body length, and the page-aligned layout of
    the body, rewritten in place.  The theorems show that the layout places the buffers on
    pages, in order and apart, and that no reader of a framing panics. *)

From S2P Require Import Prelude ArrowFormat Flatbuf.
Definition CONTINUATION : list byte := [xff; xff; xff; xff].
Definition END_OF_STREAM : list byte := [xff; xff; xff; xff; x00; x00; x00; x00].
Definition BUFFER_ENTRY := batch.ENTRY.

Definition round_up (value to : Z) : Z := saturating_mul 64 (div_ceil value to) to.

(** The four bytes at [at_] as a [u32]; the caller has checked that they are there. *)
Definition word_at (bytes : list byte) (at_ : Z) : result stop Z :=
  le_dec <$> slice bytes at_ (at_ +! 4).

Definition message_len (bytes : list byte) : result stop Z :=
  if zlen bytes <? 8 then say [T "a message header needs 8 bytes"]
  else
    m ← slice bytes 0 4;
    if negb (bool_decide (m = CONTINUATION))
    then say [T "the continuation marker is missing"]
    else
      len ← word_at bytes 4;
      if len =? 0 then say [T "the message length is zero"]
      else if zlen bytes -! 8 <? len
      then say [T "a message of "; N len; T " bytes is past the end of the buffer"]
      else Ok len.

(** The total framing length, once both message headers are there. *)
Definition framing_target (framing : list byte) : result stop (option Z) :=
  if zlen framing <? 8 then Ok None
  else
    m ← slice framing 0 4;
    if negb (bool_decide (m = CONTINUATION))
    then say [T "the continuation marker is missing"]
    else
      first ← word_at framing 4;
      let rb_start := 8 +! first in
      if zlen framing <? rb_start +! 8 then Ok None
      else
        m ← slice framing rb_start (rb_start +! 4);
        if negb (bool_decide (m = CONTINUATION))
        then say [T "the record batch message's continuation marker is missing"]
        else
          second ← word_at framing (rb_start +! 4);
          Ok (Some (rb_start +! 8 +! second)).

(** The message flatbuffer and its root table. *)
Definition root (bytes : list byte) : result stop (list byte * fb.Table) :=
  len ← message_len bytes;
  flatbuffer ← slice bytes 8 (8 +! len);
  table ← map_err (after [T "record batch message: "]) (fb.root flatbuffer);
  Ok (flatbuffer, table).

Definition record_batch (bytes : list byte) : result stop fb.Table :=
  '(_, m) ← root bytes;
  kind ← fb.u8 m message.HEADER_TYPE header.NONE;
  if negb (kind =? header.RECORD_BATCH) then say [T "the message is not a record batch"]
  else
    o ← fb.table m message.HEADER;
    ok_or o (Said [T "the message is not a record batch"]).

(** Where the buffer entries begin in the message, and how many there are. *)
Definition entries_span (m : list byte) : result stop (Z * Z) :=
  b ← record_batch m;
  o ← fb.vector b batch.BUFFERS BUFFER_ENTRY;
  v ← ok_or o (Said [T "the record batch has no buffers"]);
  Ok (8 +! fb.data v, fb.len v).

Definition buffer_entry (m : list byte) (start i : Z) : result stop (Z * Z) :=
  let at_ := start +! i *! BUFFER_ENTRY in
  match get_range m at_ (at_ +! BUFFER_ENTRY) ≫= fb.pair with
  | None => say [T "a buffer entry is outside the message"]
  | Some (off, len) =>
      if (off <? 0) || (len <? 0)
      then say [T "a buffer entry has a negative offset or length"]
      else Ok (off, len)
  end.

(** The [(offset, length)] of every buffer entry. *)
Definition buffer_entries (m : list byte) : result stop (list (Z * Z)) :=
  '(start, count) ← entries_span m;
  mapM (buffer_entry m start) (seqZ 0 count).

(** Where [bodyLength] lives in the message. *)
Definition body_length_at (m : list byte) : result stop (option Z) :=
  '(flatbuffer, t) ← root m;
  p ← fb.position t message.BODY_LENGTH;
  match p with
  | Some a =>
      if a +! 8 <=? zlen flatbuffer then Ok (Some (8 +! a))
      else say [T "the message flatbuffer is truncated"]
  | None => Ok None
  end.

Definition body_length (bytes : list byte) : result stop Z :=
  '(_, t) ← root bytes;
  fb.i64 t message.BODY_LENGTH 0.

(** [message[at_..at_ + bs.len()].copy_from_slice(bs)]. *)
Definition copy_into (m : list byte) (at_ : Z) (bs : list byte) : result stop (list byte) :=
  _ ← slice m at_ (at_ +! zlen bs);
  Ok (put_range m at_ bs).

(** The calls on [&mut message] return the bytes they leave. *)
Definition write_body_length (m : list byte) (length : Z) : result stop (list byte) :=
  o ← body_length_at m;
  m ← match o with
      | Some a => copy_into m a (le_enc 8 length)
      | None =>
          if length =? 0 then Ok m
          else say [T "the record batch message has no body length to set"]
      end;
  l ← body_length m;
  if negb (wrap 64 l =? length)
  then say [T "the record batch message's body length did not take"]
  else Ok m.

Definition write_entry (m : list byte) (index off len : Z) : result stop (list byte) :=
  '(start, count) ← entries_span m;
  if count <=? index
  then say [T "buffer entry "; N index; T " of "; N count; T " does not exist"]
  else
    let at_ := start +! index *! BUFFER_ENTRY in
    m ← copy_into m at_ (le_enc 8 off);
    copy_into m (at_ +! 8) (le_enc 8 len).

(** The loop of [page_layout] over the buffers' lengths: each one's absolute place and its
    place relative to the body, with the cursor and the body's end. *)
Fixpoint place (page body_base : Z) (lengths : list Z) (cursor body_end : Z) :
    list Z * list (Z * Z) * Z :=
  match lengths with
  | [] => ([], [], body_end)
  | length :: lengths =>
      let relative := cursor -! body_base in
      let body_end := if length =? 0 then body_end else Z.max body_end (relative +! length) in
      let '(placed, layout, e) :=
        place page body_base lengths (round_up (cursor +! length) page) body_end in
      (cursor :: placed, (relative, length) :: layout, e)
  end.

(** Each entry rewritten to its place; an empty buffer's is clamped to the body's end. *)
Fixpoint write_entries (m : list byte) (body_len : Z) (i : Z) (layout : list (Z * Z)) :
    result stop (list byte) :=
  match layout with
  | [] => Ok m
  | (relative, length) :: layout =>
      let a := if length =? 0 then Z.min relative body_len else relative in
      m ← write_entry m i a length;
      write_entries m body_len (i + 1) layout
  end.

(** [page_layout]: the framing rewritten, and each buffer's absolute offset. *)
Definition page_layout (framing : list byte) (lengths : list Z) (page base_offset : Z) :
    result stop (list byte * list Z) :=
  if page =? 0 then say [T "page size is zero"]
  else if negb (is_multiple_of base_offset page)
  then say [T "base offset "; N base_offset; T " is not a multiple of "; N page]
  else
    len ← message_len framing;
    let rb_start := len +! 8 in
    let framing_len := zlen framing in
    let cursor := base_offset +! round_up framing_len page in
    let body_base := base_offset +! framing_len in
    let '(placed, layout, body_end) := place page body_base lengths cursor 0 in
    let body_len := round_up body_end 8 in
    rb ← slice framing rb_start (zlen framing);
    rb ← write_entries rb body_len 0 layout;
    rb ← write_body_length rb body_len;
    Ok (take (Z.to_nat rb_start) framing ++ rb, placed).

(** ** No message makes a reader of the framing panic *)

Lemma slice_gives {A} (l : list A) lo hi :
  0 ≤ lo ≤ hi → hi ≤ zlen l → gives (slice l lo hi) (λ s, zlen s = hi - lo).
Proof.
  intros H1 H2. unfold slice. destruct (get_range l lo hi) as [s|] eqn:E; simpl.
  - by apply get_range_length in E.
  - apply get_range_None in E. tauto.
Qed.

Lemma word_at_gives b at_ :
  small b → 0 ≤ at_ → at_ + 4 ≤ zlen b → gives (word_at b at_) (λ z, 0 ≤ z < 2 ^ 32).
Proof.
  intros Hs Ha Hb. unfold word_at, small in *. nowrap. apply gives_fmap.
  eapply gives_mono; [apply slice_gives; lia|]. intros l Hl. cbv beta in Hl.
  pose proof (le_dec_range l) as R. by replace (zlen l) with 4 in R by lia.
Qed.

Lemma message_len_gives b :
  small b → gives (message_len b) (λ len, 0 < len < 2 ^ 32 ∧ 8 + len ≤ zlen b).
Proof.
  intros Hs. unfold message_len. destruct (Z.ltb_spec (zlen b) 8); [done|].
  eapply gives_bind; [apply slice_gives; lia|]. intros m _. destruct (negb _); [done|].
  eapply gives_bind; [apply word_at_gives; [done|lia|lia]|]. intros len [Hl Hl'].
  unfold small in Hs. nowrap. destruct (Z.eqb_spec len 0); [done|].
  destruct (Z.ltb_spec (zlen b - 8) len); [done|]. simpl. lia.
Qed.

Lemma root_message_gives b :
  small b → gives (root b) (λ x, table_ok x.2 ∧ fb.buf x.2 = x.1 ∧ small x.1 ∧ zlen x.1 + 8 ≤ zlen b).
Proof.
  intros Hs. unfold root. eapply gives_bind; [by apply message_len_gives|]. intros len [Hl Hl'].
  unfold small in Hs. nowrap. eapply gives_bind; [apply slice_gives; lia|]. intros f Hf.
  cbv beta in Hf. assert (small f) as Hsf by (unfold small; lia).
  eapply gives_bind; [apply gives_map_err; [apply after_said|by apply root_gives]|].
  intros t (Ht & Eb & _). simpl. split_and!; try done. lia.
Qed.

Lemma record_batch_gives b :
  small b → gives (record_batch b) (λ t, table_ok t ∧ zlen (fb.buf t) + 8 ≤ zlen b).
Proof.
  intros Hs. unfold record_batch. eapply gives_bind; [by apply root_message_gives|].
  intros [f t] (Ht & Eb & Hsf & Hlen). simpl in *.
  eapply gives_bind; [by eapply gives_True, u8_gives|]. intros k _. destruct (negb _); [done|].
  eapply gives_bind; [by apply table_gives|]. intros [c|] Hc; [|done]. simpl.
  destruct (Hc c eq_refl) as (Hc' & Ebc & _). split; [done|]. by rewrite Ebc, Eb.
Qed.

Lemma entries_span_gives m :
  small m → gives (entries_span m) (λ x, 8 ≤ x.1 ∧ 0 ≤ x.2 ∧ x.1 + x.2 * 16 ≤ zlen m).
Proof.
  intros Hs. unfold entries_span. eapply gives_bind; [by apply record_batch_gives|].
  intros t [Ht Hlen]. eapply gives_bind; [by apply vector_gives|].
  intros [v|] Hv; [|done]. destruct (Hv v eq_refl) as (Hok & Hw & Eb & _). simpl.
  destruct Hok as [Hsv [Hd He] (Hn & _ & El) _]. unfold small in *. rewrite Eb in *.
  change (fb.width v = 16) in Hw. rewrite Hw in El. nowrap. simpl. lia.
Qed.

Lemma entries_span_count m : small m → gives (entries_span m) (λ x, x.2 < 2 ^ 32).
Proof.
  intros Hs. unfold entries_span. eapply gives_bind; [by apply record_batch_gives|].
  intros t [Ht Hlen]. eapply gives_bind; [by apply vector_gives|].
  intros [v|] Hv; [|done]. destruct (Hv v eq_refl) as (Hok & _). simpl. apply (vector_len v Hok).
Qed.

Lemma copy_into_gives m at_ bs :
  small m → 0 ≤ at_ → at_ + zlen bs ≤ zlen m →
  gives (copy_into m at_ bs) (λ m', length m' = length m).
Proof.
  intros Hs Ha Hb. unfold copy_into, small in *. pose proof (zlen_nonneg bs). nowrap.
  eapply gives_bind; [apply slice_gives; lia|]. intros _ _. simpl. by apply put_range_length.
Qed.

Lemma small_length (m m' : list byte) : length m' = length m → small m → small m'.
Proof. unfold small, zlen. by intros ->. Qed.

Lemma write_entry_gives m i off len :
  small m → 0 ≤ i → gives (write_entry m i off len) (λ m', length m' = length m).
Proof.
  intros Hs Hi. unfold write_entry. eapply gives_bind; [by apply entries_span_gives|].
  intros [start count] (H1 & H2 & H3). cbn [fst snd] in *. destruct (Z.leb_spec count i); [done|].
  unfold BUFFER_ENTRY, batch.ENTRY, small in *. nowrap.
  eapply gives_bind; [apply copy_into_gives; [done|lia|rewrite zlen_le_enc; lia]|].
  intros m' Hm'. cbv beta in Hm'.
  eapply gives_mono; [apply copy_into_gives|].
  - by eapply small_length.
  - lia.
  - unfold zlen in *. rewrite Hm', le_enc_length. lia.
  - intros m2 Hm2. congruence.
Qed.

Lemma write_entries_gives m bl i l :
  small m → 0 ≤ i → gives (write_entries m bl i l) (λ m', length m' = length m).
Proof.
  revert m i. induction l as [|[rel len] l IH]; intros m i Hs Hi; simpl; [done|].
  eapply gives_bind; [by apply write_entry_gives|]. intros m' Hm'. cbv beta in Hm'.
  eapply gives_mono; [apply IH; [by eapply small_length|lia]|]. simpl. congruence.
Qed.

Lemma body_length_gives b :
  small b → gives (body_length b) (λ z, -2 ^ 63 ≤ z < 2 ^ 63).
Proof.
  intros Hs. unfold body_length. eapply gives_bind; [by apply root_message_gives|].
  intros [f t] (Ht & _). simpl in *. by apply i64_gives.
Qed.

Lemma write_body_length_gives m l :
  small m → gives (write_body_length m l) (λ m', length m' = length m).
Proof.
  intros Hs. unfold write_body_length.
  eapply (gives_bind _ _ (λ o, ∀ a, o = Some a → 0 ≤ a ∧ a + 8 ≤ zlen m)).
  { unfold body_length_at. eapply gives_bind; [by apply root_message_gives|].
    intros [f t] (Ht & Eb & Hsf & Hl). simpl in *.
    eapply gives_bind; [by apply position_gives|]. intros [a|] Ha; [|done].
    specialize (Ha a eq_refl). destruct (table_loc t Ht) as [Ht1 Ht2]. rewrite Eb in Ht2.
    unfold small in *. nowrap. destruct (Z.leb_spec (a + 8) (zlen f)); [|done].
    simpl. intros x [= <-]. lia. }
  intros o Ho. eapply (gives_bind _ _ (λ m', length m' = length m)).
  { destruct o as [a|]; [|by destruct (l =? 0)]. destruct (Ho a eq_refl).
    apply copy_into_gives; [done|done|by rewrite zlen_le_enc]. }
  intros m' Hm'. eapply gives_bind; [apply body_length_gives; by eapply small_length|].
  intros z _. by destruct (negb _).
Qed.

Lemma page_layout_gives framing lengths page base :
  small framing →
  gives (page_layout framing lengths page base) (λ x, length x.1 = length framing).
Proof.
  intros Hs. unfold page_layout. destruct (page =? 0); [done|]. destruct (negb _); [done|].
  eapply gives_bind; [by apply message_len_gives|]. intros len [Hl Hl'].
  destruct (place _ _ _ _ _) as [[placed layout] body_end]. unfold small in Hs.
  assert (len +! 8 = len + 8) as -> by (nowrap; done).
  eapply gives_bind; [apply slice_gives; lia|]. intros rb Hrb. cbv beta in Hrb.
  assert (small rb) by (unfold small; lia).
  eapply gives_bind; [by apply write_entries_gives|]. intros rb1 H1. cbv beta in H1.
  eapply gives_bind; [apply write_body_length_gives; by eapply small_length|].
  intros rb2 H2. cbv beta in H2. simpl. rewrite length_app, length_take. unfold zlen in *. lia.
Qed.

Lemma buffer_entries_gives m :
  small m →
  gives (buffer_entries m) (Forall (λ e, 0 ≤ e.1 < 2 ^ 63 ∧ 0 ≤ e.2 < 2 ^ 63)).
Proof.
  intros Hs. unfold buffer_entries. eapply gives_bind; [by apply entries_span_gives|].
  intros [start count] _. eapply gives_mono; [apply gives_mapM|by intros l [H _]; exact H].
  intros i _. unfold buffer_entry. destruct (get_range _ _ _) as [b|] eqn:G; [|done]. simpl.
  destruct (fb.pair b) as [[o l]|] eqn:E; [|done]. unfold fb.pair in E.
  destruct (get_range b 0 8) as [x|] eqn:Gx; [|done].
  destruct (get_range b 8 16) as [y|] eqn:Gy; [|done]. simpl in E. simplify_eq.
  apply get_range_length in Gx, Gy.
  pose proof (signed_le_dec 64 x ltac:(done) ltac:(lia)).
  pose proof (signed_le_dec 64 y ltac:(done) ltac:(lia)).
  destruct (_ || _) eqn:Hn; [done|]. reflect_bool. simpl. lia.
Qed.

(** ** What the rewriting leaves *)

(** The bytes of [m'] are those of [m] but at the places [R]. *)
Definition same_but (R : Z → Prop) (m m' : list byte) : Prop :=
  length m' = length m ∧ ∀ i, ¬ R (Z.of_nat i) → m' !! i = m !! i.

Definition between (lo hi : Z) : Z → Prop := λ i, lo ≤ i < hi.

Lemma same_but_trans (R S T : Z → Prop) m m1 m2 :
  same_but R m m1 → same_but S m1 m2 → (∀ i, R i → T i) → (∀ i, S i → T i) → same_but T m m2.
Proof.
  intros [L E] [L' E'] HR HS. split; [congruence|]. intros i Hi. rewrite E', E; auto.
Qed.

Lemma same_but_mono (R T : Z → Prop) m m' :
  same_but R m m' → (∀ i, R i → T i) → same_but T m m'.
Proof. intros [L E] HR. split; [done|]. auto. Qed.

Lemma put_range_same (m bs : list byte) lo :
  0 ≤ lo → lo + zlen bs ≤ zlen m → same_but (between lo (lo + zlen bs)) m (put_range m lo bs).
Proof.
  intros Hlo Hb. split; [by apply put_range_length|]. intros i Hi. unfold put_range, between, zlen in *.
  destruct (decide (Z.of_nat i < lo)).
  - rewrite lookup_app_l by (rewrite length_take; lia). by rewrite lookup_take_lt by lia.
  - rewrite lookup_app_r by (rewrite length_take; lia).
    rewrite lookup_app_r by (rewrite length_take; lia).
    rewrite lookup_drop, length_take. f_equal. lia.
Qed.

Lemma put_range_reads (m bs : list byte) lo :
  0 ≤ lo → lo + zlen bs ≤ zlen m → get_range (put_range m lo bs) lo (lo + zlen bs) = Some bs.
Proof.
  intros Hlo Hb. unfold put_range. apply get_range_app; unfold zlen in *; rewrite length_take; lia.
Qed.

Lemma get_range_same R (m m' : list byte) lo hi :
  same_but R m m' → (∀ i, lo ≤ i < hi → ¬ R i) → get_range m' lo hi = get_range m lo hi.
Proof.
  intros [L E] HR. destruct (get_range m lo hi) as [s|] eqn:G.
  - apply get_range_Some in G as (H1 & H2 & ->). apply get_range_Some. unfold zlen in *. rewrite L.
    split; [done|]. split; [done|]. apply list_eq. intros i.
    destruct (decide (Z.of_nat i < hi - lo)).
    + rewrite !lookup_take_lt, !lookup_drop by lia. symmetry. apply E, HR. lia.
    + by rewrite !lookup_take_ge by lia.
  - apply get_range_None in G. apply get_range_None. unfold zlen in *. by rewrite L.
Qed.

Lemma copy_into_Ok m at_ bs m' :
  copy_into m at_ bs = Ok m' → m' = put_range m at_ bs.
Proof. intros H. unfold copy_into in H. by inv_ok. Qed.

(** One entry written. *)
Lemma write_entry_Ok m i off len m' start count :
  small m → 0 ≤ i → entries_span m = Ok (start, count) → write_entry m i off len = Ok m' →
  0 ≤ start ∧ i < count ∧ start + count * 16 ≤ zlen m ∧
  same_but (between (start + i * 16) (start + i * 16 + 16)) m m' ∧
  get_range m' (start + i * 16) (start + i * 16 + 8) = Some (le_enc 8 off) ∧
  get_range m' (start + i * 16 + 8) (start + i * 16 + 16) = Some (le_enc 8 len).
Proof.
  intros Hs Hi Hsp H. pose proof (entries_span_gives m Hs) as G. rewrite Hsp in G.
  destruct G as (G1 & G2 & G3). cbn [fst snd] in *. unfold write_entry in H. rewrite Hsp in H.
  cbn -[le_enc] in H. destruct (Z.leb_spec count i); [done|].
  unfold BUFFER_ENTRY, batch.ENTRY, small in *.
  assert (start +! i *! 16 = start + i * 16) as E by (nowrap; done). rewrite E in H.
  set (p := start + i * 16) in *. assert (0 ≤ p ∧ p + 16 ≤ zlen m) as [Hp Hp'] by (subst p; lia).
  assert (p +! 8 = p + 8) as E8 by (nowrap; done). rewrite E8 in H.
  apply result_bind_Ok in H as (m1 & H1 & H2).
  assert (∀ z, zlen (le_enc 8 z) = 8) as Z8 by (intros; by rewrite zlen_le_enc).
  apply copy_into_Ok in H1, H2.
  pose proof (put_range_same m (le_enc 8 off) p Hp ltac:(rewrite Z8; lia)) as S1.
  pose proof (put_range_reads m (le_enc 8 off) p Hp ltac:(rewrite Z8; lia)) as R1.
  rewrite Z8, <- H1 in S1, R1. assert (zlen m1 = zlen m) as L1 by (unfold zlen; f_equal; apply S1).
  pose proof (put_range_same m1 (le_enc 8 len) (p + 8) ltac:(lia) ltac:(rewrite Z8; lia)) as S2.
  pose proof (put_range_reads m1 (le_enc 8 len) (p + 8) ltac:(lia) ltac:(rewrite Z8; lia)) as R2.
  rewrite Z8, <- H2 in S2, R2. replace (p + 8 + 8) with (p + 16) in * by lia.
  split_and!; try done; try lia.
  - eapply same_but_trans; [exact S1|exact S2| |]; unfold between; lia.
  - rewrite <- R1. eapply get_range_same; [exact S2|]. unfold between. lia.
Qed.

(** The entries of a message are where they are whatever the entries say. *)
Definition span_kept (m : list byte) (start count : Z) : Prop :=
  ∀ m', same_but (between start (start + count * 16)) m m' → entries_span m' = Ok (start, count).

Definition entry_of (body_len : Z) (e : Z * Z) : Z * Z :=
  (if e.2 =? 0 then Z.min e.1 body_len else e.1, e.2).

Lemma write_entries_Ok m bl i l m' start count :
  small m → 0 ≤ i → span_kept m start count → write_entries m bl i l = Ok m' →
  0 ≤ start ∧ start + count * 16 ≤ zlen m ∧
  same_but (between (start + i * 16) (start + (i + zlen l) * 16)) m m' ∧
  (l ≠ [] → i + zlen l ≤ count) ∧
  ∀ k e, l !! k = Some e →
    let p := start + (i + Z.of_nat k) * 16 in
    get_range m' p (p + 8) = Some (le_enc 8 (entry_of bl e).1) ∧
    get_range m' (p + 8) (p + 16) = Some (le_enc 8 (entry_of bl e).2).
Proof.
  revert m i. induction l as [|[rel len] l IH]; intros m i Hs Hi K H; simpl in H.
  { assert (entries_span m = Ok (start, count)) as Hsp by (by apply K).
    pose proof (entries_span_gives m Hs) as G. rewrite Hsp in G. destruct G as (? & ? & ?).
    inv_ok. simpl in *. split_and!; try done; lia. }
  apply result_bind_Ok in H as (m1 & H1 & H). rewrite zlen_cons.
  apply (write_entry_Ok _ _ _ _ _ start count) in H1 as (P1 & P2 & P3 & S1 & R1 & R2);
    [|done|done|by apply K].
  assert (small m1) as Hs1 by (eapply small_length; [apply S1|done]).
  assert (span_kept m1 start count) as K1.
  { intros m2 S2. apply K. eapply same_but_trans; [exact S1|exact S2| |]; unfold between; lia. }
  destruct (IH m1 (i + 1) Hs1 ltac:(lia) K1 H) as (_ & _ & S2 & Hc & R).
  pose proof (zlen_nonneg l). split_and!; try done.
  - eapply same_but_trans; [exact S1|exact S2| |]; unfold between; lia.
  - intros _. destruct l as [|x l]; [unfold zlen; simpl; lia|]. specialize (Hc ltac:(done)). lia.
  - intros [|k] e He p; simpl in He.
    + injection He as <-. unfold p. rewrite Z.add_0_r.
      split; (erewrite get_range_same; [|exact S2|unfold between; lia]); done.
    + specialize (R k e He). cbv zeta in R. unfold p.
      replace (i + Z.of_nat (S k)) with (i + 1 + Z.of_nat k) by lia. exact R.
Qed.

Lemma mapM_intro {A B} (g : A → result stop B) l k :
  Forall2 (λ a b, g a = Ok b) l k → mapM g l = Ok k.
Proof. induction 1 as [|a b l k E _ IH]; simpl; [done|]. by rewrite E, IH. Qed.

(** An entry read back. *)
Lemma buffer_entry_reads m start i a l :
  0 ≤ start + i * 16 → start + i * 16 + 16 ≤ zlen m → small m → 0 ≤ i < 2 ^ 32 → 0 ≤ start →
  0 ≤ a < 2 ^ 63 → 0 ≤ l < 2 ^ 63 →
  get_range m (start + i * 16) (start + i * 16 + 8) = Some (le_enc 8 a) →
  get_range m (start + i * 16 + 8) (start + i * 16 + 16) = Some (le_enc 8 l) →
  buffer_entry m start i = Ok (a, l).
Proof.
  intros H1 H2 Hs Hi Hst Ha Hl Ra Rl. unfold buffer_entry, BUFFER_ENTRY, batch.ENTRY, small in *.
  assert (start +! i *! 16 = start + i * 16) as -> by (nowrap; done).
  set (p := start + i * 16) in *. assert (p +! 16 = p + 16) as -> by (nowrap; done).
  apply get_range_Some in Ra as (_ & _ & Ra), Rl as (_ & _ & Rl).
  assert (get_range m p (p + 16) = Some (le_enc 8 a ++ le_enc 8 l)) as ->.
  { apply get_range_Some. split; [lia|]. split; [lia|]. rewrite Ra, Rl.
    replace (Z.to_nat (p + 16 - p)) with (Z.to_nat (p + 8 - p) + Z.to_nat (p + 16 - (p + 8)))%nat by lia.
    rewrite <- take_take_drop, drop_drop. do 3 f_equal. lia. }
  cbn -[le_enc fb.pair]. unfold fb.pair.
  assert (get_range (le_enc 8 a ++ le_enc 8 l) 0 8 = Some (le_enc 8 a)) as ->.
  { apply (get_range_app []); by rewrite ?zlen_le_enc. }
  assert (get_range (le_enc 8 a ++ le_enc 8 l) 8 16 = Some (le_enc 8 l)) as ->.
  { pose proof (get_range_app (le_enc 8 a) (le_enc 8 l) [] 8 16) as E. rewrite app_nil_r in E.
    apply E; by rewrite !zlen_le_enc. }
  cbn -[le_enc le_dec]. rewrite !le_dec_enc_small by (unfold in_width; simpl; lia). unfold signed.
  change (2 ^ (64 - 1)) with (2 ^ 63).
  destruct (Z.ltb_spec a (2 ^ 63)); [|lia]. destruct (Z.ltb_spec l (2 ^ 63)); [|lia].
  destruct (Z.ltb_spec a 0); [lia|]. destruct (Z.ltb_spec l 0); [lia|]. done.
Qed.

(** ** The layout *)

Lemma round_up_spec v to :
  0 < to → 0 ≤ v → v + to < 2 ^ 64 →
  v ≤ round_up v to < v + to ∧ round_up v to mod to = 0.
Proof.
  intros Ht Hv Hb. unfold round_up, saturating_mul, div_ceil, umax.
  pose proof (Z.div_mod v to ltac:(lia)) as E. pose proof (Z.mod_pos_bound v to Ht).
  destruct (Z.ltb_spec 0 (v mod to)).
  - rewrite Z.min_l by nia. split; [nia|]. apply Z.mod_mul. lia.
  - assert (v mod to = 0) by lia. rewrite Z.min_l by nia. split; [nia|]. apply Z.mod_mul. lia.
Qed.

(** The next multiple of [to], and the places of buffers put on pages one after the other. *)
Definition up (to v : Z) : Z := (v + (to - 1)) / to * to.

Fixpoint pages (page c : Z) (lengths : list Z) : list Z :=
  match lengths with
  | [] => []
  | l :: lengths => c :: pages page (up page (c + l)) lengths
  end.

(** How far the non-empty buffers reach past [base]. *)
Definition reach (base : Z) (placed lengths : list Z) : Z :=
  foldr Z.max 0 (zip_with (λ p l, if l =? 0 then 0 else p - base + l) placed lengths).

Lemma reach_nonneg base placed lengths : 0 ≤ reach base placed lengths.
Proof. unfold reach. induction (zip_with _ placed lengths); simpl; lia. Qed.

Lemma round_up_up v to : 0 < to → 0 ≤ v → v + to < 2 ^ 64 → round_up v to = up to v.
Proof.
  intros Ht Hv Hb. destruct (round_up_spec v to Ht Hv Hb) as [H1 H2]. unfold up.
  apply Z.mod_divide in H2 as [q E]; [|lia]. rewrite E in *. f_equal.
  apply (Z.div_unique _ _ _ (v + (to - 1) - q * to)); lia.
Qed.

(** The buffers are on pages, each at or after the end of the one before it. *)
Fixpoint apart (page cursor : Z) (lengths placed : list Z) : Prop :=
  match lengths, placed with
  | [], [] => True
  | l :: ls, p :: ps => cursor ≤ p ∧ p mod page = 0 ∧ apart page (p + l) ls ps
  | _, _ => False
  end.

(** The bytes a layout may take: each buffer and a page. *)
Definition span_of (page : Z) (lengths : list Z) : Z := sumZ ((λ l, l + page) <$> lengths).

Lemma apart_le page c c' lengths placed :
  c' ≤ c → apart page c lengths placed → apart page c' lengths placed.
Proof. intros Hc. destruct lengths, placed; simpl; try done. intros (? & ?). split; [lia|done]. Qed.

Lemma place_spec page base lengths cursor body_end :
  0 < page → 0 ≤ base ≤ cursor → cursor mod page = 0 → Forall (λ l, 0 ≤ l) lengths →
  cursor + span_of page lengths < 2 ^ 64 → 0 ≤ body_end →
  let '(placed, layout, e) := place page base lengths cursor body_end in
  apart page cursor lengths placed ∧ layout = zip_with (λ p l, (p - base, l)) placed lengths ∧
  placed = pages page cursor lengths ∧ e = Z.max body_end (reach base placed lengths) ∧
  body_end ≤ e ≤ Z.max body_end (cursor + span_of page lengths - base) ∧
  Forall2 (λ p l, 0 < l → p - base + l ≤ e) placed lengths.
Proof.
  intros Hp. revert cursor body_end.
  induction lengths as [|l ls IH]; intros cursor e0 Hb Hm Hl Hs He; simpl.
  { split_and!; try done; unfold reach; simpl; lia. }
  apply Forall_cons in Hl as [Hl0 Hl]. unfold span_of in Hs. rewrite fmap_cons, sumZ_cons in Hs.
  fold (span_of page ls) in Hs.
  assert (0 ≤ span_of page ls) as Hspan.
  { apply sumZ_nonneg, Forall_fmap. eapply Forall_impl; [exact Hl|]. simpl. lia. }
  nowrap. set (e1 := if l =? 0 then e0 else _).
  assert (0 ≤ e1 ∧ e0 ≤ e1 ≤ Z.max e0 (cursor - base + l) ∧ (0 < l → cursor - base + l ≤ e1))
    as (He1 & He1' & He1'').
  { subst e1. destruct (Z.eqb_spec l 0); lia. }
  destruct (round_up_spec (cursor + l) page Hp ltac:(lia) ltac:(lia)) as [Hr Hr'].
  specialize (IH (round_up (cursor + l) page) e1 ltac:(lia) Hr' Hl ltac:(lia) He1).
  destruct (place page base ls _ e1) as [[placed layout] e].
  destruct IH as (IH1 & -> & Ep & Ee & IH2 & IH3). simpl.
  assert (span_of page (l :: ls) = l + page + span_of page ls) as -> by done.
  rewrite (round_up_up (cursor + l) page) in Ep by lia.
  split; [|split; [done|split; [by rewrite Ep|split; [|split; [lia|]]]]].
  2:{ unfold reach in *. simpl. rewrite Ee. subst e1. destruct (Z.eqb_spec l 0); lia. }
  - split; [lia|]. split; [done|]. by apply (apart_le _ (round_up (cursor + l) page)); [lia|].
  - constructor; [|done]. intros Hl1. specialize (He1'' Hl1). lia.
Qed.
