(* ===== verification/ArrowRecord.v ===== *)
(** * The data plane's record check

    [src/kernel/plane/check/src/record.rs]: the framing's need, the check of a record a task
    hands back, and a stream's messages laid out as a record. *)

From S2P Require Import Prelude ArrowFormat Flatbuf ArrowSchema ArrowWalk ArrowFrame.
Definition PAGE := 4096.
Definition FRAMING_MAX := Z.shiftl 1 20.

(** How much of a record's start its framing needs. *)
Inductive Need := More (n : Z) | Framing (n : Z).

Record Column := mk_Column { c_name : list byte; c_buffers : list (Z * Z) }.

Record Record_ := mk_Record {
  body_start : Z;
  r_body_length : Z;
  rows : Z;
  fields : list Ty.Field;
  r_buffers : list (Z * Z);
  r_columns : list Column;
}.

Definition word (bytes : list byte) (at_ : Z) : option Z :=
  le_dec <$> get_range bytes at_ (at_ +! 4).

(** The closure [marker]. *)
Definition marker (prefix : list byte) (at_ : Z) (which : string) : result stop (option Z) :=
  match get_range prefix at_ (at_ +! 4) with
  | None => Ok None
  | Some m =>
      if bool_decide (m = CONTINUATION) then Ok (word prefix (at_ +! 4))
      else say [T "the record's "; T which;
                T " message does not start with the continuation marker"]
  end.

(** The closure [check]. *)
Definition check_len (len : Z) (which : string) (e : Z) : result stop unit :=
  if len =? 0 then say [T "the record's "; T which; T " message has a length of zero"]
  else if FRAMING_MAX <? e
  then say [T "the record's framing reaches byte "; N e; T ", past the "; N FRAMING_MAX;
            T " bytes a framing may take"]
  else Ok tt.

Definition framing_need (prefix : list byte) : result stop Need :=
  o ← marker prefix 0 "first";
  match o with
  | None => Ok (More 8)
  | Some first =>
      let rb_start := 8 +! first in
      _ ← check_len first "first" (rb_start +! 8);
      o ← marker prefix rb_start "second";
      match o with
      | None => Ok (More (rb_start +! 8))
      | Some second =>
          let e := rb_start +! 8 +! second in
          _ ← check_len second "second" e;
          Ok (Framing e)
      end
  end.

(** Where the schema message ends and the record batch message starts, and where that
    ends. *)
Definition stream_parts (framing : list byte) : result stop (Z * Z) :=
  need ← framing_need framing;
  match need with
  | Framing n =>
      if n =? zlen framing then
        len ← message_len framing;
        Ok (8 +! len, n)
      else say [T "the framing is "; N (zlen framing); T " bytes and its two messages take "; N n]
  | More n =>
      say [T "the framing is "; N (zlen framing);
           T " bytes and its two messages need at least "; N n]
  end.

Definition message_table (bytes : list byte) (which : string) : result stop fb.Table :=
  len ← map_err (after [T "the record's "; T which; T " message: "]) (message_len bytes);
  f ← slice bytes 8 (8 +! len);
  map_err (after [T "the record's "; T which; T " message is not a flatbuffer: "]) (fb.root f).

Definition header_table (m : fb.Table) (want : Z) (what : string) : result stop fb.Table :=
  kind ← fb.u8 m message.HEADER_TYPE header.NONE;
  if negb (kind =? want)
  then say ([T "the record's "; T what; T " message is a "] ++ header.name kind
            ++ [T " message"])
  else
    o ← fb.table m message.HEADER;
    ok_or o (Said [T "the record's "; T what; T " message has no header"]).

(** A record batch with no compression. *)
Definition uncompressed (rb : fb.Table) (rest : string) : result stop unit :=
  o ← fb.table rb batch.COMPRESSION;
  match o with
  | None => Ok tt
  | Some packed =>
      c ← fb.i8 packed compression.CODEC 0;
      say ([T "the record batch is compressed with "] ++ compression.codec c ++ [T rest])
  end.

(** A buffer of the record, on a page unless it is empty. *)
Definition place_span (start : Z) (s : Span) : result stop (Z * Z) :=
  let at_ := start +! offset s in
  if (0 <? s_len s) && negb (is_multiple_of at_ PAGE)
  then say [T "a buffer of "; N (s_len s); T " bytes starts at byte "; N at_;
            T " of the record, not on a page boundary ("; N PAGE; T " bytes)"]
  else Ok (at_, s_len s).

(** [buffers.get(range).map(to_vec).unwrap_or_default()]. *)
Definition column_of (buffers : list (Z * Z)) (f : Ty.Field) (range : nat * nat) : Column :=
  mk_Column (Ty.name f)
    (default [] (get_range buffers (Z.of_nat range.1) (Z.of_nat range.2))).

Definition dictionary_field (fs : list Ty.Field) : option Ty.Field :=
  List.find (λ f, Ty.has_dictionary (Ty.kind f)) fs.

(** The schema message's fields. *)
Definition record_fields (schema_message : list byte) : result stop (list Ty.Field) :=
  m ← message_table schema_message "first";
  s ← header_table m header.SCHEMA "first";
  fs ← check_schema s;
  match dictionary_field fs with
  | Some f =>
      say [T "field "; Q (Ty.name f);
           T " is dictionary encoded, and a data-plane record carries no dictionaries"]
  | None => Ok fs
  end.

Definition check_record (framing : list byte) (record_len : Z) : result stop Record_ :=
  '(rb_start, n) ← stream_parts framing;
  let start := zlen framing in
  if record_len <? start
  then say [T "the record is "; N record_len; T " bytes and its framing alone takes "; N start]
  else
    sm ← slice framing 0 rb_start;
    fs ← record_fields sm;
    bm ← slice framing rb_start n;
    m ← message_table bm "second";
    meta ← fb.i16 m message.VERSION version.V1;
    if negb (meta =? version.V4) && negb (meta =? version.V5)
    then say ([T "the record's batch has metadata version "] ++ version.name meta
              ++ [T ", and a data-plane record is V4 or V5"])
    else
      rb ← header_table m header.RECORD_BATCH "second";
      _ ← uncompressed rb ", and a data-plane record may inflate 0 bytes: a record on the data plane is never compressed";
      let room := record_len -! start in
      declared ← fb.i64 m message.BODY_LENGTH 0;
      if negb ((0 <=? declared) && (declared <=? room))
      then say [T "the record batch declares a body of "; N declared;
                T " bytes and the record holds "; N room; T " after its framing"]
      else
        w ← (walk (P := Empty_set) rb (mk_Body room (zlen framing)) meta fs None).1;
        buffers ← mapM (place_span start) (spans w);
        r ← fb.i64 rb batch.LENGTH 0;
        Ok (mk_Record start declared (wrap 64 r) fs buffers
              (zip_with (column_of buffers) fs (columns w))).

(** ** A stream's messages as a record *)

Record Reframed := mk_Reframed {
  rf_framing : list byte;
  record_len : Z;
  moves : list (Z * Z * Z);
}.

(** A message as long as it declares. *)
Definition whole_message (bytes : list byte) (which : string) : result stop unit :=
  len ← map_err (after [T "the "; T which; T " message: "]) (message_len bytes);
  if negb (zlen bytes =? 8 +! len)
  then say [T "the "; T which; T " message is "; N (zlen bytes); T " bytes and declares ";
            N (8 +! len)]
  else Ok tt.

(** A buffer entry inside the body. *)
Definition entry_inside (body : Z) (e : nat * (Z * Z)) : result stop unit :=
  let '(i, (off, len)) := e in
  if match checked_add 64 off len with Some x => body <? x | None => true end
  then say [T "buffer "; N (Z.of_nat i); T " of "; N len; T " bytes at "; N off;
            T " is outside the body of "; N body; T " bytes"]
  else Ok tt.

Definition reframe (schema_message batch_message : list byte) : result stop Reframed :=
  _ ← whole_message schema_message "schema";
  _ ← whole_message batch_message "record batch";
  m ← message_table batch_message "second";
  rb ← header_table m header.RECORD_BATCH "second";
  _ ← uncompressed rb ", and a data-plane record is never compressed";
  declared ← fb.i64 m message.BODY_LENGTH 0;
  if declared <? 0
  then say [T "the record batch declares a body of "; N declared; T " bytes"]
  else
    entries ← buffer_entries batch_message;
    _ ← mapM (entry_inside declared) (enumerate entries);
    '(framing, placed) ←
      page_layout (schema_message ++ batch_message) (snd <$> entries) PAGE 0;
    rbm ← slice framing (zlen schema_message) (zlen framing);
    bl ← body_length rbm;
    let moved := List.filter (λ x : Z * Z * Z, 0 <? x.2)
      (zip_with (λ (e : Z * Z) to, (e.1, to, e.2)) entries placed) in
    Ok (mk_Reframed framing (zlen framing +! wrap 64 bl) moved).

(** ** The check neither panics nor runs out of rounds, and what it accepts is sound *)

Lemma marker_gives p at_ which : gives (marker p at_ which) (λ o, ∀ z, o = Some z → 0 ≤ z < 2 ^ 32).
Proof.
  unfold marker. destruct (get_range p at_ (at_ +! 4)); [|done].
  destruct (bool_decide _); [|done]. simpl. intros z Hz. unfold word in Hz.
  destruct (get_range p (at_ +! 4) (at_ +! 4 +! 4)) as [b|] eqn:G; [|done]. simplify_eq/=.
  pose proof (le_dec_range b) as R. apply get_range_length in G as G'. apply get_range_Some in G.
  assert (zlen b ≤ 4).
  { rewrite G'. unfold wadd, wrap in *. pose proof (Z.mod_le ((at_ + 4) mod 2 ^ 64 + 4) (2 ^ 64)
      ltac:(pose proof (Z.mod_pos_bound (at_ + 4) (2 ^ 64)); lia) ltac:(lia)). lia. }
  pose proof (zlen_nonneg b). assert (2 ^ (8 * zlen b) ≤ 2 ^ 32) by (apply Z.pow_le_mono_r; lia).
  lia.
Qed.

Lemma framing_need_gives p : gives (framing_need p) (λ _, True).
Proof.
  unfold framing_need. eapply gives_bind; [apply marker_gives|]. intros [first|] H1; [|done].
  eapply (gives_bind _ _ (λ _, True)).
  { unfold check_len. destruct (first =? 0); [done|]. by destruct (_ <? _). }
  intros _ _. eapply gives_bind; [apply marker_gives|]. intros [second|] H2; [|done].
  eapply (gives_bind _ _ (λ _, True)); [|done].
  unfold check_len. destruct (second =? 0); [done|]. by destruct (_ <? _).
Qed.

Lemma stream_parts_gives f :
  small f → gives (stream_parts f) (λ x, 8 ≤ x.1 ≤ zlen f ∧ x.2 = zlen f).
Proof.
  intros Hs. unfold stream_parts. eapply gives_bind; [apply framing_need_gives|].
  intros [n|n] _; [done|]. destruct (Z.eqb_spec n (zlen f)); [|done].
  eapply gives_bind; [by apply message_len_gives|]. intros len [Hl Hl'].
  unfold small in Hs. nowrap. simpl. lia.
Qed.

Lemma message_table_gives b which : small b → gives (message_table b which) table_ok.
Proof.
  intros Hs. unfold message_table.
  eapply gives_bind; [apply gives_map_err; [apply after_said|by apply message_len_gives]|].
  intros len [Hl Hl']. unfold small in Hs. nowrap.
  eapply gives_bind; [apply slice_gives; lia|]. intros f Hf. cbv beta in Hf.
  apply gives_map_err; [apply after_said|].
  eapply gives_mono; [apply root_gives; unfold small; lia|]. by intros t [Ht _].
Qed.

Lemma header_table_gives m want what :
  table_ok m → gives (header_table m want what) table_ok.
Proof.
  intros Hm. unfold header_table. eapply gives_bind; [by eapply gives_True, u8_gives|].
  intros k _. destruct (negb _); [done|]. eapply gives_bind; [by apply table_gives|].
  intros [c|] Hc; [|done]. simpl. by destruct (Hc c eq_refl).
Qed.

Lemma uncompressed_gives rb rest : table_ok rb → gives (uncompressed rb rest) (λ _, True).
Proof.
  intros Hrb. unfold uncompressed. eapply gives_bind; [by apply table_gives|].
  intros [p|] Hp; [|done]. destruct (Hp p eq_refl) as [Hp' _].
  eapply gives_bind; [by eapply gives_True, i8_gives|]. done.
Qed.

Lemma record_fields_gives sm :
  small sm →
  gives (record_fields sm) (λ fs, forallb field_ok fs = true ∧ dictionary_field fs = None).
Proof.
  intros Hs. unfold record_fields. eapply gives_bind; [by apply message_table_gives|].
  intros m Hm. eapply gives_bind; [by apply header_table_gives|]. intros s Hsch.
  pose proof (check_schema_gives s Hsch) as G. pose proof (checked_fields_ok s) as F.
  destruct (check_schema s) as [fs|[]]; simpl in *; try done.
  destruct (dictionary_field fs) eqn:E; [done|]. simpl. split; [|done]. by apply F.
Qed.

(** The buffers of the columns, put together, are the record's. *)
Lemma column_ranges (buffers : list (Z * Z)) fs (bss : list (list (Z * Z))) pre mid post :
  length fs = length bss → length mid = length (concat bss) → buffers = pre ++ mid ++ post →
  concat (c_buffers <$> zip_with (column_of buffers) fs (ranges (length pre) bss)) = mid.
Proof.
  revert fs pre mid. induction bss as [|bs bss IH]; intros [|f fs] pre mid Hf Hm E; try done.
  { simpl in *. by destruct mid. }
  simpl in *. rewrite length_app in Hm.
  rewrite <- (take_drop (length bs) mid) in E |- *.
  set (m1 := take (length bs) mid) in *. set (m2 := drop (length bs) mid) in *.
  assert (length m1 = length bs) as L1 by (subst m1; rewrite length_take; lia).
  f_equal.
  - rewrite E, <- app_assoc. erewrite (get_range_app pre m1 (m2 ++ post)); [done|done|].
    unfold zlen. simpl. lia.
  - replace (length pre + length bs)%nat with (length (pre ++ m1)) by (rewrite length_app; lia).
    apply IH; [lia|subst m2; rewrite length_drop; lia|]. by rewrite <- !app_assoc, E, <- app_assoc.
Qed.

Lemma laid_length v fs nss bss cs cs' : laid v fs nss bss cs cs' → length fs = length bss.
Proof. induction 1; simpl; congruence. Qed.

Lemma ranges_length {A} n (bss : list (list A)) : length (ranges n bss) = length bss.
Proof. revert n. induction bss; intros; simpl; auto. Qed.

(** A record the check accepted, of [len] bytes. *)
Record sound (framing : list byte) (len : Z) (r : Record_) : Prop := {
  sound_start : body_start r = zlen framing;
  sound_body : 0 ≤ r_body_length r ∧ body_start r + r_body_length r ≤ len;
  sound_fields : forallb field_ok (fields r) = true ∧ dictionary_field (fields r) = None;
  sound_buffers : Forall (λ b, body_start r ≤ b.1 ∧ 0 ≤ b.2 ∧ b.1 + b.2 ≤ len ∧
    (0 < b.2 → b.1 mod PAGE = 0)) (r_buffers r);
  sound_columns : concat (c_buffers <$> r_columns r) = r_buffers r ∧
    c_name <$> r_columns r = Ty.name <$> fields r;
}.

Lemma place_spans_gives start room (bs : list (Z * Z)) :
  0 ≤ start → 0 ≤ room → start + room < 2 ^ 64 →
  Forall (in_body (mk_Body room start)) bs →
  gives (mapM (place_span start) (to_span <$> bs)) (λ l, length l = length bs ∧
    Forall (λ b, start ≤ b.1 ∧ 0 ≤ b.2 ∧ b.1 + b.2 ≤ start + room ∧
      (0 < b.2 → b.1 mod PAGE = 0)) l).
Proof.
  intros Hs Hr Hb F. eapply gives_mono; [apply gives_mapM|].
  - intros s Hin. apply list_elem_of_fmap in Hin as ([o l] & -> & Hin).
    rewrite Forall_forall in F. destruct (F _ Hin) as (H1 & H2 & H3). simpl in *.
    unfold place_span. simpl. nowrap. unfold is_multiple_of, PAGE in *.
    change (4096 =? 0) with false. cbv iota.
    destruct (Z.ltb_spec 0 l); simpl; [|instantiate (1 := λ b, start ≤ b.1 ∧ 0 ≤ b.2 ∧
      b.1 + b.2 ≤ start + room ∧ (0 < b.2 → b.1 mod PAGE = 0)); unfold PAGE; simpl; lia].
    destruct (Z.eqb_spec ((start + o) mod 4096) 0); simpl; [unfold PAGE; simpl; lia|done].
  - intros l [Hl E]. by rewrite E, length_fmap.
Qed.

Lemma check_record_gives framing len :
  small framing → u64 len → gives (check_record framing len) (sound framing len).
Proof.
  intros Hs [Hl Hl']. unfold check_record. eapply gives_bind; [by apply stream_parts_gives|].
  intros [rb_start n] [H1 H2]. cbn [fst snd] in *. subst n. unfold small in Hs.
  destruct (Z.ltb_spec len (zlen framing)); [done|].
  eapply gives_bind; [apply slice_gives; lia|]. intros sm Hsm. cbv beta in Hsm.
  eapply gives_bind; [apply record_fields_gives; unfold small; lia|]. intros fs [Hfs Hd].
  eapply gives_bind; [apply slice_gives; lia|]. intros bm Hbm. cbv beta in Hbm.
  eapply gives_bind; [apply message_table_gives; unfold small; lia|]. intros m Hm.
  eapply gives_bind; [by eapply gives_True, i16_gives|]. intros meta _.
  destruct (negb _ && negb _); [done|].
  eapply gives_bind; [by apply header_table_gives|]. intros rb Hrb.
  eapply gives_bind; [by apply uncompressed_gives|]. intros _ _.
  eapply gives_bind; [by apply i64_gives|]. intros declared _. cbv beta.
  pose proof (zlen_nonneg framing).
  assert (len -! zlen framing = len - zlen framing) as -> by (nowrap; done).
  destruct (negb _) eqn:Hfit; [done|]. reflect_bool. simpl.
  eapply gives_bind; [by apply walk_spec|]. intros w (cs & nss & bss & _ & _ & _ & L & _ & F & Es & Ec).
  rewrite Es. eapply gives_bind; [apply (place_spans_gives _ (len - zlen framing)); [done|lia|lia|exact F]|].
  intros buffers [Lb Fb]. eapply gives_bind; [by eapply gives_True, i64_gives|]. intros r _.
  simpl. pose proof (laid_length _ _ _ _ _ _ L) as Ll. split; simpl; try done.
  - lia.
  - eapply Forall_impl; [exact Fb|]. simpl. intros b (? & ? & ? & ?). split_and!; try done. lia.
  - rewrite Ec. split.
    + apply (column_ranges _ _ _ [] buffers []); [done|done|]. by rewrite app_nil_r.
    + clear Es Ec Lb Hfs Hd L. assert (length fs = length (ranges 0 bss)) as Hlen.
      { by rewrite ranges_length. }
      generalize dependent (ranges 0 bss). clear. intros l Hl. revert l Hl.
      induction fs as [|f fs IH]; intros [|x l] Hl; try done. simpl. f_equal. apply IH. simpl in Hl. lia.
Qed.

(** The check of a record panics on no bytes and always ends, with a record or with the
    sentence that refuses it. *)
Theorem check_record_total framing len :
  small framing → u64 len →
  (∃ r, check_record framing len = Ok r) ∨ (∃ t, check_record framing len = Err (Said t)).
Proof.
  intros Hs Hl. pose proof (check_record_gives framing len Hs Hl) as G.
  destruct (check_record framing len) as [r|[]]; simpl in G; try done; eauto.
Qed.

(** C23: a record the check accepts is one its readers may map: its body lies in the bytes
    put, every buffer lies in them after the framing and every non-empty one on a page, no
    column is dictionary encoded, every column's widths are ones the layout knows, and the
    columns' buffers are the record's, in order. *)
Theorem check_record_sound framing len r :
  small framing → u64 len → check_record framing len = Ok r → sound framing len r.
Proof.
  intros Hs Hl E. pose proof (check_record_gives framing len Hs Hl) as G. by rewrite E in G.
Qed.

(** ** Messages written out *)

(** A [Message] flatbuffer of metadata version V5 with the header table [header] (written
    for position 40), and the whole message. *)
Definition message_fb (kind body hdr_at : Z) (header : list byte) : list byte :=
  le_enc 4 16
  ++ le_enc 2 12 ++ le_enc 2 24 ++ le_enc 2 4 ++ le_enc 2 6 ++ le_enc 2 8 ++ le_enc 2 16
  ++ le_enc 4 12 ++ le_enc 2 4 ++ le_enc 1 kind ++ [x00] ++ le_enc 4 (hdr_at - 24)
  ++ le_enc 4 0 ++ le_enc 8 body ++ header.

Definition framed (f : list byte) : list byte := CONTINUATION ++ le_enc 4 (zlen f) ++ f.

(** A [RecordBatch] of [rows] rows. *)
Definition batch_fb (body rows : Z) (nodes buffers : list (Z * Z)) : list byte :=
  let pairs := λ l : list (Z * Z),
    le_enc 4 (zlen l) ++ concat ((λ e : Z * Z, le_enc 8 e.1 ++ le_enc 8 e.2) <$> l) in
  message_fb header.RECORD_BATCH body 52
    (le_enc 2 10 ++ le_enc 2 20 ++ le_enc 2 8 ++ le_enc 2 4 ++ le_enc 2 16 ++ le_enc 2 0
     ++ le_enc 4 12 ++ le_enc 4 16 ++ le_enc 8 rows ++ le_enc 4 (8 + 16 * zlen nodes)
     ++ pairs nodes ++ pairs buffers).

(** A [Schema] of one 32-bit integer column, ["a"]. *)
Definition schema_fb : list byte :=
  message_fb header.SCHEMA 0 48
    (le_enc 2 8 ++ le_enc 2 8 ++ le_enc 2 0 ++ le_enc 2 4
     ++ le_enc 4 8 ++ le_enc 4 4 ++ le_enc 4 1 ++ le_enc 4 16
     ++ le_enc 2 12 ++ le_enc 2 16 ++ le_enc 2 4 ++ le_enc 2 0 ++ le_enc 2 8 ++ le_enc 2 12
     ++ le_enc 4 12 ++ le_enc 4 12 ++ le_enc 4 types.INT ++ le_enc 4 20
     ++ le_enc 4 1 ++ [x61; x00; x00; x00]
     ++ le_enc 2 6 ++ le_enc 2 8 ++ le_enc 2 4 ++ le_enc 2 0
     ++ le_enc 4 8 ++ le_enc 4 32).

Definition one_framing (buffers : list (Z * Z)) (body : Z) : list byte :=
  framed schema_fb ++ framed (batch_fb body 1 [(1, 0)] buffers).

(** ** A stream's messages laid out *)

(** The moves put each buffer on a page inside the record, after the framing, and apart. *)
Fixpoint moves_apart (cursor last : Z) (l : list (Z * Z * Z)) : Prop :=
  match l with
  | [] => True
  | (_, to, len) :: l =>
      cursor ≤ to ∧ to mod PAGE = 0 ∧ 0 < len ∧ to + len ≤ last ∧ moves_apart (to + len) last l
  end.

Lemma moves_apart_le c c' last l : c' ≤ c → moves_apart c last l → moves_apart c' last l.
Proof. intros Hc. destruct l as [|[[? ?] ?] ?]; simpl; [done|]. intros (? & ?). split; [lia|done]. Qed.

Lemma moves_of_layout c last (entries : list (Z * Z)) placed :
  apart PAGE c (snd <$> entries) placed →
  Forall2 (λ p l, 0 < l → p + l ≤ last) placed (snd <$> entries) →
  Forall (λ e, 0 ≤ e.2) entries →
  moves_apart c last (List.filter (λ x : Z * Z * Z, 0 <? x.2)
    (zip_with (λ (e : Z * Z) to, (e.1, to, e.2)) entries placed)).
Proof.
  revert c placed. induction entries as [|[o l] es IH]; intros c [|p ps] A F E; try done.
  simpl in *. destruct A as (Hc & Hm & A). inversion F as [|? ? ? ? Hl F']; subst.
  apply Forall_cons in E as [E1 E]. simpl in *. specialize (IH _ _ A F' E).
  destruct (Z.ltb_spec 0 l); [|by apply (moves_apart_le (p + l)); [lia|]].
  simpl. split_and!; try done. auto.
Qed.

Lemma write_body_length_reads m l m' :
  write_body_length m l = Ok m' → ∃ z, body_length m' = Ok z ∧ wrap 64 z = l.
Proof.
  unfold write_body_length. intros H. apply result_bind_Ok in H as (o & _ & H).
  apply result_bind_Ok in H as (m1 & _ & H). apply result_bind_Ok in H as (z & Hz & H).
  destruct (Z.eqb_spec (wrap 64 z) l); simpl in H; inv_ok. eauto.
Qed.

Lemma gives_Ok {A} (r : result stop A) (P : A → Prop) a : gives r P → r = Ok a → P a.
Proof. by intros G ->. Qed.

Lemma slice_Ok {A} (l : list A) lo hi s : slice l lo hi = Ok s ↔ get_range l lo hi = Some s.
Proof. unfold slice. destruct (get_range l lo hi); simpl; split; congruence. Qed.

(** Writing the entries and the body length of the message moves neither: what is read to find
    them is elsewhere. *)
Definition separate (m : list byte) : Prop :=
  ∃ start count o,
    let vec := between start (start + count * 16) in
    let field := λ i, ∃ a, o = Some a ∧ between a (a + 8) i in
    (∀ i, vec i → ¬ field i) ∧
    ∀ m', same_but (λ i, vec i ∨ field i) m m' →
      entries_span m' = Ok (start, count) ∧ body_length_at m' = Ok o.

Lemma write_body_length_same m o l m' :
  small m → 0 ≤ l < 2 ^ 63 → body_length_at m = Ok o → write_body_length m l = Ok m' →
  same_but (λ i, ∃ a, o = Some a ∧ between a (a + 8) i) m m' ∧ body_length m' = Ok l.
Proof.
  intros Hs Hl Ho H. assert (body_length m' = Ok l) as Hbl.
  { destruct (write_body_length_reads _ _ _ H) as (z & Hz & Ez). rewrite Hz. f_equal.
    pose proof (write_body_length_gives m l Hs) as G. rewrite H in G.
    pose proof (gives_Ok _ _ _ (body_length_gives m' ltac:(by eapply small_length)) Hz) as Hr.
    unfold wrap in Ez. cbv beta in Hr. destruct (Z.ltb_spec z 0); [|rewrite Z.mod_small in Ez; lia].
    rewrite <- (Z.mod_unique z (2 ^ 64) (-1) (z + 2 ^ 64)) in Ez; lia. }
  split; [|done]. unfold write_body_length in H. rewrite Ho in H. cbn -[le_enc] in H.
  destruct o as [a|].
  - apply result_bind_Ok in H as (m1 & H1 & H). apply result_bind_Ok in H as (z & _ & H).
    destruct (negb _); [done|]. injection H as <-. pose proof H1 as C. unfold copy_into in C.
    apply result_bind_Ok in C as (s & Hsl & _). apply slice_Ok, get_range_Some in Hsl as (G1 & G2 & _).
    apply copy_into_Ok in H1 as ->. rewrite zlen_le_enc in *. unfold small in Hs.
    assert (a +! 8 = a + 8) as E8.
    { apply wrap_small. unfold in_width. change (Z.of_nat 8) with 8 in *. unfold wadd, wrap in *.
      destruct (Z.lt_ge_cases (a + 8) (2 ^ 64)); [lia|]. rewrite <- (Z.mod_unique (a + 8) (2 ^ 64) 1 (a + 8 - 2 ^ 64)) in G1; lia. }
    change (Z.of_nat 8) with 8 in *. rewrite E8 in *.
    pose proof (put_range_same m (le_enc 8 l) a ltac:(lia) ltac:(rewrite zlen_le_enc; lia)) as S.
    eapply same_but_mono; [exact S|]. rewrite zlen_le_enc. intros i Hi. by exists a.
  - destruct (l =? 0); [|done]. apply result_bind_Ok in H as (m1 & [= <-] & H).
    apply result_bind_Ok in H as (z & _ & H). destruct (negb _); [done|]. by injection H as <-.
Qed.

(** The entries and the body length read back. *)
Lemma rewritten_reads rb bl layout rb1 rb2 entries0 :
  small rb → separate rb → buffer_entries rb = Ok entries0 → length entries0 = length layout →
  Forall (λ e : Z * Z, 0 ≤ e.1 < 2 ^ 63 ∧ 0 ≤ e.2 < 2 ^ 63) layout → 0 ≤ bl < 2 ^ 63 →
  write_entries rb bl 0 layout = Ok rb1 → write_body_length rb1 bl = Ok rb2 →
  buffer_entries rb2 = Ok (entry_of bl <$> layout) ∧ body_length rb2 = Ok bl.
Proof.
  intros Hs (start & count & o & Hd & Hsep) He Hlen Hl Hbl H1 H2.
  destruct (Hsep rb ltac:(done)) as [Hsp Ho].
  assert (span_kept rb start count) as K.
  { intros m' S. apply Hsep. eapply same_but_mono; [exact S|auto]. }
  destruct (write_entries_Ok rb bl 0 layout rb1 start count Hs ltac:(lia) K H1) as (P1 & P2 & S1 & _ & R).
  rewrite Z.mul_0_l, Z.add_0_r, Z.add_0_l in S1.
  assert (zlen layout = count ∧ count < 2 ^ 32) as [Hc Hc'].
  { unfold buffer_entries in He. rewrite Hsp in He. simpl in He. apply mapM_Ok, Forall2_length in He.
    rewrite length_seqZ in He. pose proof (entries_span_gives rb Hs) as G. rewrite Hsp in G.
    destruct G as (_ & G & _). simpl in G. unfold zlen. split; [lia|].
    pose proof (entries_span_count rb Hs) as G2. rewrite Hsp in G2. apply G2. }
  rewrite Hc in S1. destruct (Hsep rb1) as [Hsp1 Ho1].
  { eapply same_but_mono; [exact S1|auto]. }
  assert (small rb1) as Hs1 by (eapply small_length; [apply S1|done]).
  destruct (write_body_length_same rb1 o bl rb2 Hs1 Hbl Ho1 H2) as [S2 Hb2]. split; [|done].
  assert (same_but (λ i, between start (start + count * 16) i ∨
    (∃ a, o = Some a ∧ between a (a + 8) i)) rb rb2) as S.
  { eapply same_but_trans; [exact S1|exact S2|auto|auto]. }
  destruct (Hsep rb2 S) as [Hsp2 _]. unfold buffer_entries. rewrite Hsp2. simpl.
  assert (zlen rb2 = zlen rb) as L2 by (unfold zlen; f_equal; apply S).
  apply mapM_intro, Forall2_same_length_lookup. split.
  { rewrite length_seqZ, length_fmap. unfold zlen in Hc. lia. }
  intros k i e Hi Hk. apply lookup_seqZ in Hi as [-> Hi]. rewrite Z.add_0_l.
  apply list_lookup_fmap_Some in Hk as (e0 & -> & Hk). specialize (R k e0 Hk). cbv zeta in R.
  rewrite Z.add_0_l in R. destruct R as [R1 R2].
  rewrite Forall_forall in Hl. destruct (Hl e0 ltac:(by eapply list_elem_of_lookup_2)) as [Hr1 Hr2].
  assert (∀ j, between start (start + count * 16) j → ¬ (∃ a, o = Some a ∧ between a (a + 8) j)) as D by done.
  destruct (entry_of bl e0) as [x y] eqn:Ee. unfold entry_of in Ee. injection Ee as <- <-.
  cbn [fst snd] in R1, R2. unfold small in Hs.
  apply buffer_entry_reads; try done; try lia.
  - unfold small. lia.
  - destruct (e0.2 =? 0); lia.
  - rewrite (get_range_same _ _ _ _ _ S2); [done|]. intros j Hj. apply D. unfold between. lia.
  - rewrite (get_range_same _ _ _ _ _ S2); [done|]. intros j Hj. apply D. unfold between. lia.
Qed.

(** [page_layout] at [base_offset] zero, with no sum past the width. *)
Lemma page_layout_Ok framing lengths f placed :
  small framing → Forall (λ l, 0 ≤ l) lengths →
  zlen framing + PAGE + 8 + span_of PAGE lengths < 2 ^ 64 →
  page_layout framing lengths PAGE 0 = Ok (f, placed) →
  ∃ rb_start z rb1,
    let body_len := up 8 (reach (zlen framing) placed lengths) in
    message_len framing = Ok (rb_start - 8) ∧
    length f = length framing ∧ take (Z.to_nat rb_start) f = take (Z.to_nat rb_start) framing ∧
    body_length (drop (Z.to_nat rb_start) f) = Ok z ∧ wrap 64 z = body_len ∧
    0 ≤ body_len ∧ zlen framing + body_len ≤ zlen framing + PAGE + 8 + span_of PAGE lengths ∧
    placed = pages PAGE (up PAGE (zlen framing)) lengths ∧
    apart PAGE (zlen framing) lengths placed ∧
    Forall2 (λ p l, 0 < l → p + l ≤ zlen framing + body_len) placed lengths ∧
    write_entries (drop (Z.to_nat rb_start) framing) body_len 0
      (zip_with (λ p l, (p - zlen framing, l)) placed lengths) = Ok rb1 ∧
    write_body_length rb1 body_len = Ok (drop (Z.to_nat rb_start) f).
Proof.
  intros Hs Hl Hb H. pose proof (page_layout_gives framing lengths PAGE 0 Hs) as G.
  rewrite H in G. cbn in G. unfold page_layout in H. change (PAGE =? 0) with false in H.
  change (negb (is_multiple_of 0 PAGE)) with false in H. cbv iota in H.
  apply result_bind_Ok in H as (len & Hlen & H).
  pose proof (gives_Ok _ _ _ (message_len_gives framing Hs) Hlen) as [Hl1 Hl2].
  pose proof (zlen_nonneg framing). unfold small in Hs.
  assert (0 ≤ span_of PAGE lengths) as Hsp.
  { apply sumZ_nonneg, Forall_fmap. eapply Forall_impl; [exact Hl|]. unfold PAGE. simpl. lia. }
  destruct (round_up_spec (zlen framing) PAGE ltac:(done) ltac:(lia) ltac:(unfold PAGE in *; lia))
    as [Hr Hr'].
  assert (len +! 8 = len + 8) as E8 by (nowrap; done). rewrite E8 in H.
  assert (∀ z, 0 ≤ z < 2 ^ 64 → 0 +! z = z) as E0 by (intros; nowrap; done).
  rewrite !E0 in H by (unfold PAGE in *; lia).
  pose proof (place_spec PAGE (zlen framing) lengths (round_up (zlen framing) PAGE) 0 ltac:(done)
    ltac:(lia) Hr' Hl ltac:(lia) ltac:(lia)) as PS.
  destruct (place PAGE (zlen framing) lengths _ 0) as [[pl layout] e].
  destruct PS as (A & -> & Ep & Ee & He & F). apply result_bind_Ok in H as (rb & Hrb & H).
  apply result_bind_Ok in H as (rb1 & Hwe & H). apply result_bind_Ok in H as (rb2 & Hw & H).
  apply slice_Ok, get_range_Some in Hrb as (_ & _ & ->). rewrite take_ge in Hwe by (rewrite length_drop; unfold zlen in *; lia).
  injection H as <- ->. destruct (round_up_spec e 8 ltac:(done) ltac:(lia) ltac:(unfold PAGE in *; lia)) as [Hre _].
  pose proof (round_up_up e 8 ltac:(done) ltac:(lia) ltac:(unfold PAGE in *; lia)) as Hup.
  pose proof Hw as Hw'. apply write_body_length_reads in Hw' as (z & Hz & Ez).
  assert (length (take (Z.to_nat (len + 8)) framing) = Z.to_nat (len + 8)) as Lt.
  { rewrite length_take. unfold zlen in *. lia. }
  assert (e = reach (zlen framing) placed lengths) as Ee'
    by (pose proof (reach_nonneg (zlen framing) placed lengths); lia).
  rewrite Ee' in *. rewrite Hup in *. rewrite (round_up_up (zlen framing) PAGE) in Ep by (done || unfold PAGE in *; lia).
  exists (len + 8), z, rb1. split_and!; try done.
  - by replace (len + 8 - 8) with len by lia.
  - rewrite take_app_le by lia. by rewrite take_take, Nat.min_id.
  - by rewrite drop_app_length' by lia.
  - lia.
  - unfold PAGE in *. lia.
  - by apply (apart_le _ (round_up (zlen framing) PAGE)); [lia|].
  - eapply Forall2_impl; [exact F|]. simpl. intros p l Hpl Hl0. specialize (Hpl Hl0). lia.
  - by rewrite drop_app_length' by lia.
Qed.

Lemma get_range_app_l {A} (a b : list A) lo hi s :
  get_range a lo hi = Some s → get_range (a ++ b) lo hi = Some s.
Proof.
  rewrite !get_range_Some. intros (H1 & H2 & ->). rewrite zlen_app. pose proof (zlen_nonneg b).
  split_and!; [lia..|]. unfold zlen in *. rewrite drop_app_le by lia.
  rewrite take_app_le; [done|]. rewrite length_drop. lia.
Qed.

Lemma message_len_app a b len :
  small (a ++ b) → message_len a = Ok len → message_len (a ++ b) = Ok len.
Proof.
  unfold small, message_len. rewrite zlen_app. intros Hs H. pose proof (zlen_nonneg a).
  pose proof (zlen_nonneg b). destruct (Z.ltb_spec (zlen a) 8); [done|].
  destruct (Z.ltb_spec (zlen a + zlen b) 8); [lia|].
  apply result_bind_Ok in H as (m & Hm & H). apply slice_Ok in Hm.
  assert (slice (a ++ b) 0 4 = Ok m) as -> by (apply slice_Ok, get_range_app_l, Hm). simpl.
  destruct (negb _); [done|]. apply result_bind_Ok in H as (w & Hw & H).
  assert (word_at (a ++ b) 4 = Ok w) as ->.
  { unfold word_at in *. apply result_fmap_Ok in Hw as (x & Hx & <-). apply slice_Ok in Hx.
    assert (slice (a ++ b) 4 (4 +! 4) = Ok x) as -> by (apply slice_Ok, get_range_app_l, Hx). done. }
  simpl. destruct (w =? 0); [done|]. revert H. nowrap.
  destruct (Z.ltb_spec (zlen a - 8) w); [done|]. destruct (Z.ltb_spec (zlen a + zlen b - 8) w); [lia|].
  done.
Qed.

Lemma whole_message_Ok b which u :
  small b → whole_message b which = Ok u → message_len b = Ok (zlen b - 8).
Proof.
  intros Hs H. unfold whole_message in H. apply result_bind_Ok in H as (len & Hl & H).
  destruct (message_len b) as [l|e] eqn:E; simplify_eq/=.
  pose proof (gives_Ok _ _ _ (message_len_gives b Hs) E) as [H1 H2]. unfold small in Hs.
  assert (8 +! len = 8 + len) as E8 by (nowrap; done). rewrite E8 in H.
  destruct (Z.eqb_spec (zlen b) (8 + len)); simpl in H; inv_ok. f_equal. lia.
Qed.

(** What [reframe] read and laid out. *)
Lemma reframe_Ok schema_message batch_message entries r :
  buffer_entries batch_message = Ok entries → reframe schema_message batch_message = Ok r →
  ∃ u placed z, whole_message schema_message "schema" = Ok u ∧
    page_layout (schema_message ++ batch_message) (snd <$> entries) PAGE 0 =
      Ok (rf_framing r, placed) ∧
    (length (schema_message ++ batch_message) = length (rf_framing r) →
     body_length (drop (length schema_message) (rf_framing r)) = Ok z) ∧
    record_len r = zlen (rf_framing r) +! wrap 64 z ∧
    moves r = List.filter (λ x : Z * Z * Z, 0 <? x.2)
      (zip_with (λ (e : Z * Z) to, (e.1, to, e.2)) entries placed).
Proof.
  intros He H. unfold reframe in H. apply result_bind_Ok in H as (u1 & Hu & H).
  apply result_bind_Ok in H as (u2 & _ & H). apply result_bind_Ok in H as (m & _ & H).
  apply result_bind_Ok in H as (rb & _ & H). apply result_bind_Ok in H as (u3 & _ & H).
  apply result_bind_Ok in H as (declared & _ & H). destruct (declared <? 0); [done|].
  rewrite He in H. simpl in H. apply result_bind_Ok in H as (u4 & _ & H).
  apply result_bind_Ok in H as ([f placed] & Hp & H). apply result_bind_Ok in H as (rbm & Hrbm & H).
  apply result_bind_Ok in H as (z & Hz & H). injection H as <-. exists u1, placed, z. simpl.
  split_and!; try done. intros Lf. apply slice_Ok, get_range_Some in Hrbm as (_ & _ & ->).
  rewrite take_ge in Hz by (rewrite length_drop; unfold zlen in *; lia).
  unfold zlen in Hz. by rewrite Nat2Z.id in Hz.
Qed.

Lemma up_bounds to v : 0 < to → v ≤ up to v < v + to.
Proof.
  intros Ht. unfold up. pose proof (Z.div_mod (v + (to - 1)) to ltac:(lia)).
  pose proof (Z.mod_pos_bound (v + (to - 1)) to Ht). nia.
Qed.

Lemma pages_bounds page c lengths :
  0 < page → Forall (λ l, 0 ≤ l) lengths →
  Forall (λ p, c ≤ p ≤ c + span_of page lengths) (pages page c lengths).
Proof.
  intros Hp Hl. revert c. induction Hl as [|l ls Hl0 Hl IH]; intros c; simpl; [done|].
  assert (span_of page (l :: ls) = l + page + span_of page ls) as -> by done.
  assert (0 ≤ span_of page ls).
  { apply sumZ_nonneg, Forall_fmap. eapply Forall_impl; [exact Hl|]. simpl. lia. }
  constructor; [lia|]. pose proof (up_bounds page (c + l) Hp).
  eapply Forall_impl; [apply IH|]. simpl. lia.
Qed.

Lemma relaid_entries flen body placed lengths :
  entry_of body <$> zip_with (λ p l, (p - flen, l)) placed lengths =
  zip_with (λ p l, (if l =? 0 then Z.min (p - flen) body else p - flen, l)) placed lengths.
Proof.
  revert placed. induction lengths as [|l ls IH]; intros [|p ps]; simpl; try done. by rewrite IH.
Qed.

Lemma pages_length page c lengths : length (pages page c lengths) = length lengths.
Proof. revert c. induction lengths; intros; simpl; auto. Qed.

(** C27: a stream's messages laid out as a record, when no sum of the layout passes the word.
    The buffers go one after the other to the first page past the framing or past the buffer
    before; the moves are the non-empty entries, in order, each from its offset in the body to
    its place, and so apart, on pages and inside the record; the record ends at the last of them
    rounded up to 8 bytes; the framing keeps its length and its schema message.  And where the
    sums stay below 2^63 and the batch message keeps its entries and its body length apart from
    what is read to find them, the batch message rewritten says just that: its entries are the
    places relative to the framing's end with the old lengths, an empty buffer's not past the
    body, and its body length is the rest of the record. *)
Theorem reframe_lays schema_message batch_message entries r :
  zlen schema_message + zlen batch_message < 2 ^ 63 →
  buffer_entries batch_message = Ok entries →
  zlen schema_message + zlen batch_message + PAGE + 8 + span_of PAGE (snd <$> entries) < 2 ^ 64 →
  reframe schema_message batch_message = Ok r →
  let flen := zlen schema_message + zlen batch_message in
  let lengths := snd <$> entries in
  let placed := pages PAGE (up PAGE flen) lengths in
  let body := up 8 (reach flen placed lengths) in
  zlen (rf_framing r) = flen ∧
  take (length schema_message) (rf_framing r) = schema_message ∧
  record_len r = flen + body ∧
  moves r = List.filter (λ x : Z * Z * Z, 0 <? x.2)
    (zip_with (λ (e : Z * Z) to, (e.1, to, e.2)) entries placed) ∧
  moves_apart flen (record_len r) (moves r) ∧
  (separate batch_message → flen + PAGE + 8 + span_of PAGE lengths < 2 ^ 63 →
   buffer_entries (drop (length schema_message) (rf_framing r)) =
     Ok (zip_with (λ p l, (if l =? 0 then Z.min (p - flen) body else p - flen, l)) placed lengths) ∧
   body_length (drop (length schema_message) (rf_framing r)) = Ok body).
Proof.
  intros Hs He Hb H flen lengths. pose proof (zlen_nonneg schema_message).
  pose proof (zlen_nonneg batch_message).
  destruct (reframe_Ok _ _ _ _ He H) as (u & pl & z & Hu & Hp & Hz & Er & Em). clear H.
  assert (small (schema_message ++ batch_message)) as Hsm by (unfold small; rewrite zlen_app; lia).
  pose proof (gives_Ok _ _ _ (buffer_entries_gives batch_message ltac:(unfold small; lia)) He) as He0.
  apply page_layout_Ok in Hp as (rs & z' & rb1 & Hml & Lf & Tk & Hz' & Ez & Hb0 & Hlt & Ep & A & F2 & Hwe & Hwb);
    [|done|apply Forall_fmap; eapply Forall_impl; [exact He0|]; simpl; lia|rewrite zlen_app; lia].
  specialize (Hz ltac:(done)). apply whole_message_Ok in Hu as Hu'; [|unfold small; lia].
  rewrite (message_len_app _ _ _ Hsm Hu') in Hml. injection Hml as Ers.
  assert (rs = zlen schema_message) as -> by lia.
  assert (zlen (rf_framing r) = flen) as Ef.
  { unfold zlen, flen. rewrite Lf, length_app. unfold zlen. lia. }
  assert (zlen schema_message + zlen batch_message = flen) as Efl by done.
  assert (snd <$> entries = lengths) as El by done. clearbody flen lengths.
  rewrite zlen_app, Efl in *. rewrite El in *. rewrite <- Ep. intros placed body. subst placed.
  unfold zlen in Tk, Hz', Hwe, Hwb. rewrite Nat2Z.id in *.
  rewrite Hz in Hz'. injection Hz' as <-. rewrite take_app_length in Tk. rewrite drop_app_length in Hwe.
  assert (record_len r = flen + body) as Er'.
  { rewrite Er, Ef, Ez. apply wrap_small. unfold in_width. subst body. lia. }
  split_and!; try done.
  { rewrite Em, Er'. apply moves_of_layout; [by rewrite El|by rewrite El|].
    eapply Forall_impl; [exact He0|]. simpl. lia. }
  intros Hsep Hb63. eapply rewritten_reads in Hwe as [R1 R2]; [| | |exact He| | | |exact Hwb].
  - split; [|done]. rewrite R1. f_equal. apply relaid_entries.
  - unfold small. lia.
  - done.
  - rewrite length_zip_with, Ep, pages_length, <- El, length_fmap. lia.
  - pose proof (up_bounds PAGE flen ltac:(done)).
    pose proof (pages_bounds PAGE (up PAGE flen) lengths ltac:(done)) as Bp. rewrite <- Ep in Bp.
    assert (Forall (λ l, 0 ≤ l < 2 ^ 63) lengths) as Fl.
    { rewrite <- El. apply Forall_fmap. eapply Forall_impl; [exact He0|]. simpl. lia. }
    specialize (Bp ltac:(eapply Forall_impl; [exact Fl|]; simpl; lia)).
    apply Forall_lookup. intros k e Hk. apply lookup_zip_with_Some in Hk as (p & l & -> & Hp & Hl).
    rewrite Forall_lookup in Bp, Fl. specialize (Bp _ _ Hp). specialize (Fl _ _ Hl). simpl in *.
    unfold PAGE in *. lia.
  - subst body. unfold PAGE in *. lia.
Qed.

(** Three buffers whose lengths the layout cannot add. *)
Definition wrap_batch : list byte :=
  framed (batch_fb (2 ^ 63 - 1) 1 [(1, 0)] [(0, 2 ^ 63 - 1); (0, 2 ^ 63 - 3844); (0, 4096)]).

Lemma moves_apart_sum c last l :
  l ≠ [] → moves_apart c last l → c + sumZ (snd <$> l) ≤ last.
Proof.
  revert c. induction l as [|[[from to] len] l IH]; intros c Hne H; [done|].
  rewrite fmap_cons, sumZ_cons. simpl in *. destruct H as (H1 & _ & H2 & H3 & H4).
  destruct l as [|x l]; [unfold sumZ; simpl; lia|]. specialize (IH _ ltac:(done) H4). lia.
Qed.

Lemma moves_sum (entries : list (Z * Z)) placed :
  length placed = length entries → Forall (λ e, 0 ≤ e.2) entries →
  sumZ (snd <$> List.filter (λ x : Z * Z * Z, 0 <? x.2)
    (zip_with (λ (e : Z * Z) to, (e.1, to, e.2)) entries placed)) = sumZ (snd <$> entries).
Proof.
  revert placed. induction entries as [|[o l] es IH]; intros [|p ps] Hlen He; try done.
  apply Forall_cons in He as [He0 He]. rewrite fmap_cons, sumZ_cons. cbn [snd] in *.
  rewrite <- (IH ps); [|simpl in Hlen; lia|done]. cbn [zip_with List.filter fst snd].
  destruct (Z.ltb_spec 0 l); [by rewrite fmap_cons, sumZ_cons|]. lia.
Qed.

Lemma place_length page base lengths cursor e :
  length (place page base lengths cursor e).1.1 = length lengths.
Proof.
  revert cursor e. induction lengths as [|l ls IH]; intros cursor e; simpl; [done|].
  match goal with |- context [place page base ls ?c ?x] => specialize (IH c x) end.
  destruct (place page base ls _ _) as [[? ?] ?]. simpl in *. congruence.
Qed.

Lemma page_layout_length framing lengths page base f placed :
  page_layout framing lengths page base = Ok (f, placed) → length placed = length lengths.
Proof.
  intros H. unfold page_layout in H. destruct (page =? 0); [done|]. destruct (negb _); [done|].
  apply result_bind_Ok in H as (len & _ & H).
  match type of H with context [place page ?b lengths ?c 0] =>
    pose proof (place_length page b lengths c 0) as L end.
  destruct (place _ _ _ _ _) as [[pl layout] e]. do 3 apply result_bind_Ok in H as (? & _ & H).
  by injection H as _ <-.
Qed.

(** C28: when the lengths add up to the word's width or more, [reframe] still answers, and
    never with a layout: whatever the messages, no record it then gives holds its buffers
    apart, for its length is a word and the buffers' total is not.  It does answer: a stream
    whose three buffers each lie in the body it declares is laid out as a record shorter than its
    own framing, with a move that ends far past it. *)
Theorem reframe_wraps :
  (∀ schema_message batch_message entries r c,
     small batch_message → buffer_entries batch_message = Ok entries →
     reframe schema_message batch_message = Ok r →
     0 ≤ c → 2 ^ 64 ≤ sumZ (snd <$> entries) → ¬ moves_apart c (record_len r) (moves r)) ∧
  ∃ entries r, buffer_entries wrap_batch = Ok entries ∧ 2 ^ 64 ≤ sumZ (snd <$> entries) ∧
    reframe (framed schema_fb) wrap_batch = Ok r ∧
    record_len r < zlen (rf_framing r) ∧
    ∃ from to len, (from, to, len) ∈ moves r ∧ record_len r + 2 ^ 62 < to + len.
Proof.
  split.
  - intros sm bm entries r c Hs He H Hc Hsum Hm.
    destruct (reframe_Ok _ _ _ _ He H) as (_ & placed & z & _ & Hp & _ & Er & Em).
    apply page_layout_length in Hp. rewrite length_fmap in Hp.
    pose proof (gives_Ok _ _ _ (buffer_entries_gives bm Hs) He) as F.
    assert (sumZ (snd <$> moves r) = sumZ (snd <$> entries)) as Es.
    { rewrite Em. apply moves_sum; [done|]. eapply Forall_impl; [exact F|]. simpl. lia. }
    pose proof (wrap_width 64 (zlen (rf_framing r) + wrap 64 z) ltac:(done)) as [_ Hw].
    unfold wadd in Er. rewrite <- Er in Hw. destruct (decide (moves r = [])) as [E|Hne].
    + rewrite E in Es. unfold sumZ in *. simpl in *. lia.
    + pose proof (moves_apart_sum _ _ _ Hne Hm). lia.
  - eexists _, _. split; [vm_compute; reflexivity|]. split; [vm_compute; discriminate|].
    split; [vm_compute; reflexivity|]. split; [vm_compute; reflexivity|].
    exists 0, 4096, (2 ^ 63 - 1). split; [left|]. vm_compute. reflexivity.
Qed.

(** ** The theorems at a record of one column *)

Lemma check_record_total_witness :
  (∃ r, check_record (one_framing [(0, 0); (0, 4)] 4) 8192 = Ok r) ∨
  (∃ t, check_record (one_framing [(0, 0); (0, 4)] 4) 8192 = Err (Said t)).
Proof. apply check_record_total; [vm_compute; reflexivity|by split]. Defined.

Lemma check_record_sound_witness :
  ∃ r, check_record (one_framing [(0, 0); (3836, 4)] 3840) 4100 = Ok r ∧
    r_buffers r = [(260, 0); (4096, 4)] ∧
    sound (one_framing [(0, 0); (3836, 4)] 3840) 4100 r.
Proof.
  eexists. assert (check_record (one_framing [(0, 0); (3836, 4)] 3840) 4100 = Ok _) as E
    by (vm_compute; reflexivity).
  split; [exact E|]. split; [reflexivity|].
  refine (check_record_sound _ _ _ _ _ E); [vm_compute; reflexivity|by split].
Defined.

(** A batch of two buffers. *)
Definition two_batch : list byte := framed (batch_fb 16 1 [(1, 0)] [(0, 1); (8, 4)]).

Lemma same_but_parts (m m' : list byte) a b c d :
  same_but (λ i, between a b i ∨ between c d i) m m' → 0 ≤ d ≤ a → a ≤ b → b = zlen m → 0 ≤ c ≤ d →
  m' = take (Z.to_nat c) m ++ take (Z.to_nat (d - c)) (drop (Z.to_nat c) m') ++
    take (Z.to_nat (a - d)) (drop (Z.to_nat d) m) ++ drop (Z.to_nat a) m'.
Proof.
  intros [L E] H1 H2 H3 H4. unfold zlen in *. unfold between in E.
  assert (take (Z.to_nat c) m = take (Z.to_nat c) m') as ->.
  { apply list_eq. intros i. destruct (decide (Z.of_nat i < c)).
    - rewrite !lookup_take_lt by lia. symmetry. apply E. lia.
    - by rewrite !lookup_take_ge by lia. }
  assert (take (Z.to_nat (a - d)) (drop (Z.to_nat d) m) = take (Z.to_nat (a - d)) (drop (Z.to_nat d) m')) as ->.
  { apply list_eq. intros i. destruct (decide (Z.of_nat i < a - d)).
    - rewrite !lookup_take_lt, !lookup_drop by lia. symmetry. apply E. lia.
    - by rewrite !lookup_take_ge by lia. }
  rewrite <- (take_drop (Z.to_nat c) m') at 1. f_equal.
  rewrite <- (take_drop (Z.to_nat (d - c)) (drop (Z.to_nat c) m')) at 1. f_equal. rewrite drop_drop.
  rewrite <- (take_drop (Z.to_nat (a - d)) (drop _ m')) at 1. rewrite drop_drop.
  do 2 f_equal; f_equal; lia.
Qed.

Lemma two_batch_separate : separate two_batch.
Proof.
  exists 104, 2, (Some 40). split.
  { intros i Hi (a & [= <-] & Ha). unfold between in *. lia. }
  intros m' S.
  assert (same_but (λ i, between 104 136 i ∨ between 40 48 i) two_batch m') as S'.
  { eapply same_but_mono; [exact S|]. intros i [?|(a & [= <-] & ?)]; auto. }
  rewrite (same_but_parts _ _ _ _ _ _ S') by (vm_compute; (reflexivity || (split; discriminate) || discriminate)).
  destruct S as [L _]. change (length two_batch) with 136%nat in L.
  assert (length (take (Z.to_nat (48 - 40)) (drop (Z.to_nat 40) m')) = 8%nat) as L8
    by (rewrite length_take, length_drop, L; done).
  assert (length (drop (Z.to_nat 104) m') = 32%nat) as L32 by (rewrite length_drop, L; done).
  generalize dependent (take (Z.to_nat (48 - 40)) (drop (Z.to_nat 40) m')).
  generalize dependent (drop (Z.to_nat 104) m'). clear.
  intros l32 H32 l8 H8.
  do 8 (destruct l8 as [|? l8]; [discriminate|]). destruct l8; [|discriminate].
  do 32 (destruct l32 as [|? l32]; [discriminate|]). destruct l32; [|discriminate].
  split; vm_compute; reflexivity.
Qed.

Lemma reframe_lays_witness :
  ∃ r, reframe (framed schema_fb) two_batch = Ok r ∧
    moves r = [(0, 4096, 1); (8, 8192, 4)] ∧ moves_apart 260 (record_len r) (moves r) ∧
    buffer_entries (drop 124 (rf_framing r)) = Ok [(3836, 1); (7932, 4)] ∧
    body_length (drop 124 (rf_framing r)) = Ok 7936.
Proof.
  eexists.
  assert (reframe (framed schema_fb) two_batch = Ok _) as E by (vm_compute; reflexivity).
  split; [exact E|].
  assert (zlen (framed schema_fb) + zlen two_batch < 2 ^ 63) as H1 by (vm_compute; reflexivity).
  assert (buffer_entries two_batch = Ok [(0, 1); (8, 4)]) as H2 by (vm_compute; reflexivity).
  assert (zlen (framed schema_fb) + zlen two_batch + PAGE + 8 +
    span_of PAGE (snd <$> [(0, 1); (8, 4)]) < 2 ^ 64) as H3 by (vm_compute; reflexivity).
  destruct (reframe_lays _ _ [(0, 1); (8, 4)] _ H1 H2 H3 E) as (_ & _ & _ & Em & Ea & Hr).
  split; [exact Em|]. split; [exact Ea|]. apply Hr; [apply two_batch_separate|vm_compute; reflexivity].
Defined.

Lemma schema_fields_ok_witness :
  ∃ t fs, check_schema t = Ok fs ∧ length fs = 1%nat ∧ forallb field_ok fs = true.
Proof.
  destruct (message_table (framed schema_fb) "first" ≫= λ m, header_table m header.SCHEMA "first")
    as [t|e] eqn:E; [|vm_compute in E; discriminate].
  exists t. destruct (check_schema t) as [fs|e] eqn:F.
  - exists fs. split; [reflexivity|].
    split; [|exact (schema_fields_ok t fs F)].
    vm_compute in E. injection E as <-. vm_compute in F. injection F as <-. reflexivity.
  - exfalso. vm_compute in E. injection E as <-. vm_compute in F. discriminate.
Defined.

(** The columns of one 32-bit integer and one text column. *)
Definition two_fields : list Ty.Field :=
  [Ty.mk_Field [x61] false (Ty.Primitive (Some 4)); Ty.mk_Field [x62] true (Ty.Text 4)].

