(* ===== verification/Verify.v ===== *)
(** * The record check, where it runs

    [src/kernel/plane/core/src/verify.rs]: the framing of a record is read, first a page and
    then what its lengths ask for, and [check_record] judges it.  [room] is the allocator's
    answer to each reservation.  The theorems show that three rounds measure any framing, and
    that the check judges the record's own bytes. *)

From S2P Require Import Prelude Abi ArrowFormat Flatbuf ArrowFrame ArrowRecord.
Definition FIRST := 4096.

Section verify.
Context {St : Type}.
Variable room : nat → bool.

Abbreviation V := (M St stop).

Definition no_memory : stop := Said [T "no memory to read the record's framing"].

(** [grow]: the buffer is longer by zeros, or there is no memory. *)
Definition grow (k : nat) : V unit := if room k then mret tt else fail no_memory.

(** [read(from, &mut framing[from..])]: a buffer of [n] zero bytes, filled. *)
Definition fill (read : Z → Z → M St Error (list byte)) (from n : Z) : V (list byte) := λ s,
  match read from n s with
  | (Ok b, s) => (Ok (take (Z.to_nat n) (b ++ repeat x00 (Z.to_nat n))), s)
  | (Err e, s) => (Err (Said [T "the record could not be read: "; T (Err.name e)]), s)
  end.

(** A framing grown to [to] bytes. *)
Definition extend (read : Z → Z → M St Error (list byte)) (k : nat) (framing : list byte)
    (to : Z) : V (list byte) :=
  _ ← grow k;
  b ← fill read (zlen framing) (to - zlen framing);
  mret (framing ++ b).

(** The rounds of the loop. *)
Fixpoint measure (fuel : nat) (len : Z) (read : Z → Z → M St Error (list byte)) (k : nat)
    (framing : list byte) : V Record_ :=
  match fuel with
  | O => fail Unfinished
  | S fuel =>
      need ← lift (framing_need framing);
      match need with
      | Framing e =>
          if len <? e
          then fail (Said [T "the record's framing reaches byte "; N e; T ", past the "; N len;
                           T " bytes put"])
          else
            framing ← (if zlen framing <? e then extend read k framing e else mret framing);
            lift (check_record (take (Z.to_nat e) framing) len)
      | More n =>
          if (len <? n) || (FRAMING_MAX + 8 <? n)
          then fail (Said [T "the record ends at byte "; N len;
                           T ", inside its framing (which needs "; N n; T ")"])
          else if n <=? zlen framing
          then fail (Said [T "the record's framing could not be measured"])
          else
            framing ← extend read k framing n;
            measure fuel len read (1 + k) framing
      end
  end.

Definition verify (len : Z) (read : Z → Z → M St Error (list byte)) : V Record_ :=
  let have := Z.min len FIRST in
  _ ← (if room 0 then mret tt else fail no_memory);
  framing ← fill read 0 have;
  measure 3 len read 1 framing.

End verify.

(** ** Prefixes of a record *)

Lemma marker_app q r at_ which :
  0 ≤ at_ → at_ + 8 < 2 ^ 64 →
  match marker q at_ which with
  | Err e => marker (q ++ r) at_ which = Err e
  | Ok (Some w) => marker (q ++ r) at_ which = Ok (Some w) ∧ at_ + 8 ≤ zlen q
  | Ok None => zlen q < at_ + 8
  end.
Proof.
  intros Ha Hb. unfold marker, word. nowrap.
  destruct (get_range q at_ (at_ + 4)) as [m|] eqn:G1.
  2:{ apply get_range_None in G1. destruct (Z.leb_spec (at_ + 4) (zlen q)); lia. }
  rewrite (get_range_app_l _ r _ _ _ G1). destruct (bool_decide _); [|done].
  destruct (get_range q (at_ + 4) (at_ + 4 + 4)) as [w|] eqn:G2; simpl.
  - rewrite (get_range_app_l _ r _ _ _ G2). apply get_range_Some in G2. split; [done|lia].
  - apply get_range_None in G2. destruct (Z.leb_spec (at_ + 8) (zlen q)); lia.
Qed.

Lemma check_len_gives len which e : gives (check_len len which e) (λ _, e ≤ FRAMING_MAX).
Proof.
  unfold check_len. destruct (len =? 0); [done|]. by destruct (Z.ltb_spec FRAMING_MAX e).
Qed.

Lemma first_word q first : marker q 0 "first" = Ok (Some first) → 0 ≤ first < 2 ^ 32.
Proof.
  intros H. pose proof (marker_gives q 0 "first") as G. rewrite H in G. by apply G.
Qed.

(** What a prefix says of the framing's need. *)
Lemma framing_need_app q r :
  match framing_need q with
  | Err e => framing_need (q ++ r) = Err e
  | Ok (Framing n) => framing_need (q ++ r) = Ok (Framing n) ∧ 0 ≤ n ≤ FRAMING_MAX
  | Ok (More n) =>
      zlen q < n ≤ FRAMING_MAX ∧
      (∀ m, framing_need (q ++ r) = Ok (Framing m) → n ≤ m) ∧
      (8 ≤ zlen q → zlen q + zlen r = n → ∀ m, framing_need (q ++ r) ≠ Ok (More m))
  end.
Proof.
  unfold framing_need. pose proof (zlen_nonneg q). pose proof (zlen_nonneg r).
  pose proof (marker_app q r 0 "first" ltac:(lia) ltac:(lia)) as M1.
  destruct (marker q 0 "first") as [[first|]|e] eqn:E1; simpl.
  - destruct M1 as [-> Hq]. simpl. pose proof (first_word q first E1) as Hf.
    pose proof (check_len_gives first "first" (8 +! first +! 8)) as C1.
    destruct (check_len first "first" _) as [[]|e1] eqn:Ec1; simpl; [|done].
    assert (8 +! first = 8 + first) as E8 by (nowrap; done).
    assert (8 +! first +! 8 = 16 + first) as E16 by (rewrite E8; nowrap; lia).
    simpl in C1. rewrite E16 in C1 |- *. rewrite E8.
    pose proof (marker_app q r (8 + first) "second" ltac:(lia) ltac:(lia)) as M2.
    pose proof (marker_gives q (8 + first) "second") as G2.
    destruct (marker q (8 + first) "second") as [[second|]|e2] eqn:E2; simpl.
    + destruct M2 as [-> Hq2]. simpl in G2 |- *. specialize (G2 second eq_refl).
      pose proof (check_len_gives second "second" (16 + first +! second)) as C2.
      destruct (check_len second "second" _) as [[]|e3]; simpl in *; [|done].
      split; [done|]. revert C2. nowrap. lia.
    + split; [lia|]. split.
      * intros m. pose proof (marker_gives (q ++ r) (8 + first) "second") as G3.
        destruct (marker (q ++ r) (8 + first) "second") as [[w|]|]; simpl; try done.
        destruct (check_len w _ _) as [[]|]; simpl; [|done]. intros [= <-]. simpl in G3.
        specialize (G3 w eq_refl). nowrap. lia.
      * intros _ Hlen m. pose proof (marker_app (q ++ r) [] (8 + first) "second" ltac:(lia) ltac:(lia))
          as M3. destruct (marker (q ++ r) (8 + first) "second") as [[w|]|]; simpl; try done.
        { by destruct (check_len w _ _) as [[]|]. }
        rewrite zlen_app in M3. lia.
    + by rewrite M2.
  - assert (8 ≤ FRAMING_MAX) by done. split; [lia|]. split; [|lia].
    intros m. destruct (marker (q ++ r) 0 "first") as [[w|]|] eqn:E3; simpl; try done.
    pose proof (first_word _ _ E3). destruct (check_len w _ _) as [[]|]; simpl; [|done].
    pose proof (marker_gives (q ++ r) (8 +! w) "second") as G3.
    destruct (marker (q ++ r) (8 +! w) "second") as [[w2|]|]; simpl; try done.
    destruct (check_len w2 _ _) as [[]|]; simpl; [|done]. intros [= <-]. simpl in G3.
    specialize (G3 w2 eq_refl). nowrap. lia.
  - by rewrite M1.
Qed.

(** The rounds left are enough to measure what is read. *)
Definition rounds_left (fuel : nat) (q : list byte) : Prop :=
  (3 ≤ fuel)%nat ∨ ((2 ≤ fuel)%nat ∧ 8 ≤ zlen q) ∨
  ((1 ≤ fuel)%nat ∧ ∀ m, framing_need q ≠ Ok (More m)).

Lemma rounds_next fuel q b n :
  rounds_left (S fuel) q → framing_need q = Ok (More n) → zlen (q ++ b) = n →
  rounds_left fuel (q ++ b).
Proof.
  intros H E L. pose proof (framing_need_app q b) as A. rewrite E in A.
  destruct A as ([Hn _] & _ & A). rewrite zlen_app in L.
  destruct H as [H|[[H Hq]|[_ H]]]; [|right; right; split; [lia|by apply A]|by destruct (H n)].
  right. left. split; [lia|]. rewrite zlen_app.
  unfold framing_need in E. pose proof (zlen_nonneg b).
  destruct (marker q 0 "first") as [[first|]|] eqn:M; simpl in E; try done.
  - pose proof (marker_app q [] 0 "first" ltac:(lia) ltac:(lia)) as A1. rewrite M in A1. lia.
  - injection E as <-. lia.
Qed.

Section total.
Context {St : Type} (room : nat → bool) (rd : Z → Z → M St Error (list byte)) (len : Z).
Hypothesis len_u64 : u64 len.

Lemma fill_gives from n s :
  0 ≤ n → gives (fill rd from n s).1 (λ b, zlen b = n).
Proof.
  intros Hn. unfold fill. destruct (rd from n s) as [[b|e] s']; simpl; [|done].
  unfold zlen. rewrite length_take, length_app, repeat_length. lia.
Qed.

Lemma extend_gives k q to s :
  zlen q ≤ to → gives (extend room rd k q to s).1 (λ f, zlen f = to ∧ q `prefix_of` f).
Proof.
  intros Hq. unfold extend, grow. unfold mbind, M_bind. destruct (room k); [|done]. simpl.
  pose proof (fill_gives (zlen q) (to - zlen q) s ltac:(lia)) as G.
  destruct (fill rd (zlen q) (to - zlen q) s) as [[b|[]] s']; simpl in *; try done.
  split; [rewrite zlen_app; lia|by eexists].
Qed.

Lemma measure_gives fuel k q s :
  rounds_left fuel q → zlen q ≤ 2 ^ 22 → gives (measure room fuel len rd k q s).1 (λ _, True).
Proof.
  revert k q s. induction fuel as [|fuel IH]; intros k q s Hr Hq.
  { destruct Hr as [|[[]|[]]]; lia. }
  simpl. unfold mbind, M_bind, lift. pose proof (framing_need_gives q) as G.
  pose proof (framing_need_app q []) as A.
  destruct (framing_need q) as [[n|n]|[]] eqn:E; simpl in G; try done.
  - destruct A as ([Hn Hn'] & _). destruct (_ || _); [done|]. destruct (n <=? zlen q); [done|].
    pose proof (extend_gives k q n s ltac:(lia)) as X.
    destruct (extend room rd k q n s) as [[f|[]] s']; simpl in *; try done.
    destruct X as [Hf [b ->]]. apply IH; [by eapply rounds_next|].
    rewrite Hf. etransitivity; [exact Hn'|]. done.
  - destruct A as (_ & Hn & Hn'). destruct (len <? n) eqn:El; [done|].
    destruct (Z.ltb_spec (zlen q) n).
    + pose proof (extend_gives k q n s ltac:(lia)) as X.
      destruct (extend room rd k q n s) as [[f|[]] s']; simpl in *; try done.
      destruct X as [Hf _]. eapply gives_True, check_record_gives; [|done].
      unfold small, zlen in *. rewrite length_take.
      assert (FRAMING_MAX < 2 ^ 62) by done. lia.
    + simpl. eapply gives_True, check_record_gives; [|done].
      unfold small, zlen in *. rewrite length_take. lia.
Qed.

End total.

(** C25: whatever the record's bytes, the kernel's answers and the allocator's, the check
    ends within three rounds and panics on nothing: it returns a record or a sentence. *)
Theorem verify_total {St} (room : nat → bool) (rd : Z → Z → M St Error (list byte)) len s :
  u64 len →
  (∃ r, (verify room len rd s).1 = Ok r) ∨ (∃ t, (verify room len rd s).1 = Err (Said t)).
Proof.
  intros Hl. assert (gives (verify room len rd s).1 (λ _, True)) as G.
  { unfold verify, mbind, M_bind. destruct (room 0%nat); [|done]. cbn [mret M_ret].
    destruct Hl as [Hl Hl'].
    pose proof (fill_gives rd 0 (Z.min len FIRST) s ltac:(unfold FIRST; lia)) as F.
    destruct (fill rd 0 (Z.min len FIRST) s) as [[f|[]] s']; try done.
    apply measure_gives; [by split|by left|]. cbn in F. rewrite F. unfold FIRST. lia. }
  destruct (verify room len rd s).1 as [r|[]]; simpl in G; try done; eauto.
Qed.

(** ** The bytes judged are the record's *)

Section exact.
Context {St : Type} (rd : Z → Z → M St Error (list byte)) (record : list byte).

(** Reads give the record's bytes, and the allocator has room. *)
Hypothesis reads : ∀ at_ n s, 0 ≤ at_ → 0 ≤ n → at_ + n ≤ zlen record →
  rd at_ n s = (Ok (take (Z.to_nat n) (drop (Z.to_nat at_) record)), s).
Abbreviation room := (λ _ : nat, true).

Lemma extend_reads k q r to s :
  record = q ++ r → zlen q ≤ to ≤ zlen record →
  extend room rd k q to s = (Ok (take (Z.to_nat to) record), s).
Proof.
  intros -> Hto. unfold extend, grow, mbind, M_bind. simpl. unfold fill.
  rewrite reads by (pose proof (zlen_nonneg q); lia).
  unfold zlen in *. rewrite Nat2Z.id, drop_app_length. cbn. rewrite length_app in Hto.
  rewrite take_app_le by (rewrite length_take; lia). rewrite take_take, Nat.min_id.
  rewrite (take_app_ge q) by lia. replace (Z.to_nat (to - Z.of_nat (length q))) with (Z.to_nat to - length q)%nat by lia. done.
Qed.

Lemma measure_exact fuel k q r s x :
  record = q ++ r → rounds_left fuel q →
  (measure room fuel (zlen record) rd k q s).1 = Ok x ↔
  ∃ n, framing_need record = Ok (Framing n) ∧ n ≤ zlen record ∧
    check_record (take (Z.to_nat n) record) (zlen record) = Ok x.
Proof.
  revert k q r s. induction fuel as [|fuel IH]; intros k q r s E Hr.
  { destruct Hr as [|[[]|[]]]; lia. }
  simpl. unfold mbind, M_bind, lift. pose proof (framing_need_app q r) as A.
  rewrite <- E in A. pose proof (zlen_nonneg q).
  assert (zlen record = zlen q + zlen r) as El by (rewrite E; apply zlen_app).
  destruct (framing_need q) as [[n|n]|e] eqn:En.
  - destruct A as (Hn & Hm & _).
    destruct ((zlen record <? n) || (FRAMING_MAX + 8 <? n)) eqn:Eo.
    { split; [done|]. intros (m & Hm' & Hle & _). specialize (Hm m Hm').
      apply orb_true_iff in Eo as [Eo|Eo]; reflect_bool; lia. }
    reflect_bool. destruct (Z.leb_spec n (zlen q)); [lia|].
    rewrite (extend_reads k q r n s E) by lia.
    apply (IH _ _ (drop (Z.to_nat n) record)); [by rewrite take_drop|].
    assert (∃ b, take (Z.to_nat n) record = q ++ b) as [b Eb].
    { exists (take (Z.to_nat n - length q) r). rewrite E, take_app_ge by (unfold zlen in *; lia).
      done. }
    rewrite Eb. eapply rounds_next; [done|done|]. rewrite <- Eb. unfold zlen in *.
    rewrite length_take. lia.
  - destruct A as (Hm & Hn & Hn'). rewrite Hm.
    destruct (Z.ltb_spec (zlen record) n).
    { split; [done|]. intros (m & [= <-] & Hle & _). lia. }
    assert ((if zlen q <? n then extend room rd k q n else mret q) s =
      (Ok (if zlen q <? n then take (Z.to_nat n) record else q), s)) as ->.
    { destruct (Z.ltb_spec (zlen q) n); [apply (extend_reads k q r); [done|lia]|done]. }
    assert (take (Z.to_nat n) (if zlen q <? n then take (Z.to_nat n) record else q) =
      take (Z.to_nat n) record) as ->.
    { destruct (Z.ltb_spec (zlen q) n); [by rewrite take_take, Nat.min_id|].
      rewrite E, take_app_le by (unfold zlen in *; lia). done. }
    simpl. split; [intros; by exists n|]. by intros (m & [= <-] & _ & H').
  - rewrite A. split; [done|]. by intros (m & ? & _).
Qed.

(** C24: when the reads give the record's bytes and the allocations have room, the check accepts a record exactly when its
    own bytes hold a framing, whole in the bytes put, that [check_record] accepts: nothing
    is judged but the bytes every reader will see. *)
Theorem verify_exact s x :
  (verify room (zlen record) rd s).1 = Ok x ↔
  ∃ n, framing_need record = Ok (Framing n) ∧ n ≤ zlen record ∧
    check_record (take (Z.to_nat n) record) (zlen record) = Ok x.
Proof.
  unfold verify, mbind, M_bind. cbn [mret M_ret]. pose proof (zlen_nonneg record).
  set (have := Z.min (zlen record) FIRST).
  assert (0 ≤ have ≤ zlen record) by (unfold have, FIRST; lia).
  assert (fill rd 0 have s = (Ok (take (Z.to_nat have) record), s)) as ->.
  { unfold fill. rewrite reads by lia. change (Z.to_nat 0) with 0%nat. rewrite drop_0.
    rewrite take_app_le by (rewrite length_take; unfold zlen in *; lia).
    by rewrite take_take, Nat.min_id. }
  apply (measure_exact 3 1 _ (drop (Z.to_nat have) record)); [by rewrite take_drop|by left].
Qed.

End exact.

(** ** The check as the plane calls it *)

Definition sentence (e : stop) : text := match e with Said t => t | _ => [] end.

(** The record's rows are what the plane keeps of it. *)
Definition plane_verify {St} (len : Z) (rd : Z → Z → M St Error (list byte)) :
    M St text Record_ := λ s,
  let '(r, s) := verify (λ _, true) len rd s in (map_err sentence r, s).

(** The check touches the kernel only through its reads. *)
Lemma fill_keeps {St} (rd : Z → Z → M St Error (list byte)) (P : St → Prop) from n s :
  (∀ a k s, P s → P (rd a k s).2) → P s → P (fill rd from n s).2.
Proof.
  intros Hrd Hs. unfold fill. specialize (Hrd from n s Hs). by destruct (rd from n s) as [[]].
Qed.

Lemma extend_keeps {St} room (rd : Z → Z → M St Error (list byte)) (P : St → Prop) k q to s :
  (∀ a k s, P s → P (rd a k s).2) → P s → P (extend room rd k q to s).2.
Proof.
  intros Hrd Hs. unfold extend, grow, mbind, M_bind. destruct (room k); [|done]. cbn [mret M_ret].
  pose proof (fill_keeps rd P (zlen q) (to - zlen q) s Hrd Hs) as H.
  by destruct (fill rd (zlen q) (to - zlen q) s) as [[]].
Qed.

Lemma measure_keeps {St} room (rd : Z → Z → M St Error (list byte)) (P : St → Prop) fuel len k q s :
  (∀ a k s, P s → P (rd a k s).2) → P s → P (measure room fuel len rd k q s).2.
Proof.
  intros Hrd. revert k q s. induction fuel as [|fuel IH]; intros k q s Hs; [done|].
  cbn [measure]. unfold mbind, M_bind, lift. destruct (framing_need q) as [[n|n]|]; [| |done].
  - destruct (_ || _); [done|]. destruct (n <=? zlen q); [done|].
    pose proof (extend_keeps room rd P k q n s Hrd Hs) as H.
    destruct (extend room rd k q n s) as [[f|e] s']; [by apply IH|done].
  - destruct (len <? n); [done|]. destruct (zlen q <? n); [|done].
    pose proof (extend_keeps room rd P k q n s Hrd Hs) as H.
    by destruct (extend room rd k q n s) as [[f|e] s'].
Qed.

Lemma plane_verify_reads {St} n (rd : Z → Z → M St Error (list byte)) (P : St → Prop) :
  (∀ a k s, P s → P (rd a k s).2) → ∀ s, P s → P (plane_verify n rd s).2.
Proof.
  intros Hrd s Hs. unfold plane_verify, verify, mbind, M_bind. cbn [mret M_ret].
  pose proof (fill_keeps rd P 0 (Z.min n FIRST) s Hrd Hs) as H.
  destruct (fill rd 0 (Z.min n FIRST) s) as [[f|e] s']; [|done].
  pose proof (measure_keeps (λ _, true) rd P 3 n 1 f s' Hrd H) as H'.
  by destruct (measure (λ _, true) 3 n rd 1 f s') as [r s''].
Qed.

(** ** The theorems at a record of one column and no bytes *)

Definition empty_record : list byte := one_framing [(0, 0); (0, 0)] 0.

Definition read_bytes (record : list byte) (at_ n : Z) : M unit Error (list byte) :=
  mret (take (Z.to_nat n) (drop (Z.to_nat at_) record)).

Lemma verify_total_witness :
  (∃ r, (verify (λ _, true) 260 (read_bytes empty_record) tt).1 = Ok r) ∨
  (∃ t, (verify (λ _, true) 260 (read_bytes empty_record) tt).1 = Err (Said t)).
Proof. apply verify_total. by split. Defined.

Lemma verify_exact_witness :
  ∃ x, (verify (λ _, true) (zlen empty_record) (read_bytes empty_record) tt).1 = Ok x ∧
    body_start x = 260.
Proof.
  eexists. split.
  - apply (verify_exact (read_bytes empty_record) empty_record
      (λ at_ n s _ _ _, eq_refl) tt).
    exists 260. split; [vm_compute; reflexivity|]. split; [vm_compute; discriminate|].
    vm_compute. reflexivity.
  - reflexivity.
Defined.
