(* ===== verification/StoreFormat.v ===== *)
(** * The storage format

    [src/crates/moruna-storage-format/src/lib.rs]: the records a volume keeps on its device
    and their one codec.  A string is its bytes; BLAKE3, a package outside the repository, is
    a function of the class [Blake3] that gives 32 bytes. *)

From S2P Require Import Prelude.

Class Blake3 := {
  blake3 : list byte → list byte;
  blake3_len l : zlen (blake3 l) = 32;
}.

(** [Error]; [BadVersion] is its [Version]. *)
Inductive Error := Incomplete | BadVersion | Invalid | Limit | Integrity.

Abbreviation VERSION := 1.
Abbreviation HEADER := 48.
Abbreviation MAX_PAYLOAD := (2 ^ 20).

(** "MORUSTO1". *)
Definition MAGIC : list byte := [x4d; x4f; x52; x55; x53; x54; x4f; x31].

(** ** What is stored *)

Record Object := mk_Object { workspace : list byte; bucket : list byte; key : list byte }.
Record Version := mk_Version { etag : option (list byte); generation : option (list byte) }.
Record Metadata := mk_Metadata { object : Object; version : Version; bytes : Z }.

Inductive Role := FormatProof | CheckpointMetadata | CacheScratch | SingleNodeHome.

Record Superblock := mk_Superblock {
  capacity : Z;
  alignment : Z;
  log_offset : Z;
  log_bytes : Z;
  data_offset : Z;
  role : Role;
  sb_workspace : list byte;
  sb_bucket : list byte;
}.

Record TreeLevel := mk_TreeLevel { lv_offset : Z; lv_nodes : Z }.

Inductive Location :=
| File (id : list byte)
| Extent (offset padded_bytes : Z) (tree : list TreeLevel) (root : list byte).

Record Commit := mk_Commit {
  sequence : Z;
  metadata : Metadata;
  content_hash : list byte;
  location : Location;
}.

Inductive Frame :=
| FSuperblock (s : Superblock)
| FCommit (c : Commit)
| FReceipt (sequence : Z) (commit_hash : list byte).

#[export] Instance Object_eq_dec : EqDecision Object.
Proof. solve_decision. Defined.
#[export] Instance Version_eq_dec : EqDecision Version.
Proof. solve_decision. Defined.
#[export] Instance Metadata_eq_dec : EqDecision Metadata.
Proof. solve_decision. Defined.
#[export] Instance Role_eq_dec : EqDecision Role.
Proof. solve_decision. Defined.
#[export] Instance Superblock_eq_dec : EqDecision Superblock.
Proof. solve_decision. Defined.

(** ** Validation *)

(** [str::split('/')]. *)
Fixpoint split_slash (l : list byte) : list (list byte) :=
  match l with
  | [] => [[]]
  | b :: l =>
      if bool_decide (b = x2f) then [] :: split_slash l
      else match split_slash l with
           | [] => [[b]]
           | p :: ps => (b :: p) :: ps
           end
  end.

Definition is_nil {A} (l : list A) : bool := match l with [] => true | _ => false end.

(** [Object::validate_parts]. *)
Definition validate_parts (ws bk k : list byte) : result Error unit :=
  if is_nil ws || is_nil bk
     || match k with x2f :: _ => true | _ => false end
     || existsb (λ p, bool_decide (p = [x2e]) || bool_decide (p = [x2e; x2e])) (split_slash k)
     || existsb (λ s, bool_decide (x00 ∈ s) || (MAX_PAYLOAD <? zlen s)) [ws; bk; k]
  then Err Invalid else Ok tt.

Definition validate_object (o : Object) : result Error unit :=
  validate_parts (workspace o) (bucket o) (key o).

(** [Version::validate]. *)
Definition validate_version (v : Version) : result Error unit :=
  let absent o := match o with Some t => is_nil t | None => true end in
  if absent (etag v) && absent (generation v) then Err Invalid else Ok tt.

Definition is_power_of_two (n : Z) : bool := (0 <? n) && (Z.land n (n - 1) =? 0).

(** [Superblock::validate]. *)
Definition validate_superblock (s : Superblock) : result Error unit :=
  _ ← validate_parts (sb_workspace s) (sb_bucket s) [];
  let align := alignment s in
  if (alignment s <? 512) || negb (is_power_of_two (alignment s))
     || is_nil (sb_workspace s) || is_nil (sb_bucket s)
     || (log_offset s <? align) || (log_bytes s =? 0) || (capacity s <=? data_offset s)
     || existsb (λ n, negb (is_multiple_of n align))
          [capacity s; log_offset s; log_bytes s; data_offset s]
     || negb (bool_decide (checked_add 64 (log_offset s) (log_bytes s) = Some (data_offset s)))
  then Err Invalid else Ok tt.

(** ** The writer *)

Abbreviation W := (M (list byte) Error unit).

Definition w_bytes (bs : list byte) : W := λ buf,
  match checked_add 64 (zlen buf) (zlen bs) with
  | Some n => if MAX_PAYLOAD <? n then (Err Limit, buf) else (Ok tt, buf ++ bs)
  | None => (Err Limit, buf)
  end.

(** [u8], [u32] and [u64]: [n] bytes, little endian. *)
Definition w_int (n : nat) (z : Z) : W := w_bytes (le_enc n z).

Definition w_text (t : list byte) : W :=
  if MAX_PAYLOAD <? zlen t then fail Limit
  else _ ← w_int 4 (zlen t); w_bytes t.

Definition w_optional (t : option (list byte)) : W :=
  match t with
  | Some t => _ ← w_int 1 1; w_text t
  | None => w_int 1 0
  end.

Definition w_tree (tree : list TreeLevel) : W :=
  foldr (λ l w, _ ← w_int 8 (lv_offset l); _ ← w_int 8 (lv_nodes l); w) (mret tt) tree.

Definition role_code (r : Role) : Z :=
  match r with FormatProof => 0 | CheckpointMetadata => 1 | CacheScratch => 2 | SingleNodeHome => 3 end.

Definition w_superblock (s : Superblock) : W :=
  _ ← lift (validate_superblock s);
  _ ← w_int 1 1;
  _ ← w_int 8 (capacity s);
  _ ← w_int 4 (alignment s);
  _ ← w_int 8 (log_offset s);
  _ ← w_int 8 (log_bytes s);
  _ ← w_int 8 (data_offset s);
  _ ← w_int 1 (role_code (role s));
  _ ← w_text (sb_workspace s);
  w_text (sb_bucket s).

Definition w_location (l : Location) : W :=
  match l with
  | File id => _ ← w_int 1 0; w_bytes id
  | Extent off padded tree root =>
      if 64 <? zlen tree then fail Limit
      else
        _ ← w_int 1 1;
        _ ← w_int 8 off;
        _ ← w_int 8 padded;
        _ ← w_int 4 (zlen tree);
        _ ← w_tree tree;
        w_bytes root
  end.

Definition w_commit (c : Commit) : W :=
  let m := metadata c in
  _ ← lift (validate_object (object m));
  _ ← lift (validate_version (version m));
  if is_nil (key (object m)) then fail Invalid
  else
    _ ← w_int 1 2;
    _ ← w_int 8 (sequence c);
    _ ← w_text (workspace (object m));
    _ ← w_text (bucket (object m));
    _ ← w_text (key (object m));
    _ ← w_optional (etag (version m));
    _ ← w_optional (generation (version m));
    _ ← w_int 8 (bytes m);
    _ ← w_bytes (content_hash c);
    w_location (location c).

Definition w_frame (f : Frame) : W :=
  match f with
  | FReceipt seq hash => _ ← w_int 1 3; _ ← w_int 8 seq; w_bytes hash
  | FSuperblock s => w_superblock s
  | FCommit c => w_commit c
  end.

(** ** The reader *)

Record Reader := mk_Reader { r_bytes : list byte; at_ : Z }.

Abbreviation R := (M Reader Error).

Definition r_take (n : Z) : R (list byte) := λ st,
  match checked_add 64 (at_ st) n with
  | None => (Err Limit, st)
  | Some e =>
      match get_range (r_bytes st) (at_ st) e with
      | None => (Err Incomplete, st)
      | Some b => (Ok b, mk_Reader (r_bytes st) e)
      end
  end.

(** [u8], [u32] and [u64]. *)
Definition r_int (n : nat) : R Z := b ← r_take (Z.of_nat n); mret (le_dec b).

Definition r_text : R (list byte) :=
  n ← r_int 4;
  if MAX_PAYLOAD <? n then fail Limit
  else b ← r_take n; if utf8_valid b then mret b else fail Invalid.

Definition r_optional : R (option (list byte)) :=
  tag ← r_int 1;
  if tag =? 0 then mret None
  else if tag =? 1 then t ← r_text; mret (Some t)
  else fail Invalid.

Fixpoint r_tree (n : nat) : R (list TreeLevel) :=
  match n with
  | O => mret []
  | S n => off ← r_int 8; nodes ← r_int 8; rest ← r_tree n; mret (mk_TreeLevel off nodes :: rest)
  end.

Definition r_role : R Role :=
  code ← r_int 1;
  if code =? 0 then mret FormatProof
  else if code =? 1 then mret CheckpointMetadata
  else if code =? 2 then mret CacheScratch
  else if code =? 3 then mret SingleNodeHome
  else fail Invalid.

Definition r_superblock : R Superblock :=
  cap ← r_int 8; align ← r_int 4; lo ← r_int 8; lb ← r_int 8; d ← r_int 8;
  rl ← r_role;
  ws ← r_text; bk ← r_text;
  let s := mk_Superblock cap align lo lb d rl ws bk in
  _ ← lift (validate_superblock s);
  mret s.

Definition r_location : R Location :=
  tag ← r_int 1;
  if tag =? 0 then id ← r_take 32; mret (File id)
  else if tag =? 1 then
    off ← r_int 8; padded ← r_int 8; levels ← r_int 4;
    if 64 <? levels then fail Limit
    else tree ← r_tree (Z.to_nat levels); root ← r_take 32; mret (Extent off padded tree root)
  else fail Invalid.

Definition r_commit : R Commit :=
  seq ← r_int 8;
  ws ← r_text; bk ← r_text; k ← r_text;
  let o := mk_Object ws bk k in
  _ ← lift (validate_object o);
  if is_nil k then fail Invalid
  else
    e ← r_optional; g ← r_optional;
    let v := mk_Version e g in
    _ ← lift (validate_version v);
    b ← r_int 8;
    hash ← r_take 32;
    loc ← r_location;
    mret (mk_Commit seq (mk_Metadata o v b) hash loc).

Definition r_frame : R Frame :=
  tag ← r_int 1;
  if tag =? 1 then s ← r_superblock; mret (FSuperblock s)
  else if tag =? 2 then c ← r_commit; mret (FCommit c)
  else if tag =? 3 then seq ← r_int 8; hash ← r_take 32; mret (FReceipt seq hash)
  else fail Invalid.

(** ** Frames *)

Definition frame_size (header : list byte) : result Error Z :=
  if zlen header <? HEADER then Err Incomplete
  else if negb (bool_decide (get_range header 0 8 = Some MAGIC)) then Err Invalid
  else
    major ← le_dec <$> ok_or (get_range header 8 12) Incomplete;
    if negb (major =? VERSION) then Err BadVersion
    else
      len ← le_dec <$> ok_or (get_range header 12 16) Incomplete;
      if (len =? 0) || (MAX_PAYLOAD <? len) then Err Limit
      else ok_or (checked_add 64 HEADER len) Limit.

Section codec.
Context `{!Blake3}.

Definition frame_bytes (payload : list byte) : list byte :=
  MAGIC ++ le_enc 4 VERSION ++ le_enc 4 (zlen payload) ++ blake3 payload ++ payload.

(** [Frame::encode]. *)
Definition encode (f : Frame) : result Error (list byte) :=
  match w_frame f [] with
  | (Ok _, payload) => Ok (frame_bytes payload)
  | (Err e, _) => Err e
  end.

(** [Frame::decode]. *)
Definition decode (bs : list byte) : result Error Frame :=
  size ← frame_size bs;
  payload ← ok_or (get_range bs HEADER size) Incomplete;
  if negb (bool_decide (get_range bs 16 48 = Some (blake3 payload))) then Err Integrity
  else if match get_range bs size (zlen bs) with
          | Some pad => existsb (λ b, negb (bool_decide (b = x00))) pad
          | None => false
          end then Err Invalid
  else
    match r_frame (mk_Reader payload 0) with
    | (Err e, _) => Err e
    | (Ok f, rd) => if negb (at_ rd =? zlen payload) then Err Invalid else Ok f
    end.

End codec.
