(* ===== verification/StoreCodec.v ===== *)
(** * The storage codec is exact

    A frame is decoded from the bytes it is encoded to, padded with zeroes, and from no other
    bytes.  Readers and writers are related to the bytes of a value one combinator at a
    time. *)

From S2P Require Import Prelude StoreFormat.

#[local] Opaque le_enc.

(** ** Lists *)

Lemma get_range_zlen {A} (l b : list A) lo hi : get_range l lo hi = Some b → zlen b = hi - lo.
Proof. apply get_range_length. Qed.

(** Two ranges next to each other are one. *)
Lemma get_range_cat {A} (l a b : list A) lo mid hi :
  mid = lo + zlen a → hi = mid + zlen b →
  get_range l lo hi = Some (a ++ b) ↔ get_range l lo mid = Some a ∧ get_range l mid hi = Some b.
Proof.
  intros -> ->. rewrite !get_range_Some. pose proof (zlen_nonneg a). pose proof (zlen_nonneg b).
  replace (lo + zlen a + zlen b - lo) with (zlen a + zlen b) by lia.
  replace (lo + zlen a - lo) with (zlen a) by lia.
  replace (lo + zlen a + zlen b - (lo + zlen a)) with (zlen b) by lia.
  assert (∀ k : list A, take (Z.to_nat (zlen a + zlen b)) k =
    take (Z.to_nat (zlen a)) k ++ take (Z.to_nat (zlen b)) (drop (Z.to_nat (zlen a)) k)) as E.
  { intros k. rewrite take_drop_commute. rewrite <- (take_drop (Z.to_nat (zlen a)) (take _ k)) at 1.
    rewrite take_take, Nat.min_l by lia. do 3 f_equal. lia. }
  destruct (decide (0 ≤ lo)) as [Hlo|Hlo]; [|split; [intros [? _]|intros [[? _] _]]; lia].
  rewrite E. rewrite (drop_drop l). replace (Z.to_nat (lo + zlen a)) with (Z.to_nat lo + Z.to_nat (zlen a))%nat by lia.
  split.
  - intros (? & ? & Hab). apply app_inj_1 in Hab as [Ha Hb]; [split_and!; done || lia|].
    rewrite length_take, length_drop. unfold zlen in *. lia.
  - intros [(? & ? & Ha) (? & ? & Hb)]. split_and!; [lia..|]. by rewrite <- Ha, <- Hb.
Qed.

Lemma get_range_full {A} (l b : list A) : get_range l 0 (zlen l) = Some b ↔ b = l.
Proof.
  rewrite get_range_Some, drop_0, Z.sub_0_r. unfold zlen. rewrite Nat2Z.id, firstn_all.
  split; [by intros (_ & _ & ->)|]. intros ->. split_and!; lia || done.
Qed.

Lemma get_range_prefix {A} (l b : list A) : get_range l 0 (zlen b) = Some b ↔ ∃ k, l = b ++ k.
Proof.
  split.
  - rewrite get_range_Some, drop_0. intros (_ & _ & E). exists (drop (Z.to_nat (zlen b - 0)) l).
    rewrite E at 1. by rewrite take_drop.
  - intros [k ->]. rewrite <- (app_nil_l (b ++ k)). by apply get_range_app.
Qed.

(** ** Readers *)

Definition reads_to (st : Reader) (bs : list byte) (st' : Reader) : Prop :=
  get_range (r_bytes st) (at_ st) (at_ st + zlen bs) = Some bs ∧
  st' = mk_Reader (r_bytes st) (at_ st + zlen bs).

(** What a reader accepts: the bytes [enc] gives of a value that is [ok]. *)
Class Reads {A} (r : R A) (enc : A → list byte) (ok : A → Prop) : Prop :=
  reads st a st' : zlen (r_bytes st) < 2 ^ 64 → 0 ≤ at_ st ≤ zlen (r_bytes st) →
    r st = (Ok a, st') ↔ ok a ∧ reads_to st (enc a) st'.

Lemma reads_to_nil st st' : 0 ≤ at_ st ≤ zlen (r_bytes st) → reads_to st [] st' ↔ st' = st.
Proof.
  intros H. unfold reads_to. rewrite zlen_nil, Z.add_0_r. rewrite get_range_Some, Z.sub_diag.
  destruct st. simpl in *. split; [by intros [_ ->]|]. intros ->. split_and!; lia || done.
Qed.

Lemma reads_to_app st a b st' :
  reads_to st (a ++ b) st' ↔ ∃ st1, reads_to st a st1 ∧ reads_to st1 b st'.
Proof.
  unfold reads_to. rewrite zlen_app, Z.add_assoc, (get_range_cat _ a b _ (at_ st + zlen a)) by done.
  split.
  - intros [[H1 H2] ->]. eexists. split; [done|]. done.
  - intros (st1 & [H1 ->] & [H2 ->]). done.
Qed.

Lemma reads_to_bounds st a st' :
  reads_to st a st' → r_bytes st' = r_bytes st ∧ 0 ≤ at_ st' ≤ zlen (r_bytes st').
Proof.
  intros [H ->]. simpl. split; [done|]. apply get_range_Some in H as (? & ? & _). lia.
Qed.

Lemma Reads_ext {A} (r : R A) e e' ok ok' :
  Reads r e ok → (∀ a, ok a ↔ ok' a) → (∀ a, ok' a → e a = e' a) → Reads r e' ok'.
Proof.
  intros H Ho He st a st' Hs Hb. rewrite (H st a st' Hs Hb), Ho. split; intros [H1 H2]; split; try done.
  - by rewrite <- He.
  - by rewrite He.
Qed.

Lemma Reads_ret {A} (x : A) ok : (∀ a, ok a ↔ a = x) → Reads (mret x) (λ _, []) ok.
Proof.
  intros Ho st a st' _ Hb. rewrite (reads_to_nil _ _ Hb), Ho. unfold mret, M_ret.
  split; [by intros [= <- <-]|]. by intros [-> ->].
Qed.

Lemma Reads_fail {A} e (enc : A → list byte) ok : (∀ a, ¬ ok a) → Reads (fail e) enc ok.
Proof. intros Ho st a st' _ _. split; [done|]. by intros [?%Ho _]. Qed.

Lemma Reads_bind {A B} (r : R A) (k : A → R B) (g : B → A) e ok eB okB :
  Reads r e ok → (∀ a, ok a → Reads (k a) eB (λ b, g b = a ∧ okB b)) →
  Reads (r ≫= k) (λ b, e (g b) ++ eB b) (λ b, ok (g b) ∧ okB b).
Proof.
  intros Hr Hk st b st' Hs Hb. rewrite reads_to_app. unfold mbind, M_bind. split.
  - destruct (r st) as [[a|er] st1] eqn:E; [|done]. apply Hr in E as [Ha Hto]; [|done..].
    destruct (reads_to_bounds _ _ _ Hto) as [Es Hb1].
    rewrite (Hk a Ha st1 b st') by (done || by rewrite Es). intros [[<- Hob] Hto']. naive_solver.
  - intros [[Ha Hob] (st1 & H1 & H2)]. destruct (reads_to_bounds _ _ _ H1) as [Es Hb1].
    assert (r st = (Ok (g b), st1)) as -> by by apply Hr.
    apply (Hk _ Ha); [by rewrite Es|done|]. done.
Qed.

(** A reader whose value is wrapped in a constructor. *)
Lemma Reads_map {A B} (r : R A) (C : A → B) e ok eB okB :
  Reads r e ok → (∀ a, ok a → eB (C a) = e a) → (∀ b, okB b ↔ ∃ a, b = C a ∧ ok a) →
  Reads (a ← r; mret (C a)) eB okB.
Proof.
  intros Hr He Ho st b st' Hs Hb. unfold mbind, M_bind, mret, M_ret. split.
  - destruct (r st) as [[a|er] st1] eqn:E; [|done]. apply Hr in E as [Ha Hto]; [|done..].
    intros [= <- <-]. rewrite Ho, He by done. naive_solver.
  - rewrite Ho. intros [(a & -> & Ha) Hto]. rewrite He in Hto by done.
    assert (r st = (Ok a, st')) as ->; [by apply Hr|done].
Qed.

(** A check on the way. *)
Lemma Reads_guard {A} (v : result Error unit) (k : R A) e ok ok' :
  (v = Ok tt → Reads k e ok') → (∀ a, ok a ↔ v = Ok tt ∧ ok' a) →
  Reads (_ ← lift v; k) e ok.
Proof.
  intros Hk Ho st a st' Hs Hb. rewrite Ho. unfold mbind, M_bind, lift.
  destruct v as [[]|er]; [|naive_solver]. rewrite (Hk eq_refl st a st' Hs Hb). naive_solver.
Qed.

#[export] Instance r_take_reads n : 0 ≤ n → Reads (r_take n) (λ b, b) (λ b, zlen b = n).
Proof.
  intros Hn st b st' Hs Hb. unfold r_take, reads_to. split.
  - destruct (checked_add 64 (at_ st) n) as [e|] eqn:E; [|done]. apply checked_add_Some in E as [-> _].
    destruct (get_range _ _ _) as [b'|] eqn:G; [|done]. intros [= -> <-].
    pose proof (get_range_zlen _ _ _ _ G). replace (zlen b) with n by lia. done.
  - intros [<- [G ->]]. pose proof (proj1 (get_range_Some _ _ _ _) G) as (? & ? & _).
    assert (checked_add 64 (at_ st) (zlen b) = Some (at_ st + zlen b)) as ->
      by (apply checked_add_Some; lia). by rewrite G.
Qed.

Lemma r_int_reads n : Reads (r_int n) (le_enc n) (in_width (8 * Z.of_nat n)).
Proof.
  intros st z st' Hs Hb. unfold r_int, mbind, M_bind, mret, M_ret. split.
  - destruct (r_take (Z.of_nat n) st) as [[b|er] st1] eqn:E; [|done].
    apply r_take_reads in E as [Hn Hto]; [|lia|done..]. intros [= <- <-].
    rewrite le_enc_dec by (unfold zlen in Hn; lia). split; [|done]. rewrite <- Hn. apply le_dec_range.
  - intros [Hz Hto]. assert (r_take (Z.of_nat n) st = (Ok (le_enc n z), st')) as ->.
    { apply r_take_reads; [lia|done|done|]. split; [apply zlen_le_enc|done]. }
    by rewrite le_dec_enc_small.
Qed.
#[export] Existing Instance r_int_reads.

(** ** Writers *)

(** A writer that appends [bs] when [ok] and the payload's limit let it. *)
Class Writes (w : W) (ok : Prop) (bs : list byte) : Prop :=
  writes st st' : zlen st ≤ MAX_PAYLOAD →
    w st = (Ok tt, st') ↔ ok ∧ st' = st ++ bs ∧ zlen st' ≤ MAX_PAYLOAD.

Lemma Writes_ext w ok ok' bs bs' :
  Writes w ok bs → (ok ↔ ok') → bs = bs' → Writes w ok' bs'.
Proof. intros H Ho <- st st' Hs. rewrite (H st st' Hs). naive_solver. Qed.

Lemma Writes_seq w k ok1 ok2 b1 b2 :
  Writes w ok1 b1 → (ok1 → Writes k ok2 b2) → Writes (_ ← w; k) (ok1 ∧ ok2) (b1 ++ b2).
Proof.
  intros H1 H2 st st' Hs. unfold mbind, M_bind. split.
  - destruct (w st) as [[[]|e] st1] eqn:E; [|done]. apply H1 in E as (Ho & -> & Hl); [|done].
    rewrite (H2 Ho _ _ Hl), app_assoc. naive_solver.
  - intros ([Ho1 Ho2] & -> & Hl).
    assert (w st = (Ok tt, st ++ b1)) as ->.
    { apply H1; [done|]. split; [done|]. split; [done|]. rewrite !zlen_app in *.
      pose proof (zlen_nonneg b2). lia. }
    rewrite app_assoc in *. apply (H2 Ho1); [|done]. rewrite !zlen_app in *. pose proof (zlen_nonneg b2). lia.
Qed.

Lemma Writes_ret : Writes (mret tt) True [].
Proof.
  intros st st' Hs. rewrite app_nil_r. unfold mret, M_ret. split; [by intros [= <-]|]. by intros (_ & -> & _).
Qed.

Lemma Writes_guard (v : result Error unit) : Writes (lift v) (v = Ok tt) [].
Proof.
  intros st st' Hs. rewrite app_nil_r. unfold lift. destruct v as [[]|e]; [|naive_solver].
  split; [by intros [= <-]|]. by intros (_ & -> & _).
Qed.

Lemma w_bytes_writes bs : Writes (w_bytes bs) True bs.
Proof.
  intros st st' Hs. unfold w_bytes. destruct (checked_add 64 (zlen st) (zlen bs)) as [n|] eqn:E.
  - apply checked_add_Some in E as [-> _]. destruct (Z.ltb_spec MAX_PAYLOAD (zlen st + zlen bs)).
    + split; [done|]. intros (_ & -> & Hl). rewrite zlen_app in Hl. lia.
    + split; [intros [= <-]; rewrite zlen_app; naive_solver lia|]. by intros (_ & -> & _).
  - apply checked_add_None in E. split; [done|]. intros (_ & -> & Hl). rewrite zlen_app in Hl. lia.
Qed.

Lemma w_int_writes n z : Writes (w_int n z) True (le_enc n z).
Proof. apply w_bytes_writes. Qed.

(** The sequence of writers of a record. *)
Ltac write_step :=
  match goal with
  | |- Writes (mbind _ _) _ _ => eapply Writes_seq; [|intros ?]
  | |- Writes (lift _) _ _ => apply Writes_guard
  | |- Writes (w_int _ _) _ _ => apply w_int_writes
  | |- Writes (w_bytes _) _ _ => apply w_bytes_writes
  | |- Writes (mret tt) _ _ => apply Writes_ret
  end.

Definition text_bytes (t : list byte) : list byte := le_enc 4 (zlen t) ++ t.
Definition optional_bytes (t : option (list byte)) : list byte :=
  match t with Some t => le_enc 1 1 ++ text_bytes t | None => le_enc 1 0 end.
Definition tree_bytes (tree : list TreeLevel) : list byte :=
  flat_map (λ l, le_enc 8 (lv_offset l) ++ le_enc 8 (lv_nodes l)) tree.

(** A [String] is UTF-8. *)
Definition text_ok (t : list byte) : Prop := utf8_valid t = true.
Definition optional_ok (t : option (list byte)) : Prop := match t with Some t => text_ok t | None => True end.
Definition short (t : list byte) : Prop := zlen t ≤ MAX_PAYLOAD.
Definition short_opt (t : option (list byte)) : Prop := match t with Some t => short t | None => True end.
Definition level_ok (l : TreeLevel) : Prop := u64 (lv_offset l) ∧ u64 (lv_nodes l).

Lemma w_text_writes t : Writes (w_text t) (short t) (text_bytes t).
Proof.
  unfold w_text, short. destruct (Z.ltb_spec MAX_PAYLOAD (zlen t)).
  - intros st st' Hs. split; [done|]. lia.
  - eapply Writes_ext; [repeat write_step| |done]. naive_solver lia.
Qed.

Lemma w_optional_writes t : Writes (w_optional t) (short_opt t) (optional_bytes t).
Proof.
  destruct t as [t|]; simpl.
  - eapply Writes_ext; [write_step; [write_step|apply w_text_writes]| |done]. naive_solver.
  - apply w_int_writes.
Qed.

Lemma w_tree_writes tree : Writes (w_tree tree) True (tree_bytes tree).
Proof.
  induction tree as [|l tree IH]; [apply Writes_ret|]. unfold w_tree, tree_bytes. simpl.
  eapply Writes_ext; [write_step; [write_step|write_step; [write_step|apply IH]]| |]; [naive_solver|].
  by rewrite <- app_assoc.
Qed.

Lemma r_text_reads : Reads r_text text_bytes (λ t, text_ok t ∧ short t).
Proof.
  unfold r_text. eapply Reads_ext.
  - apply (Reads_bind _ _ zlen _ _ (λ b, b) (λ t, text_ok t ∧ short t) (r_int_reads 4)). intros n Hn.
    destruct (Z.ltb_spec MAX_PAYLOAD n); [apply Reads_fail; unfold short; lia|].
    eapply Reads_ext.
    + apply (Reads_bind _ _ (λ b, b) _ _ (λ _, []) (λ t, zlen t = n ∧ text_ok t ∧ short t) (r_take_reads n ltac:(apply Hn))).
      intros b Hb. destruct (utf8_valid b) eqn:Eu.
      * apply Reads_ret. intros t. split; [by intros [-> _]|]. intros ->. unfold text_ok, short. split_and!; [done|done|done|lia].
      * apply Reads_fail. intros t [-> (_ & Ht & _)]. unfold text_ok in Ht. congruence.
    + intros t. simpl. naive_solver.
    + intros t _. simpl. by rewrite app_nil_r.
  - intros t. simpl. unfold short. pose proof (zlen_nonneg t). split; [by intros [_ ?]|]. intros [? ?]. split; [|done].
    unfold in_width. simpl. lia.
  - done.
Qed.

Lemma r_optional_reads : Reads r_optional optional_bytes (λ t, optional_ok t ∧ short_opt t).
Proof.
  set (tag := λ o : option (list byte), if o is Some _ then 1 else 0).
  set (body := λ o : option (list byte), if o is Some t then text_bytes t else []).
  eapply Reads_ext.
  - apply (Reads_bind _ _ tag _ _ body (λ t, optional_ok t ∧ short_opt t) (r_int_reads 1)). intros n _.
    destruct (Z.eqb_spec n 0) as [->|]; [|destruct (Z.eqb_spec n 1) as [->|]].
    + eapply Reads_ext; [apply (Reads_ret None (λ o, o = None)); done| |].
      * intros [t|]; unfold tag; simpl; naive_solver.
      * intros [t|]; unfold tag, body; naive_solver.
    + eapply (Reads_map _ _ _ _ _ _ r_text_reads); [done|]. intros [t|]; unfold tag; simpl; naive_solver.
    + apply Reads_fail. intros [t|]; unfold tag; simpl; naive_solver.
  - assert (∀ o, in_width (8 * Z.of_nat 1) (tag o)) as Ht by (by intros [t|]). intros t. specialize (Ht t). tauto.
  - by intros [t|].
Qed.

Lemma r_tree_reads n :
  Reads (r_tree n) tree_bytes (λ tree, length tree = n ∧ Forall level_ok tree).
Proof.
  induction n as [|n IH]; simpl.
  - eapply Reads_ext; [apply (Reads_ret [] (λ t, t = [])); done| |].
    + intros [|]; simpl; naive_solver.
    + by intros [|] [? _].
  - set (hd := λ t : list TreeLevel, default (mk_TreeLevel 0 0) (head t)).
    eapply Reads_ext.
    + apply (Reads_bind _ _ (λ t, lv_offset (hd t)) _ _
        (λ t, le_enc 8 (lv_nodes (hd t)) ++ tree_bytes (tail t))
        (λ t, u64 (lv_nodes (hd t)) ∧ length t = S n ∧ Forall level_ok (tail t)) (r_int_reads 8)).
      intros off Hoff. eapply Reads_ext.
      * apply (Reads_bind _ _ (λ t, lv_nodes (hd t)) _ _ (λ t, tree_bytes (tail t))
          (λ t, lv_offset (hd t) = off ∧ length t = S n ∧ Forall level_ok (tail t)) (r_int_reads 8)).
        intros nodes Hnodes. eapply (Reads_map _ _ _ _ _ _ IH); [done|].
        intros [|[o m] t]; simpl; naive_solver.
      * intros t. simpl. naive_solver.
      * done.
    + intros [|l t]; simpl; [naive_solver|]. rewrite Forall_cons. unfold level_ok. naive_solver.
    + intros [|l t]; simpl; [naive_solver|]. intros _. unfold tree_bytes. simpl. by rewrite <- app_assoc.
Qed.

(** ** Records, field by field *)

(** The fields read so far are those of the value: [H] collects them. *)
Lemma Reads_field {A B} (r : R A) (k : A → R B) (g : B → A) (H : B → Prop) e ok eB okB :
  Reads r e ok → (∀ a, ok a → Reads (k a) eB (λ b, (H b ∧ g b = a) ∧ okB b)) →
  Reads (r ≫= k) (λ b, e (g b) ++ eB b) (λ b, H b ∧ (ok (g b) ∧ okB b)).
Proof.
  intros Hr Hk. eapply Reads_ext.
  - apply (Reads_bind r k g e ok eB (λ b, H b ∧ okB b) Hr). intros a Ha.
    eapply Reads_ext; [apply (Hk a Ha)| |done]. naive_solver.
  - naive_solver.
  - done.
Qed.

Lemma Reads_check {A} (v : result Error unit) (k : R A) (H valid : A → Prop) e ok :
  (∀ a, H a → (valid a ↔ v = Ok tt)) → (v = Ok tt → Reads k e (λ a, H a ∧ ok a)) →
  Reads (_ ← lift v; k) e (λ a, H a ∧ (valid a ∧ ok a)).
Proof. intros Hv Hk. eapply Reads_guard; [exact Hk|]. naive_solver. Qed.

Lemma Reads_unless {A} (b : bool) er (k : R A) (H valid : A → Prop) e ok :
  (∀ a, H a → (valid a ↔ b = false)) → (b = false → Reads k e (λ a, H a ∧ ok a)) →
  Reads (if b then fail er else k) e (λ a, H a ∧ (valid a ∧ ok a)).
Proof.
  intros Hv Hk. destruct b; [apply Reads_fail; naive_solver|].
  eapply Reads_ext; [exact (Hk eq_refl)| |done]. naive_solver.
Qed.

Lemma Reads_done {A} (x : A) (H : A → Prop) :
  (∀ a, H a ↔ a = x) → Reads (mret x) (λ _, []) (λ a, H a ∧ True).
Proof. intros Hx. apply Reads_ret. naive_solver. Qed.

Lemma Reads_same {A} (r : R A) (H : A → Prop) e e' ok ok' :
  Reads r e (λ a, H a ∧ ok a) → (∀ a, H a → (ok a ↔ ok' a)) → (∀ a, H a → e a = e' a) →
  Reads r e' (λ a, H a ∧ ok' a).
Proof. intros Hr Ho He. eapply Reads_ext; [exact Hr| |]; naive_solver. Qed.

Lemma Reads_start {A} (r : R A) e ok : Reads r e (λ a, True ∧ ok a) → Reads r e ok.
Proof. intros H. eapply Reads_ext; [exact H| |done]. naive_solver. Qed.

#[export] Existing Instances r_text_reads r_optional_reads r_tree_reads.

Ltac read_field g := eapply (Reads_field _ _ g); [apply _ || by apply r_take_reads|intros ? ?].

(** A record is the one made of its fields. *)
Ltac record_eq :=
  let a := fresh in
  intros a; destruct a; simpl; split; [intros ?; destruct_and!; by subst|intros [=]; subst; by split_and?].
Ltac record_same :=
  let a := fresh in let H := fresh in intros a H; destruct a; simpl in H; destruct_and!; by subst.

Definition superblock_bytes (s : Superblock) : list byte :=
  le_enc 8 (capacity s) ++ le_enc 4 (alignment s) ++ le_enc 8 (log_offset s) ++
  le_enc 8 (log_bytes s) ++ le_enc 8 (data_offset s) ++ le_enc 1 (role_code (role s)) ++
  text_bytes (sb_workspace s) ++ text_bytes (sb_bucket s).

(** A superblock the program can have: its integers have their width, its strings are UTF-8. *)
Definition superblock_ok (s : Superblock) : Prop :=
  u64 (capacity s) ∧ u32 (alignment s) ∧ u64 (log_offset s) ∧ u64 (log_bytes s) ∧
  u64 (data_offset s) ∧ text_ok (sb_workspace s) ∧ text_ok (sb_bucket s).

Lemma r_role_reads : Reads r_role (λ r, le_enc 1 (role_code r)) (λ _, True).
Proof.
  eapply Reads_ext.
  - apply (Reads_bind _ _ role_code _ _ (λ _, []) (λ _, True) (r_int_reads 1)). intros n _.
    repeat match goal with |- Reads (if ?a =? ?b then _ else _) _ _ => destruct (Z.eqb_spec a b) as [->|] end;
      first [apply Reads_ret; intros []; simpl; naive_solver|apply Reads_fail; intros [] [Hn _]; simpl in Hn; lia].
  - by intros [].
  - intros r _. simpl. by rewrite app_nil_r.
Qed.
#[export] Existing Instance r_role_reads.

Lemma r_superblock_reads :
  Reads r_superblock superblock_bytes
    (λ s, superblock_ok s ∧ short (sb_workspace s) ∧ short (sb_bucket s) ∧ validate_superblock s = Ok tt).
Proof.
  eapply Reads_ext.
  - apply Reads_start.
    read_field capacity. read_field alignment. read_field log_offset. read_field log_bytes.
    read_field data_offset. read_field role. read_field sb_workspace. read_field sb_bucket.
    apply (Reads_check _ _ _ (λ s, validate_superblock s = Ok tt)).
    + record_same.
    + intros _. apply Reads_done. record_eq.
  - intros s. simpl. unfold superblock_ok. tauto.
  - intros s _. unfold superblock_bytes. simpl. by rewrite app_nil_r.
Qed.
#[export] Existing Instance r_superblock_reads.

Definition superblock_valid (s : Superblock) : Prop :=
  validate_superblock s = Ok tt ∧ short (sb_workspace s) ∧ short (sb_bucket s).

Lemma w_superblock_writes s :
  Writes (w_superblock s) (superblock_valid s) (le_enc 1 1 ++ superblock_bytes s).
Proof.
  eapply Writes_ext; [unfold w_superblock; repeat (write_step || apply w_text_writes)| |done].
  unfold superblock_valid. tauto.
Qed.

(** ** Commits *)

Definition location_tag (l : Location) : Z := match l with File _ => 0 | Extent _ _ _ _ => 1 end.
Definition location_body (l : Location) : list byte :=
  match l with
  | File id => id
  | Extent off padded tree root =>
      le_enc 8 off ++ le_enc 8 padded ++ le_enc 4 (zlen tree) ++ tree_bytes tree ++ root
  end.
Definition location_bytes (l : Location) : list byte := le_enc 1 (location_tag l) ++ location_body l.

Definition location_ok (l : Location) : Prop :=
  match l with
  | File id => zlen id = 32
  | Extent off padded tree root => u64 off ∧ u64 padded ∧ Forall level_ok tree ∧ zlen root = 32
  end.
Definition location_valid (l : Location) : Prop :=
  match l with File _ => True | Extent _ _ tree _ => zlen tree ≤ 64 end.

Lemma w_location_writes l : Writes (w_location l) (location_valid l) (location_bytes l).
Proof.
  destruct l as [id|off padded tree root]; unfold location_bytes; simpl.
  - eapply Writes_ext; [repeat write_step| |done]. naive_solver.
  - destruct (Z.ltb_spec 64 (zlen tree)); [intros st st' Hs; split; [done|lia]|].
    eapply Writes_ext; [repeat (write_step || apply w_tree_writes)| |done]. tauto.
Qed.

(** The fields of an extent. *)
Definition l_offset (l : Location) : Z := match l with Extent o _ _ _ => o | _ => 0 end.
Definition l_padded (l : Location) : Z := match l with Extent _ p _ _ => p | _ => 0 end.
Definition l_tree (l : Location) : list TreeLevel := match l with Extent _ _ t _ => t | _ => [] end.
Definition l_root (l : Location) : list byte := match l with Extent _ _ _ r => r | File r => r end.

(** What [r_location] reads after the tag of an extent. *)
Lemma r_extent_reads :
  Reads (off ← r_int 8; padded ← r_int 8; levels ← r_int 4;
         if 64 <? levels then fail Limit
         else tree ← r_tree (Z.to_nat levels); root ← r_take 32; mret (Extent off padded tree root))
    location_body (λ l, location_tag l = 1 ∧ location_ok l ∧ location_valid l).
Proof.
  eapply Reads_same.
  - read_field l_offset. read_field l_padded.
    apply (Reads_field _ _ (λ l, zlen (l_tree l)) _ _ _ (λ l, tree_bytes (l_tree l) ++ l_root l ++ [])
      (λ l, zlen (l_tree l) ≤ 64 ∧ Forall level_ok (l_tree l) ∧ zlen (l_root l) = 32) (r_int_reads 4)).
    intros levels Hl. destruct (Z.ltb_spec 64 levels); [apply Reads_fail; naive_solver lia|].
    eapply Reads_same.
    + read_field l_tree. read_field l_root. apply Reads_done.
      intros [|]; simpl; [split; [intros ?; by destruct_and!|done]|].
      split; [intros ?; destruct_and!; by subst|]. intros [= -> -> -> ->]. split_and!; try done.
      unfold zlen. destruct Hl. simpl in *. lia.
    + intros l Hh. simpl. unfold zlen in *. destruct Hl. destruct_and!.
      split; intros ?; destruct_and!; split_and!; done || lia.
    + done.
  - intros [|off padded tree root]; simpl; [done|]. intros _. pose proof (zlen_nonneg tree).
    split; intros ?; destruct_and!; split_and!; try done. unfold in_width. lia.
  - intros [|]; simpl; [done|]. intros _. by rewrite app_nil_r.
Qed.

Lemma r_location_reads : Reads r_location location_bytes (λ l, location_ok l ∧ location_valid l).
Proof.
  eapply Reads_ext.
  - apply (Reads_bind _ _ location_tag _ _ location_body (λ l, location_ok l ∧ location_valid l) (r_int_reads 1)).
    intros n _. destruct (Z.eqb_spec n 0) as [->|]; [|destruct (Z.eqb_spec n 1) as [->|]].
    + eapply (Reads_map _ _ _ _ _ _ (r_take_reads 32 ltac:(done))); [done|].
      intros [|]; simpl; naive_solver.
    + apply r_extent_reads.
    + apply Reads_fail. intros [|] [Hn _]; simpl in Hn; lia.
  - intros l. assert (in_width (8 * Z.of_nat 1) (location_tag l)) by (by destruct l). tauto.
  - done.
Qed.
#[export] Existing Instance r_location_reads.

Definition commit_bytes (c : Commit) : list byte :=
  let m := metadata c in
  le_enc 8 (sequence c) ++ text_bytes (workspace (object m)) ++ text_bytes (bucket (object m)) ++
  text_bytes (key (object m)) ++ optional_bytes (etag (version m)) ++
  optional_bytes (generation (version m)) ++ le_enc 8 (bytes m) ++ content_hash c ++
  location_bytes (location c).

Definition object_ok (o : Object) : Prop := text_ok (workspace o) ∧ text_ok (bucket o) ∧ text_ok (key o).
Definition version_ok (v : Version) : Prop := optional_ok (etag v) ∧ optional_ok (generation v).
Definition metadata_ok (m : Metadata) : Prop := object_ok (object m) ∧ version_ok (version m) ∧ u64 (bytes m).
Definition commit_ok (c : Commit) : Prop :=
  u64 (sequence c) ∧ metadata_ok (metadata c) ∧ zlen (content_hash c) = 32 ∧ location_ok (location c).

Definition commit_valid (c : Commit) : Prop :=
  let m := metadata c in
  validate_object (object m) = Ok tt ∧ validate_version (version m) = Ok tt ∧ key (object m) ≠ [] ∧
  (short (workspace (object m)) ∧ short (bucket (object m)) ∧ short (key (object m))) ∧
  (short_opt (etag (version m)) ∧ short_opt (generation (version m))) ∧ location_valid (location c).

Lemma is_nil_spec {A} (l : list A) : is_nil l = true ↔ l = [].
Proof. by destruct l. Qed.

Lemma w_commit_writes c : Writes (w_commit c) (commit_valid c) (le_enc 1 2 ++ commit_bytes c).
Proof.
  unfold w_commit. destruct (is_nil (key (object (metadata c)))) eqn:Ek.
  - apply is_nil_spec in Ek. intros st st' Hs. split; [|unfold commit_valid; tauto].
    unfold mbind, M_bind, lift. destruct (validate_object _) as [[]|]; [|done].
    by destruct (validate_version _) as [[]|].
  - eapply Writes_ext; [repeat (write_step || apply w_text_writes || apply w_optional_writes || apply w_location_writes)| |done].
    assert (key (object (metadata c)) ≠ []) by (by rewrite <- is_nil_spec, Ek). unfold commit_valid. tauto.
Qed.

Lemma r_commit_reads : Reads r_commit commit_bytes (λ c, commit_ok c ∧ commit_valid c).
Proof.
  eapply Reads_ext.
  - apply Reads_start. read_field sequence.
    read_field (λ c, workspace (object (metadata c))). read_field (λ c, bucket (object (metadata c))).
    read_field (λ c, key (object (metadata c))).
    apply (Reads_check _ _ _ (λ c, validate_object (object (metadata c)) = Ok tt)).
    { intros [? [[] ? ?] ? ?] ?. simpl in *. destruct_and!. by subst. }
    intros _. apply (Reads_unless _ _ _ _ (λ c, key (object (metadata c)) ≠ [])).
    { intros c Hc. rewrite <- is_nil_spec. destruct_and!. subst. by destruct (is_nil _). }
    intros _. read_field (λ c, etag (version (metadata c))). read_field (λ c, generation (version (metadata c))).
    apply (Reads_check _ _ _ (λ c, validate_version (version (metadata c)) = Ok tt)).
    { intros [? [? [] ?] ? ?] ?. simpl in *. destruct_and!. by subst. }
    intros _. read_field (λ c, bytes (metadata c)). read_field content_hash. read_field location.
    apply Reads_done. intros [? [[] [] ?] ? ?]. simpl.
    split; [intros ?; destruct_and!; by subst|]. intros [=]. subst. by split_and!.
  - intros c. unfold commit_ok, commit_valid, metadata_ok, object_ok, version_ok. simpl. tauto.
  - intros c _. unfold commit_bytes. by rewrite app_nil_r.
Qed.
#[export] Existing Instance r_commit_reads.

(** ** Frames *)

Definition frame_tag (f : Frame) : Z := match f with FSuperblock _ => 1 | FCommit _ => 2 | FReceipt _ _ => 3 end.
Definition frame_body (f : Frame) : list byte :=
  match f with
  | FSuperblock s => superblock_bytes s
  | FCommit c => commit_bytes c
  | FReceipt seq hash => le_enc 8 seq ++ hash
  end.
Definition payload_of (f : Frame) : list byte := le_enc 1 (frame_tag f) ++ frame_body f.

(** A frame the program can have. *)
Definition frame_ok (f : Frame) : Prop :=
  match f with
  | FSuperblock s => superblock_ok s
  | FCommit c => commit_ok c
  | FReceipt seq hash => u64 seq ∧ zlen hash = 32
  end.
Definition frame_valid (f : Frame) : Prop :=
  match f with
  | FSuperblock s => superblock_valid s
  | FCommit c => commit_valid c
  | FReceipt _ _ => True
  end.

Lemma w_frame_writes f : Writes (w_frame f) (frame_valid f) (payload_of f).
Proof.
  destruct f as [s|c|seq hash]; unfold payload_of; simpl.
  - apply w_superblock_writes.
  - apply w_commit_writes.
  - eapply Writes_ext; [repeat write_step| |done]. tauto.
Qed.

Lemma r_frame_reads : Reads r_frame payload_of (λ f, frame_ok f ∧ frame_valid f).
Proof.
  eapply Reads_ext.
  - apply (Reads_bind _ _ frame_tag _ _ frame_body (λ f, frame_ok f ∧ frame_valid f) (r_int_reads 1)).
    intros n _. destruct (Z.eqb_spec n 1) as [->|]; [|destruct (Z.eqb_spec n 2) as [->|];
      [|destruct (Z.eqb_spec n 3) as [->|]]].
    + eapply (Reads_map _ _ _ _ _ _ r_superblock_reads); [done|].
      intros [s|c|seq hash]; simpl; [|naive_solver..]. unfold superblock_valid. naive_solver.
    + eapply (Reads_map _ _ _ _ _ _ r_commit_reads); [done|].
      intros [s|c|seq hash]; simpl; naive_solver.
    + set (r_seq := λ f, if f is FReceipt seq _ then seq else 0).
      set (r_hash := λ f, if f is FReceipt _ hash then hash else []).
      eapply Reads_same.
      * read_field r_seq. read_field r_hash. apply Reads_done.
        intros [s|c|seq hash]; simpl; [by split; [intros ?; destruct_and!|]..|].
        split; [intros ?; destruct_and!; by subst|]. by intros [= -> ->].
      * intros [s|c|seq hash]; simpl; [done..|]. intros _. unfold r_seq, r_hash. tauto.
      * intros [s|c|seq hash]; simpl; [done..|]. intros _. by rewrite app_nil_r.
    + apply Reads_fail. intros [s|c|seq hash] [Hn _]; simpl in Hn; lia.
  - intros f. assert (in_width (8 * Z.of_nat 1) (frame_tag f)) by (by destruct f). tauto.
  - done.
Qed.

Lemma zlen_MAGIC : zlen MAGIC = 8.
Proof. done. Qed.
#[local] Opaque MAGIC.

Lemma frame_size_Ok bs size :
  frame_size bs = Ok size ↔
  ∃ len rest, bs = (MAGIC ++ le_enc 4 VERSION ++ le_enc 4 len) ++ rest ∧ 32 ≤ zlen rest ∧
    0 < len ≤ MAX_PAYLOAD ∧ size = HEADER + len.
Proof.
  unfold frame_size. split.
  - destruct (Z.ltb_spec (zlen bs) HEADER); [done|]. case_bool_decide as Hm; [|done]. simpl.
    destruct (get_range bs 8 12) as [v|] eqn:Hv; [|done]. simpl.
    destruct (Z.eqb_spec (le_dec v) VERSION) as [Ev|]; [|done]. simpl.
    destruct (get_range bs 12 16) as [l|] eqn:Hl; [|done]. simpl.
    destruct (Z.eqb_spec (le_dec l) 0); [done|]. destruct (Z.ltb_spec MAX_PAYLOAD (le_dec l)); [done|]. simpl.
    pose proof (le_dec_range l). pose proof (get_range_zlen _ _ _ _ Hv) as Lv. pose proof (get_range_zlen _ _ _ _ Hl) as Ll.
    destruct (checked_add 64 HEADER (le_dec l)) as [z|] eqn:Ec; [|done]. apply checked_add_Some in Ec as [-> _].
    intros [= <-].
    assert (get_range bs 0 16 = Some (MAGIC ++ v ++ l)) as G.
    { apply (get_range_cat _ MAGIC (v ++ l) 0 8); [by rewrite zlen_MAGIC|rewrite zlen_app; lia|]. split; [done|].
      apply (get_range_cat _ v l 8 12); [lia|lia|done]. }
    change 16 with (8 + 4 + 4) in G. replace (8 + 4 + 4) with (zlen (MAGIC ++ v ++ l)) in G
      by (rewrite !zlen_app, Lv, Ll, zlen_MAGIC; lia).
    apply get_range_prefix in G as [rest ->]. exists (le_dec l), rest.
    rewrite (le_enc_dec l 4) by (unfold zlen in Ll; lia). rewrite <- Ev, (le_enc_dec v 4) by (unfold zlen in Lv; lia).
    rewrite !zlen_app, Lv, Ll in H. rewrite zlen_MAGIC in H. split_and!; [done|lia|lia|done|done].
  - intros (len & rest & -> & Hr & Hlen & ->). rewrite !zlen_app, !zlen_le_enc. rewrite zlen_MAGIC.
    destruct (Z.ltb_spec (8 + (Z.of_nat 4 + Z.of_nat 4) + zlen rest) HEADER); [lia|].
    set (v := le_enc 4 VERSION). set (l := le_enc 4 len).
    assert (zlen v = 4 ∧ zlen l = 4) as [Lv Ll] by (unfold v, l; by rewrite !zlen_le_enc).
    pose proof zlen_MAGIC as Lm.
    replace ((MAGIC ++ v ++ l) ++ rest) with (MAGIC ++ v ++ (l ++ rest)) by (by rewrite <- !app_assoc).
    assert (get_range (MAGIC ++ v ++ (l ++ rest)) 0 8 = Some MAGIC) as ->
      by (rewrite <- Lm; apply get_range_prefix; by eexists).
    rewrite bool_decide_eq_true_2 by done. simpl.
    rewrite (get_range_app MAGIC v (l ++ rest) 8 12) by lia. simpl.
    rewrite app_assoc, (get_range_app (MAGIC ++ v) l rest 12 16) by (rewrite zlen_app; lia). simpl.
    unfold v, l.
    rewrite !le_dec_enc_small by (unfold in_width; simpl; lia). simpl.
    destruct (Z.eqb_spec len 0); [lia|]. destruct (Z.ltb_spec MAX_PAYLOAD len); [lia|]. simpl.
    unfold checked_add. by destruct (Z.leb_spec (HEADER + len) (umax 64)); [|unfold umax in *; lia].
Qed.

Lemma all_zero_repeat (l : list byte) :
  existsb (λ b, negb (bool_decide (b = x00))) l = false ↔ l = repeat x00 (length l).
Proof.
  induction l as [|b l IH]; [done|]. simpl. rewrite orb_false_iff, IH, negb_false_iff, bool_decide_eq_true.
  split; [by intros [-> <-]|]. by intros [= -> <-].
Qed.

Section frames.
Context `{!Blake3}.

Lemma encode_Ok f e :
  encode f = Ok e ↔ frame_valid f ∧ zlen (payload_of f) ≤ MAX_PAYLOAD ∧ e = frame_bytes (payload_of f).
Proof.
  pose proof (λ st', w_frame_writes f [] st' ltac:(done)) as Hw. unfold encode.
  destruct (w_frame f []) as [[[]|er] p]; simpl in Hw.
  - destruct (proj1 (Hw p) eq_refl) as (Hv & -> & Hl). split; [by intros [= <-]|]. by intros (_ & _ & ->).
  - split; [done|]. intros (Hv & Hl & _). discriminate (proj2 (Hw (payload_of f)) (conj Hv (conj eq_refl Hl))).
Qed.

Lemma payload_pos f : 0 < zlen (payload_of f).
Proof. unfold payload_of. rewrite zlen_app, zlen_le_enc. pose proof (zlen_nonneg (frame_body f)). lia. Qed.

(** A frame's payload read to its end. *)
Lemma r_frame_whole p f rd :
  zlen p < 2 ^ 64 →
  r_frame (mk_Reader p 0) = (Ok f, rd) ∧ at_ rd = zlen p ↔
  frame_ok f ∧ frame_valid f ∧ p = payload_of f ∧ rd = mk_Reader p (zlen p).
Proof.
  intros Hp. pose proof (zlen_nonneg p). rewrite (r_frame_reads (mk_Reader p 0) f rd) by (simpl; lia).
  unfold reads_to. simpl. split.
  - intros [[[Ho Hv] [G ->]] E]. simpl in E. rewrite E in G. apply get_range_full in G.
    split_and!; [done|done|done|by rewrite E].
  - intros (Ho & Hv & -> & ->). split_and!; try done. by apply get_range_full.
Qed.

(** Decoding by the parts of the bytes. *)
Lemma decode_parts h p pad :
  zlen h = 32 → 0 < zlen p ≤ MAX_PAYLOAD →
  decode ((MAGIC ++ le_enc 4 VERSION ++ le_enc 4 (zlen p)) ++ h ++ p ++ pad) =
  if negb (bool_decide (h = blake3 p)) then Err Integrity
  else if existsb (λ b, negb (bool_decide (b = x00))) pad then Err Invalid
  else match r_frame (mk_Reader p 0) with
       | (Err e, _) => Err e
       | (Ok f, rd) => if negb (at_ rd =? zlen p) then Err Invalid else Ok f
       end.
Proof.
  intros Lh Lp. unfold decode. set (hd := MAGIC ++ le_enc 4 VERSION ++ le_enc 4 (zlen p)).
  assert (zlen hd = 16) as Lhd by (unfold hd; by rewrite !zlen_app, !zlen_le_enc, zlen_MAGIC).
  assert (frame_size (hd ++ h ++ p ++ pad) = Ok (HEADER + zlen p)) as ->.
  { apply frame_size_Ok. exists (zlen p), (h ++ p ++ pad). rewrite zlen_app, Lh.
    pose proof (zlen_nonneg (p ++ pad)). split_and!; [done|lia..]. }
  simpl. rewrite (get_range_app hd h (p ++ pad) 16 48) by lia.
  replace (hd ++ h ++ p ++ pad) with ((hd ++ h) ++ p ++ pad) by (by rewrite <- app_assoc).
  rewrite (get_range_app (hd ++ h) p pad HEADER (HEADER + zlen p)) by (rewrite zlen_app; lia). simpl.
  replace ((hd ++ h) ++ p ++ pad) with (((hd ++ h) ++ p) ++ pad ++ []) by (by rewrite app_nil_r, <- !app_assoc).
  rewrite (get_range_app ((hd ++ h) ++ p) pad []) by (rewrite !zlen_app, ?zlen_nil; lia).
  by rewrite (bool_decide_ext (Some h = Some (blake3 p)) (h = blake3 p)) by naive_solver.
Qed.

Lemma decode_spec bs f :
  decode bs = Ok f ↔
  frame_ok f ∧ frame_valid f ∧ zlen (payload_of f) ≤ MAX_PAYLOAD ∧
  ∃ n, bs = frame_bytes (payload_of f) ++ repeat x00 n.
Proof.
  split.
  - intros E. assert (∃ h p pad, bs = (MAGIC ++ le_enc 4 VERSION ++ le_enc 4 (zlen p)) ++ h ++ p ++ pad ∧
      zlen h = 32 ∧ 0 < zlen p ≤ MAX_PAYLOAD) as (h & p & pad & -> & Lh & Lp).
    { unfold decode in E. destruct (frame_size bs) as [size|] eqn:Es; [|done]. simpl in E.
      destruct (get_range bs HEADER size) as [p|] eqn:Hp; [|done].
      apply frame_size_Ok in Es as (len & rest & -> & Hr & Hlen & ->).
      pose proof (get_range_zlen _ _ _ _ Hp) as Lp.
      set (hd := MAGIC ++ le_enc 4 VERSION ++ le_enc 4 len) in *.
      assert (length hd = 16%nat) as Lhd.
      { unfold hd. rewrite !length_app, !le_enc_length. pose proof zlen_MAGIC. unfold zlen in *. lia. }
      apply get_range_Some in Hp as (_ & Hle & Ep). rewrite zlen_app in Hle.
      rewrite drop_app_ge in Ep by lia. replace (Z.to_nat HEADER - length hd)%nat with 32%nat in Ep by lia.
      replace (Z.to_nat (HEADER + len - HEADER)) with (length p) in Ep by (unfold zlen in Lp; lia).
      exists (take 32 rest), p, (drop (32 + length p) rest). split_and!.
      - replace (zlen p) with len by lia. fold hd. f_equal.
        rewrite <- (drop_drop rest (length p) 32). rewrite Ep at 1. by rewrite !take_drop.
      - unfold zlen. rewrite length_take. unfold zlen in *. lia.
      - lia.
      - lia. }
    rewrite decode_parts in E by done. case_bool_decide as Hh; [|done]. simpl in E.
    destruct (existsb _ pad) eqn:Hpad; [done|]. apply all_zero_repeat in Hpad.
    destruct (r_frame (mk_Reader p 0)) as [[f'|er] rd] eqn:Er; [|done].
    destruct (Z.eqb_spec (at_ rd) (zlen p)) as [Ea|]; [|done]. injection E as ->.
    destruct (proj1 (r_frame_whole p f rd ltac:(lia)) (conj Er Ea)) as (Ho & Hv & Hp & _).
    split_and!; [done|done|rewrite <- Hp; lia|]. exists (length pad).
    unfold frame_bytes. rewrite <- Hp, <- Hpad, Hh, <- !app_assoc. done.
  - intros (Ho & Hv & Hl & n & ->). unfold frame_bytes. pose proof (payload_pos f).
    replace ((MAGIC ++ le_enc 4 VERSION ++ le_enc 4 (zlen (payload_of f)) ++ blake3 (payload_of f) ++ payload_of f) ++ repeat x00 n)
      with ((MAGIC ++ le_enc 4 VERSION ++ le_enc 4 (zlen (payload_of f))) ++ blake3 (payload_of f) ++ payload_of f ++ repeat x00 n)
      by (by rewrite <- !app_assoc).
    rewrite decode_parts by (rewrite ?blake3_len; lia). rewrite bool_decide_eq_true_2 by done. simpl.
    assert (existsb (λ b, negb (bool_decide (b = x00))) (repeat x00 n) = false) as ->
      by (apply all_zero_repeat; by rewrite repeat_length).
    destruct (proj2 (r_frame_whole (payload_of f) f _ ltac:(lia)) (conj Ho (conj Hv (conj eq_refl eq_refl)))) as [-> _].
    simpl. by rewrite Z.eqb_refl.
Qed.

(** C13: the storage codec is exact, both ways. The bytes a frame decodes from are those it
    encodes to followed by zeroes, and no others: whatever a crash or a fault leaves on a
    device, a commit, a receipt or a superblock is read only from its own encoding, whole. *)
Theorem frame_codec bs f :
  decode bs = Ok f ↔ frame_ok f ∧ ∃ e n, encode f = Ok e ∧ bs = e ++ repeat x00 n.
Proof.
  rewrite decode_spec. split.
  - intros (Ho & Hv & Hl & n & ->). split; [done|]. exists (frame_bytes (payload_of f)), n.
    split; [|done]. by apply encode_Ok.
  - intros (Ho & e & n & (Hv & Hl & ->)%encode_Ok & ->). split_and!; try done. by exists n.
Qed.

End frames.
