(* ===== verification/StoreTree.v ===== *)
(** * Extents and their digest trees

    [src/crates/moruna-storage-format/src/lib.rs]: where an object's blocks and the nodes of
    its digest tree lie, the check of a commit against its volume, and the proof by which a
    block that is read is known to be the one committed. *)

From S2P Require Import Prelude StoreFormat.

Section tree.
Context `{!Blake3}.

(** ** Where an object lies *)

(** [None] from a [checked_mul] and a [checked_add] one after the other. *)
Definition after_nodes (at_ nodes align : Z) : option Z :=
  n ← checked_mul 64 nodes align; checked_add 64 at_ n.

(** The loop of [Superblock::extent]. *)
Fixpoint plan_levels (fuel : nat) (align at_ children : Z) : option (list TreeLevel * Z) :=
  match fuel with
  | O => None
  | S fuel =>
      if 0 <? children then
        let nodes := div_ceil children (align / 32) in
        next ← after_nodes at_ nodes align;
        if nodes =? 1 then Some ([mk_TreeLevel at_ nodes], next)
        else
          '(tree, e) ← plan_levels fuel align next nodes;
          Some (mk_TreeLevel at_ nodes :: tree, e)
      else Some ([], at_)
  end.

(** Sixty-four rounds are more than the loop takes. *)
Abbreviation LEVELS := 64%nat.

(** [Superblock::extent]. *)
Definition extent (s : Superblock) (start bytes : Z) : result Error Location :=
  _ ← validate_superblock s;
  let align := alignment s in
  if (start <? data_offset s) || negb (is_multiple_of start align) then Err Invalid
  else
    let blocks := div_ceil bytes align in
    padded ← ok_or (checked_mul 64 blocks align) Limit;
    at_ ← ok_or (checked_add 64 start padded) Limit;
    '(tree, e) ← ok_or (plan_levels LEVELS align at_ blocks) Limit;
    if capacity s <? e then Err Limit
    else Ok (Extent start padded tree (if bytes =? 0 then blake3 [] else repeat x00 32)).

(** The loop over the levels in [Commit::validate_in]: the nodes the last level has. *)
Fixpoint check_levels (align cap : Z) (end_ count : Z) (tree : list TreeLevel) : result Error Z :=
  match tree with
  | [] => Ok count
  | l :: rest =>
      let needed := div_ceil count (align / 32) in
      if negb (lv_nodes l =? needed) || negb (lv_offset l =? end_)
         || negb (is_multiple_of (lv_offset l) align) then Err Invalid
      else
        next ← ok_or (after_nodes end_ (lv_nodes l) align) Invalid;
        if (cap <? next) || ((needed =? 1) && negb (is_nil rest)) then Err Invalid
        else check_levels align cap next needed rest
  end.

(** [Commit::validate_in]. *)
Definition validate_in (c : Commit) (v : Superblock) : result Error unit :=
  let m := metadata c in
  _ ← validate_superblock v;
  _ ← validate_object (object m);
  _ ← validate_version (version m);
  if negb (bool_decide (workspace (object m) = sb_workspace v))
     || negb (bool_decide (bucket (object m) = sb_bucket v))
     || is_nil (key (object m)) then Err Invalid
  else
    match location c with
    | File _ =>
        match role v with
        | FormatProof | CheckpointMetadata => Ok tt
        | CacheScratch | SingleNodeHome => Err Invalid
        end
    | Extent offset padded tree root =>
        let align := alignment v in
        if negb (is_multiple_of offset align) || negb (is_multiple_of padded align)
           || (offset <? data_offset v) || (padded <? bytes m) then Err Invalid
        else
          end_ ← ok_or (checked_add 64 offset padded) Invalid;
          if capacity v <? end_ then Err Invalid
          else if bytes m =? 0 then
            if (padded =? 0) && is_nil tree && bool_decide (root = blake3 []) then Ok tt else Err Invalid
          else if negb (bool_decide (checked_mul 64 (div_ceil (bytes m) align) align = Some padded))
          then Err Invalid
          else
            count ← check_levels align (capacity v) end_ (padded / align) tree;
            if is_nil tree || negb (count =? 1) then Err Invalid else Ok tt
    end.

(** ** Digests *)

(** [tree_node]: the page of [size] bytes that holds the children's digests, and its own. *)
Definition tree_node (size : Z) (children : list (list byte)) : result Error (list byte * list byte) :=
  if (size <? 512) || negb (is_power_of_two size) || (size / 32 <? zlen children) then Err Invalid
  else
    let page := concat children ++ repeat x00 (Z.to_nat (size - 32 * zlen children)) in
    Ok (page, blake3 page).

(** [leaf_digest]: the hash is fed the bytes and then zeroes to the end of the block. *)
Definition leaf_digest (bs : list byte) (block_bytes : Z) : result Error (list byte) :=
  if (block_bytes <? 512) || negb (is_power_of_two block_bytes) || (block_bytes <? zlen bs)
  then Err Invalid
  else Ok (blake3 (bs ++ repeat x00 (Z.to_nat (block_bytes - zlen bs)))).

(** ** The proof of a block *)

Record ProofStep := mk_ProofStep { ps_offset : Z; ps_slot : Z }.

Record BlockProof := mk_BlockProof {
  steps : list ProofStep;
  next : nat;
  expected : list byte;
  block_bytes : Z;
}.

(** How many blocks a digest of each level stands for. *)
Fixpoint divisors (tree : list TreeLevel) (d fanout : Z) : result Error (list Z) :=
  match tree with
  | [] => Ok []
  | _ :: tree =>
      d' ← ok_or (checked_mul 64 d fanout) Limit;
      ds ← divisors tree d' fanout;
      Ok (d :: ds)
  end.

(** The step at a level for block [block]. *)
Definition proof_step (align block : Z) (l : TreeLevel) (d : Z) : result Error ProofStep :=
  let fanout := align / 32 in
  let child := block / d in
  let node := child / fanout in
  if lv_nodes l <=? node then Err Invalid
  else
    off ← ok_or (n ← checked_mul 64 node align; checked_add 64 (lv_offset l) n) Limit;
    Ok (mk_ProofStep off (child mod fanout)).

(** The steps from the last level to the first. *)
Fixpoint proof_steps (align block : Z) (levels : list (TreeLevel * Z)) : result Error (list ProofStep) :=
  match levels with
  | [] => Ok []
  | (l, d) :: rest =>
      s ← proof_step align block l d;
      ss ← proof_steps align block rest;
      Ok (s :: ss)
  end.

(** [BlockProof::new]. *)
Definition proof_new (c : Commit) (v : Superblock) (block : Z) : result Error BlockProof :=
  _ ← validate_in c v;
  let align := alignment v in
  if div_ceil (bytes (metadata c)) align <=? block then Err Invalid
  else
    match location c with
    | File _ => Err Invalid
    | Extent _ _ tree root =>
        ds ← divisors tree 1 (align / 32);
        ss ← proof_steps align block (rev (zip tree ds));
        Ok (mk_BlockProof ss 0 root align)
    end.

Definition next_node (p : BlockProof) : option ProofStep := steps p !! next p.

(** [BlockProof::accept_node]. *)
Definition accept_node (node : list byte) (p : BlockProof) : result Error BlockProof :=
  step ← ok_or (next_node p) Invalid;
  if negb (zlen node =? block_bytes p) || negb (bool_decide (blake3 node = expected p)) then Err Integrity
  else
    start ← ok_or (checked_mul 64 (ps_slot step) 32) Limit;
    e ← ok_or (get_range node start (start +! 32)) Invalid;
    Ok (mk_BlockProof (steps p) (S (next p)) e (block_bytes p)).

(** [BlockProof::verify_data]. *)
Definition verify_data (bs : list byte) (p : BlockProof) : result Error unit :=
  if negb (Nat.eqb (next p) (length (steps p))) || negb (zlen bs =? block_bytes p) then Err Invalid
  else if negb (bool_decide (blake3 bs = expected p)) then Err Integrity
  else Ok tt.

End tree.
