(* ===== verification/StoreProof.v ===== *)
(** * Digest trees prove their blocks

    What a commit's extent is checked for, and that the proof of a block accepts exactly the
    block that was committed: reading a genuine path succeeds, and a path or a block that
    differs is refused unless it collides in BLAKE3 with the one it stands for. *)

From S2P Require Import Prelude StoreFormat StoreCodec StoreTree.

(** ** Machine arithmetic *)

Lemma power_of_two_spec n : is_power_of_two n = true ↔ ∃ k, 0 ≤ k ∧ n = 2 ^ k.
Proof.
  unfold is_power_of_two. rewrite andb_true_iff, Z.ltb_lt, Z.eqb_eq. split.
  - intros [Hn Hl]. pose proof (Z.log2_nonneg n). exists (Z.log2 n). split; [done|].
    pose proof (Z.log2_spec n Hn) as [H1 H2]. destruct (decide (n = 2 ^ Z.log2 n)) as [|Hne]; [done|]. exfalso.
    assert (Z.log2 (n - 1) = Z.log2 n) as E by (apply Z.log2_unique; lia).
    assert (Z.testbit (Z.land n (n - 1)) (Z.log2 n) = true) as Hb.
    { rewrite Z.land_spec, Z.bit_log2 by done. rewrite <- E at 1. rewrite Z.bit_log2; [done|].
      pose proof (Z.pow_pos_nonneg 2 (Z.log2 n)). lia. }
    by rewrite Hl, Z.bits_0 in Hb.
  - intros (k & Hk & ->). split; [lia|]. replace (2 ^ k - 1) with (Z.ones k) by (rewrite Z.ones_equiv; lia).
    rewrite Z.land_ones by done. apply Z.mod_same. lia.
Qed.

Lemma div_ceil_spec x y : 0 < y → (div_ceil x y - 1) * y < x ≤ div_ceil x y * y.
Proof.
  intros Hy. unfold div_ceil. pose proof (Z.div_mod x y ltac:(lia)). pose proof (Z.mod_pos_bound x y Hy).
  destruct (Z.ltb_spec 0 (x mod y)); nia.
Qed.

Lemma div_ceil_unique x y z : 0 < y → (z - 1) * y < x ≤ z * y → div_ceil x y = z.
Proof. intros Hy Hz. pose proof (div_ceil_spec x y Hy). nia. Qed.

Lemma div_ceil_nonneg x y : 0 < y → 0 ≤ x → 0 ≤ div_ceil x y.
Proof. intros Hy Hx. pose proof (div_ceil_spec x y Hy). nia. Qed.

Lemma is_multiple_spec x y : y ≠ 0 → is_multiple_of x y = true ↔ x mod y = 0.
Proof. intros Hy. unfold is_multiple_of. destruct (Z.eqb_spec y 0); [done|]. apply Z.eqb_eq. Qed.

Lemma checked_mul_Some w x y z : checked_mul w x y = Some z ↔ z = x * y ∧ x * y < 2 ^ w.
Proof.
  unfold checked_mul, umax. destruct (Z.leb_spec (x * y) (2 ^ w - 1)).
  - split; [intros [= <-]; lia|]. intros [-> _]. done.
  - split; [done|]. lia.
Qed.

(** ** Slices in chunks *)

(** [slice::chunks]. *)
Fixpoint chunks_go {A} (fuel n : nat) (l : list A) : list (list A) :=
  match fuel, l with
  | _, [] => []
  | O, _ => []
  | S fuel, _ => take n l :: chunks_go fuel n (drop n l)
  end.
Definition chunks {A} (n : nat) (l : list A) : list (list A) := chunks_go (length l) n l.

Section chunks.
Context {A : Type} (n : nat).
Hypothesis n_pos : (0 < n)%nat.

Lemma chunks_go_enough fuel (l : list A) :
  (length l ≤ fuel)%nat → chunks_go fuel n l = chunks n l.
Proof.
  unfold chunks. revert l. induction fuel as [fuel IH] using lt_wf_ind. intros l Hl.
  destruct l as [|x l]; [by destruct fuel|]. destruct fuel as [|fuel]; simpl in Hl; [lia|].
  cbn [chunks_go length]. f_equal. rewrite (IH fuel) by (rewrite ?length_drop; simpl; lia).
  rewrite (IH (length l)) by (rewrite ?length_drop; simpl; lia). done.
Qed.

Lemma chunks_step (l : list A) : l ≠ [] → chunks n l = take n l :: chunks n (drop n l).
Proof.
  intros Hl. unfold chunks at 1. destruct l as [|x l]; [done|]. cbn [chunks_go length]. f_equal.
  apply chunks_go_enough. rewrite length_drop. simpl. lia.
Qed.

Lemma chunks_nil : chunks n (@nil A) = [].
Proof. done. Qed.

Lemma chunks_ind (P : list A → Prop) :
  P [] → (∀ l, l ≠ [] → P (drop n l) → P l) → ∀ l, P l.
Proof.
  intros H0 HS l. remember (length l) as k eqn:Hk. revert l Hk.
  induction k as [k IH] using lt_wf_ind. intros l ->. destruct l as [|x l]; [done|].
  apply HS; [done|]. apply (IH (length (drop n (x :: l)))); [|done]. rewrite length_drop. simpl. lia.
Qed.

Lemma concat_chunks (l : list A) : concat (chunks n l) = l.
Proof.
  induction l as [|l Hl IH] using chunks_ind; [done|]. rewrite chunks_step by done. simpl.
  by rewrite IH, take_drop.
Qed.

Lemma zlen_chunks (l : list A) : zlen (chunks n l) = div_ceil (zlen l) (Z.of_nat n).
Proof.
  symmetry. apply div_ceil_unique; [lia|].
  induction l as [|l Hl IH] using chunks_ind; [unfold zlen; simpl; lia|].
  rewrite chunks_step, zlen_cons by done. unfold zlen in *. rewrite length_drop in IH. assert (length l ≠ 0%nat) by (by destruct l).
  destruct (decide (n ≤ length l)%nat); [lia|].
  assert (Z.of_nat (length (chunks n (drop n l))) = 0) as -> by nia. lia.
Qed.

(** An element is in the chunk its index says. *)
Lemma chunks_elem (l : list A) i x :
  l !! i = Some x →
  ∃ c, chunks n l !! (i / n)%nat = Some c ∧ c !! (i mod n)%nat = Some x ∧ (length c ≤ n)%nat.
Proof.
  revert i. induction l as [|l Hl IH] using chunks_ind; intros i Hi; [done|].
  rewrite chunks_step by done. destruct (decide (i < n)%nat) as [Hlt|Hge].
  - exists (take n l). rewrite Nat.div_small, Nat.mod_small by done. split; [done|].
    rewrite lookup_take by done. rewrite length_take. split; [|lia]. by rewrite decide_True.
  - assert (i = (i - n) + 1 * n)%nat as E by lia.
    destruct (IH (i - n)%nat) as (c & Hc & Hx & Hl'); [rewrite lookup_drop; by replace (n + (i - n))%nat with i by lia|].
    exists c. rewrite E, Nat.div_add, Nat.Div0.mod_add by lia. split; [|done].
    rewrite Nat.add_comm. done.
Qed.

Lemma chunks_sub (l : list A) c : c ∈ chunks n l → (length c ≤ n)%nat ∧ ∀ x, x ∈ c → x ∈ l.
Proof.
  induction l as [|l Hl IH] using chunks_ind; [by intros ?%not_elem_of_nil|].
  rewrite chunks_step by done. intros [->|Hc]%elem_of_cons.
  - rewrite length_take. split; [lia|]. intros x Hx. rewrite <- (take_drop n l). apply elem_of_app. by left.
  - destruct (IH Hc) as [H1 H2]. split; [done|]. intros x Hx%H2. rewrite <- (take_drop n l). apply elem_of_app. by right.
Qed.

End chunks.

(** ** Geometry *)

(** What a valid superblock has. *)
Record geometry_ok (s : Superblock) : Prop := {
  go_align : ∃ f : nat, (16 ≤ f)%nat ∧ alignment s = 32 * Z.of_nat f;
  go_power : is_power_of_two (alignment s) = true;
  go_names : sb_workspace s ≠ [] ∧ sb_bucket s ≠ [];
  go_log : alignment s ≤ log_offset s;
  go_some : log_bytes s ≠ 0;
  go_data : log_offset s + log_bytes s = data_offset s ∧ data_offset s < 2 ^ 64;
  go_capacity : data_offset s < capacity s;
  go_multiples : capacity s mod alignment s = 0 ∧ log_offset s mod alignment s = 0 ∧
    log_bytes s mod alignment s = 0 ∧ data_offset s mod alignment s = 0;
}.

Lemma validate_superblock_Ok s : validate_superblock s = Ok tt → geometry_ok s.
Proof.
  unfold validate_superblock. destruct (validate_parts _ _ _) as [[]|]; [|done].
  unfold mbind, result_bind.
  match goal with |- (if ?b then _ else _) = _ → _ => destruct b eqn:E; [done|] end. intros _.
  repeat match goal with H : (_ || _) = false |- _ => apply orb_false_iff in H as [? ?] end.
  reflect_bool. simpl in *. apply bool_decide_eq_true in H0. apply checked_add_Some in H0.
  repeat match goal with H : (_ || _) = false |- _ => apply orb_false_iff in H as [? ?] end. reflect_bool.
  assert (alignment s ≠ 0) as Hne by lia.
  repeat match goal with H : is_multiple_of _ _ = true |- _ => apply (is_multiple_spec _ _ Hne) in H end.
  split; try done.
  - pose proof (proj1 (power_of_two_spec _) H7) as (k & Hk & Ek).
    assert (9 ≤ k). { destruct (decide (9 ≤ k)); [done|]. exfalso. assert (2 ^ k < 2 ^ 9) by (apply Z.pow_lt_mono_r; lia). lia. }
    exists (Z.to_nat (2 ^ (k - 5))). rewrite Z2Nat.id by lia.
    assert (2 ^ 4 ≤ 2 ^ (k - 5)) by (apply Z.pow_le_mono_r; lia). split; [lia|]. rewrite Ek.
    change 32 with (2 ^ 5). rewrite <- Z.pow_add_r by lia. f_equal. lia.
  - split; intros E; rewrite E in *; done.
  - lia.
Qed.

(** ** The digests of a tree *)

Lemma blake3_length {BL : Blake3} l : length (blake3 l) = 32%nat.
Proof. pose proof (blake3_len l). unfold zlen in *. lia. Qed.

Section digests.
Context {BL : Blake3}.
Variable fanout : nat.
Hypothesis fanout_some : (16 ≤ fanout)%nat.

(** The page of a node, and the pages of a level over the digests below it. *)
Definition node_page (ch : list (list byte)) : list byte :=
  concat ch ++ repeat x00 (32 * (fanout - length ch)).
Definition level_pages (ds : list (list byte)) : list (list byte) := node_page <$> chunks fanout ds.

(** The digests [j] levels up. *)
Fixpoint digests (ds : list (list byte)) (j : nat) : list (list byte) :=
  match j with
  | O => ds
  | S j => blake3 <$> level_pages (digests ds j)
  end.

Abbreviation digest_ok := (λ d : list byte, length d = 32%nat).

Lemma digests_ok ds j : Forall digest_ok ds → Forall digest_ok (digests ds j).
Proof.
  intros Hd. destruct j as [|j]; [done|]. simpl. apply Forall_fmap, Forall_forall. intros x _. apply blake3_length.
Qed.

(** Slot [k] of a node. *)
Lemma concat_slot (ch : list (list byte)) k d rest :
  Forall digest_ok ch → ch !! k = Some d →
  get_range (concat ch ++ rest) (32 * Z.of_nat k) (32 * Z.of_nat k + 32) = Some d.
Proof.
  revert k. induction ch as [|c ch IH]; intros k Hc Hk; [done|]. apply Forall_cons in Hc as [Hc Hch].
  simpl. rewrite <- app_assoc. destruct k as [|k]; simpl in Hk.
  - injection Hk as ->. rewrite <- (app_nil_l (d ++ _)). apply get_range_app; unfold zlen; simpl; lia.
  - specialize (IH k Hch Hk). apply get_range_Some in IH as (H1 & H2 & H3). apply get_range_Some.
    rewrite !zlen_app in *. unfold zlen at 1. rewrite Hc. split_and!; [lia..|].
    replace (Z.to_nat (32 * Z.of_nat (S k))) with (length c + Z.to_nat (32 * Z.of_nat k))%nat by lia.
    rewrite drop_app_add. rewrite H3 at 1. f_equal. lia.
Qed.

Lemma node_page_length ch : Forall digest_ok ch → (length ch ≤ fanout)%nat → zlen (node_page ch) = 32 * Z.of_nat fanout.
Proof.
  intros Hc Hl. unfold node_page. rewrite zlen_app. unfold zlen. rewrite repeat_length.
  assert (length (concat ch) = 32 * length ch)%nat as ->; [|lia].
  clear Hl. induction Hc as [|c ch Hc _ IH]; [done|]. simpl. rewrite length_app, IH, Hc. lia.
Qed.

(** The digest of every child is in its node, at its slot. *)
Lemma page_slot ds i d :
  Forall digest_ok ds → ds !! i = Some d →
  ∃ pg, level_pages ds !! (i / fanout)%nat = Some pg ∧ zlen pg = 32 * Z.of_nat fanout ∧
    get_range pg (32 * Z.of_nat (i mod fanout)) (32 * Z.of_nat (i mod fanout) + 32) = Some d.
Proof.
  intros Hd Hi. destruct (chunks_elem fanout ltac:(lia) ds i d Hi) as (c & Hc & Hx & Hl).
  assert (Forall digest_ok c) as Hcd.
  { apply Forall_forall. intros x Hxc. rewrite Forall_forall in Hd. apply Hd.
    apply (chunks_sub fanout ltac:(lia) ds c); [by eapply list_elem_of_lookup_2|done]. }
  exists (node_page c). unfold level_pages. rewrite list_lookup_fmap, Hc. split; [done|].
  split; [by apply node_page_length|]. by apply concat_slot.
Qed.

Lemma zlen_level_pages ds : zlen (level_pages ds) = div_ceil (zlen ds) (Z.of_nat fanout).
Proof. unfold level_pages, zlen at 1. rewrite length_fmap. apply zlen_chunks. lia. Qed.

(** The ancestor of block [b] in level [j]. *)
Lemma ancestor ds b j :
  (b < length ds)%nat → ∃ d, digests ds j !! (b / fanout ^ j)%nat = Some d.
Proof.
  intros Hb. induction j as [|j [d IH]].
  - rewrite Nat.pow_0_r, Nat.div_1_r. by apply lookup_lt_is_Some.
  - simpl. rewrite list_lookup_fmap.
    destruct (chunks_elem fanout ltac:(lia) _ _ _ IH) as (c & Hc & _).
    rewrite Nat.Div0.div_div in Hc. rewrite (Nat.mul_comm (fanout ^ j)) in Hc.
    unfold level_pages. rewrite list_lookup_fmap, Hc. by eexists.
Qed.

(** The node over block [b] in level [j]. *)
Definition path_page (ds : list (list byte)) (b j : nat) : list byte :=
  default [] (level_pages (digests ds j) !! (b / fanout ^ S j)%nat).

Lemma path_page_spec ds b j :
  Forall digest_ok ds → (b < length ds)%nat →
  zlen (path_page ds b j) = 32 * Z.of_nat fanout ∧
  digests ds (S j) !! (b / fanout ^ S j)%nat = Some (blake3 (path_page ds b j)) ∧
  ∃ d, digests ds j !! (b / fanout ^ j)%nat = Some d ∧
    get_range (path_page ds b j) (32 * Z.of_nat ((b / fanout ^ j) mod fanout))
      (32 * Z.of_nat ((b / fanout ^ j) mod fanout) + 32) = Some d.
Proof.
  intros Hd Hb. destruct (ancestor ds b j Hb) as [d Hj].
  destruct (page_slot _ _ _ (digests_ok ds j Hd) Hj) as (pg & Hp & Hl & Hs).
  rewrite Nat.Div0.div_div, (Nat.mul_comm (fanout ^ j)) in Hp. unfold path_page.
  change (fanout * fanout ^ j)%nat with (fanout ^ S j)%nat in Hp. rewrite Hp. simpl.
  split; [done|]. split; [|by exists d].
  change (fanout * fanout ^ j)%nat with (fanout ^ S j)%nat. by rewrite list_lookup_fmap, Hp.
Qed.

End digests.

(** ** What a valid commit has *)

Section valid.
Context {BL : Blake3}.

Record extent_ok (v : Superblock) (m : Metadata) (off padded : Z) (tree : list TreeLevel) (root : list byte) : Prop := {
  xo_aligned : off mod alignment v = 0;
  xo_data : data_offset v ≤ off;
  xo_end : off + padded ≤ capacity v;
  xo_padded : padded = div_ceil (bytes m) (alignment v) * alignment v;
  xo_empty : bytes m = 0 → tree = [] ∧ root = blake3 [];
  xo_tree : bytes m ≠ 0 → tree ≠ [] ∧
    check_levels (alignment v) (capacity v) (off + padded) (div_ceil (bytes m) (alignment v)) tree = Ok 1;
}.

Lemma validate_in_extent c v off padded tree root :
  validate_in c v = Ok tt → location c = Extent off padded tree root →
  geometry_ok v ∧ validate_object (object (metadata c)) = Ok tt ∧
  validate_version (version (metadata c)) = Ok tt ∧
  (workspace (object (metadata c)) = sb_workspace v ∧ bucket (object (metadata c)) = sb_bucket v ∧
   key (object (metadata c)) ≠ []) ∧
  extent_ok v (metadata c) off padded tree root.
Proof.
  unfold validate_in. destruct (validate_superblock v) as [[]|] eqn:Ev; [|done].
  destruct (validate_object _) as [[]|]; [|done]. destruct (validate_version _) as [[]|]; [|done]. simpl.
  destruct (negb _ || _ || _) eqn:En; [done|]. apply orb_false_iff in En as [En Ek].
  apply orb_false_iff in En as [Ew Eb]. apply negb_false_iff, bool_decide_eq_true in Ew, Eb.
  intros E El. rewrite El in E. pose proof (validate_superblock_Ok v Ev) as G.
  destruct (go_align v G) as (f & Hf & Ea).
  split; [done|]. split; [done|]. split; [done|]. split; [split_and!; [done..|]; intros Hk; by rewrite Hk in Ek|].
  assert (alignment v ≠ 0) as Hne by lia.
  destruct (negb _ || _ || _ || _) eqn:E1; [done|].
  apply orb_false_iff in E1 as [E1 Hle]. apply orb_false_iff in E1 as [E1 Hdata].
  apply orb_false_iff in E1 as [Hm1 Hm2]. apply negb_false_iff in Hm1, Hm2.
  apply (is_multiple_spec _ _ Hne) in Hm1, Hm2. apply Z.ltb_ge in Hle, Hdata.
  destruct (checked_add 64 off padded) as [e|] eqn:Ec; [|done]. apply checked_add_Some in Ec as [-> Hlt]. simpl in E.
  destruct (Z.ltb_spec (capacity v) (off + padded)); [done|].
  destruct (Z.eqb_spec (bytes (metadata c)) 0) as [E0|E0].
  - destruct (Z.eqb_spec padded 0) as [->|]; [|done]. destruct tree as [|]; [|done]. simpl in E.
    case_bool_decide; [|done]. split; try done. rewrite E0. unfold div_ceil. rewrite Z.mod_0_l, Z.div_0_l by done. done.
  - case_bool_decide as Hp; [|done]. apply checked_mul_Some in Hp as [Hp _]. simpl in E.
    split; try done. intros _. rewrite Hp, Z.div_mul in E by done.
    destruct (check_levels _ _ _ _ tree) as [n|] eqn:Et; [|done]. simpl in E.
    destruct tree as [|l tree]; [done|]. simpl in E. destruct (Z.eqb_spec n 1) as [->|]; [|done].
    rewrite <- Hp in Et. done.
Qed.

End valid.

(** ** The levels of a valid tree *)

Section levels.
Context {BL : Blake3}.
Variables (fanout : nat) (align cap : Z).
Hypothesis fanout_some : (16 ≤ fanout)%nat.
Hypothesis align_fanout : align = 32 * Z.of_nat fanout.

Abbreviation digests := (digests fanout).

Lemma align_div : align / 32 = Z.of_nat fanout.
Proof. rewrite align_fanout, Z.mul_comm. by apply Z.div_mul. Qed.

Lemma after_nodes_Some at_ n e :
  after_nodes at_ n align = Some e → e = at_ + n * align ∧ at_ + n * align < 2 ^ 64.
Proof.
  unfold after_nodes. destruct (checked_mul 64 n align) as [m|] eqn:Em; [|done].
  apply checked_mul_Some in Em as [-> _]. simpl. rewrite checked_add_Some. naive_solver.
Qed.

Lemma zlen_digests ds j : zlen (digests ds (S j)) = div_ceil (zlen (digests ds j)) (Z.of_nat fanout).
Proof. simpl. unfold zlen at 1. rewrite length_fmap. by apply zlen_level_pages. Qed.

Lemma check_levels_spec ds j end_ tree n :
  0 ≤ end_ → check_levels align cap end_ (zlen (digests ds j)) tree = Ok n →
  n = zlen (digests ds (j + length tree)) ∧
  ∀ i l, tree !! i = Some l →
    lv_nodes l = zlen (digests ds (S (j + i))) ∧ end_ ≤ lv_offset l ∧
    lv_offset l mod align = 0 ∧ lv_offset l + lv_nodes l * align ≤ cap ∧
    lv_offset l + lv_nodes l * align < 2 ^ 64 ∧
    ((S i < length tree)%nat → lv_nodes l ≠ 1).
Proof.
  revert j end_. induction tree as [|l tree IH]; intros j end_ He E.
  - simpl in E. injection E as <-. rewrite Nat.add_0_r. split; [done|]. by intros i l' ?.
  - cbn [check_levels] in E. rewrite align_div, <- zlen_digests in E.
    remember (zlen (digests ds (S j))) as needed eqn:Hneed.
    destruct (negb _ || _ || _) eqn:E1; [done|].
    apply orb_false_iff in E1 as [E1 Hm]. apply orb_false_iff in E1 as [Hn Ho].
    apply negb_false_iff in Hn, Ho, Hm. apply Z.eqb_eq in Hn, Ho. apply is_multiple_spec in Hm; [|lia].
    destruct (after_nodes _ _ _) as [e|] eqn:Ea; [|done]. apply after_nodes_Some in Ea as [-> Hlt]. simpl in E.
    destruct (Z.ltb_spec cap (end_ + lv_nodes l * align)) as [|Hc]; [done|]. simpl in E.
    destruct ((needed =? 1) && negb (is_nil tree)) eqn:E2; [done|].
    pose proof (zlen_nonneg (digests ds (S j))). rewrite Hneed in E.
    destruct (IH (S j) (end_ + lv_nodes l * align)) as [-> H2]; [nia|done|].
    split; [f_equal; f_equal; simpl; lia|]. intros [|i] l' Hi; simpl in Hi.
    + injection Hi as <-. rewrite Nat.add_0_r. split_and!; [congruence|lia|done|lia|lia|]. simpl.
      intros Hlen. rewrite Hn. destruct (Z.eqb_spec needed 1); [|done].
      destruct tree; simpl in *; [lia|done].
    + destruct (H2 i l' Hi) as (G1 & G2 & G3 & G4 & G5 & G6). split_and!; try done; [|nia|].
      * rewrite G1. do 2 f_equal. lia.
      * simpl. intros Hlen. apply G6. lia.
Qed.

(** Where more than one digest is left, there were many. *)
Lemma digests_many ds j m : 0 ≤ m → m < zlen (digests ds j) → m * Z.of_nat fanout ^ Z.of_nat j < zlen ds.
Proof.
  revert m. induction j as [|j IH]; intros m Hm H.
  - simpl in *. lia.
  - rewrite zlen_digests in H. pose proof (div_ceil_spec (zlen (digests ds j)) (Z.of_nat fanout) ltac:(lia)).
    replace (Z.of_nat (S j)) with (1 + Z.of_nat j) by lia. rewrite Z.pow_add_r, Z.pow_1_r, Z.mul_assoc by lia.
    apply IH; nia.
Qed.

(** The digests stay. *)
Lemma digests_pos ds j : 0 < zlen ds → 0 < zlen (digests ds j).
Proof.
  intros Hd. induction j as [|j IH]; [done|]. rewrite zlen_digests.
  pose proof (div_ceil_spec (zlen (digests ds j)) (Z.of_nat fanout) ltac:(lia)). nia.
Qed.

(** Every power of the fanout the proof uses fits in 64 bits. *)
Lemma tree_height (ds : list (list byte)) end_ tree :
  0 ≤ end_ → 0 < zlen ds → zlen ds * align < 2 ^ 64 → align < 2 ^ 64 → tree ≠ [] →
  check_levels align cap end_ (zlen ds) tree = Ok 1 →
  Z.of_nat fanout ^ Z.of_nat (length tree) < 2 ^ 64.
Proof.
  intros He Hd Hs Ha Hne E. destruct (check_levels_spec ds 0 end_ tree 1 He E) as [_ H].
  destruct (decide (length tree = 1%nat)) as [->|Hl]; [change (Z.of_nat 1) with 1; rewrite Z.pow_1_r; lia|].
  assert (length tree ≠ 0%nat) by (by destruct tree). set (h := (length tree - 2)%nat).
  destruct (lookup_lt_is_Some_2 tree h ltac:(unfold h; lia)) as [l Hh].
  destruct (H h l Hh) as (Hn & _ & _ & _ & _ & H1). specialize (H1 ltac:(unfold h; lia)).
  pose proof (digests_pos ds (S h) Hd). simpl plus in Hn.
  pose proof (digests_many ds (S h) 1 ltac:(lia) ltac:(lia)) as Hm.
  replace (Z.of_nat (length tree)) with (1 + Z.of_nat (S h)) by (unfold h; lia).
  rewrite Z.pow_add_r, Z.pow_1_r by lia. nia.
Qed.

End levels.

(** ** The proof of a block *)

Section proofs.
Context {BL : Blake3}.
Variables (fanout : nat) (align : Z).
Hypothesis fanout_some : (16 ≤ fanout)%nat.
Hypothesis align_fanout : align = 32 * Z.of_nat fanout.

Abbreviation fo := (Z.of_nat fanout).

Lemma divisors_Ok tree d :
  0 < d → d * fo ^ Z.of_nat (length tree) < 2 ^ 64 →
  divisors tree d fo = Ok ((λ j, d * fo ^ Z.of_nat j) <$> seq 0 (length tree)).
Proof.
  revert d. induction tree as [|l tree IH]; intros d Hd Hlt; [done|]. cbn [divisors length] in *.
  replace (Z.of_nat (S (length tree))) with (1 + Z.of_nat (length tree)) in Hlt by lia.
  rewrite Z.pow_add_r, Z.pow_1_r in Hlt by lia.
  pose proof (Z.pow_pos_nonneg fo (Z.of_nat (length tree)) ltac:(lia) ltac:(lia)).
  assert (checked_mul 64 d fo = Some (d * fo)) as -> by (apply checked_mul_Some; nia). simpl.
  rewrite IH by nia. simpl. do 2 f_equal; [lia|]. rewrite <- fmap_S_seq, <- list_fmap_compose.
  apply list_fmap_ext. intros i j _. simpl. replace (Z.of_nat (S j)) with (1 + Z.of_nat j) by lia.
  rewrite Z.pow_add_r, Z.pow_1_r by lia. lia.
Qed.

(** The step at level [j] for block [b], and those below [m], the highest first. *)
Definition step_of (tree : list TreeLevel) (b j : nat) : ProofStep :=
  mk_ProofStep (default 0 (lv_offset <$> tree !! j) + Z.of_nat (b / fanout ^ S j) * align)
    (Z.of_nat ((b / fanout ^ j) mod fanout)).
Fixpoint steps_from (tree : list TreeLevel) (b m : nat) : list ProofStep :=
  match m with O => [] | S m => step_of tree b m :: steps_from tree b m end.

Lemma length_steps_from tree b m : length (steps_from tree b m) = m.
Proof. induction m; simpl; auto. Qed.

Lemma proof_step_Ok tree b j l :
  tree !! j = Some l → Z.of_nat (b / fanout ^ S j) < lv_nodes l → 0 ≤ lv_offset l →
  lv_offset l + lv_nodes l * align < 2 ^ 64 →
  proof_step align (Z.of_nat b) l (1 * fo ^ Z.of_nat j) = Ok (step_of tree b j).
Proof.
  intros Hl Hn Ho Hlt. unfold proof_step.
  assert (align / 32 = fo) as -> by (rewrite align_fanout, Z.mul_comm; by apply Z.div_mul).
  rewrite Z.mul_1_l, <- Nat2Z.inj_pow, <- Nat2Z.inj_div, <- Nat2Z.inj_div, <- Nat2Z.inj_mod.
  rewrite Nat.Div0.div_div, (Nat.mul_comm (fanout ^ j)). change (fanout * fanout ^ j)%nat with (fanout ^ S j)%nat.
  unfold step_of. rewrite Hl. remember (b / fanout ^ S j)%nat as q.
  destruct (Z.leb_spec (lv_nodes l) (Z.of_nat q)); [lia|].
  assert (checked_mul 64 (Z.of_nat q) align = Some (Z.of_nat q * align)) as ->
    by (apply checked_mul_Some; nia). simpl.
  assert (checked_add 64 (lv_offset l) (Z.of_nat q * align) = Some (lv_offset l + Z.of_nat q * align)) as ->
    by (apply checked_add_Some; nia). done.
Qed.

Lemma proof_steps_Ok tree b m :
  (m ≤ length tree)%nat →
  (∀ j l, tree !! j = Some l → Z.of_nat (b / fanout ^ S j) < lv_nodes l ∧ 0 ≤ lv_offset l ∧
     lv_offset l + lv_nodes l * align < 2 ^ 64) →
  proof_steps align (Z.of_nat b)
    (rev (zip (take m tree) ((λ j, 1 * fo ^ Z.of_nat j) <$> seq 0 m))) = Ok (steps_from tree b m).
Proof.
  intros Hm H. induction m as [|m IH]; [done|].
  destruct (lookup_lt_is_Some_2 tree m ltac:(lia)) as [l Hl]. rewrite (take_S_r _ _ _ Hl).
  rewrite seq_S, fmap_app, zip_with_app, rev_app_distr by (rewrite length_take, length_fmap, length_seq; lia).
  destruct (H m l Hl) as (H1 & H2 & H3). cbn [zip_with rev app fmap list_fmap proof_steps].
  rewrite Nat.add_0_l, (proof_step_Ok tree b m l) by done.
  unfold mbind, result_bind. by rewrite IH by lia.
Qed.

(** What a run of [accept_node] over pages does. *)
Fixpoint accept_all (nodes : list (list byte)) (p : BlockProof) : result Error BlockProof :=
  match nodes with
  | [] => Ok p
  | n :: nodes => p ← accept_node n p; accept_all nodes p
  end.

(** The genuine nodes above block [b], the highest first. *)
Fixpoint path_from (ds : list (list byte)) (b m : nat) : list (list byte) :=
  match m with O => [] | S m => path_page fanout ds b m :: path_from ds b m end.

Lemma accept_node_spec node p step p' :
  next_node p = Some step → 0 ≤ ps_slot step < fo → zlen node = align → block_bytes p = align →
  align < 2 ^ 32 →
  accept_node node p = Ok p' ↔
  blake3 node = expected p ∧ ∃ e, get_range node (32 * ps_slot step) (32 * ps_slot step + 32) = Some e ∧
    p' = mk_BlockProof (steps p) (S (next p)) e align.
Proof.
  intros Hn Hs Hl Hb Ha. unfold accept_node. rewrite Hn, Hb. simpl.
  destruct (Z.eqb_spec (zlen node) align) as [_|]; [|done]. simpl.
  assert (checked_mul 64 (ps_slot step) 32 = Some (32 * ps_slot step)) as -> by (apply checked_mul_Some; lia).
  case_bool_decide as Hh; simpl; [|naive_solver].
  assert (32 * ps_slot step +! 32 = 32 * ps_slot step + 32) as -> by (apply wrap_small; unfold in_width; lia).
  destruct (get_range _ _ _) as [e|]; simpl; naive_solver.
Qed.

Section run.
Variables (ds : list (list byte)) (tree : list TreeLevel) (b : nat).
Hypothesis ds_ok : Forall (λ d : list byte, length d = 32%nat) ds.
Hypothesis b_lt : (b < length ds)%nat.
Hypothesis align_small : align < 2 ^ 32.

Definition at_level (m : nat) (p : BlockProof) : Prop :=
  (∃ pre, steps p = pre ++ steps_from tree b m ∧ next p = length pre) ∧ block_bytes p = align ∧
  digests fanout ds m !! (b / fanout ^ m)%nat = Some (expected p).

(** The node of the path, and no other but for a collision. *)
Lemma accept_level m p node p' :
  at_level (S m) p → zlen node = align →
  (blake3 node = blake3 (path_page fanout ds b m) → node = path_page fanout ds b m) →
  accept_node node p = Ok p' ↔ node = path_page fanout ds b m ∧
    ∃ e, digests fanout ds m !! (b / fanout ^ m)%nat = Some e ∧ p' = mk_BlockProof (steps p) (S (next p)) e align.
Proof.
  intros ((pre & Hs & Hn) & Hb & He) Hz Hcol.
  destruct (path_page_spec fanout fanout_some ds b m ds_ok b_lt) as (Hl & Hd & d & Hdm & Hg).
  rewrite He in Hd. injection Hd as Hd.
  assert (next_node p = Some (step_of tree b m)) as Hst.
  { unfold next_node. rewrite Hs, Hn, lookup_app_r, Nat.sub_diag by done. done. }
  assert (0 ≤ ps_slot (step_of tree b m) < fo) as Hslot.
  { cbn [ps_slot step_of]. pose proof (Nat.mod_upper_bound (b / fanout ^ m) fanout). lia. }
  rewrite (accept_node_spec node p _ p' Hst Hslot Hz Hb) by done.
  rewrite Hd, Hdm. cbn [ps_slot step_of]. split.
  - intros [H%Hcol (e & Hg' & ->)]. subst node. rewrite Hg in Hg'. naive_solver.
  - intros [-> (e & [= <-] & ->)]. split; [done|]. by exists d.
Qed.

Lemma at_level_next m p e :
  at_level (S m) p → digests fanout ds m !! (b / fanout ^ m)%nat = Some e →
  at_level m (mk_BlockProof (steps p) (S (next p)) e align).
Proof.
  intros ((pre & Hs & Hn) & Hb & _) He. split; [|done]. exists (pre ++ [step_of tree b m]). simpl.
  rewrite <- app_assoc, length_app, Hn. simpl. split; [done|lia].
Qed.

(** The path is accepted. *)
Lemma accept_path m p : at_level m p → ∃ p', accept_all (path_from ds b m) p = Ok p' ∧ at_level 0 p'.
Proof.
  revert p. induction m as [|m IH]; intros p Hp; [by exists p|]. simpl.
  destruct (path_page_spec fanout fanout_some ds b m ds_ok b_lt) as (Hl & _ & d & Hd & _).
  assert (accept_node (path_page fanout ds b m) p = Ok (mk_BlockProof (steps p) (S (next p)) d align)) as ->.
  { apply (accept_level m); [done|lia|done|]. split; [done|]. by exists d. }
  apply IH. by apply at_level_next.
Qed.

(** Nothing else is. *)
Lemma accept_only m p nodes p' :
  at_level m p → accept_all nodes p = Ok p' → next p' = length (steps p') →
  (∀ k x y, nodes !! k = Some x → path_from ds b m !! k = Some y → blake3 x = blake3 y → x = y) →
  nodes = path_from ds b m ∧ at_level 0 p'.
Proof.
  revert p nodes. induction m as [|m IH]; intros p nodes Hp E Hend Hcol.
  - destruct nodes as [|node nodes]; [by injection E as <-|]. exfalso. simpl in E.
    destruct Hp as ((pre & Hs & Hn) & _). simpl in Hs. rewrite app_nil_r in Hs.
    unfold accept_node, next_node in E. rewrite Hs, Hn, lookup_ge_None_2 in E by done. done.
  - destruct nodes as [|node nodes].
    + injection E as <-. destruct Hp as ((pre & Hs & Hn) & _).
      rewrite Hs, Hn, length_app, length_steps_from in Hend. lia.
    + simpl in E. destruct (accept_node node p) as [p1|er] eqn:En; [|done]. simpl in E.
      assert (zlen node = align) as Hz.
      { unfold accept_node in En. destruct (next_node p); [|done]. simpl in En.
        destruct Hp as (_ & Hb & _). rewrite Hb in En. by destruct (Z.eqb_spec (zlen node) align). }
      apply (accept_level m p node p1 Hp Hz) in En as (-> & e & He & ->); [|by apply (Hcol 0%nat)].
      destruct (IH _ nodes (at_level_next m p e Hp He) E Hend) as [-> Hp'].
      { intros k x y Hx Hy. by apply (Hcol (S k)). }
      done.
Qed.

Lemma verify_level data p :
  at_level 0 p → next p = length (steps p) →
  verify_data data p = Ok tt ↔ zlen data = align ∧ ds !! b = Some (blake3 data).
Proof.
  intros (_ & Hb & He) Hn. rewrite Nat.pow_0_r, Nat.div_1_r in He. cbn [digests] in He. unfold verify_data.
  rewrite Hn, Nat.eqb_refl, Hb, He. simpl. destruct (Z.eqb_spec (zlen data) align); [|naive_solver].
  simpl. case_bool_decide as Hh; simpl; [|naive_solver congruence]. rewrite Hh. done.
Qed.

End run.
End proofs.

Section theorem.
Context {BL : Blake3}.

(** Blocks and the commit that was made of them: the root is the last digest of the tree over
    their digests. *)
Definition commits (blocks : list (list byte)) (v : Superblock) (c : Commit) : Prop :=
  let f := Z.to_nat (alignment v / 32) in
  zlen blocks = div_ceil (bytes (metadata c)) (alignment v) ∧
  Forall (λ x, zlen x = alignment v) blocks ∧
  match location c with
  | Extent _ _ tree root => digests f (blake3 <$> blocks) (length tree) !! 0%nat = Some root
  | File _ => False
  end.

Lemma proof_new_Ok blocks v c b off padded tree root :
  superblock_ok v → validate_in c v = Ok tt → commits blocks v c → (b < length blocks)%nat →
  location c = Extent off padded tree root →
  ∃ f : nat, (16 ≤ f)%nat ∧ alignment v = 32 * Z.of_nat f ∧
  at_level f (alignment v) (blake3 <$> blocks) tree b (length tree)
    (mk_BlockProof (steps_from f (alignment v) tree b (length tree)) 0 root (alignment v)) ∧
  proof_new c v (Z.of_nat b) = Ok (mk_BlockProof (steps_from f (alignment v) tree b (length tree)) 0 root (alignment v)).
Proof.
  intros W V (Hn & Hbl & Hr) Hb Hl. rewrite Hl in Hr.
  destruct (validate_in_extent _ _ _ _ _ _ V Hl) as (G & _ & _ & _ & X).
  destruct (go_align _ G) as (f & Hf & Ha). exists f. split; [done|]. split; [done|].
  assert (Z.to_nat (alignment v / 32) = f) as Ef.
  { rewrite Ha, Z.mul_comm, Z.div_mul by done. lia. }
  rewrite Ef in Hr. set (ds := blake3 <$> blocks) in *.
  assert (zlen ds = zlen blocks) as Lds by (unfold zlen, ds; by rewrite length_fmap).
  assert (bytes (metadata c) ≠ 0) as H0.
  { intros E0. rewrite E0 in Hn. unfold zlen, div_ceil in Hn. rewrite Z.mod_0_l, Z.div_0_l in Hn by lia.
    simpl in Hn. lia. }
  destruct (xo_tree _ _ _ _ _ _ X H0) as [Hne Hc]. rewrite <- Hn, <- Lds in Hc.
  destruct W as (Wc & Wa & _ & _ & Wd & _). pose proof (xo_end _ _ _ _ _ _ X). pose proof (xo_data _ _ _ _ _ _ X).
  pose proof (go_log _ G). pose proof (go_data _ G) as [Hd _]. pose proof (xo_padded _ _ _ _ _ _ X) as Hp.
  rewrite <- Hn in Hp. unfold in_width in *. pose proof (zlen_nonneg blocks).
  assert (0 < zlen ds) as Hpos by (rewrite Lds; unfold zlen; lia).
  assert (0 ≤ off + padded) as Hend by nia.
  pose proof (tree_height f (alignment v) (capacity v) Hf Ha ds _ tree Hend Hpos ltac:(rewrite Lds; nia) ltac:(lia) Hne Hc) as Hh.
  destruct (check_levels_spec f (alignment v) (capacity v) Hf Ha ds 0 _ tree 1 Hend Hc) as [Hlast Hlev].
  assert (b < length ds)%nat as Hbd by (unfold ds; by rewrite length_fmap).
  split.
  { split; [by exists []|]. split; [done|]. simpl.
    destruct (ancestor f Hf ds b (length tree) Hbd) as [d Hd'].
    assert (b / f ^ length tree = 0)%nat as ->; [|done].
    apply lookup_lt_Some in Hd'. simpl plus in Hlast. unfold zlen in Hlast. lia. }
  unfold proof_new. rewrite V. simpl. rewrite <- Hn.
  destruct (Z.leb_spec (zlen blocks) (Z.of_nat b)); [unfold zlen in *; lia|].
  rewrite Hl. assert (alignment v / 32 = Z.of_nat f) as -> by (rewrite Ha, Z.mul_comm; by apply Z.div_mul).
  rewrite (divisors_Ok f Hf tree 1) by lia. unfold mbind, result_bind.
  rewrite <- (firstn_all tree) at 1.
  rewrite (proof_steps_Ok f (alignment v) Hf Ha tree b (length tree)); [done|done|].
  intros j l Hj. destruct (Hlev j l Hj) as (-> & L1 & _ & _ & L2 & _). simpl plus in *.
  split_and!; [|lia|done]. destruct (ancestor f Hf ds b (S j) Hbd) as [d Hd'].
  apply lookup_lt_Some in Hd'. unfold zlen. lia.
Qed.

(** C14: the proof of a block accepts the committed block and nothing else.  For a commit made
    of blocks and any of them, the proof is set up, the nodes above the block and then the
    block itself pass it; and when any pages and any data pass it, they are those nodes and
    that block, unless one of them is another text with the same BLAKE3 as the page it stands
    in for. *)
Theorem block_proof_exact blocks v c b data :
  superblock_ok v → validate_in c v = Ok tt → commits blocks v c → blocks !! b = Some data →
  ∃ p path, proof_new c v (Z.of_nat b) = Ok p ∧
    (∃ p', accept_all path p = Ok p' ∧ verify_data data p' = Ok tt) ∧
    ∀ nodes read p', accept_all nodes p = Ok p' → verify_data read p' = Ok tt →
      (∀ k x y, nodes !! k = Some x → path !! k = Some y → blake3 x = blake3 y → x = y) →
      (blake3 read = blake3 data → read = data) → nodes = path ∧ read = data.
Proof.
  intros W V Hc Hb. assert (∃ off padded tree root, location c = Extent off padded tree root)
    as (off & padded & tree & root & Hl).
  { destruct Hc as (_ & _ & Hc). destruct (location c); [done|]. by repeat eexists. }
  destruct (proof_new_Ok blocks v c b off padded tree root W V Hc (lookup_lt_Some _ _ _ Hb) Hl)
    as (f & Hf & Ha & Hp & ->).
  set (p := mk_BlockProof _ _ _ _) in *. set (ds := blake3 <$> blocks) in *.
  assert (Forall (λ d : list byte, length d = 32%nat) ds) as Hd.
  { apply Forall_fmap, Forall_forall. intros x _. apply blake3_length. }
  assert (ds !! b = Some (blake3 data)) as Hds by (unfold ds; by rewrite list_lookup_fmap, Hb).
  pose proof (lookup_lt_Some _ _ _ Hds) as Hlt.
  assert (zlen data = alignment v) as Hz.
  { destruct Hc as (_ & Hbl & _). rewrite Forall_forall in Hbl. apply Hbl. by eapply list_elem_of_lookup_2. }
  assert (alignment v < 2 ^ 32) as Hs by (destruct W as (_ & [_ ?] & _); done).
  exists p, (path_from f ds b (length tree)). split; [done|]. split.
  - destruct (accept_path f _ Hf Ha ds tree b Hd Hlt Hs _ p Hp) as (p' & E & Hp'). exists p'. split; [done|].
    apply (verify_level f _ Ha ds tree b Hs data p' Hp'); [|done].
    destruct Hp' as ((pre & -> & ->) & _). simpl. by rewrite app_nil_r.
  - intros nodes read p' E Ev Hn Hr.
    assert (next p' = length (steps p')) as Hend.
    { unfold verify_data in Ev. destruct (Nat.eqb_spec (next p') (length (steps p'))); [done|]. done. }
    destruct (accept_only f _ Hf Ha ds tree b Hd Hlt Hs _ p nodes p' Hp E Hend Hn) as [-> Hp'].
    split; [done|]. apply (verify_level f _ Ha ds tree b Hs read p' Hp' Hend) in Ev as [_ Ev].
    rewrite Hds in Ev. injection Ev as Ev. by apply Hr.
Qed.

End theorem.
