(* ===== verification/StoreJournal.v ===== *)
(** * The journal

    [src/crates/moruna-storage-format/src/journal.rs]: the index of a volume, built by
    replaying the pairs of a commit and its receipt from the log.  A [BTreeMap] from keys is
    the list of its entries in the order of the keys' bytes. *)

From S2P Require Import Prelude StoreFormat StoreCodec StoreTree StoreProof.

(** ** Maps from strings, in order *)

Fixpoint bytes_cmp (x y : list byte) : comparison :=
  match x, y with
  | [], [] => Eq
  | [], _ => Lt
  | _, [] => Gt
  | a :: x, b :: y =>
      match byte_Z a ?= byte_Z b with Eq => bytes_cmp x y | c => c end
  end.

Section smap.
Context {A : Type}.

Fixpoint smap_get (m : list (list byte * A)) (k : list byte) : option A :=
  match m with
  | [] => None
  | (k', a) :: m => if bool_decide (k = k') then Some a else smap_get m k
  end.

Fixpoint smap_insert (k : list byte) (a : A) (m : list (list byte * A)) : list (list byte * A) :=
  match m with
  | [] => [(k, a)]
  | (k', a') :: rest =>
      match bytes_cmp k k' with
      | Lt => (k, a) :: m
      | Eq => (k, a) :: rest
      | Gt => (k', a') :: smap_insert k a rest
      end
  end.

End smap.

(** [wire::Condition]. *)
Inductive Condition := Absent | Match (v : Version).

Abbreviation RECORD_CELL_BYTES := (16 * 1024).

Record Journal := mk_Journal {
  geometry : Superblock;
  cell : Z;
  log : Z;
  data : Z;
  entries : list (list byte * Commit);
}.

(** Bytes in a cell of [n], zeroes after them. *)
Definition padded (n : Z) (bs : list byte) : list byte := bs ++ repeat x00 (Z.to_nat (n - zlen bs)).

Section journal.
Context {BL : Blake3}.

(** [Journal::new]. *)
Definition journal_new (g : Superblock) : result Error Journal :=
  _ ← validate_superblock g;
  let align := alignment g in
  n ← ok_or (checked_add 64 RECORD_CELL_BYTES (align - 1)) Limit;
  let cl := n / align * align in
  two ← ok_or (checked_mul 64 cl 2) Limit;
  if negb (is_multiple_of (log_bytes g) two) then Err Invalid
  else Ok (mk_Journal g cl (log_offset g) (data_offset g) []).

Definition has_capacity (j : Journal) : bool :=
  match checked_add 64 (log j) (2 *! cell j) with
  | Some e => e <=? data_offset (geometry j)
  | None => false
  end.

Definition current (k : list byte) (j : Journal) : option Commit := smap_get (entries j) k.

(** [Journal::object]. *)
Definition journal_object (o : Object) (j : Journal) : result Error unit :=
  _ ← validate_object o;
  if is_nil (key o) || negb (bool_decide (workspace o = sb_workspace (geometry j)))
     || negb (bool_decide (bucket o = sb_bucket (geometry j)))
  then Err Invalid else Ok tt.

Definition condition (o : Object) (cd : Condition) (j : Journal) : result Error bool :=
  _ ← journal_object o j;
  match cd, current (key o) j with
  | Absent, None => Ok true
  | Match v, Some c => _ ← validate_version v; Ok (bool_decide (v = version (metadata c)))
  | Match v, None => _ ← validate_version v; Ok false
  | Absent, Some _ => Ok false
  end.

Definition plan (o : Object) (cd : Condition) (bytes : Z) (j : Journal) : result Error (option Location) :=
  holds ← condition o cd j;
  if negb holds then Ok None
  else if negb (has_capacity j) then Err Limit
  else loc ← extent (geometry j) (data j) bytes; Ok (Some loc).

Definition validate_commit (c : Commit) (j : Journal) : result Error unit :=
  if negb (has_capacity j) || negb (sequence c =? log j) then Err Invalid
  else
    _ ← validate_in c (geometry j);
    match location c with
    | Extent off _ _ _ => if off =? data j then Ok tt else Err Invalid
    | File _ => Err Invalid
    end.

Definition extent_end (l : Location) (j : Journal) : result Error Z :=
  match l with
  | Extent off padded tree _ =>
      match last tree with
      | Some lv => ok_or (after_nodes (lv_offset lv) (lv_nodes lv) (alignment (geometry j))) Limit
      | None => ok_or (checked_add 64 off padded) Limit
      end
  | File _ => Err Invalid
  end.

(** [Journal::replay]; on an error the journal is as it was. *)
Definition replay (record receipt : list byte) (j : Journal) : result Error (bool * Journal) :=
  if negb (has_capacity j) || negb (zlen record =? cell j) || negb (zlen receipt =? cell j)
  then Err Invalid
  else if forallb (λ b, bool_decide (b = x00)) receipt then Ok (false, j)
  else
    f ← decode receipt;
    hash ← match f with
           | FReceipt seq h => if seq =? log j then Ok h else Err Integrity
           | _ => Err Integrity
           end;
    n ← frame_size record;
    if (zlen record <? n) || negb (bool_decide (blake3 (take (Z.to_nat n) record) = hash))
    then Err Integrity
    else
      f ← decode record;
      c ← match f with FCommit c => Ok c | _ => Err Integrity end;
      _ ← validate_commit c j;
      e ← extent_end (location c) j;
      l ← ok_or (checked_add 64 (log j) (2 *! cell j)) Limit;
      Ok (true, mk_Journal (geometry j) (cell j) l e
                  (smap_insert (key (object (metadata c))) c (entries j))).

End journal.
