(* ===== verification/StoreBanks.v ===== *)
(** * The roots of a volume

    [src/crates/moruna-storage-format/src/banks.rs]: two root cells at the start of a device,
    written in turn, each naming the bank that holds the volume; and the choice between them
    when a volume is mounted. *)

From S2P Require Import Prelude StoreFormat StoreCodec StoreTree StoreProof.

Record Root := mk_Root {
  physical : Z;
  root_generation : Z;
  bank : Z;
  root_geometry : Superblock;
}.

(** "MORUBNK3". *)
Definition BANK_MAGIC : list byte := [x4d; x4f; x52; x55; x42; x4e; x4b; x33].
Abbreviation BANK_VERSION := 3.
Abbreviation BANK_HEADER := 68.

(** [Root::slot]. *)
Definition slot (r : Root) : Z := (root_generation r - 1) mod 2 * alignment (root_geometry r).

(** [Root::validate]. *)
Definition validate_root (r : Root) : result Error unit :=
  let g := root_geometry r in
  _ ← validate_superblock g;
  let a := alignment g in
  if (root_generation r =? 0) || (1 <? bank r) || negb (bank r =? (root_generation r - 1) mod 2)
     || negb (is_multiple_of (physical r) a) then Err Invalid
  else
    n ← ok_or (checked_sub (physical r) (2 * a)) Invalid;
    let bank_bytes := n / 2 / a * a in
    let start := 2 * a + bank r * bank_bytes in
    if negb (log_offset g =? start) then Err Invalid
    else
      e ← ok_or (checked_add 64 start bank_bytes) Limit;
      if negb (capacity g =? e) || (capacity g <=? data_offset g) then Err Invalid else Ok tt.

(** [Root::initial]. *)
Definition root_initial (phys align log_bytes : Z) (rl : Role) (ws bk : list byte) : result Error Root :=
  let a := align in
  if (a <? 512) || negb (is_power_of_two a) || negb (is_multiple_of phys a) then Err Invalid
  else
    start ← ok_or (checked_mul 64 a 2) Limit;
    n ← ok_or (checked_sub phys start) Invalid;
    let bank_bytes := n / 2 / a * a in
    e ← ok_or (checked_add 64 start bank_bytes) Limit;
    d ← ok_or (checked_add 64 start log_bytes) Limit;
    let r := mk_Root phys 1 0 (mk_Superblock e align start log_bytes d rl ws bk) in
    _ ← validate_root r;
    Ok r.

(** [Root::next]. *)
Definition root_next (r : Root) : result Error Root :=
  _ ← validate_root r;
  gen ← ok_or (checked_add 64 (root_generation r) 1) Limit;
  let g := root_geometry r in
  n ← root_initial (physical r) (alignment g) (log_bytes g) (role g) (sb_workspace g) (sb_bucket g);
  let bk := 1 - bank r in
  let a := alignment g in
  let bank_bytes := (physical r - 2 * a) / 2 / a * a in
  let start := 2 * a + bk * bank_bytes in
  d ← ok_or (checked_add 64 start (log_bytes (root_geometry n))) Limit;
  c ← ok_or (checked_add 64 start bank_bytes) Limit;
  let g' := root_geometry n in
  let nx := mk_Root (physical n) gen bk
    (mk_Superblock c (alignment g') start (log_bytes g') d (role g') (sb_workspace g') (sb_bucket g')) in
  _ ← validate_root nx;
  Ok nx.

Section roots.
Context {BL : Blake3}.

(** What the header's checksum is over, before and after the checksum itself. *)
Definition root_head (length : Z) (r : Root) : list byte :=
  BANK_MAGIC ++ le_enc 4 BANK_VERSION ++ le_enc 4 length ++ le_enc 8 (physical r) ++
  le_enc 8 (root_generation r) ++ le_enc 1 (bank r) ++ repeat x00 3.

(** [Root::encode]. *)
Definition root_encode (r : Root) : result Error (list byte) :=
  _ ← validate_root r;
  inner ← encode (FSuperblock (root_geometry r));
  len ← ok_or (checked_add 64 BANK_HEADER (zlen inner)) Limit;
  if alignment (root_geometry r) <? len then Err Limit
  else
    let head := root_head len r in
    Ok (head ++ blake3 (head ++ inner) ++ inner).

(** [Root::decode]. *)
Definition root_decode (bs : list byte) : result Error Root :=
  if zlen bs <? BANK_HEADER then Err Invalid
  else if negb (bool_decide (take 8 bs = BANK_MAGIC))
  then Err (if bool_decide (take 7 bs = take 7 BANK_MAGIC) then BadVersion else Invalid)
  else
    let u n at_ := le_dec (take n (drop at_ bs)) in
    if negb (u 4%nat 8%nat =? BANK_VERSION) then Err BadVersion
    else
      let len := u 4%nat 12%nat in
      if (len <? BANK_HEADER) || (zlen bs <? len)
         || negb (bool_decide (take 3 (drop 33 bs) = repeat x00 3))
         || existsb (λ b, negb (bool_decide (b = x00))) (drop (Z.to_nat len) bs) then Err Invalid
      else
        let inner := take (Z.to_nat (len - BANK_HEADER)) (drop 68 bs) in
        if negb (bool_decide (blake3 (take 36 bs ++ inner) = take 32 (drop 36 bs))) then Err Integrity
        else
          f ← decode inner;
          g ← match f with FSuperblock s => Ok s | _ => Err Invalid end;
          let r := mk_Root (u 8%nat 16%nat) (u 8%nat 24%nat) (u 1%nat 32%nat) g in
          _ ← validate_root r;
          if alignment g <? zlen bs then Err Invalid else Ok r.

(** [Recovery]: the root chosen, and the cell to be retired. *)
Record Recovery := mk_Recovery { rc_root : Root; retire : option Z }.

(** [cell] of [Root::recover]. *)
Definition root_cell (bs : list byte) (sl : Z) : result Error (option Root) :=
  if is_nil bs then Err Integrity
  else if forallb (λ b, bool_decide (b = x00)) bs then Ok None
  else
    r ← map_err (λ _, Integrity) (root_decode bs);
    if negb (zlen bs =? alignment (root_geometry r))
       || negb (slot r =? sl * alignment (root_geometry r)) then Err Integrity
    else Ok (Some r).

(** [Root::select]. *)
Definition select (first second : option Root) : result Error Root :=
  match first, second with
  | Some a, Some b =>
      let ga := root_geometry a in let gb := root_geometry b in
      if negb (physical a =? physical b) || negb (alignment ga =? alignment gb)
         || negb (log_bytes ga =? log_bytes gb)
         || negb (bool_decide (sb_workspace ga = sb_workspace gb))
         || negb (bool_decide (sb_bucket ga = sb_bucket gb))
         || negb (bool_decide (role ga = role gb))
         || negb (Z.abs (root_generation a - root_generation b) =? 1) then Err Integrity
      else Ok (if root_generation b <? root_generation a then a else b)
  | Some a, None | None, Some a => Ok a
  | None, None => Err Integrity
  end.

(** [Root::recover]. *)
Definition recover (first second : list byte) : result Error Recovery :=
  if is_nil first || negb (zlen first =? zlen second) then Err Integrity
  else
    a ← root_cell first 0;
    b ← root_cell second 1;
    let rt := match a, b with
              | Some a, Some b => Some (if root_generation a <? root_generation b then slot a else slot b)
              | _, _ => None
              end in
    r ← select a b;
    Ok (mk_Recovery r rt).

End roots.
