(* ===== verification/StoreDisk.v ===== *)
(** * A device and what a crash leaves of it

    The block device a volume is on, under [src/kernel/storage/src/device.rs] and the
    functions of [volume.rs] that read and write it.  A device writes whole sectors; a write
    is certain once a flush has returned, and until then a crash may leave any sector as it
    was or as any write since the last flush has it.  The device, the memory the service asks
    for and the moment of a crash are answers the environment gives, one for each question. *)

From S2P Require Import Prelude StoreFormat StoreTree StoreProof.

(** [wire::Refusal]. *)
Inductive Refusal :=
| Denied | Missing | Conflict | Unavailable | Unsupported | NoCapacity | BadIntegrity | BadRequest | Busy.

(** How an operation ends before its end: it is refused, the power fails, or an index is out
    of its slice. *)
Inductive Stop := Refused (r : Refusal) | Crashed | Panicked.

(** What the environment answers: as asked; it is refused; the device failed, or the power
    did, with the work begun. *)
Inductive Answer := Fine | NoResource | DeviceFailed | PowerFails.

(** [block_protocol::Info]. *)
Record Info := mk_Info { sector_size : Z; sectors : Z; max_sectors : Z }.

Abbreviation Sector := (list byte).

(** What is durable, and the writes since the last flush, the last first. *)
Record Disk := mk_Disk { durable : Z → Sector; pending : list (Z * list Sector) }.

(** [Device] and its [Controller]: [client] is the connection to the driver, given up at the
    first failure; [has_pending] tells of asynchronous operations in flight, which do not end
    or start while an operation of this file runs. *)
Record Dev := mk_Dev {
  disk : Disk;
  info : Info;
  answers : list Answer;
  client : bool;
  has_pending : bool;
}.

Abbreviation D := (M Dev Stop).

(** ** Sectors *)

(** What a write has for a sector. *)
Definition written (w : Z * list Sector) (x : Z) : option Sector :=
  if w.1 <=? x then w.2 !! Z.to_nat (x - w.1) else None.

(** What a read sees. *)
Definition view (d : Disk) (x : Z) : Sector :=
  foldr (λ w rest, match written w x with Some s => s | None => rest end) (durable d x) (pending d).

(** What a crash may leave. *)
Definition images (d : Disk) (x : Z) : list Sector :=
  durable d x :: omap (λ w, written w x) (pending d).

Definition crash (d d' : Disk) : Prop := pending d' = [] ∧ ∀ x, durable d' x ∈ images d x.

(** What a crash may leave of a device that does not write its sectors whole: every byte of a
    sector is one it had or one that was written there. *)
Definition mixed (ts : list Sector) (s : Sector) : Prop :=
  (∃ t, t ∈ ts ∧ length s = length t) ∧ ∀ n b, s !! n = Some b → ∃ t, t ∈ ts ∧ t !! n = Some b.
Definition torn (d d' : Disk) : Prop := pending d' = [] ∧ ∀ x, mixed (images d x) (durable d' x).

Definition push_write (s : Z) (ss : list Sector) (d : Disk) : Disk :=
  mk_Disk (durable d) ((s, ss) :: pending d).
Definition flushed (d : Disk) : Disk := mk_Disk (view d) [].

(** ** The environment *)

Definition ask : D Answer := λ s,
  match answers s with
  | [] => (Ok Fine, s)
  | a :: rest => (Ok a, mk_Dev (disk s) (info s) rest (client s) (has_pending s))
  end.

Definition refuse {A} (r : Refusal) : D A := fail (Refused r).

(** Something asked of the kernel; [r] when it is refused. *)
Definition obtain (r : Refusal) : D unit :=
  a ← ask;
  match a with
  | Fine | DeviceFailed => mret tt
  | NoResource => refuse r
  | PowerFails => fail Crashed
  end.

Definition put_disk (f : Disk → Disk) : D unit :=
  modify (λ s, mk_Dev (f (disk s)) (info s) (answers s) (client s) (has_pending s)).

Definition close_client : D unit :=
  modify (λ s, mk_Dev (disk s) (info s) (answers s) false (has_pending s)).

(** ** [Device]: one request, and [device_refusal] of what it answers *)

(** [Device::sector]. *)
Definition dev_bounds (i : Info) (s count : Z) : bool :=
  (0 <? count) && (count <=? max_sectors i) &&
  match checked_add 64 s count with Some e => e <=? sectors i | None => false end.

(** [Controller::original], which sends a request to the driver and awaits its reply: [done_] is
    what it does, and [begun] what it may have done by the time it fails. *)
Definition original {A} (begun : D unit) (done_ : D A) : D A :=
  s ← gets (λ s, s);
  if has_pending s then refuse Busy
  else if negb (client s) then refuse Unavailable
  else
    a ← ask;
    match a with
    | Fine => done_
    | NoResource => _ ← close_client; refuse Unavailable
    | DeviceFailed => _ ← begun; _ ← close_client; refuse Unavailable
    | PowerFails => _ ← begun; fail Crashed
    end.

(** [Device::write]. *)
Definition dev_write (s : Z) (ss : list Sector) : D unit :=
  i ← gets info;
  if negb (dev_bounds i s (zlen ss)) then refuse Unavailable
  else original (put_disk (push_write s ss)) (put_disk (push_write s ss)).

(** [Device::read]; a sector is [sector_size] bytes. *)
Definition dev_read (s : Z) (count : nat) : D (list Sector) :=
  i ← gets info;
  if negb (dev_bounds i s (Z.of_nat count)) then refuse Unavailable
  else original (mret tt) (gets (λ d, (λ k, resize (Z.to_nat (sector_size i)) x00 (view (disk d) (s + Z.of_nat k))) <$> seq 0 count)).

(** [Device::flush]. *)
Definition dev_flush : D unit := original (mret tt) (put_disk flushed).

(** ** [volume.rs]: blocks *)

(** [read_block]. *)
Definition read_block (off : Z) (len : Z) : D (list byte) :=
  i ← gets info;
  let sector := sector_size i in
  if negb (is_multiple_of off sector) || negb (is_multiple_of len sector) then refuse BadRequest
  else
    _ ← obtain NoCapacity;
    if 2 ^ 32 <=? len / sector then refuse NoCapacity
    else
      ss ← dev_read (off / sector) (Z.to_nat (len / sector));
      _ ← obtain Unavailable;
      mret (concat ss).

(** [read_aligned]: the lengths of the chunks from [at_]. *)
Fixpoint read_chunks (off max : Z) (index : Z) (lens : list Z) : D (list byte) :=
  match lens with
  | [] => mret []
  | n :: lens =>
      b ← read_block (off +! index *! max) n;
      rest ← read_chunks off max (index + 1) lens;
      mret (b ++ rest)
  end.

Definition read_aligned (off len : Z) : D (list byte) :=
  i ← gets info;
  let max := max_sectors i * sector_size i in
  read_chunks off max 0 (zlen <$> chunks (Z.to_nat max) (repeat x00 (Z.to_nat len))).

(** [write_aligned]. *)
Fixpoint write_chunks (off max sector : Z) (index : Z) (cs : list (list byte)) : D unit :=
  match cs with
  | [] => mret tt
  | c :: cs =>
      _ ← obtain NoCapacity;
      _ ← obtain Unavailable;
      _ ← dev_write (off / sector +! index * max / sector) (chunks (Z.to_nat sector) c);
      write_chunks off max sector (index + 1) cs
  end.

Definition write_aligned (off : Z) (source : list byte) : D unit :=
  i ← gets info;
  let sector := sector_size i in
  let max := max_sectors i * sector in
  if negb (is_multiple_of off sector) || negb (is_multiple_of (zlen source) sector) then refuse BadRequest
  else write_chunks off max sector 0 (chunks (Z.to_nat max) source).
