(* ===== verification/StoreCrash.v ===== *)
(** * What writes and flushes leave

    Which bytes of a device a crash can no longer change, and what the reads and writes of
    [StoreDisk] do to them, whatever the environment answers. *)

From S2P Require Import Prelude StoreFormat StoreTree StoreProof StoreDisk.

(** ** Chunks *)

Lemma chunks_app {A} n (x y : list A) k :
  (0 < n)%nat → length x = (k * n)%nat → chunks n (x ++ y) = chunks n x ++ chunks n y.
Proof.
  intros Hn. revert x. induction k as [|k IH]; intros x Hx.
  - by destruct x.
  - destruct x as [|b x]; [simpl in Hx; lia|]. rewrite (chunks_step n Hn (b :: x)), chunks_step by done.
    rewrite take_app_le, drop_app_le by lia. rewrite IH by (rewrite length_drop; lia). done.
Qed.

Lemma chunks_one {A} n (x : list A) : (0 < n)%nat → x ≠ [] → (length x ≤ n)%nat → chunks n x = [x].
Proof. intros Hn Hx Hl. rewrite chunks_step, take_ge, drop_ge by done. done. Qed.

Lemma length_chunks {A} n (x : list A) k : (0 < n)%nat → length x = (k * n)%nat → length (chunks n x) = k.
Proof.
  intros Hn Hx. pose proof (zlen_chunks n Hn x) as H. unfold zlen in H.
  rewrite (div_ceil_unique _ _ (Z.of_nat k)) in H; lia.
Qed.

Lemma chunks_lookup {A} n (x : list A) k c :
  (0 < n)%nat → chunks n x !! k = Some c → c = take n (drop (k * n) x).
Proof.
  intros Hn. revert k. induction x as [|x Hx IH] using (chunks_ind n Hn); intros k Hk; [done|].
  rewrite chunks_step in Hk by done. destruct k as [|k]; [by injection Hk as <-|].
  apply IH in Hk. rewrite Hk, drop_drop. done.
Qed.

(** Every piece of whole pieces is whole. *)
Lemma chunk_length {A} n (Hn : (0 < n)%nat) (x : list A) k c :
  (length x mod n = 0)%nat → chunks n x !! k = Some c → length c = n.
Proof.
  intros Hx Hk. pose proof (lookup_lt_Some _ _ _ Hk) as Hlt. apply (chunks_lookup n x k c Hn) in Hk as ->.
  pose proof (Nat.div_mod_eq (length x) n) as E. rewrite Hx in E.
  rewrite (length_chunks n x (length x / n)) in Hlt by lia. rewrite length_take, length_drop. nia.
Qed.

Lemma chunk_byte {A} n (x : list A) k c m : (0 < n)%nat → chunks n x !! k = Some c → (m < n)%nat → c !! m = x !! (k * n + m)%nat.
Proof. intros Hn Hk Hm. apply (chunks_lookup n x k c Hn) in Hk as ->. by rewrite lookup_take_lt, lookup_drop by done. Qed.

(** Whole pieces, put together. *)
Lemma chunks_concat {A} n (cs : list (list A)) : (0 < n)%nat → Forall (λ c, length c = n) cs → chunks n (concat cs) = cs.
Proof.
  intros Hn. induction 1 as [|c cs Hc _ IH]; [done|]. simpl. rewrite (chunks_app n c _ 1), IH by lia.
  rewrite chunks_one; [done|done| |lia]. intros ->. simpl in Hc. lia.
Qed.

Lemma concat_whole {A} n (cs : list (list A)) : Forall (λ c, length c = n) cs → length (concat cs) = (length cs * n)%nat.
Proof. induction 1 as [|c cs Hc _ IH]; [done|]. simpl. rewrite length_app. lia. Qed.

(** ** Sectors *)

Lemma view_in_images d x : view d x ∈ images d x.
Proof.
  unfold view, images. induction (pending d) as [|w ws IH]; simpl; [by left|].
  destruct (written w x) as [s|]; [right; left|done].
Qed.

(** Every crash leaves [s] at sector [x]. *)
Definition stable (d : Disk) (x : Z) (s : Sector) : Prop := ∀ t, t ∈ images d x → t = s.

Lemma stable_view d x s : stable d x s → view d x = s.
Proof. intros H. apply H, view_in_images. Qed.

Lemma images_push s ss d x :
  images (push_write s ss d) x =
  match written (s, ss) x with
  | Some t => durable d x :: t :: omap (λ w, written w x) (pending d)
  | None => images d x
  end.
Proof. unfold images, push_write. simpl. by destruct (written _ _). Qed.

Lemma view_push s ss d x :
  view (push_write s ss d) x = match written (s, ss) x with Some t => t | None => view d x end.
Proof. done. Qed.

Lemma images_flushed d x : images (flushed d) x = [view d x].
Proof. done. Qed.

Lemma view_flushed d x : view (flushed d) x = view d x.
Proof. done. Qed.

Lemma written_range s ss x t : written (s, ss) x = Some t → s ≤ x < s + zlen ss.
Proof.
  unfold written. simpl. destruct (Z.leb_spec s x); [|done]. intros H1%lookup_lt_Some. unfold zlen. lia.
Qed.

Lemma written_at s ss k : written (s, ss) (s + Z.of_nat k) = ss !! k.
Proof. unfold written. simpl. destruct (Z.leb_spec s (s + Z.of_nat k)); [|lia]. f_equal. lia. Qed.

(** ** Bytes *)

Record info_ok (i : Info) : Prop := {
  io_sector : is_power_of_two (sector_size i) = true ∧ 512 ≤ sector_size i < 2 ^ 32;
  io_max : 0 < max_sectors i < 2 ^ 32;
  io_sectors : 0 < sectors i;
  io_capacity : sectors i * sector_size i < 2 ^ 64;
}.

Section bytes.
Variable z : nat.
Hypothesis z_pos : (0 < z)%nat.

Abbreviation sz := (Z.of_nat z).

(** The sectors of the bytes [bs] at [off] satisfy [P]. *)
Definition each (P : Z → Sector → Prop) (off : Z) (bs : list byte) : Prop :=
  ∀ k s, chunks z bs !! k = Some s → P (off / sz + Z.of_nat k) s.

(** What is read at [off] is [bs]; what any crash leaves there is. *)
Definition seen (d : Disk) : Z → list byte → Prop := each (λ x s, view d x = s).
Definition holds (d : Disk) : Z → list byte → Prop := each (stable d).

(** Whole sectors. *)
Definition whole (n : Z) : Prop := n mod sz = 0.

Lemma whole_length (bs : list byte) : whole (zlen bs) → length bs = (Z.to_nat (zlen bs / sz) * z)%nat.
Proof.
  unfold whole, zlen. intros H. pose proof (Z.div_mod (Z.of_nat (length bs)) sz ltac:(lia)).
  assert (0 ≤ Z.of_nat (length bs) / sz) by (apply Z.div_pos; lia). nia.
Qed.

Lemma each_app P off x y :
  0 ≤ off → whole off → whole (zlen x) →
  each P off (x ++ y) ↔ each P off x ∧ each P (off + zlen x) y.
Proof.
  intros Ho Wo Wx. unfold each. pose proof (whole_length x Wx) as L.
  rewrite (chunks_app z x y _ z_pos L).
  pose proof (length_chunks z x _ z_pos L) as Lc.
  assert ((off + zlen x) / sz = off / sz + Z.of_nat (length (chunks z x))) as ->.
  { rewrite Lc. unfold whole in *. pose proof (Z.div_mod off sz ltac:(lia)). pose proof (Z.div_mod (zlen x) sz ltac:(lia)).
    assert (0 ≤ zlen x / sz) by (apply Z.div_pos; [apply zlen_nonneg|lia]).
    rewrite Z2Nat.id by done. symmetry. apply Z.div_unique with 0; lia. }
  split.
  - intros H. split.
    + intros k s Hk. apply H. by rewrite lookup_app_l by (by eapply lookup_lt_Some).
    + intros k s Hk. rewrite <- Z.add_assoc, <- Nat2Z.inj_add. apply H.
      rewrite lookup_app_r by lia. by replace (_ - _)%nat with k by lia.
  - intros [H1 H2] k s [Hk|[Hge Hk]]%lookup_app_Some; [by apply H1|].
    specialize (H2 _ _ Hk). by replace (off / sz + Z.of_nat k)
      with (off / sz + Z.of_nat (length (chunks z x)) + Z.of_nat (k - length (chunks z x))) by lia.
Qed.

Lemma each_nil P off : each P off [].
Proof. intros k s Hk. done. Qed.

Lemma each_mono P Q off bs : (∀ x s, P x s → Q x s) → each P off bs → each Q off bs.
Proof. intros H HP k s Hk. by apply H, HP. Qed.

Lemma holds_seen d off bs : holds d off bs → seen d off bs.
Proof. apply each_mono. apply stable_view. Qed.

(** Outside the bytes [lo, hi), what is read is as it was and a crash leaves no more than it
    could. *)
Definition touches (lo hi : Z) (d d' : Disk) : Prop :=
  ∀ x, x * sz + sz ≤ lo ∨ hi ≤ x * sz → images d' x ⊆ images d x ∧ view d' x = view d x.

Lemma touches_refl lo hi d : touches lo hi d d.
Proof. intros x _. done. Qed.

Lemma touches_trans lo hi d1 d2 d3 : touches lo hi d1 d2 → touches lo hi d2 d3 → touches lo hi d1 d3.
Proof. clear z_pos. intros H1 H2 x Hx. destruct (H1 x Hx) as [I1 V1], (H2 x Hx) as [I2 V2]. split; [set_solver|congruence]. Qed.

Lemma touches_wider lo hi lo' hi' d d' : touches lo hi d d' → lo' ≤ lo → hi ≤ hi' → touches lo' hi' d d'.
Proof. clear z_pos. intros H H1 H2 x Hx. apply H. lia. Qed.

Lemma touches_flushed lo hi d : touches lo hi d (flushed d).
Proof.
  intros x _. rewrite images_flushed, view_flushed. split; [|done]. intros t ->%list_elem_of_singleton.
  apply view_in_images.
Qed.

(** Where the bytes [bs] at [off] and the range are apart. *)
Lemma each_apart (P Q : Z → Sector → Prop) lo hi off bs :
  0 ≤ off → whole off → whole (zlen bs) → off + zlen bs ≤ lo ∨ hi ≤ off →
  (∀ x s, x * sz + sz ≤ lo ∨ hi ≤ x * sz → P x s → Q x s) → each P off bs → each Q off bs.
Proof.
  intros Ho Wo Wb Hd HPQ HP k s Hk. apply HPQ; [|by apply HP].
  apply lookup_lt_Some in Hk. rewrite (length_chunks z bs _ z_pos (whole_length bs Wb)) in Hk.
  unfold whole in *. pose proof (Z.div_mod off sz ltac:(lia)). pose proof (Z.div_mod (zlen bs) sz ltac:(lia)). nia.
Qed.

Lemma holds_touches lo hi d d' off bs :
  touches lo hi d d' → holds d off bs → 0 ≤ off → whole off → whole (zlen bs) →
  off + zlen bs ≤ lo ∨ hi ≤ off → holds d' off bs.
Proof.
  intros T H Ho Wo Wb Hd. eapply each_apart; [done..| |exact H].
  intros x s Hx Hs t Ht. apply Hs. by apply (T x Hx).
Qed.

Lemma seen_touches lo hi d d' off bs :
  touches lo hi d d' → seen d off bs → 0 ≤ off → whole off → whole (zlen bs) →
  off + zlen bs ≤ lo ∨ hi ≤ off → seen d' off bs.
Proof.
  intros T H Ho Wo Wb Hd. eapply each_apart; [done..| |exact H].
  intros x s Hx <-. by apply (T x Hx).
Qed.

Lemma seen_flushed d off bs : seen d off bs → holds (flushed d) off bs.
Proof. apply each_mono. intros x s <- t. rewrite images_flushed. by intros ->%list_elem_of_singleton. Qed.

(** A crash keeps what it cannot change. *)
Lemma holds_crash d d' off bs : crash d d' → holds d off bs → holds d' off bs.
Proof.
  intros [Hp Hd]. apply each_mono. intros x s Hs t. unfold images. rewrite Hp. simpl.
  intros ->%list_elem_of_singleton. apply Hs, Hd.
Qed.

(** So does one that tears sectors. *)
Lemma crash_torn d d' : crash d d' → torn d d'.
Proof. intros [Hp Hd]. split; [done|]. intros x. split; [by exists (durable d' x)|]. intros n b Hb. by exists (durable d' x). Qed.

Lemma stable_torn d d' x s : torn d d' → stable d x s → stable d' x s.
Proof.
  clear z_pos. intros [Hp Hd] Hs t. unfold images. rewrite Hp. simpl. intros ->%list_elem_of_singleton.
  destruct (Hd x) as [(t & Ht & L) H]. apply Hs in Ht as ->. apply list_eq. intros n.
  destruct (durable d' x !! n) as [b|] eqn:E; [destruct (H n b E) as (t & ->%Hs & ->); done|].
  symmetry. apply lookup_ge_None. apply lookup_ge_None in E. lia.
Qed.

Lemma holds_torn d d' off bs : torn d d' → holds d off bs → holds d' off bs.
Proof. intros T. apply each_mono. intros x s. by apply stable_torn. Qed.

(** ** One write *)

(** [bs] written at [off], wholly or in part. *)
Definition wrote (off : Z) (bs : list byte) (d d' : Disk) : Prop :=
  touches off (off + zlen bs) d d' ∧ each (λ x s, ∀ t, t ∈ images d' x → t = s ∨ t ∈ images d x) off bs.

Lemma wrote_refl off bs d : wrote off bs d d.
Proof. split; [apply touches_refl|]. intros k s _ t Ht. by right. Qed.

Lemma written_chunk off bs x t :
  0 ≤ off → whole off → whole (zlen bs) → written (off / sz, chunks z bs) x = Some t →
  off ≤ x * sz ∧ x * sz + sz ≤ off + zlen bs ∧
  ∃ k : nat, x = off / sz + Z.of_nat k ∧ chunks z bs !! k = Some t.
Proof.
  intros Ho Wo Wb E. pose proof (written_range _ _ _ _ E) as R.
  assert (zlen (chunks z bs) = zlen bs / sz) as L.
  { unfold zlen at 1. rewrite (length_chunks z bs _ z_pos (whole_length bs Wb)). apply Z2Nat.id, Z.div_pos; [apply zlen_nonneg|lia]. }
  rewrite L in R. unfold whole in *. pose proof (Z.div_mod off sz ltac:(lia)). pose proof (Z.div_mod (zlen bs) sz ltac:(lia)).
  split; [nia|]. split; [nia|]. exists (Z.to_nat (x - off / sz)). split; [lia|].
  rewrite <- E, <- (written_at (off / sz)). f_equal. lia.
Qed.

Lemma wrote_push off bs d :
  0 ≤ off → whole off → whole (zlen bs) → wrote off bs d (push_write (off / sz) (chunks z bs) d).
Proof.
  intros Ho Wo Wb. split.
  - intros x Hx. rewrite images_push, view_push.
    destruct (written (off / sz, chunks z bs) x) as [t|] eqn:E; [|done]. exfalso.
    apply written_chunk in E as (H1 & H2 & _); [|done..]. lia.
  - intros k s Hk t. rewrite images_push, written_at, Hk. unfold images.
    intros [->|[->|Ht]%elem_of_cons]%elem_of_cons; [right; left|by left|right; by right].
Qed.

Lemma seen_push off bs d : seen (push_write (off / sz) (chunks z bs) d) off bs.
Proof. intros k s Hk. by rewrite view_push, written_at, Hk. Qed.

Lemma wrote_app off x y d1 d2 d3 :
  0 ≤ off → whole off → whole (zlen x) → whole (zlen y) →
  wrote off x d1 d2 → wrote (off + zlen x) y d2 d3 → wrote off (x ++ y) d1 d3.
Proof.
  intros Ho Wo Wx Wy [T1 E1] [T2 E2]. pose proof (zlen_nonneg x). pose proof (zlen_nonneg y).
  assert (whole (off + zlen x)) as Wox.
  { unfold whole in *. by rewrite Z.add_mod, Wo, Wx by lia. }
  rewrite <- Z.add_assoc in T2. split.
  - rewrite zlen_app. apply touches_trans with d2; eapply touches_wider; (exact T1 || exact T2 || lia).
  - apply each_app; [done..|]. split.
    + eapply (each_apart _ _ (off + zlen x) (off + zlen x + zlen y)); [done..|by left| |exact E1].
      intros w s Hw H1 t Ht. apply H1. rewrite <- Z.add_assoc in Hw. by apply (T2 w Hw).
    + eapply (each_apart (λ w s, ∀ t, t ∈ images d3 w → t = s ∨ t ∈ images d2 w) _ off (off + zlen x));
        [lia|done|done|by right| |exact E2].
      intros w s Hw H2 t Ht. destruct (H2 t Ht) as [?|H3]; [by left|]. right. by apply (T1 w Hw).
Qed.

(** A sector that is written as it was is not changed. *)
Lemma wrote_holds off bs d d' k s :
  wrote off bs d d' → chunks z bs !! k = Some s → stable d (off / sz + Z.of_nat k) s →
  stable d' (off / sz + Z.of_nat k) s.
Proof. intros [_ E] Hk Hs t Ht. destruct (E k s Hk t Ht) as [?|?%Hs]; done. Qed.

(** Bytes written over others, when sectors may tear: every byte is the one or the other. *)
Lemma wrote_torn off A B d d' d'' :
  wrote off B d d' → holds d off A → whole (zlen A) → zlen B = zlen A → torn d' d'' →
  ∃ b, holds d'' off b ∧ zlen b = zlen A ∧ ∀ n x, b !! n = Some x → A !! n = Some x ∨ B !! n = Some x.
Proof.
  intros [_ W] H WA L [Hp Hd]. assert (whole (zlen B)) as WB by (by rewrite L).
  pose proof (whole_length A WA) as LA. pose proof (whole_length B WB) as LB. rewrite L in LB. set (n := Z.to_nat (zlen A / sz)) in *.
  pose proof (length_chunks z A n z_pos LA) as NA. pose proof (length_chunks z B n z_pos LB) as NB.
  set (ss := (λ k : nat, durable d'' (off / sz + Z.of_nat k)) <$> seq 0 n).
  assert (∀ k s, ss !! k = Some s → length s = z ∧ ∀ p x, s !! p = Some x → A !! (k * z + p)%nat = Some x ∨ B !! (k * z + p)%nat = Some x) as Hss.
  { intros k s Hk. apply list_lookup_fmap_Some in Hk as (k' & -> & [-> Hk]%lookup_seq). rewrite Nat.add_0_l in *.
    destruct (lookup_lt_is_Some_2 (chunks z A) k ltac:(lia)) as [ca Ca]. destruct (lookup_lt_is_Some_2 (chunks z B) k ltac:(lia)) as [cb Cb].
    assert (length ca = z) as La by (apply (chunk_length z z_pos A k); [by rewrite LA, Nat.Div0.mod_mul|done]).
    assert (length cb = z) as Lb by (apply (chunk_length z z_pos B k); [by rewrite LB, Nat.Div0.mod_mul|done]).
    assert (∀ t, t ∈ images d' (off / sz + Z.of_nat k) → t = cb ∨ t = ca) as Ht.
    { intros t [->|Ht]%(W k cb Cb); [by left|]. right. by apply (H k ca Ca). }
    destruct (Hd (off / sz + Z.of_nat k)) as [(t & Hin & Lt) Hb]. apply Ht in Hin.
    assert (length t = z) as Lz by (by destruct Hin as [->| ->]). split; [lia|].
    intros p x Hx. pose proof (lookup_lt_Some _ _ _ Hx). destruct (Hb p x Hx) as (u & [->| ->]%Ht & Hu); [right|left];
      rewrite <- Hu; symmetry; eapply chunk_byte; eauto; lia. }
  assert (Forall (λ c, length c = z) ss) as Fs by (apply Forall_lookup; intros k s Hk; by apply (Hss k s Hk)).
  assert (length ss = n) as Ls by (unfold ss; by rewrite length_fmap, length_seq).
  pose proof (chunks_concat z ss z_pos Fs) as Cs. pose proof (concat_whole z ss Fs) as Lc. rewrite Ls in Lc. exists (concat ss). split_and!.
  - intros k s Hk. rewrite Cs in Hk. apply list_lookup_fmap_Some in Hk as (k' & -> & [-> Hk]%lookup_seq).
    intros t. unfold images. rewrite Hp. simpl. by intros ->%list_elem_of_singleton.
  - unfold zlen in *. by rewrite LA, Lc.
  - intros p x Hx. pose proof (Nat.div_mod_eq p z) as E. pose proof (Nat.mod_upper_bound p z ltac:(lia)) as Hm.
    pose proof (lookup_lt_Some _ _ _ Hx) as Hlt. rewrite Lc in Hlt.
    destruct (lookup_lt_is_Some_2 ss (p / z) ltac:(rewrite Ls; apply Nat.Div0.div_lt_upper_bound; lia)) as [s Hs].
    destruct (Hss _ _ Hs) as [_ Hb]. replace p with ((p / z) * z + p mod z)%nat by lia. apply Hb.
    rewrite (chunk_byte z (concat ss) (p / z)) by (done || by rewrite Cs). rewrite <- Hx. f_equal. lia.
Qed.

End bytes.

(** ** The operations of a device *)

(** Nothing is in the way of an operation. *)
Definition good (s : Dev) : Prop := answers s = [] ∧ client s = true ∧ has_pending s = false.

(** What an operation leaves alone, and that it ends well when nothing is in its way. *)
Definition ran {A} (s s' : Dev) (r : result Stop A) : Prop :=
  info s' = info s ∧ has_pending s' = has_pending s ∧ (good s → good s' ∧ ∃ a, r = Ok a).

Lemma obtain_spec e s :
  wp (obtain e) (λ r s', ran s s' r ∧ disk s' = disk s ∧ (r = Ok tt ∨ r = Err (Refused e) ∨ r = Err Crashed)) s.
Proof.
  destruct s as [d i ans c p]. unfold wp, obtain, ask, mbind, M_bind, ran, good. simpl.
  destruct ans as [|[] ans]; simpl; split_and!; try done; auto; try by intros (? & ? & ?).
  intros G. split; [exact G|]. by exists tt.
Qed.

Lemma original_spec {A} (begun : D unit) (done_ : D A) s :
  wp (original begun done_) (λ r s',
    (∃ c ans, r = Err (Refused Busy) ∧ has_pending s = true ∧ s' = mk_Dev (disk s) (info s) ans c (has_pending s)) ∨
    (has_pending s = false ∧ ¬ good s ∧ (∃ c ans, s' = mk_Dev (disk s) (info s) ans c (has_pending s)) ∧ r = Err (Refused Unavailable)) ∨
    (has_pending s = false ∧ client s = true ∧ ∃ ans, (good s → ans = []) ∧
      let s1 := mk_Dev (disk s) (info s) ans (client s) (has_pending s) in
      ((r, s') = done_ s1 ∨
       (¬ good s ∧ ∃ b s2, begun s1 = (b, s2) ∧
         match b with
         | Ok _ => (∃ c, s' = mk_Dev (disk s2) (info s2) (answers s2) c (has_pending s2)) ∧
                   (r = Err (Refused Unavailable) ∨ r = Err Crashed)
         | Err e => s' = s2 ∧ r = Err e
         end)))) s.
Proof.
  destruct s as [d i ans c p]. unfold wp, original, ask, mbind, M_bind, good. simpl.
  destruct p; simpl. { left. by exists c, ans. }
  right. destruct c; simpl. 2:{ left. split_and!; [done|by intros (? & ? & ?)|by exists false, ans|done]. }
  destruct ans as [|[] ans]; simpl.
  - right. split; [done|]. split; [done|]. exists []. split; [done|]. left. by destruct (done_ _).
  - right. split; [done|]. split; [done|]. exists ans. split; [by intros (? & ? & ?)|]. left. by destruct (done_ _).
  - left. split_and!; [done|by intros (? & ? & ?)|by exists false, ans|done].
  - right. split; [done|]. split; [done|]. exists ans. split; [by intros (? & ? & ?)|]. right. split; [by intros (? & ? & ?)|].
    destruct (begun _) as [[[]|e] s2]; simpl; [exists (Ok tt), s2|exists (Err e), s2]; (split; [done|]); [|done].
    split; [by exists false|by left].
  - right. split; [done|]. split; [done|]. exists ans. split; [by intros (? & ? & ?)|]. right. split; [by intros (? & ? & ?)|].
    destruct (begun _) as [[[]|e] s2]; simpl; [exists (Ok tt), s2|exists (Err e), s2]; (split; [done|]); [|done].
    split; [exists (client s2); by destruct s2|by right].
Qed.

(** [r] is one of these refusals, or the power failed. *)
Definition only {A} (es : list Refusal) (r : result Stop A) : Prop :=
  match r with Ok _ | Err Crashed => True | Err (Refused e) => e ∈ es | Err Panicked => False end.

Lemma dev_flush_spec s :
  wp dev_flush (λ r s', ran s s' r ∧ only [Unavailable; Busy] r ∧
    match r with
    | Ok _ => disk s' = flushed (disk s) ∧ has_pending s = false
    | Err e => disk s' = disk s ∧ (e = Refused Busy → has_pending s = true)
    end) s.
Proof.
  unfold dev_flush. eapply wp_mono; [apply original_spec|]. intros r s'.
  intros [(c & ans & -> & Hp & ->)|[(Hp & Hg & (c & ans & ->) & ->)|(Hp & Hc & ans & Ha & [E|(Hg & b & s2 & E & Hb)])]].
  - split; [|split; [set_solver|done]]. split_and!; [done..|]. intros (_ & _ & ?). congruence.
  - split; [|split; [set_solver|done]]. split_and!; done.
  - simpl in E. injection E as -> ->. split; [|done]. split_and!; [done..|]. intros G. split; [|by exists tt].
    split_and!; simpl; [by apply Ha|done|done].
  - injection E as <- <-. destruct Hb as [(c & ->) [->| ->]]; simpl; (split; [split_and!; done|]); split; set_solver.
Qed.

Section device.
Variable i : Info.
Hypothesis i_ok : info_ok i.

Definition z : nat := Z.to_nat (sector_size i).
Definition cap : Z := sectors i * sector_size i.
Definition max_bytes : Z := max_sectors i * sector_size i.

Lemma z_pos : (0 < z)%nat.
Proof. unfold z. destruct (io_sector i i_ok) as [_ ?]. lia. Qed.

Lemma z_size : Z.of_nat z = sector_size i.
Proof. unfold z. destruct (io_sector i i_ok) as [_ ?]. lia. Qed.

Lemma dev_bounds_ok off len :
  0 ≤ off → whole z off → whole z len → off + len ≤ cap → 0 < len ≤ max_bytes →
  dev_bounds i (off / Z.of_nat z) (len / Z.of_nat z) = true.
Proof.
  intros Ho Wo Wb Hc Hm. pose proof z_pos. pose proof z_size. destruct (io_sector i i_ok). pose proof (io_capacity i i_ok).
  pose proof (io_sectors i i_ok). pose proof (io_max i i_ok). unfold dev_bounds, cap, max_bytes, whole in *.
  pose proof (Z.div_mod off (Z.of_nat z) ltac:(lia)). pose proof (Z.div_mod len (Z.of_nat z) ltac:(lia)).
  rewrite (proj2 (checked_add_Some 64 _ _ (off / Z.of_nat z + len / Z.of_nat z))) by nia.
  rewrite !andb_true_iff. split_and!; [apply Z.ltb_lt|apply Z.leb_le|apply Z.leb_le]; nia.
Qed.

Lemma dev_write_spec off bs s :
  info s = i → 0 ≤ off → whole z off → whole z (zlen bs) → off + zlen bs ≤ cap → 0 < zlen bs ≤ max_bytes →
  wp (dev_write (off / Z.of_nat z) (chunks z bs)) (λ r s', ran s s' r ∧ only [Unavailable; Busy] r ∧
    wrote z off bs (disk s) (disk s') ∧
    match r with Ok _ => seen z (disk s') off bs ∧ has_pending s = false | Err (Refused Busy) => disk s' = disk s ∧ has_pending s = true | _ => True end) s.
Proof.
  intros Hi Ho Wo Wb Hc Hm. unfold dev_write. apply wp_bind. unfold wp at 1, gets. simpl. rewrite Hi.
  assert (dev_bounds i (off / Z.of_nat z) (zlen (chunks z bs)) = true) as ->.
  { unfold zlen. rewrite (length_chunks z bs _ z_pos (whole_length z z_pos bs Wb)).
    rewrite Z2Nat.id by (apply Z.div_pos; [apply zlen_nonneg|pose proof z_pos; lia]). by apply dev_bounds_ok. }
  simpl negb. cbv iota. eapply wp_mono; [apply original_spec|]. intros r s'.
  intros [(c & ans & -> & Hp & ->)|[(Hp & Hg & (c & ans & ->) & ->)|(Hp & Hcl & ans & Ha & [E|(Hg & b & s2 & E & Hb)])]].
  - split; [|split; [set_solver|split; [apply wrote_refl|done]]]. split_and!; [done..|]. intros (_ & _ & ?). congruence.
  - split; [|split; [set_solver|split; [apply wrote_refl|done]]]. split_and!; done.
  - cbn in E. injection E as -> ->. simpl. split; [split_and!; [done..|]|split; [done|split; [by apply wrote_push; [apply z_pos|..]|split; [apply seen_push|done]]]].
    intros G. split; [|by exists tt]. split_and!; simpl; [by apply Ha|done|done].
  - cbn in E. injection E as <- <-. destruct Hb as [(c & ->) [->| ->]]; simpl; (split; [split_and!; done|]);
      (split; [set_solver|split; [by apply wrote_push; [apply z_pos|..]|done]]).
Qed.

Lemma ran_refl {A} s (a : A) : ran s s (Ok a).
Proof. split_and!; [done..|]. intros G. split; [done|]. by exists a. Qed.

Lemma ran_bind {A B} s s1 s2 (r1 : result Stop A) (r2 : result Stop B) :
  ran s s1 r1 → ran s1 s2 r2 → ran s s2 r2.
Proof.
  intros (I1 & P1 & G1) (I2 & P2 & G2). split_and!; [congruence..|]. intros G. by apply G2, G1.
Qed.

Lemma ran_stop {A B} s s1 (r1 : result Stop A) e : r1 = Err e → ran s s1 r1 → ran s s1 (Err e : result Stop B).
Proof. intros -> (I1 & P1 & G1). split_and!; [done..|]. intros [_ [a Ha]]%G1. done. Qed.

Lemma whole_add x y : whole z x → whole z y → whole z (x + y).
Proof. unfold whole. intros Hx Hy. by rewrite Z.add_mod, Hx, Hy by (pose proof z_pos; lia). Qed.

Lemma whole_mul x y : whole z x → whole z (x * y).
Proof. unfold whole. intros Hx. by rewrite Z.mul_mod, Hx by (pose proof z_pos; lia). Qed.

Lemma whole_max : whole z max_bytes.
Proof. unfold whole, max_bytes. rewrite z_size. apply Z.mod_mul. pose proof z_pos. pose proof z_size. lia. Qed.

Lemma max_bytes_pos : 0 < max_bytes.
Proof. unfold max_bytes. destruct (io_max i i_ok), (io_sector i i_ok). nia. Qed.

Lemma multiple_whole x : is_multiple_of x (sector_size i) = true ↔ whole z x.
Proof. unfold whole. rewrite z_size. apply is_multiple_spec. pose proof z_pos. pose proof z_size. lia. Qed.

(** The address of piece [index]. *)
Lemma piece_address off index :
  0 ≤ off → 0 ≤ index → off + index * max_bytes ≤ cap →
  off / sector_size i +! index * max_bytes / sector_size i = (off + index * max_bytes) / Z.of_nat z.
Proof.
  intros Ho Hx Hc. pose proof z_pos. rewrite <- z_size. pose proof whole_max as W. unfold whole in W.
  assert (max_bytes = max_sectors i * Z.of_nat z) as E by (unfold max_bytes; by rewrite z_size).
  rewrite E. rewrite Z.mul_assoc, Z.div_add, Z.div_mul by lia. unfold wadd. apply wrap_small.
  pose proof (io_capacity i i_ok). destruct (io_max i i_ok). unfold cap in Hc. rewrite <- z_size in *.
  assert (0 ≤ off / Z.of_nat z ≤ off) by (split; [apply Z.div_pos; lia|apply Z.div_le_upper_bound; nia]).
  unfold in_width. nia.
Qed.

Lemma write_chunks_spec off bs index s :
  info s = i → 0 ≤ off → 0 ≤ index → whole z off → whole z (zlen bs) → off + index * max_bytes + zlen bs ≤ cap →
  wp (write_chunks off max_bytes (sector_size i) index (chunks (Z.to_nat max_bytes) bs)) (λ r s',
    ran s s' r ∧ only [NoCapacity; Unavailable; Busy] r ∧
    wrote z (off + index * max_bytes) bs (disk s) (disk s') ∧
    match r with
    | Ok _ => seen z (disk s') (off + index * max_bytes) bs
    | Err (Refused Busy) => disk s' = disk s ∧ has_pending s = true
    | Err (Refused NoCapacity) => zlen bs ≤ max_bytes → disk s' = disk s
    | _ => True
    end) s.
Proof.
  pose proof max_bytes_pos as Hmax. pose proof z_pos as Hz.
  intros Hi Ho Hx Wo Wb Hc. revert index s Hi Hx Wb Hc.
  induction bs as [|bs Hne IH] using (chunks_ind (Z.to_nat max_bytes) ltac:(lia)); intros index s Hi Hx Wb Hc.
  { rewrite chunks_nil. cbn [write_chunks]. unfold wp, mret, M_ret. simpl. split; [apply ran_refl|]. split; [done|].
    split; [apply wrote_refl|apply each_nil]. }
  rewrite chunks_step by (done || lia). cbn [write_chunks].
  set (x := take (Z.to_nat max_bytes) bs) in *. set (y := drop (Z.to_nat max_bytes) bs) in *.
  assert (bs = x ++ y) as E by (symmetry; apply take_drop).
  assert (zlen x = Z.min max_bytes (zlen bs)) as Lx.
  { unfold x, zlen. rewrite length_take. lia. }
  assert (whole z (zlen x)) as Wx.
  { rewrite Lx. destruct (Z.min_spec max_bytes (zlen bs)) as [[_ ->]|[_ ->]]; [apply whole_max|done]. }
  assert (0 < zlen bs) as Hpos by (destruct bs; [done|rewrite zlen_cons; pose proof (zlen_nonneg bs); lia]).
  assert (zlen y = zlen bs - zlen x) as Ly by (rewrite E, zlen_app; lia).
  assert (whole z (zlen y)) as Wy.
  { rewrite Ly. unfold whole in *. by rewrite Zminus_mod, Wb, Wx by lia. }
  assert (whole z (off + index * max_bytes)) as Wa.
  { apply whole_add; [done|]. rewrite Z.mul_comm. apply whole_mul, whole_max. }
  apply wp_bind. eapply wp_mono; [apply obtain_spec|]. intros r1 s1 (R1 & D1 & [->|[->| ->]]).
  2,3: split; [by eapply ran_stop|]; rewrite D1; split; [set_solver|]; split; [apply wrote_refl|done].
  apply wp_bind. eapply wp_mono; [apply obtain_spec|]. intros r2 s2 (R2 & D2 & [->|[->| ->]]).
  2,3: split; [by eapply ran_bind; [exact R1|eapply ran_stop]|]; rewrite D2, D1; split; [set_solver|]; split; [apply wrote_refl|done].
  pose proof (ran_bind _ _ _ _ _ R1 R2) as R. assert (info s2 = i) as Hi2 by (destruct R as [? _]; congruence).
  apply wp_bind. rewrite piece_address by (done || lia).
  replace (Z.to_nat (sector_size i)) with z by done.
  eapply wp_mono; [apply (dev_write_spec (off + index * max_bytes) x s2); [done|nia|done|done|lia|lia]|].
  intros r3 s3 (R3 & O3 & W3 & P3). rewrite D2, D1 in *. pose proof (ran_bind _ _ _ _ _ R R3) as R'.
  assert (info s3 = i) as Hi3 by (destruct R3 as [? _]; congruence).
  assert (wrote z (off + index * max_bytes) bs (disk s) (disk s3)) as W.
  { rewrite E. eapply wrote_app; [done|nia|done|done|done|exact W3|apply wrote_refl]. }
  destruct r3 as [[]|e].
  2:{ split; [by eapply ran_stop|]. split; [|split; [done|]].
      + destruct e as [[]| |]; simpl in *; try done; set_solver.
      + destruct e as [[]| |]; try done; [by simpl in O3; set_solver|].
        destruct P3 as [-> Hp]. split; [done|]. destruct R as (_ & <- & _). done. }
  destruct P3 as [Sx Hp]. assert (has_pending s3 = false) as Hp3 by (destruct R3 as (_ & -> & _); done).
  destruct (decide (y = [])) as [Ey|Ey].
  { rewrite Ey, chunks_nil. unfold wp, mret, M_ret. simpl. split; [done|]. split; [done|]. split; [done|].
    by rewrite E, Ey, app_nil_r. }
  assert (0 < zlen y) by (destruct y; [done|rewrite zlen_cons; pose proof (zlen_nonneg y); lia]).
  assert (zlen x = max_bytes) as Lx' by lia.
  eapply wp_mono; [apply (IH (index + 1) s3); [done|lia|done|lia]|].
  intros r4 s4 (R4 & O4 & W4 & P4).
  replace (off + (index + 1) * max_bytes) with (off + index * max_bytes + zlen x) in * by lia.
  split; [by eapply ran_bind|]. split; [done|]. split.
  { rewrite E. eapply wrote_app; [done|nia|done|done|done|exact W3|exact W4]. }
  destruct r4 as [[]|[[]| |]]; try done.
  - rewrite E. apply each_app; [done|nia|done|done|]. split; [|done].
    eapply seen_touches; [done|exact (proj1 W4)|done|nia|done|done|lia].
  - intros. lia.
  - destruct P4. congruence.
Qed.

Lemma write_aligned_spec off bs s :
  info s = i → 0 ≤ off → whole z off → whole z (zlen bs) → off + zlen bs ≤ cap →
  wp (write_aligned off bs) (λ r s',
    ran s s' r ∧ only [NoCapacity; Unavailable; Busy] r ∧ wrote z off bs (disk s) (disk s') ∧
    match r with
    | Ok _ => seen z (disk s') off bs
    | Err (Refused Busy) => disk s' = disk s ∧ has_pending s = true
    | Err (Refused NoCapacity) => zlen bs ≤ max_bytes → disk s' = disk s
    | _ => True
    end) s.
Proof.
  intros Hi Ho Wo Wb Hc. unfold write_aligned. apply wp_bind. unfold wp at 1, gets. simpl. rewrite Hi.
  rewrite (proj2 (multiple_whole off) Wo), (proj2 (multiple_whole (zlen bs)) Wb). simpl.
  pose proof (write_chunks_spec off bs 0 s Hi Ho ltac:(lia) Wo Wb ltac:(lia)) as H.
  by rewrite Z.mul_0_l, Z.add_0_r in H.
Qed.

(** What the device has at [off]. *)
Definition dbytes (d : Disk) (off len : Z) : list byte :=
  concat ((λ k, resize z x00 (view d (off / Z.of_nat z + Z.of_nat k))) <$> seq 0 (Z.to_nat (len / Z.of_nat z))).

Lemma seen_dbytes d off bs : whole z (zlen bs) → seen z d off bs → dbytes d off (zlen bs) = bs.
Proof.
  intros Wb H. unfold dbytes. rewrite <- (concat_chunks z z_pos bs) at 2. f_equal.
  pose proof (length_chunks z bs _ z_pos (whole_length z z_pos bs Wb)) as L. rewrite <- L.
  apply list_eq. intros k. rewrite list_lookup_fmap. destruct (chunks z bs !! k) as [s|] eqn:E.
  - rewrite lookup_seq_lt by (by eapply lookup_lt_Some). simpl. f_equal. rewrite (H k s E).
    apply resize_all_alt. symmetry. apply (chunk_length z z_pos bs k); [|done]. unfold whole, zlen in Wb. rewrite <- Nat2Z.inj_mod in Wb. lia.
  - rewrite lookup_seq_ge; [done|]. by apply lookup_ge_None.
Qed.

Lemma zlen_dbytes d off len : 0 ≤ len → whole z len → zlen (dbytes d off len) = len.
Proof.
  intros Hl Wl. unfold dbytes. pose proof z_pos. set (n := Z.to_nat (len / Z.of_nat z)).
  assert (zlen (concat ((λ k, resize z x00 (view d (off / Z.of_nat z + Z.of_nat k))) <$> seq 0 n)) = Z.of_nat n * Z.of_nat z) as ->.
  { generalize 0%nat. induction n as [|n IH]; intros k; [done|]. simpl. rewrite zlen_app, IH. unfold zlen. rewrite length_resize. lia. }
  unfold n, whole in *. pose proof (Z.div_mod len (Z.of_nat z) ltac:(lia)). pose proof (Z.div_pos len (Z.of_nat z) ltac:(lia) ltac:(lia)). lia.
Qed.

Lemma dev_read_spec off len s :
  info s = i → 0 ≤ off → whole z off → whole z len → 0 < len ≤ max_bytes → off + len ≤ cap →
  wp (dev_read (off / Z.of_nat z) (Z.to_nat (len / Z.of_nat z))) (λ r s', ran s s' r ∧ disk s' = disk s ∧
    only [Unavailable; Busy] r ∧ match r with Ok ss => concat ss = dbytes (disk s) off len | _ => True end) s.
Proof.
  intros Hi Ho Wo Wb Hpos Hc. unfold dev_read. apply wp_bind. unfold wp at 1, gets. simpl. rewrite Hi.
  assert (dev_bounds i (off / Z.of_nat z) (Z.of_nat (Z.to_nat (len / Z.of_nat z))) = true) as ->.
  { rewrite Z2Nat.id by (apply Z.div_pos; pose proof z_pos; lia). by apply dev_bounds_ok. }
  simpl negb. cbv iota. eapply wp_mono; [apply original_spec|]. intros r s'.
  intros [(c & ans & -> & Hp & ->)|[(Hp & Hg & (c & ans & ->) & ->)|(Hp & Hcl & ans & Ha & [E|(Hg & b & s2 & E & Hb)])]].
  - split; [|split; [done|split; [set_solver|done]]]. split_and!; [done..|]. intros (_ & _ & ?). congruence.
  - split; [|split; [done|split; [set_solver|done]]]. split_and!; done.
  - injection E as -> ->. simpl. split; [split_and!; [done..|]|done].
    intros G. split; [|by eexists]. split_and!; simpl; [by apply Ha|done|done].
  - injection E as <- <-. destruct Hb as [(c & ->) [->| ->]]; simpl; (split; [split_and!; done|]);
      (split; [done|split; [set_solver|done]]).
Qed.

Lemma read_block_spec off len s :
  info s = i → 0 ≤ off → whole z off → whole z len → 0 < len ≤ max_bytes → off + len ≤ cap →
  wp (read_block off len) (λ r s', ran s s' r ∧ disk s' = disk s ∧ only [NoCapacity; Unavailable; Busy] r ∧
    match r with Ok bs => bs = dbytes (disk s) off len | _ => True end) s.
Proof.
  intros Hi Ho Wo Wb Hpos Hc. unfold read_block. apply wp_bind. unfold wp at 1, gets. simpl. rewrite Hi.
  rewrite (proj2 (multiple_whole off) Wo), (proj2 (multiple_whole len) Wb). simpl.
  apply wp_bind. eapply wp_mono; [apply obtain_spec|]. intros r1 s1 (R1 & D1 & [->|[->| ->]]).
  2,3: split; [by eapply ran_stop|]; split; [done|]; simpl; split; set_solver.
  destruct (Z.leb_spec (2 ^ 32) (len / sector_size i)) as [Hbig|_].
  { exfalso. destruct (io_sector i i_ok), (io_max i i_ok). unfold max_bytes in *.
    pose proof (Z.div_le_upper_bound len (sector_size i) (max_sectors i) ltac:(lia) ltac:(lia)). lia. }
  apply wp_bind. rewrite <- z_size. eapply wp_mono; [apply dev_read_spec; [destruct R1; congruence|done..]|].
  intros r2 s2 (R2 & D2 & O2 & P2). rewrite D1 in *. pose proof (ran_bind _ _ _ _ _ R1 R2) as R.
  destruct r2 as [ss|e].
  2:{ split; [by eapply ran_stop|]. split; [done|]. split; [|done]. destruct e as [[]| |]; simpl in *; try done; set_solver. }
  apply wp_bind. eapply wp_mono; [apply obtain_spec|]. intros r3 s3 (R3 & D3 & [->|[->| ->]]).
  2,3: split; [by eapply ran_bind; [exact R|eapply ran_stop]|]; split; [congruence|]; simpl; split; set_solver.
  unfold wp, mret, M_ret. simpl. split; [by eapply ran_bind; [exact R|eapply ran_bind; [exact R3|apply ran_refl]]|].
  split; [congruence|]. done.
Qed.

(** The device's bytes, in two parts. *)
Lemma dbytes_app d off x y :
  0 ≤ off → whole z off → 0 ≤ x → whole z x → 0 ≤ y → whole z y →
  dbytes d off (x + y) = dbytes d off x ++ dbytes d (off + x) y.
Proof.
  intros Ho Wo Hx Wx Hy Wy. pose proof z_pos. unfold dbytes, whole in *.
  assert ((x + y) / Z.of_nat z = x / Z.of_nat z + y / Z.of_nat z) as ->.
  { pose proof (Z.div_mod x (Z.of_nat z) ltac:(lia)). pose proof (Z.div_mod y (Z.of_nat z) ltac:(lia)).
    symmetry. apply Z.div_unique with 0; lia. }
  assert ((off + x) / Z.of_nat z = off / Z.of_nat z + x / Z.of_nat z) as ->.
  { pose proof (Z.div_mod off (Z.of_nat z) ltac:(lia)). pose proof (Z.div_mod x (Z.of_nat z) ltac:(lia)).
    symmetry. apply Z.div_unique with 0; lia. }
  assert (0 ≤ x / Z.of_nat z) by (apply Z.div_pos; lia). assert (0 ≤ y / Z.of_nat z) by (apply Z.div_pos; lia).
  rewrite Z2Nat.inj_add, seq_app, fmap_app, concat_app by lia. f_equal. f_equal. rewrite Nat.add_0_l.
  rewrite <- (Nat.add_0_r (Z.to_nat (x / _))) at 1. rewrite <- fmap_add_seq, <- list_fmap_compose.
  apply list_fmap_ext. intros k v _. simpl. do 2 f_equal. lia.
Qed.

Lemma read_chunks_spec off (l : list byte) index s :
  info s = i → 0 ≤ off → 0 ≤ index → whole z off → whole z (zlen l) → off + index * max_bytes + zlen l ≤ cap →
  wp (read_chunks off max_bytes index (zlen <$> chunks (Z.to_nat max_bytes) l)) (λ r s',
    ran s s' r ∧ disk s' = disk s ∧ only [NoCapacity; Unavailable; Busy] r ∧
    match r with Ok bs => bs = dbytes (disk s) (off + index * max_bytes) (zlen l) | _ => True end) s.
Proof.
  pose proof max_bytes_pos as Hmax. pose proof z_pos as Hz.
  intros Hi Ho Hx Wo Wb Hc. revert index s Hi Hx Wb Hc.
  induction l as [|l Hne IH] using (chunks_ind (Z.to_nat max_bytes) ltac:(lia)); intros index s Hi Hx Wb Hc.
  { rewrite chunks_nil. unfold wp, mret, M_ret. simpl. split; [apply ran_refl|]. done. }
  rewrite chunks_step by (done || lia). cbn [read_chunks fmap list_fmap].
  set (x := take (Z.to_nat max_bytes) l) in *. set (y := drop (Z.to_nat max_bytes) l) in *.
  assert (l = x ++ y) as E by (symmetry; apply take_drop).
  assert (zlen x = Z.min max_bytes (zlen l)) as Lx by (unfold x, zlen; rewrite length_take; lia).
  assert (whole z (zlen x)) as Wx.
  { rewrite Lx. destruct (Z.min_spec max_bytes (zlen l)) as [[_ ->]|[_ ->]]; [apply whole_max|done]. }
  assert (0 < zlen l) as Hpos by (destruct l; [done|rewrite zlen_cons; pose proof (zlen_nonneg l); lia]).
  assert (zlen y = zlen l - zlen x) as Ly by (rewrite E, zlen_app; lia).
  assert (whole z (zlen y)) as Wy.
  { rewrite Ly. unfold whole in *. by rewrite Zminus_mod, Wb, Wx by lia. }
  assert (whole z (off + index * max_bytes)) as Wa.
  { apply whole_add; [done|]. rewrite Z.mul_comm. apply whole_mul, whole_max. }
  assert (off +! index *! max_bytes = off + index * max_bytes) as ->.
  { pose proof (io_capacity i i_ok : cap < 2 ^ 64). assert (0 ≤ index * max_bytes) by nia.
    pose proof (zlen_nonneg l). unfold wadd, wmul. rewrite !wrap_small; unfold in_width; rewrite ?wrap_small; unfold in_width; lia. }
  apply wp_bind. eapply wp_mono; [apply (read_block_spec (off + index * max_bytes) (zlen x)); [done|nia|done|done|lia|lia]|].
  intros r1 s1 (R1 & D1 & O1 & P1). assert (info s1 = i) as Hi1 by (destruct R1; congruence).
  destruct r1 as [bs1|e]; [|split; [by eapply ran_stop|done]].
  assert (zlen l = zlen x + zlen y) as -> by lia.
  rewrite dbytes_app by (done || nia || apply zlen_nonneg).
  destruct (decide (y = [])) as [Ey|Ey].
  { rewrite Ey, chunks_nil. cbn. unfold wp, mbind, M_bind, mret, M_ret. simpl.
    split; [by eapply ran_bind; [exact R1|apply ran_refl]|]. split; [done|]. split; [done|].
    by rewrite P1. }
  assert (0 < zlen y) by (destruct y; [done|rewrite zlen_cons; pose proof (zlen_nonneg y); lia]).
  assert (zlen x = max_bytes) as Lx' by lia.
  apply wp_bind. eapply wp_mono; [apply (IH (index + 1) s1); [done|lia|done|lia]|].
  intros r2 s2 (R2 & D2 & O2 & P2). rewrite D1 in *.
  replace (off + (index + 1) * max_bytes) with (off + index * max_bytes + zlen x) in * by lia.
  pose proof (ran_bind _ _ _ _ _ R1 R2) as R.
  destruct r2 as [bs2|e]; [|split; [by eapply ran_stop|done]].
  unfold wp, mret, M_ret. simpl. split; [by eapply ran_bind; [exact R|apply ran_refl]|]. split; [done|]. split; [done|].
  by rewrite P1, P2.
Qed.

Lemma read_aligned_spec off len s :
  info s = i → 0 ≤ off → whole z off → 0 ≤ len → whole z len → off + len ≤ cap →
  wp (read_aligned off len) (λ r s',
    ran s s' r ∧ disk s' = disk s ∧ only [NoCapacity; Unavailable; Busy] r ∧
    match r with Ok bs => bs = dbytes (disk s) off len | _ => True end) s.
Proof.
  intros Hi Ho Wo Hl Wl Hc. unfold read_aligned. apply wp_bind. unfold wp at 1, gets. simpl. rewrite Hi.
  assert (zlen (repeat x00 (Z.to_nat len)) = len) as L by (unfold zlen; rewrite repeat_length; lia).
  pose proof (read_chunks_spec off (repeat x00 (Z.to_nat len)) 0 s Hi Ho ltac:(lia) Wo) as H.
  rewrite L, Z.mul_0_l, Z.add_0_r in H. apply H; [done|lia].
Qed.

End device.
