(* ===== verification/StoreLog.v ===== *)
(** * The journal's laws

    What a planned extent is, the journal's invariant, and the pair of cells that advances
    it. *)

From S2P Require Import Prelude StoreFormat StoreCodec StoreTree StoreProof StoreJournal.

Lemma Ok_inj {E A} (x y : A) : (Ok x : result E A) = Ok y → x = y.
Proof. by intros [= ->]. Qed.

Lemma checked_add_small x y : x + y < 2 ^ 64 → checked_add 64 x y = Some (x + y).
Proof. intros. by apply checked_add_Some. Qed.
Lemma checked_mul_small x y : x * y < 2 ^ 64 → checked_mul 64 x y = Some (x * y).
Proof. intros. by apply checked_mul_Some. Qed.

(** ** Keys in order *)

Lemma bytes_cmp_eq x y : bytes_cmp x y = Eq ↔ x = y.
Proof.
  revert y. induction x as [|a x IH]; intros [|b y]; simpl; try done.
  destruct (Z.compare_spec (byte_Z a) (byte_Z b)) as [E|E|E].
  - apply byte_Z_inj in E as ->. rewrite IH. naive_solver.
  - split; [done|]. intros [= -> ->]. lia.
  - split; [done|]. intros [= -> ->]. lia.
Qed.

Lemma smap_get_insert {A} k (a : A) m k' :
  smap_get (smap_insert k a m) k' = if bool_decide (k' = k) then Some a else smap_get m k'.
Proof.
  induction m as [|[k1 a1] m IH]; simpl; [done|].
  destruct (bytes_cmp k k1) eqn:E; simpl; [|done|].
  - apply bytes_cmp_eq in E as ->. by case_bool_decide.
  - rewrite IH. case_bool_decide as H1; case_bool_decide as H2; try done. subst k' k1.
    by rewrite (proj2 (bytes_cmp_eq k k) eq_refl) in E.
Qed.

Lemma smap_insert_elem {A} k (a : A) m x : x ∈ smap_insert k a m → x = (k, a) ∨ x ∈ m.
Proof.
  induction m as [|[k1 a1] m IH]; simpl; [set_solver|]. destruct (bytes_cmp k k1); set_solver.
Qed.

Lemma smap_get_elem {A} (m : list (list byte * A)) k a : smap_get m k = Some a → (k, a) ∈ m.
Proof.
  induction m as [|[k1 a1] m IH]; simpl; [done|]. case_bool_decide as E; [|set_solver]. intros [= <-]. subst. left.
Qed.

(** ** The levels of a tree, one after the other *)

Fixpoint tree_end (align at_ : Z) (tree : list TreeLevel) : Z :=
  match tree with
  | [] => at_
  | l :: tree => tree_end align (at_ + lv_nodes l * align) tree
  end.

Section levels.
Variables (fanout : nat) (align cap : Z).
Hypothesis fanout_some : (16 ≤ fanout)%nat.
Hypothesis align_fanout : align = 32 * Z.of_nat fanout.

Lemma check_levels_cons end_ count l tree n :
  0 ≤ end_ → 0 ≤ count → end_ mod align = 0 →
  check_levels align cap end_ count (l :: tree) = Ok n ↔
  lv_nodes l = div_ceil count (Z.of_nat fanout) ∧ lv_offset l = end_ ∧
  end_ + lv_nodes l * align < 2 ^ 64 ∧ end_ + lv_nodes l * align ≤ cap ∧
  (lv_nodes l = 1 → tree = []) ∧
  check_levels align cap (end_ + lv_nodes l * align) (lv_nodes l) tree = Ok n.
Proof.
  intros He Hc Hm. cbn [check_levels]. rewrite (align_div fanout align align_fanout).
  destruct (Z.eqb_spec (lv_nodes l) (div_ceil count (Z.of_nat fanout))) as [En|]; [|simpl; naive_solver]. rewrite <- En.
  destruct (Z.eqb_spec (lv_offset l) end_) as [Eo|]; [|simpl; naive_solver]. rewrite Eo.
  rewrite (proj2 (is_multiple_spec end_ align ltac:(lia)) Hm). simpl.
  assert (0 ≤ lv_nodes l) by (rewrite En; apply div_ceil_nonneg; lia).
  destruct (after_nodes end_ (lv_nodes l) align) as [e|] eqn:Ea.
  - apply (after_nodes_Some align) in Ea as [-> Hlt]. simpl.
    destruct (Z.ltb_spec cap (end_ + lv_nodes l * align)); simpl; [split; [done|intros (_ & _ & _ & ? & _); lia]|].
    destruct (Z.eqb_spec (lv_nodes l) 1) as [E1|E1]; simpl.
    + destruct tree; simpl; [split; intros; [split_and!; try done; lia|tauto]|]. split; [done|].
      intros (_ & _ & _ & _ & H1 & _). by discriminate (H1 E1).
    + split; intros; [split_and!; try done; lia|tauto].
  - simpl. split; [done|]. intros (_ & _ & Hlt & _). unfold after_nodes in Ea.
    rewrite checked_mul_small in Ea by lia. simpl in Ea.
    apply checked_add_None in Ea. lia.
Qed.

Lemma nodes_pos count : 0 < count → 0 < div_ceil count (Z.of_nat fanout).
Proof. intros Hc. pose proof (div_ceil_spec count (Z.of_nat fanout) ltac:(lia)). nia. Qed.

(** A plan of levels is what the check of a commit accepts. *)
Lemma plan_levels_check fuel end_ count tree e :
  0 ≤ end_ → 0 < count → end_ mod align = 0 → plan_levels fuel align end_ count = Some (tree, e) → e ≤ cap →
  tree ≠ [] ∧ e = tree_end align end_ tree ∧ end_ ≤ e ∧ check_levels align cap end_ count tree = Ok 1.
Proof.
  revert end_ count tree e. induction fuel as [|fuel IH]; intros end_ count tree e He Hc Hm E Hcap; [done|].
  cbn [plan_levels] in E. destruct (Z.ltb_spec 0 count); [|lia]. rewrite (align_div fanout align align_fanout) in E.
  pose proof (nodes_pos count Hc) as Hn. set (n := div_ceil count (Z.of_nat fanout)) in *.
  destruct (after_nodes end_ n align) as [next|] eqn:Ea; [|done]. apply (after_nodes_Some align) in Ea as [-> Hlt].
  simpl in E. destruct (Z.eqb_spec n 1) as [E1|E1].
  - injection E as <- <-. cbn [tree_end lv_nodes]. split; [done|]. split; [done|]. split; [nia|].
    apply check_levels_cons; [done|lia|done|]. simpl. split_and!; try done. by rewrite E1.
  - destruct (plan_levels fuel align (end_ + n * align) n) as [[tree' e']|] eqn:Ep; [|done]. injection E as <- <-.
    destruct (IH (end_ + n * align) n tree' e') as (Hne & He' & Hle & Hck); [nia|done| |done|done|].
    { by rewrite Z.mod_add by lia. }
    cbn [tree_end lv_nodes]. split; [done|]. split; [done|]. split; [nia|]. apply check_levels_cons; [done|lia|done|]. simpl.
    split_and!; try done; nia.
Qed.

Lemma plan_levels_S fuel at_ children :
  plan_levels (S fuel) align at_ children =
  if 0 <? children then
    let nodes := div_ceil children (align / 32) in
    next ← after_nodes at_ nodes align;
    if nodes =? 1 then Some ([mk_TreeLevel at_ nodes], next)
    else '(tree, e) ← plan_levels fuel align next nodes; Some (mk_TreeLevel at_ nodes :: tree, e)
  else Some ([], at_).
Proof. done. Qed.

(** More rounds than the plan has levels change nothing. *)
Lemma plan_levels_enough n fuel end_ count :
  0 ≤ count ≤ Z.of_nat fanout ^ Z.of_nat n → (n < fuel)%nat →
  plan_levels fuel align end_ count = plan_levels (S n) align end_ count.
Proof.
  revert fuel end_ count. induction n as [|n IH]; intros fuel end_ count Hc Hf; (destruct fuel as [|fuel]; [lia|]);
    rewrite !plan_levels_S, (align_div fanout align align_fanout); (destruct (Z.ltb_spec 0 count); [|done]);
    cbv zeta; (destruct (after_nodes end_ _ align) as [next|] eqn:Ea; [|done]); cbn [mbind option_bind];
    (destruct (Z.eqb_spec (div_ceil count (Z.of_nat fanout)) 1) as [E1|E1]; [done|]).
  - exfalso. change (Z.of_nat 0) with 0 in Hc. rewrite Z.pow_0_r in Hc. apply E1, div_ceil_unique; lia.
  - rewrite (IH fuel); [done| |lia]. pose proof (div_ceil_spec count (Z.of_nat fanout) ltac:(lia)).
    rewrite Nat2Z.inj_succ, Z.pow_succ_r in Hc by lia. nia.
Qed.

Lemma tree_end_ge end_ count tree n :
  0 ≤ end_ → 0 ≤ count → end_ mod align = 0 → check_levels align cap end_ count tree = Ok n → end_ ≤ cap →
  end_ ≤ tree_end align end_ tree ≤ cap ∧ tree_end align end_ tree mod align = 0.
Proof.
  revert end_ count. induction tree as [|l tree IH]; intros end_ count He Hc Hm E Hcap; [simpl; lia|].
  apply check_levels_cons in E as (En & Eo & Hlt & Hle & _ & E); [|done..]. simpl.
  assert (0 ≤ lv_nodes l) by (rewrite En; apply div_ceil_nonneg; lia).
  destruct (IH (end_ + lv_nodes l * align) (lv_nodes l)) as [H1 H2]; [nia|done| |done|done|].
  { by rewrite Z.mod_add by lia. }
  split; [nia|done].
Qed.

Lemma tree_level_bounds end_ count tree n k l :
  0 ≤ end_ → 0 ≤ count → end_ mod align = 0 → check_levels align cap end_ count tree = Ok n → end_ ≤ cap →
  tree !! k = Some l →
  end_ ≤ lv_offset l ∧ lv_offset l mod align = 0 ∧ 0 ≤ lv_nodes l ∧
  lv_offset l + lv_nodes l * align ≤ tree_end align end_ tree.
Proof.
  revert end_ count k. induction tree as [|l1 tree IH]; intros end_ count k He Hc Hm E Hcap Hk; [done|].
  apply check_levels_cons in E as (En & Eo & Hlt & Hle & _ & E); [|done..]. simpl.
  assert (0 ≤ lv_nodes l1) by (rewrite En; apply div_ceil_nonneg; lia).
  assert ((end_ + lv_nodes l1 * align) mod align = 0) as Hm' by (by rewrite Z.mod_add by lia).
  destruct k as [|k]; simpl in Hk.
  - injection Hk as <-. rewrite Eo.
    destruct (tree_end_ge (end_ + lv_nodes l1 * align) (lv_nodes l1) tree n) as [? _]; [nia|done..|]. lia.
  - destruct (IH (end_ + lv_nodes l1 * align) (lv_nodes l1) k) as (? & ? & ? & ?); [nia|done..|]. split_and!; [nia|done..].
Qed.

(** The end, from the last level. *)
Lemma tree_end_last end_ count tree n l :
  0 ≤ end_ → 0 ≤ count → end_ mod align = 0 → check_levels align cap end_ count tree = Ok n → last tree = Some l →
  after_nodes (lv_offset l) (lv_nodes l) align = Some (tree_end align end_ tree).
Proof.
  revert end_ count. induction tree as [|l1 tree IH]; intros end_ count He Hc Hm E Hl; [done|].
  apply check_levels_cons in E as (En & Eo & Hlt & Hle & _ & E); [|done..]. simpl.
  assert (0 ≤ lv_nodes l1) by (rewrite En; apply div_ceil_nonneg; lia).
  destruct tree as [|l2 tree].
  - injection Hl as <-. simpl. unfold after_nodes.
    rewrite checked_mul_small by lia. simpl.
    rewrite Eo. by apply checked_add_Some.
  - apply (IH _ (lv_nodes l1)); [nia|done| |done|done]. by rewrite Z.mod_add by lia.
Qed.

End levels.

Lemma zlen_padded n bs : zlen bs ≤ n → zlen (padded n bs) = n.
Proof. intros H. unfold padded. rewrite zlen_app. unfold zlen in *. rewrite repeat_length. lia. Qed.

Section journal.
Context {BL : Blake3}.

(** ** A planned extent *)

(** Where an object's extent ends. *)
Definition location_end (align : Z) (l : Location) : Z :=
  match l with Extent off pad tree _ => tree_end align (off + pad) tree | File _ => 0 end.

(** What a commit is checked for besides its extent. *)
Definition named (g : Superblock) (m : Metadata) : Prop :=
  validate_object (object m) = Ok tt ∧ validate_version (version m) = Ok tt ∧
  workspace (object m) = sb_workspace g ∧ bucket (object m) = sb_bucket g ∧ key (object m) ≠ [].

Lemma extent_end_Ok v m off pad tree rt j :
  superblock_ok v → geometry_ok v → 0 ≤ bytes m → extent_ok v m off pad tree rt → geometry j = v →
  extent_end (Extent off pad tree rt) j = Ok (tree_end (alignment v) (off + pad) tree) ∧
  off ≤ off + pad ≤ tree_end (alignment v) (off + pad) tree ∧
  tree_end (alignment v) (off + pad) tree ≤ capacity v ∧
  (off + pad) mod alignment v = 0 ∧ tree_end (alignment v) (off + pad) tree mod alignment v = 0.
Proof.
  intros W G Hb X <-. set (v := geometry j) in *. destruct (go_align v G) as (f & Hf & Ha).
  destruct W as (Wc & _ & _ & _ & Wd & _). unfold in_width in *.
  pose proof (xo_data _ _ _ _ _ _ X). pose proof (xo_end _ _ _ _ _ _ X). pose proof (go_log v G). pose proof (go_data v G).
  pose proof (div_ceil_nonneg (bytes m) (alignment v) ltac:(lia) Hb) as Hn.
  pose proof (xo_padded _ _ _ _ _ _ X) as Hp. assert (0 ≤ pad) by nia.
  assert ((off + pad) mod alignment v = 0) as Hm.
  { rewrite Hp, Z.mod_add by lia. apply (xo_aligned _ _ _ _ _ _ X). }
  destruct (decide (bytes m = 0)) as [E0|E0].
  - destruct (xo_empty _ _ _ _ _ _ X E0) as [-> _]. simpl. split_and!; try lia. unfold ok_or.
    by rewrite (proj2 (checked_add_Some 64 off pad (off + pad)) ltac:(lia)).
  - destruct (xo_tree _ _ _ _ _ _ X E0) as [Hne Hc].
    destruct (last tree) as [l|] eqn:El; [|by apply last_None in El].
    destruct (tree_end_ge f _ (capacity v) Hf Ha (off + pad) _ tree 1 ltac:(lia) Hn Hm Hc ltac:(lia)) as [Hge Hmod].
    pose proof (tree_end_last f _ (capacity v) Hf Ha (off + pad) _ tree 1 l ltac:(lia) Hn Hm Hc El) as Hl.
    split; [|lia]. unfold extent_end. rewrite El. fold v. by rewrite Hl.
Qed.

Lemma extent_Ok g start n loc :
  superblock_ok g → u64 start → u64 n → extent g start n = Ok loc →
  ∃ pad tree rt, loc = Extent start pad tree rt ∧ geometry_ok g ∧ (n = 0 → rt = blake3 []) ∧ zlen rt = 32 ∧
    ∀ m rt', bytes m = n → (n = 0 → rt' = blake3 []) → extent_ok g m start pad tree rt' ∧
      ∀ seq h, named g m → validate_in (mk_Commit seq m h (Extent start pad tree rt')) g = Ok tt.
Proof.
  intros W Hs Hn E. unfold extent in E. remember 64%nat as fuel eqn:Hfuel. destruct (validate_superblock g) as [[]|] eqn:Ev; [|done]. simpl in E.
  pose proof (validate_superblock_Ok g Ev) as G. destruct (go_align g G) as (f & Hf & Ha).
  destruct ((start <? data_offset g) || _) eqn:E1; [done|]. apply orb_false_iff in E1 as [Hd Hm].
  apply Z.ltb_ge in Hd. apply negb_false_iff, is_multiple_spec in Hm; [|lia].
  destruct (checked_mul 64 _ _) as [pad|] eqn:Ep; [|done]. apply checked_mul_Some in Ep as [Hp Hplt]. simpl in E.
  destruct (checked_add 64 start pad) as [at_|] eqn:Eat; [|done]. apply checked_add_Some in Eat as [-> Hat]. simpl in E.
  destruct (plan_levels _ _ _ _) as [[tree e]|] eqn:Et; [|done]. cbn [ok_or mbind result_bind] in E.
  destruct (Z.ltb_spec (capacity g) e) as [|Hcap]; [done|]. injection E as <-.
  unfold in_width in *. pose proof (div_ceil_nonneg n (alignment g) ltac:(lia) ltac:(lia)) as Hb.
  assert ((start + pad) mod alignment g = 0) as Hm2 by (by rewrite Hp, Z.mod_add by lia).
  assert (n = 0 → tree = [] ∧ e = start + pad ∧ pad = 0) as H0.
  { intros ->. assert (div_ceil 0 (alignment g) = 0) as Hz by (apply div_ceil_unique; lia). rewrite Hz in *.
    subst fuel. rewrite plan_levels_S in Et. injection Et as <- <-. split_and!; [done|lia..]. }
  assert (n ≠ 0 → tree ≠ [] ∧ start + pad ≤ e ∧
    check_levels (alignment g) (capacity g) (start + pad) (div_ceil n (alignment g)) tree = Ok 1) as H1.
  { intros Hne. pose proof (div_ceil_spec n (alignment g) ltac:(lia)).
    destruct (plan_levels_check f _ (capacity g) Hf Ha fuel (start + pad) (div_ceil n (alignment g)) tree e ltac:(nia) ltac:(nia) Hm2 Et Hcap) as (? & _ & ? & ?). done. }
  exists pad, tree, (if n =? 0 then blake3 [] else repeat x00 32). split; [done|]. split; [done|].
  split; [by intros ->|]. split; [by destruct (n =? 0); [apply blake3_len|]|]. intros m rt' Em Hrt. assert (extent_ok g m start pad tree rt') as X.
  { split; rewrite ?Em; try done; [destruct (decide (n = 0)); [destruct H0|destruct H1]; lia| |].
    - intros Hz. by split; [apply H0|apply Hrt].
    - intros Hne. destruct (H1 Hne) as (? & _ & ?). done. }
  split; [done|]. intros seq h (Vo & Vv & Ew & Eb & Ek). unfold validate_in. simpl. rewrite Ev, Vo, Vv. simpl.
  rewrite !bool_decide_eq_true_2 by done. destruct (is_nil (key (object m))) eqn:Enil; [by apply is_nil_spec in Enil|]. simpl.
  rewrite (proj2 (is_multiple_spec start (alignment g) ltac:(lia)) Hm).
  assert (pad mod alignment g = 0) as Hmp by (rewrite Hp; apply Z.mod_mul; lia).
  rewrite (proj2 (is_multiple_spec pad (alignment g) ltac:(lia)) Hmp). simpl.
  rewrite (proj2 (Z.ltb_ge start (data_offset g)) Hd), Em. simpl.
  pose proof (div_ceil_spec n (alignment g) ltac:(lia)).
  rewrite (proj2 (Z.ltb_ge pad n)) by lia. simpl.
  rewrite (proj2 (checked_add_Some 64 start pad (start + pad)) ltac:(lia)). simpl.
  pose proof (xo_end _ _ _ _ _ _ X). rewrite (proj2 (Z.ltb_ge _ _)) by done.
  destruct (Z.eqb_spec n 0) as [E0|E0].
  - destruct (H0 E0) as (-> & _ & ->). simpl. rewrite bool_decide_eq_true_2 by auto. done.
  - rewrite bool_decide_eq_true_2 by (apply checked_mul_Some; lia). simpl.
    rewrite Hp, Z.div_mul by lia. destruct (H1 E0) as (Hne & _ & Hck). rewrite <- Hp, Hck. simpl.
    by destruct tree.
Qed.

(** ** The invariant *)

Definition entry_ok (g : Superblock) (end_ : Z) (k : list byte) (c : Commit) : Prop :=
  key (object (metadata c)) = k ∧ commit_ok c ∧ validate_in c g = Ok tt ∧
  (∃ off pad tree rt, location c = Extent off pad tree rt) ∧ location_end (alignment g) (location c) ≤ end_.

Record journal_ok (j : Journal) : Prop := {
  jo_valid : validate_superblock (geometry j) = Ok tt;
  jo_typed : superblock_ok (geometry j);
  jo_cell : cell j = (16384 + (alignment (geometry j) - 1)) / alignment (geometry j) * alignment (geometry j);
  jo_pairs : log_bytes (geometry j) mod (2 * cell j) = 0;
  jo_log : ∃ k : nat, log j = log_offset (geometry j) + 2 * cell j * Z.of_nat k;
  jo_log_end : log j ≤ data_offset (geometry j);
  jo_data : data_offset (geometry j) ≤ data j ≤ capacity (geometry j);
  jo_aligned : data j mod alignment (geometry j) = 0;
  jo_entries : ∀ k c, (k, c) ∈ entries j → entry_ok (geometry j) (data j) k c;
}.

Lemma jo_geometry j : journal_ok j → geometry_ok (geometry j).
Proof. intros J. by apply validate_superblock_Ok, jo_valid. Qed.

Lemma align_range g : superblock_ok g → geometry_ok g → 512 ≤ alignment g < 2 ^ 32.
Proof. intros (_ & [_ ?] & _) G. destruct (go_align g G) as (f & ? & Ha). lia. Qed.

Lemma cell_range a : 512 ≤ a < 2 ^ 32 →
  16384 ≤ (16384 + (a - 1)) / a * a < 2 ^ 33 ∧ (16384 + (a - 1)) / a * a mod a = 0.
Proof.
  intros Ha. pose proof (Z.div_mod (16384 + (a - 1)) a ltac:(lia)). pose proof (Z.mod_pos_bound (16384 + (a - 1)) a ltac:(lia)).
  split; [lia|]. apply Z.mod_mul. lia.
Qed.

Lemma jo_cell_range j : journal_ok j → 16384 ≤ cell j < 2 ^ 33 ∧ cell j mod alignment (geometry j) = 0.
Proof.
  intros J. rewrite (jo_cell j J). apply cell_range, align_range; [apply jo_typed|apply jo_geometry]; done.
Qed.

Lemma twice_cell j : journal_ok j → 2 *! cell j = 2 * cell j.
Proof. intros J. destruct (jo_cell_range j J). unfold wmul. apply wrap_small. unfold in_width. lia. Qed.

Lemma has_capacity_spec j : journal_ok j → has_capacity j = true ↔ log j + 2 * cell j ≤ data_offset (geometry j).
Proof.
  intros J. unfold has_capacity. rewrite (twice_cell j J). pose proof (go_data _ (jo_geometry j J)).
  destruct (checked_add 64 (log j) (2 * cell j)) as [e|] eqn:E.
  - apply checked_add_Some in E as [-> _]. apply Z.leb_le.
  - apply checked_add_None in E. split; [done|lia].
Qed.

Lemma journal_new_Ok g j :
  superblock_ok g → journal_new g = Ok j →
  journal_ok j ∧ geometry j = g ∧ entries j = [] ∧ log j = log_offset g ∧ data j = data_offset g.
Proof.
  intros W E. unfold journal_new in E. destruct (validate_superblock g) as [[]|] eqn:Ev; [|done].
  pose proof (validate_superblock_Ok g Ev) as G. pose proof (align_range g W G) as Ha.
  destruct (cell_range (alignment g) Ha) as [Hc Hm]. cbn [mbind result_bind] in E.
  rewrite checked_add_small in E by lia.
  cbn [ok_or mbind result_bind] in E. change (16 * 1024) with 16384 in E.
  set (cl := (16384 + (alignment g - 1)) / alignment g * alignment g) in *.
  rewrite checked_mul_small in E by lia. cbn [ok_or mbind result_bind] in E.
  destruct (is_multiple_of _ _) eqn:Em; [|done]. injection E as <-. apply is_multiple_spec in Em; [|lia].
  split; [|done]. pose proof (go_data g G). pose proof (go_capacity g G). pose proof (go_multiples g G) as (_ & _ & _ & ?).
  assert (0 ≤ log_bytes g) as Wl by apply W. split; simpl; try done.
  - by rewrite Z.mul_comm.
  - exists 0%nat. lia.
  - lia.
  - lia.
  - by intros k c ?%not_elem_of_nil.
Qed.

(** ** A pair of cells *)

Definition advance (c : Commit) (j : Journal) : Journal :=
  mk_Journal (geometry j) (cell j) (log j + 2 * cell j) (location_end (alignment (geometry j)) (location c))
    (smap_insert (key (object (metadata c))) c (entries j)).

Lemma validate_commit_Ok c j :
  validate_commit c j = Ok tt ↔
  has_capacity j = true ∧ sequence c = log j ∧ validate_in c (geometry j) = Ok tt ∧
  ∃ pad tree rt, location c = Extent (data j) pad tree rt.
Proof.
  unfold validate_commit. destruct (has_capacity j); simpl; [|naive_solver].
  destruct (Z.eqb_spec (sequence c) (log j)); simpl; [|naive_solver].
  destruct (validate_in c (geometry j)) as [[]|] eqn:E; simpl; [|naive_solver].
  destruct (location c) as [|off pad tree rt]; [naive_solver|].
  destruct (Z.eqb_spec off (data j)) as [->|]; naive_solver.
Qed.

Lemma commit_end c j :
  journal_ok j → commit_ok c → validate_commit c j = Ok tt →
  extent_end (location c) j = Ok (location_end (alignment (geometry j)) (location c)) ∧
  data j ≤ location_end (alignment (geometry j)) (location c) ≤ capacity (geometry j) ∧
  location_end (alignment (geometry j)) (location c) mod alignment (geometry j) = 0.
Proof.
  intros J (_ & (_ & _ & [Hb _]) & _) (_ & _ & V & pad & tree & rt & E)%validate_commit_Ok. rewrite E.
  destruct (validate_in_extent _ _ _ _ _ _ V E) as (G & _ & _ & _ & X).
  destruct (extent_end_Ok _ _ _ _ _ _ j (jo_typed j J) G Hb X eq_refl) as (E1 & H1 & H2 & _ & H3).
  simpl location_end. rewrite E1. split; [done|]. split; [lia|done].
Qed.

Lemma advance_ok c j :
  journal_ok j → commit_ok c → validate_commit c j = Ok tt → journal_ok (advance c j).
Proof.
  intros J C V. destruct (commit_end c j J C V) as (_ & H1 & H2).
  pose proof (proj1 (validate_commit_Ok c j) V) as (Hcap & Hs & Vi & pad & tree & rt & E).
  apply (has_capacity_spec j J) in Hcap. destruct (jo_log j J) as [k Hk].
  pose proof (jo_data j J). split; simpl; try apply J; try done.
  - exists (S k). lia.
  - lia.
  - intros k' c' [[= -> ->]|Hin]%smap_insert_elem.
    + split_and!; try done. by exists (data j), pad, tree, rt.
    + destruct (jo_entries j J k' c' Hin) as (? & ? & ? & ? & ?). split_and!; try done. lia.
Qed.

(** What a pair that is accepted records: a commit that fits its cell. *)
Lemma replay_commit record receipt j j' :
  journal_ok j → replay record receipt j = Ok (true, j') →
  ∃ c, commit_ok c ∧ validate_commit c j = Ok tt ∧ j' = advance c j ∧ ∃ e, encode (FCommit c) = Ok e ∧ zlen e ≤ cell j.
Proof.
  intros J E. unfold replay in E. destruct (negb _ || _ || _) eqn:E1; [done|].
  apply orb_false_iff in E1 as [E1 _]. apply orb_false_iff in E1 as [_ E1]. apply negb_false_iff, Z.eqb_eq in E1.
  destruct (forallb _ _); [done|]. destruct (decode receipt) as [f|]; [|done]. cbn [mbind result_bind] in E.
  destruct (match f with FReceipt _ _ => _ | _ => _ end) as [h|]; [|done]. cbn [mbind result_bind] in E.
  destruct (frame_size record) as [n|]; [|done]. cbn [mbind result_bind] in E.
  destruct (_ || _) in E; [done|]. destruct (decode record) as [f'|] eqn:Ed; [|done]. cbn [mbind result_bind] in E.
  destruct f' as [|c|]; [done| |done]. cbn [mbind result_bind] in E. apply decode_spec in Ed as (C & Vf & Pf & k & Er).
  destruct (validate_commit c j) as [[]|] eqn:V; [|done]. cbn [mbind result_bind] in E.
  destruct (commit_end c j J C V) as (E2 & _). rewrite E2 in E. cbn [mbind result_bind] in E.
  rewrite (twice_cell j J) in E. destruct (checked_add 64 _ _) as [l|] eqn:El; [|done].
  apply checked_add_Some in El as [-> _]. cbn [ok_or mbind result_bind] in E. injection E as <-.
  exists c. split_and!; try done. exists (frame_bytes (payload_of (FCommit c))). split; [by apply encode_Ok|].
  rewrite <- E1, Er, zlen_app. pose proof (zlen_nonneg (repeat x00 k)). lia.
Qed.

Lemma replay_inv record receipt j j' :
  journal_ok j → replay record receipt j = Ok (true, j') →
  ∃ c, commit_ok c ∧ validate_commit c j = Ok tt ∧ j' = advance c j.
Proof. intros J E. destruct (replay_commit _ _ _ _ J E) as (c & C & V & -> & _). by exists c. Qed.

Lemma zlen_frame_bytes p : zlen (frame_bytes p) = HEADER + zlen p.
Proof. unfold frame_bytes. rewrite !zlen_app, !zlen_le_enc, zlen_MAGIC, blake3_len. lia. Qed.

(** A receipt is shorter than any sector. *)
Lemma receipt_size seq h e : zlen h = 32 → encode (FReceipt seq h) = Ok e → zlen e = 89.
Proof.
  intros Hh (_ & _ & ->)%encode_Ok. rewrite zlen_frame_bytes. unfold payload_of, frame_body.
  rewrite !zlen_app, !zlen_le_enc, Hh. done.
Qed.

Lemma receipt_encodes seq h : zlen h = 32 → ∃ e, encode (FReceipt seq h) = Ok e.
Proof.
  intros Hh. exists (frame_bytes (payload_of (FReceipt seq h))). apply encode_Ok. split; [done|]. split; [|done].
  unfold payload_of, frame_body. rewrite !zlen_app, !zlen_le_enc, Hh. simpl. lia.
Qed.

Lemma frame_not_zero p rest : forallb (λ b, bool_decide (b = x00)) (frame_bytes p ++ rest) = false.
Proof. done. Qed.

Lemma zeroes_zero n : forallb (λ b, bool_decide (b = x00)) (repeat x00 n) = true.
Proof. induction n; simpl; auto. Qed.

Lemma frame_size_bytes p rest : 0 < zlen p ≤ MAX_PAYLOAD → frame_size (frame_bytes p ++ rest) = Ok (HEADER + zlen p).
Proof.
  intros Hp. apply frame_size_Ok. exists (zlen p), (blake3 p ++ p ++ rest). unfold frame_bytes. rewrite <- !app_assoc.
  split; [done|]. rewrite zlen_app, blake3_len. pose proof (zlen_nonneg (p ++ rest)). lia.
Qed.

(** The pair of cells that records a commit, and what replaying it does. *)
Lemma replay_pair c j e rc :
  journal_ok j → commit_ok c → validate_commit c j = Ok tt →
  encode (FCommit c) = Ok e → zlen e ≤ cell j → encode (FReceipt (log j) (blake3 e)) = Ok rc →
  replay (padded (cell j) e) (padded (cell j) rc) j = Ok (true, advance c j).
Proof.
  intros J C V Ee Le Er. pose proof (receipt_size _ _ _ (blake3_len e) Er) as Lr.
  destruct (jo_cell_range j J) as [Hcell _]. pose proof (proj1 (validate_commit_Ok c j) V) as (Hcap & _).
  apply encode_Ok in Ee as (Ve & Pe & ->). apply encode_Ok in Er as (Vr & Pr & ->).
  set (pe := payload_of (FCommit c)) in *. set (pr := payload_of (FReceipt (log j) (blake3 (frame_bytes pe)))) in *.
  assert (0 < zlen pe) as Hpe by apply payload_pos.
  assert (decode (padded (cell j) (frame_bytes pr)) = Ok (FReceipt (log j) (blake3 (frame_bytes pe)))) as Dr.
  { apply decode_spec. split_and!; [|done|done|eexists; reflexivity]. simpl. split; [|apply blake3_len].
    pose proof (jo_log_end j J). destruct (jo_log j J) as [k Hk]. pose proof (jo_typed j J) as (_ & _ & L1 & _ & L2 & _).
    unfold in_width in *. nia. }
  assert (decode (padded (cell j) (frame_bytes pe)) = Ok (FCommit c)) as De.
  { apply decode_spec. split_and!; [done|done|done|eexists; reflexivity]. }
  unfold replay. rewrite Hcap, !zlen_padded, Z.eqb_refl by lia. cbn [negb orb].
  change (padded (cell j) (frame_bytes pe)) with (frame_bytes pe ++ repeat x00 (Z.to_nat (cell j - zlen (frame_bytes pe)))) in *.
  change (padded (cell j) (frame_bytes pr)) with (frame_bytes pr ++ repeat x00 (Z.to_nat (cell j - zlen (frame_bytes pr)))) in *.
  rewrite frame_not_zero, Dr. cbn [mbind result_bind]. rewrite Z.eqb_refl. cbn [mbind result_bind].
  rewrite frame_size_bytes by done. cbn [mbind result_bind].
  rewrite <- zlen_frame_bytes, (proj2 (Z.ltb_ge (cell j) (zlen (frame_bytes pe))) Le).
  rewrite take_app_length' by (unfold zlen; lia).
  rewrite bool_decide_eq_true_2 by done. cbn [negb orb]. rewrite De. cbn [mbind result_bind]. rewrite V. cbn [mbind result_bind].
  destruct (commit_end c j J C V) as (-> & _). cbn [mbind result_bind]. rewrite (twice_cell j J).
  apply (has_capacity_spec j J) in Hcap. pose proof (go_data _ (jo_geometry j J)).
  rewrite checked_add_small by lia. done.
Qed.

(** A cell of zeroes where the receipt would be ends the log. *)
Lemma replay_zero record j :
  journal_ok j → has_capacity j = true → zlen record = cell j →
  replay record (repeat x00 (Z.to_nat (cell j))) j = Ok (false, j).
Proof.
  intros J Hcap Hr. destruct (jo_cell_range j J) as [Hcell _]. unfold replay. rewrite Hcap, Hr.
  assert (zlen (repeat x00 (Z.to_nat (cell j))) = cell j) as -> by (unfold zlen; rewrite repeat_length; lia).
  rewrite Z.eqb_refl. simpl. by rewrite zeroes_zero.
Qed.

End journal.
