(* ===== verification/StoreRoot.v ===== *)
(** * The roots' laws

    A root read back from its cell, the two banks, and which of two cells a mount follows. *)

From S2P Require Import Prelude StoreFormat StoreCodec StoreTree StoreProof StoreJournal StoreBanks StoreLog.

(** The bytes of a bank. *)
Definition bank_bytes (phys a : Z) : Z := (phys - 2 * a) / 2 / a * a.

Record root_facts (r : Root) : Prop := {
  rf_geometry : validate_superblock (root_geometry r) = Ok tt;
  rf_generation : root_generation r ≠ 0;
  rf_bank : bank r = (root_generation r - 1) mod 2;
  rf_physical : physical r mod alignment (root_geometry r) = 0;
  rf_room : 2 * alignment (root_geometry r) ≤ physical r;
  rf_start : log_offset (root_geometry r) =
    2 * alignment (root_geometry r) + bank r * bank_bytes (physical r) (alignment (root_geometry r));
  rf_end : capacity (root_geometry r) =
    log_offset (root_geometry r) + bank_bytes (physical r) (alignment (root_geometry r)) ∧
    capacity (root_geometry r) < 2 ^ 64;
}.

Lemma validate_root_Ok r : validate_root r = Ok tt ↔ root_facts r.
Proof.
  unfold validate_root. split.
  - destruct (validate_superblock _) as [[]|] eqn:V; [|done]. cbn [mbind result_bind].
    destruct ((root_generation r =? 0) || _ || _ || _) eqn:E; [done|]. intros H.
    apply orb_false_iff in E as [E Em]. apply orb_false_iff in E as [E Eb]. apply orb_false_iff in E as [Eg _].
    apply Z.eqb_neq in Eg. apply negb_false_iff in Eb, Em. apply Z.eqb_eq in Eb.
    destruct (go_align _ (validate_superblock_Ok _ V)) as (f & Hf & Ha). apply is_multiple_spec in Em; [|lia].
    destruct (checked_sub _ _) as [n|] eqn:En; [|done]. apply checked_sub_Some in En as [-> Hn].
    cbn [ok_or mbind result_bind] in H. fold (bank_bytes (physical r) (alignment (root_geometry r))) in H.
    destruct (Z.eqb_spec (log_offset (root_geometry r))
      (2 * alignment (root_geometry r) + bank r * bank_bytes (physical r) (alignment (root_geometry r)))) as [Es|]; [|done].
    cbn [negb] in H. destruct (checked_add 64 _ _) as [e|] eqn:Ee; [|done]. apply checked_add_Some in Ee as [-> Hlt].
    cbn [ok_or mbind result_bind] in H. rewrite <- Es in *.
    destruct (Z.eqb_spec (capacity (root_geometry r)) (log_offset (root_geometry r) + bank_bytes (physical r) (alignment (root_geometry r)))) as [Ec|]; [|done].
    split; try done. by rewrite Ec.
  - intros [V Hg Hb Hp Hr Hs [He Hlt]]. rewrite V. cbn [mbind result_bind].
    pose proof (validate_superblock_Ok _ V) as G. destruct (go_align _ G) as (f & Hf & Ha).
    rewrite (proj2 (Z.eqb_neq _ _) Hg). pose proof (Z.mod_pos_bound (root_generation r - 1) 2 ltac:(lia)).
    rewrite (proj2 (Z.ltb_ge 1 (bank r)) ltac:(lia)), (proj2 (Z.eqb_eq _ _) Hb).
    rewrite (proj2 (is_multiple_spec (physical r) (alignment (root_geometry r)) ltac:(lia)) Hp). cbn [negb orb].
    rewrite (proj2 (checked_sub_Some _ _ _) (conj eq_refl Hr)). cbn [ok_or mbind result_bind].
    unfold bank_bytes in *. rewrite (proj2 (Z.eqb_eq _ _) Hs). cbn [negb].
    rewrite checked_add_small by lia. cbn [ok_or mbind result_bind]. rewrite <- Hs, <- He, Z.eqb_refl. cbn [negb orb].
    pose proof (go_capacity _ G). by rewrite (proj2 (Z.leb_gt _ _)) by lia.
Qed.

(** A root the program can have. *)
Definition root_ok (r : Root) : Prop :=
  u64 (physical r) ∧ u64 (root_generation r) ∧ superblock_ok (root_geometry r) ∧ root_facts r.

(** The next root: the other bank, one generation on, and all else as it was. *)
Lemma root_next_Ok r n :
  root_ok r → root_next r = Ok n →
  root_ok n ∧ physical n = physical r ∧ root_generation n = root_generation r + 1 ∧ bank n = 1 - bank r ∧
  alignment (root_geometry n) = alignment (root_geometry r) ∧ log_bytes (root_geometry n) = log_bytes (root_geometry r) ∧
  role (root_geometry n) = role (root_geometry r) ∧ sb_workspace (root_geometry n) = sb_workspace (root_geometry r) ∧
  sb_bucket (root_geometry n) = sb_bucket (root_geometry r) ∧
  (capacity (root_geometry r) ≤ log_offset (root_geometry n) ∨ capacity (root_geometry n) ≤ log_offset (root_geometry r)).
Proof.
  intros (Wp & Wg & W & F) E. unfold root_next in E. rewrite (proj2 (validate_root_Ok r) F) in E. cbn [mbind result_bind] in E.
  destruct (checked_add 64 (root_generation r) 1) as [gen|] eqn:Eg; [|done]. apply checked_add_Some in Eg as [-> Hg].
  cbn [ok_or mbind result_bind] in E. destruct (root_initial _ _ _ _ _ _) as [i|] eqn:Ei; [|done]. cbn [mbind result_bind] in E.
  assert (root_geometry i = mk_Superblock (capacity (root_geometry i)) (alignment (root_geometry r)) (log_offset (root_geometry i))
    (log_bytes (root_geometry r)) (data_offset (root_geometry i)) (role (root_geometry r)) (sb_workspace (root_geometry r)) (sb_bucket (root_geometry r)) ∧
    physical i = physical r) as [Gi Pi].
  { unfold root_initial in Ei. destruct (_ || _ || _) in Ei; [done|].
    destruct (checked_mul 64 _ _) as [st|]; [|done]. cbn [ok_or mbind result_bind] in Ei.
    destruct (checked_sub _ _) as [x|]; [|done]. cbn [ok_or mbind result_bind] in Ei.
    destruct (checked_add 64 st (x / 2 / _ * _)) as [y|]; [|done]. cbn [ok_or mbind result_bind] in Ei.
    destruct (checked_add 64 st _) as [d|]; [|done]. cbn [ok_or mbind result_bind] in Ei.
    destruct (validate_root _) as [[]|] in Ei; [|done]. cbn [mbind result_bind] in Ei. by injection Ei as <-. }
  rewrite Pi in E. rewrite Gi in E. cbn [alignment log_bytes role sb_workspace sb_bucket] in E.
  destruct (checked_add 64 _ (log_bytes _)) as [d|] eqn:Ed in E; [|done]. apply checked_add_Some in Ed as [-> Hd].
  cbn [ok_or mbind result_bind] in E. destruct (checked_add 64 _ (_ / _ * _)) as [cp|] eqn:Ec in E; [|done].
  apply checked_add_Some in Ec as [-> Hc]. cbn [ok_or mbind result_bind] in E.
  destruct (validate_root _) as [[]|] eqn:Ev in E; [|done]. cbn [mbind result_bind] in E. injection E as <-.
  apply validate_root_Ok in Ev. destruct (go_align _ (validate_superblock_Ok _ (rf_geometry r F))) as (f & Hf & Ha).
  pose proof (rf_start r F) as Hs. pose proof (rf_end r F) as [He _]. pose proof (rf_bank r F) as Hb.
  pose proof (Z.mod_pos_bound (root_generation r - 1) 2 ltac:(lia)) as Hm. pose proof (rf_room r F).
  fold (bank_bytes (physical r) (alignment (root_geometry r))) in *.
  assert (0 ≤ bank_bytes (physical r) (alignment (root_geometry r))) as Hbb.
  { unfold bank_bytes. assert (0 ≤ (physical r - 2 * alignment (root_geometry r)) / 2) by (apply Z.div_pos; lia).
    assert (0 ≤ (physical r - 2 * alignment (root_geometry r)) / 2 / alignment (root_geometry r)) by (apply Z.div_pos; lia). nia. }
  simpl in *. split_and!; try done.
  - split_and!; simpl; try done; [unfold in_width in *; lia|].
    destruct W as (W1 & W2 & W3 & W4 & W5 & W6 & W7). unfold superblock_ok, in_width in *. simpl. split_and!; try done; try lia; nia.
  - assert (bank r = 0 ∨ bank r = 1) as [Eb|Eb] by lia; rewrite Eb in *; [left|right]; lia.
Qed.

(** ** The codec *)

Lemma field_at {A} (pre x post : list A) k n : length pre = k → length x = n → take n (drop k (pre ++ x ++ post)) = x.
Proof. intros <- <-. by rewrite drop_app_length, take_app_length. Qed.

Section roots.
Context {BL : Blake3}.

Lemma root_encode_Ok r e :
  root_encode r = Ok e →
  ∃ inner, encode (FSuperblock (root_geometry r)) = Ok inner ∧ 68 + zlen inner ≤ alignment (root_geometry r) ∧
    zlen e = 68 + zlen inner ∧
    e = root_head (68 + zlen inner) r ++ blake3 (root_head (68 + zlen inner) r ++ inner) ++ inner.
Proof.
  unfold root_encode. destruct (validate_root r) as [[]|]; [|done]. cbn [mbind result_bind].
  destruct (encode _) as [inner|]; [|done]. cbn [mbind result_bind].
  destruct (checked_add 64 _ _) as [len|] eqn:El; [|done]. apply checked_add_Some in El as [-> _]. cbn [ok_or mbind result_bind].
  destruct (Z.ltb_spec (alignment (root_geometry r)) (BANK_HEADER + zlen inner)); [done|]. intros <-%Ok_inj.
  exists inner. split; [done|]. split; [done|]. split; [|done]. unfold root_head. rewrite !zlen_app, !zlen_le_enc, blake3_len.
  change (zlen BANK_MAGIC) with 8. change (zlen (repeat x00 3)) with 3. lia.
Qed.

Lemma root_roundtrip r e :
  root_ok r → root_encode r = Ok e → root_decode (padded (alignment (root_geometry r)) e) = Ok r.
Proof.
  intros (Wp & Wg & W & F) E. apply root_encode_Ok in E as (inner & Ei & Hl & Le & ->).
  set (a := alignment (root_geometry r)) in *. set (len := 68 + zlen inner) in *.
  set (h := blake3 (root_head len r ++ inner)) in *.
  assert (length h = 32%nat) as Lh by apply blake3_length.
  set (pad := repeat x00 (Z.to_nat (a - zlen (root_head len r ++ h ++ inner)))).
  assert (∃ bs, padded a (root_head len r ++ h ++ inner) = bs ∧ zlen bs = a ∧
    bs = BANK_MAGIC ++ le_enc 4 BANK_VERSION ++ le_enc 4 len ++ le_enc 8 (physical r) ++ le_enc 8 (root_generation r) ++
         le_enc 1 (bank r) ++ repeat x00 3 ++ h ++ inner ++ pad ∧
    take 36 bs = root_head len r) as (bs & -> & Lb & Eb & Ht).
  { eexists. split; [reflexivity|]. split; [apply zlen_padded; lia|]. unfold padded. fold pad.
    split; [unfold root_head; by rewrite <- !app_assoc|]. rewrite <- !app_assoc, take_app_length'; [done|].
    unfold root_head. rewrite !length_app, !le_enc_length. done. }
  pose proof (zlen_nonneg inner) as Hin. unfold root_decode. destruct (Z.ltb_spec (zlen bs) BANK_HEADER); [lia|].
  assert (∀ pre x post n k, bs = pre ++ x ++ post → length pre = k → length x = n → take n (drop k bs) = x) as Fd.
  { intros pre x post n k ->. apply field_at. }
  assert (take 8 bs = BANK_MAGIC) as -> by (rewrite Eb; by rewrite take_app_length').
  rewrite bool_decide_eq_true_2 by done. cbn [negb]. cbv zeta.
  assert (512 ≤ a < 2 ^ 32) as Ha by (apply align_range; [done|apply validate_superblock_Ok, F]).
  pose proof (rf_bank r F) as Hb. pose proof (Z.mod_pos_bound (root_generation r - 1) 2 ltac:(lia)) as Hm.
  rewrite (Fd BANK_MAGIC (le_enc 4 BANK_VERSION) _ 4%nat 8%nat Eb eq_refl eq_refl).
  rewrite (Fd (BANK_MAGIC ++ le_enc 4 BANK_VERSION) (le_enc 4 len) _ 4%nat 12%nat Eb eq_refl (le_enc_length _ _)).
  rewrite (Fd (BANK_MAGIC ++ le_enc 4 BANK_VERSION ++ le_enc 4 len) (le_enc 8 (physical r)) _ 8%nat 16%nat Eb) by (rewrite ?length_app, ?le_enc_length; done).
  rewrite (Fd (BANK_MAGIC ++ le_enc 4 BANK_VERSION ++ le_enc 4 len ++ le_enc 8 (physical r)) (le_enc 8 (root_generation r)) _ 8%nat 24%nat Eb) by (rewrite ?length_app, ?le_enc_length; done).
  rewrite (Fd (BANK_MAGIC ++ le_enc 4 BANK_VERSION ++ le_enc 4 len ++ le_enc 8 (physical r) ++ le_enc 8 (root_generation r)) (le_enc 1 (bank r)) _ 1%nat 32%nat Eb) by (rewrite ?length_app, ?le_enc_length; done).
  rewrite (Fd (BANK_MAGIC ++ le_enc 4 BANK_VERSION ++ le_enc 4 len ++ le_enc 8 (physical r) ++ le_enc 8 (root_generation r) ++ le_enc 1 (bank r)) (repeat x00 3) _ 3%nat 33%nat Eb) by (rewrite ?length_app, ?le_enc_length; done).
  rewrite (Fd (BANK_MAGIC ++ le_enc 4 BANK_VERSION ++ le_enc 4 len ++ le_enc 8 (physical r) ++ le_enc 8 (root_generation r) ++ le_enc 1 (bank r) ++ repeat x00 3) h _ 32%nat 36%nat Eb) by (rewrite ?length_app, ?le_enc_length; done).
  rewrite !le_dec_enc_small by (unfold in_width in *; simpl; lia).
  rewrite Z.eqb_refl. cbn [negb].
  rewrite (proj2 (Z.ltb_ge len BANK_HEADER) ltac:(lia)), (proj2 (Z.ltb_ge (zlen bs) len) ltac:(lia)).
  rewrite bool_decide_eq_true_2 by done. cbn [negb orb].
  set (hd := BANK_MAGIC ++ le_enc 4 BANK_VERSION ++ le_enc 4 len ++ le_enc 8 (physical r) ++ le_enc 8 (root_generation r) ++
    le_enc 1 (bank r) ++ repeat x00 3 ++ h).
  assert (length hd = 68%nat) as Lhd by (unfold hd; rewrite !length_app, !le_enc_length, Lh; done).
  assert (bs = hd ++ inner ++ pad) as Eb' by (rewrite Eb; unfold hd; by rewrite <- !app_assoc).
  assert (drop (Z.to_nat len) bs = pad) as ->.
  { rewrite Eb', app_assoc, drop_app_length'; [done|]. rewrite length_app, Lhd. unfold len, zlen. lia. }
  assert (existsb (λ b, negb (bool_decide (b = x00))) pad = false) as ->
    by (apply all_zero_repeat; unfold pad; by rewrite repeat_length).
  rewrite (Fd hd inner pad (Z.to_nat (len - BANK_HEADER)) 68%nat Eb' Lhd) by (unfold len, zlen; lia).
  rewrite Ht, bool_decide_eq_true_2 by done. cbn [negb].
  assert (decode inner = Ok (FSuperblock (root_geometry r))) as ->.
  { apply encode_Ok in Ei as (V1 & V2 & ->). apply decode_spec. split_and!; [done..|]. exists 0%nat. simpl. by rewrite app_nil_r. }
  cbn [mbind result_bind]. destruct r as [ph gen bk g]. cbn [physical root_generation bank root_geometry] in *.
  rewrite (proj2 (validate_root_Ok _) F). cbn [mbind result_bind]. fold a. by rewrite (proj2 (Z.ltb_ge a (zlen bs))) by lia.
Qed.

(** ** Which root a mount follows *)

Lemma slot_cases r : root_ok r → slot r = 0 ∧ bank r = 0 ∨ slot r = alignment (root_geometry r) ∧ bank r = 1.
Proof.
  intros (_ & _ & _ & F). unfold slot. pose proof (rf_bank r F) as ->.
  pose proof (Z.mod_pos_bound (root_generation r - 1) 2 ltac:(lia)).
  assert ((root_generation r - 1) mod 2 = 0 ∨ (root_generation r - 1) mod 2 = 1) as [->| ->] by lia; [left|right]; lia.
Qed.

(** A bank is past the root cells and within the device. *)
Lemma root_bounds r : root_ok r →
  2 * alignment (root_geometry r) ≤ log_offset (root_geometry r) ∧ capacity (root_geometry r) ≤ physical r.
Proof.
  intros R. destruct (slot_cases r R) as [[_ Hb]|[_ Hb]]; destruct R as (_ & _ & W & F); pose proof (rf_start r F) as Hs;
    pose proof (rf_end r F) as [He _]; rewrite Hb in *; pose proof (rf_room r F) as Hr;
    destruct (go_align _ (validate_superblock_Ok _ (rf_geometry r F))) as (f & Hf & Ha);
    (assert (0 ≤ 2 * bank_bytes (physical r) (alignment (root_geometry r)) ≤ physical r - 2 * alignment (root_geometry r)) as Hbb;
     [|lia]); unfold bank_bytes; set (x := physical r - 2 * alignment (root_geometry r)) in *;
    set (a := alignment (root_geometry r)) in *;
    pose proof (Z.div_mod x 2 ltac:(lia)); pose proof (Z.mod_pos_bound x 2 ltac:(lia));
    pose proof (Z.div_mod (x / 2) a ltac:(lia)); pose proof (Z.mod_pos_bound (x / 2) a ltac:(lia));
    assert (0 ≤ x / 2) by (apply Z.div_pos; lia); assert (0 ≤ x / 2 / a) by (apply Z.div_pos; lia); nia.
Qed.

(** The next root's encoding takes the bytes of this one's. *)
Lemma next_size r n e e' : root_ok r → root_next r = Ok n → root_encode r = Ok e → root_encode n = Ok e' → zlen e' = zlen e.
Proof.
  intros R Hn E E'. destruct (root_next_Ok r n R Hn) as (_ & _ & _ & _ & _ & _ & _ & Hw & Hb & _).
  apply root_encode_Ok in E as (inner & Ei & _ & Le & _). apply root_encode_Ok in E' as (inner' & Ei' & _ & Le' & _). rewrite Le, Le'.
  apply encode_Ok in Ei as (_ & _ & ->). apply encode_Ok in Ei' as (_ & _ & ->). rewrite !zlen_frame_bytes.
  unfold payload_of, frame_body, superblock_bytes. rewrite !zlen_app, !zlen_le_enc, Hw, Hb. lia.
Qed.

Lemma root_cell_Ok r e sl :
  root_ok r → root_encode r = Ok e → slot r = sl * alignment (root_geometry r) →
  root_cell (padded (alignment (root_geometry r)) e) sl = Ok (Some r).
Proof.
  intros R E Hs. pose proof (root_roundtrip r e R E) as D. apply root_encode_Ok in E as (inner & _ & Hl & Le & Ee).
  unfold root_cell. rewrite D. cbn [map_err mbind result_bind]. rewrite zlen_padded by lia.
  rewrite Hs, !Z.eqb_refl. cbn [negb orb]. rewrite Ee. done.
Qed.

Lemma root_cell_zero a sl : 0 < a → root_cell (repeat x00 (Z.to_nat a)) sl = Ok None.
Proof. intros Ha. unfold root_cell. rewrite zeroes_zero. by destruct (Z.to_nat a) eqn:E; [lia|]. Qed.

(** The cells of a root and of what the other cell has: zeroes, or the root before. *)
Definition cell_of (r : Root) : list byte :=
  match root_encode r with Ok e => padded (alignment (root_geometry r)) e | Err _ => [] end.
Definition other_cell (r : Root) (old : option Root) : list byte :=
  match old with Some o => cell_of o | None => repeat x00 (Z.to_nat (alignment (root_geometry r))) end.
Definition follows (r : Root) (old : option Root) : Prop :=
  match old with Some o => root_ok o ∧ root_next o = Ok r ∧ ∃ e, root_encode o = Ok e | None => True end.

Lemma zlen_cell_of r e : root_encode r = Ok e → cell_of r = padded (alignment (root_geometry r)) e ∧ zlen (cell_of r) = alignment (root_geometry r).
Proof.
  intros E. unfold cell_of. rewrite E. apply root_encode_Ok in E as (inner & _ & Hl & Le & _). split; [done|].
  apply zlen_padded. lia.
Qed.

Lemma recover_follows r e old :
  root_ok r → root_encode r = Ok e → follows r old →
  (if bank r =? 0 then recover (cell_of r) (other_cell r old) else recover (other_cell r old) (cell_of r)) =
  Ok (mk_Recovery r (slot <$> old)).
Proof.
  intros R E Hf. destruct (zlen_cell_of r e E) as [Ec Lc]. set (a := alignment (root_geometry r)) in *.
  assert (512 ≤ a < 2 ^ 32) as Ha.
  { destruct R as (_ & _ & W & F). apply align_range; [done|]. apply validate_superblock_Ok, F. }
  assert (∃ ro, other_cell r old = ro ∧ zlen ro = a ∧ ∀ sl, slot r = (1 - sl) * a →
    root_cell ro sl = Ok old) as (ro & -> & Lo & Co).
  { eexists. split; [reflexivity|]. destruct old as [o|]; simpl.
    - destruct Hf as (Ro & Hn & (eo' & Eo)).
      destruct (root_next_Ok o r Ro Hn) as (_ & _ & Hg & Hb & Hal & _). fold a in Hal.
      destruct (zlen_cell_of o eo' Eo) as [Eco Lco]. rewrite Lco. split; [done|]. intros sl Hsl.
      rewrite Eco. apply root_cell_Ok; [done|done|]. rewrite <- Hal.
      destruct (slot_cases r R) as [[Hs1 Hb1]|[Hs1 Hb1]], (slot_cases o Ro) as [[Hs2 Hb2]|[Hs2 Hb2]]; fold a in Hs1; try lia;
        rewrite <- Hal in Hs2; rewrite Hs2; nia.
    - split; [unfold zlen; rewrite repeat_length; lia|]. intros sl _. fold a. apply root_cell_zero. lia. }
  assert (∀ sl, slot r = sl * a → root_cell (cell_of r) sl = Ok (Some r)) as Cr.
  { intros sl Hsl. rewrite Ec. by apply root_cell_Ok. }
  assert (∀ o, old = Some o → select (Some o) (Some r) = Ok r ∧ select (Some r) (Some o) = Ok r ∧
     (root_generation r <? root_generation o) = false ∧ (root_generation o <? root_generation r) = true) as Sel.
  { intros o ->. destruct Hf as (Ro & Hn & _).
    destruct (root_next_Ok o r Ro Hn) as (_ & Hp & Hg & _ & Hal & Hlb & Hrl & Hw & Hbk & _). unfold select.
    rewrite Hp, Hal, Hlb, Hrl, Hw, Hbk, Hg, !Z.eqb_refl, !bool_decide_eq_true_2 by done.
    replace (root_generation o - (root_generation o + 1)) with (-1) by lia.
    replace (root_generation o + 1 - root_generation o) with 1 by lia. simpl.
    rewrite (proj2 (Z.ltb_ge (root_generation o + 1) (root_generation o)) ltac:(lia)).
    by rewrite (proj2 (Z.ltb_lt (root_generation o) (root_generation o + 1)) ltac:(lia)). }
  assert (∀ x : list byte, zlen x = a → is_nil x = false) as Hnil by (intros [|]; [rewrite zlen_nil; lia|done]).
  unfold recover. destruct (slot_cases r R) as [[Hs Hb]|[Hs Hb]]; rewrite Hb; cbn [Z.eqb]; fold a in Hs.
  - rewrite (Hnil _ Lc), Lc, Lo, Z.eqb_refl. cbn [negb orb]. rewrite (Cr 0), (Co 1) by lia. cbn [mbind result_bind].
    destruct old as [o|]; [|done]. destruct (Sel o eq_refl) as (S1 & S2 & S3 & S4). by rewrite S2, S3.
  - rewrite (Hnil _ Lo), Lc, Lo, Z.eqb_refl. cbn [negb orb]. rewrite (Co 0), (Cr 1) by lia. cbn [mbind result_bind].
    destruct old as [o|]; [|done]. destruct (Sel o eq_refl) as (S1 & S2 & S3 & S4). by rewrite S1, S4.
Qed.

End roots.
