(* ===== verification/StoreVolume.v ===== *)
(** * A volume

    [src/kernel/storage/src/volume.rs]: mounting a device, provisioning one, and the
    operations on the objects of a mounted volume.  The bytes of a loan are what is read of
    it, each once; random bytes are an argument. *)

From S2P Require Import Prelude StoreFormat StoreTree StoreProof StoreJournal StoreBanks StoreDisk.

(** [Volume]; [loan] is the memory the caller of the running request lent with it. *)
Record Volume := mk_Volume {
  dev : Dev;
  journal : Journal;
  root : Root;
  copied : Z;
  failed : bool;
  async_failed : bool;
  loan : option (list byte);
}.

Abbreviation V := (M Volume Stop).

(** An input or output of the volume's device. *)
Definition io {A} (f : D A) : V A := λ v,
  let '(r, d) := f (dev v) in
  (r, mk_Volume d (journal v) (root v) (copied v) (failed v) (async_failed v) (loan v)).

Definition set_journal (j : Journal) : V unit :=
  modify (λ v, mk_Volume (dev v) j (root v) (copied v) (failed v) (async_failed v) (loan v)).
Definition set_root (r : Root) : V unit :=
  modify (λ v, mk_Volume (dev v) (journal v) r (copied v) (failed v) (async_failed v) (loan v)).
Definition set_failed : V unit :=
  modify (λ v, mk_Volume (dev v) (journal v) (root v) (copied v) true (async_failed v) (loan v)).

(** [Loan::write], which the kernel may refuse. *)
Definition write_loan (at_ : Z) (bs : list byte) : V unit :=
  _ ← io (obtain Unavailable);
  modify (λ v, mk_Volume (dev v) (journal v) (root v) (copied v) (failed v) (async_failed v)
                 ((λ l, put_range l at_ bs) <$> loan v)).

(** A result whose error is a refusal. *)
Definition or_refuse {S E A} (r : Refusal) (c : result E A) : M S Stop A := lift (map_err (λ _, Refused r) c).

Definition dev_capacity (i : Info) : Z := sectors i * sector_size i.

Section volume.
Context {BL : Blake3}.

(** ** Mounting *)

(** The loop of [mount_inner] over the log; [fuel] is more than the pairs a log has room for. *)
Fixpoint replay_log (fuel : nat) (j : Journal) : D Journal :=
  match fuel with
  | O => refuse BadIntegrity
  | S fuel =>
      if has_capacity j then
        _ ← obtain Unavailable;
        _ ← obtain Unavailable;
        record ← read_aligned (log j) (cell j);
        receipt ← read_aligned (log j +! cell j) (cell j);
        '(accepted, j') ← or_refuse BadIntegrity (replay record receipt j);
        if (accepted : bool) then replay_log fuel j' else mret j
      else mret j
  end.

Definition pairs_room (j : Journal) : nat :=
  S (Z.to_nat (log_bytes (geometry j) / (2 * cell j))).

Definition is_mountable (r : Role) : bool :=
  match r with FormatProof => false | _ => true end.

(** [Volume::mount_inner]: the journal and the root of the volume. *)
Definition mount_inner (align : Z) (expected : Role) : D (Journal * Root) :=
  i ← gets info;
  if negb (is_mountable expected) || (align <? sector_size i) || negb (is_power_of_two align)
     || negb (is_multiple_of align (sector_size i)) then refuse BadRequest
  else
    _ ← obtain NoCapacity;
    _ ← obtain NoCapacity;
    _ ← obtain Unavailable;
    _ ← obtain Unavailable;
    a ← read_block 0 align;
    b ← read_block align align;
    rec ← or_refuse BadIntegrity (recover a b);
    let r := rc_root rec in
    let g := root_geometry r in
    if negb (physical r =? dev_capacity i) || negb (alignment g =? align)
       || negb (bool_decide (role g = expected)) then refuse BadRequest
    else
      _ ← obtain NoCapacity;
      j ← or_refuse BadIntegrity (journal_new g);
      _ ← obtain NoCapacity;
      _ ← obtain NoCapacity;
      j ← replay_log (pairs_room j) j;
      _ ← match retire rec with
          | Some at_ =>
              _ ← obtain Unavailable;
              _ ← write_aligned at_ (repeat x00 (Z.to_nat align));
              dev_flush
          | None => mret tt
          end;
      mret (j, r).

(** [Volume::mount] and [Volume::mount_cache]. *)
Definition mount (align : Z) (expected : Role) : D (Journal * Root) :=
  if bool_decide (expected = CacheScratch) then refuse Unsupported else mount_inner align expected.
Definition mount_cache (align : Z) : D (Journal * Root) := mount_inner align CacheScratch.

(** ** Provisioning *)

(** The writes of zeroes over the log. *)

Fixpoint zero_range (a : Z) (at_ : Z) (n : nat) : D unit :=
  match n with
  | O => mret tt
  | S n => _ ← write_aligned at_ (repeat x00 (Z.to_nat a)); zero_range a (at_ + a) n
  end.

Definition all_zero (bs : list byte) : bool := forallb (λ b, bool_decide (b = x00)) bs.

(** [Volume::provision]. *)
Definition provision (g : Superblock) : D (Journal * Root) :=
  _ ← or_refuse BadRequest (validate_superblock g);
  i ← gets info;
  if negb (capacity g =? dev_capacity i) || negb (is_mountable (role g))
     || negb (is_multiple_of (alignment g) (sector_size i)) then refuse BadRequest
  else
    r ← or_refuse BadRequest (root_initial (dev_capacity i) (alignment g) (log_bytes g) (role g)
                                (sb_workspace g) (sb_bucket g));
    let g := root_geometry r in
    _ ← or_refuse BadRequest (journal_new g);
    let a := alignment g in
    encoded ← or_refuse NoCapacity (root_encode r);
    _ ← obtain NoCapacity;
    _ ← obtain Unavailable;
    x ← read_block 0 a;
    if negb (all_zero x) then refuse Conflict
    else
      y ← read_block a a;
      if negb (all_zero y) then refuse Conflict
      else
        _ ← zero_range a (log_offset g) (Z.to_nat (div_ceil (data_offset g - log_offset g) a));
        _ ← dev_flush;
        _ ← write_aligned 0 (padded a encoded);
        _ ← dev_flush;
        mount_inner a (role g).

(** [Volume::format] and [Volume::format_cache]. *)
Definition format (g : Superblock) : D (Journal * Root) :=
  if bool_decide (role g = CacheScratch) then refuse Unsupported else provision g.
Definition format_cache (g : Superblock) : D (Journal * Root) :=
  if bool_decide (role g = CacheScratch) then provision g else refuse BadRequest.

(** ** Writing an object *)

(** [Volume::object]. *)
Definition volume_object (o : Object) : V unit :=
  v ← gets (λ v, v);
  if failed v || async_failed v then fail (Refused Unavailable)
  else
    _ ← or_refuse BadRequest (validate_object o);
    let g := geometry (journal v) in
    if negb (bool_decide (workspace o = sb_workspace g)) || negb (bool_decide (bucket o = sb_bucket g))
    then fail (Refused Denied) else mret tt.

(** [self.copied], which does not wrap. *)
Definition add_copied (n : Z) : V unit := λ v,
  match checked_add 64 (copied v) n with
  | Some c => (Ok tt, mk_Volume (dev v) (journal v) (root v) c (failed v) (async_failed v) (loan v))
  | None => (Err (Refused NoCapacity), v)
  end.

(** The loop over the blocks of the source. *)
Fixpoint put_leaves (a off : Z) (block : Z) (blocks : list (list byte)) : V (list (list byte)) :=
  match blocks with
  | [] => mret []
  | b :: rest =>
      _ ← io (obtain Unavailable);
      _ ← io (obtain Unavailable);
      digest ← or_refuse BadIntegrity (leaf_digest b a);
      _ ← io (write_aligned (off +! block *! a) (padded a b));
      _ ← add_copied (zlen b);
      ds ← put_leaves a off (block + 1) rest;
      mret (digest :: ds)
  end.

(** The nodes of a level, from number [index]. *)
Fixpoint put_nodes (a off : Z) (index : Z) (children : list (list (list byte))) : V (list (list byte)) :=
  match children with
  | [] => mret []
  | ch :: rest =>
      _ ← io (obtain Unavailable);
      '(page, digest) ← or_refuse BadIntegrity (tree_node a ch);
      _ ← io (write_aligned (off +! index *! a) page);
      ds ← put_nodes a off (index + 1) rest;
      mret (digest :: ds)
  end.

Fixpoint put_tree (a : Z) (tree : list TreeLevel) (digests : list (list byte)) : V (list (list byte)) :=
  match tree with
  | [] => mret digests
  | l :: tree =>
      _ ← io (obtain NoCapacity);
      parents ← put_nodes a (lv_offset l) 0 (chunks (Z.to_nat (a / 32)) digests);
      put_tree a tree parents
  end.

(** [hex]. *)
Definition hex_digit (n : Z) : byte := Z_byte (if n <? 10 then n + 48 else n + 87).
Definition hex (bs : list byte) : list byte :=
  flat_map (λ b, [hex_digit (byte_Z b / 16); hex_digit (byte_Z b mod 16)]) bs.

Definition version_of (digest unique : list byte) : Version :=
  mk_Version (Some (hex digest)) (Some (hex unique)).

(** The commit and its receipt written, each in its cell. *)
Definition commit_pair (c : Commit) : V (list byte * list byte) :=
  j ← gets journal;
  _ ← or_refuse BadIntegrity (validate_commit c j);
  record ← or_refuse NoCapacity (encode (FCommit c));
  if cell j <? zlen record then fail (Refused NoCapacity)
  else
    _ ← io dev_flush;
    receipt ← or_refuse NoCapacity (encode (FReceipt (log j) (blake3 record)));
    _ ← io (obtain NoCapacity);
    _ ← io (obtain NoCapacity);
    _ ← io (obtain Unavailable);
    _ ← io (write_aligned (log j) (padded (cell j) record));
    _ ← io dev_flush;
    _ ← io (obtain Unavailable);
    _ ← io (write_aligned (log j +! cell j) (padded (cell j) receipt));
    _ ← io dev_flush;
    mret (padded (cell j) record, padded (cell j) receipt).

(** The pair written and applied. *)
Definition publish (c : Commit) : V unit :=
  j ← gets journal;
  '(record, receipt) ← commit_pair c;
  _ ← io (obtain Unavailable);
  _ ← io (obtain Unavailable);
  '(applied, j') ← or_refuse BadIntegrity (replay record receipt j);
  if (applied : bool) then set_journal j' else fail (Refused BadIntegrity).

(** [Volume::put]. *)
Definition put (o : Object) (cd : Condition) (source : option (list byte)) (bytes : Z)
    (unique : list byte) : V Metadata :=
  _ ← volume_object o;
  if negb (match source with Some s => zlen s | None => 0 end =? bytes) then fail (Refused BadRequest)
  else
    j ← gets journal;
    let a := alignment (geometry j) in
    planned ← or_refuse NoCapacity (plan o cd bytes j);
    loc ← lift (ok_or planned (Refused Conflict));
    let leaves := div_ceil bytes a in
    _ ← io (obtain Unavailable);
    preview ← or_refuse NoCapacity
      (encode (FCommit (mk_Commit (log j) (mk_Metadata o (version_of (repeat x00 32) unique) bytes)
                          (repeat x00 32) loc)));
    if cell j <? zlen preview then fail (Refused NoCapacity)
    else
      _ ← or_refuse NoCapacity (ok_or (checked_mul 64 leaves 64) tt);
      _ ← io (obtain NoCapacity);
      _ ← io (obtain NoCapacity);
      _ ← io (obtain NoCapacity);
      match loc with
      | File _ => fail (Refused BadIntegrity)
      | Extent off pad tree rt =>
          let content := default [] source in
          ds ← put_leaves a off 0 (chunks (Z.to_nat a) content);
          ds ← put_tree a tree ds;
          let rt := match ds with d :: _ => d | [] => rt end in
          let digest := blake3 content in
          let m := mk_Metadata o (version_of digest unique) bytes in
          _ ← publish (mk_Commit (log j) m digest (Extent off pad tree rt));
          mret m
      end.

(** ** Reading one *)

(** The nodes above a block, each read by [rd] and accepted. *)
Fixpoint walk_nodes (rd : Z → D (list byte)) (fuel : nat) (p : BlockProof) : D BlockProof :=
  match fuel with
  | O => refuse BadIntegrity
  | S fuel =>
      match next_node p with
      | None => mret p
      | Some st =>
          n ← rd (ps_offset st);
          p' ← or_refuse BadIntegrity (accept_node n p);
          walk_nodes rd fuel p'
      end
  end.

Definition read_nodes (fuel : nat) (a : Z) (p : BlockProof) : V BlockProof :=
  io (walk_nodes (λ off, _ ← obtain Unavailable; read_block off a) fuel p).

(** The [n] blocks from [block]; the part of each that was asked for goes to the loan. *)
Fixpoint read_blocks (c : Commit) (start a offset length : Z) (block : Z) (n : nat) : V unit :=
  match n with
  | O => mret tt
  | S n =>
      g ← gets (λ v, geometry (journal v));
      p ← or_refuse BadIntegrity (proof_new c g block);
      p ← read_nodes (S (List.length (steps p))) a p;
      _ ← io (obtain Unavailable);
      bs ← io (read_block (start +! block *! a) a);
      _ ← or_refuse BadIntegrity (verify_data bs p);
      let lo := Z.max offset (block *! a) in
      let hi := Z.min (offset +! length) ((block +! 1) *! a) in
      part ← lift (ok_or (get_range bs (lo - block *! a) (hi - block *! a)) Panicked);
      _ ← write_loan (lo - offset) part;
      _ ← add_copied (hi - lo);
      read_blocks c start a offset length (block + 1) n
  end.

(** [wire::Outcome], those a volume gives. *)
Inductive Outcome :=
| OHead (m : Metadata)
| ORead (m : Metadata) (offset length : Z)
| OWritten (m : Metadata)
| OListed (entries : list Metadata) (next : option (list byte)).

Definition loan_len (l : option (list byte)) : Z := match l with Some l => zlen l | None => 0 end.

(** [Volume::read]. *)
Definition read (o : Object) (ver : Version) (offset length : Z) : V Outcome :=
  _ ← volume_object o;
  j ← gets journal;
  c ← lift (ok_or (current (key o) j) (Refused Missing));
  let m := metadata c in
  dest ← gets (λ v, loan_len (loan v));
  if negb (bool_decide (version m = ver)) then fail (Refused Conflict)
  else if match checked_add 64 offset length with None => true | Some e => bytes m <? e end
          || negb (dest =? length) then fail (Refused BadRequest)
  else if length =? 0 then mret (ORead m offset length)
  else
    let a := alignment (geometry j) in
    match location c with
    | File _ => fail (Refused BadIntegrity)
    | Extent start _ _ _ =>
        _ ← io (obtain NoCapacity);
        _ ← io (obtain NoCapacity);
        _ ← read_blocks c start a offset length (offset / a)
              (Z.to_nat (div_ceil (offset +! length) a - offset / a));
        mret (ORead m offset length)
    end.

(** ** The operations of a request *)

(** [wire::Operation]. *)
Inductive Operation :=
| OpCurrent
| OpCacheRead (version : Version) (offset length : Z)
| OpCacheFill (version : Version) (offset length : Z)
| OpHead (version : Version)
| OpRead (version : Version) (offset length : Z)
| OpCreate (length : Z)
| OpList (limit : Z) (after : option (list byte))
| OpReplace (cd : Condition) (length : Z).

Definition starts_with (p k : list byte) : bool := bool_decide (take (length p) k = p).
Definition bytes_le (x y : list byte) : bool := match bytes_cmp x y with Gt => false | _ => true end.

(** The loop of [List]: the entries of the page, and whether there are more. *)
Fixpoint list_page (prefix : list byte) (after : option (list byte)) (limit : Z)
    (acc : list Metadata) (es : list (list byte * Commit)) : list Metadata * bool :=
  match es with
  | [] => (acc, false)
  | (_, c) :: es =>
      let k := key (object (metadata c)) in
      if negb (starts_with prefix k) || match after with Some x => bytes_le k x | None => false end
      then list_page prefix after limit acc es
      else if zlen acc =? limit then (acc, true)
      else list_page prefix after limit (acc ++ [metadata c]) es
  end.

(** What a request does before its error is looked at. *)
Definition perform (o : Object) (op : Operation) (unique : list byte) : V Outcome :=
  _ ← volume_object o;
  v ← gets (λ v, v);
  match op with
  | OpCacheRead _ _ _ | OpCacheFill _ _ _ => fail (Refused Unsupported)
  | OpCurrent =>
      c ← lift (ok_or (current (key o) (journal v)) (Refused Missing));
      mret (OHead (metadata c))
  | OpHead ver =>
      c ← lift (ok_or (current (key o) (journal v)) (Refused Missing));
      if negb (bool_decide (version (metadata c) = ver)) then fail (Refused Conflict)
      else mret (OHead (metadata c))
  | OpRead ver offset length => read o ver offset length
  | OpCreate length => m ← put o Absent (loan v) length unique; mret (OWritten m)
  | OpReplace cd length => m ← put o cd (loan v) length unique; mret (OWritten m)
  | OpList limit after =>
      let '(es, more) := list_page (key o) after limit [] (entries (journal v)) in
      mret (OListed es (if more then (λ m, key (object m)) <$> last es else None))
  end.

(** The zeroes a failed read leaves in the loan, [n] pieces from [at_]. *)
Fixpoint zero_loan (len at_ : Z) (n : nat) : V unit :=
  match n with
  | O => mret tt
  | S n =>
      let count := Z.min (len - at_) 256 in
      _ ← write_loan at_ (repeat x00 (Z.to_nat count));
      zero_loan len (at_ + count) n
  end.

Definition is_read (op : Operation) : bool := match op with OpRead _ _ _ => true | _ => false end.

(** The end of [execute], once the closure gave [r]. *)
Definition settle {A} (op : Operation) (r : result Refusal A) : V A :=
  l ← gets loan;
  _ ← match r, l with
      | Err _, Some l => if is_read op then zero_loan (zlen l) 0 (Z.to_nat (div_ceil (zlen l) 256)) else mret tt
      | _, _ => mret tt
      end;
  _ ← match r with Err (Unavailable | BadIntegrity) => set_failed | _ => mret tt end;
  lift (map_err Refused r).

(** [Volume::execute]. *)
Definition execute (o : Object) (op : Operation) (unique : list byte) : V Outcome := λ v,
  if bool_decide (role (geometry (journal v)) = CacheScratch) then (Err (Refused Unsupported), v)
  else if failed v || async_failed v then (Err (Refused Unavailable), v)
  else
    match perform o op unique v with
    | (Ok a, v) => settle op (Ok a) v
    | (Err (Refused r), v) => settle op (Err r) v
    | (Err e, v) => (Err e, v)
    end.

(** ** The cache's volume *)

(** [Volume::current_slot]. *)
Definition current_slot (o : Object) : V Metadata :=
  _ ← volume_object o;
  j ← gets journal;
  c ← lift (ok_or (current (key o) j) (Refused Missing));
  mret (metadata c).

(** [Volume::recycle_cache]. *)
Definition recycle_cache : V unit :=
  v ← gets (λ v, v);
  if failed v || async_failed v then fail (Refused Unavailable)
  else
    let g := geometry (journal v) in
    if negb (bool_decide (role g = CacheScratch)) then fail (Refused Denied)
    else
      let a := alignment g in
      _ ← io (obtain NoCapacity);
      _ ← io (obtain Unavailable);
      _ ← (λ v, match io (_ ← zero_range a (log_offset g) (Z.to_nat (div_ceil (data_offset g - log_offset g) a));
                          dev_flush) v with
                | (Err (Refused r), v) => (_ ← set_failed; fail (Refused r)) v
                | x => x
                end : result Stop unit * Volume);
      j ← or_refuse BadIntegrity (journal_new g);
      set_journal j.

End volume.
