(* ===== verification/StoreState.v ===== *)
(** * A volume on its device

    What a device holds when a volume is on it, in terms no crash can change, and the abstract
    store it stands for: a map from keys to metadata and contents. *)

From S2P Require Import Prelude StoreFormat StoreCodec StoreTree StoreProof StoreJournal StoreBanks StoreDisk StoreCrash StoreLog StoreRoot StoreVolume.

(** A write that changes one sector is done or not. *)
Lemma wrote_one z off A B d d' d'' :
  (0 < z)%nat → wrote z off B d d' → holds z d off A → length (chunks z A) = length (chunks z B) →
  (∀ k, (0 < k)%nat → chunks z A !! k = chunks z B !! k) → crash d' d'' →
  holds z d'' off A ∨ holds z d'' off B.
Proof.
  intros Hz [_ W] H L E [Hp Hd].
  assert (∀ k s, (0 < k)%nat → chunks z B !! k = Some s → stable d'' (off / Z.of_nat z + Z.of_nat k) s) as Rest.
  { intros k s Hk HB t Ht. unfold images in Ht. rewrite Hp in Ht. simpl in Ht. apply list_elem_of_singleton in Ht as ->.
    pose proof (H k s) as HA. rewrite E in HA by done. specialize (HA HB).
    destruct (W k s HB _ (Hd _)) as [->|?%HA]; done. }
  assert (∀ t, t ∈ images d'' (off / Z.of_nat z + Z.of_nat 0) → t = durable d'' (off / Z.of_nat z + Z.of_nat 0)) as First.
  { intros t Ht. unfold images in Ht. rewrite Hp in Ht. by apply list_elem_of_singleton in Ht. }
  destruct (chunks z B !! 0%nat) as [b0|] eqn:B0.
  - destruct (W 0%nat b0 B0 _ (Hd _)) as [Hb|Hin].
    + right. intros k s Hk. destruct k as [|k]; [|by apply Rest; [lia|]].
      rewrite B0 in Hk. injection Hk as <-. intros t Ht%First. congruence.
    + left. intros k s Hk. destruct k as [|k]; [|by apply Rest; [lia|rewrite <- E by lia]].
      intros t ->%First. by apply (H 0%nat s Hk).
  - left. intros k s Hk. apply lookup_lt_Some in Hk. apply lookup_ge_None in B0. lia.
Qed.

(** The keys of a store, with what is stored under them. *)
Abbreviation Store := (list byte → option (Metadata * list byte)).

Section state.
Context {BL : Blake3}.
Variable i : Info.
Hypothesis i_ok : info_ok i.

Abbreviation z := (z i).
Abbreviation holds := (holds z).
Abbreviation whole := (whole z).

(** ** Contents *)

(** The blocks an object's bytes are written as, and the digests of the lowest level. *)
Definition blocks_of (a : Z) (content : list byte) : list (list byte) := padded a <$> chunks (Z.to_nat a) content.

(** [content] and its tree are where the commit [c] says, as [P] tells. *)
Definition stored_by (P : Z → list byte → Prop) (g : Superblock) (c : Commit) (content : list byte) : Prop :=
  let a := alignment g in
  let f := Z.to_nat (a / 32) in
  zlen content = bytes (metadata c) ∧ content_hash c = blake3 content ∧
  match location c with
  | Extent off pad tree rt =>
      (content ≠ [] → commits (blocks_of a content) g c) ∧ P off (concat (blocks_of a content)) ∧
      ∀ n l, tree !! n = Some l →
        P (lv_offset l) (concat (level_pages f (digests f (blake3 <$> blocks_of a content) n)))
  | File _ => False
  end.

(** No crash changes them. *)
Definition stored (d : Disk) : Superblock → Commit → list byte → Prop := stored_by (holds d).

Lemma stored_mono (P Q : Z → list byte → Prop) g c content :
  (∀ off bs, P off bs → Q off bs) → stored_by P g c content → stored_by Q g c content.
Proof.
  intros H (Hl & Hh & Hloc). split; [done|]. split; [done|]. destruct (location c); [done|].
  destruct Hloc as (Hc & Hb & Ht). split; [done|]. split; [by apply H|]. intros n l Hl'. by apply H, Ht.
Qed.

(** ** The log *)

(** The pairs of cells from one journal to another. *)
Inductive chain (d : Disk) : Journal → Journal → Prop :=
| chain_nil j : chain d j j
| chain_cons j0 record receipt j1 j2 :
    has_capacity j0 = true → zlen record = cell j0 → zlen receipt = cell j0 →
    holds d (log j0) record → holds d (log j0 + cell j0) receipt →
    replay record receipt j0 = Ok (true, j1) → chain d j1 j2 → chain d j0 j2.

Lemma chain_snoc d j0 j1 record receipt j2 :
  chain d j0 j1 → has_capacity j1 = true → zlen record = cell j1 → zlen receipt = cell j1 →
  holds d (log j1) record → holds d (log j1 + cell j1) receipt →
  replay record receipt j1 = Ok (true, j2) → chain d j0 j2.
Proof.
  induction 1 as [j|j0 rec rcp j1' j' Hc L1 L2 H1 H2 R C IH]; intros Hc' L1' L2' H1' H2' R'.
  - exact (chain_cons d j record receipt j2 j2 Hc' L1' L2' H1' H2' R' (chain_nil d j2)).
  - eapply chain_cons; [exact Hc|exact L1|exact L2|exact H1|exact H2|exact R|]. auto.
Qed.

Lemma chain_ok d j0 j : chain d j0 j → journal_ok j0 →
  journal_ok j ∧ geometry j = geometry j0 ∧ cell j = cell j0 ∧ log j0 ≤ log j.
Proof.
  induction 1 as [j|j0 rec rcp j1 j2 Hc L1 L2 H1 H2 R C IH]; intros J; [done|].
  destruct (replay_inv _ _ _ _ J R) as (c & Cc & V & ->). destruct (IH (advance_ok c j0 J Cc V)) as (J2 & G & Ec & Hl).
  simpl in *. pose proof (jo_cell_range j0 J). split_and!; [done..|lia].
Qed.

(** The receipt cells that are not written yet. *)
Definition tail_zero (d : Disk) (j : Journal) : Prop :=
  ∀ k : nat, log j + 2 * cell j * (Z.of_nat k + 1) ≤ data_offset (geometry j) →
    holds d (log j + 2 * cell j * Z.of_nat k + cell j) (repeat x00 (Z.to_nat (cell j))).

(** ** The volume *)

Record vol (d : Disk) (r : Root) (old : option Root) (j : Journal) (m : Store) : Prop := {
  vo_root : root_ok r;
  vo_encodes : ∃ e, root_encode r = Ok e;
  vo_role : is_mountable (role (root_geometry r)) = true;
  vo_physical : physical r = cap i;
  vo_align : whole (alignment (root_geometry r)) ∧ alignment (root_geometry r) ≤ max_bytes i;
  vo_cell : holds d (slot r) (cell_of r);
  vo_other : holds d (alignment (root_geometry r) - slot r) (other_cell r old);
  vo_follows : follows r old;
  vo_log : ∃ j0, journal_new (root_geometry r) = Ok j0 ∧ chain d j0 j;
  vo_tail : tail_zero d j;
  vo_store : ∀ k, match current k j, m k with
                  | Some c, Some (md, content) => md = metadata c ∧ stored d (root_geometry r) c content
                  | None, None => True
                  | _, _ => False
                  end;
}.

Lemma vol_journal d r old j m : vol d r old j m → journal_ok j ∧ geometry j = root_geometry r.
Proof.
  intros V. destruct (vo_log _ _ _ _ _ V) as (j0 & E & C). destruct (vo_root _ _ _ _ _ V) as (_ & _ & W & _).
  destruct (journal_new_Ok _ _ W E) as (J & G & _). destruct (chain_ok _ _ _ C J) as (J' & G' & _). split; [done|congruence].
Qed.

(** ** Lengths *)

Lemma zlen_concat_uniform (l : list (list byte)) a : Forall (λ x, zlen x = a) l → zlen (concat l) = zlen l * a.
Proof. induction 1 as [|x l Hx _ IH]; [done|]. simpl. rewrite zlen_app, zlen_cons, IH, Hx. lia. Qed.

Lemma blocks_of_spec a content : 0 < a →
  Forall (λ x, zlen x = a) (blocks_of a content) ∧ zlen (blocks_of a content) = div_ceil (zlen content) a.
Proof.
  intros Ha. split.
  - apply Forall_fmap, Forall_forall. intros x Hx. simpl. apply zlen_padded.
    apply (chunks_sub (Z.to_nat a) ltac:(lia)) in Hx as [Hx _]. unfold zlen. lia.
  - unfold zlen at 1, blocks_of. rewrite length_fmap. fold (zlen (chunks (Z.to_nat a) content)).
    rewrite zlen_chunks by lia. by rewrite Z2Nat.id by lia.
Qed.

Lemma level_pages_uniform f ds : (16 ≤ f)%nat → Forall (λ d : list byte, length d = 32%nat) ds →
  Forall (λ x, zlen x = 32 * Z.of_nat f) (level_pages f ds).
Proof.
  intros Hf Hd. apply Forall_fmap, Forall_forall. intros ch Hch. simpl.
  apply (chunks_sub f ltac:(lia)) in Hch as [Hl Hs]. apply node_page_length; [done| |done].
  apply Forall_forall. intros x Hx. rewrite Forall_forall in Hd. by apply Hd, Hs.
Qed.

Lemma blake3_digests (l : list (list byte)) : Forall (λ d : list byte, length d = 32%nat) (blake3 <$> l).
Proof. apply Forall_fmap, Forall_forall. intros x _. apply blake3_length. Qed.

(** Where the parts of a committed object lie. *)
Lemma stored_places g c content off pad tree rt :
  superblock_ok g → validate_in c g = Ok tt → location c = Extent off pad tree rt → zlen content = bytes (metadata c) →
  let a := alignment g in let f := Z.to_nat (a / 32) in
  data_offset g ≤ off ∧ off mod a = 0 ∧ zlen (concat (blocks_of a content)) = pad ∧ pad mod a = 0 ∧
  off + pad ≤ location_end a (location c) ∧
  ∀ n l, tree !! n = Some l →
    zlen (concat (level_pages f (digests f (blake3 <$> blocks_of a content) n))) = lv_nodes l * a ∧
    off + pad ≤ lv_offset l ∧ lv_offset l mod a = 0 ∧ lv_offset l + lv_nodes l * a ≤ location_end a (location c).
Proof.
  intros W V El Hlen a f. destruct (validate_in_extent _ _ _ _ _ _ V El) as (G & _ & _ & _ & X).
  destruct (go_align g G) as (f' & Hf & Ha). assert (f = f') as ->.
  { unfold f, a. rewrite Ha, Z.mul_comm, Z.div_mul by done. lia. }
  fold a in Ha. destruct (blocks_of_spec a content ltac:(lia)) as [Hu Hn].
  pose proof (xo_padded _ _ _ _ _ _ X) as Hp. rewrite <- Hlen in Hp. fold a in Hp.
  pose proof (xo_data _ _ _ _ _ _ X). pose proof (xo_end _ _ _ _ _ _ X). pose proof (xo_aligned _ _ _ _ _ _ X) as Hm. fold a in Hm.
  pose proof (zlen_nonneg content) as Hnn. pose proof (div_ceil_nonneg (zlen content) a ltac:(lia) Hnn) as Hdn.
  pose proof (go_log g G). pose proof (go_data g G).  destruct W as (_ & _ & _ & Wlb & _). unfold in_width in Wlb.
  assert ((off + pad) mod a = 0) as Hm2 by (by rewrite Hp, Z.mod_add by lia).
  assert (0 ≤ pad) by nia. rewrite El. simpl.
  split; [done|]. split; [done|]. split; [by rewrite (zlen_concat_uniform _ a Hu), Hn|].
  split; [rewrite Hp; apply Z.mod_mul; lia|]. destruct (decide (zlen content = 0)) as [E0|E0].
  - destruct (xo_empty _ _ _ _ _ _ X ltac:(lia)) as [-> _]. simpl. split; [lia|]. by intros n l ?.
  - destruct (xo_tree _ _ _ _ _ _ X ltac:(lia)) as [Hne Hc]. rewrite <- Hlen in Hc. fold a in Hc.
    destruct (tree_end_ge f' a (capacity g) Hf Ha (off + pad) _ tree 1 ltac:(lia) Hdn Hm2 Hc ltac:(lia)) as [? _].
    split; [lia|]. intros n l Hl.
    destruct (tree_level_bounds f' a (capacity g) Hf Ha (off + pad) _ tree 1 n l ltac:(lia) Hdn Hm2 Hc ltac:(lia) Hl) as (? & ? & ? & ?).
    split_and!; try done. set (ds := blake3 <$> blocks_of a content).
    assert (zlen ds = div_ceil (zlen content) a) as Lds by (unfold zlen, ds; rewrite length_fmap; exact Hn).
    rewrite <- Lds in Hc. destruct (check_levels_spec f' a (capacity g) Hf Ha ds 0 (off + pad) tree 1 ltac:(lia) Hc) as [_ Hlev].
    destruct (Hlev n l Hl) as (Hnodes & _). simpl plus in Hnodes.
    assert (Forall (λ x, zlen x = a) (level_pages f' (digests f' ds n))) as Hlp.
    { rewrite Ha. apply level_pages_uniform; [done|]. apply digests_ok, blake3_digests. }
    by rewrite (zlen_concat_uniform _ a Hlp), zlen_level_pages, Hnodes, zlen_digests.
Qed.

(** ** What a volume occupies *)

(** What is held in the bytes [lo, hi) is held after. *)
Definition keeps (lo hi : Z) (d d' : Disk) : Prop :=
  ∀ off bs, lo ≤ off → off + zlen bs ≤ hi → whole off → whole (zlen bs) → holds d off bs → holds d' off bs.

Lemma keeps_torn lo hi d d' : torn d d' → keeps lo hi d d'.
Proof. intros C off bs _ _ _ _. by apply holds_torn. Qed.

Lemma keeps_crash lo hi d d' : crash d d' → keeps lo hi d d'.
Proof. intros C%crash_torn. by apply keeps_torn. Qed.

Lemma keeps_trans lo hi d1 d2 d3 : keeps lo hi d1 d2 → keeps lo hi d2 d3 → keeps lo hi d1 d3.
Proof. intros H1 H2 off bs ? ? ? ? H. apply H2; try done. by apply H1. Qed.

Lemma keeps_touches lo hi lo' hi' d d' :
  0 ≤ lo → touches z lo' hi' d d' → hi ≤ lo' ∨ hi' ≤ lo → keeps lo hi d d'.
Proof.
  intros H0 T Hap off bs Hlo Hhi Wo Wb H. pose proof (zlen_nonneg bs).
  eapply holds_touches; [by apply z_pos|exact T|done|lia|done|done|lia].
Qed.

Lemma whole_mod x a : whole a → 0 < a → x mod a = 0 → whole x.
Proof.
  intros Wa Ha Hx. rewrite (Z.div_mod x a), Hx, Z.add_0_r by lia. by apply whole_mul.
Qed.

Lemma zlen_zeroes n : 0 ≤ n → zlen (repeat x00 (Z.to_nat n)) = n.
Proof. intros. unfold zlen. rewrite repeat_length. lia. Qed.

Lemma stored_keeps d d' g c content e :
  superblock_ok g → validate_in c g = Ok tt → whole (alignment g) → location_end (alignment g) (location c) ≤ e →
  keeps (data_offset g) e d d' → stored d g c content → stored d' g c content.
Proof.
  intros W V Wa He K (Hl & Hh & Hloc). split; [done|]. split; [done|]. destruct (location c) as [|off pad tree rt] eqn:El; [done|].
  destruct Hloc as (Hc & Hb & Ht). split; [done|].
  destruct (stored_places _ c content off pad tree rt W V El Hl) as (P1 & P2 & P3 & P4 & P5 & P6). rewrite El in *.
  destruct (validate_in_extent _ _ _ _ _ _ V El) as (G & _). destruct (go_align _ G) as (f & Hf & Ha).
  assert (0 ≤ pad) by (rewrite <- P3; apply zlen_nonneg). split.
  - apply K; [lia|rewrite P3; lia| |rewrite P3|done]; by eapply whole_mod; [done|lia|].
  - intros n l Hn. destruct (P6 n l Hn) as (Q1 & Q2 & Q3 & Q4).
    apply K; [lia|rewrite Q1; lia|by eapply whole_mod; [done|lia|]| |by apply Ht].
    rewrite Q1. apply (whole_mod _ (alignment g)); [done|lia|apply Z.mod_mul; lia].
Qed.

Lemma chain_keeps d d' j0 j e :
  chain d j0 j → journal_ok j0 → whole (cell j0) → whole (log j0) → log_offset (geometry j0) ≤ log j0 → log j ≤ e →
  keeps (log_offset (geometry j0)) e d d' → chain d' j0 j.
Proof.
  induction 1 as [j|j0 rec rcp j1 j2 Hc L1 L2 H1 H2 R C IH]; intros J Wc Wl Hlo Hx K; [constructor|].
  destruct (replay_inv _ _ _ _ J R) as (c & Cc & V & Ej). pose proof (advance_ok c j0 J Cc V) as J1. rewrite <- Ej in J1.
  destruct (chain_ok _ _ _ C J1) as (_ & _ & _ & Hle). pose proof (jo_cell_range j0 J).
  assert (log j1 = log j0 + 2 * cell j0) as E1 by (by rewrite Ej).
  eapply chain_cons; [done|exact L1|exact L2| | |exact R|].
  - apply K; [lia|rewrite L1; lia|done|by rewrite L1|done].
  - apply K; [lia|rewrite L2; lia|by apply whole_add|by rewrite L2|done].
  - apply IH; [done|by rewrite Ej| |rewrite Ej; simpl; lia|done|by rewrite Ej].
    rewrite E1. apply whole_add; [done|done|]. rewrite Z.mul_comm. by apply whole_mul.
Qed.

Lemma vol_two_cells d r old j m : vol d r old j m →
  2 * alignment (geometry j) ≤ log_offset (geometry j) ∧ capacity (geometry j) ≤ cap i.
Proof.
  intros V. destruct (vol_journal _ _ _ _ _ V) as [J ->]. rewrite <- (vo_physical _ _ _ _ _ V).
  apply root_bounds, (vo_root _ _ _ _ _ V).
Qed.

Lemma other_length d r old j m : vol d r old j m → zlen (other_cell r old) = alignment (root_geometry r).
Proof.
  intros V. destruct (vol_journal _ _ _ _ _ V) as [J G]. pose proof (vo_follows _ _ _ _ _ V) as Hf.
  destruct (go_align _ (jo_geometry j J)) as (f & Hf16 & Ha). rewrite G in Ha.
  destruct old as [o|]; simpl; [|apply zlen_zeroes; lia]. destruct Hf as (Ro & Hn & eo & Eo).
  destruct (zlen_cell_of o eo Eo) as [_ ->]. destruct (root_next_Ok o r Ro Hn) as (_ & _ & _ & _ & Hal & _). by symmetry.
Qed.

(** Where the cells of a log lie. *)
Lemma log_whole j : journal_ok j → whole (alignment (geometry j)) →
  whole (cell j) ∧ whole (log_offset (geometry j)) ∧ whole (log j) ∧ log_offset (geometry j) ≤ log j.
Proof.
  intros J Wa. pose proof (jo_geometry j J) as G. destruct (go_align _ G) as (f & Hf & Ha).
  destruct (jo_cell_range j J) as [Hcell Hcm]. pose proof (go_multiples _ G) as (_ & M2 & _).
  assert (whole (cell j)) as Wc by (by eapply whole_mod; [exact Wa|lia|]).
  assert (whole (log_offset (geometry j))) as Wlo by (by eapply whole_mod; [exact Wa|lia|]).
  destruct (jo_log j J) as [k Hk]. split_and!; [done|done| |nia]. rewrite Hk. apply whole_add; [done|done|].
  rewrite (Z.mul_comm 2), <- Z.mul_assoc. by apply whole_mul.
Qed.

Lemma tail_keeps d d' j : journal_ok j → whole (alignment (geometry j)) →
  keeps (log j + cell j) (data_offset (geometry j)) d d' → tail_zero d j → tail_zero d' j.
Proof.
  intros J Wa K T k Hk. destruct (jo_cell_range j J) as [Hcell _]. destruct (log_whole j J Wa) as (Wc & _ & Wl & _).
  apply K; [nia|rewrite zlen_zeroes by lia; nia| |by rewrite zlen_zeroes by lia|by apply T].
  apply whole_add; [done| |done]. apply whole_add; [done|done|]. rewrite (Z.mul_comm 2), <- Z.mul_assoc. by apply whole_mul.
Qed.

(** ** A bank *)

(** A log and the objects it commits, in the bytes of the geometry [g], whatever the root cells
    say. *)
Record banked (d : Disk) (g : Superblock) (j : Journal) (m : Store) : Prop := {
  bk_typed : superblock_ok g;
  bk_align : whole (alignment g);
  bk_log : ∃ j0, journal_new g = Ok j0 ∧ chain d j0 j;
  bk_tail : tail_zero d j;
  bk_store : ∀ k, match current k j, m k with
                  | Some c, Some (md, content) => md = metadata c ∧ stored d g c content
                  | None, None => True
                  | _, _ => False
                  end;
}.

Lemma vol_is_bank d r old j m : vol d r old j m → banked d (root_geometry r) j m.
Proof. intros [(_ & _ & W & _) _ _ _ [Wa _] _ _ _ Hl Ht Hs]. by split. Qed.

Lemma bank_journal d g j m : banked d g j m → journal_ok j ∧ geometry j = g.
Proof.
  intros [W _ (j0 & E & C) _ _]. destruct (journal_new_Ok _ _ W E) as (J & G & _).
  destruct (chain_ok _ _ _ C J) as (J' & G' & _). split; [done|congruence].
Qed.

Lemma bank_change d d' g j m :
  banked d g j m → keeps (log_offset g) (log j) d d' → keeps (data_offset g) (data j) d d' → tail_zero d' j → banked d' g j m.
Proof.
  intros B Kl Kd Kt. destruct (bank_journal _ _ _ _ B) as [J G]. destruct B as [W Wa (j0 & E0 & C) _ Hst].
  destruct (journal_new_Ok _ _ W E0) as (J0 & G0 & _ & Elog & _). rewrite <- G in Wa.
  destruct (log_whole j J Wa) as (Wc & Wlo & Wl & Hlo). destruct (chain_ok _ _ _ C J0) as (_ & Gj & Ec & _). rewrite G in Wlo.
  split; try done.
  - by rewrite <- G.
  - exists j0. split; [done|]. apply (chain_keeps d d' j0 j (log j) C J0); [by rewrite <- Ec|by rewrite Elog| |done|by rewrite G0].
    by rewrite Elog, G0.
  - intros k. specialize (Hst k). destruct (current k j) as [c|] eqn:Ek; [|done]. destruct (m k) as [[md ct]|]; [|done].
    destruct Hst as [-> Hst]. split; [done|]. apply smap_get_elem in Ek.
    destruct (jo_entries j J k c Ek) as (_ & _ & Vi & _ & Hend). rewrite G in Vi, Hend.
    apply (stored_keeps d _ _ _ _ (data j)); try done. by rewrite <- G.
Qed.

(** The volume from its parts. *)
Lemma vol_change d d' r old old' j m :
  vol d r old j m → keeps (log_offset (geometry j)) (log j) d d' → keeps (data_offset (geometry j)) (data j) d d' →
  tail_zero d' j → holds d' (slot r) (cell_of r) →
  holds d' (alignment (root_geometry r) - slot r) (other_cell r old') →
  follows r old' → vol d' r old' j m.
Proof.
  intros V Kl Kd Kt Kc Ko Kf. destruct (vol_journal _ _ _ _ _ V) as [J G]. rewrite G in Kl, Kd.
  destruct (bank_change _ d' _ _ _ (vol_is_bank _ _ _ _ _ V) Kl Kd Kt) as [_ _ Hl _ Hs]. destruct V as [Hr He Hrole Hp Ha _ _ _ _ _ _].
  by split.
Qed.

(** All a volume needs is kept. *)
Definition keeps_vol (j : Journal) (d d' : Disk) : Prop :=
  keeps 0 (2 * alignment (geometry j)) d d' ∧ keeps (log_offset (geometry j)) (log j) d d' ∧
  keeps (log j + cell j) (data_offset (geometry j)) d d' ∧ keeps (data_offset (geometry j)) (data j) d d'.

Lemma vol_keeps d d' r old j m : keeps_vol j d d' → vol d r old j m → vol d' r old j m.
Proof.
  intros (K0 & Kl & Kt & Kd) V. destruct (vol_journal _ _ _ _ _ V) as [J G]. destruct (vo_encodes _ _ _ _ _ V) as (e & He).
  destruct (zlen_cell_of r e He) as [_ Lc]. pose proof (other_length _ _ _ _ _ V) as Lo.
  destruct (vo_align _ _ _ _ _ V) as [Wa _]. destruct (go_align _ (jo_geometry j J)) as (f & Hf & Ha). rewrite G in Ha, K0.
  set (a := alignment (root_geometry r)) in *.
  assert (slot r = 0 ∨ slot r = a) as Hslot by (destruct (slot_cases r (vo_root _ _ _ _ _ V)) as [[-> _]|[-> _]]; auto).
  eapply vol_change; [exact V|done|done| | | |apply V].
  - eapply tail_keeps; [done|by rewrite G|done|apply V].
  - apply K0; [lia|rewrite Lc; lia|by destruct Hslot as [->| ->]|by rewrite Lc|apply V].
  - apply K0; [fold a; lia|rewrite Lo; fold a; lia|fold a; by destruct Hslot as [->| ->]; rewrite ?Z.sub_0_r, ?Z.sub_diag|by rewrite Lo|apply V].
Qed.

Lemma vol_torn d d' r old j m : torn d d' → vol d r old j m → vol d' r old j m.
Proof. intros C. apply vol_keeps. split_and!; by apply keeps_torn. Qed.

Lemma vol_crash d d' r old j m : crash d d' → vol d r old j m → vol d' r old j m.
Proof. intros C%crash_torn. by apply vol_torn. Qed.

(** Bytes the volume does not need: past its data, the next commit's cell, the other bank. *)
Definition free (j : Journal) (lo hi : Z) : Prop :=
  data j ≤ lo ∨ (log j ≤ lo ∧ hi ≤ log j + cell j ∧ hi ≤ data_offset (geometry j)) ∨
  (2 * alignment (geometry j) ≤ lo ∧ hi ≤ log_offset (geometry j)).

Lemma bank_touches d d' g j m lo hi :
  banked d g j m → data j ≤ lo ∨ (log j ≤ lo ∧ hi ≤ log j + cell j ∧ hi ≤ data_offset g) ∨ hi ≤ log_offset g →
  touches z lo hi d d' → banked d' g j m.
Proof.
  intros B Hf T. destruct (bank_journal _ _ _ _ B) as [J G]. pose proof (jo_data j J). pose proof (jo_log_end j J). rewrite G in *.
  destruct (jo_cell_range j J) as [Hc _]. pose proof (jo_geometry j J) as GG. rewrite G in GG. destruct (go_align _ GG) as (f & Hf16 & Ha).
  pose proof (bk_align _ _ _ _ B) as Wa. pose proof Wa as Wa'. rewrite <- G in Wa'. destruct (log_whole j J Wa') as (_ & _ & _ & Hlo). rewrite G in Hlo.
  pose proof (bk_typed _ _ _ _ B) as (_ & _ & [Wl _] & _).
  apply (bank_change d); [done|..].
  - eapply keeps_touches; [|exact T|]; lia.
  - eapply keeps_touches; [|exact T|]; lia.
  - eapply (tail_keeps d); [done|done| |apply B]. rewrite G. eapply keeps_touches; [|exact T|]; lia.
Qed.

Lemma vol_touches d d' r old j m lo hi :
  vol d r old j m → free j lo hi → touches z lo hi d d' → vol d' r old j m.
Proof.
  intros V Hf T. destruct (vol_journal _ _ _ _ _ V) as [J G]. destruct (vol_two_cells _ _ _ _ _ V) as [H2 _].
  pose proof (jo_data j J). pose proof (jo_log_end j J). destruct (jo_cell_range j J) as [Hc _].
  pose proof (jo_geometry j J) as GG. destruct (go_align _ GG) as (f & Hf16 & Ha).
  destruct (jo_log j J) as [k Hk]. assert (log_offset (geometry j) ≤ log j) by nia. unfold free in Hf.
  eapply vol_keeps; [|exact V]. split_and!; (eapply keeps_touches; [|exact T|]); lia.
Qed.

End state.
