(* ===== verification/StoreMount.v ===== *)
(** * Mounting

    A mount finds the volume a device holds: its root, its journal, and with it the store;
    and whatever interrupts it, the next one finds them too. *)

From S2P Require Import Prelude StoreFormat StoreCodec StoreTree StoreProof StoreJournal StoreBanks StoreDisk StoreCrash StoreLog StoreRoot StoreVolume StoreState.

(** ** Operations with what they leave, done or stopped *)

Definition spec {A} (f : D A) (s : Dev) (P : A → Dev → Prop) (F : Stop → Dev → Prop) : Prop :=
  wp f (λ r s', ran s s' r ∧ match r with Ok a => P a s' | Err e => F e s' end) s.

(** The ways an environment stops an operation. *)
Definition outside (e : Stop) : Prop :=
  match e with Refused (NoCapacity | Unavailable | Busy) | Crashed => True | _ => False end.

Lemma spec_bind {A B} (f : D A) (k : A → D B) s P F P1 F1 :
  spec f s P1 F1 → (∀ a s1, info s1 = info s → P1 a s1 → spec (k a) s1 P F) → (∀ e s1, F1 e s1 → F e s1) →
  spec (f ≫= k) s P F.
Proof.
  unfold spec. intros H Hk HF. apply wp_bind. eapply wp_mono; [exact H|]. intros [a|e] s1 [R Q].
  - eapply wp_mono; [apply Hk; [apply R|exact Q]|]. intros r s2 [R2 Q2]. split; [by eapply ran_bind|done].
  - split; [by eapply ran_stop|]. by apply HF.
Qed.

Lemma spec_ret {A} (a : A) s (P : A → Dev → Prop) F : P a s → spec (mret a) s P F.
Proof. intros H. split; [apply ran_refl|done]. Qed.

Lemma spec_gets {A B} (g : Dev → A) (k : A → D B) s P F : spec (k (g s)) s P F → spec (gets g ≫= k) s P F.
Proof. done. Qed.

Lemma spec_Ok {A B} e (c : result Error A) a (k : A → D B) s P F :
  c = Ok a → spec (k a) s P F → spec (or_refuse e c ≫= k) s P F.
Proof. by intros ->. Qed.

Lemma spec_mono {A} (f : D A) s P F (P' : A → Dev → Prop) (F' : Stop → Dev → Prop) :
  spec f s P F → (∀ a s', P a s' → P' a s') → (∀ e s', F e s' → F' e s') → spec f s P' F'.
Proof. unfold spec. intros H HP HF. eapply wp_mono; [exact H|]. intros [a|e] s' [R Q]; (split; [done|auto]). Qed.

(** Something asked of the kernel changes nothing on the device. *)
Lemma spec_obtain {A} e (k : unit → D A) s P (F : Stop → Dev → Prop) :
  (∀ s1, info s1 = info s → disk s1 = disk s → has_pending s1 = has_pending s → spec (k tt) s1 P F) →
  (∀ s1, disk s1 = disk s → F (Refused e) s1) → (∀ s1, disk s1 = disk s → F Crashed s1) →
  spec (obtain e ≫= k) s P F.
Proof.
  unfold spec. intros Hk HF HC. apply wp_bind. eapply wp_mono; [apply obtain_spec|]. intros r s1 (R & D & [->|[->| ->]]).
  - eapply wp_mono; [apply Hk; [apply R|done|apply R]|]. intros r2 s2 [R2 Q2]. split; [by eapply ran_bind|done].
  - split; [by eapply ran_stop|]. by apply HF.
  - split; [by eapply ran_stop|]. by apply HC.
Qed.

Lemma spec_flush s :
  spec dev_flush s (λ _ s', disk s' = flushed (disk s) ∧ has_pending s' = false)
    (λ e s', disk s' = disk s ∧ outside e ∧ e ≠ Refused NoCapacity ∧ (e = Refused Busy → has_pending s = true)).
Proof.
  unfold spec. eapply wp_mono; [apply dev_flush_spec|]. intros r s' (R & O & Q). split; [done|].
  destruct r as [u|e]; [destruct Q as [-> Hp]; split; [done|]; by destruct R as (_ & -> & _)|].
  destruct R as (_ & Hp & _), Q as [-> Hb].
  destruct e as [[]| |]; simpl in O; try (exfalso; set_solver); split_and!; try done; auto.
Qed.

Section device.
Variable i : Info.
Hypothesis i_ok : info_ok i.

Abbreviation z := (z i).

Lemma spec_write off bs s :
  info s = i → 0 ≤ off → whole z off → whole z (zlen bs) → off + zlen bs ≤ cap i →
  spec (write_aligned off bs) s (λ _ s', wrote z off bs (disk s) (disk s') ∧ seen z (disk s') off bs ∧ has_pending s' = has_pending s)
    (λ e s', outside e ∧ wrote z off bs (disk s) (disk s') ∧
       (e = Refused Busy → disk s' = disk s ∧ has_pending s' = true) ∧
       (e = Refused NoCapacity → zlen bs ≤ max_bytes i → disk s' = disk s)).
Proof.
  intros Hi Ho Wo Wb Hc. unfold spec. eapply wp_mono; [by apply (write_aligned_spec i i_ok)|]. intros r s' (R & O & W & Q). split; [done|].
  destruct r as [u|e]; [split_and!; try done; apply R|].
  destruct e as [[]| |]; simpl in O; try (exfalso; set_solver); split_and!; try done.
  intros _. destruct Q as [-> Hp]. split; [done|]. by destruct R as (_ & -> & _).
Qed.

Lemma spec_read_block off len s :
  info s = i → 0 ≤ off → whole z off → whole z len → 0 < len ≤ max_bytes i → off + len ≤ cap i →
  spec (read_block off len) s (λ bs s', bs = dbytes i (disk s) off len ∧ disk s' = disk s)
    (λ e s', disk s' = disk s ∧ outside e).
Proof.
  intros Hi Ho Wo Wb Hl Hc. unfold spec. eapply wp_mono; [by apply (read_block_spec i i_ok)|]. intros r s' (R & D & O & Q). split; [done|].
  destruct r as [bs|e]; [done|]. split; [done|]. destruct e as [[]| |]; simpl in *; try done; set_solver.
Qed.

Lemma spec_read off len s :
  info s = i → 0 ≤ off → whole z off → 0 ≤ len → whole z len → off + len ≤ cap i →
  spec (read_aligned off len) s (λ bs s', bs = dbytes i (disk s) off len ∧ disk s' = disk s)
    (λ e s', disk s' = disk s ∧ outside e).
Proof.
  intros Hi Ho Wo Hl Wb Hc. unfold spec. eapply wp_mono; [by apply (read_aligned_spec i i_ok)|]. intros r s' (R & D & O & Q). split; [done|].
  destruct r as [bs|e]; [done|]. split; [done|]. destruct e as [[]| |]; simpl in *; try done; set_solver.
Qed.

End device.

(** ** Cells of one sector *)

Lemma padded_tail i e a k :
  info_ok i → zlen e ≤ sector_size i → zlen e ≤ a → whole (z i) a → (0 < k)%nat →
  chunks (z i) (padded a e) !! k = chunks (z i) (repeat x00 (Z.to_nat a)) !! k.
Proof.
  intros Hi He Ha Wa Hk. pose proof (z_pos i Hi) as Hz. pose proof (z_size i Hi) as Es. pose proof (zlen_nonneg e).
  assert (zlen (padded a e) = a) as L1 by (by apply zlen_padded).
  assert (zlen (repeat x00 (Z.to_nat a)) = a) as L2 by (apply zlen_zeroes; lia).
  assert (length (chunks (z i) (padded a e)) = length (chunks (z i) (repeat x00 (Z.to_nat a)))) as L.
  { rewrite !(length_chunks _ _ (Z.to_nat (a / Z.of_nat (z i))) Hz); [done| |].
    - rewrite <- L2 at 2. apply whole_length; [done|]. by rewrite L2.
    - rewrite <- L1 at 2. apply whole_length; [done|]. by rewrite L1. }
  destruct (chunks (z i) (padded a e) !! k) as [c|] eqn:E1, (chunks (z i) (repeat x00 (Z.to_nat a)) !! k) as [c'|] eqn:E2.
  - apply chunks_lookup in E1, E2; [|done..]. f_equal. rewrite E1, E2. f_equal. unfold padded.
    assert (length e ≤ k * z i)%nat by (unfold zlen in *; nia). rewrite drop_app_ge, !drop_repeat by lia.
    f_equal. unfold zlen in *. lia.
  - apply lookup_lt_Some in E1. apply lookup_ge_None in E2. lia.
  - apply lookup_lt_Some in E2. apply lookup_ge_None in E1. lia.
  - done.
Qed.

Section mount.
Context {BL : Blake3}.
Variable i : Info.
Hypothesis i_ok : info_ok i.

Abbreviation z := (StoreCrash.z i).
Abbreviation vol := (vol i).

(** ** The log *)

Lemma read_held d off len bs s :
  disk s = d → zlen bs = len → whole z len → holds z d off bs → dbytes i (disk s) off len = bs.
Proof. intros -> <- Wb H. apply seen_dbytes; [done|done|]. by apply holds_seen. Qed.

Lemma replay_log_spec fuel j0 j s :
  info s = i → journal_ok j0 → chain i (disk s) j0 j → tail_zero i (disk s) j → data_offset (geometry j0) ≤ cap i →
  whole z (cell j0) → whole z (log j0) → data_offset (geometry j0) - log j0 < 2 * cell j0 * Z.of_nat fuel →
  spec (replay_log fuel j0) s (λ j' s', j' = j ∧ disk s' = disk s) (λ e s', disk s' = disk s ∧ outside e).
Proof.
  intros Hi J C T Hcap Wc Wl. revert s j0 Hi J C T Hcap Wc Wl.
  induction fuel as [|fuel IH]; intros s j0 Hi J C T Hcap Wc Wl Hf.
  { pose proof (jo_log_end j0 J). lia. }
  destruct (jo_cell_range j0 J) as [Hcr _]. pose proof (jo_geometry j0 J) as G0. pose proof (go_log _ G0). pose proof (go_data _ G0).
  destruct (go_align _ G0) as (f & Hf16 & Ha). destruct (jo_log j0 J) as [k0 Hk0]. assert (log_offset (geometry j0) ≤ log j0) by nia.
  cbn [replay_log]. destruct (has_capacity j0) eqn:Hc.
  - pose proof (proj1 (has_capacity_spec j0 J) Hc) as Hroom.
    assert (log j0 +! cell j0 = log j0 + cell j0) as ->.
    { unfold wadd. apply wrap_small. unfold in_width. lia. }
    apply spec_obtain; [intros s1 I1 D1 _|done..]. apply spec_obtain; [intros s2 I2 D2 _|by intros s2 D2; split; [congruence|]..].
    rewrite I1 in I2. rewrite D1 in D2. eapply spec_bind.
    { apply (spec_read i i_ok); [congruence|lia|done|lia|done|lia]. }
    2:{ intros e s3 [D3 O]. split; [congruence|done]. }
    intros record s3 I3 [Er D3]. eapply spec_bind.
    { apply (spec_read i i_ok); [congruence|lia|by apply whole_add|lia|done|lia]. }
    2:{ intros e s4 [D4 O]. split; [congruence|done]. }
    intros receipt s4 I4 [Ec D4].
    assert (zlen record = cell j0) as Lr by (rewrite Er; apply zlen_dbytes; [done|lia|done]).
    destruct C as [j|j0 rec rcp j1 j Hc' L1 L2 Hrec Hrcp R C']; rewrite Er, Ec in *.
    + assert (dbytes i (disk s3) (log j + cell j) (cell j) = repeat x00 (Z.to_nat (cell j))) as ->.
      { apply (read_held (disk s)); [congruence|by rewrite zlen_zeroes by lia|done|].
        specialize (T 0%nat). change (Z.of_nat 0) with 0 in T. rewrite Z.mul_0_r, Z.add_0_r in T. apply T. lia. }
      eapply spec_Ok; [by apply replay_zero|]. cbv iota beta. apply spec_ret. split; [done|congruence].
    + assert (dbytes i (disk s2) (log j0) (cell j0) = rec) as -> by (apply (read_held (disk s)); [congruence|done..]).
      assert (dbytes i (disk s3) (log j0 + cell j0) (cell j0) = rcp) as -> by (apply (read_held (disk s)); [congruence|done..]).
      eapply spec_Ok; [exact R|]. cbv iota beta. destruct (replay_inv _ _ _ _ J R) as (c & Cc & V & Ej).
      pose proof (advance_ok c j0 J Cc V) as J1. rewrite <- Ej in J1.
      assert (disk s4 = disk s) as E4 by congruence.
      eapply spec_mono; [apply (IH s4 j1); rewrite ?E4; try done; try (rewrite Ej; simpl)|..].
      * congruence.
      * done.
      * done.
      * apply whole_add; [done|done|]. rewrite Z.mul_comm. by apply whole_mul.
      * lia.
      * intros j' s5 [-> D5]. split; [done|congruence].
      * intros e s5 [D5 O]. split; [congruence|done].
  - apply spec_ret. split; [|done]. destruct C; [done|congruence].
Qed.

(** ** A torn root cell *)

Lemma root_facts r : root_ok r → physical r = cap i → whole z (alignment (root_geometry r)) →
  let a := alignment (root_geometry r) in
  512 ≤ a < 2 ^ 32 ∧ 2 * a ≤ cap i ∧ (slot r = 0 ∨ slot r = a) ∧ is_power_of_two a = true ∧ a mod sector_size i = 0.
Proof.
  intros R Hp Wa a. destruct (root_bounds r R) as [H2 Hc]. rewrite Hp in Hc. fold a in H2, Wa.
  pose proof R as (_ & _ & W & F). pose proof (validate_superblock_Ok _ (rf_geometry r F)) as G. pose proof (align_range _ W G) as Ha.
  pose proof (go_data _ G) as [Hd _]. pose proof (go_capacity _ G). assert (0 ≤ log_bytes (root_geometry r)) by apply W. fold a in Ha.
  split_and!; try done; try lia.
  - destruct (slot_cases r R) as [[-> _]|[-> _]]; auto.
  - apply (go_power _ G).
  - unfold whole in Wa. by rewrite (z_size i i_ok) in Wa.
Qed.

(** A volume whose other root cell was left torn, [b], part zeroes and part the cell of the root
    before or after: its own root, its log and its objects are there. *)
Record torn_vol (d : Disk) (r : Root) (j : Journal) (m : Store) (b : list byte) : Prop := {
  tv_root : root_ok r;
  tv_encodes : ∃ e, root_encode r = Ok e;
  tv_role : is_mountable (role (root_geometry r)) = true;
  tv_physical : physical r = cap i;
  tv_align : alignment (root_geometry r) ≤ max_bytes i;
  tv_cell : holds z d (slot r) (cell_of r);
  tv_other : holds z d (alignment (root_geometry r) - slot r) b ∧ zlen b = alignment (root_geometry r);
  tv_blank : ∃ x, x ∈ b ∧ x ≠ x00;
  tv_torn : ∃ o, (root_next o = Ok r ∨ root_next r = Ok o) ∧ b ≠ cell_of o ∧ ∀ n x, b !! n = Some x → x = x00 ∨ cell_of o !! n = Some x;
  tv_bank : banked i d (root_geometry r) j m;
}.

(** An operation that writes nothing and is refused with [e], unless the environment stops it first. *)
Definition halts {A} (f : D A) (s : Dev) (e : Refusal) : Prop :=
  wp f (λ res s', disk s' = disk s ∧ ∃ x, res = Err x ∧ (outside x ∨ x = Refused e) ∧ (good s → x = Refused e)) s.

Lemma halts_bind {A B} (f : D A) (k : A → D B) s e (P : A → Dev → Prop) :
  spec f s (λ a s', P a s' ∧ disk s' = disk s) (λ x s', disk s' = disk s ∧ outside x) →
  (∀ a s', info s' = info s → disk s' = disk s → P a s' → halts (k a) s' e) → halts (f ≫= k) s e.
Proof.
  unfold spec, halts. intros H Hk. apply wp_bind. eapply wp_mono; [exact H|]. intros [a|x] s1 [(I & _ & G) Q].
  - destruct Q as [Q D]. eapply wp_mono; [by apply Hk|]. intros res s2 (D2 & x & -> & Hx & Hg). split; [congruence|].
    exists x. split_and!; try done. intros Gd. by apply Hg, G.
  - destruct Q as [D O]. split; [done|]. exists x. split_and!; [done|by left|]. intros Gd. destruct (G Gd) as [_ [? ?]]. done.
Qed.

Lemma halts_obtain {A} q (k : unit → D A) s e :
  outside (Refused q) → (∀ s', info s' = info s → disk s' = disk s → halts (k tt) s' e) → halts (obtain q ≫= k) s e.
Proof.
  intros O Hk. apply (halts_bind _ _ _ _ (λ _ _, True)); [|intros [] s' I D _; by apply Hk].
  unfold spec. eapply wp_mono; [apply obtain_spec|]. intros res s1 (R & D & H). split; [done|]. by destruct H as [->|[->| ->]].
Qed.

Lemma torn_root_cell b k : (∃ x, x ∈ b ∧ x ≠ x00) → (∀ x, root_cell b k ≠ Ok (Some x)) → ∃ e, root_cell b k = Err e.
Proof.
  intros (x & Hx & Hn) H. destruct (root_cell b k) as [[y|]|e] eqn:E; [by destruct (H y)| |by exists e].
  exfalso. unfold root_cell in E. destruct b as [|c b]; [by apply not_elem_of_nil in Hx|]. cbn [is_nil] in E.
  destruct (forallb _ _) eqn:Ea.
  - apply forallb_forall with (x := x) in Ea; [by apply bool_decide_eq_true in Ea|]. by apply list_elem_of_In.
  - destruct (map_err _ _); [|done]. cbn [mbind result_bind] in E. by destruct (_ || _).
Qed.

(** A mount of a volume with a torn root cell fails closed: what it reads does not check, it is
    refused for that, and nothing is written. *)
Lemma torn_mount s r j m b :
  info s = i → torn_vol (disk s) r j m b →
  (∀ x, root_cell b ((alignment (root_geometry r) - slot r) / alignment (root_geometry r)) ≠ Ok (Some x)) →
  halts (mount_inner (alignment (root_geometry r)) (role (root_geometry r))) s BadIntegrity.
Proof.
  intros Hi T Hb. destruct (torn_root_cell b _ (tv_blank _ _ _ _ _ T) Hb) as (x & Ex). clear Hb.
  pose proof (tv_root _ _ _ _ _ T) as R. pose proof (bk_align _ _ _ _ _ (tv_bank _ _ _ _ _ T)) as Wa. pose proof (tv_align _ _ _ _ _ T) as Hm.
  destruct (root_facts r R (tv_physical _ _ _ _ _ T) Wa) as (Ha & Hcap & Hslot & Hpow & Hmod).
  set (a := alignment (root_geometry r)) in *. pose proof (io_sector i i_ok) as [_ Hss].
  assert (sector_size i ≤ a) as Hsa.
  { destruct (Z.le_gt_cases (sector_size i) a) as [|Hlt]; [done|]. rewrite Z.mod_small in Hmod by lia. lia. }
  unfold mount_inner. change (halts (gets info ≫= ?k) s BadIntegrity) with (halts (k (info s)) s BadIntegrity). cbv beta. rewrite Hi.
  rewrite (tv_role _ _ _ _ _ T), (proj2 (Z.ltb_ge a (sector_size i)) Hsa), Hpow, (proj2 (is_multiple_spec a (sector_size i) ltac:(lia)) Hmod). cbn [negb orb].
  do 4 (apply halts_obtain; [done|]; intros ? ? ?).
  eapply halts_bind; [apply (spec_read_block i i_ok 0 a); [congruence|lia|done|done|lia|lia]|]. intros c0 s5 I5 D5 Ec0.
  eapply halts_bind; [apply (spec_read_block i i_ok a a); [congruence|lia|done|done|lia|lia]|]. intros c1 s6 I6 D6 Ec1. simpl in Ec0, Ec1.
  assert (∃ y, recover c0 c1 = Err y) as [y ->].
  { destruct (tv_other _ _ _ _ _ T) as [Ko Lb]. fold a in Ko, Lb. unfold recover. destruct (is_nil c0 || _) eqn:En; [by exists Integrity|].
    destruct Hslot as [Hs|Hs]; rewrite Hs, ?Z.sub_0_r, ?Z.sub_diag in *.
    - rewrite Z.div_same in Ex by lia. assert (c1 = b) as -> by (rewrite Ec1; apply (read_held (disk s)); try done; congruence).
      rewrite Ex. destruct (root_cell c0 0) as [o|y]; [by exists x|by exists y].
    - rewrite Z.div_0_l in Ex by lia. assert (c0 = b) as -> by (rewrite Ec0; apply (read_held (disk s)); try done; congruence).
      rewrite Ex. by exists x. }
  unfold halts. simpl. split; [done|]. exists (Refused BadIntegrity). split_and!; try done. by right.
Qed.

(** A device with such a volume: unless the torn bytes check as a root, nothing but a refusal comes
    of mounting it. *)
Definition fails_closed (d : Disk) (r : Root) (j : Journal) (m : Store) : Prop :=
  let a := alignment (root_geometry r) in
  ∃ b, torn_vol d r j m b ∧
    ∀ s, info s = i → disk s = d → (∀ x, root_cell b ((a - slot r) / a) ≠ Ok (Some x)) → halts (mount_inner a (role (root_geometry r))) s BadIntegrity.

Lemma torn_closed d r j m b : torn_vol d r j m b → fails_closed d r j m.
Proof. intros T. exists b. split; [done|]. intros s Hi <-. by eapply torn_mount. Qed.

(** ** The mount *)

(** A root that one sector holds. *)
Definition one_sector (r : Root) : Prop := ∀ e, root_encode r = Ok e → zlen e ≤ sector_size i.

(** Whatever a crash leaves, the volume is there: always when a root is one sector and sectors are
    written whole, and when they are not but for a torn root cell. *)
Definition recoverable (d : Disk) (r : Root) (j : Journal) (m : Store) : Prop :=
  (one_sector r → ∀ d', crash d d' → ∃ old, vol d' r old j m) ∧
  ∀ d', torn d d' → (∃ old, vol d' r old j m) ∨ fails_closed d' r j m.

Lemma vol_recoverable d r old j m : vol d r old j m → recoverable d r j m.
Proof. intros V. split; [intros _ d' C|intros d' C; left]; exists old; [by eapply vol_crash|by eapply vol_torn]. Qed.

Lemma vol_facts d r old j m : vol d r old j m →
  let a := alignment (root_geometry r) in
  512 ≤ a < 2 ^ 32 ∧ whole z a ∧ a ≤ max_bytes i ∧ 2 * a ≤ cap i ∧ (slot r = 0 ∨ slot r = a) ∧
  is_power_of_two a = true ∧ a mod sector_size i = 0.
Proof.
  intros V a. destruct (vo_align _ _ _ _ _ _ V) as [Wa Hm].
  by destruct (root_facts r (vo_root _ _ _ _ _ _ V) (vo_physical _ _ _ _ _ _ V) Wa) as (? & ? & ? & ? & ?).
Qed.

(** The bank is kept where all past the root cells is. *)
Lemma vol_bank d r old j m : vol d r old j m → ∀ d', (∀ lo hi, 2 * alignment (root_geometry r) ≤ lo → keeps i lo hi d d') →
  keeps i (log_offset (geometry j)) (log j) d d' ∧ keeps i (data_offset (geometry j)) (data j) d d' ∧ tail_zero i d' j.
Proof.
  intros V d' K. destruct (vol_journal _ _ _ _ _ _ V) as [J G]. destruct (vol_two_cells i _ _ _ _ _ V) as [H2 _].
  pose proof (jo_log_end j J). destruct (jo_cell_range j J) as [Hc _]. destruct (vo_align _ _ _ _ _ _ V) as [Wa _].
  rewrite <- G in K, Wa. destruct (log_whole i i_ok j J Wa) as (_ & _ & _ & Hlo).
  split_and!; [apply K; lia|apply K; lia|]. eapply tail_keeps; [done|done|done|apply K; lia|apply V].
Qed.

(** The other root cell written, wholly or in part: the rest of the volume is there. *)
Lemma retire_keeps d d' d'' r old j m B :
  let a := alignment (root_geometry r) in
  vol d r old j m → wrote z (a - slot r) B d d' → zlen B = a → torn d' d'' →
  (keeps i (log_offset (geometry j)) (log j) d d'' ∧ keeps i (data_offset (geometry j)) (data j) d d'' ∧ tail_zero i d'' j) ∧
  holds z d'' (slot r) (cell_of r).
Proof.
  intros a V W L C. destruct (vol_facts _ _ _ _ _ V) as (Ha & Wa & _ & _ & Hslot & _). fold a in Ha, Wa, Hslot.
  destruct (vo_encodes _ _ _ _ _ _ V) as (e & He). destruct (zlen_cell_of r e He) as [_ Lc]. fold a in Lc.
  assert (touches z (a - slot r) (a - slot r + a) d d') as T by (destruct W as [T _]; by rewrite L in T).
  split.
  - apply (vol_bank _ _ _ _ _ V). intros lo hi Hlo. fold a in Hlo. eapply (keeps_trans i _ _ _ d'); [|by apply keeps_torn].
    eapply keeps_touches; [done|lia|exact T|right; lia].
  - apply (holds_torn z d'); [done|]. eapply holds_touches; [by apply z_pos|exact T|apply V|lia| |by rewrite Lc|rewrite Lc; lia].
    by destruct Hslot as [->| ->].
Qed.

Lemma zeroes_or_not (b : list byte) : b = repeat x00 (length b) ∨ ∃ x, x ∈ b ∧ x ≠ x00.
Proof.
  induction b as [|x b [IH|(y & Hy & Hn)]]; [by left| |right; exists y; split; [by right|done]].
  destruct (decide (x = x00)) as [->|Hn]; [left; simpl; by f_equal|right; exists x; split; [by left|done]].
Qed.

Lemma zero_byte k n (x : byte) : repeat x00 k !! n = Some x → x = x00.
Proof. intros H%list_elem_of_lookup_2%list_elem_of_In. by apply repeat_spec in H. Qed.

(** What a torn write of the other root cell leaves, when it had zeroes and [o] was written there
    or the other way round. *)
Lemma retire_torn d d' d'' r old j m o B :
  let a := alignment (root_geometry r) in
  vol d r old j m → wrote z (a - slot r) B d d' → zlen B = a → torn d' d'' → root_next o = Ok r ∨ root_next r = Ok o →
  (∀ n x, other_cell r old !! n = Some x ∨ B !! n = Some x → x = x00 ∨ cell_of o !! n = Some x) →
  vol d'' r None j m ∨ holds z d'' (a - slot r) (cell_of o) ∨ fails_closed d'' r j m.
Proof.
  intros a V W L C No Hx. destruct (vol_facts _ _ _ _ _ V) as (Ha & Wa & Hm & _ & Hslot & _). fold a in Ha, Wa, Hm, Hslot.
  pose proof (other_length i _ _ _ _ _ V) as Lo. fold a in Lo. destruct (retire_keeps _ _ _ _ _ _ _ _ V W L C) as [(Kl & Kd & Kt) Kc].
  destruct (wrote_torn z (z_pos i i_ok) _ (other_cell r old) B d d' d'' W (vo_other _ _ _ _ _ _ V)) as (b & Hb & Lb & Hmix);
    [by rewrite Lo|congruence|done|]. destruct (zeroes_or_not b) as [E|Hn].
  { left. apply (vol_change i i_ok d _ r old None j m V); try done. simpl. fold a.
    replace (Z.to_nat a) with (length b) by (unfold zlen in *; lia). by rewrite <- E. }
  right. destruct (decide (b = cell_of o)) as [->|Hne]; [by left|]. right. apply (torn_closed _ _ _ _ b).
  destruct (vol_journal _ _ _ _ _ _ V) as [_ G]. rewrite G in Kl, Kd.
  pose proof (bank_change i i_ok _ _ _ _ _ (vol_is_bank i _ _ _ _ _ V) Kl Kd Kt). destruct V. split; try done.
  - split; [done|]. rewrite Lb. exact Lo.
  - exists o. split_and!; try done. intros n x Hnx. by apply Hx, Hmix.
Qed.

(** Zeroes written over zeroes. *)
Lemma retire_blank d d' d'' r j m :
  let a := alignment (root_geometry r) in
  vol d r None j m → wrote z (a - slot r) (repeat x00 (Z.to_nat a)) d d' → torn d' d'' → vol d'' r None j m.
Proof.
  intros a V W C. destruct (vol_facts _ _ _ _ _ V) as (Ha & _). fold a in Ha. assert (zlen (repeat x00 (Z.to_nat a)) = a) as Lz by (apply zlen_zeroes; lia).
  destruct (retire_keeps _ _ _ _ _ _ _ _ V W Lz C) as [(Kl & Kd & Kt) Kc]. apply (vol_change i i_ok d _ r None None j m V); try done.
  apply (holds_torn z d'); [done|]. intros k s Hk. eapply wrote_holds; [exact W|done|]. by apply (vo_other _ _ _ _ _ _ V).
Qed.

(** A root of one sector retired, sectors being written whole. *)
Lemma retire_whole d d' d'' r o j m :
  let a := alignment (root_geometry r) in
  vol d r (Some o) j m → wrote z (a - slot r) (repeat x00 (Z.to_nat a)) d d' → one_sector r → crash d' d'' → ∃ old, vol d'' r old j m.
Proof.
  intros a V W One C. destruct (vol_facts _ _ _ _ _ V) as (Ha & Wa & _). fold a in Ha, Wa.
  assert (zlen (repeat x00 (Z.to_nat a)) = a) as Lz by (apply zlen_zeroes; lia).
  destruct (retire_keeps _ _ _ _ _ _ _ _ V W Lz (crash_torn _ _ C)) as [(Kl & Kd & Kt) Kc].
  assert (zlen (cell_of o) = a) as Lo by apply (other_length i _ _ _ _ _ V).
  destruct (vo_follows _ _ _ _ _ _ V) as (Ro & Hn & eo & Eo). destruct (vo_encodes _ _ _ _ _ _ V) as (e & He).
  destruct (wrote_one z (a - slot r) (cell_of o) (repeat x00 (Z.to_nat a)) d d' d'') as [Ho|Ho]; [by apply z_pos|done|apply V| | |done|..].
  - pose proof (whole_length z (z_pos i i_ok) (cell_of o) ltac:(by rewrite Lo)) as L1.
    pose proof (whole_length z (z_pos i i_ok) (repeat x00 (Z.to_nat a)) ltac:(by rewrite Lz)) as L2.
    rewrite (length_chunks z _ _ (z_pos i i_ok) L1), (length_chunks z _ _ (z_pos i i_ok) L2). by rewrite Lo, Lz.
  - intros k Hk. destruct (zlen_cell_of o eo Eo) as [-> _].
    destruct (root_next_Ok o r Ro Hn) as (_ & _ & _ & _ & Hal & _). fold a in Hal. rewrite <- Hal.
    destruct (root_encode_Ok _ _ Eo) as (inner & _ & Hle & Hzl & _). rewrite <- Hal in Hle. apply padded_tail; [done| |lia|done|done].
    rewrite <- (next_size o r eo e Ro Hn Eo He). by apply One.
  - exists (Some o). apply (vol_change i i_ok d _ r (Some o) (Some o) j m V); try done. apply V.
  - exists None. by apply (vol_change i i_ok d _ r (Some o) None j m V).
Qed.

(** The other root cell written with zeroes, wholly or in part. *)
Lemma retire_recoverable d d' r old j m :
  vol d r old j m →
  wrote z (alignment (root_geometry r) - slot r) (repeat x00 (Z.to_nat (alignment (root_geometry r)))) d d' →
  recoverable d' r j m.
Proof.
  intros V W. destruct old as [o|].
  2:{ split; [intros _ d'' C%crash_torn|intros d'' C; left]; exists None; by eapply retire_blank. }
  split; [intros One d'' C; by eapply retire_whole|]. intros d'' C.
  destruct (vol_facts _ _ _ _ _ V) as (Ha & _). set (a := alignment (root_geometry r)) in *.
  assert (zlen (repeat x00 (Z.to_nat a)) = a) as Lz by (apply zlen_zeroes; lia). destruct (vo_follows _ _ _ _ _ _ V) as (Ro & Hn & _).
  destruct (retire_torn _ _ _ _ _ _ _ o _ V W Lz C) as [V'|[H|T]]; [by left| |left; by exists None| |by right].
  - intros n x [Hx|Hx]; [by right|left]. by apply zero_byte in Hx.
  - left. exists (Some o). destruct (retire_keeps _ _ _ _ _ _ _ _ V W Lz C) as [(Kl & Kd & Kt) Kc].
    apply (vol_change i i_ok d _ r (Some o) (Some o) j m V); try done. apply V.
Qed.

Lemma retire_done d d' r old j m :
  vol d r old j m →
  wrote z (alignment (root_geometry r) - slot r) (repeat x00 (Z.to_nat (alignment (root_geometry r)))) d d' →
  seen z d' (alignment (root_geometry r) - slot r) (repeat x00 (Z.to_nat (alignment (root_geometry r)))) →
  vol (flushed d') r None j m.
Proof.
  intros V W Sn. destruct (vol_facts _ _ _ _ _ V) as (Ha & Wa & _ & _ & Hslot & _). set (a := alignment (root_geometry r)) in *.
  destruct (vol_journal _ _ _ _ _ _ V) as [J G]. destruct (vo_encodes _ _ _ _ _ _ V) as (e & He). destruct (zlen_cell_of r e He) as [_ Lc]. fold a in Lc.
  assert (touches z (a - slot r) (a - slot r + a) d (flushed d')) as T.
  { eapply touches_trans; [|apply touches_flushed]. destruct W as [T _]. by rewrite zlen_zeroes in T by lia. }
  assert (∀ lo hi, 2 * a ≤ lo → keeps i lo hi d (flushed d')) as K.
  { intros lo hi Hlo. eapply keeps_touches; [done|lia|exact T|right; lia]. }
  destruct (vol_bank _ _ _ _ _ V _ K) as (Kl & Kd & Kt). apply (vol_change i i_ok d _ r old None j m V); try done.
  - eapply holds_touches; [by apply z_pos|exact T|apply V|lia| |by rewrite Lc|rewrite Lc; lia].
    destruct Hslot as [->| ->]; [done|done].
  - by apply seen_flushed.
Qed.

Lemma log_room j : journal_ok j → 0 ≤ log_bytes (geometry j) →
  data_offset (geometry j) - log_offset (geometry j) < 2 * cell j * Z.of_nat (pairs_room j).
Proof.
  intros J Hl. destruct (jo_cell_range j J) as [Hc _]. pose proof (go_data _ (jo_geometry j J)) as [Hd _]. unfold pairs_room.
  pose proof (Z.div_mod (log_bytes (geometry j)) (2 * cell j) ltac:(lia)).
  pose proof (Z.mod_pos_bound (log_bytes (geometry j)) (2 * cell j) ltac:(lia)).
  assert (0 ≤ log_bytes (geometry j) / (2 * cell j)) by (apply Z.div_pos; lia).
  rewrite Nat2Z.inj_succ, Z2Nat.id by done. nia.
Qed.

Lemma mount_spec s r old j m :
  info s = i → vol (disk s) r old j m →
  spec (mount_inner (alignment (root_geometry r)) (role (root_geometry r))) s
    (λ jr s', jr = (j, r) ∧ vol (disk s') r None j m) (λ e s', outside e ∧ recoverable (disk s') r j m).
Proof.
  intros Hi V. pose proof (vol_recoverable _ _ _ _ _ V) as Rec.
  destruct (vol_facts _ _ _ _ _ V) as (Ha & Wa & Hmax & H2a & Hslot & Hpow & Hmod).
  destruct (vol_journal _ _ _ _ _ _ V) as [J G]. destruct (vol_two_cells i _ _ _ _ _ V) as [H2 Hcap]. rewrite G in H2, Hcap.
  pose proof (vo_root _ _ _ _ _ _ V) as R. destruct (vo_encodes _ _ _ _ _ _ V) as (e & He).
  destruct (zlen_cell_of r e He) as [_ Lc]. pose proof (other_length i _ _ _ _ _ V) as Lo.
  pose proof (vo_follows _ _ _ _ _ _ V) as Hf. pose proof (recover_follows r e old R He Hf) as Hrec.
  set (a := alignment (root_geometry r)) in *. pose proof (z_pos i i_ok) as Hz. pose proof (z_size i i_ok) as Es. pose proof (io_sector i i_ok) as [_ Hss].
  assert (sector_size i ≤ a) as Hsa.
  { destruct (Z.le_gt_cases (sector_size i) a) as [|Hlt]; [done|]. rewrite Z.mod_small in Hmod by lia. lia. }
  unfold mount_inner. apply spec_gets. rewrite Hi.
  rewrite (vo_role _ _ _ _ _ _ V), (proj2 (Z.ltb_ge a (sector_size i)) Hsa), Hpow, (proj2 (is_multiple_spec a (sector_size i) ltac:(lia)) Hmod). cbn [negb orb].
  apply spec_obtain; [intros s1 I1 D1 _|by intros s1 D1; rewrite D1..].
  apply spec_obtain; [intros s2 I2 D2 _|by intros s2 D2; rewrite D2, D1..].
  apply spec_obtain; [intros s3 I3 D3 _|by intros s3 D3; rewrite D3, D2, D1..].
  apply spec_obtain; [intros s4 I4 D4 _|by intros s4 D4; rewrite D4, D3, D2, D1..].
  assert (disk s4 = disk s) as E4 by congruence. assert (info s4 = i) as J4 by congruence.
  eapply spec_bind; [apply (spec_read_block i i_ok 0 a); [done|lia|done|done|lia|lia]| |by intros x s5 [D5 O]; rewrite D5, E4].
  intros c0 s5 I5 [Ec0 D5]. rewrite E4 in *.
  eapply spec_bind; [apply (spec_read_block i i_ok a a); [congruence|lia|done|done|lia|lia]| |by intros x s6 [D6 O]; rewrite D6, D5].
  intros c1 s6 I6 [Ec1 D6]. rewrite D5 in *.
  assert (recover c0 c1 = Ok (mk_Recovery r (slot <$> old))) as Hr.
  { rewrite <- Hrec, Ec0, Ec1. pose proof (vo_cell _ _ _ _ _ _ V) as Kc. pose proof (vo_other _ _ _ _ _ _ V) as Ko. fold a in Ko.
    destruct (slot_cases r R) as [[Hs ->]|[Hs ->]]; cbn [Z.eqb]; fold a in Hs; rewrite Hs in Kc, Ko; rewrite ?Z.sub_0_r, ?Z.sub_diag in Ko; f_equal.
    - by apply (read_held (disk s) _ _ _ s).
    - by apply (read_held (disk s) _ _ _ s).
    - by apply (read_held (disk s) _ _ _ s).
    - by apply (read_held (disk s) _ _ _ s). }
  eapply spec_Ok; [exact Hr|]. cbn [rc_root]. unfold dev_capacity. fold (cap i).
  rewrite (vo_physical _ _ _ _ _ _ V), Z.eqb_refl. fold a. rewrite Z.eqb_refl, bool_decide_eq_true_2 by done. cbn [negb orb].
  apply spec_obtain; [intros s7 I7 D7 _|by intros s7 D7; rewrite D7, D6..].
  destruct (vo_log _ _ _ _ _ _ V) as (j0 & E0 & C). eapply spec_Ok; [exact E0|].
  apply spec_obtain; [intros s8 I8 D8 _|by intros s8 D8; rewrite D8, D7, D6..].
  apply spec_obtain; [intros s9 I9 D9 _|by intros s9 D9; rewrite D9, D8, D7, D6..].
  assert (disk s9 = disk s) as E9 by congruence. assert (info s9 = i) as J9 by congruence.
  destruct R as (_ & _ & Rw & _). destruct (journal_new_Ok _ _ Rw E0) as (J0 & G0 & _ & El0 & _).
  destruct (chain_ok i _ _ _ C J0) as (_ & Gj & Ecell & _). pose proof (jo_geometry j0 J0) as GG. pose proof (go_capacity _ GG).
  pose proof (go_multiples _ GG) as (_ & M2 & _). rewrite G0 in M2. fold a in M2. destruct (jo_cell_range j0 J0) as [Hcr Hcm]. rewrite G0 in Hcm. fold a in Hcm.
  assert (0 ≤ log_bytes (geometry j0)) as Hlb by (rewrite G0; apply Rw).
  eapply spec_bind.
  { apply (replay_log_spec _ j0 j); [done|done|by rewrite E9|rewrite E9; apply V|rewrite G0 in *; lia| | |].
    - by apply (whole_mod i i_ok _ a); [done|lia|].
    - rewrite El0. by apply (whole_mod i i_ok _ a); [done|lia|].
    - rewrite El0, <- G0. by apply log_room. }
  2:{ intros x s10 [D10 O]. by rewrite D10, E9. }
  intros j' s10 I10 [-> D10]. assert (disk s10 = disk s) as E10 by congruence. assert (info s10 = i) as J10 by congruence.
  destruct old as [o|]; simpl; [|apply spec_ret; split; [done|by rewrite E10]].
  destruct Hf as (Ro & Hn & eo & Eo). destruct (root_next_Ok o r Ro Hn) as (_ & _ & _ & Hb & Hal & _). fold a in Hal.
  assert (slot o = a - slot r) as Hso.
  { destruct (slot_cases o Ro) as [[-> ?]|[-> ?]], (slot_cases r (vo_root _ _ _ _ _ _ V)) as [[-> ?]|[-> ?]]; fold a; lia. }
  assert (zlen (repeat x00 (Z.to_nat a)) = a) as Lz by (apply zlen_zeroes; lia). rewrite <- E10 in V.
  apply (spec_bind _ _ _ _ _ (λ _ s', vol (disk s') r None j m) (λ e s', outside e ∧ recoverable (disk s') r j m)); [|by intros _ s11 _ V'; apply spec_ret|done].
  apply spec_obtain; [intros s11 I11 D11 _|by intros s11 D11; rewrite D11, E10..]. rewrite <- D11 in V.
  eapply spec_bind; [apply (spec_write i i_ok (slot o)); [congruence|rewrite Hso; lia| |by rewrite Lz|rewrite Lz, Hso; lia]|..].
  { rewrite Hso. destruct Hslot as [->| ->]; [by rewrite Z.sub_0_r|by rewrite Z.sub_diag]. }
  2:{ intros x s12 (O & W & _). split; [done|]. eapply retire_recoverable; [exact V|]. fold a. by rewrite <- Hso. }
  intros _ s12 I12 (W & Sn & _). rewrite Hso in *. eapply spec_mono; [apply spec_flush|..].
  - intros _ s13 [-> _]. by eapply retire_done.
  - intros x s13 (-> & O & _). split; [done|]. by eapply retire_recoverable.
Qed.

End mount.
