(* ===== verification/StorePut.v ===== *)
(** * Writing an object

    A [put] is atomic: an object's bytes and its tree go where nothing is, and the commit is
    there when its receipt is, which is one sector. *)

From S2P Require Import Prelude StoreFormat StoreCodec StoreTree StoreProof StoreJournal StoreBanks StoreDisk StoreCrash StoreLog StoreRoot StoreVolume StoreState StoreMount.

(** ** Operations of a volume *)

(** All but the device and the count of bytes is as it was. *)
Definition vsame (v v' : Volume) : Prop :=
  journal v' = journal v ∧ root v' = root v ∧ failed v' = failed v ∧ async_failed v' = async_failed v ∧ loan v' = loan v.

(** [spec] for a volume; [Q] is what the operation needs of the volume to end well. *)
Definition vspec {A} (Q : Prop) (f : V A) (v : Volume) (P : A → Volume → Prop) (F : Stop → Volume → Prop) : Prop :=
  wp f (λ r v', info (dev v') = info (dev v) ∧ has_pending (dev v') = has_pending (dev v) ∧
    (Q → good (dev v) → good (dev v') ∧ ∃ a, r = Ok a) ∧ vsame v v' ∧
    match r with Ok a => P a v' | Err e => F e v' end) v.

Lemma vsame_trans v1 v2 v3 : vsame v1 v2 → vsame v2 v3 → vsame v1 v3.
Proof. intros (? & ? & ? & ? & ?) (? & ? & ? & ? & ?). split_and!; congruence. Qed.

Lemma vspec_bind {A B} Q (f : V A) (k : A → V B) v P F P1 F1 :
  vspec Q f v P1 F1 →
  (∀ a v1, info (dev v1) = info (dev v) → vsame v v1 → P1 a v1 → vspec Q (k a) v1 P F) →
  (∀ e v1, F1 e v1 → F e v1) → vspec Q (f ≫= k) v P F.
Proof.
  unfold vspec. intros H Hk HF. apply wp_bind. eapply wp_mono; [exact H|]. intros [a|e] v1 (I1 & P1' & G1 & S1 & Q1).
  - eapply wp_mono; [by apply Hk|]. intros r v2 (I2 & P2' & G2 & S2 & Q2).
    split_and!; [congruence..| |by eapply vsame_trans|done]. intros HQ G. by apply G2, G1.
  - split_and!; [done..| |done|by apply HF]. intros HQ G. destruct (G1 HQ G) as [_ [a Ha]]. done.
Qed.

Lemma vspec_ret {A} Q (a : A) v (P : A → Volume → Prop) F : P a v → vspec Q (mret a) v P F.
Proof. intros H. split_and!; try done. intros _ G. split; [done|]. by exists a. Qed.

Lemma vspec_mono {A} Q (f : V A) v P F (P' : A → Volume → Prop) (F' : Stop → Volume → Prop) :
  vspec Q f v P F → (∀ a v', vsame v v' → P a v' → P' a v') → (∀ e v', vsame v v' → F e v' → F' e v') → vspec Q f v P' F'.
Proof.
  unfold vspec. intros H HP HF. eapply wp_mono; [exact H|]. intros [a|e] v' (? & ? & ? & ? & R); split_and!; auto.
Qed.

Lemma vspec_Ok {A B} Q e (c : result Error A) a (k : A → V B) v P F :
  c = Ok a → vspec Q (k a) v P F → vspec Q (or_refuse e c ≫= k) v P F.
Proof. by intros ->. Qed.

Lemma vspec_gets {A B} Q (g : Volume → A) (k : A → V B) v P F : vspec Q (k (g v)) v P F → vspec Q (gets g ≫= k) v P F.
Proof. done. Qed.

Lemma vspec_io {A} Q (f : D A) v P F :
  spec f (dev v) P F → vspec Q (io f) v (λ a v', P a (dev v') ∧ copied v' = copied v) (λ e v', F e (dev v')).
Proof.
  unfold spec, vspec, wp, io. destruct (f (dev v)) as [r d]. simpl. intros [(I & P' & G) Hr].
  split_and!; try done. by destruct r.
Qed.

Lemma vspec_obtain {A} Q e (k : unit → V A) v P (F : Stop → Volume → Prop) :
  (∀ v1, info (dev v1) = info (dev v) → disk (dev v1) = disk (dev v) → has_pending (dev v1) = has_pending (dev v) →
     copied v1 = copied v → vsame v v1 → vspec Q (k tt) v1 P F) →
  (∀ v1, disk (dev v1) = disk (dev v) → F (Refused e) v1) → (∀ v1, disk (dev v1) = disk (dev v) → F Crashed v1) →
  vspec Q (io (obtain e) ≫= k) v P F.
Proof.
  intros Hk HF HC. unfold vspec. apply wp_bind. unfold wp at 1, io. pose proof (obtain_spec e (dev v)) as H. unfold wp in H.
  destruct (obtain e (dev v)) as [r d]. simpl in *. destruct H as ((I & P' & G) & D & [->|[->| ->]]).
  - set (v1 := mk_Volume d _ _ _ _ _ _). eapply wp_mono; [by apply (Hk v1)|].
    intros r2 v2 (I2 & P2' & G2 & S2 & Q2). simpl in *. split_and!; [congruence..| |by eapply (vsame_trans _ v1)|done].
    intros HQ G1. by apply G2, G.
  - split_and!; try done; [|by apply HF]. intros _ G1. by destruct (G G1) as [_ [? ?]].
  - split_and!; try done; [|by apply HC]. intros _ G1. by destruct (G G1) as [_ [? ?]].
Qed.

Lemma vspec_asked Q e v :
  vspec Q (io (obtain e)) v (λ _ v', disk (dev v') = disk (dev v) ∧ copied v' = copied v)
    (λ x v', disk (dev v') = disk (dev v) ∧ (x = Refused e ∨ x = Crashed)).
Proof.
  unfold vspec, wp, io. pose proof (obtain_spec e (dev v)) as H. unfold wp in H.
  destruct (obtain e (dev v)) as [r d]. simpl in *. destruct H as ((I & P' & G) & D & [->|[->| ->]]); split_and!; auto; try done.
Qed.

Lemma vspec_copied Q n v :
  (Q → copied v + n < 2 ^ 64) →
  vspec Q (add_copied n) v (λ _ v', dev v' = dev v ∧ copied v' = copied v + n)
    (λ e v', e = Refused NoCapacity ∧ dev v' = dev v).
Proof.
  intros H. unfold vspec, wp, add_copied. destruct (checked_add 64 (copied v) n) as [c|] eqn:E.
  - apply checked_add_Some in E as [-> _]. simpl. split_and!; try done. intros _ G. split; [done|]. by exists tt.
  - apply checked_add_None in E. simpl. split_and!; try done. intros HQ. specialize (H HQ). lia.
Qed.

Section put.
Context {BL : Blake3}.
Variable i : Info.
Hypothesis i_ok : info_ok i.

Abbreviation z := (StoreCrash.z i).
Abbreviation vol := (vol i).
Abbreviation dk v := (disk (dev v)).

(** ** Blocks and nodes *)

Section blocks.
Variables (f : nat) (a : Z).
Hypothesis f_some : (16 ≤ f)%nat.
Hypothesis a_fanout : a = 32 * Z.of_nat f.
Hypothesis a_power : is_power_of_two a = true.
Hypothesis a_whole : whole z a.

Lemma whole_times n : whole z (n * a).
Proof. rewrite Z.mul_comm. by apply whole_mul. Qed.

(** One page written. *)
Lemma vspec_page Q off page v :
  info (dev v) = i → 0 ≤ off → whole z off → zlen page = a → off + a ≤ cap i →
  vspec Q (io (write_aligned off page)) v
    (λ _ v', touches z off (off + a) (dk v) (dk v') ∧ seen z (dk v') off page ∧ copied v' = copied v)
    (λ e v', outside e ∧ touches z off (off + a) (dk v) (dk v')).
Proof.
  intros Hi Ho Wo Lp Hc. eapply vspec_mono; [apply vspec_io, (spec_write i i_ok); [done|done|done|by rewrite Lp|by rewrite Lp]|..].
  - intros _ v' _ [([T _] & Sn & _) Hcp]. rewrite Lp in T. done.
  - intros e v' _ (O & [T _] & _). rewrite Lp in T. done.
Qed.

Lemma put_leaves_spec Q off blocks block v :
  info (dev v) = i → 0 ≤ off → 0 ≤ block → whole z off → Forall (λ b : list byte, zlen b ≤ a) blocks →
  off + (block + zlen blocks) * a ≤ cap i → (Q → copied v + zlen (concat blocks) < 2 ^ 64) →
  vspec Q (put_leaves a off block blocks) v
    (λ ds v', ds = blake3 <$> (padded a <$> blocks) ∧
       touches z (off + block * a) (off + (block + zlen blocks) * a) (dk v) (dk v') ∧
       seen z (dk v') (off + block * a) (concat (padded a <$> blocks)) ∧ copied v' = copied v + zlen (concat blocks))
    (λ e v', outside e ∧ touches z (off + block * a) (off + (block + zlen blocks) * a) (dk v) (dk v')).
Proof.
  pose proof (z_pos i i_ok) as Hz. intros Hi Ho Hb Wo Hl Hc HQ. revert block v Hi Hb Hc HQ.
  induction Hl as [|b blocks Lb Hl IH]; intros block v Hi Hb Hc HQ; cbn [put_leaves].
  { apply vspec_ret. split; [done|]. split; [apply touches_refl|]. split; [apply each_nil|]. unfold zlen. simpl. lia. }
  simpl concat in *. rewrite zlen_cons, zlen_app in *. pose proof (zlen_nonneg blocks). pose proof (zlen_nonneg (concat blocks)). pose proof (zlen_nonneg b).
  set (lo := off + block * a) in *. set (hi := off + (block + (1 + zlen blocks)) * a) in *.
  assert (lo + a ≤ hi ∧ 0 ≤ lo) as [Hlo Hlo0] by (unfold lo, hi; nia).
  apply vspec_obtain; [intros v1 I1 D1 _ C1 S1|by intros v1 D1; rewrite D1; split; [|apply touches_refl]..].
  apply vspec_obtain; [intros v2 I2 D2 _ C2 S2|by intros v2 D2; rewrite D2, D1; split; [|apply touches_refl]..].
  eapply vspec_Ok.
  { unfold leaf_digest. rewrite (proj2 (Z.ltb_ge a 512)), a_power, (proj2 (Z.ltb_ge a (zlen b)) Lb) by lia. done. }
  assert (off +! block *! a = lo) as ->.
  { pose proof (io_capacity i i_ok). unfold cap in Hc. assert (0 ≤ block * a) by nia. unfold wadd, wmul, lo in *.
    rewrite !wrap_small; unfold in_width; rewrite ?wrap_small; unfold in_width; nia. }
  eapply vspec_bind; [apply (vspec_page _ lo); [congruence|done| |by apply zlen_padded|lia]|..].
  { unfold lo. apply whole_add; [done|done|apply whole_times]. }
  2:{ intros e v3 [O T]. split; [done|]. rewrite D2, D1 in T. eapply touches_wider; [exact T|lia|lia]. }
  intros _ v3 I3 S3 (T3 & Sn3 & C3). rewrite D2, D1 in T3.
  eapply vspec_bind; [apply vspec_copied; intros HQ'; specialize (HQ HQ'); lia|..].
  2:{ intros e v4 [-> D4]. split; [done|]. rewrite D4. eapply touches_wider; [exact T3|lia|lia]. }
  intros _ v4 I4 S4 [D4 C4]. assert (off + (block + 1) * a = lo + a) as Enext by (unfold lo; lia).
  eapply vspec_bind; [apply (IH (block + 1) v4); [congruence|lia|lia|intros HQ'; specialize (HQ HQ'); lia]|..]; rewrite Enext, D4;
    replace (off + (block + 1 + zlen blocks) * a) with hi by (unfold hi; lia).
  2:{ intros e v5 [O T]. split; [done|]. eapply touches_trans; [eapply touches_wider; [exact T3|lia|lia]|].
      eapply touches_wider; [exact T|lia|lia]. }
  intros ds v5 I5 S5 (-> & T5 & Sn5 & C5). apply vspec_ret. split; [done|]. split.
  { eapply touches_trans; [eapply touches_wider; [exact T3|lia|lia]|]. eapply touches_wider; [exact T5|lia|lia]. }
  split; [|lia]. assert (whole z lo) as Wlo by (unfold lo; apply whole_add; [done|done|apply whole_times]).
  change (concat (padded a <$> b :: blocks)) with (padded a b ++ concat (padded a <$> blocks)). apply each_app; [done|done|done|by rewrite zlen_padded|]. rewrite zlen_padded by done. split; [|done].
  eapply seen_touches; [done|exact T5|done|done|done|by rewrite zlen_padded|rewrite zlen_padded by done; lia].
Qed.

Lemma tree_node_Ok ch :
  Forall (λ d : list byte, length d = 32%nat) ch → (length ch ≤ f)%nat → tree_node a ch = Ok (node_page f ch, blake3 (node_page f ch)).
Proof.
  intros Hd Hl. unfold tree_node. rewrite (proj2 (Z.ltb_ge a 512)), a_power by lia. cbn [negb orb].
  rewrite (align_div f a a_fanout), (proj2 (Z.ltb_ge (Z.of_nat f) (zlen ch))) by (unfold zlen; lia). unfold node_page.
  replace (Z.to_nat (a - 32 * zlen ch)) with (32 * (f - length ch))%nat by (unfold zlen; lia). done.
Qed.

Lemma put_nodes_spec Q off chs index v :
  info (dev v) = i → 0 ≤ off → 0 ≤ index → whole z off →
  Forall (λ ch, Forall (λ d : list byte, length d = 32%nat) ch ∧ (length ch ≤ f)%nat) chs →
  off + (index + zlen chs) * a ≤ cap i →
  vspec Q (put_nodes a off index chs) v
    (λ ds v', ds = blake3 <$> (node_page f <$> chs) ∧
       touches z (off + index * a) (off + (index + zlen chs) * a) (dk v) (dk v') ∧
       seen z (dk v') (off + index * a) (concat (node_page f <$> chs)) ∧ copied v' = copied v)
    (λ e v', outside e ∧ touches z (off + index * a) (off + (index + zlen chs) * a) (dk v) (dk v')).
Proof.
  pose proof (z_pos i i_ok) as Hz. intros Hi Ho Hx Wo Hl Hc. revert index v Hi Hx Hc.
  induction Hl as [|ch chs [Hd Hch] Hl IH]; intros index v Hi Hx Hc; cbn [put_nodes].
  { apply vspec_ret. split; [done|]. split; [apply touches_refl|]. split; [apply each_nil|done]. }
  rewrite zlen_cons in *. pose proof (zlen_nonneg chs).
  set (lo := off + index * a) in *. set (hi := off + (index + (1 + zlen chs)) * a) in *.
  assert (lo + a ≤ hi ∧ 0 ≤ lo) as [Hlo Hlo0] by (unfold lo, hi; nia).
  assert (zlen (node_page f ch) = a) as Lp by (rewrite a_fanout; by apply node_page_length).
  apply vspec_obtain; [intros v1 I1 D1 _ C1 S1|by intros v1 D1; rewrite D1; split; [|apply touches_refl]..].
  eapply vspec_Ok; [by apply tree_node_Ok|]. cbv iota beta.
  assert (off +! index *! a = lo) as ->.
  { pose proof (io_capacity i i_ok). unfold cap in Hc. assert (0 ≤ index * a) by nia. unfold wadd, wmul, lo in *.
    rewrite !wrap_small; unfold in_width; rewrite ?wrap_small; unfold in_width; nia. }
  assert (whole z lo) as Wlo by (unfold lo; apply whole_add; [done|done|apply whole_times]).
  eapply vspec_bind; [apply (vspec_page _ lo); [congruence|done|done|done|lia]|..].
  2:{ intros e v3 [O T]. split; [done|]. rewrite D1 in T. eapply touches_wider; [exact T|lia|lia]. }
  intros _ v3 I3 S3 (T3 & Sn3 & C3). rewrite D1 in T3. assert (off + (index + 1) * a = lo + a) as Enext by (unfold lo; lia).
  eapply vspec_bind; [apply (IH (index + 1) v3); [congruence|lia|lia]|..]; rewrite Enext;
    replace (off + (index + 1 + zlen chs) * a) with hi by (unfold hi; lia).
  2:{ intros e v5 [O T]. split; [done|]. eapply touches_trans; [eapply touches_wider; [exact T3|lia|lia]|].
      eapply touches_wider; [exact T|lia|lia]. }
  intros ds v5 I5 S5 (-> & T5 & Sn5 & C5). apply vspec_ret. split; [done|]. split.
  { eapply touches_trans; [eapply touches_wider; [exact T3|lia|lia]|]. eapply touches_wider; [exact T5|lia|lia]. }
  split; [|congruence].
  change (concat (node_page f <$> ch :: chs)) with (node_page f ch ++ concat (node_page f <$> chs)).
  apply each_app; [done|done|done|by rewrite Lp|]. rewrite Lp. split; [|done].
  eapply seen_touches; [done|exact T5|done|done|done|by rewrite Lp|rewrite Lp; lia].
Qed.

Lemma digests_shift ds k : digests f (digests f ds 1) k = digests f ds (S k).
Proof. induction k as [|k IH]; [done|]. simpl in *. by rewrite IH. Qed.

Lemma put_tree_spec Q cp ds end_ tree n v :
  info (dev v) = i → 0 ≤ end_ → end_ mod a = 0 → end_ ≤ cp → cp ≤ cap i → Forall (λ d : list byte, length d = 32%nat) ds →
  check_levels a cp end_ (zlen ds) tree = Ok n →
  vspec Q (put_tree a tree ds) v
    (λ ds' v', ds' = digests f ds (length tree) ∧ touches z end_ (tree_end a end_ tree) (dk v) (dk v') ∧
       (∀ k l, tree !! k = Some l → seen z (dk v') (lv_offset l) (concat (level_pages f (digests f ds k)))) ∧
       copied v' = copied v)
    (λ e v', outside e ∧ touches z end_ (tree_end a end_ tree) (dk v) (dk v')).
Proof.
  pose proof (z_pos i i_ok) as Hz. intros Hi He Hm Hcp Hc Hd E. revert ds end_ v Hi He Hm Hcp Hd E.
  induction tree as [|l tree IH]; intros ds end_ v Hi He Hm Hcp Hd E; cbn [put_tree].
  { apply vspec_ret. split; [done|]. split; [apply touches_refl|]. split; [by intros k l ?|done]. }
  apply (check_levels_cons f a cp f_some a_fanout) in E as (En & Eo & Hlt & Hle & _ & E); [|done|apply zlen_nonneg|done].
  assert (zlen (level_pages f ds) = lv_nodes l) as Lp by (rewrite zlen_level_pages; [by rewrite En|done]).
  set (ds1 := digests f ds 1). assert (zlen ds1 = lv_nodes l) as L1 by (unfold ds1; rewrite (zlen_digests f f_some); by rewrite En).
  assert (0 ≤ lv_nodes l) by (rewrite <- Lp; apply zlen_nonneg).
  set (mid := end_ + lv_nodes l * a) in *. assert (mid mod a = 0) as Hm' by (unfold mid; by rewrite Z.mod_add by lia).
  assert (end_ ≤ mid) by (unfold mid; nia). rewrite <- L1 in E.
  destruct (tree_end_ge f a cp f_some a_fanout mid (zlen ds1) tree n ltac:(lia) (zlen_nonneg _) Hm' E Hle) as [[Hge1 Hge2] _].
  cbn [tree_end]. fold mid. apply vspec_obtain; [intros v1 I1 D1 _ C1 S1|by intros v1 D1; rewrite D1; split; [|apply touches_refl]..].
  rewrite (align_div f a a_fanout), Nat2Z.id, Eo.
  eapply vspec_bind; [apply (put_nodes_spec _ end_ (chunks f ds) 0 v1); [congruence|done|lia| | |]|..].
  { apply (whole_mod i i_ok _ a); [done|lia|done]. }
  { apply Forall_forall. intros ch Hch. apply (chunks_sub f ltac:(lia)) in Hch as [Hl Hs]. split; [|done].
    apply Forall_forall. intros x Hx. rewrite Forall_forall in Hd. by apply Hd, Hs. }
  { unfold zlen at 1. rewrite <- (length_fmap (node_page f)). fold (level_pages f ds). fold (zlen (level_pages f ds)). rewrite Lp. fold mid. lia. }
  all: assert (zlen (chunks f ds) = lv_nodes l) as Lch by (rewrite <- Lp; unfold zlen, level_pages; by rewrite length_fmap).
  all: rewrite Lch, Z.mul_0_l, Z.add_0_r, Z.add_0_l; fold mid.
  2:{ intros e v2 [O T]. split; [done|]. rewrite D1 in T. eapply touches_wider; [exact T|lia|lia]. }
  intros ds' v2 I2 S2 (-> & T2 & Sn2 & C2). rewrite D1 in T2. fold (level_pages f ds) in Sn2 |- *.
  change (blake3 <$> level_pages f ds) with ds1.
  eapply vspec_mono; [apply (IH ds1 mid v2); [congruence|lia|done|done|apply blake3_digests|done]|..].
  - intros ds'' v3 _ (-> & T3 & Sn3 & C3). split; [apply digests_shift|]. split.
    { eapply touches_trans; [eapply touches_wider; [exact T2|lia|lia]|]. eapply touches_wider; [exact T3|lia|lia]. }
    split; [|congruence]. intros [|k] l' Hk.
    + injection Hk as <-. rewrite Eo. cbn [digests].
      assert (zlen (concat (level_pages f ds)) = lv_nodes l * a) as Lc.
      { rewrite (zlen_concat_uniform _ a), Lp; [done|]. rewrite a_fanout. by apply level_pages_uniform. }
      eapply seen_touches; [done|exact T3|done|done| | |rewrite Lc; fold mid; lia].
      * apply (whole_mod i i_ok _ a); [done|lia|done].
      * rewrite Lc. apply whole_times.
    + rewrite <- digests_shift. by apply Sn3.
  - intros e v3 _ [O T]. split; [done|]. eapply touches_trans; [eapply touches_wider; [exact T2|lia|lia]|].
    eapply touches_wider; [exact T|lia|lia].
Qed.

End blocks.

(** ** The commit *)

(** A store with something more under a key. *)
Definition store_insert (k : list byte) (x : Metadata * list byte) (m : Store) : Store :=
  λ k', if bool_decide (k' = k) then Some x else m k'.

Lemma vol_flushed d r old j m : vol d r old j m → vol (flushed d) r old j m.
Proof. intros V. apply (vol_touches i i_ok d _ r old j m (data j) (data j)); [done|by left|apply touches_flushed]. Qed.

(** A bank with one commit more, from what it was and the pair that records it. *)
Lemma advance_bank d d' g j m c content e rc :
  banked i d g j m → commit_ok c → validate_commit c j = Ok tt → encode (FCommit c) = Ok e → zlen e ≤ cell j →
  encode (FReceipt (log j) (blake3 e)) = Ok rc →
  keeps i (log_offset g) (log j) d d' → keeps i (log j + 2 * cell j) (data j) d d' →
  holds z d' (log j) (padded (cell j) e) → holds z d' (log j + cell j) (padded (cell j) rc) → stored i d' g c content →
  banked i d' g (advance c j) (store_insert (key (object (metadata c))) (metadata c, content) m).
Proof.
  intros B C Vc Ee Le Er Kl K1 He Hr Hst. destruct (bank_journal _ _ _ _ _ B) as [J G]. destruct (jo_cell_range j J) as [Hcr _].
  pose proof (receipt_size _ _ _ (blake3_len e) Er) as Lr. pose proof (proj1 (validate_commit_Ok c j) Vc) as (Hcap & _).
  pose proof (proj1 (has_capacity_spec j J) Hcap) as Hroom. pose proof (jo_data j J).
  destruct B as [W Wa (j0 & E0 & Ch) Vt Vs]. pose proof Wa as Wa'. rewrite <- G in Wa'.
  destruct (log_whole i i_ok j J Wa') as (Wc & Wlo & Wl & Hlo). rewrite G in *.
  destruct (journal_new_Ok _ _ W E0) as (J0 & G0 & _ & Elog & _). destruct (chain_ok i _ _ _ Ch J0) as (_ & Gj & Ec & _).
  split; try done.
  - exists j0. split; [done|]. eapply chain_snoc; [|done| | |exact He|exact Hr|by apply replay_pair]; [|apply zlen_padded; lia..].
    apply (chain_keeps i i_ok d d' j0 j (log j) Ch J0); [by rewrite <- Ec|by rewrite Elog| |done|by rewrite G0].
    by rewrite Elog, G0.
  - intros k Hk. simpl in *. specialize (Vt (S k)). replace (Z.of_nat (S k)) with (Z.of_nat k + 1) in Vt by lia.
    replace (log j + 2 * cell j + 2 * cell j * Z.of_nat k + cell j) with (log j + 2 * cell j * (Z.of_nat k + 1) + cell j) by lia.
    rewrite G in *. apply K1; [nia|rewrite zlen_zeroes by lia; nia| |by rewrite zlen_zeroes by lia|apply Vt; lia].
    apply whole_add; [done| |done]. apply whole_add; [done|done|]. rewrite (Z.mul_comm 2), <- Z.mul_assoc. by apply whole_mul.
  - intros k. unfold current, advance, store_insert. simpl. rewrite smap_get_insert.
    case_bool_decide as Ek; [done|]. specialize (Vs k). unfold current in Vs.
    destruct (smap_get (entries j) k) as [c'|] eqn:Ek'; [|done]. destruct (m k) as [[md ct]|]; [|done].
    destruct Vs as [-> Hst']. split; [done|]. apply smap_get_elem in Ek'.
    destruct (jo_entries j J k c' Ek') as (_ & _ & Vi & _ & Hend). rewrite G in Vi, Hend.
    eapply stored_keeps; [done|done|done|done|exact Hend| |done]. intros off bs Ho. apply K1. lia.
Qed.

(** The volume with one commit more. *)
Lemma advance_vol d d' r old j m c content e rc :
  vol d r old j m → commit_ok c → validate_commit c j = Ok tt → encode (FCommit c) = Ok e → zlen e ≤ cell j →
  encode (FReceipt (log j) (blake3 e)) = Ok rc →
  keeps i 0 (log j) d d' → keeps i (log j + 2 * cell j) (data j) d d' →
  holds z d' (log j) (padded (cell j) e) → holds z d' (log j + cell j) (padded (cell j) rc) → stored i d' (geometry j) c content →
  vol d' r old (advance c j) (store_insert (key (object (metadata c))) (metadata c, content) m).
Proof.
  intros V C Vc Ee Le Er K0 K1 He Hr Hst. destruct (vol_journal _ _ _ _ _ _ V) as [J G].
  destruct (vol_two_cells i _ _ _ _ _ V) as [H2 _]. pose proof (go_align _ (jo_geometry j J)) as (f & Hf & Ha).
  pose proof (vol_is_bank i _ _ _ _ _ V) as B. rewrite G in *.
  assert (keeps i (log_offset (root_geometry r)) (log j) d d') as Kl by (intros off bs Ho; apply K0; lia).
  destruct (advance_bank d d' _ j m c content e rc B C Vc Ee Le Er Kl K1 He Hr Hst) as [_ _ Hl Ht Hs].
  pose proof V as [V1 (er & E1) V3 V4 [Wa V5] V6 V7 V8 _ _ _]. destruct (zlen_cell_of r er E1) as [_ Lc].
  pose proof (other_length i _ _ _ _ _ V) as Lo. rewrite <- G in Wa. destruct (log_whole i i_ok j J Wa) as (_ & _ & _ & Hlo). rewrite G in *.
  assert (slot r = 0 ∨ slot r = alignment (root_geometry r)) as Hslot by (destruct (slot_cases r V1) as [[-> _]|[-> _]]; auto).
  split; try done; [by exists er|..].
  - apply K0; [lia|rewrite Lc; lia|by destruct Hslot as [->| ->]|by rewrite Lc|done].
  - apply K0; [lia|rewrite Lo; lia|by destruct Hslot as [->| ->]; rewrite ?Z.sub_0_r, ?Z.sub_diag|by rewrite Lo|done].
Qed.

(** A cell of zeroes, with a frame of one sector written to it or not. *)
Lemma cell_one d d' d'' off n e :
  wrote z off (padded n e) d d' → holds z d off (repeat x00 (Z.to_nat n)) → zlen e ≤ sector_size i → zlen e ≤ n → whole z n →
  crash d' d'' → holds z d'' off (repeat x00 (Z.to_nat n)) ∨ holds z d'' off (padded n e).
Proof.
  intros W H He Hn Wn C. pose proof (z_pos i i_ok) as Hz. pose proof (zlen_nonneg e).
  apply (wrote_one z off _ _ d d' d''); try done.
  - assert (zlen (padded n e) = n) as L1 by (by apply zlen_padded).
    assert (zlen (repeat x00 (Z.to_nat n)) = n) as L2 by (apply zlen_zeroes; lia).
    pose proof (whole_length z Hz (padded n e) ltac:(by rewrite L1)) as W1.
    pose proof (whole_length z Hz (repeat x00 (Z.to_nat n)) ltac:(by rewrite L2)) as W2.
    rewrite (length_chunks z _ _ Hz W1), (length_chunks z _ _ Hz W2). by rewrite L1, L2.
  - intros k Hk. symmetry. by apply padded_tail.
Qed.

(** A volume where one of two states is found after any crash. *)
Definition either (d : Disk) (r : Root) (j : Journal) (m : Store) (j' : Journal) (m' : Store) : Prop :=
  ∀ d', crash d d' → ∃ old, vol d' r old j m ∨ vol d' r old j' m'.

(** What a refusal leaves: the volume as it was, unless the device is not to be used again. *)
Definition stopped (r : Root) (old : option Root) (j : Journal) (m : Store) (j' : Journal) (m' : Store) (e : Stop) (v : Volume) : Prop :=
  match e with
  | Refused Unavailable | Crashed => either (dk v) r j m j' m'
  | Refused NoCapacity | Refused Busy => vol (dk v) r old j m
  | _ => False
  end.

Lemma stopped_vol r old j m j' m' e v : outside e → vol (dk v) r old j m → stopped r old j m j' m' e v.
Proof.
  intros O V. assert (either (dk v) r j m j' m') by (intros d' C; exists old; left; by eapply vol_crash).
  by destruct e as [[]| |].
Qed.

(** The receipt written, wholly or in part: the commit is there after a crash, or it is not. *)
Lemma receipt_either d d' r old j m c content e rc :
  vol d r old j m → commit_ok c → validate_commit c j = Ok tt → encode (FCommit c) = Ok e → zlen e ≤ cell j →
  encode (FReceipt (log j) (blake3 e)) = Ok rc → holds z d (log j) (padded (cell j) e) → stored i d (geometry j) c content →
  wrote z (log j + cell j) (padded (cell j) rc) d d' →
  either d' r j m (advance c j) (store_insert (key (object (metadata c))) (metadata c, content) m) ∧
  (seen z d' (log j + cell j) (padded (cell j) rc) →
   vol (flushed d') r old (advance c j) (store_insert (key (object (metadata c))) (metadata c, content) m)).
Proof.
  intros V C Vc Ee Le Er He Hst W. destruct (vol_journal _ _ _ _ _ _ V) as [J G]. destruct (jo_cell_range j J) as [Hcr _].
  pose proof (receipt_size _ _ _ (blake3_len e) Er) as Lr. pose proof (proj1 (validate_commit_Ok c j) Vc) as (Hcap & _ & Vi & _).
  pose proof (proj1 (has_capacity_spec j J) Hcap) as Hroom. destruct (vo_align _ _ _ _ _ _ V) as [Wa _]. rewrite <- G in Wa.
  destruct (log_whole i i_ok j J Wa) as (Wc & Wlo & Wl & Hlo). pose proof (jo_data j J). pose proof (io_sector i i_ok) as [_ Hss].
  pose proof (go_align _ (jo_geometry j J)) as (f & Hf & Ha). pose proof (go_log _ (jo_geometry j J)).
  assert (zlen (padded (cell j) rc) = cell j) as Lrc by (apply zlen_padded; lia).
  assert (zlen (padded (cell j) e) = cell j) as Lre by (by apply zlen_padded).
  assert (∀ d'', (∀ lo hi, touches z lo hi d d' → touches z lo hi d d'' ∨ crash d' d'') → ∀ lo hi, 0 ≤ lo →
    hi ≤ log j + cell j ∨ log j + 2 * cell j ≤ lo → keeps i lo hi d d'') as Kp.
  { intros d'' Hd lo hi Hpos Hap. destruct W as [T _]. rewrite Lrc in T.
    assert (keeps i lo hi d d') as K1 by (eapply keeps_touches; [done|lia|exact T|lia]).
    destruct (Hd _ _ T) as [T'|Cr]; [eapply keeps_touches; [done|lia|exact T'|lia]|]. eapply keeps_trans; [exact K1|by apply keeps_crash]. }
  assert (∀ d'', (∀ lo hi, 0 ≤ lo → hi ≤ log j + cell j ∨ log j + 2 * cell j ≤ lo → keeps i lo hi d d'') →
    holds z d'' (log j + cell j) (padded (cell j) rc) →
    vol d'' r old (advance c j) (store_insert (key (object (metadata c))) (metadata c, content) m)) as Fin.
  { intros d'' K Hr. eapply (advance_vol d); try done.
    - apply K; lia.
    - apply K; lia.
    - apply (K (log j) (log j + cell j)); [lia|lia|lia|rewrite Lre; lia|done|by rewrite Lre|done].
    - eapply stored_keeps; [done|apply J|done|done|reflexivity| |done]. apply K; lia. }
  split.
  - intros d'' Cr. exists old. pose proof (vo_tail _ _ _ _ _ _ V 0%nat) as Ht. change (Z.of_nat 0) with 0 in Ht.
    rewrite Z.mul_0_r, Z.add_0_r in Ht. specialize (Ht ltac:(lia)).
    assert (∀ lo hi, 0 ≤ lo → hi ≤ log j + cell j ∨ log j + 2 * cell j ≤ lo → keeps i lo hi d d'') as K by (apply Kp; auto).
    destruct (cell_one d d' d'' (log j + cell j) (cell j) rc W Ht ltac:(lia) ltac:(lia) Wc Cr) as [Hz|Hr]; [left|right; by apply Fin].
    destruct (vol_two_cells i _ _ _ _ _ V) as [H2 _]. destruct (vo_encodes _ _ _ _ _ _ V) as (er & E1).
    destruct (zlen_cell_of r er E1) as [_ Lc]. pose proof (other_length i _ _ _ _ _ V) as Lo. rewrite <- G in Lc, Lo.
    assert (slot r = 0 ∨ slot r = alignment (geometry j)) as Hslot
      by (rewrite G; destruct (slot_cases r (vo_root _ _ _ _ _ _ V)) as [[-> _]|[-> _]]; auto).
    apply (vol_change i i_ok d _ r old old j m V); [apply K; lia|apply K; lia| | | |apply V].
    + intros k Hk. destruct k as [|k].
      { change (Z.of_nat 0) with 0. by rewrite Z.mul_0_r, Z.add_0_r. }
      apply (K (log j + 2 * cell j) (data_offset (geometry j))); [lia|lia|lia|rewrite zlen_zeroes by lia; lia| |by rewrite zlen_zeroes by lia|by apply V].
      apply whole_add; [done| |done]. apply whole_add; [done|done|]. rewrite (Z.mul_comm 2), <- Z.mul_assoc. by apply whole_mul.
    + apply (K 0 (log j)); [lia|lia|lia|rewrite Lc; lia|by destruct Hslot as [->| ->]|by rewrite Lc|apply V].
    + rewrite <- G. apply (K 0 (log j)); [lia|lia|lia|rewrite Lo; lia| |by rewrite Lo|rewrite G; apply V].
      by destruct Hslot as [->| ->]; rewrite ?Z.sub_0_r, ?Z.sub_diag.
  - intros Sn. apply Fin; [|by apply seen_flushed]. apply Kp. intros lo hi T. left. eapply touches_trans; [exact T|apply touches_flushed].
Qed.

Lemma commit_pair_spec Q v r old m c content e :
  let j := journal v in
  info (dev v) = i → vol (dk v) r old j m → cell j ≤ max_bytes i → commit_ok c → validate_commit c j = Ok tt →
  encode (FCommit c) = Ok e → zlen e ≤ cell j → stored_by (seen z (dk v)) (geometry j) c content →
  let m' := store_insert (key (object (metadata c))) (metadata c, content) m in
  vspec Q (commit_pair c) v
    (λ p v', replay p.1 p.2 j = Ok (true, advance c j) ∧ vol (dk v') r old (advance c j) m')
    (stopped r old j m (advance c j) m').
Proof.
  intros j Hi V Hmax C Vc Ee Le Hst m'. destruct (vol_journal _ _ _ _ _ _ V) as [J G].
  destruct (jo_cell_range j J) as [Hcr Hcm]. destruct (receipt_encodes (log j) (blake3 e) (blake3_len e)) as [rc Er].
  pose proof (receipt_size _ _ _ (blake3_len e) Er) as Lr. pose proof (proj1 (validate_commit_Ok c j) Vc) as (Hcap & _ & Vi & pad & tree & rt & El).
  apply (has_capacity_spec j J) in Hcap. pose proof (jo_geometry j J) as GG. pose proof (go_data _ GG). pose proof (go_capacity _ GG).
  destruct (vol_two_cells i _ _ _ _ _ V) as [H2 Hcp]. destruct (jo_log j J) as [k Hk].
  destruct (vo_align _ _ _ _ _ _ V) as [Wa _]. rewrite <- G in Wa. destruct (go_align _ GG) as (f & Hf & Ha).
  assert (whole z (cell j)) as Wc by (by apply (whole_mod i i_ok _ (alignment (geometry j))); [done|lia|]).
  assert (log_offset (geometry j) ≤ log j) as Hlog by nia.
  assert (whole z (log j)) as Wl.
  { rewrite Hk. apply whole_add; [done| |].
    - pose proof (go_multiples _ GG) as (_ & M & _). by apply (whole_mod i i_ok _ (alignment (geometry j))); [done|lia|].
    - rewrite (Z.mul_comm 2), <- Z.mul_assoc. by apply whole_mul. }
  assert (zlen (padded (cell j) e) = cell j) as Le1 by (by apply zlen_padded).
  assert (zlen (padded (cell j) rc) = cell j) as Lr1 by (apply zlen_padded; lia).
  assert (free j (log j) (log j + cell j)) as Hfree by (right; left; lia).
  assert (∀ d d', touches z (log j) (log j + cell j) d d' → vol d r old j m → vol d' r old j m) as Keep.
  { intros d d' T Hv. by eapply vol_touches. }
  assert (∀ lo hi d d', touches z lo hi d d' → hi ≤ data_offset (geometry j) → stored i d (geometry j) c content → stored i d' (geometry j) c content) as KeepS.
  { intros lo hi d d' T Hhi. eapply stored_keeps; [done|apply J|done|done|reflexivity|]. eapply keeps_touches; [done|lia|exact T|by right]. }
  unfold commit_pair. apply vspec_gets. fold j. eapply vspec_Ok; [exact Vc|]. eapply vspec_Ok; [exact Ee|].
  rewrite (proj2 (Z.ltb_ge (cell j) (zlen e)) Le).
  eapply vspec_bind; [apply vspec_io, spec_flush| |]; cbv beta.
  2:{ intros x v1 (D1 & O & _). apply stopped_vol; [done|]. by rewrite D1. }
  intros _ v1 I1 S1 [[D1 HP1] _]. assert (vol (dk v1) r old j m) as V1 by (rewrite D1; by apply vol_flushed).
  assert (stored i (dk v1) (geometry j) c content) as St1.
  { rewrite D1. revert Hst. apply stored_mono. intros off bs. apply seen_flushed. }
  eapply vspec_Ok; [exact Er|].
  apply vspec_obtain; [intros v2 I2 D2 _ _ S2|by intros v2 D2; apply stopped_vol; [|rewrite D2]..].
  apply vspec_obtain; [intros v3 I3 D3 _ _ S3|by intros v3 D3; apply stopped_vol; [|rewrite D3, D2]..].
  apply vspec_obtain; [intros v4 I4 D4 _ _ S4|by intros v4 D4; apply stopped_vol; [|rewrite D4, D3, D2]..].
  assert (dk v4 = dk v1) as E4 by congruence. assert (info (dev v4) = i) as J4 by congruence.
  eapply vspec_bind; [apply vspec_io, (spec_write i i_ok); [done|lia|done|by rewrite Le1|rewrite Le1; lia]|..]; cbv beta.
  2:{ intros x v5 (O & [T _] & _). rewrite Le1, E4 in T. apply stopped_vol; [done|]. by eapply Keep. }
  intros _ v5 I5 S5 [([T5 _] & Sn5 & _) _]. rewrite Le1, E4 in T5. pose proof (Keep _ _ T5 V1) as V5.
  pose proof (KeepS _ _ _ _ T5 ltac:(lia) St1) as St5.
  eapply vspec_bind; [apply vspec_io, spec_flush| |]; cbv beta.
  2:{ intros x v6 (D6 & O & _). apply stopped_vol; [done|]. by rewrite D6. }
  intros _ v6 I6 S6 [[D6 HP6] _]. assert (vol (dk v6) r old j m) as V6 by (rewrite D6; by apply vol_flushed).
  assert (stored i (dk v6) (geometry j) c content) as St6.
  { rewrite D6. apply (KeepS 0 0 (dk v5)); [apply touches_flushed|lia|done]. }
  assert (holds z (dk v6) (log j) (padded (cell j) e)) as He6 by (rewrite D6; by apply seen_flushed).
  apply vspec_obtain; [intros v7 I7 D7 HP7 _ S7|by intros v7 D7; apply stopped_vol; [|rewrite D7]..].
  assert (log j +! cell j = log j + cell j) as ->.
  { unfold wadd. apply wrap_small. unfold in_width. lia. }
  assert (holds z (dk v7) (log j + cell j) (repeat x00 (Z.to_nat (cell j)))) as Hz7.
  { rewrite D7. pose proof (vo_tail _ _ _ _ _ _ V6 0%nat) as Ht. change (Z.of_nat 0) with 0 in Ht.
    rewrite Z.mul_0_r, Z.add_0_r in Ht. apply Ht. lia. }
  rewrite <- D7 in V6, St6, He6.
  eapply vspec_bind; [apply vspec_io, (spec_write i i_ok); [congruence|lia|by apply whole_add|by rewrite Lr1|rewrite Lr1; lia]|..]; cbv beta.
  2:{ intros x v8 (O & W & Hb & Hn). destruct (receipt_either _ _ _ _ _ _ _ _ _ _ V6 C Vc Ee Le Er He6 St6 W) as [Hei _].
      destruct x as [[]| |]; try done; simpl.
      - rewrite (Hn eq_refl) by (rewrite Lr1; lia). done.
      - destruct (Hb eq_refl) as [-> _]. done. }
  intros _ v8 I8 S8 [(W8 & Sn8 & HP8) _]. destruct (receipt_either _ _ _ _ _ _ _ _ _ _ V6 C Vc Ee Le Er He6 St6 W8) as [Hei Hfin].
  eapply vspec_bind; [apply vspec_io, spec_flush| |]; cbv beta.
  2:{ intros x v9 (D9 & O & Hn & Hb). destruct x as [[]| |]; try done; simpl; rewrite ?D9; try done.
      specialize (Hb eq_refl). congruence. }
  intros _ v9 I9 S9 [[D9 _] _]. apply vspec_ret. split; [by apply replay_pair|]. rewrite D9. by apply Hfin.
Qed.

(** ** The commit of an object *)

Lemma hex_digit_ascii n : 0 ≤ n < 16 → byte_Z (hex_digit n) ≤ 127.
Proof.
  intros Hn. unfold hex_digit. rewrite byte_Z_Z_byte. destruct (Z.ltb_spec n 10); rewrite Z.mod_small; lia.
Qed.

Lemma hex_ok l : text_ok (hex l) ∧ zlen (hex l) = 2 * zlen l.
Proof.
  split.
  - apply utf8_valid_ascii. induction l as [|b l IH]; [constructor|]. simpl. pose proof (byte_Z_range b).
    pose proof (Z.div_mod (byte_Z b) 16 ltac:(lia)). pose proof (Z.mod_pos_bound (byte_Z b) 16 ltac:(lia)).
    constructor; [apply hex_digit_ascii; lia|]. constructor; [apply hex_digit_ascii; lia|done].
  - induction l as [|b l IH]; [done|]. change (hex (b :: l)) with (hex_digit (byte_Z b / 16) :: hex_digit (byte_Z b mod 16) :: hex l).
    rewrite !zlen_cons, IH. lia.
Qed.

Lemma version_of_ok d u : zlen d = 32 → zlen u = 16 →
  validate_version (version_of d u) = Ok tt ∧ version_ok (version_of d u) ∧
  short_opt (etag (version_of d u)) ∧ short_opt (generation (version_of d u)).
Proof.
  intros Hd Hu. destruct (hex_ok d) as [T1 L1], (hex_ok u) as [T2 L2]. split_and!; simpl; try done.
  - unfold validate_version. simpl. destruct (hex d); [rewrite zlen_nil in L1; lia|done].
  - unfold short. lia.
  - unfold short. lia.
Qed.

(** A commit takes the bytes its preview took. *)
Lemma preview_size seq o n d1 d2 u h1 h2 off pad tree r1 r2 pv :
  zlen d1 = 32 → zlen d2 = 32 → zlen u = 16 → zlen h1 = 32 → zlen h2 = 32 → zlen r1 = 32 → zlen r2 = 32 →
  encode (FCommit (mk_Commit seq (mk_Metadata o (version_of d1 u) n) h1 (Extent off pad tree r1))) = Ok pv →
  ∃ e, encode (FCommit (mk_Commit seq (mk_Metadata o (version_of d2 u) n) h2 (Extent off pad tree r2))) = Ok e ∧ zlen e = zlen pv.
Proof.
  intros L1 L2 Lu Lh1 Lh2 Lr1 Lr2 ((V1 & V2 & V3 & V4 & V5 & V6) & Hl & ->)%encode_Ok. simpl in V1, V2, V3, V4, V5, V6.
  destruct (version_of_ok d2 u L2 Lu) as (W1 & _ & W2 & W3).
  assert (zlen (payload_of (FCommit (mk_Commit seq (mk_Metadata o (version_of d2 u) n) h2 (Extent off pad tree r2)))) =
          zlen (payload_of (FCommit (mk_Commit seq (mk_Metadata o (version_of d1 u) n) h1 (Extent off pad tree r1))))) as E.
  { destruct (hex_ok d1) as [_ X1], (hex_ok d2) as [_ X2]. unfold payload_of, frame_body, commit_bytes, location_bytes, location_body.
    cbn [metadata object version bytes etag generation version_of content_hash location sequence frame_tag].
    unfold optional_bytes, text_bytes. rewrite !zlen_app, !zlen_le_enc. lia. }
  eexists. split; [apply encode_Ok; split; [|split; [rewrite E; exact Hl|reflexivity]]|by rewrite !zlen_frame_bytes, E].
  exact (conj V1 (conj W1 (conj V3 (conj V4 (conj (conj W2 W3) V6))))).
Qed.

Lemma tree_levels_ok g m off pad tree rt :
  superblock_ok g → geometry_ok g → 0 ≤ bytes m → extent_ok g m off pad tree rt → Forall level_ok tree.
Proof.
  intros W G Hb X. destruct (decide (bytes m = 0)) as [E0|E0].
  { by destruct (xo_empty _ _ _ _ _ _ X E0) as [-> _]. }
  destruct (xo_tree _ _ _ _ _ _ X E0) as [_ Hc]. destruct (go_align g G) as (f & Hf & Ha).
  pose proof (xo_data _ _ _ _ _ _ X). pose proof (xo_end _ _ _ _ _ _ X). pose proof (xo_padded _ _ _ _ _ _ X) as Hp. pose proof (go_log g G). pose proof (go_data g G).
  pose proof (div_ceil_nonneg (bytes m) (alignment g) ltac:(lia) Hb) as Hn. pose proof (xo_aligned _ _ _ _ _ _ X).
  destruct W as (Wc & _ & _ & [Wl _] & _). unfold in_width in Wc. assert (0 ≤ pad) by nia.
  assert ((off + pad) mod alignment g = 0) as Hm by (by rewrite Hp, Z.mod_add by lia).
  destruct (tree_end_ge f _ (capacity g) Hf Ha (off + pad) _ tree 1 ltac:(lia) Hn Hm Hc ltac:(lia)) as [? _].
  apply Forall_forall. intros l [k Hk]%list_elem_of_lookup.
  destruct (tree_level_bounds f _ (capacity g) Hf Ha (off + pad) _ tree 1 k l ltac:(lia) Hn Hm Hc ltac:(lia) Hk) as (? & _ & ? & ?).
  unfold level_ok, in_width. nia.
Qed.

(** A step that leaves the journal alone, before others. *)
Lemma vspec_then {A B} Q (f : V A) (k : A → V B) v P F (R : result Stop B → Volume → Prop) :
  vspec Q f v P F →
  (∀ a v1, info (dev v1) = info (dev v) → vsame v v1 → (Q → good (dev v) → good (dev v1)) → P a v1 → wp (k a) R v1) →
  (∀ e v1, vsame v v1 → (Q → ¬ good (dev v)) → F e v1 → R (Err e) v1) → wp (f ≫= k) R v.
Proof.
  unfold vspec. intros H Hk HF. apply wp_bind. eapply wp_mono; [exact H|]. intros [a|e] v1 (I1 & P1 & G1 & S1 & Q1).
  - apply Hk; try done. intros HQ G. by apply G1.
  - apply HF; try done. intros HQ G. by destruct (G1 HQ G) as [_ [? ?]].
Qed.

(** How a commit ends: it is there; or it is refused, as [stopped] says. *)
Definition committed {A} (Q : Prop) (v : Volume) (r : Root) (old : option Root) (m : Store) (c : Commit) (content : list byte)
    (res : result Stop A) (v' : Volume) : Prop :=
  let j := journal v in
  let m' := store_insert (key (object (metadata c))) (metadata c, content) m in
  (Q → good (dev v) → ∃ a, res = Ok a) ∧
  (root v' = root v ∧ failed v' = failed v ∧ async_failed v' = async_failed v ∧ loan v' = loan v) ∧
  match res with
  | Ok _ => journal v' = advance c j ∧ vol (dk v') r old (advance c j) m'
  | Err e => journal v' = j ∧ stopped r old j m (advance c j) m' e v'
  end.

Lemma committed_stopped {A} (Q : Prop) v r old m c content e v' :
  vsame v v' → (Q → ¬ good (dev v)) →
  stopped r old (journal v) m (advance c (journal v)) (store_insert (key (object (metadata c))) (metadata c, content) m) e v' →
  committed Q v r old m c content (Err e : result Stop A) v'.
Proof. intros (? & ? & ? & ? & ?) HQ Hs. split; [by intros ? ?%HQ|]. done. Qed.

Lemma publish_spec Q v r old m c content e :
  let j := journal v in
  info (dev v) = i → vol (dk v) r old j m → cell j ≤ max_bytes i → commit_ok c → validate_commit c j = Ok tt →
  encode (FCommit c) = Ok e → zlen e ≤ cell j → stored_by (seen z (dk v)) (geometry j) c content →
  wp (publish c) (committed Q v r old m c content) v.
Proof.
  intros j Hi V Hmax C Vc Ee Le Hst. unfold publish. change (wp (gets journal ≫= ?k) ?R ?v) with (wp (k (journal v)) R v). fold j.
  eapply vspec_then; [by apply (commit_pair_spec Q v r old m c content e)|..].
  2:{ intros x v1 S1 G1 H1. by apply committed_stopped. }
  intros [rec rcp] v1 I1 S1 G1 [Hrep V1]. cbn [fst snd] in Hrep. cbv iota beta. fold j in Hrep.
  assert (∀ e v', dk v' = dk v1 → outside e → e = Refused Unavailable ∨ e = Crashed →
    stopped r old j m (advance c j) (store_insert (key (object (metadata c))) (metadata c, content) m) e v') as St.
  { intros x v' D _ Hx. assert (either (dk v') r j m (advance c j) (store_insert (key (object (metadata c))) (metadata c, content) m)).
    { intros d' Cr. exists old. right. rewrite D in Cr. by eapply vol_crash. }
    by destruct Hx as [->| ->]. }
  eapply vspec_then; [apply vspec_asked|..].
  2:{ intros x v2 S2 G2 [D2 Hx]. apply committed_stopped; [by eapply vsame_trans| |apply St; [done|by destruct Hx as [->| ->]|done]].
      intros HQ G. by apply (G2 HQ), G1. }
  intros _ v2 I2 S2 G2 [D2 _]. eapply vspec_then; [apply vspec_asked|..].
  2:{ intros x v3 S3 G3 [D3 Hx]. apply committed_stopped; [by eapply vsame_trans; [|eapply vsame_trans]| |apply St; [congruence|by destruct Hx as [->| ->]|done]].
      intros HQ G. by apply (G3 HQ), G2, G1. }
  intros _ v3 I3 S3 G3 [D3 _]. rewrite Hrep. unfold wp, or_refuse, map_err, lift, mbind, M_bind, set_journal, modify. simpl.
  destruct S1 as (? & ? & ? & ? & ?), S2 as (? & ? & ? & ? & ?), S3 as (? & ? & ? & ? & ?).
  split; [intros _ _; by exists tt|]. split; [simpl; split_and!; congruence|]. simpl. split; [done|]. rewrite D3, D2. done.
Qed.

(** ** The whole of it *)

Lemma volume_object_cases o v :
  ∃ res, volume_object o v = (res, v) ∧
    match res with
    | Ok _ => failed v = false ∧ async_failed v = false ∧ validate_object o = Ok tt ∧
              workspace o = sb_workspace (geometry (journal v)) ∧ bucket o = sb_bucket (geometry (journal v))
    | Err e => (e = Refused Unavailable ∧ (failed v = true ∨ async_failed v = true)) ∨
               (e = Refused BadRequest ∧ validate_object o ≠ Ok tt) ∨
               (e = Refused Denied ∧ ¬ (workspace o = sb_workspace (geometry (journal v)) ∧ bucket o = sb_bucket (geometry (journal v))))
    end.
Proof.
  unfold volume_object, mbind, M_bind, gets, or_refuse, lift, map_err. simpl.
  destruct (failed v) eqn:E1; [exists (Err (Refused Unavailable)); split; [done|auto]|].
  destruct (async_failed v) eqn:E2; [exists (Err (Refused Unavailable)); split; [done|auto]|]. simpl.
  destruct (validate_object o) as [[]|] eqn:Ev; [|exists (Err (Refused BadRequest)); split; [done|]; right; left; split; [done|congruence]].
  case_bool_decide; simpl; [|exists (Err (Refused Denied)); split; [done|tauto]].
  case_bool_decide; simpl; [|exists (Err (Refused Denied)); split; [done|tauto]]. by exists (Ok tt).
Qed.

Lemma plan_Ok o cd n j loc :
  plan o cd n j = Ok (Some loc) →
  condition o cd j = Ok true ∧ journal_object o j = Ok tt ∧ has_capacity j = true ∧ extent (geometry j) (data j) n = Ok loc.
Proof.
  unfold plan. destruct (condition o cd j) as [[]|] eqn:Ec; [|done|done]. cbn [mbind result_bind negb].
  destruct (has_capacity j); [|done]. cbn [negb]. destruct (extent _ _ _) as [l|]; [|done]. cbn [mbind result_bind].
  intros [= ->]. split_and!; try done. unfold condition in Ec. by destruct (journal_object o j) as [[]|].
Qed.

Lemma journal_object_Ok o j : journal_object o j = Ok tt →
  validate_object o = Ok tt ∧ key o ≠ [] ∧ workspace o = sb_workspace (geometry j) ∧ bucket o = sb_bucket (geometry j).
Proof.
  unfold journal_object. destruct (validate_object o) as [[]|]; [|done]. cbn [mbind result_bind].
  destruct (is_nil (key o)) eqn:Ek; [done|]. simpl. case_bool_decide; [|done]. simpl. case_bool_decide; [|done].
  intros _. split_and!; try done. intros Hk. by rewrite Hk in Ek.
Qed.

(** What the commit of [content] at a planned place is. *)
Lemma put_commit j o n loc content unique pv :
  journal_ok j → object_ok o → u64 n → zlen content = n → zlen unique = 16 → journal_object o j = Ok tt → has_capacity j = true →
  extent (geometry j) (data j) n = Ok loc →
  encode (FCommit (mk_Commit (log j) (mk_Metadata o (version_of (repeat x00 32) unique) n) (repeat x00 32) loc)) = Ok pv →
  zlen pv ≤ cell j →
  ∃ pad tree rt, loc = Extent (data j) pad tree rt ∧ geometry_ok (geometry j) ∧
    (n = 0 → rt = blake3 []) ∧ zlen rt = 32 ∧
    ∀ rt', zlen rt' = 32 → (n = 0 → rt' = blake3 []) →
      let md := mk_Metadata o (version_of (blake3 content) unique) n in
      let c := mk_Commit (log j) md (blake3 content) (Extent (data j) pad tree rt') in
      extent_ok (geometry j) md (data j) pad tree rt' ∧ commit_ok c ∧ validate_commit c j = Ok tt ∧
      ∃ e, encode (FCommit c) = Ok e ∧ zlen e ≤ cell j.
Proof.
  intros J Ho Hn Hlen Hu Hob Hcap Hext Hpv Lpv. pose proof (jo_typed j J) as W. pose proof (jo_data j J) as Hd.
  assert (u64 (data j)) as Ud.
  { destruct W as ([_ ?] & _ & _ & _ & [? _] & _). unfold in_width in *. lia. }
  destruct (extent_Ok _ _ _ _ W Ud Hn Hext) as (pad & tree & rt & -> & G & Hrt & Lr & Hall).
  exists pad, tree, rt. split; [done|]. split; [done|]. split; [done|]. split; [done|]. intros rt' Lrt Hrt' md c.
  destruct (journal_object_Ok o j Hob) as (Vo & Vk & Vw & Vb). destruct (version_of_ok (blake3 content) unique (blake3_len _) Hu) as (Vv & Vok & _).
  destruct (Hall md rt' eq_refl Hrt') as [X Hvi]. specialize (Hvi (log j) (blake3 content) (conj Vo (conj Vv (conj Vw (conj Vb Vk))))).
  split; [done|]. assert (0 ≤ n) by apply Hn.
  assert (commit_ok c) as Cc.
  { split; [|split; [split; [done|split; [done|done]]|split; [apply blake3_len|]]].
    - pose proof (jo_log_end j J). destruct (jo_log j J) as [k Hk]. destruct (jo_cell_range j J) as [? _].
      destruct W as (_ & _ & L1 & _ & L2 & _). unfold in_width in *. simpl. nia.
    - pose proof (xo_end _ _ _ _ _ _ X). pose proof (xo_padded _ _ _ _ _ _ X) as Hp. simpl in Hp. destruct (go_align _ G) as (f & Hf & Ha).
      pose proof (div_ceil_nonneg n (alignment (geometry j)) ltac:(lia) ltac:(lia)).
      split_and!; [done| |by eapply tree_levels_ok; [done| |..|exact X]|done]. destruct W as ([_ ?] & _). unfold in_width in *. nia. }
  split; [done|]. split.
  - apply validate_commit_Ok. split_and!; try done. by exists pad, tree, rt'.
  - destruct (preview_size (log j) o n (repeat x00 32) (blake3 content) unique (repeat x00 32) (blake3 content) (data j) pad tree rt rt' pv
      eq_refl (blake3_len _) Hu eq_refl (blake3_len _) Lr Lrt Hpv) as (e & He & Le).
    exists e. split; [exact He|lia].
Qed.

(** The metadata a [put] gives an object. *)
Definition put_metadata (o : Object) (unique content : list byte) : Metadata :=
  mk_Metadata o (version_of (blake3 content) unique) (zlen content).

(** Nothing of the volume itself is in the way of a [put]. *)
Definition put_admits (v : Volume) (o : Object) (cd : Condition) (n : Z) (unique : list byte) : Prop :=
  failed v = false ∧ async_failed v = false ∧ copied v + n < 2 ^ 64 ∧
  ∃ loc pv, plan o cd n (journal v) = Ok (Some loc) ∧
    encode (FCommit (mk_Commit (log (journal v)) (mk_Metadata o (version_of (repeat x00 32) unique) n) (repeat x00 32) loc)) = Ok pv ∧
    zlen pv ≤ cell (journal v).

(** How a [put] ends. *)
Definition put_post (v : Volume) (r : Root) (old : option Root) (m : Store) (o : Object) (cd : Condition) (unique content : list byte)
    (res : result Stop Metadata) (v' : Volume) : Prop :=
  let j := journal v in
  let md := put_metadata o unique content in
  let m' := store_insert (key o) (md, content) m in
  (root v' = root v ∧ failed v' = failed v ∧ async_failed v' = async_failed v ∧ loan v' = loan v) ∧
  match res with
  | Ok x => x = md ∧ condition o cd j = Ok true ∧
            ∃ c, metadata c = md ∧ journal v' = advance c j ∧ vol (dk v') r old (advance c j) m'
  | Err e =>
      journal v' = j ∧
      match e with
      | Refused Unavailable | Crashed =>
          ∀ d', crash (dk v') d' → ∃ old', vol d' r old' j m ∨ ∃ c, metadata c = md ∧ vol d' r old' (advance c j) m'
      | Refused BadIntegrity | Panicked => False
      | Refused _ => vol (dk v') r old j m
      end
  end.

Lemma put_post_kept v r old m o cd unique content e v' :
  vsame v v' → vol (dk v') r old (journal v) m → e ≠ Refused BadIntegrity → e ≠ Panicked →
  put_post v r old m o cd unique content (Err e) v'.
Proof.
  intros (? & ? & ? & ? & ?) V Hx Hy. split; [done|]. split; [done|].
  assert (∀ d', crash (dk v') d' → ∃ old', vol d' r old' (journal v) m ∨ ∃ c, metadata c = put_metadata o unique content ∧
    vol d' r old' (advance c (journal v)) (store_insert (key o) (put_metadata o unique content, content) m)).
  { intros d' C. exists old. left. by eapply vol_crash. }
  by destruct e as [[]| |].
Qed.

Lemma put_post_committed Q v v1 r old m o cd unique content c (res : result Stop unit) v' :
  vsame v v1 → metadata c = put_metadata o unique content → condition o cd (journal v) = Ok true →
  committed Q v1 r old m c content res v' →
  put_post v r old m o cd unique content (match res with Ok _ => Ok (metadata c) | Err e => Err e end) v'.
Proof.
  intros (E1 & E2 & E3 & E4 & E5) Hm Hc (_ & (F2 & F3 & F4 & F5) & H). rewrite E1 in H. split; [split_and!; congruence|].
  assert (key (object (metadata c)) = key o) as Ek by (by rewrite Hm). rewrite Ek, Hm in H.
  destruct res as [[]|e].
  - destruct H as [Hj V]. split; [done|]. split; [done|]. by exists c.
  - destruct H as [Hj Hs]. split; [done|].
    destruct e as [[]| |]; try done; intros d' C; destruct (Hs d' C) as (old' & [V|V]); exists old'; [by left|right; by exists c|by left|right; by exists c].
Qed.

Lemma blocks_room g n : superblock_ok g → geometry_ok g → u64 n → checked_mul 64 (div_ceil n (alignment g)) 64 ≠ None.
Proof.
  intros W G [H0 Hn] E. destruct (align_range g W G) as [Ha _]. pose proof (div_ceil_spec n (alignment g) ltac:(lia)) as [Hd _].
  rewrite checked_mul_small in E; [done|]. nia.
Qed.

(** The object's bytes and tree, written where the plan has them. *)
Lemma put_content_spec Q v r old m o content unique pad tree rt :
  let j := journal v in
  let a := alignment (geometry j) in
  let n := zlen content in
  info (dev v) = i → vol (dk v) r old j m → geometry_ok (geometry j) → zlen rt = 32 → (n = 0 → rt = blake3 []) →
  (∀ rt', zlen rt' = 32 → (n = 0 → rt' = blake3 []) → extent_ok (geometry j) (put_metadata o unique content) (data j) pad tree rt') →
  (Q → copied v + n < 2 ^ 64) →
  vspec Q (ds ← put_leaves a (data j) 0 (chunks (Z.to_nat a) content); put_tree a tree ds) v
    (λ ds v', let rt' := match ds with d :: _ => d | [] => rt end in
       zlen rt' = 32 ∧ (n = 0 → rt' = blake3 []) ∧ vol (dk v') r old j m ∧
       stored_by (seen z (dk v')) (geometry j)
         (mk_Commit (log j) (put_metadata o unique content) (blake3 content) (Extent (data j) pad tree rt')) content)
    (λ e v', outside e ∧ vol (dk v') r old j m).
Proof.
  intros j a n Hi V G Lrt Hrt Hext HQ. destruct (vol_journal _ _ _ _ _ _ V) as [J Gj]. pose proof (z_pos i i_ok) as Hz.
  destruct (go_align _ G) as (f & Hf & Ha). fold a in Ha. destruct (vo_align _ _ _ _ _ _ V) as [Wa _]. rewrite <- Gj in Wa. fold a in Wa.
  destruct (vol_two_cells i _ _ _ _ _ V) as [H2 Hcap]. pose proof (go_power _ G) as Hpow. fold a in Hpow, H2.
  pose proof (Hext rt Lrt Hrt) as X. pose proof (xo_padded _ _ _ _ _ _ X) as Hp. simpl in Hp. fold n a in Hp.
  pose proof (xo_end _ _ _ _ _ _ X) as Hend. pose proof (xo_aligned _ _ _ _ _ _ X) as Hal. fold a in Hal.
  pose proof (jo_data j J) as Hd. pose proof (zlen_nonneg content) as Hn. fold n in Hn.
  pose proof (div_ceil_nonneg n a ltac:(lia) Hn) as Hdn. pose proof (go_log _ G). fold a in H. pose proof (go_data _ G).
  pose proof (jo_typed j J) as (_ & _ & _ & [Wl _] & _). destruct (blocks_of_spec a content ltac:(lia)) as [Hu Hnb]. fold n in Hnb.
  assert (zlen (chunks (Z.to_nat a) content) = div_ceil n a) as Lch.
  { rewrite zlen_chunks by lia. by rewrite Z2Nat.id by lia. }
  assert (whole z (data j)) as Wd by (by apply (whole_mod i i_ok _ a); [done|lia|]).
  assert (∀ lo hi d', data j ≤ lo → touches z lo hi (dk v) d' → vol d' r old j m) as Keep.
  { intros lo hi d' Hlo T. eapply vol_touches; [done|exact V|left; exact Hlo|exact T]. }
  assert (Z.to_nat (a / 32) = f) as Ef by (rewrite Ha, Z.mul_comm, Z.div_mul by done; lia).
  eapply vspec_bind; [apply (put_leaves_spec f a Hf Ha Hpow Wa Q (data j) (chunks (Z.to_nat a) content) 0 v); [done|lia|lia|done| |rewrite Lch; lia|]|..].
  { apply Forall_forall. intros b Hb. apply (chunks_sub (Z.to_nat a) ltac:(lia)) in Hb as [Hb _]. unfold zlen. lia. }
  { rewrite concat_chunks by lia. exact HQ. }
  all: rewrite Lch, Z.mul_0_l, Z.add_0_r, Z.add_0_l, <- Hp; fold (blocks_of a content).
  2:{ intros e v1 [O T]. split; [done|]. eapply Keep; [|exact T]. lia. }
  intros ds v1 I1 S1 (-> & T1 & Sn1 & C1). set (ds := blake3 <$> blocks_of a content).
  assert (zlen ds = div_ceil n a) as Lds by (unfold zlen, ds; rewrite length_fmap; exact Hnb).
  assert ((data j + pad) mod a = 0) as Hm by (by rewrite Hp, Z.mod_add by lia).
  destruct (decide (n = 0)) as [E0|E0].
  { destruct (xo_empty _ _ _ _ _ _ X E0) as [-> _]. cbn [put_tree]. apply vspec_ret.
    assert (ds = []) as Eds. { rewrite E0 in Lds. rewrite (div_ceil_unique 0 a 0) in Lds by lia. by apply nil_length_inv; unfold zlen in Lds; lia. }
    rewrite Eds. split; [done|]. split; [done|]. split; [by eapply Keep; [|exact T1]; lia|].
    split; [done|]. split; [done|]. simpl. split; [|split; [exact Sn1|by intros k l ?]]. intros Hne. by destruct content. }
  destruct (xo_tree _ _ _ _ _ _ X E0) as [Hne Hck]. cbn [bytes put_metadata] in Hck. fold n a in Hck. rewrite <- Lds in Hck.
  eapply vspec_mono; [apply (put_tree_spec f a Hf Ha Hpow Wa Q (capacity (geometry j)) ds (data j + pad) tree 1 v1); [congruence|nia|done|lia|done|apply blake3_digests|exact Hck]|..].
  - intros ds' v2 S2 (-> & T2 & Sn2 & C2).
    destruct (check_levels_spec f a (capacity (geometry j)) Hf Ha ds 0 (data j + pad) tree 1 ltac:(nia) Hck) as [Hlast _]. simpl plus in Hlast.
    destruct (digests f ds (length tree)) as [|d1 rest] eqn:Ed; [rewrite zlen_nil in Hlast; lia|].
    assert (Forall (λ d : list byte, length d = 32%nat) (d1 :: rest)) as Hd32 by (rewrite <- Ed; apply digests_ok, blake3_digests).
    apply Forall_cons in Hd32 as [Hd1 _]. split; [unfold zlen; lia|]. split; [done|].
    assert (touches z (data j) (tree_end a (data j + pad) tree) (dk v) (dk v2)) as T.
    { destruct (tree_end_ge f a (capacity (geometry j)) Hf Ha (data j + pad) (zlen ds) tree 1 ltac:(nia) (zlen_nonneg _) Hm Hck Hend) as [? _].
      eapply touches_trans; [eapply touches_wider; [exact T1|lia|lia]|]. eapply touches_wider; [exact T2|nia|lia]. }
    split; [by eapply Keep; [|exact T]|]. split; [done|]. split; [done|]. simpl. fold a. rewrite Ef. split; [|split; [|done]].
    + intros _. split; [done|]. split; [done|]. simpl. fold a. rewrite Ef. fold ds. by rewrite Ed.
    + pose proof (zlen_concat_uniform _ a Hu) as Lc. rewrite Hnb, <- Hp in Lc.
      eapply seen_touches; [done|exact T2|exact Sn1|lia|done| |rewrite Lc; lia].
      rewrite Lc, Hp. by apply whole_times.
  - intros e v2 S2 [O T2]. split; [done|]. eapply (Keep (data j) (Z.max (data j + pad) (tree_end a (data j + pad) tree))); [lia|].
    eapply touches_trans; [eapply touches_wider; [exact T1|lia|lia]|]. eapply touches_wider; [exact T2|nia|lia].
Qed.

Lemma wp_assoc {A B C} (f : V A) (g : A → V B) (k : B → V C) R v : wp ((f ≫= g) ≫= k) R v → wp (f ≫= λ x, g x ≫= k) R v.
Proof. unfold wp, mbind, M_bind. by destruct (f v) as [[a|e] v1]. Qed.

Lemma volume_put_spec v r old m o cd source n unique :
  let content := default [] source in
  info (dev v) = i → vol (dk v) r old (journal v) m → cell (journal v) ≤ max_bytes i → object_ok o → u64 n → zlen unique = 16 →
  wp (put o cd source n unique) (λ res v',
    put_post v r old m o cd unique content res v' ∧
    (put_admits v o cd n unique → zlen content = n → good (dev v) → ∃ md, res = Ok md)) v.
Proof.
  intros content Hi V Hmax Ho Hn Hu. set (j := journal v) in *. destruct (vol_journal _ _ _ _ _ _ V) as [J Gj].
  assert (∀ e, e ≠ Refused BadIntegrity → e ≠ Panicked → put_post v r old m o cd unique content (Err e) v) as Kept.
  { intros e. by apply put_post_kept. }
  unfold put. apply wp_bind. unfold wp at 1. destruct (volume_object_cases o v) as (res & -> & Hres). cbn [fst snd].
  destruct res as [[]|e].
  2:{ split; [apply Kept; naive_solver|]. intros (F1 & F2 & _ & loc & pv & Hpl & _) _ _. exfalso.
      apply plan_Ok in Hpl as (_ & Hob & _). apply journal_object_Ok in Hob as (? & _ & ? & ?).
      destruct Hres as [[_ [?|?]]|[[_ ?]|[_ ?]]]; (congruence || tauto). }
  assert (match source with Some s => zlen s | None => 0 end = zlen content) as -> by (by destruct source).
  destruct (Z.eqb_spec (zlen content) n) as [En|En]; cbn [negb].
  2:{ unfold wp, fail. simpl. split; [by apply Kept|]. by intros _ ?. }
  change (wp (gets journal ≫= ?k) ?R v) with (wp (k j) R v). cbv beta zeta.
  destruct (plan o cd n j) as [planned|] eqn:Hpl.
  2:{ unfold wp, or_refuse, mbind, M_bind, lift. simpl. split; [by apply Kept|]. intros (_ & _ & _ & loc & pv & Hpl' & _). fold j in Hpl'. congruence. }
  destruct planned as [loc|].
  2:{ unfold wp, or_refuse, mbind, M_bind, lift. simpl. split; [by apply Kept|]. intros (_ & _ & _ & loc & pv & Hpl' & _). fold j in Hpl'. congruence. }
  change (wp (or_refuse NoCapacity (Ok (Some loc)) ≫= ?k) ?R v) with (wp (k (Some loc)) R v). cbv beta.
  change (wp (lift (ok_or (Some loc) (Refused Conflict)) ≫= ?k) ?R v) with (wp (k loc) R v). cbv beta.
  pose proof (plan_Ok _ _ _ _ _ Hpl) as (Hcond & Hob & Hhc & Hext).
  set (Q := put_admits v o cd n unique). set (R := λ (res : result Stop Metadata) v', _ ∧ (_ → _ → _ → ∃ md, res = Ok md)).
  assert (∀ e v1, vsame v v1 → vol (dk v1) r old j m → e ≠ Refused BadIntegrity → e ≠ Panicked → (Q → ¬ good (dev v)) → R (Err e) v1) as Stp.
  { intros e v1 S1 V1 H1 H2 HQ. split; [by apply put_post_kept|]. intros HQ' _ G. by destruct (HQ HQ' G). }
  eapply vspec_then; [apply (vspec_asked Q)|..].
  2:{ intros e v1 S1 G1 [D1 Hx]. apply Stp; [done|by rewrite D1|by destruct Hx as [->| ->]..|done]. }
  intros _ v1 I1 S1 G1 [D1 C1]. destruct (encode _) as [pv|] eqn:Hpv.
  2:{ unfold wp, or_refuse, mbind, M_bind, lift. simpl. apply Stp; [done|by rewrite D1|done|done|].
      intros (_ & _ & _ & loc' & pv & Hpl' & Hpv' & _). fold j in Hpl', Hpv'. rewrite Hpl in Hpl'. injection Hpl' as <-. by rewrite Hpv in Hpv'. }
  change (wp (or_refuse NoCapacity (Ok pv) ≫= ?k) ?R v1) with (wp (k pv) R v1). cbv beta.
  destruct (Z.ltb_spec (cell j) (zlen pv)) as [Hbig|Lpv].
  { unfold wp, fail. simpl. apply Stp; [done|by rewrite D1|done|done|].
    intros (_ & _ & _ & loc' & pv' & Hpl' & Hpv' & Hle). fold j in Hpl', Hpv', Hle. rewrite Hpl in Hpl'. injection Hpl' as <-.
    rewrite Hpv in Hpv'. apply Ok_inj in Hpv' as <-. lia. }
  destruct (checked_mul 64 (div_ceil n (alignment (geometry j))) 64) as [lv|] eqn:Elv.
  2:{ by destruct (blocks_room (geometry j) n (jo_typed j J) (jo_geometry j J) Hn). }
  change (wp (or_refuse NoCapacity (ok_or (Some lv) ()) ≫= ?k) ?R v1) with (wp (k lv) R v1). cbv beta.
  eapply vspec_then; [apply (vspec_asked Q)|..].
  2:{ intros e v2 S2 G2 [D2 Hx]. apply Stp; [by eapply vsame_trans|by rewrite D2, D1|by destruct Hx as [->| ->]..|]. intros HQ G. by apply (G2 HQ), G1. }
  intros _ v2 I2 S2 G2 [D2 C2]. eapply vspec_then; [apply (vspec_asked Q)|..].
  2:{ intros e v3 S3 G3 [D3 Hx]. apply Stp; [by eapply vsame_trans; [exact S1|eapply vsame_trans]|by rewrite D3, D2, D1|by destruct Hx as [->| ->]..|].
      intros HQ G. by apply (G3 HQ), G2, G1. }
  intros _ v3 I3 S3 G3 [D3 C3]. eapply vspec_then; [apply (vspec_asked Q)|..].
  2:{ intros e v4 S4 G4 [D4 Hx]. apply Stp; [by eapply vsame_trans; [exact S1|eapply vsame_trans; [exact S2|eapply vsame_trans]]|by rewrite D4, D3, D2, D1|by destruct Hx as [->| ->]..|].
      intros HQ G. by apply (G4 HQ), G3, G2, G1. }
  intros _ v4 I4 S4 G4 [D4 C4].
  assert (vsame v v4) as S by (eapply vsame_trans; [exact S1|eapply vsame_trans; [exact S2|by eapply vsame_trans]]).
  assert (Q → good (dev v) → good (dev v4)) as GG by auto. assert (dk v4 = dk v) as E4 by congruence.
  assert (journal v4 = j) as Ej by apply S. clear S1 S2 S3 S4 G1 G2 G3 G4.
  destruct (put_commit j o n loc content unique pv J Ho Hn En Hu Hob Hhc Hext Hpv Lpv) as (pad & tree & rt & -> & G & Hrt & Lrt & Hall).
  cbv iota. apply wp_assoc. subst n.
  assert (∀ rt', zlen rt' = 32 → (zlen content = 0 → rt' = blake3 []) → extent_ok (geometry j) (put_metadata o unique content) (data j) pad tree rt') as Hxo.
  { intros rt' L1 L2. apply (Hall rt' L1 L2). }
  assert (vol (dk v4) r old j m) as V4 by (by rewrite E4).
  pose proof (put_content_spec Q v4 r old m o content unique pad tree rt) as Hput. rewrite Ej in Hput.
  eapply vspec_then; [apply Hput; try done; [congruence|]|..].
  { intros (_ & _ & Hcp & _). lia. }
  2:{ intros e v5 S5 G5 [O V5]. apply Stp; [by eapply vsame_trans|done|by destruct e as [[]| |]..|]. intros HQ G'. by apply (G5 HQ), GG. }
  intros ds v5 I5 S5 G5 (L5 & Z5 & V5 & St5). set (rt' := match ds with d :: _ => d | [] => rt end) in *.
  destruct (Hall rt' L5 Z5) as (_ & Cc & Vc & e & Ee & Le). assert (journal v5 = j) as Ej5 by (destruct S5 as (-> & _); done).
  cbv beta zeta. change (mk_Metadata o (version_of (blake3 content) unique) (zlen content)) with (put_metadata o unique content) in *.
  set (c := mk_Commit (log j) (put_metadata o unique content) (blake3 content) (Extent (data j) pad tree rt')) in *.
  apply wp_bind. pose proof (publish_spec Q v5 r old m c content e) as Hp. rewrite Ej5 in Hp.
  eapply wp_mono; [apply Hp; try done; congruence|]. intros res v6 Hc.
  assert (vsame v v5) as Sv by (by eapply vsame_trans).
  pose proof (put_post_committed Q v v5 r old m o cd unique content c res v6 Sv eq_refl Hcond) as Hpp.
  specialize (Hpp Hc). destruct Hc as (Hl & _). destruct res as [[]|x].
  - unfold wp, mret, M_ret. split; [exact Hpp|]. intros _ _ _. by eexists.
  - split; [exact Hpp|]. intros HQ _ Hg. by destruct (Hl HQ (G5 HQ (GG HQ Hg))) as [? ?].
Qed.

End put.
