(* ===== verification/StoreRead.v ===== *)
(** * Reading an object

    What a [read] gives is what was put, whatever the device has become; and on a volume it
    is given. *)

From S2P Require Import Prelude StoreFormat StoreCodec StoreTree StoreProof StoreJournal StoreBanks StoreDisk StoreCrash StoreLog StoreRoot StoreVolume StoreState StoreMount StorePut.

(** ** Operations that write nothing to the device *)

Definition rsame (v v' : Volume) : Prop :=
  journal v' = journal v ∧ root v' = root v ∧ failed v' = failed v ∧ async_failed v' = async_failed v ∧
  disk (dev v') = disk (dev v).

Definition rspec {A} (Q : Prop) (f : V A) (v : Volume) (P : A → Volume → Prop) (F : Stop → Volume → Prop) : Prop :=
  wp f (λ r v', info (dev v') = info (dev v) ∧ (Q → good (dev v) → good (dev v') ∧ ∃ a, r = Ok a) ∧ rsame v v' ∧
    match r with Ok a => P a v' | Err e => F e v' end) v.

Lemma rsame_trans v1 v2 v3 : rsame v1 v2 → rsame v2 v3 → rsame v1 v3.
Proof. intros (? & ? & ? & ? & ?) (? & ? & ? & ? & ?). split_and!; congruence. Qed.

Lemma rspec_bind {A B} Q (f : V A) (k : A → V B) v P F P1 F1 :
  rspec Q f v P1 F1 → (∀ a v1, info (dev v1) = info (dev v) → rsame v v1 → P1 a v1 → rspec Q (k a) v1 P F) →
  (∀ e v1, F1 e v1 → F e v1) → rspec Q (f ≫= k) v P F.
Proof.
  unfold rspec. intros H Hk HF. apply wp_bind. eapply wp_mono; [exact H|]. intros [a|e] v1 (I1 & G1 & S1 & Q1).
  - eapply wp_mono; [by apply Hk|]. intros r v2 (I2 & G2 & S2 & Q2).
    split_and!; [congruence| |by eapply rsame_trans|done]. intros HQ G. by apply G2, G1.
  - split_and!; [done| |done|by apply HF]. intros HQ G. destruct (G1 HQ G) as [_ [a Ha]]. done.
Qed.

Lemma rspec_ret {A} Q (a : A) v (P : A → Volume → Prop) F : P a v → rspec Q (mret a) v P F.
Proof. intros H. split_and!; try done. intros _ G. split; [done|]. by exists a. Qed.

Lemma rspec_mono {A} Q (f : V A) v P F (P' : A → Volume → Prop) (F' : Stop → Volume → Prop) :
  rspec Q f v P F → (∀ a v', P a v' → P' a v') → (∀ e v', F e v' → F' e v') → rspec Q f v P' F'.
Proof.
  unfold rspec. intros H HP HF. eapply wp_mono; [exact H|]. intros [a|e] v' (? & ? & ? & R); split_and!; auto.
Qed.

Lemma rspec_gets {A B} Q (g : Volume → A) (k : A → V B) v P F : rspec Q (k (g v)) v P F → rspec Q (gets g ≫= k) v P F.
Proof. done. Qed.

(** A check: passed, or refused where [Q] does not hold. *)
Lemma rspec_check {A B} Q e (c : result Error A) (k : A → V B) v P F :
  (∀ a, c = Ok a → rspec Q (k a) v P F) → ((∀ a, c ≠ Ok a) → ¬ Q ∧ F (Refused e) v) → rspec Q (or_refuse e c ≫= k) v P F.
Proof.
  intros Hk HF. destruct c as [a|x]; [by apply Hk|]. destruct (HF ltac:(done)) as [HQ HF'].
  by split_and!.
Qed.

Lemma rspec_obtain {A} Q e (k : unit → V A) v P (F : Stop → Volume → Prop) :
  (∀ v1, info (dev v1) = info (dev v) → rsame v v1 → copied v1 = copied v → loan v1 = loan v → rspec Q (k tt) v1 P F) →
  (∀ v1, F (Refused e) v1) → (∀ v1, F Crashed v1) → rspec Q (io (obtain e) ≫= k) v P F.
Proof.
  intros Hk HF HC. unfold rspec. apply wp_bind. unfold wp at 1, io. pose proof (obtain_spec e (dev v)) as H. unfold wp in H.
  destruct (obtain e (dev v)) as [r d]. simpl in *. destruct H as ((I & P' & G) & D & [->|[->| ->]]).
  - set (v1 := mk_Volume d _ _ _ _ _ _). assert (rsame v v1) as S1 by done. eapply wp_mono; [by apply (Hk v1)|].
    intros r2 v2 (I2 & G2 & S2 & Q2). simpl in *. split_and!; [congruence| |by eapply rsame_trans|done].
    intros HQ G1. by apply G2, G.
  - split_and!; try done. intros _ G1. by destruct (G G1) as [_ [? ?]].
  - split_and!; try done. intros _ G1. by destruct (G G1) as [_ [? ?]].
Qed.

Lemma rspec_loan Q at_ bs v :
  rspec Q (write_loan at_ bs) v
    (λ _ v', copied v' = copied v ∧ loan v' = (λ l, put_range l at_ bs) <$> loan v) (λ e _, outside e).
Proof.
  unfold write_loan. apply rspec_obtain; [|done..]. intros v1 I1 S1 C1 L1. unfold rspec, wp, modify. simpl.
  split_and!; try done; [|by rewrite L1]. intros _ G. split; [done|]. by exists tt.
Qed.

Lemma rspec_copied Q n v :
  (Q → copied v + n < 2 ^ 64) →
  rspec Q (add_copied n) v (λ _ v', copied v' = copied v + n ∧ loan v' = loan v) (λ e _, outside e).
Proof.
  intros H. unfold rspec, wp, add_copied. destruct (checked_add 64 (copied v) n) as [c|] eqn:E.
  - apply checked_add_Some in E as [-> _]. simpl. split_and!; try done. intros _ G. split; [done|]. by exists tt.
  - apply checked_add_None in E. simpl. split_and!; try done. intros HQ. specialize (H HQ). lia.
Qed.

(** [spec] of an operation that ends well where [Q] holds. *)
Definition qspec {A} (Q : Prop) (f : D A) (s : Dev) (P : A → Dev → Prop) (F : Stop → Dev → Prop) : Prop :=
  wp f (λ r s', info s' = info s ∧ has_pending s' = has_pending s ∧ (Q → good s → good s' ∧ ∃ a, r = Ok a) ∧
    match r with Ok a => P a s' | Err e => F e s' end) s.

Lemma qspec_after {A B} Q (f : D A) (k : A → D B) s P F P1 F1 :
  spec f s P1 F1 → (∀ a s1, info s1 = info s → P1 a s1 → qspec Q (k a) s1 P F) → (∀ e s1, F1 e s1 → F e s1) →
  qspec Q (f ≫= k) s P F.
Proof.
  unfold spec, qspec. intros H Hk HF. apply wp_bind. eapply wp_mono; [exact H|]. intros [a|e] s1 [(I1 & P1' & G1) Q1].
  - eapply wp_mono; [by apply Hk|]. intros r s2 (I2 & P2 & G2 & Q2). split_and!; [congruence..| |done]. intros HQ G. by apply G2, G1.
  - split_and!; [done..| |by apply HF]. intros _ G. by destruct (G1 G) as [_ [? ?]].
Qed.

Lemma qspec_check {A B} Q e (c : result Error A) (k : A → D B) s P F :
  (∀ a, c = Ok a → qspec Q (k a) s P F) → ((∀ a, c ≠ Ok a) → ¬ Q ∧ F (Refused e) s) → qspec Q (or_refuse e c ≫= k) s P F.
Proof.
  intros Hk HF. destruct c as [a|x]; [by apply Hk|]. destruct (HF ltac:(done)) as [HQ HF']. by split_and!.
Qed.

Lemma rspec_io {A} Q (f : D A) v (P : A → Prop) (F : Stop → Prop) :
  qspec Q f (dev v) (λ a s', P a ∧ disk s' = disk (dev v)) (λ e s', F e ∧ disk s' = disk (dev v)) →
  rspec Q (io f) v (λ a v', P a ∧ copied v' = copied v ∧ loan v' = loan v) (λ e _, F e).
Proof.
  unfold qspec, rspec, wp, io. destruct (f (dev v)) as [r s']. simpl. intros (I & _ & G & R).
  destruct r; destruct R as [R D]; split_and!; done.
Qed.

(** ** Parts of a list *)

Definition slice (l : list byte) (x y : Z) : list byte := take (Z.to_nat (y - x)) (drop (Z.to_nat x) l).

Lemma slice_app l x y w : 0 ≤ x ≤ y → y ≤ w → slice l x y ++ slice l y w = slice l x w.
Proof.
  intros Hx Hy. unfold slice. replace (Z.to_nat (w - x)) with (Z.to_nat (y - x) + Z.to_nat (w - y))%nat by lia.
  rewrite <- take_take_drop. f_equal. rewrite drop_drop. do 2 f_equal. lia.
Qed.

Lemma zlen_slice l x y : 0 ≤ x ≤ y → y ≤ zlen l → zlen (slice l x y) = y - x.
Proof. intros Hx Hy. unfold slice, zlen in *. rewrite length_take, length_drop. lia. Qed.

Lemma put_range_app (l r : list byte) n bs : zlen l = n → put_range (l ++ r) n bs = l ++ bs ++ drop (List.length bs) r.
Proof.
  intros <-. unfold put_range, zlen. rewrite Nat2Z.id, take_app_length, <- drop_drop, drop_app_length. done.
Qed.

Lemma div_ceil_above a b m n : 0 < a → b * a < m → m ≤ n → b < div_ceil n a.
Proof. intros Ha Hb Hn. pose proof (div_ceil_spec n a Ha). nia. Qed.

Lemma block_slice a content b blk lo hi :
  0 < a → blocks_of a content !! b = Some blk → Z.of_nat b * a ≤ lo ≤ hi → hi ≤ (Z.of_nat b + 1) * a → hi ≤ zlen content →
  get_range blk (lo - Z.of_nat b * a) (hi - Z.of_nat b * a) = Some (slice content lo hi).
Proof.
  intros Ha Hb Hlo Hhi Hn. unfold blocks_of in Hb. rewrite list_lookup_fmap in Hb.
  destruct (chunks (Z.to_nat a) content !! b) as [ck|] eqn:Eck; [|done]. injection Hb as <-.
  pose proof (chunks_lookup (Z.to_nat a) content b ck ltac:(lia) Eck) as Ek.
  assert (zlen ck = Z.min a (zlen content - Z.of_nat b * a)) as Lk.
  { rewrite Ek. unfold zlen. rewrite length_take, length_drop. unfold zlen in Hn. nia. }
  apply get_range_Some. split; [lia|]. split; [rewrite zlen_padded by lia; lia|]. unfold padded, slice.
  replace (hi - Z.of_nat b * a - (lo - Z.of_nat b * a)) with (hi - lo) by lia.
  rewrite drop_app_le by (unfold zlen in *; lia). rewrite take_app_le by (rewrite length_drop; unfold zlen in *; lia).
  rewrite Ek, skipn_firstn_comm, take_take, drop_drop. f_equal; [nia|]. f_equal. nia.
Qed.

Section read.
Context {BL : Blake3}.
Variable i : Info.
Hypothesis i_ok : info_ok i.

Abbreviation z := (StoreCrash.z i).
Abbreviation vol := (vol i).
Abbreviation dk v := (disk (dev v)).

Lemma rspec_block {A} Q off len (k : list byte → V A) v P (F : Stop → Volume → Prop) :
  info (dev v) = i → 0 ≤ off → whole z off → whole z len → 0 < len ≤ max_bytes i → off + len ≤ cap i →
  (∀ v1, info (dev v1) = info (dev v) → rsame v v1 → copied v1 = copied v → loan v1 = loan v →
     rspec Q (k (dbytes i (dk v) off len)) v1 P F) →
  (∀ e v1, outside e → F e v1) → rspec Q (io (read_block off len) ≫= k) v P F.
Proof.
  intros Hi Ho Wo Wl Hl Hc Hk HF. unfold rspec. apply wp_bind. unfold wp at 1, io.
  pose proof (spec_read_block i i_ok off len (dev v) Hi Ho Wo Wl Hl Hc) as H. unfold spec, wp in H.
  destruct (read_block off len (dev v)) as [r d]. simpl in *. destruct H as ((I & P' & G) & Hr). destruct r as [bs|e].
  - destruct Hr as [-> D]. set (v1 := mk_Volume d _ _ _ _ _ _). assert (rsame v v1) as S1 by done. eapply wp_mono; [by apply (Hk v1)|].
    intros r2 v2 (I2 & G2 & S2 & Q2). simpl in *. split_and!; [congruence| |by eapply rsame_trans|done].
    intros HQ G1. by apply G2, G.
  - destruct Hr as [D O]. split_and!; try done; [|by apply HF]. intros _ G1. by destruct (G G1) as [_ [? ?]].
Qed.

(** ** The pages of an object *)

(** The pages of the object committed as [c] with their places. *)
Definition places (g : Superblock) (c : Commit) (content : list byte) (off : Z) (page : list byte) : Prop :=
  let a := alignment g in
  let f := Z.to_nat (a / 32) in
  match location c with
  | Extent start _ tree _ =>
      (∃ b : nat, blocks_of a content !! b = Some page ∧ off = start + Z.of_nat b * a) ∨
      (∃ n l (p : nat), tree !! n = Some l ∧ level_pages f (digests f (blake3 <$> blocks_of a content) n) !! p = Some page ∧
         off = lv_offset l + Z.of_nat p * a)
  | File _ => False
  end.

(** No page of the device is another text with the digest of the page it stands for. *)
Definition faithful (d : Disk) (g : Superblock) (c : Commit) (content : list byte) : Prop :=
  ∀ off page, places g c content off page →
    blake3 (dbytes i d off (alignment g)) = blake3 page → dbytes i d off (alignment g) = page.
(** Every page is there. *)
Definition genuine (d : Disk) (g : Superblock) (c : Commit) (content : list byte) : Prop :=
  ∀ off page, places g c content off page → dbytes i d off (alignment g) = page.

Lemma held_page d off pages a (p : nat) pg :
  0 ≤ off → whole z off → whole z a → 0 < a → Forall (λ x, zlen x = a) pages → pages !! p = Some pg → holds z d off (concat pages) →
  dbytes i d (off + Z.of_nat p * a) a = pg.
Proof.
  intros Ho Wo Wa Ha Hu Hp H. pose proof (z_pos i i_ok) as Hz. revert off p Ho Wo Hp H.
  induction Hu as [|x pages Hx Hu IH]; intros off p Ho Wo Hp H; [done|]. simpl in H.
  apply each_app in H as [H1 H2]; [|done|done|done|by rewrite Hx]. rewrite Hx in H2. destruct p as [|p]; simpl in Hp.
  - injection Hp as ->. change (Z.of_nat 0) with 0. rewrite Z.mul_0_l, Z.add_0_r, <- Hx. apply seen_dbytes; [done|by rewrite Hx|by apply holds_seen].
  - replace (off + Z.of_nat (S p) * a) with (off + a + Z.of_nat p * a) by lia.
    apply IH; [lia|by apply whole_add|done|done].
Qed.

Lemma stored_genuine d g c content :
  superblock_ok g → validate_in c g = Ok tt → whole z (alignment g) → stored i d g c content → genuine d g c content.
Proof.
  intros W V Wa (Hl & _ & Hloc) off page Hpl. unfold places in Hpl. destruct (location c) as [|start pad tree rt] eqn:El; [done|].
  destruct Hloc as (_ & Hb & Ht). destruct (stored_places g c content start pad tree rt W V El Hl) as (P1 & P2 & P3 & P4 & P5 & P6).
  destruct (validate_in_extent _ _ _ _ _ _ V El) as (G & _). destruct (go_align _ G) as (f & Hf & Ha). pose proof (go_log _ G). pose proof (go_data _ G).
  pose proof W as (_ & _ & _ & [Wl _] & _). assert (0 ≤ pad) by (rewrite <- P3; apply zlen_nonneg).
  destruct Hpl as [(b & Hb' & ->)|(n & l & p & Hn & Hp & ->)].
  - apply (held_page d start (blocks_of (alignment g) content)); [lia| |done|lia|apply blocks_of_spec; lia|done|done].
    by eapply whole_mod; [done|done|lia|].
  - destruct (P6 n l Hn) as (Q1 & Q2 & Q3 & Q4).
    eapply held_page; [lia| |done|lia| |exact Hp|by apply Ht].
    + by eapply whole_mod; [done|done|lia|].
    + assert (Z.to_nat (alignment g / 32) = f) as -> by (rewrite Ha, Z.mul_comm, Z.div_mul by done; lia).
      rewrite Ha. apply level_pages_uniform; [done|]. apply digests_ok, blake3_digests.
Qed.

Lemma genuine_faithful d g c content : genuine d g c content → faithful d g c content.
Proof. intros H off page Hp _. by apply H. Qed.

(** ** A block *)

Section object.
Variables (g : Superblock) (c : Commit) (content : list byte) (start pad : Z) (tree : list TreeLevel) (rt : list byte) (d : Disk) (Q : Prop).
Hypothesis g_ok : superblock_ok g.
Hypothesis c_valid : validate_in c g = Ok tt.
Hypothesis c_extent : location c = Extent start pad tree rt.
Hypothesis c_bytes : zlen content = bytes (metadata c).
Hypothesis c_commits : commits (blocks_of (alignment g) content) g c.
Hypothesis c_faithful : faithful d g c content.
Hypothesis Q_genuine : Q → genuine d g c content.
Hypothesis g_whole : whole z (alignment g).
Hypothesis g_transfer : alignment g ≤ max_bytes i.
Hypothesis g_device : capacity g ≤ cap i.

Abbreviation a := (alignment g).
Abbreviation f := (Z.to_nat (a / 32)).
Abbreviation ds := (blake3 <$> blocks_of a content).

Lemma g_facts : (16 ≤ f)%nat ∧ a = 32 * Z.of_nat f ∧ a < 2 ^ 32 ∧ 0 ≤ data_offset g.
Proof.
  destruct (validate_in_extent _ _ _ _ _ _ c_valid c_extent) as (G & _). destruct (go_align _ G) as (f' & Hf & Ha).
  assert (f = f') as -> by (rewrite Ha, Z.mul_comm, Z.div_mul by done; lia). destruct g_ok as (_ & [_ ?] & _ & _ & [? _] & _). lia.
Qed.

(** How a read is refused. *)
Definition unread (e : Stop) : Prop := outside e ∨ (e = Refused BadIntegrity ∧ ¬ genuine d g c content).

Lemma object_places :
  data_offset g ≤ start ∧ start mod a = 0 ∧ pad mod a = 0 ∧ zlen (concat (blocks_of a content)) = pad ∧
  start + pad ≤ capacity g ∧
  ∀ n l, tree !! n = Some l →
    zlen (level_pages f (digests f ds n)) = lv_nodes l ∧ start + pad ≤ lv_offset l ∧ lv_offset l mod a = 0 ∧
    lv_offset l + lv_nodes l * a ≤ capacity g.
Proof.
  destruct (stored_places g c content start pad tree rt g_ok c_valid c_extent c_bytes) as (P1 & P2 & P3 & P4 & P5 & P6).
  destruct (validate_in_extent _ _ _ _ _ _ c_valid c_extent) as (G & _ & _ & _ & X). pose proof (xo_end _ _ _ _ _ _ X).
  destruct g_facts as (Hf & Ha & _). split_and!; try done. intros n l Hn. destruct (P6 n l Hn) as (Q1 & Q2 & Q3 & Q4).
  assert (zlen content = bytes (metadata c)) as Hb by done.
  assert (Forall (λ x, zlen x = a) (level_pages f (digests f ds n))) as Hu.
  { eapply Forall_impl; [apply level_pages_uniform; [done|apply digests_ok, blake3_digests]|]. intros x. simpl. lia. }
  rewrite (zlen_concat_uniform _ a Hu) in Q1. split_and!; [nia|done|done|].
  destruct (extent_end_Ok g (metadata c) start pad tree rt (mk_Journal g 0 0 0 []) g_ok G) as (_ & _ & He & _); [|done|done|].
  { rewrite <- Hb. apply zlen_nonneg. }
  rewrite c_extent in Q4. simpl in Q4. lia.
Qed.

Lemma walk_nodes_spec rd b fuel m p s :
  (∀ off s1, info s1 = i → 0 ≤ off → whole z off → off + a ≤ cap i →
     spec (rd off) s1 (λ bs s2, bs = dbytes i (disk s1) off a ∧ disk s2 = disk s1) (λ e s2, disk s2 = disk s1 ∧ outside e)) →
  (b < length ds)%nat → info s = i → disk s = d → (m < fuel)%nat → (m ≤ length tree)%nat → at_level f a ds tree b m p →
  qspec Q (walk_nodes rd fuel p) s
    (λ p' s', (at_level f a ds tree b 0 p' ∧ next p' = length (steps p')) ∧ disk s' = d) (λ e s', unread e ∧ disk s' = d).
Proof.
  destruct g_facts as (Hf & Ha & Hs & _). intros Hrd Hb. pose proof (blake3_digests (blocks_of a content)) as Hds.
  revert m p s. induction fuel as [|fuel IH]; intros m p s Hi Hd Hfuel Hm Hp; [lia|]. cbn [walk_nodes].
  destruct Hp as ((pre & Hst & Hn) & Hbb & Hex) eqn:EHp. clear EHp.
  assert (at_level f a ds tree b m p) as Hp' by (split; [by exists pre|done]).
  destruct m as [|m].
  { simpl in Hst. rewrite app_nil_r in Hst. assert (next_node p = None) as ->.
    { unfold next_node. rewrite Hst, Hn. by apply lookup_ge_None. }
    unfold qspec, wp, mret, M_ret. simpl. split_and!; try done; [intros _ G; split; [done|by exists p]|congruence]. }
  assert (next_node p = Some (step_of f a tree b m)) as ->.
  { unfold next_node. rewrite Hst, Hn, lookup_app_r, Nat.sub_diag by done. done. }
  destruct (tree !! m) as [l|] eqn:El; [|apply lookup_ge_None in El; lia].
  destruct object_places as (P1 & P2 & P3 & P4 & P5 & P6). destruct (P6 m l El) as (Q1 & Q2 & Q3 & Q4).
  destruct (path_page_spec f Hf ds b m Hds Hb) as (Lpp & Hpp & _).
  simpl digests in Hpp. rewrite list_lookup_fmap in Hpp.
  destruct (level_pages f (digests f ds m) !! (b / f ^ S m)%nat) as [pg|] eqn:Epg; [|done].
  assert (path_page f ds b m = pg) as Epp by (unfold path_page; by rewrite Epg).
  assert (ps_offset (step_of f a tree b m) = lv_offset l + Z.of_nat (b / f ^ S m) * a) as ->.
  { unfold step_of. cbn [ps_offset]. by rewrite El. }
  pose proof (lookup_lt_Some _ _ _ Epg) as Hlt. unfold zlen in Q1. set (x := (b / f ^ S m)%nat) in *.
  assert (places g c content (lv_offset l + Z.of_nat x * a) pg) as Hpl.
  { unfold places. rewrite c_extent. right. by exists m, l, x. }
  assert (0 ≤ pad) by (rewrite <- P4; apply zlen_nonneg). pose proof g_facts as (_ & _ & _ & Hdo).
  eapply qspec_after; [apply Hrd; [done|nia| |nia]| |].
  { apply whole_add; [done| |]. - by eapply whole_mod; [done|done|lia|]. - rewrite Z.mul_comm. by apply whole_mul. }
  2:{ intros e s1 [D1 O]. split; [by left|congruence]. }
  intros node s1 I1 [En D1]. rewrite Hd in En, D1.
  assert (zlen node = a) as Ln by (rewrite En; apply zlen_dbytes; [done|lia|done]).
  pose proof (accept_level f a Hf Ha ds tree b Hds Hb Hs m p node) as Hacc.
  apply qspec_check.
  - intros p' Hok. apply (Hacc p' Hp' Ln) in Hok as (_ & e & He & ->); [|rewrite Epp, En; by apply c_faithful].
    apply (IH m); [congruence|done|lia|lia|by apply at_level_next].
  - intros Hno. assert (¬ genuine d g c content) as Hng.
    { intros Hg. destruct (ancestor f Hf ds b m Hb) as [e He].
      apply (Hno (mk_BlockProof (steps p) (S (next p)) e a)). apply (Hacc _ Hp' Ln); [intros _; rewrite Epp, En; by apply Hg|].
      split; [rewrite Epp, En; by apply Hg|]. by exists e. }
    split; [by intros ?%Q_genuine|]. split; [by right|done].
Qed.

Lemma read_nodes_spec b fuel m p v :
  (b < length ds)%nat → info (dev v) = i → dk v = d → (m < fuel)%nat → (m ≤ length tree)%nat → at_level f a ds tree b m p →
  rspec Q (read_nodes fuel a p) v
    (λ p' v', (at_level f a ds tree b 0 p' ∧ next p' = length (steps p')) ∧ copied v' = copied v ∧ loan v' = loan v) (λ e _, unread e).
Proof.
  intros Hb Hi Hd Hfuel Hm Hp. apply rspec_io. rewrite Hd. apply (walk_nodes_spec _ b fuel m); try done.
  intros off s1 I1 Ho Wo Hc. destruct g_facts as (Hf & Ha & _).
  apply spec_obtain; [intros s2 I2 D2 _|by intros s2 D2..]. rewrite <- D2.
  apply (spec_read_block i i_ok); [congruence|done|done|done|lia|done].
Qed.

Variables (offset length : Z).
Hypothesis range_ok : 0 ≤ offset ∧ 0 ≤ length ∧ offset + length ≤ zlen content.

Abbreviation stop := (offset + length).

(** Up to where the loan has been filled before block [block]. *)
Definition filled (block : Z) : Z := Z.min stop (Z.max offset (block * a)).

Lemma read_blocks_spec n block v l :
  info (dev v) = i → dk v = d → geometry (journal v) = g → Z.of_nat n = div_ceil stop a - block → 0 ≤ block → offset < (block + 1) * a →
  (Q → copied v + length < 2 ^ 64 + (filled block - offset)) →
  loan v = Some (slice content offset (filled block) ++ l) → zlen l = stop - filled block →
  rspec Q (read_blocks c start a offset length block n) v
    (λ _ v', loan v' = Some (slice content offset stop)) (λ e _, unread e).
Proof.
  destruct g_facts as (Hf & Ha & Hs & Hdo). destruct range_ok as (R1 & R2 & R3).
  pose proof (div_ceil_spec stop a ltac:(lia)) as Hce. destruct object_places as (P1 & P2 & P3 & P4 & P5 & P6).
  destruct (blocks_of_spec a content ltac:(lia)) as [Hu Hnb]. pose proof (zlen_concat_uniform _ a Hu) as Lc. rewrite P4, Hnb in Lc.
  pose proof (io_capacity i i_ok : cap i < 2 ^ 64) as Hcap64. pose proof (div_ceil_spec (zlen content) a ltac:(lia)) as Hcc.
  revert block v l. induction n as [|n IH]; intros block v l Hi Hd Hg Hn Hb Hoff HQ Hl Ll; cbn [read_blocks].
  { apply rspec_ret. assert (div_ceil stop a = block) as Ec by lia. rewrite Ec in Hce. assert (filled block = stop) as E by (unfold filled; lia). rewrite E in *.
    assert (l = []) as -> by (apply nil_length_inv; unfold zlen in Ll; lia). by rewrite app_nil_r in Hl. }
  assert (block * a < stop) as Hlt by (clear -Hn Hce Ha Hf; nia). assert (filled block = Z.max offset (block * a)) as Ef by (unfold filled; lia).
  apply rspec_gets. rewrite Hg.
  assert (∃ b : nat, block = Z.of_nat b) as [b ->] by (exists (Z.to_nat block); lia).
  assert (b < List.length (blocks_of a content))%nat as Hbl.
  { pose proof (div_ceil_above a _ _ _ ltac:(lia) Hlt R3) as Hda. unfold zlen in *. lia. }
  assert ((Z.of_nat b + 1) * a ≤ div_ceil (zlen content) a * a) as Hmul.
  { apply Z.mul_le_mono_nonneg_r; [lia|]. unfold zlen in *. lia. }
  assert (1 ≤ a) as Ha1 by lia. assert (Z.of_nat b ≤ Z.of_nat b * a) as Hmul0 by (clear -Ha1; nia).
  destruct (lookup_lt_is_Some_2 _ _ Hbl) as [blk Eblk].
  destruct (proof_new_Ok _ g c b start pad tree rt g_ok c_valid c_commits Hbl c_extent) as (f' & Hf' & Ha' & Hlev & Hnew).
  assert (f' = f) as -> by lia. rewrite Hnew. apply rspec_check; [|by intros Hno; destruct (Hno _ eq_refl)].
  intros p [= <-]. eapply rspec_bind.
  { apply (read_nodes_spec b _ (List.length tree)); [by rewrite length_fmap|done|done| |done|done].
    cbn [steps]. rewrite length_steps_from. lia. }
  2:{ done. }
  intros p' v1 I1 S1 ((Hp' & Hnx) & C1 & L1). assert (dk v1 = d) as D1 by (destruct S1 as (_ & _ & _ & _ & ->); done).
  apply rspec_obtain; [intros v2 I2 S2 C2 L2|by left..].
  assert (dk v2 = d) as D2 by (destruct S2 as (_ & _ & _ & _ & ->); done).
  assert (start +! Z.of_nat b *! a = start + Z.of_nat b * a) as ->.
  { unfold wadd, wmul. rewrite !wrap_small; unfold in_width; rewrite ?wrap_small; unfold in_width; lia. }
  apply rspec_block; [congruence|lia| |done|lia|lia| |by left].
  { apply whole_add; [done| |]. - by eapply whole_mod; [done|done|lia|]. - rewrite Z.mul_comm. by apply whole_mul. }
  intros v3 I3 S3 C3 L3. rewrite D2. set (bs := dbytes i d (start + Z.of_nat b * a) a).
  assert (places g c content (start + Z.of_nat b * a) blk) as Hpl.
  { unfold places. rewrite c_extent. left. by exists b. }
  pose proof (verify_level f a Ha ds tree b Hs bs p' Hp' Hnx) as Hver. rewrite list_lookup_fmap, Eblk in Hver. simpl in Hver.
  assert (zlen bs = a) as Lbs by (apply zlen_dbytes; [done|lia|done]).
  apply rspec_check.
  2:{ intros Hno. assert (¬ genuine d g c content) as Hng.
      { intros Hgen. apply (Hno tt). apply Hver. split; [done|]. unfold bs. by rewrite (Hgen _ _ Hpl). }
      split; [by intros ?%Q_genuine|]. by right. }
  intros [] Hok. apply Hver in Hok as [_ Hh]. injection Hh as Hh. symmetry in Hh.
  assert (bs = blk) as Ebs by (by apply c_faithful).
  assert (Z.of_nat b *! a = Z.of_nat b * a) as ->.
  { unfold wmul. apply wrap_small. unfold in_width. lia. }
  assert (offset +! length = stop) as -> by (unfold wadd; apply wrap_small; unfold in_width; lia).
  assert ((Z.of_nat b +! 1) *! a = (Z.of_nat b + 1) * a) as ->.
  { unfold wmul, wadd. rewrite !wrap_small; unfold in_width; rewrite ?wrap_small; unfold in_width; lia. }
  rewrite <- Ef. set (lo := filled (Z.of_nat b)) in *. set (hi := Z.min stop ((Z.of_nat b + 1) * a)).
  assert (filled (Z.of_nat b + 1) = hi) as Ehi by (unfold filled, hi; lia).
  assert (offset ≤ lo ≤ hi ∧ hi ≤ stop ∧ Z.of_nat b * a ≤ lo) as (Hlo & Hhi & Hlo2) by (unfold lo, filled, hi in *; lia).
  cbv zeta. rewrite Ebs, (block_slice a content b blk lo hi) by (done || (unfold hi; lia)).
  change (lift (ok_or (Some ?x) Panicked) ≫= ?k) with (k x).
  eapply rspec_bind; [apply rspec_loan| |by left]. intros _ v4 I4 S4 [C4 L4].
  eapply rspec_bind; [apply rspec_copied| |by left].
  { intros HQ'. specialize (HQ HQ'). lia. }
  intros _ v5 I5 S5 [C5 L5]. rewrite L4, L3, L2, L1, Hl in L5. simpl in L5.
  rewrite (put_range_app (slice content offset lo) l (lo - offset)) in L5 by (rewrite zlen_slice by lia; lia).
  rewrite app_assoc, slice_app in L5 by lia. rewrite <- Ehi in L5.
  assert (rsame v v5) as (J5 & _ & _ & _ & D5) by (repeat (eapply rsame_trans; [eassumption|]); done).
  eapply (IH (Z.of_nat b + 1) v5); [congruence|congruence|congruence|lia|lia|lia| |exact L5|].
  - intros HQ'. specialize (HQ HQ'). rewrite Ehi. lia.
  - pose proof (zlen_slice content lo hi ltac:(lia) ltac:(lia)) as Lsl. rewrite Ehi. unfold zlen in *. rewrite length_drop. lia.
Qed.

End object.

(** ** A read *)

Definition read_range (ver : Version) (offset length : Z) (c : Commit) (content : list byte) : Prop :=
  version (metadata c) = ver ∧ offset + length ≤ zlen content.

(** What [read] answers before it reads: the request, the version, the range. *)
Definition read_refuses (v : Volume) (o : Object) (ver : Version) (offset length : Z) (md : Metadata) (e : Stop) : Prop :=
  fst (volume_object o v) = Err e ∨ (e = Refused Conflict ∧ version md ≠ ver) ∨
  (e = Refused BadRequest ∧ (bytes md < offset + length ∨ loan_len (loan v) ≠ length)).

(** A request that is answered with bytes. *)
Definition read_admits (v : Volume) (o : Object) (ver : Version) (offset length : Z) (md : Metadata) : Prop :=
  fst (volume_object o v) = Ok tt ∧ version md = ver ∧ offset + length ≤ bytes md ∧ loan_len (loan v) = length ∧
  copied v + length < 2 ^ 64.

Definition loan_bytes (v : Volume) : list byte := default [] (loan v).

Definition read_post (v : Volume) (o : Object) (ver : Version) (offset length : Z) (c : Commit) (content : list byte)
    (res : result Stop Outcome) (v' : Volume) : Prop :=
  rsame v v' ∧
  match res with
  | Ok x => x = ORead (metadata c) offset length ∧ read_range ver offset length c content ∧
            loan_bytes v' = slice content offset (offset + length)
  | Err e => read_refuses v o ver offset length (metadata c) e ∨ outside e ∨
             (e = Refused BadIntegrity ∧ ¬ genuine (dk v) (geometry (journal v)) c content)
  end.

(** What follows the checks. *)
Lemma read_content_spec Q offset length c content v :
  info (dev v) = i → journal_ok (journal v) → 0 ≤ offset → 0 < length → offset + length ≤ zlen content →
  let g := geometry (journal v) in
  whole z (alignment g) → alignment g ≤ max_bytes i → capacity g ≤ cap i →
  (key (object (metadata c)), c) ∈ entries (journal v) → zlen content = bytes (metadata c) →
  commits (blocks_of (alignment g) content) g c → faithful (dk v) g c content → (Q → genuine (dk v) g c content) →
  loan_len (loan v) = length → (Q → copied v + length < 2 ^ 64) → ∀ start pad tree rt, location c = Extent start pad tree rt →
  rspec Q (read_blocks c start (alignment g) offset length (offset / alignment g)
             (Z.to_nat (div_ceil (offset +! length) (alignment g) - offset / alignment g))) v
    (λ _ v', loan v' = Some (slice content offset (offset + length))) (λ e _, unread (geometry (journal v)) c content (dk v) e).
Proof.
  intros Hi J Ho Hl Hend g Wa Hm Hc Hk Hb Hcm Hfa HQ Hln Hcp start pad tree rt El.
  destruct (jo_entries _ J _ _ Hk) as (_ & (_ & (_ & _ & [_ Hby]) & _) & Vi & _ & _).
  destruct (loan v) as [dest|] eqn:Ed; simpl in Hln; [|lia].
  pose proof (align_range g (jo_typed _ J) (jo_geometry _ J)) as Ha. set (a := alignment g) in *.
  pose proof (Z.div_mod offset a ltac:(lia)) as Hdm. pose proof (Z.mod_pos_bound offset a ltac:(lia)) as Hmb.
  assert (0 ≤ offset / a) as Hd0 by (apply Z.div_pos; lia).
  assert (offset +! length = offset + length) as -> by (unfold wadd; apply wrap_small; unfold in_width; lia).
  pose proof (div_ceil_above a (offset / a) (offset + length) (offset + length) ltac:(lia) ltac:(lia) ltac:(lia)).
  assert (filled g offset length (offset / a) = offset) as Ef by (unfold filled; fold a; lia).
  apply (read_blocks_spec g c content start pad tree rt (dk v) Q (jo_typed _ J) Vi El Hb Hcm Hfa HQ Wa Hm Hc offset length
           ltac:(lia) _ _ v dest); fold a; rewrite ?Ef; try done; try lia.
  - intros HQ'. specialize (Hcp HQ'). lia.
  - rewrite Ed. unfold slice. by rewrite Z.sub_diag.
Qed.

Lemma read_spec o ver offset length c content v :
  info (dev v) = i → journal_ok (journal v) → 0 ≤ offset → 0 ≤ length →
  let g := geometry (journal v) in
  whole z (alignment g) → alignment g ≤ max_bytes i → capacity g ≤ cap i →
  current (key o) (journal v) = Some c → zlen content = bytes (metadata c) → (content ≠ [] → commits (blocks_of (alignment g) content) g c) →
  faithful (dk v) g c content →
  wp (read o ver offset length) (λ res v', read_post v o ver offset length c content res v' ∧
    (read_admits v o ver offset length (metadata c) → genuine (dk v) g c content → good (dev v) →
     res = Ok (ORead (metadata c) offset length))) v.
Proof.
  intros Hi J Ho Hl g Wa Hm Hc Hk Hb Hcm Hfa. unfold read. apply wp_bind. unfold wp at 1.
  destruct (volume_object_cases o v) as (res & Ev & _). rewrite Ev. cbn [fst snd].
  destruct res as [[]|e].
  2:{ split; [split; [done|]; left; left; by rewrite Ev|]. intros (A & _). rewrite Ev in A. done. }
  change (wp (gets journal ≫= ?k) ?R v) with (wp (k (journal v)) R v). cbv beta. rewrite Hk.
  change (wp (lift (ok_or (Some c) ?e) ≫= ?k) ?R v) with (wp (k c) R v). cbv beta zeta.
  change (wp (gets (λ v, loan_len (loan v)) ≫= ?k) ?R v) with (wp (k (loan_len (loan v))) R v). cbv beta.
  case_bool_decide as Hver; cbn [negb].
  2:{ split; [split; [done|]; left; right; by left|]. by intros (_ & ? & _). }
  assert ((key o, c) ∈ entries (journal v)) as Hin by (by apply smap_get_elem).
  destruct (jo_entries _ J _ _ Hin) as (Ek & (_ & (_ & _ & [_ Hby]) & _) & Vi & (start & pad & tree & rt & El) & _).
  set (bad := match checked_add 64 offset length with None => true | Some e => bytes (metadata c) <? e end || negb (loan_len (loan v) =? length)).
  assert (bad = true ↔ bytes (metadata c) < offset + length ∨ loan_len (loan v) ≠ length) as Hbad.
  { unfold bad. rewrite orb_true_iff, negb_true_iff, Z.eqb_neq. destruct (checked_add 64 offset length) as [e|] eqn:E.
    - apply checked_add_Some in E as [-> _]. by rewrite Z.ltb_lt.
    - apply checked_add_None in E. split; intros _; left; [lia|done]. }
  destruct bad.
  { split; [split; [done|]; left; right; right; split; [done|by apply Hbad]|]. intros (_ & _ & ? & ? & _). exfalso.
    destruct Hbad as [Hbad _]. destruct (Hbad eq_refl); lia. }
  assert (offset + length ≤ bytes (metadata c) ∧ loan_len (loan v) = length) as [Hend Hln].
  { assert (¬ (bytes (metadata c) < offset + length ∨ loan_len (loan v) ≠ length)) by (by intros ?%Hbad). lia. }
  destruct (Z.eqb_spec length 0) as [E0|E0].
  { split; [|done]. split; [done|]. split; [done|]. split; [split; [done|lia]|]. unfold loan_bytes, slice.
    replace (offset + length - offset) with 0 by lia. change (Z.to_nat 0) with 0%nat. rewrite take_0.
    assert (default [] (loan v) = []) as Hnil; [|exact Hnil]. destruct (loan v) as [dest|]; [|done]. simpl in *.
    apply nil_length_inv. unfold zlen in Hln. lia. }
  rewrite El. set (Q := read_admits v o ver offset length (metadata c) ∧ genuine (dk v) g c content).
  assert (content ≠ []) as Hne by (intros ->; unfold zlen in Hb; simpl in Hb; lia).
  match goal with |- wp ?f _ _ =>
    assert (rspec Q f v (λ x v', x = ORead (metadata c) offset length ∧ loan v' = Some (slice content offset (offset + length)))
              (λ e _, unread g c content (dk v) e)) as Hr end.
  { apply rspec_obtain; [intros v1 I1 S1 C1 L1|by left..]. apply rspec_obtain; [intros v2 I2 S2 C2 L2|by left..].
    assert (rsame v v2) as (J2 & _ & _ & _ & D2) by (by eapply rsame_trans).
    pose proof (read_content_spec Q offset length c content v2) as H. cbv zeta in H. rewrite J2, D2 in H. fold g in H.
    eapply rspec_bind; [eapply H| |done]; try done; try lia; [congruence|by rewrite Ek|by auto|by intros [_ ?]|congruence|..].
    - intros [(_ & _ & _ & _ & ?) _]. lia.
    - intros [] v3 I3 S3 L3. by apply rspec_ret. }
  unfold rspec in Hr. eapply wp_mono; [exact Hr|]. intros res v' (_ & G & S1 & P). split.
  - split; [done|]. destruct res as [x|e].
    + destruct P as [-> P]. split_and!; [done|split; [done|lia]|]. unfold loan_bytes. by rewrite P.
    + destruct P as [P|P]; by auto.
  - intros A1 A2 A3. destruct (G (conj A1 A2) A3) as [_ [x ->]]. by destruct P as [-> _].
Qed.

End read.
