(* ===== verification/StoreFresh.v ===== *)
(** * A new volume

    Formatting a device whose root cells are blank: it becomes a volume of the empty store, and
    an interruption leaves it blank or formatted. *)

From S2P Require Import Prelude StoreFormat StoreCodec StoreTree StoreProof StoreJournal StoreBanks StoreDisk StoreCrash StoreLog StoreRoot StoreVolume StoreState StoreMount.

Abbreviation zeroes n := (repeat x00 (Z.to_nat n)).

Definition empty_store : Store := λ _, None.

(** ** Zeroes *)

Lemma zeroes_app n m : 0 ≤ n → 0 ≤ m → zeroes (n + m) = zeroes n ++ zeroes m.
Proof. intros. by rewrite Z2Nat.inj_add, repeat_app by done. Qed.

Lemma all_zero_zeroes n : all_zero (zeroes n) = true.
Proof. unfold all_zero. apply forallb_forall. intros b Hb. apply repeat_spec in Hb as ->. by apply bool_decide_eq_true_2. Qed.

(** ** The first root *)

Lemma root_initial_Ok phys a lb rl ws bk r :
  u64 phys → u32 a → u64 lb → text_ok ws → text_ok bk → root_initial phys a lb rl ws bk = Ok r →
  root_ok r ∧ physical r = phys ∧ slot r = 0 ∧ root_geometry r =
    mk_Superblock (capacity (root_geometry r)) a (2 * a) lb (2 * a + lb) rl ws bk.
Proof.
  intros Wp Wa Wl Ww Wb E. unfold root_initial in E. destruct (_ || _ || _) in E; [done|].
  destruct (checked_mul 64 a 2) as [st|] eqn:Est; [|done]. apply checked_mul_Some in Est as [-> Hst]. cbn [ok_or mbind result_bind] in E.
  destruct (checked_sub _ _) as [x|] eqn:Ex; [|done]. apply checked_sub_Some in Ex as [-> Hx]. cbn [ok_or mbind result_bind] in E.
  destruct (checked_add 64 (a * 2) (_ / 2 / _ * _)) as [y|] eqn:Ey; [|done]. apply checked_add_Some in Ey as [Ey Hy]. cbn [ok_or mbind result_bind] in E.
  destruct (checked_add 64 (a * 2) lb) as [d|] eqn:Ed; [|done]. apply checked_add_Some in Ed as [Ed Hd]. cbn [ok_or mbind result_bind] in E.
  destruct (validate_root _) as [[]|] eqn:Ev in E; [|done]. cbn [mbind result_bind] in E. apply Ok_inj in E. subst r.
  apply validate_root_Ok in Ev. pose proof (rf_end _ Ev) as [_ Hc]. pose proof (go_capacity _ (validate_superblock_Ok _ (rf_geometry _ Ev))) as Hcap.
  cbn [root_geometry capacity data_offset physical] in *. unfold in_width in *.
  split_and!; [|done|done|f_equal; lia].
  split_and!; simpl; try done. unfold superblock_ok, in_width. simpl. split_and!; try done; lia.
Qed.

Lemma bank_bytes_room phys a : 0 < a → 2 * a ≤ phys → 0 ≤ bank_bytes phys a ∧ 2 * a + bank_bytes phys a ≤ phys.
Proof.
  intros Ha Hp. unfold bank_bytes. set (x := phys - 2 * a). assert (0 ≤ x / 2) by (apply Z.div_pos; lia).
  pose proof (Z.div_mod x 2 ltac:(lia)). pose proof (Z.mod_pos_bound x 2 ltac:(lia)).
  pose proof (Z.div_mod (x / 2) a ltac:(lia)). pose proof (Z.mod_pos_bound (x / 2) a ltac:(lia)).
  assert (0 ≤ x / 2 / a) by (apply Z.div_pos; lia). nia.
Qed.

Section fresh.
Context {BL : Blake3}.
Variable i : Info.
Hypothesis i_ok : info_ok i.

Abbreviation z := (StoreCrash.z i).
Abbreviation vol := (vol i).

Lemma holds_zero_sub d off n lo m :
  0 ≤ off → whole z off → off ≤ lo → whole z lo → 0 ≤ m → whole z m → lo + m ≤ off + n →
  holds z d off (zeroes n) → holds z d lo (zeroes m).
Proof.
  intros Ho Wo Hlo Wlo Hm Wm Hend H. pose proof (z_pos i i_ok) as Hz.
  assert (whole z (lo - off)) as Wd by (unfold whole in *; by rewrite Zminus_mod, Wlo, Wo).
  replace n with ((lo - off) + (m + (off + n - (lo + m)))) in H by lia. rewrite !zeroes_app in H by lia.
  apply each_app in H as [_ H]; [|done|done|done|by rewrite zlen_zeroes by lia]. rewrite zlen_zeroes in H by lia.
  replace (off + (lo - off)) with lo in H by lia.
  by apply each_app in H as [H _]; [|done|lia|done|by rewrite zlen_zeroes by lia].
Qed.

Lemma whole_chunks a (bs : list byte) : whole z a → zlen bs = a → length (chunks z bs) = Z.to_nat (a / Z.of_nat z).
Proof. intros Wa <-. pose proof (z_pos i i_ok). by apply length_chunks, whole_length. Qed.

(** An empty log is a bank of the empty store. *)
Lemma fresh_bank d g j :
  superblock_ok g → whole z (alignment g) → journal_new g = Ok j →
  holds z d (log_offset g) (zeroes (data_offset g - log_offset g)) → banked i d g j empty_store.
Proof.
  intros W Wa Hj Hl. destruct (journal_new_Ok g j W Hj) as (J & Gj & Hes & Hlog & Hda). split; try done.
  - exists j. split; [done|constructor].
  - intros k Hk. rewrite Gj, Hlog in Hk. pose proof (jo_geometry j J) as G. rewrite Gj in G. destruct (jo_cell_range j J) as [Hc _].
    destruct (log_whole i i_ok j J ltac:(by rewrite Gj)) as (Wc & Wlo & _). rewrite Gj in Wlo. pose proof (go_log _ G). destruct (go_align _ G) as (f & Hf & Ha).
    rewrite Hlog. eapply holds_zero_sub; [| | | | | | |exact Hl]; [lia|done|nia| |lia|done|lia].
    apply whole_add; [done| |done]. apply whole_add; [done|done|]. rewrite (Z.mul_comm 2), <- Z.mul_assoc. by apply whole_mul.
  - intros k. unfold current. by rewrite Hes.
Qed.

(** A root and an empty log are a volume. *)
Lemma fresh_vol d r e j :
  root_ok r → slot r = 0 → root_encode r = Ok e → is_mountable (role (root_geometry r)) = true → physical r = cap i →
  let g := root_geometry r in
  whole z (alignment g) → alignment g ≤ max_bytes i → journal_new g = Ok j →
  holds z d 0 (cell_of r) → holds z d (alignment g) (zeroes (alignment g)) →
  holds z d (log_offset g) (zeroes (data_offset g - log_offset g)) → vol d r None j empty_store.
Proof.
  intros R Hs He Hr Hp g Wa Hm Hj H0 H1 Hl. pose proof R as (_ & _ & W & F).
  destruct (fresh_bank d g j W Wa Hj Hl) as [_ _ Hlog Ht Hst]. split; try done.
  - by exists e.
  - by rewrite Hs.
  - rewrite Hs, Z.sub_0_r. done.
Qed.

(** A loop that writes [n] blocks of zeroes one after the other, by any way to write one. *)
Lemma zeroing_spec (write : Z → list byte → D unit) (loop : Z → nat → D unit) a n at_ s :
  (∀ at_, loop at_ 0%nat = mret tt) → (∀ at_ n, loop at_ (S n) = write at_ (zeroes a) ≫= λ _, loop (at_ + a) n) →
  (∀ off s, info s = i → 0 ≤ off → whole z off → off + a ≤ cap i →
     spec (write off (zeroes a)) s (λ _ s', wrote z off (zeroes a) (disk s) (disk s') ∧ seen z (disk s') off (zeroes a))
       (λ e s', outside e ∧ wrote z off (zeroes a) (disk s) (disk s'))) →
  info s = i → 0 ≤ at_ → whole z at_ → 0 < a → whole z a → at_ + Z.of_nat n * a ≤ cap i →
  spec (loop at_ n) s
    (λ _ s', touches z at_ (at_ + Z.of_nat n * a) (disk s) (disk s') ∧ seen z (disk s') at_ (zeroes (Z.of_nat n * a)))
    (λ e s', outside e ∧ touches z at_ (at_ + Z.of_nat n * a) (disk s) (disk s')).
Proof.
  intros L0 LS Hw Hi Ho Wo Ha Wa. revert at_ s Hi Ho Wo. induction n as [|n IH]; intros at_ s Hi Ho Wo Hc.
  { rewrite L0. apply spec_ret. split; [apply touches_refl|]. apply each_nil. }
  pose proof (z_pos i i_ok) as Hz. rewrite LS. assert (zlen (zeroes a) = a) as Lz by (apply zlen_zeroes; lia).
  eapply spec_bind; [apply Hw; try done; lia|..].
  2:{ intros e s1 (O & [T _]). split; [done|]. rewrite Lz in T. eapply touches_wider; [exact T|lia|lia]. }
  intros _ s1 I1 ([T _] & Sn). rewrite Lz in T.
  eapply spec_mono; [apply (IH (at_ + a) s1); [congruence|lia|by apply whole_add|lia]|..].
  - intros _ s2 [T2 Sn2]. replace (at_ + a + Z.of_nat n * a) with (at_ + Z.of_nat (S n) * a) in * by lia. split.
    + eapply touches_trans; [eapply touches_wider; [exact T|lia|lia]|]. eapply touches_wider; [exact T2|lia|lia].
    + replace (Z.of_nat (S n) * a) with (a + Z.of_nat n * a) by lia. rewrite zeroes_app by lia.
      apply each_app; [done|done|done|by rewrite Lz|]. rewrite Lz. split; [|done].
      eapply seen_touches; [done|exact T2|done|done|done|by rewrite Lz|rewrite Lz; lia].
  - intros e s2 [O T2]. split; [done|]. eapply touches_trans; [eapply touches_wider; [exact T|lia|lia]|]. eapply touches_wider; [exact T2|lia|lia].
Qed.

Lemma zero_range_spec a n at_ s :
  info s = i → 0 ≤ at_ → whole z at_ → 0 < a → whole z a → at_ + Z.of_nat n * a ≤ cap i →
  spec (zero_range a at_ n) s
    (λ _ s', touches z at_ (at_ + Z.of_nat n * a) (disk s) (disk s') ∧ seen z (disk s') at_ (zeroes (Z.of_nat n * a)))
    (λ e s', outside e ∧ touches z at_ (at_ + Z.of_nat n * a) (disk s) (disk s')).
Proof.
  intros Hi Ho Wo Ha Wa. apply (zeroing_spec write_aligned); try done. intros off s1 I1 Ho1 Wo1 Hc1.
  assert (zlen (zeroes a) = a) as Lz by (apply zlen_zeroes; lia).
  eapply spec_mono; [apply (spec_write i i_ok); try done; rewrite Lz; [done|lia]|naive_solver..].
Qed.

(** What provisioning asks of the device and of the geometry it is given. *)
Record fits (g : Superblock) (r : Root) (e : list byte) (j : Journal) : Prop := {
  ft_typed : superblock_ok g;
  ft_valid : validate_superblock g = Ok tt;
  ft_capacity : capacity g = cap i;
  ft_role : is_mountable (role g) = true;
  ft_aligned : alignment g mod sector_size i = 0;
  ft_transfer : alignment g ≤ max_bytes i;
  ft_root : root_initial (cap i) (alignment g) (log_bytes g) (role g) (sb_workspace g) (sb_bucket g) = Ok r;
  ft_journal : journal_new (root_geometry r) = Ok j;
  ft_encodes : root_encode r = Ok e;
  ft_sector : zlen e ≤ sector_size i;
}.

(** The root cells are as a crash before could have left them. *)
Definition unformatted (a : Z) (d d' : Disk) : Prop := ∀ x, x * Z.of_nat z < 2 * a → images d' x ⊆ images d x.

(** What a stopped format leaves. *)
Definition half (a : Z) (d : Disk) (r : Root) (j : Journal) (d1 : Disk) : Prop :=
  ∀ d', crash d1 d' → unformatted a d d' ∨ ∃ old, vol d' r old j empty_store.

Lemma crash_images d d' x : crash d d' → images d' x ⊆ images d x.
Proof. intros [Hp Hd] t. unfold images at 1. rewrite Hp. simpl. intros ->%list_elem_of_singleton. apply Hd. Qed.

Lemma whole_below a x : whole z a → x * Z.of_nat z < a → x * Z.of_nat z + Z.of_nat z ≤ a.
Proof.
  intros Wa Hx. pose proof (z_pos i i_ok). unfold whole in Wa. pose proof (Z.div_mod a (Z.of_nat z) ltac:(lia)) as E. rewrite Wa, Z.add_0_r in E.
  set (q := a / Z.of_nat z) in *. assert (x < q) by nia.
  assert ((x + 1) * Z.of_nat z ≤ q * Z.of_nat z) by (apply Z.mul_le_mono_nonneg_r; lia). lia.
Qed.

Lemma half_touches a lo hi d r j d1 : 2 * a ≤ lo → whole z (2 * a) → touches z lo hi d d1 → half a d r j d1.
Proof.
  intros Hlo Wa T d' C. left. intros x Hx t Ht. apply (crash_images d1) in Ht; [|done]. apply T; [|done]. left.
  pose proof (whole_below (2 * a) x Wa Hx). lia.
Qed.

Lemma fits_facts g r e j : fits g r e j →
  let a := alignment g in
  root_ok r ∧ physical r = cap i ∧ slot r = 0 ∧ whole z a ∧ 512 ≤ a < 2 ^ 32 ∧ alignment (root_geometry r) = a ∧ role (root_geometry r) = role g ∧
  log_offset (root_geometry r) = 2 * a ∧ 0 ≤ log_bytes g ∧ log_bytes g mod a = 0 ∧ data_offset (root_geometry r) = 2 * a + log_bytes g ∧
  2 * a + log_bytes g ≤ cap i.
Proof.
  intros [W V Hc Hr Ha Hm R J E Es] a. pose proof (validate_superblock_Ok g V) as G. pose proof (align_range g W G) as Hal.
  pose proof W as (W1 & W2 & W3 & W4 & W5 & W6 & W7). rewrite Hc in W1.
  destruct (root_initial_Ok _ _ _ _ _ _ r W1 W2 W4 W6 W7 R) as (Rok & Hp & Hs & Hg).
  assert (whole z a) as Wa by (unfold whole; by rewrite (z_size i i_ok)).
  pose proof Rok as (_ & _ & Rw & F). pose proof (rf_geometry r F) as Rv. pose proof (validate_superblock_Ok _ Rv) as RG.
  pose proof (go_capacity _ RG) as Rc. pose proof (rf_end r F) as [Re _]. pose proof (rf_bank r F).
  pose proof (go_multiples _ RG) as (_ & _ & M & _). rewrite Hg in Rc, Re, M. simpl in Rc, Re, M.
  assert (alignment (root_geometry r) = a ∧ role (root_geometry r) = role g ∧ log_offset (root_geometry r) = 2 * a ∧
    data_offset (root_geometry r) = 2 * a + log_bytes g) as (E1 & E2 & E3 & E4) by (by rewrite Hg).
  destruct W4 as [Hlb _]. split_and!; try done; try (fold a in Hal; lia).
  pose proof (rf_room r F) as Hroom. rewrite E1, Hp in Hroom.
  pose proof (bank_bytes_room (cap i) a ltac:(fold a in Hal; lia) Hroom) as Hb. rewrite Hp in Re. fold a in Re, Rc. lia.
Qed.

(** The device before the root is written: blank cells and an empty log. *)
Record zeroed (g : Superblock) (r : Root) (d : Disk) : Prop := {
  ze_first : holds z d 0 (zeroes (alignment g));
  ze_second : holds z d (alignment g) (zeroes (alignment g));
  ze_log : holds z d (2 * alignment g) (zeroes (log_bytes g));
}.

Lemma zeroed_after g r e j d d' : fits g r e j → wrote z 0 (cell_of r) d d' → zeroed g r d →
  holds z d' (alignment g) (zeroes (alignment g)) ∧ holds z d' (2 * alignment g) (zeroes (log_bytes g)).
Proof.
  intros F [T _] [_ H2 H3]. destruct (fits_facts g r e j F) as (R & Hp & Hs & Wa & Ha & Ea & Er & El & Hl0 & Hlm & Ed & Hc).
  destruct (zlen_cell_of r e (ft_encodes _ _ _ _ F)) as [_ Lc]. rewrite Lc, Ea in T.
  assert (whole z (log_bytes g)) as Wl by (by eapply whole_mod; [done|done|lia|]).
  assert (whole z (2 * alignment g)) as W2 by (rewrite Z.mul_comm; by apply whole_mul).
  split; (eapply holds_touches; [by apply z_pos|exact T| | | | |]); try done; rewrite ?zlen_zeroes by lia; try done; lia.
Qed.

Lemma formatted g r e j d : fits g r e j → holds z d 0 (cell_of r) → holds z d (alignment g) (zeroes (alignment g)) →
  holds z d (2 * alignment g) (zeroes (log_bytes g)) → vol d r None j empty_store.
Proof.
  intros F H1 H2 H3. destruct (fits_facts g r e j F) as (R & Hp & Hs & Wa & Ha & Ea & Er & El & Hl0 & Hlm & Ed & Hc).
  apply (fresh_vol d r e j R Hs (ft_encodes _ _ _ _ F)); rewrite ?Er, ?Ea; try done; try apply F.
  rewrite El, Ed. by replace (2 * alignment g + log_bytes g - 2 * alignment g) with (log_bytes g) by lia.
Qed.

(** The root written, wholly or in part. *)
Lemma root_half g r e j d d1 d2 :
  fits g r e j → (∀ x, x * Z.of_nat z < 2 * alignment g → images d1 x ⊆ images d x) → zeroed g r d1 →
  wrote z 0 (cell_of r) d1 d2 → half (alignment g) d r j d2.
Proof.
  intros F I Ze W d' C. destruct (fits_facts g r e j F) as (R & Hp & Hs & Wa & Ha & Ea & Er & El & Hl0 & Hlm & Ed & Hc).
  pose proof (z_pos i i_ok) as Hz. destruct (zlen_cell_of r e (ft_encodes _ _ _ _ F)) as [Ec Lc]. rewrite Ea in Ec, Lc.
  assert (zlen (zeroes (alignment g)) = alignment g) as Lz by (apply zlen_zeroes; lia).
  destruct (root_encode_Ok _ _ (ft_encodes _ _ _ _ F)) as (inner & _ & Hle & Hzl & _). rewrite Ea in Hle.
  destruct (wrote_one z 0 (zeroes (alignment g)) (cell_of r) d1 d2 d') as [H|H]; try done.
  - apply Ze.
  - by rewrite (whole_chunks _ _ Wa Lz), (whole_chunks _ _ Wa Lc).
  - intros k Hk. rewrite Ec. symmetry. apply padded_tail; [done|apply F|lia|done|done].
  - left. intros x Hx. etrans; [|by apply I]. destruct W as [T _]. rewrite Lc in T.
    destruct (decide (x * Z.of_nat z + Z.of_nat z ≤ 0 ∨ 0 + alignment g ≤ x * Z.of_nat z)) as [Hap|Hin].
    + etrans; [by eapply crash_images|]. by apply T.
    + intros t Ht. assert (0 ≤ x) as Hx0 by nia.
      destruct (chunks z (zeroes (alignment g)) !! Z.to_nat x) as [c|] eqn:Ek.
      * pose proof (ze_first _ _ _ Ze _ _ Ek) as H1. pose proof (H _ _ Ek) as H2. rewrite Z.div_0_l, Z.add_0_l, Z2Nat.id in H1, H2 by lia.
        rewrite (H2 t Ht), <- (stable_view _ _ _ H1). apply view_in_images.
      * apply lookup_ge_None in Ek. rewrite (whole_chunks _ _ Wa Lz) in Ek.
        exfalso. unfold whole in Wa. pose proof (Z.div_mod (alignment g) (Z.of_nat z) ltac:(lia)). nia.
  - right. exists None. destruct (zeroed_after g r e j d1 d2 F W Ze) as [K1 K2].
    apply (formatted g r e j); [done|done|by eapply holds_crash|by eapply holds_crash].
Qed.

Lemma seen_zeroes d off n : whole z n → zlen (zeroes n) = n → seen z d off (zeroes n) → dbytes i d off n = zeroes n.
Proof. intros Wn Lz H. pose proof (seen_dbytes i i_ok d off (zeroes n)) as E. rewrite Lz in E. by apply E. Qed.

Lemma provision_spec g r e j s :
  info s = i → fits g r e j → seen z (disk s) 0 (zeroes (2 * alignment g)) →
  spec (provision g) s (λ jr s', jr = (j, r) ∧ vol (disk s') r None j empty_store)
    (λ x s', outside x ∧ half (alignment g) (disk s) r j (disk s')).
Proof.
  intros Hi F Hb. destruct (fits_facts g r e j F) as (R & Hp & Hs & Wa & Ha & Ea & Er & El & Hl0 & Hlm & Ed & Hc).
  pose proof F as [_ V Hca Hr Hal Hm Hri Hj He Hse]. destruct (io_sector i i_ok) as [_ Hss]. pose proof (z_pos i i_ok) as Hz.
  set (a := alignment g) in *. assert (whole z (2 * a)) as W2 by (rewrite Z.mul_comm; by apply whole_mul).
  assert (zlen (zeroes a) = a) as Lz by (apply zlen_zeroes; lia).
  unfold provision. eapply spec_Ok; [exact V|]. apply spec_gets. rewrite Hi. unfold dev_capacity. fold (cap i). fold a.
  rewrite Hca, Z.eqb_refl, Hr, (proj2 (is_multiple_spec a (sector_size i) ltac:(lia)) Hal). cbn [negb orb].
  eapply spec_Ok; [exact Hri|]. eapply spec_Ok; [exact Hj|]. rewrite Ea, Er, El, Ed. fold a. eapply spec_Ok; [exact He|].
  assert (half a (disk s) r j (disk s)) as H0 by (by eapply (half_touches a (2 * a) (2 * a)); [| |apply touches_refl]).
  apply spec_obtain; [intros s1 I1 D1 _|by intros s1 D1; rewrite D1..].
  apply spec_obtain; [intros s2 I2 D2 _|by intros s2 D2; rewrite D2, D1..].
  replace (2 * a) with (a + a) in Hb by lia. rewrite zeroes_app in Hb by lia. apply each_app in Hb as [Hb1 Hb2]; [|done|done|done|by rewrite Lz].
  rewrite Lz, Z.add_0_l in Hb2. assert (disk s2 = disk s) as E2 by congruence.
  eapply spec_bind; [apply (spec_read_block i i_ok 0 a); [congruence|lia|done|done|lia|lia]| |by intros x s3 [D3 O]; rewrite D3, E2].
  intros x s3 I3 [Ex D3]. assert (x = zeroes a) as ->.
  { rewrite Ex, E2. by apply (seen_zeroes _ _ a). }
  rewrite all_zero_zeroes. cbn [negb].
  eapply spec_bind; [apply (spec_read_block i i_ok a a); [congruence|lia|done|done|lia|lia]| |by intros x s4 [D4 O]; rewrite D4, D3, E2].
  intros y s4 I4 [Ey D4]. assert (y = zeroes a) as ->.
  { rewrite Ey, D3, E2. by apply (seen_zeroes _ _ a). }
  rewrite all_zero_zeroes. cbn [negb]. assert (disk s4 = disk s) as E4 by congruence.
  replace (2 * a + log_bytes g - 2 * a) with (log_bytes g) by lia.
  assert (log_bytes g = div_ceil (log_bytes g) a * a) as Elb.
  { pose proof (Z.div_mod (log_bytes g) a ltac:(lia)). rewrite (div_ceil_unique _ _ (log_bytes g / a)); lia. }
  pose proof (div_ceil_nonneg (log_bytes g) a ltac:(lia) Hl0) as Hn0. set (n := Z.to_nat (div_ceil (log_bytes g) a)).
  assert (Z.of_nat n * a = log_bytes g) as En by (unfold n; rewrite Z2Nat.id by done; lia).
  eapply spec_bind; [apply (zero_range_spec a n (2 * a)); [congruence|lia|done|lia|done|lia]|..]; rewrite En, E4.
  2:{ intros x s5 [O T]. split; [done|]. by eapply half_touches. }
  intros _ s5 I5 [T5 Sn5]. assert (half a (disk s) r j (disk s5)) as H5 by (by eapply half_touches).
  eapply spec_bind; [apply spec_flush| |by intros x s6 (-> & O & _)].
  intros _ s6 I6 [D6 _].
  assert (zeroed g r (disk s6)) as Ze.
  { rewrite D6. split; fold a; apply seen_flushed; [| |done];
      (eapply seen_touches; [done|exact T5|done|lia|done|by rewrite Lz|rewrite Lz; lia]). }
  assert (∀ x, x * Z.of_nat z < 2 * a → images (disk s6) x ⊆ images (disk s) x) as I.
  { intros x Hx t. rewrite D6, images_flushed. intros ->%list_elem_of_singleton. destruct (T5 x) as [_ ->]; [|apply view_in_images].
    left. by apply (whole_below (2 * a) x). }
  destruct (zlen_cell_of r e He) as [Ec Lc]. rewrite Ea in Ec, Lc. rewrite <- Ec.
  eapply spec_bind; [apply (spec_write i i_ok 0); [congruence|lia|done|by rewrite Lc|rewrite Lc; lia]|..].
  2:{ intros x s7 (O & W & _). split; [done|]. by eapply root_half. }
  intros _ s7 I7 (W & Sn & _).
  eapply spec_bind; [apply spec_flush|..].
  2:{ intros x s8 (-> & O & _). split; [done|]. by eapply root_half. }
  intros _ s8 I8 [D8 _].
  assert (vol (disk s8) r None j empty_store) as V8.
  { rewrite D8. destruct (zeroed_after g r e j _ _ F W Ze) as [K1 K2]. fold a in K1, K2 |- *. apply (formatted g r e j _ F); fold a; [by apply seen_flushed|..].
    - eapply holds_touches; [done|apply (touches_flushed z 0 0)|exact K1|lia|done|by rewrite Lz|right; lia].
    - eapply holds_touches; [done|apply (touches_flushed z 0 0)|exact K2|lia|done| |right; lia]. rewrite zlen_zeroes by done.
      eapply (whole_mod i i_ok _ a); [exact Wa|lia|exact Hlm]. }
  rewrite <- Ea, <- Er. eapply spec_mono; [apply (mount_spec i i_ok s8 r None j); [congruence|done]|..].
  - done.
  - intros x s9 [O [Rec _]]. split; [done|]. intros d' C. right. apply Rec; [|done]. intros e' E'. assert (e' = e) as -> by congruence. apply F.
Qed.

End fresh.
