(* ===== verification/StoreList.v ===== *)
(** * Listing

    The pages of a listing: each is a part of the keys with a prefix, in their order, and the
    pages together are all of them. *)

From S2P Require Import Prelude StoreFormat StoreCodec StoreTree StoreProof StoreJournal StoreBanks StoreDisk StoreCrash StoreLog StoreRoot StoreVolume StoreState.

(** ** The order of keys *)

Lemma bytes_cmp_refl x : bytes_cmp x x = Eq.
Proof. by apply bytes_cmp_eq. Qed.

Lemma bytes_cmp_swap x y : bytes_cmp y x = CompOpp (bytes_cmp x y).
Proof.
  revert y. induction x as [|a x IH]; intros [|b y]; try done. simpl. rewrite (Z.compare_antisym (byte_Z a) (byte_Z b)).
  destruct (byte_Z a ?= byte_Z b); simpl; auto.
Qed.

Lemma bytes_cmp_trans x y w : bytes_cmp x y = Lt → bytes_cmp y w = Lt → bytes_cmp x w = Lt.
Proof.
  revert y w. induction x as [|a x IH]; intros [|b y] [|c w]; try done. simpl.
  destruct (Z.compare_spec (byte_Z a) (byte_Z b)) as [E1|E1|E1]; [|intros _|done];
    (destruct (Z.compare_spec (byte_Z b) (byte_Z c)) as [E2|E2|E2]; [|intros H2|done]); intros;
    destruct (Z.compare_spec (byte_Z a) (byte_Z c)) as [E3|E3|E3]; try lia; try done. by eapply IH.
Qed.

Abbreviation sorted := (StronglySorted (λ x y, bytes_cmp x y = Lt)).

Lemma smap_insert_keys {A} k (a : A) m k' : k' ∈ (smap_insert k a m).*1 ↔ k' = k ∨ k' ∈ m.*1.
Proof.
  induction m as [|[k1 a1] m IH]; simpl; [set_solver|]. destruct (bytes_cmp k k1) eqn:E; simpl; [|set_solver|set_solver].
  apply bytes_cmp_eq in E as ->. set_solver.
Qed.

Lemma smap_insert_sorted {A} k (a : A) m : sorted m.*1 → sorted (smap_insert k a m).*1.
Proof.
  induction m as [|[k1 a1] m IH]; simpl; intros H; [by repeat constructor|].
  apply StronglySorted_inv in H as [Hs Hf]. destruct (bytes_cmp k k1) eqn:E; simpl.
  - apply bytes_cmp_eq in E as ->. by constructor.
  - constructor; [by constructor|]. constructor; [done|]. eapply Forall_impl; [exact Hf|]. intros y Hy. simpl in Hy. by eapply bytes_cmp_trans.
  - constructor; [by apply IH|]. apply Forall_forall. intros y [->|Hy]%smap_insert_keys.
    + by rewrite bytes_cmp_swap, E.
    + rewrite Forall_forall in Hf. by apply Hf.
Qed.

Lemma smap_get_sorted {A} (m : list (list byte * A)) k a : sorted m.*1 → (k, a) ∈ m → smap_get m k = Some a.
Proof.
  induction m as [|[k1 a1] m IH]; intros H Hin; [set_solver|]. apply StronglySorted_inv in H as [Hs Hf]. simpl.
  apply elem_of_cons in Hin as [[= <- <-]|Hin]; [by rewrite bool_decide_eq_true_2|].
  case_bool_decide as Hk; [|by apply IH]. exfalso. rewrite Forall_forall in Hf.
  assert (k ∈ m.*1) as Hin' by (apply list_elem_of_fmap; by exists (k, a)). specialize (Hf _ Hin'). subst k.
  simpl in Hf. by rewrite bytes_cmp_refl in Hf.
Qed.

(** ** One page *)

Definition key_of (c : Commit) : list byte := key (object (metadata c)).

(** What the loop does not pass over. *)
Definition wanted (prefix : list byte) (after : option (list byte)) (c : Commit) : bool :=
  starts_with prefix (key_of c) && negb (match after with Some x => bytes_le (key_of c) x | None => false end).

Definition listed (prefix : list byte) (after : option (list byte)) (es : list (list byte * Commit)) : list Commit :=
  filter (λ c, wanted prefix after c = true) es.*2.

Lemma list_page_listed prefix after limit acc es :
  zlen acc ≤ limit →
  list_page prefix after limit acc es =
  (acc ++ (metadata <$> take (Z.to_nat (limit - zlen acc)) (listed prefix after es)),
   bool_decide (limit - zlen acc < zlen (listed prefix after es))).
Proof.
  unfold listed. revert acc. induction es as [|[k c] es IH]; intros acc Hacc; cbn [list_page]; rewrite ?fmap_nil, ?fmap_cons; cbn [snd].
  { rewrite filter_nil, take_nil; simpl. rewrite app_nil_r, bool_decide_eq_false_2; [done|]. rewrite zlen_nil. lia. }
  fold (key_of c). rewrite filter_cons. destruct (decide (wanted prefix after c = true)) as [Hw|Hw].
  - assert (negb (starts_with prefix (key_of c)) || match after with Some x => bytes_le (key_of c) x | None => false end = false) as ->.
    { unfold wanted in Hw. apply andb_true_iff in Hw as [-> Hw]. by apply negb_true_iff in Hw as ->. }
    destruct (Z.eqb_spec (zlen acc) limit) as [El|El].
    + rewrite El, Z.sub_diag, app_nil_r, bool_decide_eq_true_2; [done|]. rewrite zlen_cons. match goal with |- context [1 + zlen ?l] => pose proof (zlen_nonneg l) end. lia.
    + rewrite IH by (rewrite zlen_app; change (zlen [metadata c]) with 1; lia). rewrite zlen_app. change (zlen [metadata c]) with 1.
      replace (Z.to_nat (limit - zlen acc)) with (S (Z.to_nat (limit - (zlen acc + 1)))) by lia.
      rewrite <- app_assoc, firstn_cons, fmap_cons. simpl app. f_equal. apply bool_decide_ext. rewrite zlen_cons. lia.
  - assert (negb (starts_with prefix (key_of c)) || match after with Some x => bytes_le (key_of c) x | None => false end = true) as ->.
    { unfold wanted in Hw. destruct (starts_with _ _); [|done]. simpl in *. by destruct (match after with Some _ => _ | None => _ end). }
    by apply IH.
Qed.

(** ** All the pages *)

(** A client that asks for page after page, each after the key the last one named. *)
Fixpoint list_all (fuel : nat) (prefix : list byte) (after : option (list byte)) (limit : Z)
    (es : list (list byte * Commit)) : list Metadata :=
  match fuel with
  | O => []
  | S fuel =>
      let '(page, more) := list_page prefix after limit [] es in
      page ++ (if more then match last page with Some m => list_all fuel prefix (Some (key (object m))) limit es | None => [] end
               else [])
  end.

Lemma filter_all {A} (P : A → Prop) `{∀ x, Decision (P x)} (l : list A) : (∀ x, x ∈ l → P x) → filter P l = l.
Proof.
  induction l as [|x l IH]; intros Hl; [done|]. rewrite filter_cons_True by (apply Hl; left). f_equal. apply IH. intros y Hy. apply Hl. by right.
Qed.

(** The keys after one of a sorted list are those past it. *)
Lemma wanted_after l n c : StronglySorted (λ x y, bytes_cmp (key_of x) (key_of y) = Lt) l → l !! n = Some c →
  filter (λ x, negb (bytes_le (key_of x) (key_of c)) = true) l = drop (S n) l.
Proof.
  intros Hs. revert n. induction Hs as [|x l Hs IH Hf]; intros n Hn; [done|]. rewrite Forall_forall in Hf. destruct n as [|n].
  - injection Hn as ->. rewrite filter_cons_False by (unfold bytes_le; by rewrite bytes_cmp_refl). simpl.
    rewrite drop_0. apply filter_all. intros y Hy. specialize (Hf y Hy). simpl in Hf. unfold bytes_le.
    by rewrite bytes_cmp_swap, Hf.
  - simpl in Hn. rewrite filter_cons_False.
    + simpl drop. by apply IH.
    + unfold bytes_le. by rewrite (Hf c) by (by eapply list_elem_of_lookup_2).
Qed.

Lemma listed_after prefix n c es :
  sorted (key_of <$> es.*2) → listed prefix None es !! n = Some c →
  listed prefix (Some (key_of c)) es = drop (S n) (listed prefix None es).
Proof.
  intros Hs Hn. assert (StronglySorted (λ x y, bytes_cmp (key_of x) (key_of y) = Lt) (listed prefix None es)) as Hl.
  { unfold listed. clear Hn. revert Hs. induction es.*2 as [|x l IH]; simpl; intros Hs; [constructor|].
    apply StronglySorted_inv in Hs as [Hs Hf]. rewrite filter_cons. destruct (decide _); [|by apply IH].
    constructor; [by apply IH|]. rewrite Forall_fmap in Hf. apply Forall_forall. intros y [_ Hy]%list_elem_of_filter. rewrite Forall_forall in Hf. by apply Hf. }
  rewrite <- (wanted_after _ n c Hl Hn). unfold listed. rewrite list_filter_filter. apply list_filter_iff. intros x. unfold wanted.
  rewrite !andb_true_iff. simpl. tauto.
Qed.

Lemma list_all_drop fuel prefix limit es n after :
  sorted (key_of <$> es.*2) → 0 < limit → listed prefix after es = drop n (listed prefix None es) →
  (length (drop n (listed prefix None es)) < fuel)%nat →
  list_all fuel prefix after limit es = metadata <$> drop n (listed prefix None es).
Proof.
  intros Hs Hl. revert n after. induction fuel as [|fuel IH]; intros n after Ha Hf; [lia|]. cbn [list_all].
  rewrite list_page_listed by (rewrite zlen_nil; lia). rewrite Ha, zlen_nil, Z.sub_0_r. set (L := listed prefix None es) in *. simpl app.
  case_bool_decide as Hmore.
  - assert (Z.to_nat limit = S (Z.to_nat (limit - 1))) as En by lia. unfold zlen in Hmore.
    destruct (drop n L !! Z.to_nat (limit - 1)) as [c|] eqn:Ec; [|apply lookup_ge_None in Ec; lia].
    assert (last (metadata <$> take (Z.to_nat limit) (drop n L)) = Some (metadata c)) as ->.
    { rewrite last_lookup, length_fmap, length_take, list_lookup_fmap.
      replace (Nat.pred (Z.to_nat limit `min` length (drop n L))) with (Z.to_nat (limit - 1)) by lia.
      rewrite lookup_take_lt by lia. by rewrite Ec. }
    rewrite lookup_drop in Ec. fold (key_of c).
    rewrite (IH (n + Z.to_nat limit)%nat).
    + rewrite <- fmap_app. f_equal. rewrite <- (take_drop (Z.to_nat limit) (drop n L)) at 2. by rewrite drop_drop.
    + rewrite (listed_after prefix _ c es Hs Ec). f_equal. lia.
    + rewrite length_drop in *. lia.
  - rewrite app_nil_r. f_equal. apply take_ge. unfold zlen in Hmore. lia.
Qed.

(** ** The listing of a store *)

Section store.
Context {BL : Blake3}.
Variable i : Info.

Lemma chain_sorted d j0 j : chain i d j0 j → journal_ok j0 → sorted (entries j0).*1 → sorted (entries j).*1.
Proof.
  induction 1 as [j|j0 rec rcp j1 j2 Hc L1 L2 H1 H2 R C IH]; intros J Hs; [done|].
  destruct (replay_inv _ _ _ _ J R) as (c & Cc & V & ->). apply IH; [by apply advance_ok|]. by apply smap_insert_sorted.
Qed.

Lemma vol_sorted d r old j m : vol i d r old j m → sorted (entries j).*1 ∧ key_of <$> (entries j).*2 = (entries j).*1.
Proof.
  intros V. destruct (vol_journal _ _ _ _ _ _ V) as [J _]. destruct (vo_log _ _ _ _ _ _ V) as (j0 & E0 & C).
  destruct (vo_root _ _ _ _ _ _ V) as (_ & _ & Rw & _). destruct (journal_new_Ok _ _ Rw E0) as (J0 & _ & Hes & _). split.
  - apply (chain_sorted _ _ _ C J0). rewrite Hes. constructor.
  - rewrite <- list_fmap_compose. apply list_fmap_ext. intros n [k c] Hn. by destruct (jo_entries j J k c) as [? _]; [by eapply list_elem_of_lookup_2|].
Qed.

(** C12: following a listing from page to page gives, in the order of their keys, the metadata of every
    object of the store whose key has the prefix, once each and no other. *)
Theorem list_complete d r old j m prefix limit :
  vol i d r old j m → 0 < limit →
  let l := list_all (S (length (entries j))) prefix None limit (entries j) in
  sorted ((λ md, key (object md)) <$> l) ∧
  ∀ md, md ∈ l ↔ ∃ k content, starts_with prefix k = true ∧ m k = Some (md, content).
Proof.
  intros V Hl l. destruct (vol_sorted _ _ _ _ _ V) as [Hs Hk]. destruct (vol_journal _ _ _ _ _ _ V) as [J _].
  assert (l = metadata <$> listed prefix None (entries j)) as El.
  { unfold l. rewrite (list_all_drop _ prefix limit _ 0 None); [by rewrite drop_0|by rewrite Hk|done|by rewrite drop_0|].
    rewrite drop_0. unfold listed. pose proof (length_filter (λ c, wanted prefix None c = true) (entries j).*2) as Hlen. rewrite length_fmap in Hlen. lia. }
  rewrite El. split.
  - rewrite <- list_fmap_compose. rewrite <- Hk in Hs. clear -Hs.
    unfold listed. induction (entries j).*2 as [|x es IH]; [constructor|]. rewrite filter_cons. rewrite fmap_cons in Hs. apply StronglySorted_inv in Hs as [Hs Hf].
    destruct (decide _); [|by apply IH]. constructor; [by apply IH|]. apply Forall_fmap. rewrite Forall_fmap in Hf.
    apply Forall_forall. intros y [_ Hy]%list_elem_of_filter. rewrite Forall_forall in Hf. by apply Hf.
  - intros md. rewrite list_elem_of_fmap. split.
    + intros (c & -> & [Hw Hc]%list_elem_of_filter). apply list_elem_of_fmap in Hc as ([k c'] & -> & Hin). simpl in *.
      destruct (jo_entries j J k c' Hin) as [Hkk _]. exists k. pose proof (vo_store _ _ _ _ _ _ V k) as Hst.
      unfold current in Hst. rewrite (smap_get_sorted _ k c' Hs Hin) in Hst. destruct (m k) as [[md ct]|]; [|done]. destruct Hst as [-> _].
      exists ct. split; [|done]. unfold wanted in Hw. apply andb_true_iff in Hw as [Hw _]. unfold key_of in Hw. by rewrite Hkk in Hw.
    + intros (k & ct & Hp & Hm). pose proof (vo_store _ _ _ _ _ _ V k) as Hst. rewrite Hm in Hst.
      destruct (current k j) as [c|] eqn:Ec; [|done]. destruct Hst as [-> _]. exists c. split; [done|]. unfold current in Ec. apply smap_get_elem in Ec.
      apply list_elem_of_filter. split; [|apply list_elem_of_fmap; by exists (k, c)].
      destruct (jo_entries j J k c Ec) as [Hkk _]. unfold wanted, key_of. by rewrite Hkk, Hp.
Qed.

End store.
