(* ===== verification/StoreReserved.v ===== *)
(** * Compaction

    [src/kernel/storage/src/volume_compact.rs] and the reserved requests of
    [src/kernel/storage/src/device_reserved.rs]: a volume's live objects copied to the other bank
    and the one switch to it.  A future is run to its end; one that is dropped leaves the volume
    closed, as a failed one does.  The live set is what it answers for an object's metadata. *)

From S2P Require Import Prelude StoreFormat StoreTree StoreProof StoreJournal StoreBanks StoreDisk StoreVolume.

(** ** Reserved requests *)

(** [Controller::admit_async], and that a request is refused where others are in the way. *)
Definition admit_async : D unit :=
  c ← gets client;
  if negb c then refuse Unavailable
  else
    _ ← obtain Unavailable;
    obtain Busy.

(** A request sent and awaited: [done_] is what it does, and [begun] what it may have done by the
    time it fails; a failure that is not the driver's own answer gives up the connection. *)
Definition complete {A} (begun : D unit) (done_ : D A) : D A :=
  a ← ask;
  match a with
  | Fine => done_
  | NoResource => refuse Unavailable
  | DeviceFailed =>
      _ ← begun;
      b ← ask;
      match b with
      | Fine => refuse Unavailable
      | _ => _ ← close_client; refuse Unavailable
      end
  | PowerFails => _ ← begun; fail Crashed
  end.

(** [Prepared::submit] and [Prepared::complete] of a request of [len] bytes at [off] over [room]
    bytes of reserved memory. *)
Definition submit {A} (room off len : Z) (begun : D unit) (done_ : D A) : D A :=
  i ← gets info;
  let sector := sector_size i in
  let count := len / sector in
  if (room <? len) || negb (is_multiple_of off sector) || negb (is_multiple_of len sector) || (len =? 0)
     || (2 ^ 32 <=? count) || negb (dev_bounds i (off / sector) count) then refuse Unavailable
  else
    _ ← obtain Unavailable;
    _ ← admit_async;
    _ ← obtain Unavailable;
    complete begun done_.

(** What a read of [len] bytes at [off] gives. *)
Definition sectors_at (off len : Z) : D (list byte) :=
  gets (λ s, let z := sector_size (info s) in
             concat ((λ k, resize (Z.to_nat z) x00 (view (disk s) (off / z + Z.of_nat k))) <$> seq 0 (Z.to_nat (len / z)))).

(** [Prepared::read]: the lengths of the pieces from [at_]. *)
Fixpoint reserved_pieces (room off at_ : Z) (lens : list Z) : D (list byte) :=
  match lens with
  | [] => mret []
  | len :: lens =>
      b ← submit room (off +! at_) len (mret tt) (sectors_at (off +! at_) len);
      _ ← obtain Unavailable;
      rest ← reserved_pieces room off (at_ + len) lens;
      mret (b ++ rest)
  end.

Definition reserved_read (room off len : Z) : D (list byte) :=
  i ← gets info;
  if room <? len then refuse Unavailable
  else reserved_pieces room off 0 (zlen <$> chunks (Z.to_nat (max_sectors i * sector_size i)) (repeat x00 (Z.to_nat len))).

(** [Prepared::write]. *)
Fixpoint reserved_writes (room off at_ : Z) (cs : list (list byte)) : D unit :=
  match cs with
  | [] => mret tt
  | c :: cs =>
      _ ← obtain Unavailable;
      z ← gets (λ s, sector_size (info s));
      let write := put_disk (push_write ((off +! at_) / z) (chunks (Z.to_nat z) c)) in
      _ ← submit room (off +! at_) (zlen c) write write;
      reserved_writes room off (at_ + zlen c) cs
  end.

Definition reserved_write (room off : Z) (bs : list byte) : D unit :=
  i ← gets info;
  if room <? zlen bs then refuse Unavailable
  else reserved_writes room off 0 (chunks (Z.to_nat (max_sectors i * sector_size i)) bs).

(** [Prepared::flush]. *)
Definition reserved_flush : D unit :=
  _ ← obtain Unavailable;
  _ ← admit_async;
  complete (mret tt) (put_disk flushed).

(** ** The resources *)

(** [CompactionResources]; the memory is not in it but for its size. *)
Record CompactionResources := mk_CompactionResources {
  expected_generation : Z;
  rs_next : Root;
  rs_journal : Journal;
  encoded_root : list byte;
  rs_room : Z;
}.

(** [Device::pending_range] of the whole region: what is in flight may be another region's. *)
Definition pending_range : D unit :=
  p ← gets has_pending;
  if (p : bool) then obtain Busy else mret tt.

(** A live set, or none. *)
Abbreviation Live := (option (Metadata → result Refusal bool)).

Section compact.
Context {BL : Blake3}.

(** [Volume::prepare_compaction]. *)
Definition prepare_compaction : V CompactionResources :=
  v ← gets (λ v, v);
  if failed v || async_failed v then fail (Refused Unavailable)
  else
    _ ← io pending_range;
    next ← or_refuse NoCapacity (root_next (root v));
    j ← or_refuse BadIntegrity (journal_new (root_geometry next));
    let a := alignment (root_geometry next) in
    _ ← io (obtain NoCapacity);
    _ ← io (obtain NoCapacity);
    let room := Z.max a (cell j) in
    _ ← io (obtain Denied);
    if (room =? 0) || negb (is_multiple_of room (sector_size (info (dev v)))) then fail (Refused Unavailable)
    else
      _ ← io (obtain Unavailable);
      encoded ← or_refuse NoCapacity (root_encode next);
      _ ← io (obtain NoCapacity);
      _ ← io (obtain NoCapacity);
      _ ← io (obtain NoCapacity);
      _ ← io (obtain NoCapacity);
      mret (mk_CompactionResources (root_generation (root v)) next j encoded room).

(** ** What is kept *)

(** [namespace::ROOT_PREFIX], ".moruna-ns/". *)
Definition ROOT_PREFIX : list byte := [x2e; x6d; x6f; x72; x75; x6e; x61; x2d; x6e; x73; x2f].

(** Whether the copy has an object: its key is not one of a namespace's, or the live set has it. *)
Definition kept (live : Live) (md : Metadata) : result Refusal bool :=
  match live with
  | Some contains => if starts_with ROOT_PREFIX (key (object md)) then contains md else Ok true
  | None => Ok true
  end.

(** The loop over the entries: those kept, planned one after the other. *)
Fixpoint choose (live : Live) (g : Superblock) (j : Journal) (planned : Z) (es : list Commit) : result Refusal (list Commit) :=
  match es with
  | [] => Ok []
  | old :: es =>
      k ← kept live (metadata old);
      if negb k then choose live g j planned es
      else
        new ← map_err (λ _, NoCapacity) (extent g planned (bytes (metadata old)));
        planned ← map_err (λ _, BadIntegrity) (extent_end new j);
        rest ← choose live g j planned es;
        Ok (old :: rest)
  end.

(** ** The copy *)

Section copy.
Variables (room a : Z).

(** The [n] blocks of [old] from [block], each checked against the tree it was committed with and
    written; [g] is the geometry of the journal in force. *)
Fixpoint copy_blocks (g : Superblock) (old : Commit) (old_offset new_offset : Z) (block : Z) (n : nat) : D unit :=
  match n with
  | O => mret tt
  | S n =>
      p ← or_refuse BadIntegrity (proof_new old g block);
      p ← walk_nodes (λ off, bs ← reserved_read room off a; _ ← obtain Unavailable; mret bs) (S (length (steps p))) p;
      bs ← reserved_read room (old_offset +! block *! a) a;
      _ ← obtain Unavailable;
      _ ← or_refuse BadIntegrity (verify_data bs p);
      _ ← reserved_write room (new_offset +! block *! a) bs;
      copy_blocks g old old_offset new_offset (block + 1) n
  end.

(** The [n] nodes of a level from [node]. *)
Fixpoint copy_level (old_offset new_offset : Z) (node : Z) (n : nat) : D unit :=
  match n with
  | O => mret tt
  | S n =>
      bs ← reserved_read room (old_offset +! node *! a) a;
      _ ← reserved_write room (new_offset +! node *! a) bs;
      copy_level old_offset new_offset (node + 1) n
  end.

Fixpoint copy_levels (levels : list (TreeLevel * TreeLevel)) : D unit :=
  match levels with
  | [] => mret tt
  | (l, l') :: levels =>
      if negb (lv_nodes l =? lv_nodes l') then refuse BadIntegrity
      else
        _ ← copy_level (lv_offset l) (lv_offset l') 0 (Z.to_nat (lv_nodes l));
        copy_levels levels
  end.

(** The commit [c] and its receipt written, each in its cell, and applied. *)
Definition copy_commit (c : Commit) (j : Journal) : D Journal :=
  _ ← or_refuse BadIntegrity (validate_commit c j);
  record ← or_refuse NoCapacity (encode (FCommit c));
  receipt ← or_refuse NoCapacity (encode (FReceipt (log j) (blake3 record)));
  if (cell j <? zlen record) || (cell j <? zlen receipt) then refuse NoCapacity
  else
    _ ← obtain Unavailable;
    _ ← obtain Unavailable;
    _ ← reserved_flush;
    _ ← reserved_write room (log j) (padded (cell j) record);
    _ ← reserved_flush;
    _ ← reserved_write room (log j +! cell j) (padded (cell j) receipt);
    _ ← reserved_flush;
    _ ← obtain Unavailable;
    _ ← obtain Unavailable;
    '(applied, j') ← or_refuse BadIntegrity (replay (padded (cell j) record) (padded (cell j) receipt) j);
    if (applied : bool) then mret j' else refuse BadIntegrity.

(** One object: its blocks, its tree and the pair that commits it to the new journal. *)
Definition copy_object (g : Superblock) (old : Commit) (j : Journal) : D Journal :=
  let md := metadata old in
  planned ← or_refuse NoCapacity (plan (object md) Absent (bytes md) j);
  loc ← lift (ok_or planned (Refused BadIntegrity));
  match location old, loc with
  | Extent old_offset old_padded old_tree old_root, Extent offset pad tree _ =>
      _ ← copy_blocks g old old_offset offset 0 (Z.to_nat (old_padded / a));
      if negb (Nat.eqb (length old_tree) (length tree)) then refuse BadIntegrity
      else
        _ ← copy_levels (zip old_tree tree);
        copy_commit (mk_Commit (log j) md (content_hash old) (Extent offset pad tree old_root)) j
  | _, _ => refuse BadIntegrity
  end.

Fixpoint copy_all (g : Superblock) (es : list Commit) (j : Journal) : D Journal :=
  match es with
  | [] => mret j
  | old :: es => j' ← copy_object g old j; copy_all g es j'
  end.

(** The writes of zeroes over the log of the other bank. *)
Fixpoint clear_log (at_ : Z) (n : nat) : D unit :=
  match n with
  | O => mret tt
  | S n => _ ← reserved_write room at_ (repeat x00 (Z.to_nat a)); clear_log (at_ + a) n
  end.

End copy.

(** What is done under the [Transaction], on a volume whose root is [r] and whose geometry is [g]:
    the new journal. *)
Definition transact (rs : CompactionResources) (r : Root) (g : Superblock) (es : list Commit) : D Journal :=
  let next := rs_next rs in
  let gn := root_geometry next in
  let a := alignment gn in
  let room := rs_room rs in
  let zero := repeat x00 (Z.to_nat a) in
  _ ← obtain Unavailable;
  _ ← reserved_write room (slot next) zero;
  _ ← reserved_flush;
  _ ← clear_log room a (log_offset gn) (Z.to_nat (div_ceil (data_offset gn - log_offset gn) a));
  _ ← reserved_flush;
  j ← copy_all room a g es (rs_journal rs);
  _ ← obtain Unavailable;
  _ ← reserved_write room (slot next) (padded a (encoded_root rs));
  _ ← reserved_flush;
  _ ← obtain Unavailable;
  _ ← reserved_write room (slot r) zero;
  _ ← reserved_flush;
  mret j.

(** The drop of a [Transaction] that is not complete. *)
Definition set_async_failed : V unit :=
  modify (λ v, mk_Volume (dev v) (journal v) (root v) (copied v) (failed v) true (loan v)).

(** [Volume::compact_selected_async]; [same] tells whether the resources are of this volume. *)
Definition compact_selected (same : bool) (rs : CompactionResources) (live : Live) : V unit :=
  v ← gets (λ v, v);
  if failed v || async_failed v then fail (Refused Unavailable)
  else if negb same || negb (expected_generation rs =? root_generation (root v)) then fail (Refused Busy)
  else
    _ ← io pending_range;
    let g := root_geometry (rs_next rs) in
    let j := rs_journal rs in
    es ← lift (map_err Refused (choose live g j (data j) (entries (journal v)).*2));
    pairs ← lift (ok_or (checked_mul 64 (zlen es) (2 *! cell j)) (Refused NoCapacity));
    if log_bytes g <? pairs then fail (Refused NoCapacity)
    else
      λ v, match io (transact rs (root v) (geometry (journal v)) es) v with
           | (Ok j', v) => (_ ← set_journal j'; set_root (rs_next rs)) v
           | (Err e, v) => (_ ← set_async_failed; fail e) v
           end.

(** [Volume::compact_namespaces_async]; [matches] tells whether the live set is of this volume. *)
Definition compact_namespaces (matches same : bool) (rs : CompactionResources) (live : Metadata → result Refusal bool) : V unit :=
  if negb matches then fail (Refused Denied) else compact_selected same rs (Some live).

End compact.
