(* ===== verification/StoreCopy.v ===== *)
(** * Copying an object

    What the reserved requests of [StoreReserved] do to a device, and that an object copied to the
    other bank is there as it was, while the volume it is copied from stays. *)

From S2P Require Import Prelude StoreFormat StoreCodec StoreTree StoreProof StoreJournal StoreBanks StoreDisk StoreCrash StoreLog StoreRoot StoreVolume StoreState StoreMount StorePut StoreRead StoreFresh StoreReserved.

(** ** Requests *)

Lemma spec_admit s : spec admit_async s (λ _ s', disk s' = disk s) (λ e s', disk s' = disk s ∧ outside e).
Proof.
  unfold admit_async. apply spec_gets. destruct (client s) eqn:Ec; simpl.
  - apply spec_obtain; [intros s1 I1 D1 _|by intros s1 D1..]. unfold spec. eapply wp_mono; [apply obtain_spec|].
    intros r s2 (R & D2 & [->|[->| ->]]); (split; [done|]); rewrite D2, D1; done.
  - split; [|done]. split_and!; try done. intros (_ & ? & _). simpl in *. congruence.
Qed.

(** What is begun changes the device's content by [h], and nothing else. *)
Definition begins (h : Disk → Disk) (begun : D unit) : Prop :=
  ∀ s, begun s = (Ok tt, mk_Dev (h (disk s)) (info s) (answers s) (client s) (has_pending s)).

Lemma begins_put h : begins h (put_disk h).
Proof. done. Qed.

Lemma begins_nothing : begins (λ d, d) (mret tt).
Proof. by intros []. Qed.

(** A request does what it does, or is stopped with it begun or not. *)
Lemma spec_complete {A} (h : Disk → Disk) begun (done_ : D A) s P :
  begins h begun →
  (∀ ans, spec done_ (mk_Dev (disk s) (info s) ans (client s) (has_pending s)) P (λ _ _, False)) →
  spec (complete begun done_) s P (λ e s', outside e ∧ (disk s' = disk s ∨ disk s' = h (disk s))).
Proof.
  intros Hb H. unfold spec, wp, complete, ask, close_client, modify, refuse, fail, mbind, M_bind. destruct s as [d i ans c p]. cbn [answers disk info client has_pending] in *.
  assert (∀ ans', (good (mk_Dev d i ans c p) → ans' = []) → 
    let '(r, s') := done_ (mk_Dev d i ans' c p) in
    ran (mk_Dev d i ans c p) s' r ∧ match r with Ok a => P a s' | Err e => outside e ∧ (disk s' = d ∨ disk s' = h d) end) as Hd.
  { intros ans' Ha. specialize (H ans'). unfold spec, wp in H. destruct (done_ _) as [r s']. simpl in *. destruct H as [(I & P' & G) Q].
    split; [|by destruct r]. split_and!; try done. intros Gd. apply G. destruct Gd as (? & ? & ?). split_and!; try done. simpl. by apply Ha. }
  destruct ans as [|[] ans]; cbn.
  - specialize (Hd [] ltac:(done)). by destruct (done_ _).
  - specialize (Hd ans ltac:(by intros (? & _))). by destruct (done_ _).
  - split; [|by split; [|left]]. split_and!; try done. by intros (? & _).
  - rewrite !Hb. destruct ans as [|[] ans]; cbn; rewrite ?Hb; cbn; (split; [split_and!; try done; by intros (? & _)|by split; [|right]]).
  - rewrite !Hb. cbn. split; [|by split; [|right]]. split_and!; try done. by intros (? & _).
Qed.

Section device.
Variable i : Info.
Hypothesis i_ok : info_ok i.

Abbreviation z := (StoreCrash.z i).

(** One request of [len] bytes at [off]. *)
Lemma spec_submit {A} room off len (h : Disk → Disk) begun (done_ : D A) s P :
  begins h begun →
  info s = i → 0 ≤ off → whole z off → whole z len → 0 < len ≤ max_bytes i → off + len ≤ cap i → len ≤ room →
  (∀ s1, info s1 = i → disk s1 = disk s → spec done_ s1 P (λ _ _, False)) →
  spec (submit room off len begun done_) s P (λ e s', outside e ∧ (disk s' = disk s ∨ disk s' = h (disk s))).
Proof.
  intros Hb Hi Ho Wo Wl Hl Hc Hr Hd. unfold submit. apply spec_gets. rewrite Hi. pose proof (z_pos i i_ok). pose proof (z_size i i_ok) as Es.
  rewrite (proj2 (Z.ltb_ge room len) Hr), (proj2 (multiple_whole i i_ok off) Wo), (proj2 (multiple_whole i i_ok len) Wl).
  rewrite (proj2 (Z.eqb_neq len 0)) by lia. destruct (Z.leb_spec (2 ^ 32) (len / sector_size i)) as [Hbig|_].
  { exfalso. destruct (io_sector i i_ok), (io_max i i_ok). unfold max_bytes in *.
    pose proof (Z.div_le_upper_bound len (sector_size i) (max_sectors i) ltac:(lia) ltac:(lia)). lia. }
  rewrite <- Es, (dev_bounds_ok i i_ok) by done. cbn [negb orb].
  apply spec_obtain; [intros s1 I1 D1 _|by intros s1 D1; split; [|left]..].
  eapply spec_bind; [apply spec_admit| |by intros e s2 [D2 O]; split; [|left; congruence]]. intros [] s2 I2 D2.
  apply spec_obtain; [intros s3 I3 D3 _|by intros s3 D3; split; [|left; congruence]..].
  assert (disk s3 = disk s) as E3 by congruence. rewrite <- E3. apply spec_complete; [done|]. intros ans. apply Hd; simpl; congruence.
Qed.

Lemma reserved_writes_spec room off bs at_ s :
  info s = i → 0 ≤ off → 0 ≤ at_ → whole z (off + at_) → whole z (zlen bs) → off + at_ + zlen bs ≤ cap i → zlen bs ≤ room →
  spec (reserved_writes room off at_ (chunks (Z.to_nat (max_bytes i)) bs)) s
    (λ _ s', wrote z (off + at_) bs (disk s) (disk s') ∧ seen z (disk s') (off + at_) bs)
    (λ e s', outside e ∧ wrote z (off + at_) bs (disk s) (disk s')).
Proof.
  pose proof (max_bytes_pos i i_ok) as Hmax. pose proof (z_pos i i_ok) as Hz. pose proof (whole_max i i_ok) as Wm.
  intros Hi Ho. revert at_ s Hi.
  induction bs as [|bs Hne IH] using (chunks_ind (Z.to_nat (max_bytes i)) ltac:(lia)); intros at_ s Hi Ha Wo Wb Hc Hr.
  { rewrite chunks_nil. apply spec_ret. split; [apply wrote_refl|apply each_nil]. }
  rewrite chunks_step by (done || lia). cbn [reserved_writes].
  set (x := take (Z.to_nat (max_bytes i)) bs) in *. set (y := drop (Z.to_nat (max_bytes i)) bs) in *.
  assert (bs = x ++ y) as E by (symmetry; apply take_drop).
  assert (zlen x = Z.min (max_bytes i) (zlen bs)) as Lx by (unfold x, zlen; rewrite length_take; lia).
  assert (whole z (zlen x)) as Wx by (rewrite Lx; destruct (Z.min_spec (max_bytes i) (zlen bs)) as [[_ ->]|[_ ->]]; done).
  assert (0 < zlen bs) as Hpos by (destruct bs; [done|rewrite zlen_cons; pose proof (zlen_nonneg bs); lia]).
  assert (zlen y = zlen bs - zlen x) as Ly by (rewrite E, zlen_app; lia).
  assert (whole z (zlen y)) as Wy by (rewrite Ly; unfold whole in *; by rewrite Zminus_mod, Wb, Wx by lia).
  assert (off +! at_ = off + at_) as ->.
  { pose proof (io_capacity i i_ok : cap i < 2 ^ 64). unfold wadd. apply wrap_small. unfold in_width. lia. }
  apply spec_obtain; [intros s1 I1 D1 _|by intros s1 D1; rewrite D1; split; [|apply wrote_refl]..].
  apply spec_gets. rewrite I1, Hi. replace (Z.to_nat (sector_size i)) with z by done. rewrite <- (z_size i i_ok), <- D1.
  assert (wrote z (off + at_) x (disk s1) (push_write ((off + at_) / Z.of_nat z) (chunks z x) (disk s1))) as W1 by (apply wrote_push; [done|lia|done|done]).
  assert (∀ d, wrote z (off + at_) x (disk s1) d → wrote z (off + at_) bs (disk s1) d) as Part.
  { intros d W. rewrite E. eapply wrote_app; [done|lia|done|done|done|exact W|apply wrote_refl]. }
  eapply spec_bind.
  { apply (spec_submit room (off + at_) (zlen x) _ _ _ s1
      (λ _ s', disk s' = push_write ((off + at_) / Z.of_nat z) (chunks z x) (disk s1)) (begins_put _)); try lia; [congruence|done|done|].
    intros s2 _ D2. rewrite <- D2. split; [|done]. split_and!; try done. intros G. split; [done|by exists tt]. }
  2:{ intros e s2 [O D2]. split; [done|]. apply Part. destruct D2 as [->| ->]; [apply wrote_refl|done]. }
  intros [] s2 I2 D2. rewrite <- D2 in W1.
  assert (seen z (disk s2) (off + at_) x) as Sx by (rewrite D2; apply seen_push).
  destruct (decide (y = [])) as [Ey|Ey].
  { rewrite Ey, chunks_nil. apply spec_ret. split; [by apply Part|]. by rewrite E, Ey, app_nil_r. }
  assert (0 < zlen y) by (destruct y; [done|rewrite zlen_cons; pose proof (zlen_nonneg y); lia]).
  eapply spec_mono; [apply (IH (at_ + zlen x) s2); [congruence|lia|rewrite Z.add_assoc; by apply whole_add|done|lia|lia]|..]; rewrite Z.add_assoc.
  - intros _ s3 [W3 S3]. split; [rewrite E; by eapply wrote_app; [|lia|..]|].
    rewrite E. apply each_app; [done|lia|done|done|]. split; [|done].
    eapply seen_touches; [done|exact (proj1 W3)|done|lia|done|done|lia].
  - intros e s3 [O W3]. split; [done|]. rewrite E. by eapply wrote_app; [|lia|..].
Qed.

Lemma spec_rwrite room off bs s :
  info s = i → 0 ≤ off → whole z off → whole z (zlen bs) → off + zlen bs ≤ cap i → zlen bs ≤ room →
  spec (reserved_write room off bs) s (λ _ s', wrote z off bs (disk s) (disk s') ∧ seen z (disk s') off bs)
    (λ e s', outside e ∧ wrote z off bs (disk s) (disk s')).
Proof.
  intros Hi Ho Wo Wb Hc Hr. unfold reserved_write. apply spec_gets. rewrite Hi, (proj2 (Z.ltb_ge room (zlen bs)) Hr). fold (max_bytes i).
  pose proof (reserved_writes_spec room off bs 0 s Hi Ho ltac:(lia)) as H. rewrite Z.add_0_r in H. by apply H.
Qed.

Lemma spec_rread room off len s :
  info s = i → 0 ≤ off → whole z off → whole z len → 0 < len ≤ max_bytes i → off + len ≤ cap i → len ≤ room →
  spec (reserved_read room off len) s (λ bs s', bs = dbytes i (disk s) off len ∧ disk s' = disk s) (λ e s', disk s' = disk s ∧ outside e).
Proof.
  intros Hi Ho Wo Wl Hl Hc Hr. unfold reserved_read. apply spec_gets. rewrite Hi, (proj2 (Z.ltb_ge room len) Hr). fold (max_bytes i).
  pose proof (io_capacity i i_ok : cap i < 2 ^ 64) as Hcap. assert (zlen (repeat x00 (Z.to_nat len)) = len) as Lz by (apply zlen_zeroes; lia).
  rewrite chunks_one; [|lia|intros E; rewrite E, zlen_nil in Lz; lia|unfold zlen in Lz; lia]. cbn [fmap list_fmap reserved_pieces]. rewrite Lz.
  assert (off +! 0 = off) as -> by (unfold wadd; rewrite Z.add_0_r; apply wrap_small; unfold in_width; lia).
  eapply spec_bind; [apply (spec_submit room off len _ _ _ s (λ bs s', bs = dbytes i (disk s) off len ∧ disk s' = disk s) begins_nothing); try done|..].
  { intros s1 I1 D1. unfold sectors_at. split; [apply ran_refl|]. simpl. rewrite I1, D1. unfold dbytes. by rewrite (z_size i i_ok). }
  2:{ by intros e s1 [O [D|D]]. }
  intros b s1 I1 [Eb D1]. apply spec_obtain; [intros s2 I2 D2 _|by intros s2 D2; split; [congruence|]..].
  apply (spec_bind _ _ _ _ _ (λ r s', r = [] ∧ disk s' = disk s2) (λ _ _, False)); [by apply spec_ret| |done].
  intros r s3 _ [-> D3]. apply spec_ret. rewrite app_nil_r. split; [done|congruence].
Qed.

Lemma spec_rflush s :
  spec reserved_flush s (λ _ s', disk s' = flushed (disk s)) (λ e s', disk s' = disk s ∧ outside e).
Proof.
  unfold reserved_flush. apply spec_obtain; [intros s1 I1 D1 _|by intros s1 D1..]. rewrite <- D1.
  eapply spec_bind; [apply spec_admit| |done]. intros [] s2 I2 D2. rewrite <- D2.
  eapply spec_mono; [apply (spec_complete (λ d, d) _ (put_disk flushed) s2 (λ _ s', disk s' = flushed (disk s2)) begins_nothing)|done|by intros e s3 [O [?|?]]].
  intros ans. split; [|done]. split_and!; try done. intros G. split; [done|by exists tt].
Qed.

End device.

(** ** Pages *)

Lemma qspec_spec {A} (f : D A) s P F : qspec True f s P F → spec f s P F.
Proof.
  unfold qspec, spec. intros H. eapply wp_mono; [exact H|]. intros r s' (I & P' & G & Q). split; [|done]. split_and!; auto.
Qed.

Section copy.
Context {BL : Blake3}.
Variable i : Info.
Hypothesis i_ok : info_ok i.
Variables (room a : Z).
Hypothesis a_some : 0 < a ≤ max_bytes i.
Hypothesis a_whole : whole (StoreCrash.z i) a.
Hypothesis a_room : a ≤ room.

Abbreviation z := (StoreCrash.z i).

Lemma page_whole off n : whole z off → whole z (off + n * a).
Proof. intros Wo. apply whole_add; [done|done|]. rewrite Z.mul_comm. by apply whole_mul. Qed.

Lemma page_address off n : 0 ≤ off → 0 ≤ n → off + (n + 1) * a ≤ cap i → off +! n *! a = off + n * a.
Proof.
  intros Ho Hn Hc. pose proof (io_capacity i i_ok : cap i < 2 ^ 64). unfold wadd, wmul.
  rewrite !wrap_small; unfold in_width; rewrite ?wrap_small; unfold in_width; nia.
Qed.

(** The first of pages held, and the others. *)
Lemma held_first d off (p : list byte) ps : 0 ≤ off → whole z off → zlen p = a → holds z d off (concat (p :: ps)) →
  dbytes i d off a = p ∧ holds z d (off + a) (concat ps).
Proof.
  intros Ho Wo Lp H. simpl in H. pose proof (z_pos i i_ok). apply each_app in H as [H1 H2]; [|done|done|done|by rewrite Lp]. rewrite Lp in H2.
  split; [|done]. rewrite <- Lp. apply seen_dbytes; [done|by rewrite Lp|by apply holds_seen].
Qed.

(** A page written, and others after it. *)
Lemma page_then off p ps d d1 d2 :
  0 ≤ off → whole z off → zlen p = a → wrote z off p d d1 → seen z d1 off p →
  touches z (off + a) (off + a + zlen ps * a) d1 d2 →
  touches z off (off + a + zlen ps * a) d d2 ∧ (seen z d2 (off + a) (concat ps) → seen z d2 off (concat (p :: ps))).
Proof.
  intros Ho Wo Lp [T1 _] S1 T2. pose proof (z_pos i i_ok). pose proof (zlen_nonneg ps). rewrite Lp in T1. split.
  - eapply touches_trans; [eapply touches_wider; [exact T1|lia|nia]|]. eapply touches_wider; [exact T2|lia|lia].
  - intros S2. simpl. apply each_app; [done|done|done|by rewrite Lp|]. rewrite Lp. split; [|done].
    eapply seen_touches; [done|exact T2|done|done|done|by rewrite Lp|rewrite Lp; lia].
Qed.

Lemma copy_level_spec pgs src dst node s :
  info s = i → 0 ≤ src → 0 ≤ dst → 0 ≤ node → whole z src → whole z dst → Forall (λ x, zlen x = a) pgs →
  src + (node + zlen pgs) * a ≤ cap i → dst + (node + zlen pgs) * a ≤ cap i →
  src + (node + zlen pgs) * a ≤ dst ∨ dst + (node + zlen pgs) * a ≤ src →
  holds z (disk s) (src + node * a) (concat pgs) →
  spec (copy_level room a src dst node (length pgs)) s
    (λ _ s', touches z (dst + node * a) (dst + (node + zlen pgs) * a) (disk s) (disk s') ∧ seen z (disk s') (dst + node * a) (concat pgs))
    (λ e s', outside e ∧ touches z (dst + node * a) (dst + (node + zlen pgs) * a) (disk s) (disk s')).
Proof.
  intros Hi Hs Hd Hn Ws Wd Hu. revert node s Hi Hn. induction Hu as [|p pgs Lp Hu IH]; intros node s Hi Hn Cs Cd Ap H; cbn [copy_level length].
  { apply spec_ret. split; [apply touches_refl|apply each_nil]. }
  rewrite zlen_cons in *. pose proof (zlen_nonneg pgs) as Hz. pose proof (z_pos i i_ok).
  assert (dst + (node + (1 + zlen pgs)) * a = dst + node * a + a + zlen pgs * a) as Eend by lia. rewrite Eend.
  rewrite !page_address by (done || nia). apply held_first in H as [Ep H]; [|nia|by apply page_whole|done].
  eapply spec_bind; [apply (spec_rread i i_ok); try done; [nia|by apply page_whole|nia]|..].
  2:{ intros e s1 [-> O]. split; [done|apply touches_refl]. }
  intros bs s1 I1 [Eb D1]. rewrite Ep in Eb. subst bs. rewrite <- D1 in *.
  eapply spec_bind; [apply (spec_rwrite i i_ok); rewrite ?Lp; try done; [congruence|nia|by apply page_whole|nia]|..].
  2:{ intros e s2 [O [T _]]. rewrite Lp in T. split; [done|]. eapply touches_wider; [exact T|lia|nia]. }
  intros _ s2 I2 [W2 S2]. assert (holds z (disk s2) (src + (node + 1) * a) (concat pgs)) as H2.
  { replace (src + (node + 1) * a) with (src + node * a + a) by lia. destruct W2 as [T _]. rewrite Lp in T.
    pose proof (zlen_concat_uniform _ a Hu) as Lc.
    eapply holds_touches; [done|exact T|done|nia| |rewrite Lc, Z.mul_comm; by apply whole_mul|rewrite Lc; nia].
    apply whole_add; [done|by apply page_whole|done]. }
  eapply spec_mono; [apply (IH (node + 1) s2); try done; [congruence|lia|nia|nia|nia]|..];
    replace (dst + (node + 1 + zlen pgs) * a) with (dst + node * a + a + zlen pgs * a) by lia;
    replace (dst + (node + 1) * a) with (dst + node * a + a) by lia.
  - intros _ s3 [T3 S3]. destruct (page_then (dst + node * a) p pgs _ _ _ ltac:(nia) ltac:(by apply page_whole) Lp W2 S2 T3) as [T S]. auto.
  - intros e s3 [O T3]. split; [done|]. by eapply page_then; [| | |exact W2| |]; [nia|apply page_whole|..].
Qed.

Lemma copy_levels_spec f cp pg end_ count tree tree' n s :
  (16 ≤ f)%nat → a = 32 * Z.of_nat f →
  info s = i → 0 ≤ end_ → end_ mod a = 0 → end_ ≤ cp → cp ≤ cap i → 0 ≤ count → check_levels a cp end_ count tree' = Ok n →
  (∀ k l l', tree !! k = Some l → tree' !! k = Some l' →
     lv_nodes l = lv_nodes l' ∧ zlen (pg k) = lv_nodes l ∧ Forall (λ x, zlen x = a) (pg k) ∧
     holds z (disk s) (lv_offset l) (concat (pg k)) ∧ 0 ≤ lv_offset l ∧ whole z (lv_offset l) ∧
     (lv_offset l + lv_nodes l * a ≤ end_ ∨ cp ≤ lv_offset l) ∧ lv_offset l + lv_nodes l * a ≤ cap i) →
  length tree = length tree' →
  spec (copy_levels room a (zip tree tree')) s
    (λ _ s', touches z end_ (tree_end a end_ tree') (disk s) (disk s') ∧
       ∀ k l', tree' !! k = Some l' → seen z (disk s') (lv_offset l') (concat (pg k)))
    (λ e s', outside e ∧ touches z end_ (tree_end a end_ tree') (disk s) (disk s')).
Proof.
  intros Hf Ha Hi He Hm Hcp Hc Hcount. pose proof (z_pos i i_ok) as Hz. revert pg end_ count tree s Hi He Hm Hcp Hcount.
  induction tree' as [|l' tree' IH]; intros pg end_ count [|l tree] s Hi He Hm Hcp Hcount E Hsrc Hlen; try done; cbn [zip_with copy_levels].
  { apply spec_ret. split; [apply touches_refl|by intros k l' ?]. }
  apply (check_levels_cons f a cp Hf Ha) in E as (En & Eo & Hlt & Hle & _ & E); [|done..].
  destruct (Hsrc 0%nat l l' eq_refl eq_refl) as (Nd & Np & Hu & Hh & Ho & Wo & Ap & Co). rewrite Nd, Z.eqb_refl. cbn [negb].
  rewrite Nd in Np, Ap, Co. set (nd := lv_nodes l') in *. assert (0 ≤ nd) by (rewrite <- Np; apply zlen_nonneg).
  assert ((end_ + nd * a) mod a = 0) as Hm' by (by rewrite Z.mod_add by lia).
  assert (end_ ≤ end_ + nd * a) by nia.
  destruct (tree_end_ge f a cp Hf Ha (end_ + nd * a) nd tree' n ltac:(nia) ltac:(done) Hm' E Hle) as [[Hge1 Hge2] _].
  assert (whole z end_) as We by (by apply (whole_mod i i_ok _ a); [done|lia|]).
  cbn [tree_end]. fold nd. rewrite Eo.
  pose proof (copy_level_spec (pg 0%nat) (lv_offset l) end_ 0 s Hi Ho He ltac:(lia) Wo We Hu) as Hlv.
  rewrite Np, Z.mul_0_l, !Z.add_0_r, Z.add_0_l in Hlv. replace (length (pg 0%nat)) with (Z.to_nat nd) in Hlv by (rewrite <- Np; unfold zlen; lia).
  eapply spec_bind; [apply Hlv; try done; [lia|]|..].
  { destruct Ap as [?|?]; [by left|right; lia]. }
  2:{ intros e s1 [O T]. split; [done|]. eapply touches_wider; [exact T|lia|lia]. }
  intros _ s1 I1 [T1 S1].
  eapply spec_mono; [apply (IH (λ k, pg (S k)) (end_ + nd * a) nd tree s1); try done; [congruence|nia| |by injection Hlen]|..].
  - intros k l1 l1' Hk Hk'. destruct (Hsrc (S k) l1 l1' Hk Hk') as (N1 & N2 & N3 & N4 & N5 & N6 & N7 & N8). split_and!; try done; [|lia].
    pose proof (zlen_concat_uniform _ a N3) as Lc. rewrite N2 in Lc.
    assert (0 ≤ lv_nodes l1) by (rewrite <- N2; apply zlen_nonneg).
    eapply holds_touches; [done|exact T1|done|done|done|rewrite Lc, Z.mul_comm; by apply whole_mul|rewrite Lc; lia].
  - intros _ s2 [T2 S2]. split.
    + eapply touches_trans; [eapply touches_wider; [exact T1|lia|lia]|]. eapply touches_wider; [exact T2|lia|lia].
    + intros [|k] l1 Hk; [|by apply (S2 k)]. injection Hk as <-. rewrite Eo. pose proof (zlen_concat_uniform _ a Hu) as Lc. rewrite Np in Lc.
      eapply seen_touches; [done|exact T2|done|done|done|rewrite Lc, Z.mul_comm; by apply whole_mul|rewrite Lc; lia].
  - intros e s2 [O T2]. split; [done|].
    eapply touches_trans; [eapply touches_wider; [exact T1|lia|lia]|]. eapply touches_wider; [exact T2|lia|lia].
Qed.

End copy.

(** ** An object *)

Section object.
Context {BL : Blake3}.
Variable i : Info.
Hypothesis i_ok : info_ok i.
Variables (room : Z) (g : Superblock) (old : Commit) (content : list byte) (start pad : Z) (tree : list TreeLevel) (rt : list byte).
Abbreviation a := (alignment g).
Abbreviation z := (StoreCrash.z i).
Hypothesis a_max : a ≤ max_bytes i.
Hypothesis a_whole : whole z a.
Hypothesis a_room : a ≤ room.
Hypothesis g_ok : superblock_ok g.
Hypothesis g_device : capacity g ≤ cap i.
Hypothesis old_valid : validate_in old g = Ok tt.
Hypothesis old_extent : location old = Extent start pad tree rt.
Hypothesis old_typed : commit_ok old.

Lemma object_end : location_end a (location old) ≤ capacity g ∧ 0 ≤ data_offset g ∧ 512 ≤ a < 2 ^ 32.
Proof.
  destruct (validate_in_extent _ _ _ _ _ _ old_valid old_extent) as (G & _ & _ & _ & X). destruct old_typed as (_ & (_ & _ & [Hb _]) & _).
  destruct (extent_end_Ok g (metadata old) start pad tree rt (mk_Journal g 0 0 0 []) g_ok G Hb X eq_refl) as (_ & _ & He & _).
  rewrite old_extent. split; [done|]. pose proof g_ok as (_ & _ & _ & _ & [? _] & _). split; [lia|]. by apply align_range.
Qed.

(** What is written outside the object's bank leaves the object. *)
Lemma stored_outside d d' lo hi : capacity g ≤ lo ∨ hi ≤ log_offset g → touches z lo hi d d' → stored i d g old content → stored i d' g old content.
Proof.
  intros Ap T. destruct object_end as (He & Hd & _). destruct (validate_in_extent _ _ _ _ _ _ old_valid old_extent) as (G & _).
  pose proof (go_data _ G). pose proof g_ok as (_ & _ & _ & [? _] & _).
  apply (stored_keeps i i_ok d d' g old content (capacity g)); try done. eapply keeps_touches; [done|done|exact T|lia].
Qed.

Lemma copy_blocks_spec dst n block s :
  info s = i → stored i (disk s) g old content → 0 ≤ block → Z.of_nat n = zlen (blocks_of a content) - block →
  0 ≤ dst → whole z dst → dst + zlen (blocks_of a content) * a ≤ cap i →
  capacity g ≤ dst ∨ dst + zlen (blocks_of a content) * a ≤ log_offset g →
  spec (copy_blocks room a g old start dst block n) s
    (λ _ s', touches z (dst + block * a) (dst + zlen (blocks_of a content) * a) (disk s) (disk s') ∧
       seen z (disk s') (dst + block * a) (concat (drop (Z.to_nat block) (blocks_of a content))))
    (λ e s', outside e ∧ touches z (dst + block * a) (dst + zlen (blocks_of a content) * a) (disk s) (disk s')).
Proof.
  destruct object_end as (_ & Hdo & Ha). pose proof (z_pos i i_ok) as Hz. intros Hi Hst Hb Hn Hd Wd Cd Ap.
  revert block s Hi Hst Hb Hn. induction n as [|n IH]; intros block s Hi Hst Hb Hn; cbn [copy_blocks].
  { apply spec_ret. split; [apply touches_refl|]. rewrite drop_ge by (unfold zlen in Hn; lia). apply each_nil. }
  set (nb := zlen (blocks_of a content)) in *. assert (∃ b : nat, block = Z.of_nat b) as [b ->] by (exists (Z.to_nat block); lia).
  assert (b < length (blocks_of a content))%nat as Hbl by (unfold nb, zlen in Hn; lia). destruct (lookup_lt_is_Some_2 _ _ Hbl) as [blk Eblk].
  pose proof Hst as (Hlen & _ & Hloc). rewrite old_extent in Hloc. destruct Hloc as (Hcm & _).
  assert (content ≠ []) as Hne by (intros ->; unfold blocks_of in Hbl; rewrite length_fmap, chunks_nil in Hbl; simpl in Hbl; lia).
  specialize (Hcm Hne). pose proof (stored_genuine i i_ok _ _ _ _ g_ok old_valid a_whole Hst) as Hgen.
  destruct (object_places g old content start pad tree rt g_ok old_valid old_extent Hlen) as (P1 & P2 & P3 & P4 & P5 & P6).
  destruct (blocks_of_spec a content ltac:(lia)) as [Hu _]. pose proof (zlen_concat_uniform _ a Hu) as Lc. rewrite P4 in Lc. fold nb in Lc.
  assert (whole z start) as Ws by (apply (whole_mod i i_ok _ a); [done|lia|done]).
  destruct (proof_new_Ok _ g old b start pad tree rt g_ok old_valid Hcm Hbl old_extent) as (f & Hf & Ef & Hlev & Hnew).
  rewrite Hnew. eapply spec_Ok; [reflexivity|]. eapply spec_bind.
  { apply qspec_spec, (walk_nodes_spec i i_ok g old content start pad tree rt (disk s) True g_ok old_valid old_extent Hlen
      (genuine_faithful i _ _ _ _ Hgen) ltac:(done) a_whole g_device _ b _ (length tree)); try done.
    - intros off s1 I1 Ho Wo Hc. eapply spec_bind; [apply (spec_rread i i_ok); [done..|lia|done|done]| |done].
      intros bs s2 I2 [Eb D2]. apply spec_obtain; [intros s3 I3 D3 _|by intros s3 D3; split; [congruence|]..]. apply spec_ret. split; [done|congruence].
    - by rewrite length_fmap.
    - cbn [steps]. rewrite length_steps_from. lia.
    - assert (Z.to_nat (a / 32) = f) as -> by (rewrite Ef, Z.mul_comm, Z.div_mul by done; lia). done. }
  2:{ intros e s1 [[O|[_ U]] D1]; [|done]. rewrite D1. split; [done|apply touches_refl]. }
  intros p s1 I1 [[Hp Hnx] D1]. assert (Z.of_nat b * a + a ≤ nb * a) as Hba by (unfold nb, zlen in *; nia).
  rewrite !(page_address i i_ok a ltac:(lia)) by (done || nia).
  eapply spec_bind; [apply (spec_rread i i_ok); [congruence|nia|by apply page_whole|done|lia|nia|done]|..].
  2:{ intros e s2 [D2 O]. rewrite D2, D1. split; [done|apply touches_refl]. }
  intros bs s2 I2 [Eb D2]. rewrite D1 in Eb, D2. rewrite (Hgen _ blk) in Eb; [|unfold places; rewrite old_extent; left; by exists b]. subst bs.
  apply spec_obtain; [intros s3 I3 D3 _|by intros s3 D3; rewrite D3, D2; split; [|apply touches_refl]..].
  assert (zlen blk = a) as Lb by (rewrite Forall_forall in Hu; apply Hu; by apply list_elem_of_lookup; exists b).
  eapply spec_Ok.
  { apply (verify_level (Z.to_nat (a / 32)) a) with (ds := blake3 <$> blocks_of a content) (tree := tree) (b := b); try done; [|lia|].
    - rewrite Z2Nat.id by (apply Z.div_pos; lia). rewrite Ef, Z.mul_comm, Z.div_mul by done. lia.
    - split; [done|]. rewrite list_lookup_fmap, Eblk. done. }
  assert (disk s3 = disk s) as E3 by congruence. rewrite <- E3 in *.
  eapply spec_bind; [apply (spec_rwrite i i_ok); rewrite ?Lb; try done; [congruence|nia|by apply page_whole|nia]|..].
  2:{ intros e s4 [O [T _]]. rewrite Lb in T. split; [done|]. eapply touches_wider; [exact T|lia|nia]. }
  intros _ s4 I4 [W4 S4]. pose proof W4 as [T4 _]. rewrite Lb in T4.
  assert (drop b (blocks_of a content) = blk :: drop (S b) (blocks_of a content)) as Ed by (by apply drop_S).
  assert (zlen (drop (S b) (blocks_of a content)) = nb - Z.of_nat b - 1) as Ld by (unfold nb, zlen; rewrite length_drop; unfold zlen in *; lia).
  rewrite Nat2Z.id, Ed. replace (dst + nb * a) with (dst + Z.of_nat b * a + a + zlen (drop (S b) (blocks_of a content)) * a) by (rewrite Ld; lia).
  eapply spec_mono; [apply (IH (Z.of_nat b + 1) s4); [congruence| |lia|lia]|..];
    replace (Z.to_nat (Z.of_nat b + 1)) with (S b) by lia;
    replace (dst + nb * a) with (dst + Z.of_nat b * a + a + zlen (drop (S b) (blocks_of a content)) * a) by (rewrite Ld; lia);
    replace (dst + (Z.of_nat b + 1) * a) with (dst + Z.of_nat b * a + a) by lia.
  - eapply stored_outside; [|exact T4|done]. nia.
  - intros _ s5 [T5 S5].
    destruct (page_then i i_ok a ltac:(lia) a_whole (dst + Z.of_nat b * a) blk _ _ _ _ ltac:(nia) ltac:(by apply page_whole) Lb W4 S4 T5) as [T S]. auto.
  - intros e s5 [O T5]. split; [done|].
    by destruct (page_then i i_ok a ltac:(lia) a_whole (dst + Z.of_nat b * a) blk _ _ _ _ ltac:(nia) ltac:(by apply page_whole) Lb W4 S4 T5) as [T _].
Qed.

End object.

(** ** Its commit *)

(** The levels of two trees over as many blocks. *)
Lemma same_levels f a cp cp' end_ end' count tree tree' :
  (16 ≤ f)%nat → a = 32 * Z.of_nat f → 0 ≤ end_ → 0 ≤ end' → 0 ≤ count → end_ mod a = 0 → end' mod a = 0 →
  check_levels a cp end_ count tree = Ok 1 → check_levels a cp' end' count tree' = Ok 1 → (tree = [] ↔ tree' = []) →
  lv_nodes <$> tree = lv_nodes <$> tree'.
Proof.
  intros Hf Ha. revert end_ end' count tree'. induction tree as [|l tree IH]; intros end_ end' count [|l' tree'] He He' Hc Hm Hm' E E' Hn; try naive_solver.
  apply (check_levels_cons f a cp Hf Ha) in E as (En & _ & _ & _ & H1 & E); [|done..].
  apply (check_levels_cons f a cp' Hf Ha) in E' as (En' & _ & _ & _ & H1' & E'); [|done..]. rewrite <- En in En'. rewrite En' in *.
  assert (0 ≤ lv_nodes l) by (rewrite En; apply div_ceil_nonneg; lia).
  rewrite !fmap_cons. f_equal; [congruence|]. apply (IH (end_ + lv_nodes l * a) (end' + lv_nodes l * a) (lv_nodes l) tree'); try done; try nia; try (by rewrite Z.mod_add by lia).
  destruct (decide (lv_nodes l = 1)) as [E1|E1]; [by rewrite (H1 E1), (H1' E1)|].
  destruct tree, tree'; [done|injection E; intros; lia|injection E'; intros; lia|by split].
Qed.

Lemma tree_bytes_length t : zlen (tree_bytes t) = 16 * zlen t.
Proof. induction t as [|l t IH]; [done|]. rewrite zlen_cons. unfold tree_bytes in *. cbn [flat_map]. rewrite !zlen_app, !zlen_le_enc, IH. lia. Qed.

Section commit.
Context {BL : Blake3}.
Variable i : Info.
Hypothesis i_ok : info_ok i.
Abbreviation z := (StoreCrash.z i).

(** A commit moved takes the bytes it took. *)
Lemma moved_size s s' md h off off' pad pad' t t' r e :
  length t = length t' → encode (FCommit (mk_Commit s md h (Extent off pad t r))) = Ok e →
  ∃ e', encode (FCommit (mk_Commit s' md h (Extent off' pad' t' r))) = Ok e' ∧ zlen e' = zlen e.
Proof.
  intros Hl ((V1 & V2 & V3 & V4 & V5 & V6) & Hm & ->)%encode_Ok. simpl in V1, V2, V3, V4, V5, V6.
  assert (zlen (payload_of (FCommit (mk_Commit s' md h (Extent off' pad' t' r)))) =
          zlen (payload_of (FCommit (mk_Commit s md h (Extent off pad t r))))) as E.
  { unfold payload_of, frame_body, commit_bytes, location_bytes, location_body.
    cbn [metadata content_hash location sequence frame_tag location_tag]. rewrite !zlen_app, !zlen_le_enc, !tree_bytes_length.
    assert (zlen t = zlen t') as -> by (unfold zlen; lia). lia. }
  eexists. split; [apply encode_Ok; split; [|split; [rewrite E; exact Hm|reflexivity]]|by rewrite !zlen_frame_bytes, E].
  assert (zlen t = zlen t') as El by (unfold zlen; lia). refine (conj V1 (conj V2 (conj V3 (conj V4 (conj V5 _))))). cbn [location location_valid]. lia.
Qed.

Lemma bank_flushed d g j m : banked i d g j m → banked i (flushed d) g j m.
Proof. intros B. apply (bank_touches i i_ok d _ g j m (data j) (data j) B); [by left|apply touches_flushed]. Qed.

Lemma copy_commit_spec room g j m c content e s :
  info s = i → banked i (disk s) g j m → capacity g ≤ cap i → cell j ≤ room → commit_ok c → validate_commit c j = Ok tt →
  encode (FCommit c) = Ok e → zlen e ≤ cell j → stored_by (seen z (disk s)) g c content →
  spec (copy_commit room c j) s
    (λ j' s', j' = advance c j ∧ touches z (log_offset g) (data_offset g) (disk s) (disk s') ∧
       banked i (disk s') g (advance c j) (store_insert (key (object (metadata c))) (metadata c, content) m))
    (λ x s', outside x ∧ touches z (log_offset g) (data_offset g) (disk s) (disk s')).
Proof.
  intros Hi B Hcap Hroom C Vc Ee Le Hst. pose proof (z_pos i i_ok) as Hz. destruct (bank_journal _ _ _ _ _ B) as [J G].
  pose proof (bk_align _ _ _ _ _ B) as Wa. pose proof Wa as Wa'. rewrite <- G in Wa'. destruct (log_whole i i_ok j J Wa') as (Wc & _ & Wl & Hlo).
  destruct (jo_cell_range j J) as [Hcr _]. destruct (receipt_encodes (log j) (blake3 e) (blake3_len e)) as [rc Er].
  pose proof (receipt_size _ _ _ (blake3_len e) Er) as Lr. pose proof (proj1 (validate_commit_Ok c j) Vc) as (Hhc & _ & Vi & _).
  apply (has_capacity_spec j J) in Hhc. pose proof (jo_geometry j J) as GG. pose proof (go_capacity _ GG). pose proof (go_data _ GG).
  pose proof (jo_typed j J) as (_ & _ & [W0 _] & _). pose proof (jo_data j J). rewrite G in *.
  assert (zlen (padded (cell j) e) = cell j) as Le1 by (by apply zlen_padded).
  assert (zlen (padded (cell j) rc) = cell j) as Lr1 by (apply zlen_padded; lia).
  assert (∀ lo hi d d', touches z lo hi d d' → log j ≤ lo → hi ≤ log j + 2 * cell j → touches z (log_offset g) (data_offset g) d d') as Wide.
  { intros lo hi d d' T X1 X2. eapply touches_wider; [exact T|lia|lia]. }
  unfold copy_commit. eapply spec_Ok; [exact Vc|]. eapply spec_Ok; [exact Ee|]. eapply spec_Ok; [exact Er|].
  rewrite (proj2 (Z.ltb_ge (cell j) (zlen e)) Le), (proj2 (Z.ltb_ge (cell j) (zlen rc))) by lia. cbn [orb].
  apply spec_obtain; [intros s1 I1 D1 _|by intros s1 D1; rewrite D1; split; [|apply touches_refl]..].
  apply spec_obtain; [intros s2 I2 D2 _|by intros s2 D2; rewrite D2, D1; split; [|apply touches_refl]..].
  assert (disk s2 = disk s) as E2 by congruence. rewrite <- E2 in *.
  eapply spec_bind; [apply spec_rflush| |by intros x s3 [-> O]; split; [|apply touches_refl]]. intros [] s3 I3 D3.
  set (d0 := disk s3) in *. pose proof (bank_flushed _ _ _ _ B) as B0. rewrite <- D3 in B0.
  assert (stored i d0 g c content) as St0 by (rewrite D3; revert Hst; apply stored_mono; intros off bs; apply seen_flushed).
  assert (∀ d', touches z (log_offset g) (data_offset g) d0 d' → touches z (log_offset g) (data_offset g) (disk s2) d') as From0.
  { intros d' T. eapply touches_trans; [|exact T]. rewrite D3. apply touches_flushed. }
  eapply spec_bind; [apply (spec_rwrite i i_ok); rewrite ?Le1; try done; [congruence|lia|lia]| |].
  2:{ intros x s4 [O [T _]]. rewrite Le1 in T. split; [done|]. apply From0. eapply Wide; [exact T|lia|lia]. }
  intros _ s4 I4 [[T4 _] S4]. rewrite Le1 in T4. fold d0 in T4.
  eapply spec_bind; [apply spec_rflush| |].
  2:{ intros x s5 [-> O]. split; [done|]. apply From0. eapply Wide; [exact T4|lia|lia]. }
  intros [] s5 I5 D5. assert (holds z (disk s5) (log j) (padded (cell j) e)) as H5 by (rewrite D5; by apply seen_flushed).
  assert (touches z (log j) (log j + 2 * cell j) d0 (disk s5)) as T5.
  { rewrite D5. eapply touches_trans; [eapply touches_wider; [exact T4|lia|lia]|apply touches_flushed]. }
  assert (log j +! cell j = log j + cell j) as -> by (unfold wadd; apply wrap_small; unfold in_width; lia).
  eapply spec_bind; [apply (spec_rwrite i i_ok); rewrite ?Lr1; try done; [congruence|lia|by apply whole_add|lia]| |].
  2:{ intros x s6 [O [T _]]. rewrite Lr1 in T. split; [done|]. apply From0. eapply Wide; [|reflexivity|reflexivity].
      eapply touches_trans; [exact T5|]. eapply touches_wider; [exact T|lia|lia]. }
  intros _ s6 I6 [[T6 _] S6]. rewrite Lr1 in T6.
  eapply spec_bind; [apply spec_rflush| |].
  2:{ intros x s7 [-> O]. split; [done|]. apply From0. eapply Wide; [|reflexivity|reflexivity].
      eapply touches_trans; [exact T5|]. eapply touches_wider; [exact T6|lia|lia]. }
  intros [] s7 I7 D7. assert (touches z (log j) (log j + 2 * cell j) d0 (disk s7)) as T7.
  { rewrite D7. eapply touches_trans; [exact T5|]. eapply touches_trans; [eapply touches_wider; [exact T6|lia|lia]|apply touches_flushed]. }
  assert (touches z (log_offset g) (data_offset g) (disk s2) (disk s7)) as T by (apply From0; eapply Wide; [exact T7|lia|lia]).
  apply spec_obtain; [intros s8 I8 D8 _|by intros s8 D8; rewrite D8..].
  apply spec_obtain; [intros s9 I9 D9 _|by intros s9 D9; rewrite D9, D8..].
  eapply spec_Ok; [by apply replay_pair|]. cbv iota beta. apply spec_ret. split; [done|]. rewrite D9, D8. split; [done|].
  apply (advance_bank i i_ok d0 _ g j m c content e rc); try done.
  - eapply keeps_touches; [done|done|exact T7|by left].
  - eapply keeps_touches; [done|lia|exact T7|by right].
  - rewrite D7. eapply holds_touches; [done|eapply touches_trans; [exact T6|apply touches_flushed]|done|lia|done|by rewrite Le1|rewrite Le1; lia].
  - rewrite D7. by apply seen_flushed.
  - eapply (stored_keeps i i_ok d0); [apply B0|done|done|reflexivity| |done]. eapply keeps_touches; [done|lia|exact T7|right; lia].
Qed.

End commit.

(** ** The whole of it *)

Lemma spec_assoc {A B C} (f : D A) (g : A → D B) (k : B → D C) s P F : spec ((f ≫= g) ≫= k) s P F → spec (f ≫= λ x, g x ≫= k) s P F.
Proof. unfold spec, wp, mbind, M_bind. by destruct (f s) as [[a|e] s1]. Qed.

Section move.
Context {BL : Blake3}.
Variable i : Info.
Hypothesis i_ok : info_ok i.
Variables (room : Z) (g g' : Superblock).
Abbreviation z := (StoreCrash.z i).
Abbreviation a := (alignment g).
Hypothesis g_ok : superblock_ok g.
Hypothesis a_max : a ≤ max_bytes i.
Hypothesis a_whole : whole z a.
Hypothesis a_room : a ≤ room.
Hypothesis g_device : capacity g ≤ cap i.
Hypothesis g'_device : capacity g' ≤ cap i.
Hypothesis g'_align : alignment g' = a.
Hypothesis apart : capacity g ≤ log_offset g' ∨ capacity g' ≤ log_offset g.

(** What the copy of [old] is committed as. *)
Definition moved (old : Commit) (j : Journal) (loc : Location) : Commit :=
  mk_Commit (log j) (metadata old) (content_hash old)
    match location old, loc with
    | Extent _ _ _ rt, Extent off pad tree _ => Extent off pad tree rt
    | _, _ => loc
    end.

Lemma moved_commit_ok old j loc start pad tree rt e :
  journal_ok j → geometry j = g' → commit_ok old → validate_in old g = Ok tt → location old = Extent start pad tree rt →
  encode (FCommit old) = Ok e → zlen e ≤ cell j → plan (object (metadata old)) Absent (bytes (metadata old)) j = Ok (Some loc) →
  ∃ tree' rt', loc = Extent (data j) pad tree' rt' ∧ lv_nodes <$> tree = lv_nodes <$> tree' ∧
    location (moved old j loc) = Extent (data j) pad tree' rt ∧
    extent_ok g' (metadata old) (data j) pad tree' rt ∧ commit_ok (moved old j loc) ∧ validate_commit (moved old j loc) j = Ok tt ∧
    ∃ e', encode (FCommit (moved old j loc)) = Ok e' ∧ zlen e' ≤ cell j.
Proof.
  intros J Gj C V El Ee Le Hpl. destruct (plan_Ok _ _ _ _ _ Hpl) as (_ & Hob & Hcap & Hext). destruct (journal_object_Ok _ _ Hob) as (O1 & O2 & O3 & O4).
  destruct (validate_in_extent _ _ _ _ _ _ V El) as (G & _ & Vv & _ & X). pose proof C as (_ & (M1 & M2 & Mb) & Ch & Cl). rewrite El in Cl.
  pose proof (jo_typed j J) as W. pose proof (jo_data j J) as Hd. rewrite Gj in *.
  assert (u64 (data j)) as Ud by (destruct W as ([_ ?] & _ & _ & _ & [? _] & _); unfold in_width in *; lia).
  destruct (extent_Ok g' (data j) _ loc W Ud Mb Hext) as (pad' & tree' & rt' & -> & G' & _ & _ & Hall).
  assert (bytes (metadata old) = 0 → rt = blake3 []) as H0 by (intros E0; apply (xo_empty _ _ _ _ _ _ X E0)).
  destruct (Hall (metadata old) rt eq_refl H0) as [X' Hvi].
  assert (pad' = pad) as -> by (rewrite (xo_padded _ _ _ _ _ _ X'), (xo_padded _ _ _ _ _ _ X); by rewrite g'_align).
  assert (lv_nodes <$> tree = lv_nodes <$> tree') as Hlv.
  { destruct (decide (bytes (metadata old) = 0)) as [E0|E0].
    - destruct (xo_empty _ _ _ _ _ _ X E0) as [-> _], (xo_empty _ _ _ _ _ _ X' E0) as [-> _]. done.
    - destruct (xo_tree _ _ _ _ _ _ X E0) as [N1 E1], (xo_tree _ _ _ _ _ _ X' E0) as [N2 E2]. rewrite g'_align in E2.
      destruct (go_align g G) as (f & Hf & Ha). pose proof (xo_data _ _ _ _ _ _ X). pose proof (xo_padded _ _ _ _ _ _ X) as Hp.
      destruct g_ok as (_ & _ & _ & _ & [? _] & _). pose proof (div_ceil_nonneg (bytes (metadata old)) a ltac:(lia) ltac:(apply Mb)).
      assert (0 ≤ pad) by nia. destruct Ud as [Ud _].
      eapply (same_levels f a _ _ (start + pad) (data j + pad)); [done|done|lia|lia| | | |exact E1|exact E2|naive_solver]; [done|..].
      + rewrite Hp, Z.mod_add by lia. apply X.
      + rewrite Hp, Z.mod_add by lia. rewrite <- g'_align. apply X'. }
  assert (length tree = length tree') as Hl by (rewrite <- (length_fmap lv_nodes tree), Hlv; apply length_fmap).
  exists tree', rt'. unfold moved. rewrite El. cbn [location]. split_and!; try done.
  - refine (conj _ (conj (conj M1 (conj M2 Mb)) (conj Ch _))).
    + pose proof (jo_log_end j J). destruct (jo_log j J) as [k Hk]. destruct (jo_cell_range j J) as [? _]. rewrite Gj in *.
      destruct W as (_ & _ & L1 & _ & L2 & _). unfold in_width in *. simpl. nia.
    + split_and!; [done|apply Cl|by eapply tree_levels_ok; [done| |apply Mb|exact X']|apply Cl].
  - apply validate_commit_Ok. rewrite Gj. split_and!; try done; [by apply Hvi|by exists pad, tree', rt].
  - destruct old as [sq md h lc]. simpl in *. rewrite El in Ee. destruct (moved_size sq (log j) md h start (data j) pad pad tree tree' rt e Hl Ee) as (e' & He' & Le').
    exists e'. split; [done|lia].
Qed.

Section object.
Variables (j : Journal) (old : Commit) (content : list byte) (start pad : Z) (tree tree' : list TreeLevel) (rt : list byte).
Hypothesis j_ok : journal_ok j.
Hypothesis j_bank : geometry j = g'.
Hypothesis old_typed : commit_ok old.
Hypothesis old_valid : validate_in old g = Ok tt.
Hypothesis old_extent : location old = Extent start pad tree rt.
Hypothesis new_extent : extent_ok g' (metadata old) (data j) pad tree' rt.
Hypothesis same_nodes : lv_nodes <$> tree = lv_nodes <$> tree'.

Abbreviation ds := (blake3 <$> blocks_of a content).
Abbreviation f := (Z.to_nat (a / 32)).
Abbreviation end' := (tree_end a (data j + pad) tree').

Lemma same_length : length tree = length tree'.
Proof. rewrite <- (length_fmap lv_nodes tree), same_nodes. apply length_fmap. Qed.

(** Where the copy goes. *)
Lemma copy_places : (16 ≤ f)%nat ∧ a = 32 * Z.of_nat f ∧ 0 ≤ pad ∧ pad mod a = 0 ∧ 0 ≤ log_offset g' ∧ log_offset g' ≤ data_offset g' ≤ data j ∧
  whole z (data j) ∧ data j mod a = 0 ∧ 0 ≤ data_offset g ∧ log_offset g ≤ data_offset g ∧ data j + pad ≤ end' ≤ capacity g' ∧ data_offset g' ≤ capacity g'.
Proof.
  destruct (object_end g old start pad tree rt g_ok old_valid old_extent old_typed) as (_ & Hdo & Ha).
  destruct (validate_in_extent _ _ _ _ _ _ old_valid old_extent) as (G & _ & _ & _ & X). pose proof (go_data _ G) as [Hgo _]. destruct g_ok as (_ & _ & _ & [Wgb _] & _).
  pose proof (jo_geometry j j_ok) as GG. pose proof (go_data _ GG) as [Hgd _]. pose proof (jo_data j j_ok) as Hd. pose proof (jo_typed j j_ok) as W'. pose proof W' as (_ & _ & [Wl _] & [Wb _] & _).
  rewrite j_bank in *. destruct (go_align _ GG) as (f' & Hf & Ef). rewrite g'_align in Ef.
  assert (f = f') as Ef' by (rewrite Ef, Z.mul_comm, Z.div_mul by done; lia). rewrite Ef'.
  pose proof (xo_padded _ _ _ _ _ _ X) as Hp. pose proof (div_ceil_nonneg (bytes (metadata old)) a ltac:(lia) ltac:(apply old_typed)).
  destruct (extent_end_Ok g' (metadata old) (data j) pad tree' rt j W' GG ltac:(apply old_typed) new_extent j_bank) as (_ & Q1 & Q2 & _).
  pose proof (xo_aligned _ _ _ _ _ _ new_extent) as Hal. rewrite g'_align in *. split_and!; try lia; try nia.
  - rewrite Hp. apply Z.mod_mul. lia.
  - by apply (whole_mod i i_ok _ a); [done|lia|].
Qed.

Lemma copy_tree_spec s :
  info s = i → stored i (disk s) g old content →
  spec (copy_levels room a (zip tree tree')) s
    (λ _ s', touches z (data j + pad) end' (disk s) (disk s') ∧
       ∀ k l', tree' !! k = Some l' → seen z (disk s') (lv_offset l') (concat (level_pages f (digests f ds k))))
    (λ x s', outside x ∧ touches z (data j + pad) end' (disk s) (disk s')).
Proof.
  intros Hi (Hlen & _ & Hloc). rewrite old_extent in Hloc. destruct Hloc as (_ & _ & Hlev).
  destruct copy_places as (Hf & Ef & Hp & Hpm & Hl0 & Hl1 & Wd & Hdm & Hg0 & Hg1 & He & Hgc).
  destruct (object_places g old content start pad tree rt g_ok old_valid old_extent Hlen) as (P1 & P2 & P3 & P4 & P5 & P6).
  destruct (decide (bytes (metadata old) = 0)) as [E0|E0].
  - destruct (xo_empty _ _ _ _ _ _ new_extent E0) as [Et _]. pose proof same_length as Hl. rewrite Et in *.
    destruct tree; [|done]. apply spec_ret. split; [apply touches_refl|]. by intros k l' ?.
  - destruct (xo_tree _ _ _ _ _ _ new_extent E0) as [_ Hck]. rewrite g'_align in Hck.
    pose proof (div_ceil_nonneg (bytes (metadata old)) a ltac:(lia) ltac:(apply old_typed)) as Hdn.
    eapply (copy_levels_spec i i_ok room a ltac:(lia) a_whole a_room f (capacity g') (λ k, level_pages f (digests f ds k)) (data j + pad) _ tree tree' 1 s Hf Ef);
      try done; [lia|by rewrite Z.add_mod, Hdm, Hpm by lia|lia| |apply same_length].
    intros k l l' Hk Hk'. destruct (P6 k l Hk) as (Q1 & Q2 & Q3 & Q4).
    assert ((lv_nodes <$> tree) !! k = (lv_nodes <$> tree') !! k) as E by (by rewrite same_nodes). rewrite !list_lookup_fmap, Hk, Hk' in E. injection E as E.
    assert (0 ≤ lv_nodes l) by (rewrite <- Q1; apply zlen_nonneg).
    split_and!; try done; try lia; [|by apply Hlev|by apply (whole_mod i i_ok _ a); [done|lia|]].
    eapply Forall_impl; [apply level_pages_uniform; [done|apply digests_ok, blake3_digests]|]. intros x. simpl. lia.
Qed.

(** The object's bytes and tree, copied. *)
Lemma copy_content_spec s :
  info s = i → stored i (disk s) g old content →
  spec (_ ← copy_blocks room a g old start (data j) 0 (Z.to_nat (pad / a)); copy_levels room a (zip tree tree')) s
    (λ _ s', touches z (data j) end' (disk s) (disk s') ∧
       ∀ c, metadata c = metadata old → content_hash c = content_hash old → location c = Extent (data j) pad tree' rt →
         stored_by (seen z (disk s')) g' c content)
    (λ x s', outside x ∧ touches z (data j) end' (disk s) (disk s')).
Proof.
  intros Hi Hst. destruct copy_places as (Hf & Ef & Hp & Hpm & Hl0 & Hl1 & Wd & Hdm & Hg0 & Hg1 & He & Hgc). pose proof (z_pos i i_ok) as Hz.
  pose proof Hst as (Hlen & Hh & Hloc). rewrite old_extent in Hloc. destruct Hloc as (Hcm & _ & _).
  destruct (object_places g old content start pad tree rt g_ok old_valid old_extent Hlen) as (P1 & P2 & P3 & P4 & P5 & P6).
  destruct (blocks_of_spec a content ltac:(lia)) as [Hu _]. pose proof (zlen_concat_uniform _ a Hu) as Lc. rewrite P4 in Lc.
  pose proof (zlen_nonneg (blocks_of a content)) as Hnn. rewrite Lc at 1. rewrite Z.div_mul by lia.
  pose proof (copy_blocks_spec i i_ok room g old content start pad tree rt a_max a_whole a_room g_ok g_device old_valid old_extent old_typed
    (data j) (Z.to_nat (zlen (blocks_of a content))) 0 s Hi Hst ltac:(lia)) as Hblk.
  rewrite Z.mul_0_l, Z.add_0_r, <- Lc, drop_0 in Hblk. eapply spec_bind; [apply Hblk; try done; lia|..].
  2:{ intros x s1 [O T]. split; [done|]. eapply touches_wider; [exact T|lia|lia]. }
  intros _ s1 I1 [T1 S1]. assert (stored i (disk s1) g old content) as St1.
  { eapply (stored_outside i i_ok g old content start pad tree rt a_whole g_ok old_valid old_extent old_typed); [|exact T1|done]. lia. }
  eapply spec_mono; [apply copy_tree_spec; [congruence|done]|..].
  - intros _ s2 [T2 S2]. split.
    { eapply touches_trans; [eapply touches_wider; [exact T1|lia|lia]|]. eapply touches_wider; [exact T2|lia|lia]. }
    intros c Em Eh El. split; [by rewrite Em|]. split; [by rewrite Eh|]. rewrite El, g'_align. split_and!.
    + intros Hne. destruct (Hcm Hne) as (Q1 & Q2 & Q3). rewrite old_extent in Q3. split; [by rewrite g'_align, Em|]. split; [by rewrite g'_align|].
      rewrite El, g'_align, <- same_length. exact Q3.
    + eapply seen_touches; [done|exact T2|done|lia|done|rewrite P4; by apply (whole_mod i i_ok _ a); [done|lia|]|rewrite P4; left; lia].
    + exact S2.
  - intros x s2 [O T2]. split; [done|].
    eapply touches_trans; [eapply touches_wider; [exact T1|lia|lia]|]. eapply touches_wider; [exact T2|lia|lia].
Qed.

End object.

Lemma copy_object_spec j m old content loc start pad tree rt e s :
  info s = i → banked i (disk s) g' j m → cell j ≤ room →
  commit_ok old → validate_in old g = Ok tt → location old = Extent start pad tree rt → stored i (disk s) g old content →
  encode (FCommit old) = Ok e → zlen e ≤ cell j → plan (object (metadata old)) Absent (bytes (metadata old)) j = Ok (Some loc) →
  spec (copy_object room a g old j) s
    (λ j' s', j' = advance (moved old j loc) j ∧ touches z (log_offset g') (capacity g') (disk s) (disk s') ∧
       banked i (disk s') g' j' (store_insert (key (object (metadata old))) (metadata old, content) m))
    (λ x s', outside x ∧ touches z (log_offset g') (capacity g') (disk s) (disk s')).
Proof.
  intros Hi B Hroom C V El Hst Ee Le Hpl. destruct (bank_journal _ _ _ _ _ B) as [J Gj].
  destruct (moved_commit_ok old j loc start pad tree rt e J Gj C V El Ee Le Hpl) as (tree' & rt' & -> & Hlv & Hloc & X & C' & V' & e' & Ee' & Le').
  destruct (copy_places j old start pad tree tree' rt J Gj C V El X) as (_ & _ & Hp & _ & Hl0 & Hl1 & _ & _ & _ & _ & He & Hgc).
  pose proof (copy_content_spec j old content start pad tree tree' rt J Gj C V El X Hlv s Hi Hst) as Hc.
  unfold copy_object. rewrite Hpl. eapply spec_Ok; [reflexivity|].
  change (lift (ok_or (Some ?x) ?e) ≫= ?k) with (k x). cbv beta. rewrite El.
  rewrite <- (same_length tree tree' Hlv), Nat.eqb_refl. cbn [negb].
  apply spec_assoc. eapply spec_bind; [exact Hc|..].
  2:{ intros x s1 [O T]. split; [done|]. eapply touches_wider; [exact T|lia|lia]. }
  intros _ s1 I1 [T1 St]. assert (banked i (disk s1) g' j m) as B1 by (eapply (bank_touches i i_ok (disk s)); [exact B|left; reflexivity|exact T1]).
  assert (mk_Commit (log j) (metadata old) (content_hash old) (Extent (data j) pad tree' rt) = moved old j (Extent (data j) pad tree' rt')) as ->.
  { unfold moved. by rewrite El. }
  set (c := moved old j (Extent (data j) pad tree' rt')) in *.
  eapply spec_mono; [apply (copy_commit_spec i i_ok room g' j m c content e' s1); try done; [congruence|by apply St]|..].
  - intros j' s2 (-> & T2 & B2). split; [done|]. split; [|done].
    eapply touches_trans; [eapply touches_wider; [exact T1|lia|lia]|]. eapply touches_wider; [exact T2|lia|lia].
  - intros x s2 [O T2]. split; [done|]. eapply touches_trans; [eapply touches_wider; [exact T1|lia|lia]|]. eapply touches_wider; [exact T2|lia|lia].
Qed.

End move.
