(* ===== verification/StoreRoom.v ===== *)
(** * The room a compaction needs

    The objects a journal has now, one after the other, take no more of a bank than the journal
    has used; so they always fit the other bank, and their pairs its log. *)

From S2P Require Import Prelude StoreFormat StoreCodec StoreTree StoreProof StoreJournal StoreBanks StoreDisk StoreCrash StoreLog StoreRoot StoreVolume StoreState StoreMount StorePut StoreRead StoreFresh StoreList StoreReserved StoreCopy.

(** ** What a commit takes *)

(** The bytes from an extent's start to the end of its tree. *)
Definition extent_size (a : Z) (c : Commit) : Z :=
  match location c with Extent off _ _ _ => location_end a (location c) - off | File _ => 0 end.

Fixpoint total (a : Z) (cs : list Commit) : Z :=
  match cs with [] => 0 | c :: cs => extent_size a c + total a cs end.

Lemma total_nonneg a cs : (∀ c, c ∈ cs → 0 ≤ extent_size a c) → 0 ≤ total a cs.
Proof.
  induction cs as [|c cs IH]; simpl; intros H; [done|].
  assert (0 ≤ extent_size a c) by (apply H; left). assert (0 ≤ total a cs) by (apply IH; intros x Hx; apply H; by right). lia.
Qed.

Lemma total_insert a k c (m : list (list byte * Commit)) :
  (∀ x, x ∈ m.*2 → 0 ≤ extent_size a x) → 
  total a (smap_insert k c m).*2 ≤ total a m.*2 + extent_size a c ∧ zlen (smap_insert k c m) ≤ zlen m + 1.
Proof.
  induction m as [|[k1 c1] m IH]; intros H; [unfold zlen; simpl; lia|]. cbn [smap_insert]. rewrite fmap_cons in *. cbn [snd total] in *.
  destruct IH as [I1 I2]; [intros x Hx; apply H; by right|]. assert (0 ≤ extent_size a c1) by (apply H; left).
  destruct (bytes_cmp k k1); rewrite ?fmap_cons, ?zlen_cons; cbn [total snd]; lia.
Qed.

Section room.
Context {BL : Blake3}.

(** Every object's commit fits a cell of the log. *)
Definition fits_cell (n : Z) (c : Commit) : Prop := ∃ e, encode (FCommit c) = Ok e ∧ zlen e ≤ n.

(** What a journal has used, and that it covers what it has now. *)
Record compactable (j : Journal) : Prop := {
  cp_data : total (alignment (geometry j)) (entries j).*2 ≤ data j - data_offset (geometry j);
  cp_pairs : 2 * cell j * zlen (entries j) ≤ log j - log_offset (geometry j);
  cp_fits : ∀ c, c ∈ (entries j).*2 → fits_cell (cell j) c;
  cp_sorted : sorted (entries j).*1;
}.

Lemma entry_size j c : journal_ok j → c ∈ (entries j).*2 → 0 ≤ extent_size (alignment (geometry j)) c.
Proof.
  intros J ([k x] & -> & Hin)%list_elem_of_fmap. destruct (jo_entries j J k x Hin) as (_ & C & V & (off & pad & tree & rt & El) & _).
  destruct (validate_in_extent _ _ _ _ _ _ V El) as (G & _ & _ & _ & X).
  destruct (extent_end_Ok _ _ _ _ _ _ j (jo_typed j J) G ltac:(apply C) X eq_refl) as (_ & ? & _). unfold extent_size. simpl. rewrite El. simpl. lia.
Qed.

Lemma advance_compactable c j e :
  journal_ok j → commit_ok c → validate_commit c j = Ok tt → encode (FCommit c) = Ok e → zlen e ≤ cell j →
  compactable j → compactable (advance c j).
Proof.
  intros J C V Ee Le [H1 H2 H3 H4]. destruct (commit_end c j J C V) as (_ & Hd & _).
  pose proof (proj1 (validate_commit_Ok c j) V) as (_ & _ & _ & pad & tree & rt & El). destruct (jo_cell_range j J) as [Hc _].
  destruct (total_insert (alignment (geometry j)) (key (object (metadata c))) c (entries j)) as [T1 T2]; [intros x Hx; by apply entry_size|].
  assert (extent_size (alignment (geometry j)) c = location_end (alignment (geometry j)) (location c) - data j) as Es by (unfold extent_size; by rewrite El).
  split; simpl.
  - lia.
  - nia.
  - intros x ([k y] & -> & [[= -> ->]|Hin]%smap_insert_elem)%list_elem_of_fmap; [by exists e|].
    apply H3, list_elem_of_fmap. by exists (k, y).
  - by apply smap_insert_sorted.
Qed.

Lemma chain_compactable i d j0 j : chain i d j0 j → journal_ok j0 → compactable j0 → compactable j.
Proof.
  induction 1 as [j|j0 rec rcp j1 j2 Hc L1 L2 H1 H2 R C IH]; intros J K; [done|].
  destruct (replay_commit _ _ _ _ J R) as (c & Cc & V & -> & e & Ee & Le).
  apply IH; [by apply advance_ok|by apply (advance_compactable c j0 e)].
Qed.

Lemma vol_compactable i d r old j m : vol i d r old j m → compactable j.
Proof.
  intros V. destruct (vo_log _ _ _ _ _ _ V) as (j0 & E & C). destruct (vo_root _ _ _ _ _ _ V) as (_ & _ & W & _).
  destruct (journal_new_Ok _ _ W E) as (J & G & En & El & Ed). apply (chain_compactable i d j0 j C J).
  split; rewrite ?En, ?El, ?Ed, ?G; simpl; rewrite ?zlen_nil; try lia; [by intros c ?%not_elem_of_nil|constructor].
Qed.

(** ** An extent planned elsewhere *)

Lemma plan_levels_moves f a cp end_ end' count tree fuel :
  (16 ≤ f)%nat → a = 32 * Z.of_nat f → 0 ≤ end_ → 0 ≤ end' → 0 < count → end_ mod a = 0 →
  check_levels a cp end_ count tree = Ok 1 → tree ≠ [] → (length tree ≤ fuel)%nat →
  end' + (tree_end a end_ tree - end_) < 2 ^ 64 → end_ ≤ cp →
  ∃ tree', plan_levels fuel a end' count = Some (tree', end' + (tree_end a end_ tree - end_)).
Proof.
  intros Hf Ha. revert end_ end' count fuel. induction tree as [|l tree IH]; intros end_ end' count fuel He He' Hc Hm E Hne Hfu Hlt Hcp; [done|].
  destruct fuel as [|fuel]; [simpl in Hfu; lia|]. rewrite (plan_levels_S a).
  apply (check_levels_cons f a cp Hf Ha) in E as (En & Eo & Hl & Hle & H1 & E); [|lia..|done].
  destruct (Z.ltb_spec 0 count); [|lia]. rewrite (align_div f a Ha), <- En. cbv zeta. cbn [tree_end] in *. set (n := lv_nodes l) in *.
  assert (0 < n) as Hn by (rewrite En; by apply nodes_pos). assert ((end_ + n * a) mod a = 0) as Hm' by (by rewrite Z.mod_add by lia).
  destruct (tree_end_ge f a cp Hf Ha (end_ + n * a) n tree 1 ltac:(nia) ltac:(lia) Hm' E Hle) as [[Hge _] _].
  assert (after_nodes end' n a = Some (end' + n * a)) as ->.
  { unfold after_nodes. rewrite checked_mul_small by lia. simpl. apply checked_add_small. lia. }
  cbn [mbind option_bind]. destruct (Z.eqb_spec n 1) as [E1|E1].
  - rewrite (H1 E1) in *. simpl in *. eexists. do 2 f_equal. lia.
  - destruct (IH (end_ + n * a) (end' + n * a) n fuel) as [tree' Ht]; try done; try nia.
    + intros ->. simpl in E. injection E as E. done.
    + simpl in Hfu. lia.
    + exists (mk_TreeLevel end' n :: tree'). rewrite Ht. cbn [mbind option_bind]. do 2 f_equal. lia.
Qed.

(** An object that fits its bank from where it is fits another from [start]. *)
Lemma extent_moves g g' c start off pad tree rt n j :
  superblock_ok g → superblock_ok g' → validate_superblock g' = Ok tt → alignment g' = alignment g → geometry j = g' →
  commit_ok c → validate_in c g = Ok tt → location c = Extent off pad tree rt → fits_cell n c →
  data_offset g' ≤ start → start mod alignment g = 0 → start + extent_size (alignment g) c ≤ capacity g' →
  ∃ loc, extent g' start (bytes (metadata c)) = Ok loc ∧ extent_end loc j = Ok (start + extent_size (alignment g) c) ∧
    (start + extent_size (alignment g) c) mod alignment g = 0.
Proof.
  intros W W' V' Ea Gj C V El (e & Ee & _) Hs Hm Hc. destruct (validate_in_extent _ _ _ _ _ _ V El) as (G & _ & _ & _ & X).
  pose proof (validate_superblock_Ok _ V') as G'. pose proof (align_range g W G) as Hal. destruct (go_align g G) as (f & Hf & Ha).
  pose proof C as (_ & (_ & _ & Mb) & _). destruct (extent_end_Ok _ _ _ _ _ _ (mk_Journal g 0 0 0 []) W G ltac:(apply Mb) X eq_refl) as (_ & Q1 & Q2 & Q3 & Q4).
  unfold extent_size in *. rewrite El in *. cbn [location_end] in *. set (a := alignment g) in *. set (sz := tree_end a (off + pad) tree - off) in *.
  pose proof (xo_padded _ _ _ _ _ _ X) as Hp. fold a in Hp. pose proof W' as ([_ Wc'] & _ & _ & _ & [Wd' _] & _).
  assert (0 ≤ off) by (pose proof (xo_data _ _ _ _ _ _ X); destruct W as (_ & _ & _ & _ & [? _] & _); lia).
  pose proof (div_ceil_nonneg (bytes (metadata c)) a ltac:(lia) ltac:(apply Mb)) as Hb.
  assert (∃ tree', plan_levels 64%nat a (start + pad) (div_ceil (bytes (metadata c)) a) = Some (tree', start + sz)) as [tree' Ht].
  { destruct (decide (bytes (metadata c) = 0)) as [E0|E0].
    - destruct (xo_empty _ _ _ _ _ _ X E0) as [Et _]. rewrite E0, (div_ceil_unique 0 a 0) by lia. unfold sz. rewrite Et. cbn [tree_end]. exists [].
      rewrite (plan_levels_S a). simpl. do 2 f_equal. lia.
    - destruct (xo_tree _ _ _ _ _ _ X E0) as [Hne Hck]. fold a in Hck. pose proof (div_ceil_spec (bytes (metadata c)) a ltac:(lia)).
      assert (0 < div_ceil (bytes (metadata c)) a) by (destruct Mb; nia).
      apply encode_Ok in Ee as ((_ & _ & _ & _ & _ & Hlv) & _). rewrite El in Hlv. cbn [location_valid] in Hlv. unfold zlen in Hlv.
      destruct (plan_levels_moves f a (capacity g) (off + pad) (start + pad) (div_ceil (bytes (metadata c)) a) tree 64%nat) as [tree' Ht]; try done; try lia.
      exists tree'. rewrite Ht. unfold sz. do 2 f_equal. lia. }
  assert (extent g' start (bytes (metadata c)) = Ok (Extent start pad tree' (if bytes (metadata c) =? 0 then blake3 [] else repeat x00 32))) as Ex.
  { unfold extent. rewrite V'. cbn [mbind result_bind]. rewrite Ea. fold a. rewrite (proj2 (Z.ltb_ge start (data_offset g')) Hs).
    rewrite (proj2 (is_multiple_spec start a ltac:(lia)) Hm). cbn [negb orb]. rewrite checked_mul_small by lia. cbn [ok_or mbind result_bind].
    rewrite <- Hp, checked_add_small by lia. cbn [ok_or mbind result_bind]. rewrite Ht. cbn [ok_or mbind result_bind].
    by rewrite (proj2 (Z.ltb_ge (capacity g') (start + sz)) Hc). }
  eexists. split; [exact Ex|]. 
  assert ((start + sz) mod a = 0) as Hmod.
  { unfold sz. pose proof (xo_aligned _ _ _ _ _ _ X) as Ho. fold a in Ho. replace (start + (tree_end a (off + pad) tree - off)) with (start + tree_end a (off + pad) tree - off) by lia.
    by rewrite Zminus_mod, Z.add_mod, Hm, Q4, Ho by lia. }
  split; [|done].
  destruct (extent_Ok g' start _ _ W' ltac:(split; [lia|]; unfold in_width in *; lia) Mb Ex) as (p & t & r & [= <- <- <-] & _ & _ & _ & Hall).
  destruct (Hall (metadata c) rt eq_refl) as [X' _]; [intros E0; apply (xo_empty _ _ _ _ _ _ X E0)|].
  destruct (extent_end_Ok g' (metadata c) start pad tree' rt j W' G' ltac:(apply Mb) X' Gj) as (E2 & _). rewrite Ea in E2. fold a in E2.
  change (extent_end (Extent start pad tree' rt) j) with (extent_end (Extent start pad tree' (if bytes (metadata c) =? 0 then blake3 [] else repeat x00 32)) j) in E2.
  rewrite E2. f_equal. destruct (decide (bytes (metadata c) = 0)) as [E0|E0].
  - destruct (xo_empty _ _ _ _ _ _ X E0) as [Et _], (xo_empty _ _ _ _ _ _ X' E0) as [Et' _]. unfold sz. rewrite Et, Et'. cbn [tree_end]. lia.
  - destruct (xo_tree _ _ _ _ _ _ X' E0) as [_ Hck']. rewrite Ea in Hck'. fold a in Hck'. pose proof (div_ceil_spec (bytes (metadata c)) a ltac:(lia)).
    assert (0 < div_ceil (bytes (metadata c)) a) by (destruct Mb; nia).
    destruct (plan_levels_check f a (capacity g') Hf Ha 64%nat (start + pad) (div_ceil (bytes (metadata c)) a) tree' (start + sz)) as (_ & -> & _); try done; [lia|]. by rewrite Hp, Z.mod_add by lia.
Qed.

(** ** The choice *)

(** What the copy keeps. *)
Definition keep (live : Live) (c : Commit) : bool := match kept live (metadata c) with Ok b => b | Err _ => false end.

(** What is chosen is what is kept, in its order, and it is planned as if it were all there is. *)
Lemma choose_kept live g j planned cs es :
  choose live g j planned cs = Ok es → es = filter (λ c, keep live c = true) cs ∧ choose None g j planned es = Ok es.
Proof.
  revert planned es. induction cs as [|c cs IH]; intros planned es E; cbn [choose] in E.
  { apply Ok_inj in E as <-. done. }
  rewrite filter_cons. destruct (kept live (metadata c)) as [[]|] eqn:Ek; [| |done]; cbn [mbind result_bind negb] in E.
  - rewrite decide_True by (unfold keep; by rewrite Ek). destruct (extent _ _ _) as [loc|] eqn:Ex; [|done]. cbn [map_err mbind result_bind] in E.
    destruct (extent_end loc j) as [e|] eqn:Ee; [|done]. cbn [map_err mbind result_bind] in E.
    destruct (choose live g j e cs) as [rest|] eqn:Er; [|done]. cbn [mbind result_bind] in E. apply Ok_inj in E as <-.
    destruct (IH e rest Er) as [<- Hn]. split; [done|]. cbn [choose kept mbind result_bind negb]. rewrite Ex. cbn [map_err mbind result_bind]. rewrite Ee.
    cbn [map_err mbind result_bind]. by rewrite Hn.
  - rewrite decide_False by (unfold keep; by rewrite Ek). by apply IH.
Qed.

Lemma choose_cons g j planned c cs :
  choose None g j planned (c :: cs) = Ok (c :: cs) →
  ∃ loc e, extent g planned (bytes (metadata c)) = Ok loc ∧ extent_end loc j = Ok e ∧ choose None g j e cs = Ok cs.
Proof.
  cbn [choose kept mbind result_bind negb]. intros E. destruct (extent _ _ _) as [loc|]; [|done]. cbn [map_err mbind result_bind] in E.
  destruct (extent_end loc j) as [e|] eqn:Ee; [|done]. cbn [map_err mbind result_bind] in E.
  destruct (choose None g j e cs) as [rest|] eqn:Er; [|done]. cbn [mbind result_bind] in E. apply Ok_inj in E. injection E as ->. by exists loc, e.
Qed.

(** What is chosen has room, unless the live set does not answer. *)
Lemma choose_room live g g' j planned n cs :
  superblock_ok g → superblock_ok g' → validate_superblock g' = Ok tt → alignment g' = alignment g → geometry j = g' →
  (∀ c, c ∈ cs → commit_ok c ∧ validate_in c g = Ok tt ∧ fits_cell n c ∧ 0 ≤ extent_size (alignment g) c ∧ ∃ off pad tree rt, location c = Extent off pad tree rt) →
  data_offset g' ≤ planned → planned mod alignment g = 0 → planned + total (alignment g) cs ≤ capacity g' →
  (∃ es, choose live g' j planned cs = Ok es) ∨ ∃ md e, kept live md = Err e ∧ choose live g' j planned cs = Err e.
Proof.
  intros W W' V' Ea Gj. revert planned. induction cs as [|c cs IH]; intros planned Hcs Hp Hm Hc; cbn [choose]; [left; by exists []|].
  destruct (Hcs c ltac:(left)) as (C & V & F & Hs & off & pad & tree & rt & El). cbn [total] in Hc.
  assert (∀ x, x ∈ cs → 0 ≤ extent_size (alignment g) x) as Hs' by (intros x Hx; apply (Hcs x); by right).
  pose proof (total_nonneg _ _ Hs') as Ht. destruct (kept live (metadata c)) as [b|e] eqn:Ek; cbn [mbind result_bind]; [|right; by exists (metadata c), e].
  destruct b; cbn [negb]; [|apply IH; try done; [intros x Hx; apply Hcs; by right|lia]].
  destruct (extent_moves g g' c planned off pad tree rt n j W W' V' Ea Gj C V El F Hp Hm ltac:(lia)) as (loc & -> & Ee & Hm').
  cbn [map_err mbind result_bind]. rewrite Ee. cbn [map_err mbind result_bind].
  destruct (IH (planned + extent_size (alignment g) c)) as [[es ->]|(md & e & Hk & ->)]; try done; [intros x Hx; apply Hcs; by right|lia|lia|left; by eexists|right; by exists md, e].
Qed.

End room.
