(* ===== verification/StoreMove.v ===== *)
(** * Compaction is atomic

    The live objects of a volume copied to its other bank: the store that is found is the whole one
    under the root that was, until the one write of the next root, and from then on the pruned one
    under that. *)

From S2P Require Import Prelude StoreFormat StoreCodec StoreTree StoreProof StoreJournal StoreBanks StoreDisk StoreCrash StoreLog StoreRoot StoreVolume StoreState StoreMount StorePut StoreRead StoreFresh StoreList StoreReserved StoreCopy StoreRoom.

Section move.
Context {BL : Blake3}.
Variable i : Info.
Hypothesis i_ok : info_ok i.

Abbreviation z := (StoreCrash.z i).
Abbreviation vol := (vol i).

(** ** What was prepared *)

Record prepared (rs : CompactionResources) (r : Root) : Prop := {
  pr_generation : expected_generation rs = root_generation r;
  pr_next : root_next r = Ok (rs_next rs);
  pr_journal : journal_new (root_geometry (rs_next rs)) = Ok (rs_journal rs);
  pr_encoded : root_encode (rs_next rs) = Ok (encoded_root rs);
  pr_room : alignment (root_geometry (rs_next rs)) ≤ rs_room rs ∧ cell (rs_journal rs) ≤ rs_room rs;
}.

Lemma or_refuse_inv {S E A B} e (c : result E A) (k : A → M S Stop B) s x :
  (or_refuse e c ≫= k) s = x → (∃ y, c = Ok y ∧ k y s = x) ∨ x = (Err (Refused e), s).
Proof. destruct c as [y|]; [left; by exists y|by right]. Qed.

Lemma io_inv {A B} (f : D A) (k : A → V B) v b v' :
  (io f ≫= k) v = (Ok b, v') → ∃ y v1, k y v1 = (Ok b, v').
Proof.
  unfold mbind, M_bind, io. destruct (f (dev v)) as [[y|e] d]; [|done]. intros E. by exists y, (mk_Volume d (journal v) (root v) (copied v) (failed v) (async_failed v) (loan v)).
Qed.

Lemma prepare_gives v rs v' : prepare_compaction v = (Ok rs, v') → prepared rs (root v).
Proof.
  unfold prepare_compaction. change ((gets (λ v, v) ≫= ?k) v) with (k v v). cbv beta. destruct (failed v || async_failed v); [done|].
  intros (? & v1 & E)%io_inv. apply or_refuse_inv in E as [(next & En & E)|E]; [|done].
  apply or_refuse_inv in E as [(j & Ej & E)|E]; [|done].
  apply io_inv in E as (? & v2 & E). apply io_inv in E as (? & v3 & E). apply io_inv in E as (? & v4 & E).
  destruct (_ || _) in E; [done|]. apply io_inv in E as (? & v5 & E). apply or_refuse_inv in E as [(e & Ee & E)|E]; [|done].
  do 4 (apply io_inv in E as (? & ? & E)). injection E as <- _. split; simpl; try done. lia.
Qed.

(** ** The other bank *)

Lemma bank_torn d d' g j m : torn d d' → banked i d g j m → banked i d' g j m.
Proof.
  intros C B. destruct (bank_journal _ _ _ _ _ B) as [J G]. apply (bank_change i i_ok d); [done|by apply keeps_torn..|].
  apply (tail_keeps i i_ok d); [done|rewrite G; apply B|by apply keeps_torn|apply B].
Qed.

Lemma bank_ext d g j m m' : (∀ k, m k = m' k) → banked i d g j m → banked i d g j m'.
Proof. intros E [W Wa Hl Ht Hst]. split; try done. intros k. rewrite <- E. apply Hst. Qed.

(** The next root of a volume, and where its bank is. *)
Record other (r next : Root) (e : list byte) : Prop := {
  ot_root : root_ok next;
  ot_align : alignment (root_geometry next) = alignment (root_geometry r);
  ot_named : role (root_geometry next) = role (root_geometry r) ∧ sb_workspace (root_geometry next) = sb_workspace (root_geometry r) ∧
             sb_bucket (root_geometry next) = sb_bucket (root_geometry r);
  ot_physical : physical next = cap i;
  ot_bounds : 2 * alignment (root_geometry r) ≤ log_offset (root_geometry next) ∧ capacity (root_geometry next) ≤ cap i;
  ot_apart : capacity (root_geometry r) ≤ log_offset (root_geometry next) ∨ capacity (root_geometry next) ≤ log_offset (root_geometry r);
  ot_slot : slot next = alignment (root_geometry r) - slot r;
  ot_sector : one_sector i r → zlen e ≤ sector_size i;
  ot_room : log_bytes (root_geometry next) = log_bytes (root_geometry r) ∧
            capacity (root_geometry next) - data_offset (root_geometry next) = capacity (root_geometry r) - data_offset (root_geometry r);
}.

Lemma next_other d r old j m next e : vol d r old j m → root_next r = Ok next → root_encode next = Ok e → other r next e.
Proof.
  intros V Hn He. pose proof (vo_root _ _ _ _ _ _ V) as R. destruct (vo_encodes _ _ _ _ _ _ V) as (e0 & E0).
  destruct (root_next_Ok r next R Hn) as (Rn & Hp & Hg & Hb & Ha & Hl & Hr & Hw & Hk & Hap).
  destruct (root_bounds next Rn) as [B1 B2]. rewrite Hp, (vo_physical _ _ _ _ _ _ V) in B2. rewrite Ha in B1.
  split; try done.
  - by rewrite Hp, (vo_physical _ _ _ _ _ _ V).
  - destruct (slot_cases r R) as [[-> ?]|[-> ?]], (slot_cases next Rn) as [[-> ?]|[-> ?]]; lia.
  - intros One. rewrite (next_size r next e0 e R Hn E0 He). by apply One.
  - split; [done|]. pose proof R as (_ & _ & _ & F). pose proof Rn as (_ & _ & _ & Fn).
    pose proof (go_data _ (validate_superblock_Ok _ (rf_geometry r F))). pose proof (go_data _ (validate_superblock_Ok _ (rf_geometry next Fn))).
    pose proof (rf_end r F) as [? _]. pose proof (rf_end next Fn) as [X _]. rewrite Ha, Hp in X. lia.
Qed.

Section switch.
Variables (r next : Root) (e : list byte).
Hypothesis O : other r next e.
Hypothesis Hn : root_next r = Ok next.
Hypothesis He : root_encode next = Ok e.

Abbreviation g := (root_geometry r).
Abbreviation gn := (root_geometry next).
Abbreviation a := (alignment g).

(** What is written to the other bank leaves the volume. *)
Lemma vol_other_bank d d' j m lo hi :
  vol d r None j m → log_offset gn ≤ lo → hi ≤ capacity gn → touches z lo hi d d' → vol d' r None j m.
Proof.
  intros V Hlo Hhi T. destruct (vol_journal _ _ _ _ _ _ V) as [J G]. pose proof (jo_data j J) as Hd. rewrite G in Hd.
  eapply (vol_touches i i_ok); [exact V| |exact T]. unfold free. rewrite G. pose proof (ot_bounds _ _ _ O) as [? ?]. destruct (ot_apart _ _ _ O); [left|right; right]; lia.
Qed.

(** The next root in its cell, over the volume that was. *)
Lemma vol_switch d d' j m j' m' :
  vol d r None j m → banked i d' gn j' m' → holds z d' (slot r) (cell_of r) → holds z d' (slot next) (cell_of next) → vol d' next (Some r) j' m'.
Proof.
  intros V B Hr Hc. destruct O as [Rn Ha (N1 & N2 & N3) Hp Hb Hap Hs Hz _]. destruct B as [W Wa Hl Ht Hst].
  pose proof (vo_root _ _ _ _ _ _ V) as R. destruct (vo_encodes _ _ _ _ _ _ V) as (e0 & E0). destruct (vo_align _ _ _ _ _ _ V) as [_ Hm].
  split; try done.
  - by exists e.
  - rewrite N1. apply V.
  - split; [done|by rewrite Ha].
  - rewrite Ha. simpl. by replace (a - slot next) with (slot r) by lia.
  - split; [done|split; [done|by exists e0]].
Qed.

(** The next root written, wholly or in part: one volume or the other is there after a crash. *)
Lemma switch_either d d' j m j' m' :
  vol d r None j m → banked i d gn j' m' → wrote z (slot next) (cell_of next) d d' →
  (one_sector i r → ∀ d'', crash d' d'' → vol d'' r None j m ∨ vol d'' next (Some r) j' m') ∧
  (∀ d'', torn d' d'' → vol d'' r None j m ∨ vol d'' next (Some r) j' m' ∨ fails_closed i d'' r j m) ∧
  (seen z d' (slot next) (cell_of next) → vol (flushed d') next (Some r) j' m').
Proof.
  intros V B W. destruct (vol_facts i i_ok _ _ _ _ _ V) as (Ha & Wa & _ & _ & Hslot & _). destruct (zlen_cell_of next e He) as [Ec Lc].
  destruct (vo_encodes _ _ _ _ _ _ V) as (er & Er). destruct (zlen_cell_of r er Er) as [_ Lr].
  rewrite (ot_align _ _ _ O) in Ec, Lc. pose proof (ot_slot _ _ _ O) as Hs. pose proof (ot_bounds _ _ _ O) as [Hb _].
  pose proof W as [T _]. rewrite Lc in T. pose proof (z_pos i i_ok) as Hz.
  assert (∀ d'', touches z (slot next) (slot next + a) d d'' → banked i d'' gn j' m' ∧ holds z d'' (slot r) (cell_of r)) as Kp.
  { intros d'' T'. split.
    - eapply (bank_touches i i_ok); [exact B| |exact T']. right. right. lia.
    - eapply holds_touches; [done|exact T'|apply V|lia|by destruct Hslot as [->| ->]|by rewrite Lr|rewrite Lr; lia]. }
  assert (∀ d'', torn d' d'' → holds z d'' (slot next) (cell_of next) → vol d'' next (Some r) j' m') as Sw.
  { intros d'' C H. destruct (Kp d' T) as [B' Hr']. apply (vol_switch d d'' j m); [done| |by apply (holds_torn z d')|done]. by apply (bank_torn d'). }
  split_and!.
  - intros One d'' C. destruct (Kp d' T) as [B' Hr']. pose proof (vo_other _ _ _ _ _ _ V) as Ho. simpl in Ho. rewrite <- Hs in Ho.
    assert (zlen e ≤ a) as Lea by (destruct (root_encode_Ok _ _ He) as (inner & _ & Hle & Hzl & _); rewrite (ot_align _ _ _ O) in Hle; lia).
    rewrite Ec in W.
    destruct (cell_one i i_ok d d' d'' (slot next) a e W Ho (ot_sector _ _ _ O One) Lea Wa C) as [H0|H1].
    + left.
      destruct (vol_bank i i_ok _ _ _ _ _ V d'') as (Kl & Kd & Kt).
      { intros lo hi Hlo. eapply (keeps_trans i _ _ _ d'); [|by apply keeps_crash]. eapply keeps_touches; [done|lia|exact T|right; lia]. }
      apply (vol_change i i_ok d d'' r None None j m V Kl Kd Kt); try done.
      * by apply (holds_crash z d').
      * simpl. by rewrite <- Hs.
    + right. apply Sw; [by apply crash_torn|by rewrite Ec].
  - intros d'' C. rewrite Hs in W. destruct (retire_torn i i_ok _ _ d'' _ _ _ _ next _ V W Lc C) as [V'|[H|T']]; [by right| |by left| |by right; right].
    + intros n x [Hx|Hx]; [left; by apply zero_byte in Hx|by right].
    + right. left. apply Sw; [done|by rewrite Hs].
  - intros Sn. destruct (Kp (flushed d')) as [B' Hr']; [eapply touches_trans; [exact T|apply touches_flushed]|].
    apply (vol_switch d _ j m); try done. by apply seen_flushed.
Qed.

(** ** The copy of what is kept *)

(** What an entry of the volume's journal is. *)
Lemma entry_held d j m c : vol d r None j m → c ∈ (entries j).*2 →
  ∃ start pad tree rt content e, commit_ok c ∧ validate_in c g = Ok tt ∧ location c = Extent start pad tree rt ∧ stored i d g c content ∧
    m (key_of c) = Some (metadata c, content) ∧ encode (FCommit c) = Ok e ∧ zlen e ≤ cell j.
Proof.
  intros V Hc. destruct (vol_journal _ _ _ _ _ _ V) as [J G]. destruct (vol_compactable _ _ _ _ _ _ V) as [_ _ Hfit Hs].
  destruct (Hfit c Hc) as (e0 & Ee & Le). apply list_elem_of_fmap in Hc as ([k x] & -> & Hin). simpl in *.
  destruct (jo_entries j J k x Hin) as (Hk & C & Vi & (start & pad & tree & rt & El) & _). rewrite G in Vi. pose proof (vo_store _ _ _ _ _ _ V k) as Hst.
  unfold current in Hst. rewrite (smap_get_sorted _ k x Hs Hin) in Hst. destruct (m k) as [[md content]|] eqn:Em; [|done]. destruct Hst as [-> Hst].
  exists start, pad, tree, rt, content, e0. unfold key_of. rewrite Hk. done.
Qed.

(** A kept object is planned in the other bank's journal when it has room. *)
Lemma entry_planned c jn start pad tree rt loc :
  validate_in c g = Ok tt → location c = Extent start pad tree rt → journal_ok jn → geometry jn = gn → current (key_of c) jn = None →
  log jn + 2 * cell jn ≤ data_offset gn → extent gn (data jn) (bytes (metadata c)) = Ok loc →
  plan (object (metadata c)) Absent (bytes (metadata c)) jn = Ok (Some loc).
Proof.
  intros V El J G Hcur Hroom Ex. destruct (validate_in_extent _ _ _ _ _ _ V El) as (_ & Ho & _ & (N1 & N2 & N3) & _).
  destruct (ot_named _ _ _ O) as (_ & M1 & M2). unfold plan, condition, journal_object. rewrite Ho. cbn [mbind result_bind].
  rewrite G, N1, N2, M1, M2, !bool_decide_true by done. unfold key_of in Hcur. rewrite Hcur.
  assert (is_nil (key (object (metadata c))) = false) as -> by (by destruct (key (object (metadata c)))). cbn [negb orb mbind result_bind].
  assert (has_capacity jn = true) as -> by (apply has_capacity_spec; [done|by rewrite G]). cbn [negb]. by rewrite Ex.
Qed.

Lemma copy_all_spec room j m j0 es jn m' s :
  a ≤ room → cell jn ≤ room → cell jn = cell j → geometry j0 = gn →
  info s = i → vol (disk s) r None j m → banked i (disk s) gn jn m' →
  (∀ c, c ∈ es → c ∈ (entries j).*2) → NoDup (key_of <$> es) → (∀ c, c ∈ es → current (key_of c) jn = None) →
  choose None gn j0 (data jn) es = Ok es → log jn + 2 * cell jn * zlen es ≤ data_offset gn →
  spec (copy_all room a g es jn) s
    (λ j' s', vol (disk s') r None j m ∧ ∃ m2, banked i (disk s') gn j' m2 ∧ ∀ k, m2 k = if bool_decide (k ∈ key_of <$> es) then m k else m' k)
    (λ x s', outside x ∧ vol (disk s') r None j m).
Proof.
  intros Ha Hr Hc G0. revert jn m' s Hr Hc. induction es as [|c es IH]; intros jn m' s Hr Hc Hi V B Hin Hnd Hcur Hch Hlog.
  { apply spec_ret. split; [done|]. exists m'. done. }
  destruct (entry_held _ _ _ c V (Hin c ltac:(left))) as (start & pad & tree & rt & content & e0 & C & Vi & El & Hst & Em & Ee & Le).
  destruct (bank_journal _ _ _ _ _ B) as [J G]. destruct (jo_cell_range jn J) as [Hcell _]. rewrite zlen_cons in Hlog. pose proof (zlen_nonneg es).
  destruct (choose_cons _ _ _ _ _ Hch) as (loc & end_ & Ex & Een & Hch').
  assert (plan (object (metadata c)) Absent (bytes (metadata c)) jn = Ok (Some loc)) as Hpl.
  { eapply entry_planned; try done; [apply Hcur; left|nia]. }
  pose proof (vo_root _ _ _ _ _ _ V) as R. pose proof R as (_ & _ & W & _). destruct (vo_align _ _ _ _ _ _ V) as [Wa Hm].
  destruct (root_bounds r R) as [_ Hcap]. rewrite (vo_physical _ _ _ _ _ _ V) in Hcap. pose proof (ot_bounds _ _ _ O) as [_ Hcapn]. rewrite <- Hc in Le.
  destruct (moved_commit_ok i g gn W Hcapn (ot_align _ _ _ O) (ot_apart _ _ _ O) c jn loc start pad tree rt e0 J G C Vi El Ee Le Hpl) as (tree' & rt' & -> & _ & Hloc & _ & C' & V' & _).
  cbn [copy_all]. rewrite fmap_cons in Hnd. apply NoDup_cons in Hnd as [Hnew Hnd].
  eapply spec_bind; [eapply (copy_object_spec i i_ok room g gn); try done; [apply O|apply O]|..].
  2:{ intros x s1 [X T]. split; [done|]. by eapply vol_other_bank. }
  intros j' s1 I1 (-> & T1 & B1). assert (vol (disk s1) r None j m) as V1 by (by eapply vol_other_bank).
  set (c' := moved c jn (Extent (data jn) pad tree' rt')) in *. destruct (commit_end c' jn J C' V') as (Ecm & _).
  assert (data (advance c' jn) = end_) as Ed.
  { cbn [data advance]. rewrite Hloc in Ecm |- *. change (extent_end (Extent (data jn) pad tree' rt) jn) with (extent_end (Extent (data jn) pad tree' rt') jn) in Ecm.
    unfold extent_end in Ecm, Een. rewrite G in Ecm. rewrite G0 in Een. rewrite Een in Ecm. apply Ok_inj in Ecm. by rewrite G. }
  eapply spec_mono; [apply (IH (advance c' jn) (store_insert (key_of c) (metadata c, content) m') s1); try done|..].
  - congruence.
  - intros x Hx. apply Hin. by right.
  - intros x Hx. unfold current. cbn [entries advance]. rewrite smap_get_insert. rewrite bool_decide_false.
    + apply Hcur. by right.
    + change (key (object (metadata c'))) with (key_of c). intros E. apply Hnew. rewrite <- E. by apply list_elem_of_fmap_2.
  - by rewrite Ed.
  - simpl. lia.
  - intros j2 s2 (V2 & m2 & B2 & E2). split; [done|]. exists m2. split; [done|]. intros k. rewrite E2. unfold store_insert. fold (key_of c).
    destruct (decide (k = key_of c)) as [->|Hk].
    + rewrite (bool_decide_false (key_of c ∈ key_of <$> es)) by done. rewrite (bool_decide_true (key_of c = key_of c)) by done.
      rewrite bool_decide_true; [done|]. rewrite fmap_cons. left.
    + rewrite (bool_decide_false (k = key_of c)) by done. rewrite fmap_cons.
      destruct (decide (k ∈ key_of <$> es)); [rewrite !bool_decide_true|rewrite !bool_decide_false]; try done; rewrite elem_of_cons; naive_solver.
  - done.
Qed.

Lemma clear_log_spec room al n at_ s :
  info s = i → 0 ≤ at_ → whole z at_ → 0 < al → whole z al → al ≤ room → at_ + Z.of_nat n * al ≤ cap i →
  spec (clear_log room al at_ n) s
    (λ _ s', touches z at_ (at_ + Z.of_nat n * al) (disk s) (disk s') ∧ seen z (disk s') at_ (zeroes (Z.of_nat n * al)))
    (λ x s', outside x ∧ touches z at_ (at_ + Z.of_nat n * al) (disk s) (disk s')).
Proof.
  intros Hi Ho Wo Ha Wa Hr. apply (zeroing_spec i i_ok (reserved_write room)); try done. intros off s1 I1 Ho1 Wo1 Hc1.
  assert (zlen (zeroes al) = al) as Lz by (apply zlen_zeroes; lia). apply (spec_rwrite i i_ok); try done; rewrite Lz; [done|lia|lia].
Qed.

(** ** The transaction *)

(** What a stopped compaction leaves: the volume that was, or the one it makes; where sectors may
    tear, one of them with a torn cell for the other's root, which fails closed. *)
Definition either (d : Disk) (j : Journal) (m m' : Store) : Prop :=
  (one_sector i r → ∀ d', crash d d' → (∃ old, vol d' r old j m) ∨ ∃ old j', vol d' next old j' m') ∧
  ∀ d', torn d d' → ((∃ old, vol d' r old j m) ∨ ∃ old j', vol d' next old j' m') ∨
    (fails_closed i d' r j m ∨ ∃ j', fails_closed i d' next j' m').

Lemma either_before d j m m' : recoverable i d r j m → either d j m m'.
Proof. intros [H1 H2]. split; [intros One d' C; left; by apply H1|]. intros d' C. destruct (H2 d' C) as [?|?]; [left|right]; by left. Qed.

Lemma either_after d d0 j j' m m' : vol d0 r None j m → recoverable i d next j' m' → either d j m m'.
Proof.
  intros V [H1 H2]. pose proof (vo_root _ _ _ _ _ _ V) as R. destruct (vo_encodes _ _ _ _ _ _ V) as (e0 & E0). split.
  - intros One d' C. right. destruct (H1) with (d' := d') as [old V']; [|done|by exists old, j'].
    intros e1 E1. rewrite (next_size r next e0 e1 R Hn E0 E1). by apply One.
  - intros d' C. destruct (H2 d' C) as [[old V']|T]; [left; right; by exists old, j'|right; right; by exists j'].
Qed.

Lemma either_switch d d' j m j' m' :
  vol d r None j m → banked i d gn j' m' → wrote z (slot next) (cell_of next) d d' → either d' j m m'.
Proof.
  intros V B W. destruct (switch_either _ _ _ _ _ _ V B W) as (E1 & E2 & _). split.
  - intros One d'' C. destruct (E1 One d'' C); [left|right]; eauto.
  - intros d'' C. destruct (E2 d'' C) as [?|[?|?]]; [left; left|left; right|right; left]; eauto.
Qed.

(** The next root's cell and the log of its bank cleared. *)
Lemma ready_spec {B} room j m j0 (k : unit → D B) s P F :
  info s = i → vol (disk s) r None j m → journal_new gn = Ok j0 → a ≤ room →
  (∀ s1, info s1 = i → vol (disk s1) r None j m → banked i (disk s1) gn j0 empty_store → spec (k tt) s1 P F) →
  (∀ x s1, outside x → recoverable i (disk s1) r j m → F x s1) →
  spec (_ ← obtain Unavailable;
        _ ← reserved_write room (slot next) (zeroes a);
        _ ← reserved_flush;
        _ ← clear_log room a (log_offset gn) (Z.to_nat (div_ceil (data_offset gn - log_offset gn) a));
        _ ← reserved_flush;
        k tt) s P F.
Proof.
  intros Hi V Hj Hr Hk HF. destruct (vol_facts i i_ok _ _ _ _ _ V) as (Ha & Wa & Hmx & Hcap & Hslot & _).
  pose proof (ot_slot _ _ _ O) as Hs. pose proof (ot_bounds _ _ _ O) as [Hb1 Hb2]. pose proof (ot_root _ _ _ O) as (_ & _ & W & Fn).
  pose proof (validate_superblock_Ok _ (rf_geometry next Fn)) as G. pose proof (go_data _ G) as [Hd _]. pose proof (go_capacity _ G) as Hc.
  destruct (go_multiples _ G) as (_ & M1 & M2 & _). rewrite (ot_align _ _ _ O) in M1, M2.
  assert (0 ≤ log_bytes gn) as Hlb by apply W. assert (zlen (zeroes a) = a) as Lz by (apply zlen_zeroes; lia).
  pose proof (Z.div_mod (log_bytes gn) a ltac:(lia)) as Hdm. rewrite M2, Z.add_0_r in Hdm. set (n := log_bytes gn / a) in *.
  assert (div_ceil (data_offset gn - log_offset gn) a = n) as -> by (apply div_ceil_unique; nia).
  assert (0 ≤ n) as Hn0 by (apply Z.div_pos; lia). assert (Z.of_nat (Z.to_nat n) * a = log_bytes gn) as Hna by lia.
  apply spec_obtain; [intros s1 I1 D1 _|intros s1 D1; apply HF; [done|rewrite D1; by apply (vol_recoverable i i_ok _ _ None)]..]. rewrite <- D1 in V.
  eapply spec_bind; [apply (spec_rwrite i i_ok); rewrite ?Lz; try done; [congruence|lia|by rewrite Hs; destruct Hslot as [->| ->]; rewrite ?Z.sub_0_r, ?Z.sub_diag|lia]|..].
  2:{ intros x s2 [X Wr]. apply HF; [done|]. rewrite Hs in Wr. by eapply (retire_recoverable i i_ok). }
  intros _ s2 I2 [Wr Sn]. rewrite Hs in Wr, Sn. pose proof (retire_done i i_ok _ _ _ _ _ _ V Wr Sn) as V2.
  eapply spec_bind; [apply spec_rflush|..].
  2:{ intros x s3 [D3 X]. apply HF; [done|]. rewrite D3. exact (retire_recoverable i i_ok _ _ _ _ _ _ V Wr). }
  intros [] s3 I3 D3. rewrite <- D3 in V2.
  eapply spec_bind; [apply clear_log_spec; try done; [congruence|lia|by apply (whole_mod i i_ok _ a); [done|lia|]|lia|rewrite Hna; lia]|..]; rewrite Hna.
  2:{ intros x s4 [X T]. apply HF; [done|]. apply (vol_recoverable i i_ok _ _ None). eapply vol_other_bank; [done| | |exact T]; lia. }
  intros _ s4 I4 [T Sn4]. assert (vol (disk s4) r None j m) as V4 by (eapply vol_other_bank; [done| | |exact T]; lia).
  eapply spec_bind; [apply spec_rflush|..].
  2:{ intros x s5 [D5 X]. apply HF; [done|]. rewrite D5. by apply (vol_recoverable i i_ok _ _ None). }
  intros [] s5 I5 D5. apply Hk; [congruence|rewrite D5; by apply vol_flushed|].
  rewrite D5. apply (fresh_bank i i_ok); try done; [by rewrite (ot_align _ _ _ O)|].
  replace (data_offset gn - log_offset gn) with (log_bytes gn) by lia. by apply seen_flushed.
Qed.

(** The next root written and the last one retired. *)
Lemma switch_spec room j m j' m' s :
  info s = i → vol (disk s) r None j m → banked i (disk s) gn j' m' → a ≤ room →
  spec (_ ← obtain Unavailable;
        _ ← reserved_write room (slot next) (padded a e);
        _ ← reserved_flush;
        _ ← obtain Unavailable;
        _ ← reserved_write room (slot r) (zeroes a);
        _ ← reserved_flush;
        mret j') s
    (λ x s', x = j' ∧ vol (disk s') next None j' m')
    (λ x s', outside x ∧ either (disk s') j m m').
Proof.
  intros Hi V B Hr. destruct (vol_facts i i_ok _ _ _ _ _ V) as (Ha & Wa & Hmx & Hcap & Hslot & _).
  pose proof (ot_slot _ _ _ O) as Hs. assert (zlen (zeroes a) = a) as Lz by (apply zlen_zeroes; lia).
  destruct (zlen_cell_of next e He) as [Ec Lc]. rewrite (ot_align _ _ _ O) in Ec, Lc. rewrite <- Ec.
  assert (whole z (slot r) ∧ whole z (slot next)) as [Wr Wn].
  { rewrite Hs. destruct Hslot as [->| ->]; rewrite ?Z.sub_0_r, ?Z.sub_diag; done. }
  apply spec_obtain; [intros s1 I1 D1 _|intros s1 D1; (split; [done|]); rewrite D1; apply either_before; by apply (vol_recoverable i i_ok _ _ None)..].
  rewrite <- D1 in V, B.
  eapply spec_bind; [apply (spec_rwrite i i_ok); rewrite ?Lc; try done; [congruence|lia|lia]|..].
  2:{ intros x s2 [X W]. split; [done|]. by eapply either_switch. }
  intros _ s2 I2 [W Sn]. destruct (switch_either _ _ _ _ _ _ V B W) as (_ & _ & V2). specialize (V2 Sn).
  eapply spec_bind; [apply spec_rflush|..].
  2:{ intros x s3 [D3 X]. split; [done|]. rewrite D3. by eapply either_switch. }
  intros [] s3 I3 D3. rewrite <- D3 in V2.
  apply spec_obtain; [intros s4 I4 D4 _|intros s4 D4; (split; [done|]); rewrite D4; eapply either_after; [exact V|]; by apply (vol_recoverable i i_ok _ _ (Some r))..].
  rewrite <- D4 in V2. assert (slot r = alignment gn - slot next) as Hs' by (rewrite (ot_align _ _ _ O); lia).
  eapply spec_bind; [apply (spec_rwrite i i_ok); rewrite ?Lz; try done; [congruence|lia|lia]|..].
  2:{ intros x s5 [X W5]. split; [done|]. rewrite Hs', <- (ot_align _ _ _ O) in W5. eapply either_after; [exact V|]. by eapply (retire_recoverable i i_ok). }
  intros _ s5 I5 [W5 Sn5]. rewrite Hs', <- (ot_align _ _ _ O) in W5, Sn5.
  eapply spec_bind; [apply spec_rflush|..].
  2:{ intros x s6 [D6 X]. split; [done|]. rewrite D6. eapply either_after; [exact V|]. by eapply (retire_recoverable i i_ok). }
  intros [] s6 I6 D6. apply spec_ret. split; [done|]. rewrite D6. by eapply (retire_done i i_ok).
Qed.

End switch.

Lemma transact_spec rs r j m m' es s :
  prepared rs r → info s = i → vol (disk s) r None j m →
  (∀ c, c ∈ es → c ∈ (entries j).*2) → NoDup (key_of <$> es) → choose None (root_geometry (rs_next rs)) (rs_journal rs) (data (rs_journal rs)) es = Ok es →
  2 * cell (rs_journal rs) * zlen es ≤ log_bytes (root_geometry (rs_next rs)) →
  (∀ k, m' k = if bool_decide (k ∈ key_of <$> es) then m k else None) →
  spec (transact rs r (root_geometry r) es) s
    (λ j' s', vol (disk s') (rs_next rs) None j' m')
    (λ x s', outside x ∧ either r (rs_next rs) (disk s') j m m').
Proof.
  intros [_ Hn Hj He [Hra Hrc]] Hi V Hin Hnd Hch Hlog Hm. pose proof (next_other _ _ _ _ _ _ _ V Hn He) as O.
  set (next := rs_next rs) in *. set (gn := root_geometry next) in *. pose proof (ot_align _ _ _ O) as Ea. fold gn in Ea. rewrite Ea in Hra.
  pose proof (ot_root _ _ _ O) as (_ & _ & W & F). destruct (journal_new_Ok _ _ W Hj) as (J0 & G0 & Hes & Hl0 & Hd0).
  destruct (vol_journal _ _ _ _ _ _ V) as [J G]. fold gn in G0, Hl0, Hd0.
  assert (cell (rs_journal rs) = cell j) as Hcell by (rewrite (jo_cell _ J0), (jo_cell _ J), G0, G, Ea; done).
  unfold transact. fold next gn. cbv zeta. rewrite Ea.
  apply (ready_spec r next (encoded_root rs) O (rs_room rs) j m (rs_journal rs)
    (λ _, j ← copy_all (rs_room rs) (alignment (root_geometry r)) (root_geometry r) es (rs_journal rs); _)); try done.
  2:{ intros x s1 X R1. split; [done|]. by apply either_before. }
  intros s1 I1 V1 B1. cbv beta.
  eapply spec_bind; [apply (copy_all_spec r next (encoded_root rs) O (rs_room rs) j m (rs_journal rs)); try done|..].
  - intros c _. unfold current. by rewrite Hes.
  - rewrite Hl0. pose proof (go_data _ (validate_superblock_Ok _ (rf_geometry next F))) as [Hd _]. subst gn next. lia.
  - intros j' s2 I2 (V2 & m2 & B2 & E2). eapply spec_mono; [apply (switch_spec r next (encoded_root rs) O Hn He (rs_room rs) j m j' m'); try done|by intros ? ? [-> ?]|done].
    + congruence.
    + eapply bank_ext; [|exact B2]. intros k. by rewrite E2, Hm.
  - intros x s2 [X V2]. split; [done|]. apply either_before. by apply (vol_recoverable i i_ok _ _ None).
Qed.

(** ** What is kept *)

(** The store without the objects the live set does not have. *)
Definition prune (live : Live) (m : Store) : Store := λ k,
  match m k with
  | Some (md, content) => if kept live md is Ok true then Some (md, content) else None
  | None => None
  end.

Lemma prune_keys d r old j m live k : vol d r old j m →
  prune live m k = if bool_decide (k ∈ key_of <$> filter (λ c, keep live c = true) (entries j).*2) then m k else None.
Proof.
  intros V. destruct (vol_journal _ _ _ _ _ _ V) as [J G]. destruct (vol_sorted _ _ _ _ _ _ V) as [Hs _].
  pose proof (vo_store _ _ _ _ _ _ V k) as Hst. unfold prune, keep. case_bool_decide as Hk.
  - apply list_elem_of_fmap in Hk as (c & -> & [Hkeep Hc]%list_elem_of_filter). apply list_elem_of_fmap in Hc as ([k x] & -> & Hx). simpl in *.
    destruct (jo_entries j J k x Hx) as (Hkx & _). unfold key_of in *. rewrite Hkx in *. unfold current in Hst. rewrite (smap_get_sorted _ k x Hs Hx) in Hst.
    destruct (m k) as [[md ct]|]; [|done]. destruct Hst as [-> _]. by destruct (kept live (metadata x)) as [[]|].
  - destruct (m k) as [[md ct]|]; [|done]. destruct (current k j) as [c|] eqn:Ec; [|done]. destruct Hst as [-> _].
    apply smap_get_elem in Ec. destruct (jo_entries j J k c Ec) as (Hkc & _).
    destruct (kept live (metadata c)) as [[]|] eqn:Ek; try done. exfalso. apply Hk, list_elem_of_fmap. exists c. split; [done|].
    apply list_elem_of_filter. rewrite Ek. split; [done|]. apply list_elem_of_fmap. by exists (k, c).
Qed.

Lemma keys_NoDup (l : list (list byte)) : sorted l → NoDup l.
Proof.
  induction 1 as [|x l _ IH Hx]; constructor; [|done]. intros Hin. rewrite Forall_forall in Hx.
  specialize (Hx x Hin). by rewrite (proj2 (bytes_cmp_eq x x) eq_refl) in Hx.
Qed.

(** What is chosen of a volume's journal: it is kept, it has room, and only the live set can prevent it. *)
Lemma chosen d r j m rs live : vol d r None j m → prepared rs r →
  let gn := root_geometry (rs_next rs) in
  let j0 := rs_journal rs in
  (∃ es, choose live gn j0 (data j0) (entries j).*2 = Ok es ∧ (∀ c, c ∈ es → c ∈ (entries j).*2) ∧ NoDup (key_of <$> es) ∧
     choose None gn j0 (data j0) es = Ok es ∧ checked_mul 64 (zlen es) (2 *! cell j0) = Some (2 * cell j0 * zlen es) ∧
     2 * cell j0 * zlen es ≤ log_bytes gn ∧ ∀ k, prune live m k = if bool_decide (k ∈ key_of <$> es) then m k else None) ∨
  ∃ md e, kept live md = Err e ∧ choose live gn j0 (data j0) (entries j).*2 = Err e.
Proof.
  intros V [_ Hn Hj He _] gn j0. pose proof (next_other _ _ _ _ _ _ _ V Hn He) as O. pose proof (ot_align _ _ _ O) as Ea. fold gn in Ea.
  destruct (ot_room _ _ _ O) as [Hlb Hcap]. fold gn in Hlb, Hcap. pose proof (ot_root _ _ _ O) as (_ & _ & W & F). fold gn in W. pose proof (rf_geometry _ F) as Vn. fold gn in Vn.
  destruct (journal_new_Ok _ _ W Hj) as (J0 & G0 & Hes & Hl0 & Hd0). fold j0 in J0, G0, Hes, Hl0, Hd0. destruct (vol_journal _ _ _ _ _ _ V) as [J G].
  pose proof (vo_root _ _ _ _ _ _ V) as (_ & _ & Wr & Fr). destruct (vol_compactable _ _ _ _ _ _ V) as [K1 K2 K3 K4]. rewrite G in K1, K2.
  assert (cell j0 = cell j) as Hcell by (rewrite (jo_cell _ J0), (jo_cell _ J), G0, G, Ea; done).
  destruct (choose_room live (root_geometry r) gn j0 (data j0) (cell j) (entries j).*2) as [[es Ees]|(md & x & Hk & Ex)]; try done.
  - intros c Hc. pose proof (entry_size j c J Hc) as Hsz. rewrite G in Hsz. pose proof (K3 c Hc) as Hfit.
    apply list_elem_of_fmap in Hc as ([k y] & -> & Hin). destruct (jo_entries j J k y Hin) as (_ & C & Vi & Hl & _). rewrite G in Vi. done.
  - by rewrite Hd0.
  - rewrite <- Ea, Hd0. apply (go_multiples _ (validate_superblock_Ok _ Vn)).
  - pose proof (jo_data j J) as Hd. rewrite G in Hd. rewrite Hd0. lia.
  - left. exists es. destruct (choose_kept _ _ _ _ _ _ Ees) as [Hf Hch]. split; [done|].
    assert (es `sublist_of` (entries j).*2) as Hsub by (rewrite Hf; apply sublist_filter).
    assert (zlen es ≤ zlen (entries j)) as Hle by (apply sublist_length in Hsub; rewrite length_fmap in Hsub; unfold zlen; lia).
    pose proof (jo_log_end j J) as Hend. rewrite G in Hend. pose proof (go_data _ (validate_superblock_Ok _ (rf_geometry _ Fr))) as [Hgd _].
    destruct (jo_cell_range _ J0) as [Hc0 _]. pose proof (zlen_nonneg es). assert (2 * cell j0 * zlen es ≤ log_bytes gn) as Hlog by (rewrite Hlb, Hcell in *; nia).
    assert (log_bytes gn < 2 ^ 64) as Hlt by apply W.
    split_and!.
    + intros c. rewrite Hf. by intros [_ Hc]%list_elem_of_filter.
    + destruct (vol_sorted _ _ _ _ _ _ V) as [Hs Hks]. apply keys_NoDup in Hs. rewrite <- Hks in Hs.
      eapply sublist_NoDup; [exact Hs|by apply fmap_sublist].
    + done.
    + rewrite (twice_cell j0 J0). rewrite checked_mul_small; [f_equal; lia|nia].
    + done.
    + intros k. rewrite Hf. by apply (prune_keys d r None).
  - right. by exists md, x.
Qed.

(** ** The operation *)

Abbreviation dk v := (disk (dev v)).

Lemma pending_range_spec s : spec pending_range s (λ _ s', disk s' = disk s) (λ x s', outside x ∧ disk s' = disk s).
Proof.
  unfold pending_range. apply spec_gets. destruct (has_pending s) eqn:Ep; [|by apply spec_ret].
  eapply wp_mono; [apply obtain_spec|]. intros res s1 ((I & H & G) & D & R). split; [done|]. by destruct R as [->|[->| ->]].
Qed.

(** What the transaction leaves of the volume. *)
Lemma moved_spec rs live v m es :
  prepared rs (root v) → info (dev v) = i → vol (dk v) (root v) None (journal v) m →
  (∀ c, c ∈ es → c ∈ (entries (journal v)).*2) → NoDup (key_of <$> es) → choose None (root_geometry (rs_next rs)) (rs_journal rs) (data (rs_journal rs)) es = Ok es →
  2 * cell (rs_journal rs) * zlen es ≤ log_bytes (root_geometry (rs_next rs)) →
  (∀ k, prune live m k = if bool_decide (k ∈ key_of <$> es) then m k else None) →
  let '(res, v') := io (transact rs (root v) (geometry (journal v)) es) v in
  vsame v v' ∧ (good (dev v) → ∃ j', res = Ok j') ∧
  match res with
  | Ok j' => vol (dk v') (rs_next rs) None j' (prune live m)
  | Err x => outside x ∧ either (root v) (rs_next rs) (dk v') (journal v) m (prune live m)
  end.
Proof.
  intros Pr Hi V Hin Hnd Hch Hlog Hm. destruct (vol_journal _ _ _ _ _ _ V) as [_ G]. rewrite G.
  pose proof (transact_spec rs (root v) (journal v) m (prune live m) es (dev v) Pr Hi V Hin Hnd Hch Hlog Hm) as H.
  unfold spec, wp, io in *. destruct (transact _ _ _ _ (dev v)) as [res s']. simpl in *. destruct H as [(_ & _ & Gd) H]. split_and!; try done; by intros [_ ?]%Gd.
Qed.

(** C3: compaction is atomic.  It leaves the volume under its next root with just the objects the
    live set keeps, or under the root it had with all of them.  Stopped at any moment, a crash
    leaves one or the other when the device writes sectors whole and a root is within one; when
    sectors may tear, one or the other, or one of the two whole but for a torn cell in the place of
    the other root, which fails closed.  It is refused only by the environment or the live set,
    never for the volume's own state, and resources prepared for a root the volume no longer has
    change nothing. *)
Theorem compact_atomic v0 v1 rs v same live m :
  prepare_compaction v0 = (Ok rs, v1) →
  (same = true → root_generation (root v0) = root_generation (root v) → root v0 = root v) →
  info (dev v) = i → vol (dk v) (root v) None (journal v) m →
  let '(res, v') := compact_selected same rs live v in
  match res with
  | Ok _ => root_next (root v) = Ok (root v') ∧ vol (dk v') (root v') None (journal v') (prune live m)
  | Err x =>
      root v' = root v ∧ journal v' = journal v ∧ (outside x ∨ ∃ md e, kept live md = Err e ∧ x = Refused e) ∧
      ((async_failed v' = async_failed v ∧ vol (dk v') (root v) None (journal v) m) ∨
       (async_failed v' = true ∧ ∃ next, root_next (root v) = Ok next ∧ either (root v) next (dk v') (journal v) m (prune live m)))
  end ∧
  (same = true → root v0 = root v → failed v = false → async_failed v = false → (∀ md, ∃ b, kept live md = Ok b) → good (dev v) → res = Ok tt).
Proof.
  intros Hp Hsame Hi V. pose proof (prepare_gives _ _ _ Hp) as Pr. unfold compact_selected.
  change ((gets (λ v, v) ≫= ?k) v) with (k v v). cbv beta.
  destruct (failed v || async_failed v) eqn:Ef.
  { simpl. split; [split_and!; try done; by left|]. intros _ _ F1 F2. by rewrite F1, F2 in Ef. }
  rewrite (pr_generation _ _ Pr). destruct same; cbn [negb orb].
  2:{ split; [split_and!; try done; by left|done]. }
  destruct (Z.eqb_spec (root_generation (root v0)) (root_generation (root v))) as [Eg|Eg]; cbn [negb].
  2:{ split; [split_and!; try done; by left|]. intros _ E. by rewrite E in Eg. }
  rewrite (Hsame eq_refl Eg) in Pr. clear Hsame Hp.
  unfold mbind at 1, M_bind at 1. unfold io at 1. pose proof (pending_range_spec (dev v)) as Hpend. unfold spec, wp in Hpend.
  destruct (pending_range (dev v)) as [[[]|x] s1]; simpl in Hpend; destruct Hpend as [(I1 & _ & G1) D1].
  2:{ split; [|by intros _ _ _ _ _ [_ [? ?]]%G1]. destruct D1 as [X D1]. simpl. rewrite D1. split_and!; try done; by left. }
  set (v2 := mk_Volume s1 _ _ _ _ _ _). assert (vol (dk v2) (root v2) None (journal v2) m) as V2 by (simpl; by rewrite D1).
  destruct (chosen _ _ _ _ _ live V Pr) as [(es & -> & Hin & Hnd & Hch & Hmul & Hlog & Hpr)|(md & x & Hk & ->)].
  2:{ split; [|intros _ _ _ _ Hl; destruct (Hl md) as [b Hb]; congruence]. simpl. rewrite D1. split_and!; try done; [right; by exists md, x|by left]. }
  cbn [map_err lift]. unfold mbind at 1, M_bind at 1. cbn [lift]. rewrite Hmul. unfold mbind at 1, M_bind at 1. cbn [ok_or lift].
  rewrite (proj2 (Z.ltb_ge _ _) Hlog).
  pose proof (moved_spec rs live v2 m es Pr ltac:(simpl; congruence) V2 Hin Hnd Hch Hlog Hpr) as H.
  destruct (io _ v2) as [[j'|x] v3]; destruct H as ((S1 & S2 & _ & S3 & _) & G & H).
  - split; [|done]. split; [apply Pr|exact H].
  - destruct H as [X H]. split; [|intros _ _ _ _ _ Gd; destruct (G1 Gd) as [Gd' _]; by destruct (G Gd')].
    cbn. rewrite S1, S2. split_and!; try done; [by left|]. right. split; [done|]. exists (rs_next rs). split; [apply Pr|exact H].
Qed.

End move.
