(* ===== verification/StoreTyped.v ===== *)
(** * The types of a volume

    Whatever bytes a device answers with, and however it changes, the root and the journal a volume
    has in memory are those of one another: their numbers are of their widths, the banks lie where
    the device's size puts them, and every commit is of an extent of the bank in use. *)

From S2P Require Import Prelude StoreFormat StoreCodec StoreTree StoreProof StoreJournal StoreBanks StoreDisk StoreCrash StoreLog StoreRoot StoreVolume StoreState StoreMount StoreReserved StoreMove.

Section typed.
Context {BL : Blake3}.

(** A root and a journal of it. *)
Record matched (r : Root) (j : Journal) : Prop := {
  ma_root : root_ok r;
  ma_journal : journal_ok j;
  ma_same : geometry j = root_geometry r;
}.

(** A volume's root is of the device it is on. *)
Definition typed (v : Volume) : Prop :=
  matched (root v) (journal v) ∧ physical (root v) = dev_capacity (info (dev v)).

(** ** What no operation changes of a device *)

(** A device operation does not change what the device is, whatever its result. *)
Definition steady {A} (f : D A) : Prop := ∀ s, info (f s).2 = info s.

Lemma steady_bind {A B} (f : D A) (k : A → D B) : steady f → (∀ a, steady (k a)) → steady (f ≫= k).
Proof.
  intros Hf Hk s. specialize (Hf s). unfold mbind, M_bind. destruct (f s) as [[a|e] s1]; [|done].
  simpl in *. by rewrite Hk.
Qed.

Lemma steady_ask : steady ask.
Proof. intros s. unfold ask. by destruct (answers s). Qed.

End typed.

(** Through a device operation to the requests it makes. *)
Ltac steady := repeat first
  [ progress cbv beta zeta
  | match goal with
    | |- steady ask => apply steady_ask
    | H : ∀ _, steady _ |- _ => apply H
    | H : ∀ _ _, steady _ |- _ => apply H
    | |- steady (_ ≫= _) => apply steady_bind; [|intros ?]
    | |- steady (match ?x with _ => _ end) => destruct x
    end
  | done ].

Section devices.
Context {BL : Blake3}.

Lemma steady_obtain e : steady (obtain e).
Proof. unfold obtain. steady. Qed.

Lemma steady_original {A} (f : D unit) (g : D A) : steady f → steady g → steady (original f g).
Proof. intros Hf Hg. unfold original. steady. Qed.

Lemma steady_complete {A} (f : D unit) (g : D A) : steady f → steady g → steady (complete f g).
Proof. intros Hf Hg. unfold complete. steady. Qed.

Lemma steady_admit : steady admit_async.
Proof. unfold admit_async. steady; apply steady_obtain. Qed.

Lemma steady_submit {A} room off len (f : D unit) (g : D A) : steady f → steady g → steady (submit room off len f g).
Proof.
  intros Hf Hg. unfold submit. steady; try apply steady_obtain; [apply steady_admit|by apply steady_complete].
Qed.

Lemma steady_flush : steady dev_flush.
Proof. by apply steady_original. Qed.

Lemma steady_write s ss : steady (dev_write s ss).
Proof. unfold dev_write. steady. by apply steady_original. Qed.

Lemma steady_read_block off len : steady (read_block off len).
Proof.
  unfold read_block, dev_read. steady; try apply steady_obtain. by apply steady_original.
Qed.

Lemma steady_read_aligned off len : steady (read_aligned off len).
Proof.
  unfold read_aligned. apply steady_bind; [done|]. intros i. cbv zeta. generalize (zlen <$> chunks (Z.to_nat (max_sectors i * sector_size i)) (repeat x00 (Z.to_nat len))) as lens.
  intros lens. generalize 0 as index. induction lens as [|n lens IH]; intros index; cbn [read_chunks]; steady. apply steady_read_block.
Qed.

Lemma steady_write_aligned off bs : steady (write_aligned off bs).
Proof.
  unfold write_aligned. apply steady_bind; [done|]. intros i. cbv zeta. destruct (_ || _); [done|].
  generalize (chunks (Z.to_nat (max_sectors i * sector_size i)) bs) as cs. generalize 0 as index.
  intros index cs. revert index. induction cs as [|c cs IH]; intros index; cbn [write_chunks]; steady; apply steady_obtain || apply steady_write.
Qed.

Lemma steady_zero_range a at_ n : steady (zero_range a at_ n).
Proof. revert at_. induction n as [|n IH]; intros at_; cbn [zero_range]; steady. apply steady_write_aligned. Qed.

Lemma steady_walk_nodes rd fuel p : (∀ off, steady (rd off)) → steady (walk_nodes rd fuel p).
Proof. intros Hrd. revert p. induction fuel as [|fuel IH]; intros p; cbn [walk_nodes]; steady. Qed.

Lemma steady_replay_log fuel j : steady (replay_log fuel j).
Proof.
  revert j. induction fuel as [|fuel IH]; intros j; cbn [replay_log]; steady; apply steady_obtain || apply steady_read_aligned.
Qed.

Lemma steady_mount_inner align rl : steady (mount_inner align rl).
Proof.
  unfold mount_inner. steady; first [apply steady_obtain|apply steady_read_block|apply steady_replay_log|apply steady_write_aligned|apply steady_flush].
Qed.

(** Those of a compaction. *)

Lemma steady_reserved_read room off len : steady (reserved_read room off len).
Proof.
  unfold reserved_read. apply steady_bind; [done|]. intros i. destruct (_ <? _); [done|].
  generalize (zlen <$> chunks (Z.to_nat (max_sectors i * sector_size i)) (repeat x00 (Z.to_nat len))) as lens. generalize 0 as at_.
  intros at_ lens. revert at_. induction lens as [|n lens IH]; intros at_; cbn [reserved_pieces]; steady; [by apply steady_submit|apply steady_obtain].
Qed.

Lemma steady_reserved_write room off bs : steady (reserved_write room off bs).
Proof.
  unfold reserved_write. apply steady_bind; [done|]. intros i. destruct (_ <? _); [done|].
  generalize (chunks (Z.to_nat (max_sectors i * sector_size i)) bs) as cs. generalize 0 as at_.
  intros at_ cs. revert at_. induction cs as [|c cs IH]; intros at_; cbn [reserved_writes]; steady; [apply steady_obtain|by apply steady_submit].
Qed.

Lemma steady_reserved_flush : steady reserved_flush.
Proof. unfold reserved_flush. steady; [apply steady_obtain|apply steady_admit|by apply steady_complete]. Qed.

Lemma steady_clear_log room a at_ n : steady (clear_log room a at_ n).
Proof. revert at_. induction n as [|n IH]; intros at_; cbn [clear_log]; steady. apply steady_reserved_write. Qed.

Lemma steady_copy_blocks room a g old o o' block n : steady (copy_blocks room a g old o o' block n).
Proof.
  revert block. induction n as [|n IH]; intros block; cbn [copy_blocks]; steady; try first [apply steady_obtain|apply steady_reserved_read|apply steady_reserved_write].
  apply steady_walk_nodes. intros off. steady; first [apply steady_obtain|apply steady_reserved_read].
Qed.

Lemma steady_copy_level room a o o' node n : steady (copy_level room a o o' node n).
Proof.
  revert node. induction n as [|n IH]; intros node; cbn [copy_level]; steady; first [apply steady_reserved_read|apply steady_reserved_write].
Qed.

Lemma steady_copy_levels room a ls : steady (copy_levels room a ls).
Proof. induction ls as [|[l l'] ls IH]; cbn [copy_levels]; steady. apply steady_copy_level. Qed.

Lemma steady_copy_commit room c j : steady (copy_commit room c j).
Proof.
  unfold copy_commit. steady; first [apply steady_obtain|apply steady_reserved_write|apply steady_reserved_flush].
Qed.

Lemma steady_copy_all room a g es j : steady (copy_all room a g es j).
Proof.
  revert j. induction es as [|c es IH]; intros j; cbn [copy_all]; steady. unfold copy_object.
  steady; first [apply steady_copy_blocks|apply steady_copy_levels|apply steady_copy_commit].
Qed.

Lemma steady_transact rs r g es : steady (transact rs r g es).
Proof.
  unfold transact. steady; first [apply steady_obtain|apply steady_reserved_write|apply steady_reserved_flush|apply steady_clear_log|apply steady_copy_all].
Qed.

Lemma steady_pending_range : steady pending_range.
Proof. unfold pending_range. steady. apply steady_obtain. Qed.

End devices.

Create HintDb steady.
#[export] Hint Resolve steady_obtain steady_flush steady_write_aligned steady_read_block steady_zero_range
  steady_pending_range steady_transact : steady.

Section read.
Context {BL : Blake3}.

(** ** What is read of a device *)

(** A device operation's result, whatever the device. *)
Definition yields {A} (f : D A) (P : A → Prop) : Prop := ∀ s a s', f s = (Ok a, s') → P a.

Lemma yields_bind {A B} (f : D A) (k : A → D B) R P : yields f R → (∀ a, R a → yields (k a) P) → yields (f ≫= k) P.
Proof.
  intros Hf Hk s b s'. unfold mbind, M_bind. destruct (f s) as [[a|e] s1] eqn:E; [|done]. apply Hk. by eapply Hf.
Qed.

Lemma yields_any {A B} (f : D A) (k : A → D B) P : (∀ a, yields (k a) P) → yields (f ≫= k) P.
Proof. intros Hk. apply (yields_bind f k (λ _, True)); [done|]. auto. Qed.

Lemma yields_ret {A} (a : A) (P : A → Prop) : P a → yields (mret a) P.
Proof. intros H s b s' [= <- _]. done. Qed.

Lemma yields_refuse {A} e (P : A → Prop) : yields (refuse e) P.
Proof. by intros s b s'. Qed.

Lemma yields_or {E A} e (c : result E A) (P : A → Prop) : (∀ a, c = Ok a → P a) → yields (or_refuse e c) P.
Proof. intros H s a s'. destruct c as [x|]; [|done]. intros [= <- _]. by apply H. Qed.

Lemma width_dec n (l : list byte) : 0 ≤ le_dec (take n l) < 2 ^ (8 * Z.of_nat n).
Proof.
  pose proof (le_dec_range (take n l)) as [H0 H1]. split; [done|]. eapply Z.lt_le_trans; [exact H1|].
  apply Z.pow_le_mono_r; [lia|]. unfold zlen. rewrite length_take. lia.
Qed.

Lemma root_decode_typed bs r : root_decode bs = Ok r → root_ok r.
Proof.
  unfold root_decode. destruct (zlen bs <? _); [done|]. destruct (negb _); [done|]. cbv zeta. destruct (negb _); [done|].
  destruct (_ || _ || _ || _); [done|]. destruct (negb _); [done|]. destruct (decode _) as [f|] eqn:Ed; [|done]. cbn [mbind result_bind].
  apply decode_spec in Ed as (Hf & _). destruct f as [g| |]; try done. cbn [mbind result_bind].
  set (r' := mk_Root _ _ _ _). destruct (validate_root r') as [[]|] eqn:Ev; [|done]. cbn [mbind result_bind]. destruct (_ <? _); [done|]. intros [= <-].
  split; [apply (width_dec 8)|]. split; [apply (width_dec 8)|]. split; [exact Hf|]. by apply validate_root_Ok.
Qed.

Lemma root_cell_typed bs sl r : root_cell bs sl = Ok (Some r) → root_ok r.
Proof.
  unfold root_cell. destruct (is_nil bs); [done|]. destruct (forallb _ bs); [done|]. destruct (root_decode bs) as [x|] eqn:E; [|done].
  cbn [map_err mbind result_bind]. destruct (_ || _); [done|]. intros [= <-]. by eapply root_decode_typed.
Qed.

Lemma recover_typed a b rec : recover a b = Ok rec → root_ok (rc_root rec).
Proof.
  unfold recover. destruct (_ || _); [done|]. destruct (root_cell a 0) as [x|] eqn:Ea; [|done]. cbn [mbind result_bind].
  destruct (root_cell b 1) as [y|] eqn:Eb; [|done]. cbn [mbind result_bind]. destruct (select x y) as [r|] eqn:Es; [|done]. cbn [mbind result_bind].
  intros [= <-]. cbn [rc_root]. unfold select in Es. destruct x as [x|], y as [y|]; try done.
  - destruct (_ || _) in Es; [done|]. destruct (_ <? _) in Es; injection Es as <-; by eapply root_cell_typed.
  - injection Es as <-. by eapply root_cell_typed.
  - injection Es as <-. by eapply root_cell_typed.
Qed.

Lemma replay_typed r record receipt j b j' : matched r j → replay record receipt j = Ok (b, j') → b = true → matched r j'.
Proof.
  intros [R J G] E ->. destruct (replay_inv _ _ _ _ J E) as (c & C & V & ->). split; [done|by apply advance_ok|done].
Qed.

Lemma replay_log_typed r fuel j : matched r j → yields (replay_log fuel j) (matched r).
Proof.
  revert j. induction fuel as [|fuel IH]; intros j M; [apply yields_refuse|]. cbn [replay_log]. destruct (has_capacity j); [|by apply yields_ret].
  do 4 (apply yields_any; intros ?). eapply yields_bind; [apply yields_or; intros x E; exact E|].
  intros [[] j'] E; cbv beta in E; [|by apply yields_ret]. apply IH. by eapply replay_typed.
Qed.

Lemma journal_new_typed r j : root_ok r → journal_new (root_geometry r) = Ok j → matched r j.
Proof. intros R E. pose proof R as (_ & _ & W & _). destruct (journal_new_Ok _ _ W E) as (J & G & _). by split. Qed.

(** A volume on a device of information [i]. *)
Definition of_device (i : Info) (jr : Journal * Root) : Prop := matched jr.2 jr.1 ∧ physical jr.2 = dev_capacity i.

Lemma mount_inner_typed align rl s jr s' : mount_inner align rl s = (Ok jr, s') → of_device (info s') jr.
Proof.
  intros E. pose proof (steady_mount_inner align rl s) as Hi. rewrite E in Hi. simpl in Hi. rewrite Hi.
  unfold mount_inner in E. change ((gets info ≫= ?k) s) with (k (info s) s) in E. set (i := info s) in *. clearbody i. clear Hi. revert s jr s' E.
  change (∀ s jr s', ?f s = (Ok jr, s') → of_device i jr) with (yields f (of_device i)). cbv beta.
  destruct (_ || _); [apply yields_refuse|]. do 6 (apply yields_any; intros ?).
  eapply yields_bind; [apply yields_or; intros x E; exact (recover_typed _ _ x E)|]. intros rec R. cbv beta zeta in R |- *.
  destruct (_ || _) eqn:Hg; [apply yields_refuse|]. apply orb_false_iff in Hg as [Hg _]. apply orb_false_iff in Hg as [Hg _].
  apply negb_false_iff, Z.eqb_eq in Hg. apply yields_any. intros _.
  eapply yields_bind; [apply yields_or; intros x E; exact (journal_new_typed _ x R E)|]. intros j M. do 2 (apply yields_any; intros ?).
  eapply yields_bind; [by apply replay_log_typed|]. intros j' M'. apply yields_any. intros _. by apply yields_ret.
Qed.

(** The same of what an operation ends with. *)
Definition ends_of_device (f : D (Journal * Root)) : Prop := ∀ s jr s', f s = (Ok jr, s') → of_device (info s') jr.

Lemma ends_any {A} (f : D A) k : (∀ a, ends_of_device (k a)) → ends_of_device (f ≫= k).
Proof. intros Hk s b s'. unfold mbind, M_bind. destruct (f s) as [[a|e] s1]; [apply Hk|done]. Qed.

Lemma ends_refuse e : ends_of_device (refuse e).
Proof. by intros s b s'. Qed.

Lemma provision_typed g : ends_of_device (provision g).
Proof.
  unfold provision. do 2 (apply ends_any; intros ?). destruct (_ || _); [apply ends_refuse|]. do 6 (apply ends_any; intros ?).
  destruct (negb _); [apply ends_refuse|]. apply ends_any. intros ?. destruct (negb _); [apply ends_refuse|].
  do 4 (apply ends_any; intros ?). intros s jr s'. apply mount_inner_typed.
Qed.

(** ** What is copied *)

Lemma copy_commit_typed r room c j : matched r j → yields (copy_commit room c j) (matched r).
Proof.
  intros M. unfold copy_commit. do 3 (apply yields_any; intros ?). destruct (_ || _); [apply yields_refuse|]. do 9 (apply yields_any; intros ?).
  eapply yields_bind; [apply yields_or; intros x E; exact E|]. intros [[] j'] E; cbv beta in E; [|apply yields_refuse].
  apply yields_ret. by eapply replay_typed.
Qed.

Lemma copy_all_typed r room a g es j : matched r j → yields (copy_all room a g es j) (matched r).
Proof.
  revert j. induction es as [|c es IH]; intros j M; [by apply yields_ret|]. cbn [copy_all]. apply (yields_bind _ _ (matched r)); [|auto].
  unfold copy_object. do 2 (apply yields_any; intros ?). destruct (location c); [apply yields_refuse|]. destruct a1; [apply yields_refuse|].
  apply yields_any. intros _. destruct (negb _); [apply yields_refuse|]. apply yields_any. intros _. by apply copy_commit_typed.
Qed.

Lemma transact_typed rs r g es : matched (rs_next rs) (rs_journal rs) → yields (transact rs r g es) (matched (rs_next rs)).
Proof.
  intros M. unfold transact. cbv zeta. do 5 (apply yields_any; intros ?). eapply yields_bind; [by apply copy_all_typed|].
  intros j M'. do 6 (apply yields_any; intros ?). by apply yields_ret.
Qed.

(** ** What changes a volume *)

(** An operation that changes neither the root nor the journal, nor what the device is. *)
Definition same_volume (v v' : Volume) : Prop :=
  journal v' = journal v ∧ root v' = root v ∧ info (dev v') = info (dev v).

Definition still {A} (f : V A) : Prop := ∀ v, same_volume v (f v).2.

(** One that keeps them of one another. *)
Definition sound {A} (f : V A) : Prop := ∀ v, typed v → typed (f v).2.

Lemma typed_same v v' : same_volume v v' → typed v → typed v'.
Proof. unfold typed. by intros (-> & -> & ->). Qed.

Lemma still_sound {A} (f : V A) : still f → sound f.
Proof. intros Q v. by apply typed_same. Qed.

(** Past an operation that changes nothing. *)
Lemma after_still {A B} (f : V A) (k : A → V B) v :
  still f → typed v → (∀ a v1, same_volume v v1 → typed v1 → typed (k a v1).2) → typed ((f ≫= k) v).2.
Proof.
  intros Q T Hk. specialize (Q v). pose proof (typed_same _ _ Q T). unfold mbind, M_bind. destruct (f v) as [[a|e] v1]; simpl in *; [by apply Hk|done].
Qed.

Lemma still_bind {A B} (f : V A) (k : A → V B) : still f → (∀ a, still (k a)) → still (f ≫= k).
Proof.
  intros Qf Qk v. specialize (Qf v). unfold mbind, M_bind. destruct (f v) as [[a|e] v1]; [|done]. simpl in *.
  destruct (Qk a v1) as (? & ? & ?), Qf as (? & ? & ?). split_and!; congruence.
Qed.

Lemma sound_bind {A B} (f : V A) (k : A → V B) : sound f → (∀ a, sound (k a)) → sound (f ≫= k).
Proof.
  intros Sf Sk v T. specialize (Sf v T). unfold mbind, M_bind. destruct (f v) as [[a|e] v1]; [|done]. by apply Sk.
Qed.

Lemma still_io {A} (f : D A) : steady f → still (io f).
Proof. intros Hf v. specialize (Hf (dev v)). unfold io. by destruct (f (dev v)). Qed.

Lemma still_lift {A} (c : result Stop A) : still (lift c).
Proof. done. Qed.

Lemma still_or {E A} e (c : result E A) : still (or_refuse e c).
Proof. done. Qed.

Lemma still_copied n : still (add_copied n).
Proof. intros v. unfold add_copied. by destruct (checked_add _ _ _). Qed.

Lemma still_loan at_ bs : still (write_loan at_ bs).
Proof. apply still_bind; [apply still_io; auto with steady|done]. Qed.

End read.

(** Through an operation to the parts that may change it. *)
Ltac still := repeat first
  [ progress cbv beta zeta
  | match goal with
    | |- still (io _) => apply still_io; auto with steady
    | |- still (or_refuse _ _) => apply still_or
    | |- still (add_copied _) => apply still_copied
    | |- still (write_loan _ _) => apply still_loan
    | |- still (_ ≫= _) => apply still_bind; [|intros ?]
    | |- still (match ?x with _ => _ end) => destruct x
    end
  | done ].

Section operations.
Context {BL : Blake3}.

Lemma volume_object_still o : still (volume_object o).
Proof. unfold volume_object. still. Qed.

Lemma put_leaves_still a off block bs : still (put_leaves a off block bs).
Proof. revert block. induction bs as [|b bs IH]; intros block; cbn [put_leaves]; still. Qed.

Lemma put_nodes_still a off index ch : still (put_nodes a off index ch).
Proof. revert index. induction ch as [|c ch IH]; intros index; cbn [put_nodes]; still. Qed.

Lemma put_tree_still a tree ds : still (put_tree a tree ds).
Proof. revert ds. induction tree as [|l tree IH]; intros ds; cbn [put_tree]; still. apply put_nodes_still. Qed.

Lemma commit_pair_still c : still (commit_pair c).
Proof. unfold commit_pair. still. Qed.

Lemma publish_sound c : sound (publish c).
Proof.
  intros v T. unfold publish. change ((gets journal ≫= ?k) v) with (k (journal v) v). cbv beta.
  apply after_still; [apply commit_pair_still|done|]. intros [record receipt] v1 S1 T1.
  apply after_still; [apply still_io; auto with steady|done|]. intros _ v2 S2 T2.
  apply after_still; [apply still_io; auto with steady|done|]. intros _ v3 S3 T3.
  unfold mbind, M_bind, or_refuse, lift. destruct (replay record receipt (journal v)) as [[[] j']|] eqn:E; try done.
  simpl. destruct T3 as [M3 F3]. split; [|done]. simpl. destruct S1 as (_ & R1 & _), S2 as (_ & R2 & _), S3 as (_ & R3 & _).
  rewrite R3, R2, R1. destruct T as [M _]. by eapply replay_typed.
Qed.

Lemma put_sound o cd source n unique : sound (put o cd source n unique).
Proof.
  unfold put. apply sound_bind; [apply still_sound, volume_object_still|intros _]. destruct (negb _); [by intros v T|].
  do 2 (apply sound_bind; [apply still_sound; still|intros ?]). apply sound_bind; [apply still_sound; still|intros loc].
  do 2 (apply sound_bind; [apply still_sound; still|intros ?]).
  destruct (_ <? _); [by intros v T|]. do 4 (apply sound_bind; [apply still_sound; still|intros ?]). destruct loc; [by intros v T|].
  apply sound_bind; [apply still_sound, put_leaves_still|intros ?]. apply sound_bind; [apply still_sound, put_tree_still|intros ?].
  apply sound_bind; [apply publish_sound|intros ?]. by intros v T.
Qed.

Lemma read_nodes_still fuel a p : still (read_nodes fuel a p).
Proof. apply still_io, steady_walk_nodes. intros off. steady; auto with steady. Qed.

Lemma read_blocks_still c start a offset len block n : still (read_blocks c start a offset len block n).
Proof. revert block. induction n as [|n IH]; intros block; cbn [read_blocks]; still. apply read_nodes_still. Qed.

Lemma read_still o ver offset len : still (read o ver offset len).
Proof. unfold read. still; [apply volume_object_still|apply read_blocks_still]. Qed.

Lemma zero_loan_still len at_ n : still (zero_loan len at_ n).
Proof. revert at_. induction n as [|n IH]; intros at_; cbn [zero_loan]; still. Qed.

Lemma settle_still {A} op (res : result Refusal A) : still (settle op res).
Proof. unfold settle. apply still_bind; [done|intros l]. destruct res as [x|e], l as [l|], (is_read op); still; apply zero_loan_still. Qed.

Lemma perform_sound o op unique : sound (perform o op unique).
Proof.
  unfold perform. apply sound_bind; [apply still_sound, volume_object_still|intros _].
  intros v. change ((gets (λ v, v) ≫= ?k) v) with (k v v). cbv beta. set (l := loan v). set (j := journal v). clearbody l j. revert v. 
  change (∀ v, typed v → typed (?f v).2) with (sound f).
  destruct op; try (apply still_sound; still; apply read_still);
    (apply sound_bind; [apply put_sound|]; by intros ? ? ?).
Qed.

Lemma execute_sound o op unique : sound (execute o op unique).
Proof.
  intros v T. unfold execute. destruct (bool_decide _); [done|]. destruct (_ || _); [done|].
  pose proof (perform_sound o op unique v T) as P. destruct (perform o op unique v) as [[x|[e| |]] v1]; try done; by apply still_sound; [apply settle_still|].
Qed.

Lemma recycle_sound : sound recycle_cache.
Proof.
  intros v T. unfold recycle_cache. change ((gets (λ v, v) ≫= ?k) v) with (k v v). cbv beta.
  destruct (_ || _); [done|]. cbv zeta. destruct (negb _); [done|]. set (g := geometry (journal v)).
  apply after_still; [apply still_io; auto with steady|done|]. intros _ v1 S1 T1.
  apply after_still; [apply still_io; auto with steady|done|]. intros _ v2 S2 T2.
  apply after_still; [|done|].
  { intros w. pose proof (still_io (_ ← zero_range (alignment g) (log_offset g) (Z.to_nat (div_ceil (data_offset g - log_offset g) (alignment g))); dev_flush)
      ltac:(steady; auto with steady) w) as Q.
    by destruct (io _ w) as [[[]|[]] w']. }
  intros _ v3 S3 T3.
  unfold mbind, M_bind, or_refuse, lift. destruct (journal_new g) as [j|] eqn:Ej; [|done]. simpl. destruct T3 as [M3 F3]. split; [|done]. simpl.
  destruct S1 as (_ & R1 & _), S2 as (_ & R2 & _), S3 as (_ & R3 & _). rewrite R3, R2, R1.
  destruct T as [[R J G] _]. apply journal_new_typed; [done|]. by rewrite <- G.
Qed.

Lemma compact_sound v0 v1 rs (same : bool) live v :
  typed v0 → prepare_compaction v0 = (Ok rs, v1) → (same = true → info (dev v0) = info (dev v)) →
  typed v → typed (compact_selected same rs live v).2.
Proof.
  intros [[R0 _ _] F0] Hp Hs T. destruct (prepare_gives _ _ _ Hp) as [_ Hn Hj _ _]. destruct (root_next_Ok _ _ R0 Hn) as (Rn & Pn & _).
  pose proof (journal_new_typed _ _ Rn Hj) as M.
  unfold compact_selected. change ((gets (λ v, v) ≫= ?k) v) with (k v v). cbv beta.
  destruct (_ || _); [done|]. destruct same; [specialize (Hs eq_refl)|done]. destruct (_ || _); [done|].
  apply after_still; [apply still_io; auto with steady|done|]. intros _ v2 S2 T2.
  unfold mbind at 1, M_bind at 1, lift at 1. destruct (choose _ _ _ _ _) as [es|e]; [|done]. cbn [map_err].
  unfold mbind at 1, M_bind at 1, lift at 1. destruct (checked_mul _ _ _) as [n|]; [|done]. cbn [ok_or]. destruct (_ <? _); [done|].
  pose proof (transact_typed rs (root v2) (geometry (journal v2)) es M) as Ht.
  pose proof (steady_transact rs (root v2) (geometry (journal v2)) es (dev v2)) as Hi. unfold io.
  destruct (transact _ _ _ _ (dev v2)) as [[j'|e] s'] eqn:Et; simpl in Hi.
  - split; [by eapply Ht|]. simpl. destruct S2 as (_ & _ & I2). by rewrite Pn, F0, Hi, I2, Hs.
  - destruct T2 as [M2 F2]. split; [exact M2|]. simpl. by rewrite F2, Hi.
Qed.

(** ** A volume in use *)

(** The states of a volume from a mount or a format on: its requests, its compactions with what was
    prepared in any earlier state, and between them a device whose content and answers, and a loan that
    is, as they like.  Resources that are of this volume were prepared on its device. *)
Inductive reached : Volume → Prop :=
| re_mount align rl s j r s' l : mount_inner align rl s = (Ok (j, r), s') → reached (mk_Volume s' j r 0 false false l)
| re_format g s j r s' l : provision g s = (Ok (j, r), s') → reached (mk_Volume s' j r 0 false false l)
| re_device v s l : reached v → info s = info (dev v) → reached (mk_Volume s (journal v) (root v) (copied v) (failed v) (async_failed v) l)
| re_execute v o op unique : reached v → reached (execute o op unique v).2
| re_recycle v : reached v → reached (recycle_cache v).2
| re_compact v v0 rs v1 matches same live : reached v → reached v0 → prepare_compaction v0 = (Ok rs, v1) →
    (same = true → info (dev v0) = info (dev v)) →
    reached (compact_namespaces matches same rs live v).2.

(** C7: the root and the journal of a volume are well typed in every state it can reach, whatever the
    device holds and answers: the root's numbers are of their widths, it is of the very device the volume is
    on, its physical size the device's and its bank where that size puts it and not past its end; the journal
    is of that bank, its log a whole number of pairs, its cursor inside the bank; and every entry is a valid
    commit, under its own key, of an extent that ends before the cursor. *)
Theorem volume_typed v :
  reached v →
  root_ok (root v) ∧ journal_ok (journal v) ∧ geometry (journal v) = root_geometry (root v) ∧
  physical (root v) = dev_capacity (info (dev v)) ∧
  capacity (geometry (journal v)) ≤ dev_capacity (info (dev v)).
Proof.
  intros H. assert (typed v) as [[R J G] F].
  { induction H as [? ? ? ? ? ? ? E|? ? ? ? ? ? E|v s l _ IH Hi|v o op unique _ IH|v _ IH|v v0 rs v1 matches same live _ IH _ IH0 E Hs].
    - exact (mount_inner_typed _ _ _ _ _ E).
    - exact (provision_typed _ _ _ _ E).
    - destruct IH as [M F]. split; [exact M|]. simpl. by rewrite Hi.
    - by apply execute_sound.
    - by apply recycle_sound.
    - unfold compact_namespaces. destruct (negb matches); [done|]. by apply (compact_sound v0 v1). }
  split_and!; try done. rewrite G, <- F. by apply root_bounds.
Qed.

End operations.
