(* ===== verification/StoreRun.v ===== *)
(** * What a volume promises

    The volume as its clients see it: a store of objects that a format begins, every mount finds,
    a put changes all at once or not at all, and a read gives back, over any device that a crash
    may leave with part of the writes since the last flush. *)

From S2P Require Import Prelude StoreFormat StoreCodec StoreTree StoreProof StoreJournal StoreBanks StoreDisk StoreCrash StoreLog StoreRoot StoreVolume StoreState StoreMount StorePut StoreRead StoreFresh StoreList.

Section run.
Context {BL : Blake3}.
Variable i : Info.
Hypothesis i_ok : info_ok i.

Abbreviation z := (StoreCrash.z i).
Abbreviation vol := (vol i).
Abbreviation dk v := (disk (dev v)).

(** What a read of the store [m] answers. *)
Definition read_answer (v : Volume) (m : Store) (o : Object) (ver : Version) (offset length : Z)
    (res : result Stop Outcome) (v' : Volume) : Prop :=
  rsame v v' ∧
  match m (key o), res with
  | Some (md, content), Ok x =>
      x = ORead md offset length ∧ version md = ver ∧ offset + length ≤ zlen content ∧
      loan_bytes v' = slice content offset (offset + length)
  | Some (md, content), Err e => read_refuses v o ver offset length md e ∨ outside e
  | None, Ok _ => False
  | None, Err e => fst (volume_object o v) = Err e ∨ e = Refused Missing
  end.

Lemma read_vol v r old m o ver offset length :
  info (dev v) = i → vol (dk v) r old (journal v) m → 0 ≤ offset → 0 ≤ length →
  wp (read o ver offset length) (λ res v', read_answer v m o ver offset length res v' ∧
    (∀ md content, m (key o) = Some (md, content) → read_admits v o ver offset length md → good (dev v) →
       res = Ok (ORead md offset length))) v.
Proof.
  intros Hi V Ho Hl. destruct (vol_journal _ _ _ _ _ _ V) as [J G]. destruct (vo_align _ _ _ _ _ _ V) as [Wa Hm].
  destruct (vol_two_cells i _ _ _ _ _ V) as [_ Hc]. pose proof (vo_store _ _ _ _ _ _ V (key o)) as Hst. rewrite <- G in Wa, Hm, Hst.
  unfold read_answer. destruct (m (key o)) as [[md content]|] eqn:Em.
  - destruct (current (key o) (journal v)) as [c|] eqn:Ek; [|done]. destruct Hst as [-> Hst].
    destruct (jo_entries _ J _ _ (smap_get_elem _ _ _ Ek)) as (_ & _ & Vi & (start & pad & tree & rt & El) & _).
    pose proof (stored_genuine i i_ok _ _ _ _ (jo_typed _ J) Vi Wa Hst) as Hgen. pose proof Hst as (Hb & _ & Hloc). rewrite El in Hloc.
    eapply wp_mono; [apply (read_spec i i_ok o ver offset length c content v Hi J Ho Hl Wa Hm Hc Ek Hb)|].
    + apply Hloc.
    + by apply genuine_faithful.
    + intros res v' [(S1 & P) G1]. split; [split; [done|]|].
      * destruct res as [x|e]; [|by destruct P as [P|[P|[_ P]]]; auto]. destruct P as (-> & [P1 P2] & P3). done.
      * intros md' ct' [= <- <-] A Gd. by apply G1.
  - destruct (current (key o) (journal v)) as [c|] eqn:Ek; [done|].
    unfold read. apply wp_bind. unfold wp at 1. destruct (volume_object_cases o v) as (res & Ev & _). rewrite Ev. cbn [fst snd].
    destruct res as [[]|e]; [|split; [split; [done|by left]|done]].
    change (wp (gets journal ≫= ?k) ?R v) with (wp (k (journal v)) R v). cbv beta. rewrite Ek.
    change (wp (lift (ok_or None ?e) ≫= ?k) ?R v) with (R (Err e) v). cbv beta. split; [split; [done|by right]|done].
Qed.

(** ** A request *)

(** The abstract operations: what an operation [op] on the object [o] of the store [m] answers and
    what store it leaves; [lent] is what the caller lent, and [back] what it has back. *)
Definition holds_for (m : Store) (k : list byte) (cd : Condition) : Prop :=
  match cd with
  | Absent => m k = None
  | Match ver => ∃ md content, m k = Some (md, content) ∧ version md = ver
  end.

Definition op_result (m : Store) (es : list (list byte * Commit)) (o : Object) (op : Operation) (unique lent : list byte)
    (x : Outcome) (back : list byte) (m' : Store) : Prop :=
  let stored := (put_metadata o unique lent, lent) in
  match op, x with
  | OpCurrent, OHead md => (∃ content, m (key o) = Some (md, content)) ∧ m' = m
  | OpHead ver, OHead md => (∃ content, m (key o) = Some (md, content)) ∧ version md = ver ∧ m' = m
  | OpRead ver offset length, ORead md offset' length' =>
      offset' = offset ∧ length' = length ∧ version md = ver ∧ m' = m ∧
      ∃ content, m (key o) = Some (md, content) ∧ offset + length ≤ zlen content ∧ back = slice content offset (offset + length)
  | OpCreate _, OWritten md => md = stored.1 ∧ holds_for m (key o) Absent ∧ m' = store_insert (key o) stored m
  | OpReplace cd _, OWritten md => md = stored.1 ∧ holds_for m (key o) cd ∧ m' = store_insert (key o) stored m
  | OpList limit after, OListed page next =>
      m' = m ∧ ∃ more : bool, list_page (key o) after limit [] es = (page, more) ∧
                 next = if more then (λ md, key (object md)) <$> last page else None
  | _, _ => False
  end.

(** Any crash leaves the store as it was, or with what was being written. *)
Definition survives (d : Disk) (r : Root) (m : Store) (o : Object) (unique lent : list byte) : Prop :=
  ∀ d', crash d d' → ∃ old' j' m', vol d' r old' j' m' ∧
    (m' = m ∨ m' = store_insert (key o) (put_metadata o unique lent, lent) m).

Definition perform_post (v : Volume) (r : Root) (old : option Root) (m : Store) (o : Object) (op : Operation) (unique : list byte)
    (res : result Stop Outcome) (v' : Volume) : Prop :=
  failed v' = failed v ∧ async_failed v' = async_failed v ∧
  match res with
  | Ok x => ∃ m', op_result m (entries (journal v)) o op unique (loan_bytes v) x (loan_bytes v') m' ∧ vol (dk v') r old (journal v') m'
  | Err (Refused BadIntegrity) | Err Panicked => False
  | Err (Refused Unavailable) | Err Crashed => vol (dk v') r old (journal v') m ∨ (is_read op = false ∧ survives (dk v') r m o unique (loan_bytes v))
  | Err (Refused _) => vol (dk v') r old (journal v') m
  end.

Lemma condition_holds d r old j m o cd : vol d r old j m → condition o cd j = Ok true → holds_for m (key o) cd.
Proof.
  intros V. pose proof (vo_store _ _ _ _ _ _ V (key o)) as Hst. unfold condition. destruct (journal_object o j) as [[]|]; [|done].
  cbn [mbind result_bind]. destruct cd as [|ver]; simpl.
  - by destruct (current (key o) j), (m (key o)).
  - destruct (validate_version ver) as [[]|]; [|by destruct (current (key o) j)]. cbn [mbind result_bind].
    destruct (current (key o) j) as [c|]; [|done]. intros E%Ok_inj. apply bool_decide_eq_true in E.
    destruct (m (key o)) as [[md ct]|]; [|done]. destruct Hst as [-> _]. by exists (metadata c), ct.
Qed.

Lemma perform_put v r old m o op cd n unique :
  info (dev v) = i → vol (dk v) r old (journal v) m → cell (journal v) ≤ max_bytes i → object_ok o → u64 n → zlen unique = 16 →
  op = OpReplace cd n ∨ (op = OpCreate n ∧ cd = Absent) →
  wp (md ← put o cd (loan v) n unique; mret (OWritten md)) (perform_post v r old m o op unique) v.
Proof.
  intros Hi V Hm Ho Hn Hu Hop. apply wp_bind. eapply wp_mono; [by apply (volume_put_spec i i_ok v r old m o cd (loan v) n unique)|].
  fold (loan_bytes v). intros res v' [(Hsame & P) _]. destruct Hsame as (_ & F1 & F2 & F3). destruct res as [md|e].
  - destruct P as (-> & Hc & c & Hmd & Hj & V'). unfold wp, mret, M_ret. simpl. split; [done|]. split; [done|]. rewrite Hj.
    eexists. split; [|exact V']. pose proof (condition_holds _ _ _ _ _ _ _ V Hc). by destruct Hop as [->|[-> ->]].
  - destruct P as [Hj P]. split; [done|]. split; [done|]. rewrite Hj.
    assert (∀ d0, (∀ d', crash d0 d' → ∃ old', vol d' r old' (journal v) m ∨ ∃ c, metadata c = put_metadata o unique (loan_bytes v) ∧
      vol d' r old' (advance c (journal v)) (store_insert (key o) (put_metadata o unique (loan_bytes v), loan_bytes v) m)) →
      survives d0 r m o unique (loan_bytes v)) as Hsv.
    { intros d0 H d' C. destruct (H d' C) as (old' & [V'|(c & _ & V')]); eauto 10. }
    assert (is_read op = false) as Hr by (by destruct Hop as [->|[-> _]]).
    destruct e as [[]| |]; try done; right; (split; [done|by apply Hsv]).
Qed.

(** The numbers of a request are those of its message. *)
Definition op_ok (op : Operation) : Prop :=
  match op with
  | OpRead _ offset length => u64 offset ∧ u64 length
  | OpCreate n | OpReplace _ n => u64 n
  | _ => True
  end.

Lemma perform_kept v r old m o op unique e v' : rsame v v' → vol (dk v) r old (journal v) m → e ≠ Refused BadIntegrity → e ≠ Panicked →
  perform_post v r old m o op unique (Err e) v'.
Proof.
  intros (J & _ & F1 & F2 & D) V H1 H2. split; [done|]. split; [done|]. rewrite J, D. destruct e as [[]| |]; try done; by left.
Qed.

Lemma read_answer_post v r old m o ver offset length unique res v' :
  vol (dk v) r old (journal v) m → read_answer v m o ver offset length res v' →
  perform_post v r old m o (OpRead ver offset length) unique res v'.
Proof.
  intros V [S1 P]. destruct res as [x|e].
  - destruct (m (key o)) as [[md content]|] eqn:Em; [|done]. destruct P as (-> & Hv & Hl & Hb).
    destruct S1 as (J & _ & F1 & F2 & D). split; [done|]. split; [done|]. exists m. rewrite J, D. split; [|done].
    simpl. split_and!; try done. by exists content.
  - destruct (volume_object_cases o v) as (res & Ev & Hres).
    assert (∀ e', fst (volume_object o v) = Err e' → e' ≠ Refused BadIntegrity ∧ e' ≠ Panicked) as Hvo.
    { intros e'. rewrite Ev. simpl. intros ->. destruct Hres as [[-> _]|[[-> _]|[-> _]]]; done. }
    apply perform_kept; try done; intros ->; destruct (m (key o)) as [[md content]|].
    + destruct P as [[P|[[P _]|[P _]]]|P]; try done. by destruct (Hvo _ P).
    + destruct P as [P|P]; [|done]. by destruct (Hvo _ P).
    + destruct P as [[P|[[P _]|[P _]]]|P]; try done. by destruct (Hvo _ P).
    + destruct P as [P|P]; [|done]. by destruct (Hvo _ P).
Qed.

Lemma perform_spec v r old m o op unique :
  info (dev v) = i → vol (dk v) r old (journal v) m → cell (journal v) ≤ max_bytes i → object_ok o → op_ok op → zlen unique = 16 →
  wp (perform o op unique) (perform_post v r old m o op unique) v.
Proof.
  intros Hi V Hm Ho Hop Hu. unfold perform. apply wp_bind. unfold wp at 1. destruct (volume_object_cases o v) as (res & -> & Hres).
  cbn [fst snd]. destruct res as [[]|e].
  2:{ apply perform_kept; [done|done|..]; destruct Hres as [[-> _]|[[-> _]|[-> _]]]; done. }
  change (wp (gets (λ v, v) ≫= ?k) ?R v) with (wp (k v) R v). cbv beta. pose proof (vo_store _ _ _ _ _ _ V (key o)) as Hst.
  destruct op as [|ver offset length|ver offset length|ver|ver offset length|n|limit after|cd n].
  - destruct (current (key o) (journal v)) as [c|]; [|by apply perform_kept].
    destruct (m (key o)) as [[md ct]|] eqn:Em; [|done]. destruct Hst as [-> _]. split; [done|]. split; [done|].
    exists m. split; [|done]. split; [by exists ct|done].
  - by apply perform_kept.
  - by apply perform_kept.
  - destruct (current (key o) (journal v)) as [c|]; [|by apply perform_kept].
    change (wp (lift (ok_or (Some c) ?e) ≫= ?k) ?R v) with (wp (k c) R v). cbv beta. case_bool_decide as Hv; [|by apply perform_kept].
    destruct (m (key o)) as [[md ct]|] eqn:Em; [|done]. destruct Hst as [-> _]. split; [done|]. split; [done|].
    exists m. split; [|done]. split; [by exists ct|done].
  - destruct Hop as [[Ho1 _] [Hl1 _]]. eapply wp_mono; [by apply (read_vol v r old m)|]. intros res v' [P _]. by apply read_answer_post.
  - apply (perform_put v r old m o _ Absent n); auto.
  - destruct (list_page _ _ _ _ _) as [es more] eqn:El. split; [done|]. split; [done|]. exists m. split; [|done]. split; [done|]. by exists more.
  - apply (perform_put v r old m o _ cd n); auto.
Qed.

(** ** The end of a request *)

(** The write takes one answer of the kernel. *)
Lemma write_loan_spec at_ bs v :
  wp (write_loan at_ bs) (λ res v', rsame v v' ∧ answers (dev v') = tail (answers (dev v)) ∧
    match res with
    | Ok _ => loan v' = (λ l, put_range l at_ bs) <$> loan v
    | Err e => loan v' = loan v ∧ (e = Refused Unavailable ∧ head (answers (dev v)) = Some NoResource ∨ e = Crashed)
    end) v.
Proof.
  unfold write_loan, obtain, ask, wp, io, mbind, M_bind. simpl. destruct (answers (dev v)) as [|[] l] eqn:E; simpl; rewrite ?E; split_and!; auto; done.
Qed.

(** The kernel refused to write the zeroes of a piece of the loan [l], [k] pieces from [at_] on: those
    before it are zero and the rest is as it was. *)
Definition zero_refused (ans : list Answer) (at_ : Z) (n : nat) (l l' : list byte) : Prop :=
  ∃ k, (k < n)%nat ∧ ans !! k = Some NoResource ∧ all_zero (take (Z.to_nat at_ + k * 256) l') = true ∧
    drop (Z.to_nat at_ + k * 256) l' = drop (Z.to_nat at_ + k * 256) l.

Lemma zero_loan_spec n len at_ v l :
  loan v = Some l → zlen l = len → 0 ≤ at_ ≤ len → Z.of_nat n = div_ceil (len - at_) 256 → all_zero (take (Z.to_nat at_) l) = true →
  wp (zero_loan len at_ n) (λ res v', rsame v v' ∧
    match res with
    | Ok _ => all_zero (loan_bytes v') = true
    | Err e => e = Refused Unavailable ∧ zero_refused (answers (dev v)) at_ n l (loan_bytes v') ∨ e = Crashed
    end) v.
Proof.
  revert at_ v l. induction n as [|n IH]; intros at_ v l Hl Ll Ha Hn Hz; cbn [zero_loan].
  - split; [done|]. change (all_zero (loan_bytes v) = true). pose proof (div_ceil_spec (len - at_) 256 ltac:(lia)).
    unfold loan_bytes. rewrite Hl. simpl. rewrite take_ge in Hz; [done|]. unfold zlen in Ll. lia.
  - set (count := Z.min (len - at_) 256). pose proof (div_ceil_spec (len - at_) 256 ltac:(lia)) as Hd.
    assert (0 < count) as Hc by (unfold count; lia). apply wp_bind. eapply wp_mono; [apply (write_loan_spec at_ (zeroes count))|].
    intros [[]|e] v1 (S1 & A1 & P).
    2:{ split; [done|]. destruct P as [P [[-> Hh]| ->]]; [left|by right]. split; [done|]. exists 0%nat. rewrite head_lookup in Hh.
        unfold loan_bytes. rewrite P, Hl, Nat.add_0_r. split_and!; [lia|done..]. }
    rewrite Hl in P. simpl in P.
    assert (zlen (zeroes count) = count) as Lz by (apply zlen_zeroes; lia).
    set (l' := put_range l at_ (zeroes count)) in *.
    assert (List.length (take (Z.to_nat at_) l) = Z.to_nat at_) as Lt by (rewrite length_take; unfold zlen in Ll; lia).
    eapply wp_mono; [apply (IH (at_ + count) v1 l' P)|].
    + unfold l', put_range. unfold zlen in *. rewrite !length_app, Lt, length_drop. unfold count in *. lia.
    + unfold count. lia.
    + symmetry. apply div_ceil_unique; unfold count; lia.
    + unfold l', put_range. rewrite app_assoc, take_app_le by (rewrite length_app, Lt; unfold zlen in Lz; lia).
      rewrite take_ge by (rewrite length_app, Lt; unfold zlen in Lz; lia). unfold all_zero. rewrite forallb_app. apply andb_true_iff. split; [done|].
      apply all_zero_zeroes.
    + intros res v2 (S2 & P2). split; [by eapply rsame_trans|]. destruct res as [[]|e]; [done|].
      destruct P2 as [[-> (k & Hk & Ek & Zk & Rk)]|P2]; [left|by right]. split; [done|]. exists (S k).
      assert (count = 256) as Ec by (unfold count; lia). rewrite A1, lookup_tail in Ek.
      replace (Z.to_nat at_ + S k * 256)%nat with (Z.to_nat (at_ + count) + k * 256)%nat by lia.
      split; [lia|]. split; [done|]. split; [done|]. rewrite Rk. unfold l', put_range. unfold zlen in Lz.
      rewrite app_assoc, drop_app_ge by (rewrite length_app, Lt; lia). rewrite length_app, Lt, drop_drop. f_equal. lia.
Qed.

Lemma settle_spec {A} op (r : result Refusal A) v res v' :
  settle op r v = (res, v') →
  (res = map_err Refused r ∧ journal v' = journal v ∧ disk (dev v') = disk (dev v) ∧
     (r = Err Unavailable ∨ r = Err BadIntegrity → failed v' = true) ∧
     match r with
     | Ok _ => loan v' = loan v
     | Err _ => is_read op = true → all_zero (loan_bytes v') = true
     end) ∨
  (rsame v v' ∧ is_read op = true ∧ (∃ e, r = Err e) ∧
   (res = Err (Refused Unavailable) ∧
      zero_refused (answers (dev v)) 0 (Z.to_nat (div_ceil (zlen (loan_bytes v)) 256)) (loan_bytes v) (loan_bytes v') ∨
    res = Err Crashed)).
Proof.
  intros E. unfold settle in E. change ((gets loan ≫= ?k) v) with (k (loan v) v) in E. cbv beta in E.
  match type of E with (?f ≫= _) v = _ => assert (wp f (λ x v1, rsame v v1 ∧ match x with
    | Ok _ => match r with Ok _ => loan v1 = loan v | Err _ => is_read op = true → all_zero (loan_bytes v1) = true end
    | Err e => is_read op = true ∧ (∃ e, r = Err e) ∧ (e = Refused Unavailable ∧
        zero_refused (answers (dev v)) 0 (Z.to_nat (div_ceil (zlen (loan_bytes v)) 256)) (loan_bytes v) (loan_bytes v1) ∨ e = Crashed) end) v) as Hz end.
  { clear E. destruct r as [a|e]; [by split|]. destruct (loan v) as [l|] eqn:El; [|split; [done|]; intros _; change (all_zero (loan_bytes v) = true); unfold loan_bytes; by rewrite El].
    destruct (is_read op) eqn:Er; [|by split]. pose proof (zlen_nonneg l).
    eapply wp_mono; [apply (zero_loan_spec _ (zlen l) 0 v l El eq_refl); [lia|rewrite Z.sub_0_r, Z2Nat.id; [done|by apply div_ceil_nonneg]|done]|].
    intros [[]|x] v1 [S1 P]; (split; [done|]); [done|]. split; [done|]. split; [by exists e|].
    unfold loan_bytes at 1 2. by rewrite El. }
  match type of E with (?f ≫= _) v = _ => unfold wp in Hz; unfold mbind at 1, M_bind at 1 in E; destruct (f v) as [[[]|x] v1] end; simpl in Hz, E.
  - destruct Hz as [(J & R & F1 & F2 & D) Hz]. left. destruct r as [a|e].
    + change ((Ok a : result Stop A, v1) = (res, v')) in E. injection E as <- <-. split_and!; try done. by intros [?|?].
    + destruct e; unfold mbind, M_bind in E; simpl in E; injection E as <- <-; split_and!; try done; by intros [?|?].
  - destruct Hz as [S1 (Hr & He & Hx)]. injection E as <- <-. right. split_and!; try done. destruct Hx as [[-> Hx]| ->]; auto.
Qed.

(** ** What is promised *)

Lemma vol_survives d r old j m o unique lent : vol d r old j m → survives d r m o unique lent.
Proof. intros V d' C. exists old, j, m. split; [by eapply vol_crash|by left]. Qed.

(** C6: a request on a mounted volume does what it does on the abstract store: the answer and the
    store it leaves are those of [op_result]; a refusal leaves the store as it was, except where
    the volume has closed itself for good, and then, as after a crash of the power that leaves each
    sector whole, what the device holds is the store as it was or the store with what was being
    written.  A cell of the log is one transfer of the device. *)
Theorem execute_refines v r old m o op unique :
  info (dev v) = i → vol (dk v) r old (journal v) m → cell (journal v) ≤ max_bytes i → object_ok o → op_ok op → zlen unique = 16 →
  let '(res, v') := execute o op unique v in
  match res with
  | Ok x => ∃ m', op_result m (entries (journal v)) o op unique (loan_bytes v) x (loan_bytes v') m' ∧ vol (dk v') r old (journal v') m'
  | Err (Refused e) =>
      e ≠ BadIntegrity ∧
      (vol (dk v') r old (journal v') m ∨ (failed v' = true ∧ survives (dk v') r m o unique (loan_bytes v)))
  | Err Crashed => survives (dk v') r m o unique (loan_bytes v)
  | Err Panicked => False
  end.
Proof.
  intros Hi V Hm Ho Hop Hu. unfold execute. case_bool_decide; [by split; [|left]|].
  destruct (failed v || async_failed v); [by split; [|left]|].
  pose proof (perform_spec v r old m o op unique Hi V Hm Ho Hop Hu) as P. unfold wp in P.
  destruct (perform o op unique v) as [[x|[e| |]] v1]; simpl in P; destruct P as (F1 & F2 & P).
  - destruct (settle op (Ok x) v1) as [res v'] eqn:Es. destruct (settle_spec _ _ _ _ _ Es) as [(-> & J & D & _ & L)|(_ & _ & (? & ?) & _)]; [|done].
    simpl. destruct P as (m' & P & V'). exists m'. unfold loan_bytes at 2. rewrite L, J, D. done.
  - destruct (settle op (Err e) v1) as [res v'] eqn:Es. destruct (settle_spec _ _ _ _ _ Es) as [(-> & J & D & F & _)|((J & _ & _ & _ & D) & Hr & _ & Hres)].
    + simpl. rewrite J, D. destruct e; try (by split; [|left]). split; [done|]. destruct P as [P|[_ P]]; [by left|right]. split; [|done]. apply F. by left.
    + assert (vol (dk v1) r old (journal v1) m) as V1 by (rewrite Hr in P; destruct e; naive_solver).
      destruct Hres as [[-> _]| ->]; [split; [done|]; left; by rewrite J, D|]. rewrite D. by eapply vol_survives.
  - destruct P as [P|[_ P]]; [by eapply vol_survives|done].
  - done.
Qed.

(** C11: a read that is refused leaves nothing of the object in the caller's memory: all of it is
    zero, and the volume is closed when the refusal was for the device or for the integrity of
    what it read.  The one exception is a kernel that refuses the zeroing itself: what the read left
    is zeroed in pieces of 256 bytes, each of them one write the kernel may refuse; the refusal is then
    [Unavailable], every piece before the refused one is zero, and the rest is as the read left it. *)
Theorem refused_read_zeroed v o ver offset length unique e v' :
  execute o (OpRead ver offset length) unique v = (Err (Refused e), v') →
  role (geometry (journal v)) ≠ CacheScratch → failed v = false → async_failed v = false →
  (all_zero (loan_bytes v') = true ∧ (e = Unavailable ∨ e = BadIntegrity → failed v' = true)) ∨
  (e = Unavailable ∧ ∃ e1 v1 k,
     perform o (OpRead ver offset length) unique v = (Err (Refused e1), v1) ∧
     Z.of_nat k < div_ceil (zlen (loan_bytes v1)) 256 ∧ answers (dev v1) !! k = Some NoResource ∧
     all_zero (take (k * 256) (loan_bytes v')) = true ∧
     drop (k * 256) (loan_bytes v') = drop (k * 256) (loan_bytes v1)).
Proof.
  intros E Hr F1 F2. unfold execute in E. rewrite bool_decide_eq_false_2, F1, F2 in E by done. simpl in E.
  destruct (perform _ _ _ v) as [[x|[e1| |]] v1] eqn:Ep; [| |done|done]; destruct (settle_spec _ _ _ _ _ E) as [(Hres & _ & _ & F & L)|(_ & _ & He & [[[= ->] Hz]|?])].
  - done.
  - by destruct He.
  - done.
  - injection Hres as ->. left. split; [by apply L|]. intros [->| ->]; apply F; auto.
  - right. split; [done|]. destruct Hz as (k & Hk & Hz). exists e1, v1, k. split; [done|]. split; [lia|exact Hz].
  - done.
Qed.

(** C2: a mount finds the volume the device holds, its root and its journal: when it succeeds the
    retired root cell is blank and the store is the one that was there; and it succeeds when nothing
    stops it.  It is stopped by the kernel, the device or the power, and never for the integrity of
    what it read.  Then, when the device writes sectors whole and a root is within one, any crash
    leaves the volume for the next mount.  When sectors may tear, a crash leaves the volume or one
    that fails closed: its root, log and objects are there and the retired root's cell is part
    zeroes, and unless that cell checks as a root a mount is refused for integrity, or stopped,
    and writes nothing. *)
Theorem mount_finds s r old j m :
  info s = i → vol (disk s) r old j m →
  let '(res, s') := mount_inner (alignment (root_geometry r)) (role (root_geometry r)) s in
  match res with
  | Ok jr => jr = (j, r) ∧ vol (disk s') r None j m
  | Err e => outside e ∧
      (one_sector i r → ∀ d', crash (disk s') d' → ∃ old', vol d' r old' j m) ∧
      ∀ d', torn (disk s') d' → (∃ old', vol d' r old' j m) ∨ fails_closed i d' r j m
  end ∧ (good s → res = Ok (j, r)).
Proof.
  intros Hi V. pose proof (mount_spec i i_ok s r old j m Hi V) as H. unfold spec, wp in H.
  destruct (mount_inner _ _ s) as [res s']. destruct H as [(_ & _ & G) P]. simpl in *. split; [done|].
  intros Gd. destruct (G Gd) as [_ [x ->]]. by destruct P as [-> _].
Qed.

(** C1: a put is all or nothing: when it succeeds the store has the object with its new content and
    all else as it was; when it is refused for the request or for room the store is as it was; when
    the device fails or the power does, any crash that leaves each sector whole leaves one or the
    other; and what the volume admits succeeds when nothing stops it.  A cell of the log is one
    transfer of the device. *)
Theorem put_atomic v r old m o cd source n unique :
  info (dev v) = i → vol (dk v) r old (journal v) m → cell (journal v) ≤ max_bytes i → object_ok o → u64 n → zlen unique = 16 →
  let content := default [] source in
  let md := put_metadata o unique content in
  let m' := store_insert (key o) (md, content) m in
  let '(res, v') := put o cd source n unique v in
  match res with
  | Ok x => x = md ∧ holds_for m (key o) cd ∧ vol (dk v') r old (journal v') m'
  | Err (Refused Unavailable) | Err Crashed => ∀ d', crash (dk v') d' → ∃ old' j', vol d' r old' j' m ∨ vol d' r old' j' m'
  | Err (Refused BadIntegrity) | Err Panicked => False
  | Err (Refused _) => vol (dk v') r old (journal v') m
  end ∧ (put_admits v o cd n unique → zlen content = n → good (dev v) → res = Ok md).
Proof.
  intros Hi V Hm Ho Hn Hu content md m'. pose proof (volume_put_spec i i_ok v r old m o cd source n unique Hi V Hm Ho Hn Hu) as H. unfold wp in H.
  destruct (put o cd source n unique v) as [res v']. simpl in H. destruct H as [[_ P] G]. fold content in P, G. fold md in P. fold m' in P. split.
  - destruct res as [x|e].
    + destruct P as (-> & Hc & c & _ & -> & V'). split_and!; try done. by eapply condition_holds.
    + destruct P as [Hj P]. rewrite Hj. destruct e as [[]| |]; try done; intros d' C; destruct (P d' C) as (old' & [V'|(c & _ & V')]); eauto.
  - intros A L Gd. destruct (G A L Gd) as [x ->]. by destruct P as [-> _].
Qed.

(** C9: whatever the device answers, a read that succeeds gives the caller the bytes of the content
    the commit was made of, provided no page of the device is another text with the digest of the
    page it stands for; a refusal for integrity means that a page is not the one written. *)
Theorem read_sound v o ver offset length c content :
  info (dev v) = i → journal_ok (journal v) → u64 offset → u64 length →
  let g := geometry (journal v) in
  whole z (alignment g) → alignment g ≤ max_bytes i → capacity g ≤ cap i →
  current (key o) (journal v) = Some c → zlen content = bytes (metadata c) →
  (content ≠ [] → commits (blocks_of (alignment g) content) g c) → faithful i (dk v) g c content →
  let '(res, v') := read o ver offset length v in
  match res with
  | Ok x => x = ORead (metadata c) offset length ∧ version (metadata c) = ver ∧ offset + length ≤ zlen content ∧
            loan_bytes v' = slice content offset (offset + length)
  | Err (Refused BadIntegrity) => ¬ genuine i (dk v) g c content
  | Err Panicked => False
  | Err _ => True
  end.
Proof.
  intros Hi J [Ho _] [Hl _] g Wa Hm Hc Hk Hb Hcm Hf.
  pose proof (read_spec i i_ok o ver offset length c content v Hi J Ho Hl Wa Hm Hc Hk Hb Hcm Hf) as H. unfold wp in H.
  destruct (read o ver offset length v) as [res v']. destruct H as [[_ P] _]. simpl in P. destruct res as [x|e].
  - by destruct P as (-> & [? ?] & ?).
  - destruct (volume_object_cases o v) as (res & Ev & Hres). unfold read_refuses in P. rewrite Ev in P. simpl in P.
    assert (e ≠ Panicked ∧ (e = Refused BadIntegrity → ¬ genuine i (dk v) g c content)) as [H1 H2].
    { destruct P as [[->|[[-> _]|[-> _]]]|[P|[-> P]]]; try done.
      - destruct Hres as [[-> _]|[[-> _]|[-> _]]]; done.
      - split; [by intros ->|]. by intros ->. }
    destruct e as [[]| |]; try done. by apply H2.
Qed.

(** C10: formatting a device whose root cells are blank makes it a volume of the empty store; stopped
    at any point, by the kernel, the device or the power, it leaves the root cells as they could
    have been before, or a formatted device, an encoded root being within a sector and sectors
    written whole; and it succeeds when nothing stops it. *)
Theorem format_begins g r e j s :
  info s = i → fits i g r e j → role g ≠ CacheScratch → seen z (disk s) 0 (zeroes (2 * alignment g)) →
  let '(res, s') := format g s in
  match res with
  | Ok jr => jr = (j, r) ∧ vol (disk s') r None j empty_store
  | Err x => outside x ∧
             ∀ d', crash (disk s') d' → unformatted i (alignment g) (disk s) d' ∨ ∃ old, vol d' r old j empty_store
  end ∧ (good s → res = Ok (j, r)).
Proof.
  intros Hi F Hr Hb. unfold format. rewrite bool_decide_eq_false_2 by done.
  pose proof (provision_spec i i_ok g r e j s Hi F Hb) as H. unfold spec, wp in H.
  destruct (provision g s) as [res s']. destruct H as [(_ & _ & G) P]. simpl in *. split; [done|].
  intros Gd. destruct (G Gd) as [_ [x ->]]. by destruct P as [-> _].
Qed.

(** C8: what a put has answered is there: after any crash, a mount that nothing stops finds the
    volume, and a read of any range of the object at the version the put gave, into memory of the
    range's length, answers with the bytes that were put. *)
Theorem written_survives v r old m o cd content unique md v' s offset length dest :
  info (dev v) = i → vol (dk v) r old (journal v) m → cell (journal v) ≤ max_bytes i → object_ok o →
  u64 (zlen content) → zlen unique = 16 →
  put o cd (Some content) (zlen content) unique v = (Ok md, v') →
  crash (dk v') (disk s) → info s = i → good s →
  0 ≤ offset → 0 ≤ length → offset + length ≤ zlen content → zlen dest = length →
  ∃ j s' v3,
    mount_inner (alignment (root_geometry r)) (role (root_geometry r)) s = (Ok (j, r), s') ∧
    read o (version md) offset length (mk_Volume s' j r 0 false false (Some dest)) = (Ok (ORead md offset length), v3) ∧
    loan_bytes v3 = slice content offset (offset + length).
Proof.
  intros Hi V Hm Ho Hn Hu Ep C Is Gs H1 H2 H3 Hd.
  pose proof (volume_put_spec i i_ok v r old m o cd (Some content) (zlen content) unique Hi V Hm Ho Hn Hu) as H. unfold wp in H. rewrite Ep in H.
  destruct H as [[_ (-> & Hc & c & Hmd & Hj & V')] _]. apply (vol_crash i i_ok _ _ _ _ _ _ C) in V'. simpl default in *.
  pose proof (mount_spec i i_ok s r old _ _ Is V') as H. unfold spec, wp in H.
  destruct (mount_inner _ _ s) as [res s'] eqn:Em. destruct H as [(Is' & _ & G) P]. simpl in Is', G, P.
  destruct (G Gs) as [Gs' [x ->]]. destruct P as [-> V2]. set (j := advance c (journal v)) in *.
  exists j, s'. set (v2 := mk_Volume s' j r 0 false false (Some dest)).
  pose proof (read_vol v2 r None _ o (version (put_metadata o unique content)) offset length ltac:(by simpl; congruence) V2 H1 H2) as H. unfold wp in H.
  destruct (read _ _ _ _ v2) as [res v3]. simpl in H. destruct H as [[_ P] G2].
  assert (res = Ok (ORead (put_metadata o unique content) offset length)) as ->.
  { apply (G2 _ content); [unfold store_insert; by rewrite bool_decide_eq_true_2| |done].
    destruct (vol_journal _ _ _ _ _ _ V) as [J _].
    assert (journal_object o (journal v) = Ok tt) as Hob by (unfold condition in Hc; by destruct (journal_object o (journal v)) as [[]|]).
    apply journal_object_Ok in Hob as (Vo & _ & Vw & Vb). split; [|split_and!; simpl; unfold in_width in Hn; try done; lia].
    destruct (volume_object_cases o v2) as (res' & -> & Hres). destruct res' as [[]|]; [done|]. simpl in Hres.
    destruct Hres as [[_ [?|?]]|[[_ ?]|[_ ?]]]; (done || tauto). }
  exists v3. split; [done|]. split; [done|]. unfold store_insert in P. rewrite bool_decide_eq_true_2 in P by done. by destruct P as (_ & _ & _ & ?).
Qed.

End run.
