(* ===== verification/StoreExample.v ===== *)
(** * A volume on a small device

    The theorems on volumes at a concrete device of 258 sectors of 512 bytes, formatted, with an
    object of three bytes put on it.  The digest is a constant: the theorems ask nothing of it but
    its length. *)

From S2P Require Import Prelude StoreFormat StoreCodec StoreTree StoreProof StoreJournal StoreBanks StoreDisk StoreCrash StoreLog StoreRoot StoreVolume StoreState StoreMount StorePut StoreRead StoreFresh StoreList StoreReserved StoreMove StoreTyped StoreRun.

#[local] Instance constant_digest : Blake3 := {| blake3 := λ _, repeat x00 32; blake3_len := λ _, eq_refl |}.

Definition ex_info : Info := mk_Info 512 258 64.
Definition ex_geometry : Superblock := mk_Superblock 132096 512 512 32768 33280 SingleNodeHome [x77] [x62].
Definition ex_root : Root := mk_Root 132096 1 0 (mk_Superblock 66560 512 1024 32768 33792 SingleNodeHome [x77] [x62]).
Definition ex_journal : Journal := mk_Journal (root_geometry ex_root) 16384 1024 33792 [].
Definition ex_encoded : list byte := match root_encode ex_root with Ok e => e | Err _ => [] end.

Lemma ex_info_ok : info_ok ex_info.
Proof. split; simpl; try lia. split; [reflexivity|lia]. Qed.

Lemma ex_fits : fits ex_info ex_geometry ex_root ex_encoded ex_journal.
Proof.
  split; try reflexivity; try (vm_compute; congruence).
  unfold superblock_ok, in_width, text_ok. simpl. split_and!; try lia; reflexivity.
Qed.

(** ** The device *)

Definition ex_blank : Disk := mk_Disk (λ _, repeat x00 512) [].
Definition ex_disk : Disk := mk_Disk (λ x, if x =? 0 then cell_of ex_root else repeat x00 512) [].
Definition ex_dev (d : Disk) : Dev := mk_Dev d ex_info [] true false.

Lemma take_repeat {A} (x : A) n m : take n (repeat x m) = repeat x (n `min` m).
Proof. revert m. induction n as [|n IH]; intros [|m]; simpl; try done. by rewrite IH. Qed.

Lemma ex_zero_chunk n k s : n mod 512 = 0 → 0 ≤ n → chunks 512 (zeroes n) !! k = Some s → s = repeat x00 512.
Proof.
  intros Hm Hn Hk. assert (length s = 512%nat) as L.
  { apply (chunk_length 512 ltac:(lia) (zeroes n) k s); [|done]. rewrite repeat_length. apply Nat2Z.inj. rewrite Nat2Z.inj_mod, Z2Nat.id by done. exact Hm. }
  apply chunks_lookup in Hk; [|lia]. rewrite drop_repeat, take_repeat in Hk. rewrite Hk, repeat_length in L. by rewrite Hk, L.
Qed.

Lemma ex_zero_each (P : Z → Sector → Prop) off n :
  n mod 512 = 0 → 0 ≤ n → 0 ≤ off → (∀ x, off / 512 ≤ x → P x (repeat x00 512)) → each 512 P off (zeroes n).
Proof. intros Hm Hn Ho HP k s Hk. apply ex_zero_chunk in Hk as ->; [|done|done]. apply HP. lia. Qed.

Lemma ex_stable d x : pending d = [] → stable d x (durable d x).
Proof. intros Hp t. unfold images. rewrite Hp. simpl. by intros ->%list_elem_of_singleton. Qed.

Lemma ex_seen : seen (z ex_info) (disk (ex_dev ex_blank)) 0 (zeroes (2 * alignment ex_geometry)).
Proof. apply (ex_zero_each _ 0 1024); try done. Qed.

Lemma ex_vol : vol ex_info ex_disk ex_root None ex_journal empty_store.
Proof.
  apply (formatted ex_info ex_info_ok ex_geometry ex_root ex_encoded ex_journal ex_disk ex_fits).
  - destruct (zlen_cell_of ex_root ex_encoded (ft_encodes _ _ _ _ _ ex_fits)) as [_ L]. change (alignment _) with 512 in L.
    intros k s Hk. change (z ex_info) with 512%nat in *. rewrite chunks_one in Hk; [|lia|by intros E; rewrite E in L|unfold zlen in L; lia].
    destruct k as [|k]; [|done]. injection Hk as <-. apply (ex_stable ex_disk 0 eq_refl).
  - apply (ex_zero_each _ 512 512); try done. intros x Hx. pose proof (ex_stable ex_disk x eq_refl) as H. simpl in H.
    destruct (Z.eqb_spec x 0) as [->|]; [done|exact H].
  - apply (ex_zero_each _ 1024 32768); try done. intros x Hx. pose proof (ex_stable ex_disk x eq_refl) as H. simpl in H.
    destruct (Z.eqb_spec x 0) as [->|]; [done|exact H].
Qed.

(** ** The object *)

Definition ex_object : Object := mk_Object [x77] [x62] [x6b].
Definition ex_content : list byte := [x01; x02; x03].
Definition ex_unique : list byte := repeat x07 16.
Definition ex_volume : Volume := mk_Volume (ex_dev ex_disk) ex_journal ex_root 0 false false (Some ex_content).

Lemma ex_object_ok : object_ok ex_object.
Proof. split_and!; reflexivity. Qed.

Lemma ex_good d : good (ex_dev d).
Proof. done. Qed.

Lemma ex_admits : put_admits ex_volume ex_object Absent 3 ex_unique.
Proof.
  split; [done|]. split; [done|]. split; [done|].
  destruct (plan ex_object Absent 3 ex_journal) as [[loc|]|e] eqn:Ep; vm_compute in Ep; [|done|done].
  injection Ep as <-. eexists _, _. split; [reflexivity|]. split; [reflexivity|]. vm_compute. congruence.
Qed.

(** The put, done. *)
Abbreviation ex_metadata := (put_metadata ex_object ex_unique ex_content).
Abbreviation ex_store := (store_insert [x6b] (ex_metadata, ex_content) empty_store).

Lemma ex_put : ∃ v', put ex_object Absent (Some ex_content) 3 ex_unique ex_volume = (Ok ex_metadata, v') ∧
  vol ex_info (disk (dev v')) ex_root None (journal v') ex_store.
Proof.
  pose proof (volume_put_spec ex_info ex_info_ok ex_volume ex_root None empty_store ex_object Absent (Some ex_content) 3 ex_unique
    eq_refl ex_vol ltac:(done) ex_object_ok ltac:(done) eq_refl) as H. unfold wp in H.
  destruct (put _ _ _ _ _ ex_volume) as [res v']. cbn [fst snd] in H. destruct H as [[_ P] G].
  destruct (G ex_admits eq_refl (ex_good _)) as [md ->]. destruct P as (-> & _ & c & _ & Hj & V). exists v'. rewrite Hj. split; [reflexivity|exact V].
Qed.

(** A crash, and the device after it. *)
Lemma ex_crash d : crash d (mk_Disk (durable d) []).
Proof. split; [done|]. intros x. unfold images. left. Qed.

(** The root is within a sector, and its cell torn in one byte does not check. *)
Lemma ex_one_sector : one_sector ex_info ex_root.
Proof. intros e E. destruct (root_encode ex_root) as [e'|] eqn:E'; [|done]. injection E as ->. vm_compute in E'. injection E' as <-. vm_compute. done. Qed.

Lemma ex_torn_refused : root_cell (<[0%nat:=x00]> (cell_of ex_root)) 0 = Err Integrity.
Proof. vm_compute. reflexivity. Qed.

(** ** The theorems there *)

Lemma mount_finds_witness :
  let '(res, s') := mount_inner 512 SingleNodeHome (ex_dev ex_disk) in
  match res with
  | Ok jr => jr = (ex_journal, ex_root) ∧ vol ex_info (disk s') ex_root None ex_journal empty_store
  | Err e => outside e ∧
      (one_sector ex_info ex_root → ∀ d', crash (disk s') d' → ∃ old', vol ex_info d' ex_root old' ex_journal empty_store) ∧
      ∀ d', torn (disk s') d' → (∃ old', vol ex_info d' ex_root old' ex_journal empty_store) ∨ fails_closed ex_info d' ex_root ex_journal empty_store
  end ∧ (good (ex_dev ex_disk) → res = Ok (ex_journal, ex_root)).
Proof. exact (mount_finds ex_info ex_info_ok (ex_dev ex_disk) ex_root None ex_journal empty_store eq_refl ex_vol). Defined.

Lemma format_begins_witness :
  let '(res, s') := format ex_geometry (ex_dev ex_blank) in
  match res with
  | Ok jr => jr = (ex_journal, ex_root) ∧ vol ex_info (disk s') ex_root None ex_journal empty_store
  | Err x => outside x ∧
             ∀ d', crash (disk s') d' → unformatted ex_info 512 ex_blank d' ∨ ∃ old, vol ex_info d' ex_root old ex_journal empty_store
  end ∧ (good (ex_dev ex_blank) → res = Ok (ex_journal, ex_root)).
Proof.
  exact (format_begins ex_info ex_info_ok ex_geometry ex_root ex_encoded ex_journal (ex_dev ex_blank) eq_refl ex_fits ltac:(discriminate) ex_seen).
Defined.

Lemma put_atomic_witness :
  let '(res, v') := put ex_object Absent (Some ex_content) 3 ex_unique ex_volume in
  match res with
  | Ok x => x = ex_metadata ∧ holds_for empty_store [x6b] Absent ∧ vol ex_info (disk (dev v')) ex_root None (journal v') ex_store
  | Err (Refused Unavailable) | Err Crashed =>
      ∀ d', crash (disk (dev v')) d' → ∃ old' j', vol ex_info d' ex_root old' j' empty_store ∨ vol ex_info d' ex_root old' j' ex_store
  | Err (Refused BadIntegrity) | Err Panicked => False
  | Err (Refused _) => vol ex_info (disk (dev v')) ex_root None (journal v') empty_store
  end ∧ (put_admits ex_volume ex_object Absent 3 ex_unique → zlen ex_content = 3 → good (ex_dev ex_disk) → res = Ok ex_metadata).
Proof.
  exact (put_atomic ex_info ex_info_ok ex_volume ex_root None empty_store ex_object Absent (Some ex_content) 3 ex_unique
           eq_refl ex_vol ltac:(vm_compute; congruence) ex_object_ok ltac:(vm_compute; split; congruence) eq_refl).
Defined.

Lemma execute_refines_witness :
  let '(res, v') := execute ex_object (OpCreate 3) ex_unique ex_volume in
  match res with
  | Ok x => ∃ m', op_result empty_store [] ex_object (OpCreate 3) ex_unique ex_content x (loan_bytes v') m' ∧
                  vol ex_info (disk (dev v')) ex_root None (journal v') m'
  | Err (Refused e) =>
      e ≠ BadIntegrity ∧ (vol ex_info (disk (dev v')) ex_root None (journal v') empty_store ∨
        (failed v' = true ∧ survives ex_info (disk (dev v')) ex_root empty_store ex_object ex_unique ex_content))
  | Err Crashed => survives ex_info (disk (dev v')) ex_root empty_store ex_object ex_unique ex_content
  | Err Panicked => False
  end.
Proof.
  exact (execute_refines ex_info ex_info_ok ex_volume ex_root None empty_store ex_object (OpCreate 3) ex_unique
           eq_refl ex_vol ltac:(vm_compute; congruence) ex_object_ok ltac:(vm_compute; split; congruence) eq_refl).
Defined.

Lemma list_complete_witness :
  ∃ v', let l := list_all (S (length (entries (journal v')))) [x6b] None 2 (entries (journal v')) in
    StronglySorted (λ x y, bytes_cmp x y = Lt) ((λ md, key (object md)) <$> l) ∧
    ∀ md, md ∈ l ↔ ∃ k content, starts_with [x6b] k = true ∧ ex_store k = Some (md, content).
Proof.
  destruct ex_put as (v' & _ & V). exists v'.
  exact (list_complete ex_info (disk (dev v')) ex_root None (journal v') ex_store [x6b] 2 V eq_refl).
Defined.

Lemma written_survives_witness :
  ∃ s j s' v3,
    mount_inner 512 SingleNodeHome s = (Ok (j, ex_root), s') ∧
    read ex_object (version ex_metadata) 1 2 (mk_Volume s' j ex_root 0 false false (Some [xff; xff])) = (Ok (ORead ex_metadata 1 2), v3) ∧
    loan_bytes v3 = [x02; x03].
Proof.
  destruct ex_put as (v' & Ep & V). exists (ex_dev (mk_Disk (durable (disk (dev v'))) [])).
  exact (written_survives ex_info ex_info_ok ex_volume ex_root None empty_store ex_object Absent ex_content ex_unique ex_metadata v'
    (ex_dev (mk_Disk (durable (disk (dev v'))) [])) 1 2 [xff; xff] eq_refl ex_vol ltac:(vm_compute; congruence) ex_object_ok
    ltac:(vm_compute; split; congruence) eq_refl Ep (ex_crash _) eq_refl (ex_good _) ltac:(lia) ltac:(lia) ltac:(vm_compute; congruence) eq_refl).
Defined.

(** The commit of the object, and the pages of its tree as the device has them. *)
Lemma ex_commit d j : vol ex_info d ex_root None j ex_store →
  ∃ c, journal_ok j ∧ geometry j = root_geometry ex_root ∧ current [x6b] j = Some c ∧ validate_in c (geometry j) = Ok tt ∧ metadata c = ex_metadata ∧
    commits (blocks_of 512 ex_content) (geometry j) c ∧ genuine ex_info d (geometry j) c ex_content.
Proof.
  intros V. destruct (vol_journal _ _ _ _ _ _ V) as [J G]. pose proof (vo_store _ _ _ _ _ _ V [x6b]) as Hst. unfold store_insert in Hst.
  rewrite bool_decide_eq_true_2 in Hst by done. destruct (current [x6b] j) as [c|] eqn:Ek; [|done]. destruct Hst as [Hm Hst].
  destruct (jo_entries _ J _ _ (smap_get_elem _ _ _ Ek)) as (_ & _ & Vi & (start & pad & tree & rt & El) & _).
  exists c. split; [done|]. split; [done|]. split; [done|]. split; [done|]. split; [done|]. rewrite <- G in Hst. split.
  - destruct Hst as (_ & _ & Hloc). rewrite El in Hloc. change 512 with (alignment (root_geometry ex_root)). rewrite <- G. by apply Hloc.
  - apply (stored_genuine ex_info ex_info_ok); [apply J|done|by rewrite G|done].
Qed.

Lemma read_sound_witness :
  ∃ d j c, let '(res, v') := read ex_object (version ex_metadata) 1 2 (mk_Volume (ex_dev d) j ex_root 0 false false (Some [xff; xff])) in
  match res with
  | Ok x => x = ORead (metadata c) 1 2 ∧ version (metadata c) = version ex_metadata ∧ 3 ≤ zlen ex_content ∧ loan_bytes v' = [x02; x03]
  | Err (Refused BadIntegrity) => ¬ genuine ex_info d (geometry j) c ex_content
  | Err Panicked => False
  | Err _ => True
  end.
Proof.
  destruct ex_put as (v' & _ & V). destruct (ex_commit _ _ V) as (c & J & G & Ek & Vi & Hm & Hc & Hg). exists (disk (dev v')), (journal v'), c.
  assert (alignment (geometry (journal v')) = 512 ∧ capacity (geometry (journal v')) = 66560) as [Ea Eca] by (by rewrite G).
  apply (read_sound ex_info ex_info_ok (mk_Volume (ex_dev (disk (dev v'))) (journal v') ex_root 0 false false (Some [xff; xff])) ex_object
    (version ex_metadata) 1 2 c ex_content eq_refl J ltac:(split; lia) ltac:(split; lia)); cbn [journal]; rewrite ?Ea, ?Eca.
  - done.
  - vm_compute. congruence.
  - vm_compute. congruence.
  - exact Ek.
  - by rewrite Hm.
  - intros _. exact Hc.
  - by apply genuine_faithful.
Defined.

Lemma refused_read_zeroed_witness :
  ∃ e v', execute ex_object (OpRead (mk_Version None None) 0 3) ex_unique ex_volume = (Err (Refused e), v') ∧
    all_zero (loan_bytes v') = true.
Proof.
  exists Missing, (mk_Volume (ex_dev ex_disk) ex_journal ex_root 0 false false (Some [x00; x00; x00])).
  assert (execute ex_object (OpRead (mk_Version None None) 0 3) ex_unique ex_volume =
    (Err (Refused Missing), mk_Volume (ex_dev ex_disk) ex_journal ex_root 0 false false (Some [x00; x00; x00]))) as E by reflexivity.
  split; [exact E|].
  destruct (refused_read_zeroed ex_volume ex_object (mk_Version None None) 0 3 ex_unique Missing _ E ltac:(discriminate) eq_refl eq_refl) as [[H _]|[H _]];
    [exact H|discriminate].
Defined.

Lemma block_proof_exact_witness :
  ∃ d j c p path, current [x6b] j = Some c ∧ proof_new c (geometry j) 0 = Ok p ∧
    (∃ p', accept_all path p = Ok p' ∧ verify_data (padded 512 ex_content) p' = Ok tt) ∧
    genuine ex_info d (geometry j) c ex_content.
Proof.
  destruct ex_put as (v' & _ & V). destruct (ex_commit _ _ V) as (c & J & G & Ek & Vi & Hm & Hc & Hg). exists (disk (dev v')), (journal v'), c.
  assert (blocks_of 512 ex_content !! 0%nat = Some (padded 512 ex_content)) as Hb by reflexivity.
  destruct (block_proof_exact (blocks_of 512 ex_content) (geometry (journal v')) c 0 (padded 512 ex_content) (jo_typed _ J) Vi Hc Hb) as (p & path & Hp & Ha & _).
  exists p, path. split; [exact Ek|]. split; [exact Hp|]. split; [exact Ha|exact Hg].
Defined.

(** ** The other bank *)

Definition ex_next : Root := mk_Root 132096 2 1 (mk_Superblock 132096 512 66560 32768 99328 SingleNodeHome [x77] [x62]).
Definition ex_resources : CompactionResources :=
  mk_CompactionResources 1 ex_next (mk_Journal (root_geometry ex_next) 16384 66560 99328 []) (match root_encode ex_next with Ok e => e | Err _ => [] end) 16384.

Lemma ex_prepared : prepare_compaction ex_volume = (Ok ex_resources, ex_volume).
Proof. reflexivity. Qed.

Lemma compact_atomic_witness :
  ∃ v v', compact_selected true ex_resources None v = (Ok tt, v') ∧ root v' = ex_next ∧
    vol ex_info (disk (dev v')) ex_next None (journal v') (prune None ex_store) ∧ prune None ex_store [x6b] = Some (ex_metadata, ex_content).
Proof.
  destruct ex_put as (v1 & _ & V). set (v := mk_Volume (ex_dev (disk (dev v1))) (journal v1) ex_root 0 false false None).
  pose proof (compact_atomic ex_info ex_info_ok ex_volume ex_volume ex_resources v true None ex_store ex_prepared (λ _ _, eq_refl) eq_refl V) as H.
  destruct (compact_selected true ex_resources None v) as [res v'] eqn:E. destruct H as [H G]. exists v, v'.
  rewrite E. rewrite (G eq_refl eq_refl eq_refl eq_refl ltac:(by exists true) (ex_good _)) in *. destruct H as [Hn H].
  assert (root v' = ex_next) as Er by (change (root_next (root v)) with (Ok (E := Error) ex_next) in Hn; by injection Hn).
  split; [done|]. split; [done|]. rewrite Er in H. split; [done|reflexivity].
Defined.

Lemma volume_typed_witness :
  ∃ s' l, let v := (execute ex_object (OpCreate 3) ex_unique (mk_Volume s' ex_journal ex_root 0 false false l)).2 in
    root_ok (root v) ∧ journal_ok (journal v) ∧ geometry (journal v) = root_geometry (root v) ∧
    physical (root v) = dev_capacity (info (dev v)) ∧ capacity (geometry (journal v)) ≤ dev_capacity (info (dev v)).
Proof.
  pose proof (mount_spec ex_info ex_info_ok (ex_dev ex_disk) ex_root None ex_journal empty_store eq_refl ex_vol) as H. unfold spec, wp in H.
  destruct (mount_inner (alignment (root_geometry ex_root)) (role (root_geometry ex_root)) (ex_dev ex_disk)) as [res s'] eqn:E.
  destruct H as [(_ & _ & G) P]. destruct (G (ex_good _)) as [_ [x Ex]]. simpl in Ex, P. rewrite Ex in P, E. destruct P as [-> _].
  exists s', (Some ex_content). apply volume_typed. apply re_execute. eapply re_mount. exact E.
Defined.
